(* ===== verification/_CoqProject ===== *)
-Q . S2P
Prelude.v
Text.v
Crates.v
Framing.v
Sdp.v
Serde.v
Wire.v
RefCrates.v
RefCodec.v
Protocol.v
Discovery.v
Tunnel.v
Retrieval.v
Async.v
Transport.v
Conn.v
Progress.v
Payment.v
Evm.v
Inputs.v
Quotes.v
Client.v
Service.v
Store.v
Vouched.v
Page.v
Scenario.v
