(* ===== verification/Prelude.v ===== *)
(** * A verification library for the ant-wasm-client browser client

    The repository is a Rust crate, compiled to WebAssembly, with which a web
    page reads and writes files on the Autonomi network without an installed
    node.  This library models the crate under [src/src] as executable
    definitions and proves what makes it correct.  Nothing is assumed: what
    third-party code does is a parameter, with its documented laws as
    hypotheses.

    ** The program

    - [framing.rs], [sdp.rs], [webrtc.rs]: a WebRTC DataChannel to a node,
      opened directly from an address and a certificate hash or through a relay,
      on which length-prefixed frames are sent and received;
    - [tunnel.rs]: a post-quantum handshake over that channel (ML-KEM-768 for
      secrecy, ML-DSA-65 for the node's identity), then sealed requests and
      responses;
    - [protocol.rs], [discovery.rs], [payment.rs]: the messages, in the wire
      formats (postcard, MessagePack) of the node's own crates;
    - [conn.rs]: one authenticated connection, whose requests wait for each
      other on an asynchronous mutex;
    - [retrieval.rs]: a file from its data map, chunk by verified chunk;
    - [evm.rs]: calldata, 256-bit arithmetic and the choice of the quote to pay;
    - [lib.rs]: the exported [WasmClient]: a pool of connections, [connect],
      [download], [fetch_chunk], [upload], [relayed_fetch] and
      [closest_peers_json].

    ** The files

    Foundations:
    - this file: results ([Ok], [Err], and [Panic] for what a Rust panic would
      be), the state monad, arrays of a fixed length, big- and little-endian
      numbers, and the lemmas, hints and tactics the rest shares;
    - [Text]: the [str] operations the crate uses, on UTF-8 bytes;
    - [Crates], [Serde]: the third-party crates as classes of operations and,
      apart, classes of laws; [Wire]: what [derive(Serialize, Deserialize)]
      generates, as descriptions of types;
    - [RefCrates], [RefCodec]: executable instances with proofs of the laws, so
      that the hypotheses can hold and witnesses can run the code.  [hex],
      postcard and MessagePack are written from their formats, the
      cryptography is a toy; no theorem about the client depends on them.

    Components, with the source file each follows, function by function and
    under the same names:
    - [Framing] ([framing.rs]), [Sdp] ([sdp.rs]), [Tunnel] ([tunnel.rs]),
      [Protocol] ([protocol.rs]), [Discovery] ([discovery.rs]), [Payment]
      ([payment.rs]), [Evm] ([evm.rs]), [Retrieval] ([retrieval.rs]);
    - [Async]: [async fn]s.  A [task] is a tree of atomic sections between the
      points where the future may be pending; [poll] is what an executor does;
      [reachable] is every interleaving of any number of tasks with each other
      and with an environment.  A small program logic, [spec], with owned cells
      (who holds the mutex, who has borrowed the receiver) carries invariants
      through all of them;
    - [Transport] ([webrtc.rs]), [Conn] ([conn.rs]): the first two layers of
      tasks.  The browser is seen through what the client can observe: the
      outcome of each call, chosen by the environment, which also delivers
      messages, closes the channel and changes outcomes between polls.  A
      reception that is cut short, a message that arrives in pieces and an event
      between two polls are all steps of that environment;
    - [Inputs], [Quotes], [Client], [Store] ([lib.rs]): the texts the page
      passes in; the check of a quote and the payment calls; the client's state,
      its pool, discovery, [download] and the diagnostics; quotes, payment and
      PUTs of [upload].  A connection is an [Rc] in the code: the pool holds
      indices into the list of every connection ever opened, so two names of one
      connection share its state;
    - [Progress]: the requests of one connection as an abstract machine of turns,
      and what becomes of them when the channel closes; [Service]: runs on a
      network whose nodes answer; [Vouched]: the runs of [store_one] in which one
      node makes a majority;
    - [Page]: any number of calls of one client, overlapping;
    - [Scenario]: concrete runs, and the witnesses of the theorems about them.

    ** What is proved

    The claims carry their ids (C1 to C40) where they stand.

    - Calls of a page (C1 to C3, C9, C14, C15, in [Page], [Client] and [Service]).
      Whatever calls overlap, and whatever the network, the browser and the page's
      [pay] function do: no call panics; a [download] that ends with bytes ends
      with the content published at its address; an [upload] that ends with an address has stored
      each chunk with a majority of its close group or paid for it, and every
      payment was justified by quotes of authenticated nodes for that very chunk;
      every other result is something an authenticated node sealed in answer to
      that very request.  On a network whose nodes answer, a fetch ends with the
      chunk.
    - Connections (C4 to C8, C16, in [Conn] and [Progress]).  A connection is to a
      node that has proved the identity it has; sequence numbers are used once; the
      reply of a request is the one to that request, whatever the order of polling;
      requests take turns, as in an abstract machine that they refine; two polls do
      a whole exchange; no request outlives its channel.
    - The channel (C17 to C19, C37, in [Transport] over [Framing]).  Frames are
      the byte stream, wherever message boundaries fall; the certificate is
      pinned, with the random bytes and the offer the browser handed out; a
      payload outside the limits is sent, and poisons the receiver's channel for
      good.
    - The tunnel (C20, C21, C23): a session is established exactly for an
      authentic [ServerAccept], and both ends then agree on keys and nonces.
    - Retrieval (C10 to C13, C38): integrity, which includes that two retrievals of
      an address agree unless bytes the one was given and bytes the other was given
      have the same hash, completeness when chunks are served (one round for a
      flat map, two for a wrapped one), termination in two rounds, what [upload] stores is what [download] reads,
      and the multi-level maps that do not resolve.
    - Wire formats (C24 to C28, C33, C34, C36): round trips, total readers, and
      what a quote reads as when it is written as a map.
    - Payment (C22, C29 to C32): the split among seven quotes, exactly which quotes
      verify, the injectivity of what is signed and hashed, and 256-bit
      arithmetic as arithmetic of numbers.
    - SDP (C35): what an offer becomes, line by line; and where the code does less than its comments say or its purpose
      asks (C37 to C40).

    ** Integers, bounds and fuel

    Numbers are [Z].  Casts and the byte-wise 256-bit routines reduce modulo the
    width; the sequence number is compared with its limit before it grows, as in
    the code.  A value that comes with its type has its range as a hypothesis
    ([wf], [is_u64]).  A length is bounded by hypothesis only where the code
    casts it ([len p < 2 ^ 32] for a frame, [2 ^ 64] for a calldata word).

    Loops that wait for events have no bound in the code.  [recv_frame] takes as
    fuel the number of messages one call may consume, and is pending, not
    failed, when it is used up.  [poll_recv_frame] shows that fuel beyond the
    queue's length makes no difference to a poll; safety theorems hold for every
    fuel; the theorem that requests end (C8) asks for more fuel than messages
    have arrived, which [counted_run] counts.  Loops with a bound in the code (three attempts, three PUTs) are
    recursions on the list of attempts.  The [while] loop of [download] takes a
    list with one schedule per round, two by C13 and by the proof that the case
    of an empty list is never reached; a schedule is the order in which
    [join_all] wakes its children, and the theorems hold for every one of them.

    ** Not modelled

    - [js_err] wraps an error's text in a JavaScript [Error]; texts are results
      here.  The conversions of [wasm-bindgen] between Rust and JavaScript
      values are left to it, but for [js_display] and the settling of the
      promise that [pay] returns.
    - The inside of the browser (ICE, DTLS, SCTP) and of the third-party crates:
      parameters.  In particular nothing is proved about the cryptography; where
      a theorem needs a primitive to be injective or unforgeable it says so in
      its conclusion (a collision, a signature that verifies).
    - Closures and their registration: a handler is a step on what it captures,
      and does nothing before it is installed.
    - [node_connection.rs] is an unfinished fragment outside the module tree and
      is never compiled; [tests] and the program that writes its fixtures test
      the crate from outside; [web] is the demonstration page. *)

From Stdlib Require Export Init.Byte Strings.Byte ZArith Lia.
From stdpp Require Export base tactics list gmap strings pretty.

#[global] Open Scope Z_scope.

(** ** Results

    [result E A] is Rust's [Result<A, E>] (arguments swapped so that
    [result E] is a monad), with one more constructor for a computation that
    panics: an index or a slice out of range.  Theorems of the form
    [f x <> Panic] are therefore statements about the code's bounds checks. *)
Inductive result (E A : Type) : Type :=
  | Ok (a : A)
  | Err (e : E)
  | Panic.
Arguments Ok {E A} a.
Arguments Err {E A} e.
Arguments Panic {E A}.

(** The client reports almost every error as a [String]. *)
Abbreviation res := (result string).

#[export] Instance result_ret E : MRet (result E) := fun A a => Ok a.

(** Rust's [?] operator. *)
#[export] Instance result_bind E : MBind (result E) := fun A B k m =>
  match m with
  | Ok a => k a
  | Err e => Err e
  | Panic => Panic
  end.

#[export] Instance result_fmap E : FMap (result E) := fun A B f m =>
  match m with
  | Ok a => Ok (f a)
  | Err e => Err e
  | Panic => Panic
  end.

(** [Result::map_err]. *)
Definition map_err {E F A} (f : E -> F) (m : result E A) : result F A :=
  match m with
  | Ok a => Ok a
  | Err e => Err (f e)
  | Panic => Panic
  end.

(** [Option::ok_or]. *)
Definition ok_or {E A} (o : option A) (e : E) : result E A :=
  match o with
  | Some a => Ok a
  | None => Err e
  end.

Definition is_ok {E A} (m : result E A) : bool :=
  match m with
  | Ok _ => true
  | _ => false
  end.

(** An [Option] read out of a [Result] by a caller that only matches [Ok]. *)
Definition ok_option {E A} (m : result E A) : option A :=
  match m with
  | Ok a => Some a
  | _ => None
  end.

(** ** Operations on [&mut self] that may fail

    An operation returns the state it leaves behind in every case: a Rust
    method that returns [Err] keeps the changes it made before. *)
Definition st (S A : Type) : Type := S -> S * res A.

#[export] Instance st_ret S : MRet (st S) := fun A a s => (s, Ok a).

#[export] Instance st_bind S : MBind (st S) := fun A B k m s =>
  match m s with
  | (s', Ok a) => k a s'
  | (s', Err e) => (s', Err e)
  | (s', Panic) => (s', Panic)
  end.

(** A pure fallible computation inside a stateful one. *)
Definition st_lift {S A} (r : res A) : st S A := fun s => (s, r).
Definition st_get {S} : st S S := fun s => (s, Ok s).
Definition st_put {S} (s' : S) : st S unit := fun _ => (s', Ok tt).

(** The concatenation of the pieces of a [format!] string. *)
Definition fmt (pieces : list string) : string :=
  String.concat EmptyString pieces.

(** Decimal rendering of an integer, as [{}] formats it. *)
Definition dec (z : Z) : string := pretty z.

(** ** Bytes *)

Abbreviation bytes := (list byte).

#[export] Instance byte_eq_dec : EqDecision byte := Byte.byte_eq_dec.

Definition Z_of_byte (b : byte) : Z := Z.of_N (Byte.to_N b).

Definition byte_of_Z (z : Z) : byte :=
  match Byte.of_N (Z.to_N (z mod 256)) with
  | Some b => b
  | None => x00
  end.

(** The length of a slice, as the [usize] Rust computes with. *)
Definition len {A} (l : list A) : Z := Z.of_nat (List.length l).

(** [&l[a..b]]: panics unless [0 <= a <= b <= len l]. *)
Definition slice {E A} (l : list A) (a b : Z) : result E (list A) :=
  if (0 <=? a) && (a <=? b) && (b <=? len l)
  then Ok (take (Z.to_nat (b - a)) (drop (Z.to_nat a) l))
  else Panic.

(** [l[i]]: panics out of range. *)
Definition index {E A} (l : list A) (i : Z) : result E A :=
  if 0 <=? i then
    match l !! Z.to_nat i with
    | Some x => Ok x
    | None => Panic
    end
  else Panic.

(** [l.chunks(n)]: pieces of [n] elements, the last one possibly shorter. *)
Fixpoint chunks_fuel {A} (fuel : nat) (n : nat) (l : list A) : list (list A) :=
  match fuel with
  | O => []
  | S fuel =>
      match l with
      | [] => []
      | _ => take n l :: chunks_fuel fuel n (drop n l)
      end
  end.

Definition chunks {A} (n : Z) (l : list A) : list (list A) :=
  chunks_fuel (List.length l) (Z.to_nat n) l.

(** ** Machine integers as byte strings *)

Fixpoint le_bytes (n : nat) (z : Z) : bytes :=
  match n with
  | O => []
  | S n => byte_of_Z z :: le_bytes n (z / 256)
  end.

Fixpoint le_val (l : bytes) : Z :=
  match l with
  | [] => 0
  | b :: l => Z_of_byte b + 256 * le_val l
  end.

(** [to_be_bytes] and [from_be_bytes] of an [8 * n]-bit unsigned integer. *)
Definition be_bytes (n : nat) (z : Z) : bytes := rev (le_bytes n z).
Definition be_val (l : bytes) : Z := le_val (rev l).

(** Values an unsigned integer of [w] bits holds. *)
Definition in_width (w : Z) (z : Z) : Prop := 0 <= z < 2 ^ w.

Abbreviation is_u16 := (in_width 16).
Abbreviation is_u32 := (in_width 32).
Abbreviation is_u64 := (in_width 64).

#[export] Instance in_width_dec w z : Decision (in_width w z).
Proof. unfold in_width. apply _. Defined.

(** ** Fixed-size arrays [[u8; n]] *)

Record arr (n : nat) : Type := Arr {
  arr_list : bytes;
  arr_ok : Nat.eqb (List.length arr_list) n = true;
}.
Arguments Arr {n} arr_list arr_ok.
Arguments arr_list {n} _.
Arguments arr_ok {n} _.
Coercion arr_list : arr >-> list.

(** [<[u8; n]>::try_from(slice)]. *)
Definition try_into (n : nat) (l : bytes) : option (arr n) :=
  match Bool.bool_dec (Nat.eqb (List.length l) n) true with
  | left H => Some (Arr l H)
  | right _ => None
  end.

(** An array from a list whose length is known. *)
Definition mk_arr (n : nat) (l : bytes) (H : List.length l = n) : arr n :=
  Arr l (proj2 (Nat.eqb_eq _ _) H).

(** ** Lemmas: results *)

Lemma bind_Ok {E A B} (m : result E A) (k : A -> result E B) b :
  m ≫= k = Ok b <-> exists a, m = Ok a /\ k a = Ok b.
Proof. destruct m; cbn; naive_solver. Qed.

Lemma bind_Panic {E A B} (m : result E A) (k : A -> result E B) :
  m ≫= k = Panic <-> m = Panic \/ exists a, m = Ok a /\ k a = Panic.
Proof. destruct m; cbn; naive_solver. Qed.

Lemma map_err_Ok {E F A} (f : E -> F) (m : result E A) a :
  map_err f m = Ok a <-> m = Ok a.
Proof. destruct m; cbn; naive_solver. Qed.

Lemma map_err_Panic {E F A} (f : E -> F) (m : result E A) :
  map_err f m = Panic <-> m = Panic.
Proof. destruct m; cbn; naive_solver. Qed.

Lemma ok_or_Ok {E A} (o : option A) (e : E) a :
  ok_or o e = Ok a <-> o = Some a.
Proof. destruct o; cbn; naive_solver. Qed.

(** Peels the [?]s of a hypothesis of the form [... = Ok _]. *)
Ltac inv_res :=
  repeat match goal with
  | H : Ok _ = Ok _ |- _ => injection H as H
  | H : Err _ = Err _ |- _ => injection H as H
  | H : Ok _ = Err _ |- _ => discriminate H
  | H : Err _ = Ok _ |- _ => discriminate H
  | H : Panic = Ok _ |- _ => discriminate H
  | H : Ok _ = Panic |- _ => discriminate H
  | H : Err _ = Panic |- _ => discriminate H
  | H : Panic = Err _ |- _ => discriminate H
  | H : mret _ = _ |- _ => unfold mret, result_ret in H
  | H : _ ≫= _ = Ok _ |- _ =>
      apply bind_Ok in H; destruct H as (? & ? & ?)
  | H : map_err _ _ = Ok _ |- _ => apply map_err_Ok in H
  | H : ok_or _ _ = Ok _ |- _ => apply ok_or_Ok in H
  | H : (match ?x with _ => _ end) = Ok _ |- _ => destruct x eqn:?; try discriminate H
  | H : (let (_, _) := ?x in _) = Ok _ |- _ => destruct x eqn:?; try discriminate H
  end; subst.

(** ** Lemmas: bytes *)

Lemma Z_of_byte_range b : 0 <= Z_of_byte b < 256.
Proof.
  unfold Z_of_byte. pose proof (Byte.to_N_bounded b). lia.
Qed.

Lemma Z_of_byte_of_Z z : Z_of_byte (byte_of_Z z) = z mod 256.
Proof.
  unfold Z_of_byte, byte_of_Z.
  pose proof (Z.mod_pos_bound z 256 ltac:(lia)) as Hb.
  destruct (Byte.of_N (Z.to_N (z mod 256))) eqn:E.
  - apply Byte.to_of_N in E. rewrite E. lia.
  - apply Byte.of_N_None_iff in E. lia.
Qed.

Lemma byte_of_Z_of_byte b : byte_of_Z (Z_of_byte b) = b.
Proof.
  unfold byte_of_Z. rewrite Z.mod_small by apply Z_of_byte_range.
  unfold Z_of_byte. rewrite N2Z.id. by rewrite Byte.of_to_N.
Qed.

Lemma Z_of_byte_inj b c : Z_of_byte b = Z_of_byte c -> b = c.
Proof. intros H. by rewrite <- (byte_of_Z_of_byte b), H, byte_of_Z_of_byte. Qed.

#[export] Instance byte_countable : Countable byte.
Proof.
  refine (inj_countable' (fun b => Byte.to_N b)
    (fun n => match Byte.of_N n with Some b => b | None => x00 end) _).
  intros b. by rewrite Byte.of_to_N.
Defined.

(** ** Lemmas: lengths, slices and chunks *)

Lemma len_app {A} (l1 l2 : list A) : len (l1 ++ l2) = len l1 + len l2.
Proof. unfold len. rewrite length_app. lia. Qed.

Lemma len_nonneg {A} (l : list A) : 0 <= len l.
Proof. unfold len. lia. Qed.

Lemma len_cons {A} (x : A) l : len (x :: l) = 1 + len l.
Proof. unfold len. simpl. lia. Qed.

Lemma len_nil {A} : len (@nil A) = 0.
Proof. done. Qed.

Lemma slice_Ok {E A} (l : list A) a b x :
  slice (E:=E) l a b = Ok x <->
  0 <= a <= b /\ b <= len l /\ x = take (Z.to_nat (b - a)) (drop (Z.to_nat a) l).
Proof.
  unfold slice. destruct (Z.leb_spec 0 a), (Z.leb_spec a b), (Z.leb_spec b (len l));
    cbn; split; intros; naive_solver lia.
Qed.

Lemma slice_in {E A} (l : list A) a b :
  0 <= a <= b -> b <= len l ->
  slice (E:=E) l a b = Ok (take (Z.to_nat (b - a)) (drop (Z.to_nat a) l)).
Proof. intros. by apply slice_Ok. Qed.

Lemma slice_app {E A} (l1 l2 l3 : list A) a b :
  a = len l1 -> b = len l1 + len l2 ->
  slice (E:=E) (l1 ++ l2 ++ l3) a b = Ok l2.
Proof.
  intros -> ->. rewrite slice_in.
  - f_equal. rewrite drop_app_length' by (unfold len; lia).
    rewrite take_app_length' by (unfold len; lia). done.
  - pose proof (len_nonneg l1). pose proof (len_nonneg l2). lia.
  - rewrite !len_app. pose proof (len_nonneg l3). lia.
Qed.

(** [&l[1..]] of a nonempty slice. *)
Lemma slice_tail {E A} (x : A) l : slice (E:=E) (x :: l) 1 (len (x :: l)) = Ok l.
Proof.
  pose proof (len_nonneg l). rewrite len_cons, slice_in by (rewrite ?len_cons; lia).
  f_equal. change (drop (Z.to_nat 1) (x :: l)) with l.
  apply take_ge. unfold len. lia.
Qed.

Lemma index_Ok {E A} (l : list A) i x :
  index (E:=E) l i = Ok x <-> 0 <= i /\ l !! Z.to_nat i = Some x.
Proof.
  unfold index. destruct (Z.leb_spec 0 i); [|split; intros; [done|lia]].
  destruct (l !! Z.to_nat i); naive_solver.
Qed.

Lemma chunks_fuel_concat {A} fuel n (l : list A) :
  (0 < n)%nat -> (List.length l <= fuel)%nat ->
  mjoin (chunks_fuel fuel n l) = l.
Proof.
  intros Hn. revert l. induction fuel as [|fuel IH]; intros l Hl; simpl.
  - by destruct l; [|simpl in Hl; lia].
  - destruct l as [|x l]; [done|].
    cbn [mjoin list_join]. change (list_join ?x) with (mjoin x).
    rewrite IH; [apply take_drop|]. rewrite length_drop. simpl in *. lia.
Qed.

(** Concatenating the chunks gives the slice back. *)
Lemma chunks_concat {A} n (l : list A) : 0 < n -> mjoin (chunks n l) = l.
Proof. intros. apply chunks_fuel_concat; lia. Qed.

Lemma chunks_fuel_sizes {A} fuel n (l : list A) :
  (0 < n)%nat ->
  Forall (fun c => (0 < List.length c <= n)%nat) (chunks_fuel fuel n l).
Proof.
  intros Hn. revert l. induction fuel as [|fuel IH]; intros l; simpl; [constructor|].
  destruct l as [|x l]; constructor; [|apply IH].
  rewrite length_take. simpl. lia.
Qed.

(** No chunk is empty and none exceeds the chunk size. *)
Lemma chunks_sizes {A} n (l : list A) :
  0 < n -> Forall (fun c => 0 < len c <= n) (chunks n l).
Proof.
  intros Hn. eapply Forall_impl; [apply chunks_fuel_sizes; lia|].
  intros c Hc. unfold len. cbn in Hc. lia.
Qed.

(** Pieces that all have the chunk size are the chunks of their
    concatenation. *)
Lemma chunks_fuel_mjoin {A} fuel n (ls : list (list A)) :
  (0 < n)%nat -> Forall (fun l => List.length l = n) ls -> (List.length (mjoin ls) <= fuel)%nat ->
  chunks_fuel fuel n (mjoin ls) = ls.
Proof.
  intros Hn HF. revert fuel. induction HF as [|l ls Hl HF IH]; intros fuel Hf; [by destruct fuel|].
  change (mjoin (l :: ls)) with (l ++ mjoin ls) in *. rewrite length_app in Hf.
  destruct fuel as [|fuel]; [lia|]. destruct l as [|x l]; [cbn in Hl; lia|]. cbn [chunks_fuel app].
  change (x :: l ++ mjoin ls) with ((x :: l) ++ mjoin ls). subst n.
  rewrite take_app_length, drop_app_length. f_equal. apply IH. cbn in Hf. lia.
Qed.

Lemma chunks_mjoin {A} n (ls : list (list A)) :
  0 < n -> Forall (fun l => len l = n) ls -> chunks n (mjoin ls) = ls.
Proof.
  intros Hn HF. apply chunks_fuel_mjoin; [lia| |done]. eapply Forall_impl; [exact HF|].
  intros l Hl. unfold len in Hl. cbn in *. lia.
Qed.

(** ** Lemmas: integers as bytes *)

Lemma length_le_bytes n z : List.length (le_bytes n z) = n.
Proof. revert z. induction n; intros; simpl; auto. Qed.

Lemma le_val_bytes n z : le_val (le_bytes n z) = z mod 2 ^ (8 * Z.of_nat n).
Proof.
  revert z. induction n as [|n IH]; intros z.
  - simpl. by rewrite Z.mod_1_r.
  - cbn [le_bytes le_val]. rewrite IH, Z_of_byte_of_Z.
    replace (8 * Z.of_nat (S n)) with (8 + 8 * Z.of_nat n) by lia.
    rewrite Z.pow_add_r by lia. change (2 ^ 8) with 256.
    rewrite Z.rem_mul_r by lia. done.
Qed.

Lemma le_val_range l : 0 <= le_val l < 2 ^ (8 * len l).
Proof.
  induction l as [|b l IH]; [done|].
  cbn [le_val]. rewrite len_cons.
  replace (8 * (1 + len l)) with (8 + 8 * len l) by lia.
  pose proof (len_nonneg l). rewrite Z.pow_add_r by lia. change (2 ^ 8) with 256.
  pose proof (Z_of_byte_range b). lia.
Qed.

Lemma le_bytes_val l : le_bytes (List.length l) (le_val l) = l.
Proof.
  induction l as [|b l IH]; [done|].
  cbn [le_val List.length le_bytes].
  pose proof (Z_of_byte_range b) as Hb. f_equal.
  - apply Z_of_byte_inj. rewrite Z_of_byte_of_Z.
    rewrite Z.mul_comm, Z.mod_add by lia. by apply Z.mod_small.
  - rewrite Z.mul_comm, Z.div_add by lia. rewrite Z.div_small by lia. done.
Qed.

Lemma length_be_bytes n z : List.length (be_bytes n z) = n.
Proof. unfold be_bytes. by rewrite length_rev, length_le_bytes. Qed.

Lemma be_val_bytes n z : be_val (be_bytes n z) = z mod 2 ^ (8 * Z.of_nat n).
Proof. unfold be_val, be_bytes. by rewrite rev_involutive, le_val_bytes. Qed.

Lemma be_val_bytes_small n z :
  in_width (8 * Z.of_nat n) z -> be_val (be_bytes n z) = z.
Proof. intros. rewrite be_val_bytes. by apply Z.mod_small. Qed.

Lemma be_bytes_val l : be_bytes (List.length l) (be_val l) = l.
Proof.
  unfold be_val, be_bytes. rewrite <- (length_rev l), le_bytes_val.
  apply rev_involutive.
Qed.

Lemma be_val_range l : 0 <= be_val l < 2 ^ (8 * len l).
Proof.
  unfold be_val. pose proof (le_val_range (rev l)) as H.
  unfold len in *. by rewrite length_rev in H.
Qed.

Lemma be_bytes_inj n a b :
  in_width (8 * Z.of_nat n) a -> in_width (8 * Z.of_nat n) b ->
  be_bytes n a = be_bytes n b -> a = b.
Proof.
  intros Ha Hb H. rewrite <- (be_val_bytes_small n a), <- (be_val_bytes_small n b) by done.
  by rewrite H.
Qed.

Lemma be_val_inj l1 l2 :
  List.length l1 = List.length l2 -> be_val l1 = be_val l2 -> l1 = l2.
Proof.
  intros Hl H. rewrite <- (be_bytes_val l1), <- (be_bytes_val l2). by rewrite Hl, H.
Qed.

(** ** Lemmas: arrays *)

Lemma arr_length {n} (a : arr n) : List.length a = n.
Proof. apply Nat.eqb_eq, arr_ok. Qed.

Lemma arr_len {n} (a : arr n) : len a = Z.of_nat n.
Proof. unfold len. by rewrite arr_length. Qed.

(** An array is determined by its bytes. *)
Lemma arr_eq {n} (a b : arr n) : (a : bytes) = b -> a = b.
Proof.
  destruct a as [l H], b as [l' H']; cbn. intros ->. f_equal. apply proof_irrel.
Qed.

#[export] Instance arr_eq_dec n : EqDecision (arr n).
Proof.
  intros a b. destruct (decide ((a : bytes) = b)) as [H|H].
  - left. by apply arr_eq.
  - right. by intros ->.
Defined.

Lemma try_into_arr {n} (a : arr n) : try_into n a = Some a.
Proof.
  unfold try_into. destruct (Bool.bool_dec _ _) as [H|H].
  - f_equal. by apply arr_eq.
  - destruct H. apply arr_ok.
Qed.

Lemma try_into_Some n l a : try_into n l = Some a <-> l = arr_list a.
Proof.
  split.
  - unfold try_into. destruct (Bool.bool_dec _ _); naive_solver.
  - intros ->. apply try_into_arr.
Qed.

Lemma try_into_None n l : try_into n l = None <-> List.length l <> n.
Proof.
  unfold try_into. destruct (Bool.bool_dec _ _) as [H|H].
  - split; [done|]. intros []. by apply Nat.eqb_eq.
  - split; [|done]. intros _ Hl. by apply H, Nat.eqb_eq.
Qed.

Lemma try_into_length n l : List.length l = n -> exists a, try_into n l = Some a /\ (a : bytes) = l.
Proof. intros H. exists (mk_arr n l H). split; [by apply try_into_Some|done]. Qed.

#[export] Instance arr_countable n : Countable (arr n).
Proof.
  refine (inj_countable (fun a : arr n => arr_list a) (fun l => try_into n l) _).
  intros a. apply try_into_arr.
Defined.

(** ** Automation *)

(** [wasm] collects the facts that discharge the side conditions of most
    proofs: lengths of encodings and ranges of values. *)
Create HintDb wasm.
Create Rewrite HintDb wasm.
#[export] Hint Resolve Z_of_byte_range len_nonneg be_val_range le_val_range : wasm.
#[export] Hint Rewrite @len_app @len_cons @len_nil @length_app length_be_bytes length_le_bytes
  @arr_length @arr_len : wasm.

(** Normalises lengths everywhere, then calls [lia]. *)
Ltac len_lia :=
  repeat match goal with
  | |- context [len ?l] => lazymatch goal with
     | _ : 0 <= len l |- _ => fail
     | _ => pose proof (len_nonneg l) end
  end;
  autorewrite with wasm in *; unfold len in *; autorewrite with wasm in *; lia.
