(* ===== verification/Text.v ===== *)
(** * The string operations of the standard library the client uses

    A Rust [str] is the [string] of its UTF-8 bytes. *)

From Stdlib Require Import Ascii.
From S2P Require Import Prelude.

#[global] Open Scope string_scope.
#[global] Open Scope list_scope.
#[global] Open Scope Z_scope.

#[global] Arguments String.append !_ _ : simpl nomatch.

(** The empty string (the literal would be a doubled quote). *)
Abbreviation str_nil := EmptyString.

(** [str::as_bytes] and [String::from_utf8_unchecked]. *)
Definition as_bytes (s : string) : bytes := String.list_byte_of_string s.
Definition of_bytes (l : bytes) : string := String.string_of_list_byte l.

(** [str::len]: the number of UTF-8 bytes. *)
Definition str_len (s : string) : Z := Z.of_nat (String.length s).

Definition LF : ascii := "010"%char.
Definition CR : ascii := "013"%char.
Definition COLON : ascii := ":"%char.
Definition QUOTE : ascii := "034"%char.

(** ["\r\n"] *)
Definition CRLF : string := String CR (String LF EmptyString).

(** [str::starts_with]. *)
Definition starts_with (s p : string) : bool := String.prefix p s.

(** [str::strip_prefix]. *)
Fixpoint strip_prefix (p s : string) : option string :=
  match p, s with
  | EmptyString, _ => Some s
  | String a p, String b s => if Ascii.eqb a b then strip_prefix p s else None
  | String _ _, EmptyString => None
  end.

(** [str::strip_suffix] of one character. *)
Fixpoint strip_suffix_char (c : ascii) (s : string) : option string :=
  match s with
  | EmptyString => None
  | String a EmptyString => if Ascii.eqb a c then Some EmptyString else None
  | String a s => String a <$> strip_suffix_char c s
  end.

(** [str::contains] of one character. *)
Fixpoint contains_char (c : ascii) (s : string) : bool :=
  match s with
  | EmptyString => false
  | String a s => Ascii.eqb a c || contains_char c s
  end.

(** [str::split] at one character: one more piece than separators. *)
Fixpoint split_char (c : ascii) (s : string) : list string :=
  match s with
  | EmptyString => [EmptyString]
  | String a s =>
      if Ascii.eqb a c then EmptyString :: split_char c s
      else match split_char c s with
           | [] => [String a EmptyString]
           | w :: ws => String a w :: ws
           end
  end.

(** [str::is_empty]. *)
Definition is_empty (s : string) : bool :=
  match s with
  | EmptyString => true
  | _ => false
  end.

(** ** [str::trim]: the UTF-8 encodings of the characters with the Unicode
    property [White_Space]. *)
Definition white_space : list bytes :=
  [ [x09]; [x0a]; [x0b]; [x0c]; [x0d]; [x20];
    [xc2; x85]; [xc2; xa0];
    [xe1; x9a; x80];
    [xe2; x80; x80]; [xe2; x80; x81]; [xe2; x80; x82]; [xe2; x80; x83];
    [xe2; x80; x84]; [xe2; x80; x85]; [xe2; x80; x86]; [xe2; x80; x87];
    [xe2; x80; x88]; [xe2; x80; x89]; [xe2; x80; x8a];
    [xe2; x80; xa8]; [xe2; x80; xa9]; [xe2; x80; xaf];
    [xe2; x81; x9f]; [xe3; x80; x80] ].

Fixpoint strip_list_prefix (p l : bytes) : option bytes :=
  match p, l with
  | [], _ => Some l
  | a :: p, b :: l => if decide (a = b) then strip_list_prefix p l else None
  | _ :: _, [] => None
  end.

(** The rest of [l] after the first character of [ws] it starts with. *)
Fixpoint strip_one (ws : list bytes) (l : bytes) : option bytes :=
  match ws with
  | [] => None
  | w :: ws =>
      match strip_list_prefix w l with
      | Some rest => Some rest
      | None => strip_one ws l
      end
  end.

Fixpoint strip_while (fuel : nat) (ws : list bytes) (l : bytes) : bytes :=
  match fuel with
  | O => l
  | S fuel =>
      match strip_one ws l with
      | Some rest => strip_while fuel ws rest
      | None => l
      end
  end.

(** A character is at least one byte, so the length of the text is enough
    fuel. *)
Definition trim_start_bytes (l : bytes) : bytes :=
  strip_while (List.length l) white_space l.

Definition trim_end_bytes (l : bytes) : bytes :=
  rev (strip_while (List.length l) (map (@rev byte) white_space) (rev l)).

Definition trim (s : string) : string :=
  of_bytes (trim_end_bytes (trim_start_bytes (as_bytes s))).

(** ** Formatting *)

Definition hex_digit (z : Z) : ascii :=
  match String.get (Z.to_nat z) "0123456789abcdef" with
  | Some c => c
  | None => "0"%char
  end.

(** [format!] of a byte with [{:02x}]. *)
Definition hex_02x (b : byte) : string :=
  String (hex_digit (Z_of_byte b / 16)) (String (hex_digit (Z_of_byte b mod 16)) EmptyString).

(** ** Lemmas *)

Lemma as_bytes_of_bytes l : as_bytes (of_bytes l) = l.
Proof. apply String.list_byte_of_string_of_list_byte. Qed.

Lemma of_bytes_as_bytes s : of_bytes (as_bytes s) = s.
Proof. apply String.string_of_list_byte_of_string. Qed.

Lemma as_bytes_inj s t : as_bytes s = as_bytes t -> s = t.
Proof. intros H. by rewrite <- (of_bytes_as_bytes s), H, of_bytes_as_bytes. Qed.

Lemma as_bytes_cons a s : as_bytes (String a s) = byte_of_ascii a :: as_bytes s.
Proof. done. Qed.

Lemma as_bytes_app s t : as_bytes (s +:+ t) = as_bytes s ++ as_bytes t.
Proof.
  induction s as [|a s IH]; [done|]. change (String a s +:+ t) with (String a (s +:+ t)).
  by rewrite !as_bytes_cons, IH.
Qed.

Lemma split_char_cons c s : exists w ws, split_char c s = w :: ws.
Proof.
  induction s as [|a s IH]; simpl; [eauto|].
  destruct (Ascii.eqb a c); [eauto|]. destruct IH as (w & ws & ->). eauto.
Qed.

Lemma contains_char_app c s t :
  contains_char c (s +:+ t) = contains_char c s || contains_char c t.
Proof. induction s as [|a s IH]; [done|]. cbn. by rewrite IH, orb_assoc. Qed.

Lemma str_app_assoc (s t u : string) : (s +:+ t) +:+ u = s +:+ (t +:+ u).
Proof. induction s as [|a s IH]; [done|]. cbn. by rewrite IH. Qed.

Lemma str_app_nil_r (s : string) : s +:+ EmptyString = s.
Proof. induction s as [|a s IH]; [done|]. cbn. by rewrite IH. Qed.

Lemma split_char_none c s :
  contains_char c s = false -> split_char c s = [s].
Proof.
  induction s as [|a s IH]; [done|]. cbn. intros [-> H]%orb_false_iff.
  by rewrite IH.
Qed.

(** A piece without the separator followed by the separator is split off. *)
Lemma split_char_app c s t :
  contains_char c s = false ->
  split_char c (s +:+ String c t) = s :: split_char c t.
Proof.
  induction s as [|a s IH]; cbn.
  - by rewrite Ascii.eqb_refl.
  - intros [-> H]%orb_false_iff. by rewrite IH.
Qed.

(** No piece contains the separator. *)
Lemma split_char_free c s :
  Forall (fun w => contains_char c w = false) (split_char c s).
Proof.
  induction s as [|a s IH]; cbn; [by repeat constructor|].
  destruct (Ascii.eqb a c) eqn:E; [by constructor|].
  destruct (split_char c s) as [|w ws]; constructor.
  - cbn. by rewrite E.
  - constructor.
  - inversion IH; subst. cbn. by rewrite E.
  - by inversion IH.
Qed.

Lemma strip_suffix_char_app c s :
  strip_suffix_char c (s +:+ String c EmptyString) = Some s.
Proof.
  induction s as [|a s IH]; cbn.
  - by rewrite Ascii.eqb_refl.
  - cbn in IH. rewrite IH. by destruct s.
Qed.

Lemma strip_suffix_char_Some c s t :
  strip_suffix_char c s = Some t -> s = t +:+ String c EmptyString.
Proof.
  revert t. induction s as [|a s IH]; intros t; cbn; [done|].
  destruct s as [|b s].
  - destruct (Ascii.eqb a c) eqn:E; [|done]. intros [= <-].
    apply Ascii.eqb_eq in E. by subst.
  - destruct (strip_suffix_char c (String b s)) as [u|]; [|done].
    intros [= <-]. cbn. f_equal. by apply IH.
Qed.

Lemma str_length_app s t : String.length (s +:+ t) = (String.length s + String.length t)%nat.
Proof. induction s as [|a s IH]; [done|]. cbn. by rewrite IH. Qed.

(** ** UTF-8 validity (the invariant of [str]) *)

Definition in_range (lo hi : Z) (b : byte) : bool := (lo <=? Z_of_byte b) && (Z_of_byte b <=? hi).
Definition cont (b : byte) : bool := in_range 128 191 b.

(** [core::str::from_utf8], by the table of well-formed byte sequences. *)
Fixpoint utf8_valid (l : bytes) : bool :=
  match l with
  | [] => true
  | a :: l1 =>
      if in_range 0 127 a then utf8_valid l1
      else match l1 with
      | b :: l2 =>
          if in_range 194 223 a then cont b && utf8_valid l2
          else match l2 with
          | c :: l3 =>
              if in_range 224 239 a then
                in_range (if Z_of_byte a =? 224 then 160 else 128)
                         (if Z_of_byte a =? 237 then 159 else 191) b
                && cont c && utf8_valid l3
              else match l3 with
              | d :: l4 =>
                  in_range 240 244 a
                  && in_range (if Z_of_byte a =? 240 then 144 else 128)
                              (if Z_of_byte a =? 244 then 143 else 191) b
                  && cont c && cont d && utf8_valid l4
              | [] => false
              end
          | [] => false
          end
      | [] => false
      end
  end.

Definition str_valid (s : string) : bool := utf8_valid (as_bytes s).
