(* ===== verification/Crates.v ===== *)
(** * Interfaces of the third-party crates

    The client delegates hashing, encryption, signatures, key encapsulation,
    hex and self-encryption to crates whose code is not part of the
    repository.  Each is a class of operations (no laws) that the models take
    as a parameter; the documented behaviour a theorem relies on is a separate
    class of laws ([...Laws]), so that a theorem's hypotheses show which laws it
    uses. *)

From S2P Require Import Prelude Text.

(** ** [hex] *)

Class Hex := {
  hex_encode : bytes -> string;
  hex_decode : string -> res bytes;   (* [Err] carries the displayed error *)
}.

Class HexLaws `{Hex} : Prop := {
  hex_decode_encode b : hex_decode (hex_encode b) = Ok b;
  hex_encode_len b : str_len (hex_encode b) = 2 * len b;
  hex_decode_len s b : hex_decode s = Ok b -> str_len s = 2 * len b;
  hex_decode_total s : hex_decode s <> Panic;
  (** Lowercase, two digits for each byte. *)
  hex_encode_format b : hex_encode b = fold_right (fun b s => hex_02x b +:+ s) EmptyString b;
}.

(** ** [blake3] and [sha3] *)

Class Blake3 := {
  blake3_hash : bytes -> arr 32;
  blake3_derive_key : string -> bytes -> arr 32;
}.

Class Keccak := {
  keccak256 : bytes -> arr 32;
}.

(** ** [chacha20poly1305] *)

Class ChaCha := {
  aead_encrypt : arr 32 -> arr 12 -> bytes -> option bytes;
  aead_decrypt : arr 32 -> arr 12 -> bytes -> option bytes;
}.

Class ChaChaLaws `{ChaCha} : Prop := {
  aead_decrypt_encrypt k n p c :
    aead_encrypt k n p = Some c -> aead_decrypt k n c = Some p;
  (** A valid tag is the tag encryption computes. *)
  aead_encrypt_decrypt k n p c :
    aead_decrypt k n c = Some p -> aead_encrypt k n p = Some c;
}.

(** Sizes of the post-quantum objects, in bytes. *)
Definition EK_LEN : nat := 1184.
Definition CT_LEN : nat := 1088.
Definition PK_LEN : nat := 1952.
Definition SIG_LEN : nat := 3309.

(** ** [fips203] (ML-KEM-768)

    Key generation and encapsulation are randomised: the randomness is an
    argument. *)

Class MlKem := {
  DecapsKey : Type;
  CipherText : Type;
  Randomness : Type;
  kem_try_keygen : Randomness -> res (arr EK_LEN * DecapsKey);
  ct_try_from_bytes : arr CT_LEN -> option CipherText;
  try_decaps : DecapsKey -> CipherText -> option (arr 32);
  kem_encaps : arr EK_LEN -> Randomness -> option (arr 32 * arr CT_LEN);
}.

Class MlKemLaws `{MlKem} : Prop := {
  kem_correct r r' ek dk ss ct :
    kem_try_keygen r = Ok (ek, dk) ->
    kem_encaps ek r' = Some (ss, ct) ->
    exists c, ct_try_from_bytes ct = Some c /\ try_decaps dk c = Some ss;
  kem_try_keygen_total r : kem_try_keygen r <> Panic;
}.

(** ** [fips204] (ML-DSA-65) *)

Class MlDsa := {
  PublicKey : Type;
  SecretKey : Type;
  pk_try_from_bytes : arr PK_LEN -> option PublicKey;
  dsa_verify : PublicKey -> bytes -> arr SIG_LEN -> bytes -> bool;
  sk_public : SecretKey -> arr PK_LEN;
  dsa_sign : SecretKey -> bytes -> bytes -> arr SIG_LEN;
}.

Class MlDsaLaws `{MlDsa} : Prop := {
  dsa_correct sk msg ctx :
    exists pk, pk_try_from_bytes (sk_public sk) = Some pk /\
               dsa_verify pk msg (dsa_sign sk msg ctx) ctx = true;
}.

(** ** [self_encryption]

    A file is a data map naming the encrypted chunks it is made of; a large
    map is itself encrypted into chunks and replaced by a smaller "child" map
    that names those. *)

Record EncryptedChunk : Type := { content : bytes }.

Class SelfEncryption := {
  DataMap : Type;
  (** [DataMap::infos], the [dst_hash] of each [ChunkInfo]. *)
  infos : DataMap -> list (arr 32);
  is_child : DataMap -> bool;
  verify_chunk : arr 32 -> bytes -> res EncryptedChunk;
  (** [rmp_serde::from_slice::<DataMap>]. *)
  data_map_of_bytes : bytes -> res DataMap;
  (** How the crate opens a child map: what the chunks of its one level decrypt
      to, and the map those bytes hold. *)
  decrypt_level : DataMap -> list EncryptedChunk -> res bytes;
  data_map_inner : bytes -> res DataMap;
  get_root_data_map : DataMap -> (arr 32 -> res bytes) -> res DataMap;
  (** The public [decrypt], from the chunks of a root map. *)
  decrypt : DataMap -> list EncryptedChunk -> res bytes;
}.

(** The levels [get_root_data_map] walks, fetching the chunks of each. *)
Inductive unwraps `{SelfEncryption} (fetch : arr 32 -> res bytes) : DataMap -> DataMap -> Prop :=
  | unwrap_root m : is_child m = false -> unwraps fetch m m
  | unwrap_child m chunks bs m' root :
      is_child m = true ->
      Forall2 (fun a c => fetch a = Ok (content c)) (infos m) chunks ->
      decrypt_level m chunks = Ok bs ->
      data_map_inner bs = Ok m' ->
      unwraps fetch m' root ->
      unwraps fetch m root.

Class SelfEncryptionLaws `{Blake3} `{SelfEncryption} : Prop := {
  verify_chunk_Ok a b c : verify_chunk a b = Ok c <-> content c = b /\ blake3_hash b = a;
  get_root_Ok m fetch root : get_root_data_map m fetch = Ok root -> unwraps fetch m root;
  get_root_one_level m fetch chunks bs root :
    is_child m = true ->
    Forall2 (fun a c => fetch a = Ok (content c)) (infos m) chunks ->
    decrypt_level m chunks = Ok bs -> data_map_inner bs = Ok root -> is_child root = false ->
    get_root_data_map m fetch = Ok root;
  verify_chunk_total a b : verify_chunk a b <> Panic;
  data_map_of_bytes_total b : data_map_of_bytes b <> Panic;
  get_root_total m fetch : (forall a, fetch a <> Panic) -> get_root_data_map m fetch <> Panic;
  decrypt_total m chunks : decrypt m chunks <> Panic;
}.

(** The other direction, together with [rmp_serde::to_vec] of a map.
    [shrink_data_map] gives the new map and the calls of its [store] closure,
    name and content, in order. *)
Class SelfEncryptor `{SelfEncryption} := {
  encrypt : bytes -> res (DataMap * list EncryptedChunk);
  shrink_data_map : DataMap -> res (DataMap * list (arr 32 * bytes));
  data_map_to_vec : DataMap -> res bytes;
}.

(** The chunks [encrypt] returns are enough to get the content back, and what
    [shrink_data_map] stores is enough to get the original map back. *)
Class SelfEncryptorLaws `{Blake3} `{SelfEncryptor} : Prop := {
  encrypt_Ok data m cs fetch :
    encrypt data = Ok (m, cs) ->
    (forall c, c ∈ cs -> fetch (blake3_hash (content c)) = Ok (content c)) ->
    exists root chunks,
      unwraps fetch m root /\ Forall2 (fun a c => fetch a = Ok (content c)) (infos root) chunks /\
      decrypt root chunks = Ok data;
  shrink_names m m' stored : shrink_data_map m = Ok (m', stored) -> Forall (fun s => blake3_hash s.2 = s.1) stored;
  shrink_Ok m m' stored fetch root :
    shrink_data_map m = Ok (m', stored) -> (forall name bs, (name, bs) ∈ stored -> fetch name = Ok bs) ->
    unwraps fetch m root -> unwraps fetch m' root;
  data_map_to_vec_Ok m bs : data_map_to_vec m = Ok bs -> data_map_of_bytes bs = Ok m;
  encrypt_total data : encrypt data <> Panic;
  shrink_total m : shrink_data_map m <> Panic;
  data_map_to_vec_total m : data_map_to_vec m <> Panic;
}.
