(* ===== verification/Framing.v ===== *)
(** * Framing of application messages on the DataChannel ([src/framing.rs])

    A frame is a 4-byte big-endian length followed by the payload; the sender
    splits it into DataChannel messages, the receiver reassembles frames in a
    [FrameBuf] from whatever messages arrive. *)

From S2P Require Import Prelude Text.

(** Mirror of [MAX_WIRE_MESSAGE_SIZE] (declared in [src/protocol.rs]). *)
Definition MAX_WIRE_MESSAGE_SIZE : Z := 5 * 1024 * 1024.

Definition MAX_DC_MESSAGE_SIZE : Z := 16 * 1024.

Definition MAX_FRAME_SIZE : Z := MAX_WIRE_MESSAGE_SIZE + 64.

(** The length is cast to [u32] ([as u32] truncates). *)
Definition encode_frame (payload : bytes) : bytes :=
  be_bytes 4 (len payload mod 2 ^ 32) ++ payload.

Definition split_messages (wire : bytes) : list bytes :=
  chunks MAX_DC_MESSAGE_SIZE wire.

Record FrameBuf : Type := {
  buf : bytes;
}.

Definition FrameBuf_new : FrameBuf := {| buf := [] |}.

Definition frame_length_error (n : Z) : string :=
  fmt ["declared frame length "; dec n; " out of range"].

(** [FrameBuf::push]: appends, then takes one complete frame off the front. *)
Definition push (data : bytes) : st FrameBuf (option bytes) := fun self =>
  let buf := buf self ++ data in
  let self := {| buf := buf |} in
  if len buf <? 4 then (self, Ok None) else
  (len_bytes ← st_lift (slice buf 0 4);
   let n := be_val len_bytes in
   if (n =? 0) || (MAX_FRAME_SIZE <? n)
   then st_lift (Err (frame_length_error n)) else
   if len buf <? 4 + n then mret None else
   payload ← st_lift (slice buf 4 (4 + n));
   _ ← st_put {| buf := drop (Z.to_nat (4 + n)) buf |};
   mret (Some payload)) self.

(** ** What a receive buffer holds *)

(** The payloads the protocol can carry. *)
Definition frame_ok (payload : bytes) : Prop := 0 < len payload <= MAX_FRAME_SIZE.

#[export] Instance frame_ok_dec p : Decision (frame_ok p).
Proof. unfold frame_ok. apply _. Defined.

(** The three states of a stream of bytes at a frame boundary. *)
Inductive parsed : Type :=
  | Incomplete
  | BadLength (n : Z)
  | Frame (payload rest : bytes).

(** The specification of reassembly: the next frame of a byte stream, with no
    regard to how the bytes arrived. *)
Definition parse_frame (s : bytes) : parsed :=
  if len s <? 4 then Incomplete else
  let n := be_val (take 4 s) in
  if (n =? 0) || (MAX_FRAME_SIZE <? n) then BadLength n else
  if len s <? 4 + n then Incomplete else
  Frame (take (Z.to_nat n) (drop 4 s)) (drop (Z.to_nat (4 + n)) s).

(** ** Lemmas *)

(** [push] implements the specification: its result is a function of the
    buffered bytes and the new ones only, and it never slices out of range. *)
Lemma push_parse data self :
  push data self =
  match parse_frame (buf self ++ data) with
  | Incomplete => ({| buf := buf self ++ data |}, Ok None)
  | BadLength n => ({| buf := buf self ++ data |}, Err (frame_length_error n))
  | Frame p rest => ({| buf := rest |}, Ok (Some p))
  end.
Proof.
  unfold push, parse_frame. set (s := buf self ++ data).
  destruct (Z.ltb_spec (len s) 4); [done|].
  unfold mbind, st_bind, st_lift at 1.
  rewrite (slice_in s 0 4) by lia. rewrite drop_0. change (Z.to_nat (4 - 0)) with 4%nat.
  destruct ((be_val (take 4 s) =? 0) || (MAX_FRAME_SIZE <? be_val (take 4 s))); [done|].
  destruct (Z.ltb_spec (len s) (4 + be_val (take 4 s))); [done|].
  unfold mbind, st_bind, st_lift. pose proof (be_val_range (take 4 s)).
  rewrite (slice_in s 4) by lia.
  by replace (4 + be_val (take 4 s) - 4) with (be_val (take 4 s)) by lia.
Qed.

Lemma MAX_FRAME_SIZE_u32 : MAX_FRAME_SIZE < 2 ^ 32.
Proof. done. Qed.

Lemma frame_header p :
  frame_ok p -> be_val (be_bytes 4 (len p mod 2 ^ 32)) = len p.
Proof.
  intros Hp. unfold frame_ok in Hp. pose proof MAX_FRAME_SIZE_u32.
  rewrite be_val_bytes. change (8 * Z.of_nat 4) with 32.
  rewrite Z.mod_mod by lia. apply Z.mod_small. lia.
Qed.

Lemma len_encode_frame p : len (encode_frame p) = 4 + len p.
Proof. unfold encode_frame. len_lia. Qed.

(** A stream that starts with an encoded frame yields that frame. *)
Lemma parse_encode p rest :
  frame_ok p -> parse_frame (encode_frame p ++ rest) = Frame p rest.
Proof.
  intros Hp. pose proof (frame_header p Hp) as Hh. unfold frame_ok in Hp.
  pose proof (len_nonneg rest).
  unfold parse_frame. assert (len (encode_frame p ++ rest) = 4 + len p + len rest) as ->
    by (by rewrite len_app, len_encode_frame).
  unfold encode_frame. rewrite <- app_assoc.
  assert (List.length (be_bytes 4 (len p mod 2 ^ 32)) = 4%nat) as H4 by apply length_be_bytes.
  rewrite (take_app_length' _ _ 4) by done. rewrite Hh.
  destruct (Z.ltb_spec (4 + len p + len rest) 4); [lia|].
  destruct (Z.eqb_spec (len p) 0); [lia|]. destruct (Z.ltb_spec MAX_FRAME_SIZE (len p)); [lia|].
  cbn [orb]. destruct (Z.ltb_spec (4 + len p + len rest) (4 + len p)); [lia|].
  rewrite (drop_app_length' _ _ 4) by done. f_equal.
  - apply take_app_length'. unfold len. lia.
  - replace (Z.to_nat (4 + len p)) with (4 + List.length p)%nat by (unfold len; lia).
    rewrite <- drop_drop, (drop_app_length' _ _ 4) by done. by apply drop_app_length'.
Qed.

(** A strict prefix of an encoded frame is not yet a frame. *)
Lemma parse_prefix p l k :
  frame_ok p -> encode_frame p = l ++ k -> k <> [] -> parse_frame l = Incomplete.
Proof.
  intros Hp He Hk. unfold parse_frame. destruct (Z.ltb_spec (len l) 4) as [|Hl]; [done|].
  assert (0 < len k) by (destruct k; [done|]; rewrite len_cons; pose proof (len_nonneg k); lia).
  pose proof (f_equal len He) as Hlen. rewrite len_encode_frame, len_app in Hlen.
  assert (take 4 l = be_bytes 4 (len p mod 2 ^ 32)) as ->.
  { apply (f_equal (take 4)) in He. unfold encode_frame in He.
    rewrite take_app_length' in He by (by rewrite length_be_bytes).
    rewrite take_app_le in He by (unfold len in *; lia). done. }
  rewrite frame_header by done. unfold frame_ok in Hp.
  destruct (Z.eqb_spec (len p) 0); [lia|]. destruct (Z.ltb_spec MAX_FRAME_SIZE (len p)); [lia|].
  cbn [orb]. destruct (Z.ltb_spec (len l) (4 + len p)); [done|lia].
Qed.

(** A parsed frame is always within the protocol's bounds. *)
Lemma parse_frame_ok s p rest :
  parse_frame s = Frame p rest -> frame_ok p /\ s = encode_frame p ++ rest.
Proof.
  unfold parse_frame. destruct (Z.ltb_spec (len s) 4); [done|].
  destruct ((be_val (take 4 s) =? 0) || _) eqn:E; [done|].
  apply orb_false_iff in E as [E1%Z.eqb_neq E2%Z.ltb_ge].
  pose proof (be_val_range (take 4 s)).
  destruct (Z.ltb_spec (len s) (4 + be_val (take 4 s))) as [|Hl]; [done|].
  set (n := be_val (take 4 s)) in *. intros [= <- <-].
  assert (len (take (Z.to_nat n) (drop 4 s)) = n) as Hp.
  { unfold len in *. rewrite length_take, length_drop. lia. }
  split; [unfold frame_ok; lia|].
  unfold encode_frame. rewrite Hp. rewrite Z.mod_small by (pose proof MAX_FRAME_SIZE_u32; lia).
  unfold n at 1. replace 4%nat with (List.length (take 4 s)) at 1
    by (rewrite length_take; unfold len in *; lia).
  rewrite be_bytes_val. rewrite <- app_assoc.
  replace (Z.to_nat (4 + n)) with (4 + Z.to_nat n)%nat by lia.
  by rewrite <- drop_drop, take_drop, take_drop.
Qed.

(** More bytes do not change a verdict. *)
Lemma parse_frame_app s p rest k :
  parse_frame s = Frame p rest -> parse_frame (s ++ k) = Frame p (rest ++ k).
Proof.
  intros Hp. apply parse_frame_ok in Hp as [Hp ->]. rewrite <- app_assoc. by apply parse_encode.
Qed.

Lemma parse_bad_app s n k : parse_frame s = BadLength n -> parse_frame (s ++ k) = BadLength n.
Proof.
  unfold parse_frame. destruct (Z.ltb_spec (len s) 4) as [|Hl]; [done|]. intros Hb.
  destruct (Z.ltb_spec (len (s ++ k)) 4) as [Hl'|_].
  { rewrite len_app in Hl'. pose proof (len_nonneg k). lia. }
  rewrite take_app_le by (unfold len in *; lia).
  destruct (_ || _); [done|]. by destruct (len s <? _).
Qed.

#[export] Hint Resolve parse_encode : wasm.
