(* ===== verification/Sdp.v ===== *)
(** * SDP munging for signaling-less WebRTC-Direct ([src/sdp.rs])

    The browser's offer gets the client's own ICE credentials, the node's
    answer is synthesised from its address and certificate fingerprint. *)

From Stdlib Require Import Ascii.
From S2P Require Import Prelude Text.

Definition UFRAG : string := "a=ice-ufrag:".
Definition PWD : string := "a=ice-pwd:".

(** One iteration of the loop over lines: the text pushed to [out] (without
    the final CRLF) and whether a credential was replaced. *)
Definition munge_line (ufrag line : string) : string * bool :=
  if starts_with line UFRAG then (UFRAG +:+ ufrag, true)
  else if starts_with line PWD then (PWD +:+ ufrag, true)
  else (line, false).

(** [line.strip_suffix('\r').unwrap_or(line)] *)
Definition strip_cr (line : string) : string :=
  match strip_suffix_char CR line with
  | Some l => l
  | None => line
  end.

(** The loop of [munge_offer], with its two mutable variables. *)
Fixpoint munge_loop (ufrag : string) (lines : list string) (out : string) (replaced : Z) : string * Z :=
  match lines with
  | [] => (out, replaced)
  | line :: lines =>
      let line := strip_cr line in
      if is_empty line then munge_loop ufrag lines out replaced
      else
        let (text, hit) := munge_line ufrag line in
        munge_loop ufrag lines (out +:+ text +:+ CRLF) (if hit then replaced + 1 else replaced)
  end.

Definition munge_offer (sdp ufrag : string) : res string :=
  let (out, replaced) := munge_loop ufrag (split_char LF sdp) EmptyString 0 in
  if negb (replaced =? 2)
  then Err (fmt ["SDP offer missing ice-ufrag/ice-pwd (replaced "; dec replaced; ")"])
  else Ok out.

Definition server_answer (ip : string) (port : Z) (ufrag fingerprint_colon : string) : string :=
  let v := if contains_char COLON ip then "IP6" else "IP4" in
  fmt [ "v=0"; CRLF;
        "o=- 0 0 IN "; v; " "; ip; CRLF;
        "s=-"; CRLF;
        "t=0 0"; CRLF;
        "a=ice-lite"; CRLF;
        "m=application "; dec port; " UDP/DTLS/SCTP webrtc-datachannel"; CRLF;
        "c=IN "; v; " "; ip; CRLF;
        "a=mid:0"; CRLF;
        "a=ice-options:ice2"; CRLF;
        "a=ice-ufrag:"; ufrag; CRLF;
        "a=ice-pwd:"; ufrag; CRLF;
        "a=fingerprint:sha-256 "; fingerprint_colon; CRLF;
        "a=setup:passive"; CRLF;
        "a=sctp-port:5000"; CRLF;
        "a=max-message-size:5242880"; CRLF;
        "a=candidate:1467250027 1 UDP 1467250027 "; ip; " "; dec port; " typ host"; CRLF;
        "a=end-of-candidates"; CRLF ].

(** [u8::to_ascii_uppercase] *)
Definition ascii_upper (b : byte) : byte :=
  if (97 <=? Z_of_byte b) && (Z_of_byte b <=? 122) then byte_of_Z (Z_of_byte b - 32) else b.

Definition is_ascii (b : byte) : bool := Z_of_byte b <? 128.

Section Fingerprint.
(** The Unicode uppercase of a two-byte character ([str::to_uppercase]
    outside ASCII, which no fingerprint contains). *)
Variable unicode_upper2 : byte -> byte -> string.

(** [std::str::from_utf8(c).unwrap_or("").to_uppercase()] of a chunk of at
    most two bytes. *)
Definition upper_chunk (c : bytes) : string :=
  match c with
  | [a] => if is_ascii a then of_bytes [ascii_upper a] else EmptyString
  | [a; b] =>
      if is_ascii a && is_ascii b then of_bytes [ascii_upper a; ascii_upper b]
      else if (194 <=? Z_of_byte a) && (Z_of_byte a <=? 223)
              && (128 <=? Z_of_byte b) && (Z_of_byte b <=? 191)
      then unicode_upper2 a b
      else EmptyString
  | _ => EmptyString
  end.

Definition fingerprint_to_colon_form (hex_fp : string) : string :=
  String.concat ":" (map upper_chunk (chunks 2 (as_bytes hex_fp))).
End Fingerprint.

(** ** Reading an SDP back

    The lines of an SDP, as the loop of [munge_offer] and every SDP parser
    see them: split at LF, one trailing CR removed, empty lines dropped. *)
Definition sdp_lines (sdp : string) : list string :=
  List.filter (fun l => negb (is_empty l)) (map strip_cr (split_char LF sdp)).

(** The two lines that are replaced. *)
Definition is_credential (line : string) : bool :=
  starts_with line UFRAG || starts_with line PWD.

(** A line of the text, as it is between two LFs and without its CR. *)
Inductive line_of : string -> string -> Prop :=
  | line_cr l : line_of (l +:+ String CR EmptyString) l
  | line_bare l : (forall t, l <> t +:+ String CR EmptyString) -> line_of l l.

(** What becomes of a line: the value of a credential is replaced by the
    ufrag, every other line is kept. *)
Inductive munged (ufrag : string) : string -> string -> Prop :=
  | munged_ufrag v : munged ufrag ("a=ice-ufrag:" +:+ v) ("a=ice-ufrag:" +:+ ufrag)
  | munged_pwd v : munged ufrag ("a=ice-pwd:" +:+ v) ("a=ice-pwd:" +:+ ufrag)
  | munged_other l :
      (forall v, l <> "a=ice-ufrag:" +:+ v) -> (forall v, l <> "a=ice-pwd:" +:+ v) -> munged ufrag l l.

Definition not_empty (lines : list string) : list string := List.filter (fun l => negb (is_empty l)) lines.

(** The text of [lines], each terminated by CRLF. *)
Definition render_lines (lines : list string) : string :=
  fold_right (fun l s => l +:+ CRLF +:+ s) EmptyString lines.

Definition munge_lines (ufrag : string) (lines : list string) : list string :=
  map (fun l => fst (munge_line ufrag l)) lines.

Definition credential_count (lines : list string) : Z :=
  len (List.filter is_credential lines).

(** ** Lemmas *)

Lemma munge_line_credential ufrag l : snd (munge_line ufrag l) = is_credential l.
Proof. unfold munge_line, is_credential. by destruct (starts_with l UFRAG), (starts_with l PWD). Qed.

Lemma munge_loop_spec ufrag lines out replaced :
  munge_loop ufrag lines out replaced =
  (let kept := List.filter (fun l => negb (is_empty l)) (map strip_cr lines) in
   (out +:+ render_lines (munge_lines ufrag kept), replaced + credential_count kept)).
Proof.
  revert out replaced. induction lines as [|l lines IH]; intros out replaced; cbn.
  - unfold credential_count. cbn. by rewrite str_app_nil_r, Z.add_0_r.
  - destruct (is_empty (strip_cr l)) eqn:E; cbn.
    + apply IH.
    + destruct (munge_line ufrag (strip_cr l)) as [text hit] eqn:M. rewrite IH. cbn.
      pose proof (munge_line_credential ufrag (strip_cr l)) as Hc. rewrite M in Hc. cbn in Hc.
      subst hit. unfold credential_count. cbn.
      destruct (is_credential (strip_cr l)); rewrite ?len_cons; f_equal;
        rewrite ?str_app_assoc; try done; lia.
Qed.

(** [munge_offer] in terms of lines. *)
Lemma munge_offer_spec sdp ufrag :
  munge_offer sdp ufrag =
  if credential_count (sdp_lines sdp) =? 2
  then Ok (render_lines (munge_lines ufrag (sdp_lines sdp)))
  else Err (fmt ["SDP offer missing ice-ufrag/ice-pwd (replaced ";
                 dec (credential_count (sdp_lines sdp)); ")"]).
Proof.
  unfold munge_offer, sdp_lines. rewrite munge_loop_spec. cbv zeta.
  rewrite Z.add_0_l. by destruct (_ =? 2).
Qed.

(** A line that survives printing and reading back. *)
Definition line_ok (l : string) : Prop := is_empty l = false /\ contains_char LF l = false.

Lemma strip_cr_app l : strip_cr (l +:+ String CR EmptyString) = l.
Proof. unfold strip_cr. by rewrite strip_suffix_char_app. Qed.

(** Printing lines and reading them back is the identity. *)
Lemma sdp_lines_render lines : Forall line_ok lines -> sdp_lines (render_lines lines) = lines.
Proof.
  intros H. induction H as [|l lines [He Hl] Hf IH]; [done|].
  unfold sdp_lines in *.
  assert (render_lines (l :: lines) = (l +:+ String CR EmptyString) +:+ String LF (render_lines lines)) as ->
    by (by rewrite str_app_assoc).
  rewrite split_char_app by (by rewrite contains_char_app, Hl).
  cbn [map List.filter]. rewrite strip_cr_app, He. cbn. f_equal. apply IH.
Qed.

Lemma strip_cr_free c l : contains_char c l = false -> contains_char c (strip_cr l) = false.
Proof.
  unfold strip_cr. destruct (strip_suffix_char CR l) as [t|] eqn:E; [|done].
  apply strip_suffix_char_Some in E as ->. rewrite contains_char_app. by intros [? _]%orb_false_iff.
Qed.

Lemma sdp_lines_ok sdp : Forall line_ok (sdp_lines sdp).
Proof.
  unfold sdp_lines. pose proof (split_char_free LF sdp) as H.
  induction H as [|l ls Hl Hf IH]; cbn; [constructor|].
  destruct (is_empty (strip_cr l)) eqn:E; cbn; [done|].
  constructor; [|done]. split; [done|]. by apply strip_cr_free.
Qed.

Lemma munge_line_ok ufrag l :
  contains_char LF ufrag = false -> line_ok l -> line_ok (fst (munge_line ufrag l)).
Proof.
  intros Hu [He Hl]. unfold munge_line.
  destruct (starts_with l UFRAG), (starts_with l PWD); cbn; by repeat split.
Qed.

Lemma munge_lines_ok ufrag ls :
  contains_char LF ufrag = false -> Forall line_ok ls -> Forall line_ok (munge_lines ufrag ls).
Proof.
  intros Hu Hls. unfold munge_lines. rewrite Forall_map.
  eapply Forall_impl; [done|]. intros. by apply munge_line_ok.
Qed.

Lemma prefix_nil s : String.prefix EmptyString s = true.
Proof. by destruct s. Qed.

Lemma prefix_app p s : String.prefix p (p +:+ s) = true.
Proof. induction p as [|a p IH]; cbn; [by destruct s|]. rewrite IH. by destruct (ascii_dec a a). Qed.

Lemma munge_line_idem ufrag l :
  munge_line ufrag (fst (munge_line ufrag l)) = munge_line ufrag l.
Proof.
  unfold munge_line. destruct (starts_with l UFRAG) eqn:E1; cbn [fst].
  - unfold starts_with. by rewrite prefix_app.
  - destruct (starts_with l PWD) eqn:E2; cbn [fst].
    + unfold starts_with at 2. by rewrite prefix_app.
    + by rewrite E1, E2.
Qed.

Lemma credential_count_munge ufrag ls :
  credential_count (munge_lines ufrag ls) = credential_count ls.
Proof.
  unfold credential_count, munge_lines. induction ls as [|l ls IH]; [done|]. cbn.
  rewrite <- (munge_line_credential ufrag (fst _)), munge_line_idem, munge_line_credential.
  destruct (is_credential l); rewrite ?len_cons; lia.
Qed.

Lemma munge_lines_idem ufrag ls : munge_lines ufrag (munge_lines ufrag ls) = munge_lines ufrag ls.
Proof.
  unfold munge_lines. rewrite map_map. apply map_ext. intros l. by rewrite munge_line_idem.
Qed.

Lemma line_of_strip_cr raw l : line_of raw l <-> l = strip_cr raw.
Proof.
  split.
  - destruct 1 as [l|l Hl]; [by rewrite strip_cr_app|]. unfold strip_cr.
    destruct (strip_suffix_char CR l) as [t|] eqn:E; [|done]. apply strip_suffix_char_Some in E. by destruct (Hl t).
  - intros ->. unfold strip_cr. destruct (strip_suffix_char CR raw) as [t|] eqn:E.
    + apply strip_suffix_char_Some in E as ->. constructor.
    + constructor. intros t ->. by rewrite strip_suffix_char_app in E.
Qed.

Lemma starts_with_iff l p : starts_with l p = true <-> exists v, l = p +:+ v.
Proof.
  unfold starts_with. split; [|intros [v ->]; apply prefix_app].
  revert l. induction p as [|a p IH]; intros l Hl; [by exists l|].
  destruct l as [|b l]; [done|]. cbn in Hl. destruct (ascii_dec a b) as [->|]; [|done].
  destruct (IH l Hl) as [v ->]. by exists v.
Qed.

Lemma munged_munge_line ufrag l l' : munged ufrag l l' <-> l' = fst (munge_line ufrag l).
Proof.
  unfold munge_line. split.
  - destruct 1 as [v|v|l H1 H2].
    + rewrite (proj2 (starts_with_iff ("a=ice-ufrag:" +:+ v) UFRAG)) by (by exists v). done.
    + assert (starts_with ("a=ice-pwd:" +:+ v) UFRAG = false) as -> by done.
      rewrite (proj2 (starts_with_iff ("a=ice-pwd:" +:+ v) PWD)) by (by exists v). done.
    + destruct (starts_with l UFRAG) eqn:E1; [apply starts_with_iff in E1 as [v ->]; by destruct (H1 v)|].
      destruct (starts_with l PWD) eqn:E2; [apply starts_with_iff in E2 as [v ->]; by destruct (H2 v)|]. done.
  - intros ->. destruct (starts_with l UFRAG) eqn:E1; [apply starts_with_iff in E1 as [v ->]; apply munged_ufrag|].
    destruct (starts_with l PWD) eqn:E2; [apply starts_with_iff in E2 as [v ->]; apply munged_pwd|].
    cbn [fst]; apply munged_other; intros v ->; [apply not_true_iff_false in E1|apply not_true_iff_false in E2];
      [apply E1|apply E2]; apply starts_with_iff; by exists v.
Qed.

(** A functional relation between lists is a map. *)
Lemma Forall2_map_iff {A B} (R : A -> B -> Prop) (f : A -> B) (l : list A) (k : list B) :
  (forall a b, R a b <-> b = f a) -> Forall2 R l k <-> k = map f l.
Proof.
  intros HR. split.
  - induction 1 as [|a b l k Hab _ ->]; [done|]. cbn. by rewrite (proj1 (HR a b) Hab).
  - intros ->. induction l as [|a l IH]; [constructor|]. constructor; [by apply HR|exact IH].
Qed.

Lemma credential_count_not_empty lines : credential_count (not_empty lines) = credential_count lines.
Proof.
  unfold credential_count, not_empty. induction lines as [|l lines IH]; [done|]. cbn.
  destruct l as [|a l]; cbn [is_empty negb]; [exact IH|]. cbn [List.filter].
  destruct (is_credential (String a l)); rewrite ?len_cons; lia.
Qed.

(** ** The synthesised answer *)

Definition ip_version (ip : string) : string :=
  if contains_char COLON ip then "IP6" else "IP4".

Definition answer_lines (ip : string) (port : Z) (ufrag fp : string) : list string :=
  [ "v=0";
    "o=- 0 0 IN " +:+ ip_version ip +:+ " " +:+ ip;
    "s=-";
    "t=0 0";
    "a=ice-lite";
    "m=application " +:+ dec port +:+ " UDP/DTLS/SCTP webrtc-datachannel";
    "c=IN " +:+ ip_version ip +:+ " " +:+ ip;
    "a=mid:0";
    "a=ice-options:ice2";
    "a=ice-ufrag:" +:+ ufrag;
    "a=ice-pwd:" +:+ ufrag;
    "a=fingerprint:sha-256 " +:+ fp;
    "a=setup:passive";
    "a=sctp-port:5000";
    "a=max-message-size:5242880";
    "a=candidate:1467250027 1 UDP 1467250027 " +:+ ip +:+ " " +:+ dec port +:+ " typ host";
    "a=end-of-candidates" ].

Lemma server_answer_render ip port ufrag fp :
  server_answer ip port ufrag fp = render_lines (answer_lines ip port ufrag fp).
Proof.
  unfold server_answer, fmt, answer_lines, ip_version. cbn [String.concat render_lines fold_right].
  rewrite !str_app_assoc. reflexivity.
Qed.

(** Decimal numbers hold no line feed. *)
Lemma pretty_N_char_LF n : Ascii.eqb (pretty_N_char n) LF = false.
Proof. unfold pretty_N_char. by repeat case_match. Qed.

Lemma pretty_N_go_LF n s : contains_char LF s = false -> contains_char LF (pretty_N_go n s) = false.
Proof.
  revert s. induction (N.lt_wf_0 n) as [n _ IH]. intros s Hs.
  destruct (decide (0 < n)%N) as [Hn|Hn].
  - rewrite pretty_N_go_step by done. apply IH.
    + apply N.div_lt; lia.
    + cbn. by rewrite pretty_N_char_LF.
  - by replace n with 0%N by lia.
Qed.

Lemma pretty_N_LF (n : N) : contains_char LF (pretty n) = false.
Proof. unfold pretty, pretty_N. case_decide; [done|]. by apply pretty_N_go_LF. Qed.

Lemma dec_LF z : contains_char LF (dec z) = false.
Proof.
  unfold dec. destruct z as [|p|p]; [done|apply (pretty_N_LF (N.pos p))|].
  change (pretty (Z.neg p)) with ("-" +:+ pretty (N.pos p)).
  rewrite contains_char_app. apply pretty_N_LF.
Qed.

Lemma answer_lines_ok ip port ufrag fp :
  contains_char LF ip = false -> contains_char LF ufrag = false -> contains_char LF fp = false ->
  Forall line_ok (answer_lines ip port ufrag fp).
Proof.
  intros Hi Hu Hf. unfold answer_lines, ip_version.
  destruct (contains_char COLON ip);
    repeat (constructor; [split; [done|]; rewrite ?contains_char_app, ?dec_LF, ?Hi, ?Hu, ?Hf; done|]);
    constructor.
Qed.

(** ** Fingerprints *)

Lemma split_char_concat (ws : list string) :
  ws <> [] -> Forall (fun w => contains_char COLON w = false) ws ->
  split_char COLON (String.concat ":" ws) = ws.
Proof.
  intros Hne H. induction H as [|w ws Hw Hf IH]; [done|].
  destruct ws as [|w' ws].
  - cbn. by apply split_char_none.
  - change (String.concat ":" (w :: w' :: ws)) with (w +:+ String COLON (String.concat ":" (w' :: ws))).
    rewrite split_char_app by done. by rewrite IH.
Qed.

Lemma chunks_fuel_Forall {A} (P : A -> Prop) fuel n (l : list A) :
  Forall P l -> Forall (Forall P) (chunks_fuel fuel n l).
Proof.
  revert l. induction fuel as [|fuel IH]; intros l Hl; cbn; [constructor|].
  destruct l as [|x l]; constructor; [by apply Forall_take|]. by apply IH, Forall_drop.
Qed.

Definition not_colon (b : byte) : Prop := b <> x3a.

Lemma ascii_upper_not_colon b : not_colon b -> not_colon (ascii_upper b).
Proof. destruct b; cbn; intros H; try done. Qed.

Lemma contains_colon_of_bytes l :
  Forall not_colon l -> contains_char COLON (of_bytes l) = false.
Proof.
  intros H. induction H as [|b l Hb Hl IH]; [done|].
  change (of_bytes (b :: l)) with (String (ascii_of_byte b) (of_bytes l)).
  cbn [contains_char]. rewrite IH, orb_false_r.
  apply Ascii.eqb_neq. intros E. apply Hb.
  apply (f_equal byte_of_ascii) in E. by rewrite byte_of_ascii_of_byte in E.
Qed.

(** A byte of an ASCII text other than [':']; every hex digit is one. *)
Definition plain (b : byte) : Prop := is_ascii b = true /\ not_colon b.

Lemma upper_chunk_plain up c :
  (0 < len c <= 2) -> Forall plain c -> upper_chunk up c = of_bytes (map ascii_upper c).
Proof.
  intros Hlen H. destruct c as [|a [|b [|]]]; cbn in *; unfold len in Hlen; cbn in Hlen; try lia.
  - inversion H as [|? ? [Ha _] _]; subst. by rewrite Ha.
  - inversion H as [|? ? [Ha _] H']; subst. inversion H' as [|? ? [Hb _] _]; subst.
    by rewrite Ha, Hb.
Qed.

Lemma colon_form_chunks up s :
  Forall plain (as_bytes s) -> s <> EmptyString ->
  split_char COLON (fingerprint_to_colon_form up s) =
  map (fun c => of_bytes (map ascii_upper c)) (chunks 2 (as_bytes s)).
Proof.
  intros H Hne. unfold fingerprint_to_colon_form.
  assert (Forall (fun c => 0 < len c <= 2 /\ Forall plain c) (chunks 2 (as_bytes s))) as Hc.
  { apply Forall_and. split; [by apply chunks_sizes|by apply chunks_fuel_Forall]. }
  replace (map (upper_chunk up) (chunks 2 (as_bytes s)))
    with (map (fun c => of_bytes (map ascii_upper c)) (chunks 2 (as_bytes s))).
  2:{ induction Hc as [|c cs [Hl Hp] _ IH]; [done|]. cbn. by rewrite IH, upper_chunk_plain. }
  apply split_char_concat.
  - destruct s as [|a s]; [done|]. by cbn.
  - rewrite Forall_map. eapply Forall_impl; [exact Hc|]. intros c [_ Hp].
    apply contains_colon_of_bytes. rewrite Forall_map.
    eapply Forall_impl; [exact Hp|]. intros b [_ Hb]. by apply ascii_upper_not_colon.
Qed.

(** ** Properties *)

(** C35: [munge_offer] succeeds exactly when the offer has two credential lines,
    and its result is then the offer's lines (cut at LF, without a final CR,
    empty ones dropped), each ended by CRLF, in order, where
    [a=ice-ufrag:<anything>] has become [a=ice-ufrag:<ufrag>],
    [a=ice-pwd:<anything>] has become [a=ice-pwd:<ufrag>] and every other line is
    unchanged.  The result still has two credential lines, and munging it again
    changes nothing. *)
Theorem munge_offer_lines sdp ufrag out (Hu : contains_char LF ufrag = false) :
  (munge_offer sdp ufrag = Ok out <->
   exists lines outs,
     Forall2 line_of (split_char LF sdp) lines /\ credential_count lines = 2 /\
     Forall2 (munged ufrag) (not_empty lines) outs /\ out = render_lines outs)
  /\ (munge_offer sdp ufrag = Ok out ->
      credential_count (sdp_lines out) = 2 /\ munge_offer out ufrag = Ok out).
Proof.
  rewrite !munge_offer_spec. split; [split|].
  - destruct (Z.eqb_spec (credential_count (sdp_lines sdp)) 2) as [Hc|]; [|done]. intros [= <-].
    exists (map strip_cr (split_char LF sdp)), (munge_lines ufrag (sdp_lines sdp)).
    rewrite <- credential_count_not_empty, (Forall2_map_iff _ _ _ _ line_of_strip_cr).
    by rewrite (Forall2_map_iff _ _ _ _ (munged_munge_line ufrag)).
  - intros (lines & outs & Hl & Hc & Ho & ->).
    apply (Forall2_map_iff _ _ _ _ line_of_strip_cr) in Hl as ->.
    apply (Forall2_map_iff _ _ _ _ (munged_munge_line ufrag)) in Ho as ->.
    rewrite <- credential_count_not_empty in Hc. change (not_empty _) with (sdp_lines sdp) in *. by rewrite Hc.
  - destruct (Z.eqb_spec (credential_count (sdp_lines sdp)) 2) as [Hc|]; [|done]. intros [= <-].
    rewrite sdp_lines_render by (apply munge_lines_ok, sdp_lines_ok; done).
    by rewrite credential_count_munge, Hc, munge_lines_idem.
Qed.

Definition offer_example : string :=
  "v=0" +:+ CRLF +:+ "a=ice-ufrag:abcd" +:+ CRLF +:+ "a=ice-pwd:secret" +:+ CRLF.

Lemma munge_offer_lines_witness :
  contains_char LF "ff00" = false /\
  munge_offer offer_example "ff00" = Ok ("v=0" +:+ CRLF +:+ "a=ice-ufrag:ff00" +:+ CRLF +:+ "a=ice-pwd:ff00" +:+ CRLF) /\
  credential_count (sdp_lines ("v=0" +:+ CRLF +:+ "a=ice-ufrag:ff00" +:+ CRLF +:+ "a=ice-pwd:ff00" +:+ CRLF)) = 2.
Proof.
  split; [reflexivity|]. split; [vm_compute; reflexivity|].
  apply (proj2 (munge_offer_lines offer_example "ff00" _ eq_refl)); vm_compute; reflexivity.
Defined.

(** [munge_offer] counts replacements of either kind, so an offer with two
    [a=ice-ufrag] lines and no [a=ice-pwd] line is accepted, although the
    comment says that an offer lacking either line is an error. *)
Theorem munge_offer_accepts_missing_pwd ufrag :
  exists sdp,
    Forall (fun l => starts_with l PWD = false) (sdp_lines sdp)
    /\ munge_offer sdp ufrag
       = Ok (UFRAG +:+ ufrag +:+ CRLF +:+ UFRAG +:+ ufrag +:+ CRLF).
Proof.
  exists ("a=ice-ufrag:x" +:+ CRLF +:+ "a=ice-ufrag:y" +:+ CRLF). split.
  - repeat constructor.
  - rewrite munge_offer_spec.
    change (sdp_lines _) with ["a=ice-ufrag:x"; "a=ice-ufrag:y"].
    change (credential_count _ =? 2) with true. reflexivity.
Qed.

(** The synthesised answer, read back as SDP, is the fixed template with
    the node's address, the given fingerprint as the only fingerprint and the
    client's ufrag as both ICE credentials. *)
Theorem server_answer_lines ip port ufrag fp :
  contains_char LF ip = false -> contains_char LF ufrag = false -> contains_char LF fp = false ->
  sdp_lines (server_answer ip port ufrag fp) = answer_lines ip port ufrag fp
  /\ List.filter (fun l => starts_with l "a=fingerprint:") (sdp_lines (server_answer ip port ufrag fp))
     = ["a=fingerprint:sha-256 " +:+ fp]
  /\ List.filter is_credential (sdp_lines (server_answer ip port ufrag fp))
     = [UFRAG +:+ ufrag; PWD +:+ ufrag].
Proof.
  intros Hi Hu Hf. rewrite server_answer_render, sdp_lines_render by by apply answer_lines_ok.
  split; [done|].
  unfold answer_lines, is_credential, starts_with.
  split; cbn; by rewrite ?prefix_nil.
Qed.

Lemma server_answer_lines_witness :
  sdp_lines (server_answer "10.0.0.1" 25000 "ff" "AA:BB") = answer_lines "10.0.0.1" 25000 "ff" "AA:BB".
Proof.
  apply (server_answer_lines "10.0.0.1" 25000 "ff" "AA:BB"); reflexivity.
Defined.

(** Splitting the colon form of a hex fingerprint at its colons gives its
    byte pairs in order, in upper case: no digit is lost, added or moved. *)
Theorem fingerprint_colon_form_pairs up s :
  Forall plain (as_bytes s) -> s <> EmptyString ->
  split_char COLON (fingerprint_to_colon_form up s)
    = map (fun c => of_bytes (map ascii_upper c)) (chunks 2 (as_bytes s))
  /\ mjoin (map as_bytes (split_char COLON (fingerprint_to_colon_form up s)))
     = map ascii_upper (as_bytes s).
Proof.
  intros H Hne. rewrite colon_form_chunks by done. split; [done|].
  rewrite map_map.
  transitivity (mjoin (map (map ascii_upper) (chunks 2 (as_bytes s)))).
  - f_equal. apply map_ext. intros c. apply as_bytes_of_bytes.
  - rewrite <- (chunks_concat 2 (as_bytes s)) at 2 by lia.
    generalize (chunks 2 (as_bytes s)). intros cs. induction cs as [|c cs IH]; [done|].
    cbn. rewrite map_app. f_equal. apply IH.
Qed.

Lemma fingerprint_colon_form_pairs_witness :
  split_char COLON (fingerprint_to_colon_form (fun _ _ => EmptyString) "a1b2c3")
  = ["A1"; "B2"; "C3"].
Proof.
  exact (proj1 (fingerprint_colon_form_pairs (fun _ _ => EmptyString) "a1b2c3"
    ltac:(vm_compute; repeat constructor; discriminate) ltac:(discriminate))).
Defined.
