(* ===== verification/Serde.v ===== *)
(** * Serialization interfaces: MessagePack ([rmp_serde]) and [postcard]

    The codecs are third-party crates, so their byte formats are parameters.
    What the source fixes is the sequence of values its [Serialize] and
    [Deserialize] implementations exchange with the codec: the order and the
    types of the fields, the index of each enum variant, the custom modules
    [bin_bytes_32], [bin_bytes_20] and [seq_bytes_32], and the [serde(default)]
    fields.  Those are modelled as trees of values; a codec maps trees to bytes
    and back.  A derived reader takes a struct from an array of its fields or from
    a map under their names; the section [MapForm] says what the second reads. *)

From S2P Require Import Prelude Text.

(** ** MessagePack

    [mp] is what a serializer is asked to write and what a deserializer hands
    to a visitor: [MInt] to [visit_u64], [MSint] (an integer in one of the signed
    formats) to [visit_i64], [MStr] to [visit_str], [MBin] to [visit_bytes],
    [MArray] to [visit_seq], [MMap] to [visit_map].  [MOther] stands for the kinds
    of item no visitor of the client's types takes (floats, extension types). *)
Inductive mp : Type :=
  | MNil
  | MBool (b : bool)
  | MInt (z : Z)
  | MSint (z : Z)
  | MStr (s : string)
  | MBin (bs : bytes)
  | MArray (l : list mp)
  | MMap (l : list (mp * mp))
  | MOther (tag : Z).

(** What a deserializer can hand out: integers up to 64 bits, lengths up to 32
    bits. *)
Fixpoint mp_item (v : mp) : bool :=
  match v with
  | MNil | MBool _ | MOther _ => true
  | MInt z => (0 <=? z) && (z <? 2 ^ 64)
  | MSint z => (- 2 ^ 63 <=? z) && (z <? 2 ^ 63)
  | MStr s => (str_len s <? 2 ^ 32) && str_valid s
  | MBin bs => len bs <? 2 ^ 32
  | MArray l => (len l <? 2 ^ 32) && forallb mp_item l
  | MMap l => (len l <? 2 ^ 32) && forallb (fun p => mp_item p.1 && mp_item p.2) l
  end.

(** What can be written so that it is read back as it is: no signed integers
    (a serializer writes the non-negative ones in an unsigned format). *)
Fixpoint mp_ok (v : mp) : bool :=
  match v with
  | MNil | MBool _ => true
  | MInt z => (0 <=? z) && (z <? 2 ^ 64)
  | MStr s => (str_len s <? 2 ^ 32) && str_valid s
  | MBin bs => len bs <? 2 ^ 32
  | MArray l => (len l <? 2 ^ 32) && forallb mp_ok l
  | MMap l => (len l <? 2 ^ 32) && forallb (fun p => mp_ok p.1 && mp_ok p.2) l
  | MSint _ | MOther _ => false
  end.

Class Rmp := {
  rmp_write : mp -> res bytes;
  rmp_read : bytes -> res mp;
  (** Error texts of [serde] and [rmp_serde]. *)
  invalid_type : mp -> string;
  invalid_length : Z -> string;
  duplicate_field : string -> string;
  missing_field : string -> string;
  (** The deserializer's verdict on elements of an array that the visitor
      left unread: [None] if it ignores them. *)
  unread_elements : nat -> option string;
}.

Class RmpLaws `{Rmp} : Prop := {
  rmp_write_ok v : mp_ok v = true -> exists bs, rmp_write v = Ok bs;
  rmp_read_write v bs : mp_ok v = true -> rmp_write v = Ok bs -> rmp_read bs = Ok v;
  rmp_read_total bs : rmp_read bs <> Panic;
  (** What is read is an item of the format. *)
  rmp_read_ok bs v : rmp_read bs = Ok v -> mp_item v = true;
  rmp_write_total v : rmp_write v <> Panic;
  unread_none : unread_elements 0 = None;
}.

Section Visitors.
Context `{Rmp}.

(** [u8], [u32], [u64]: any integer in range. *)
Definition de_uint (w : Z) (v : mp) : res Z :=
  match v with
  | MInt z | MSint z => if decide (in_width w z) then Ok z else Err (invalid_type v)
  | _ => Err (invalid_type v)
  end.

Definition de_u8 (v : mp) : res byte :=
  z ← de_uint 8 v; mret (byte_of_Z z).

(** The end of an array after the visitor has taken what it wants. *)
Definition end_seq {A} (a : A) (left : list mp) : res A :=
  match unread_elements (List.length left) with
  | None => Ok a
  | Some e => Err e
  end.

(** [SeqAccess::next_element] for a sequence that may end early. *)
Definition next_element {A} (de : mp -> res A) (l : list mp) : res (option A * list mp) :=
  match l with
  | [] => Ok (None, [])
  | v :: l => a ← de v; mret (Some a, l)
  end.

(** A derived field read: [None] is [invalid_length], or the default of a
    [serde(default)] field. *)
Definition field {A} (i : Z) (de : mp -> res A) (l : list mp) : res (A * list mp) :=
  '(o, l) ← next_element de l;
  match o with
  | Some a => mret (a, l)
  | None => Err (invalid_length i)
  end.

Definition field_default {A} (d : A) (de : mp -> res A) (l : list mp) : res (A * list mp) :=
  '(o, l) ← next_element de l;
  match o with
  | Some a => mret (a, l)
  | None => mret (d, l)
  end.

(** The loop of a visitor that fills an array of [n] bytes ([i] filled so
    far). *)
Fixpoint take_bytes (n : nat) (i : Z) (l : list mp) : res (bytes * list mp) :=
  match n with
  | O => Ok ([], l)
  | S n =>
      '(b, l) ← field i de_u8 l;
      '(bs, l) ← take_bytes n (i + 1) l;
      mret (b :: bs, l)
  end.

(** [Vec<T>]: every element. *)
Fixpoint de_all {A} (de : mp -> res A) (l : list mp) : res (list A) :=
  match l with
  | [] => Ok []
  | v :: l => a ← de v; r ← de_all de l; mret (a :: r)
  end.

Definition de_vec {A} (de : mp -> res A) (v : mp) : res (list A) :=
  match v with
  | MArray l => de_all de l
  | _ => Err (invalid_type v)
  end.

(** [[u8; n]] as serde reads it: a tuple of [n] integers. *)
Definition de_byte_array (n : nat) (v : mp) : res (arr n) :=
  match v with
  | MArray l =>
      '(bs, l) ← take_bytes n 0 l;
      a ← match try_into n bs with Some a => mret a | None => Panic end;
      end_seq a l
  | _ => Err (invalid_type v)
  end.

Definition de_option {A} (de : mp -> res A) (v : mp) : res (option A) :=
  match v with
  | MNil => Ok None
  | _ => a ← de v; mret (Some a)
  end.

(** ** Derived structs

    What [derive(Deserialize)] generates for a struct, as a description of its
    fields in declaration order.  The visitor takes an array ([fs_seq]: the
    fields by position, [serde(default)] for missing ones at the end) or a map
    ([visit_map]: the fields by name in any order, unknown keys ignored). *)

Record fields (A : Type) : Type := {
  fs_names : list string;
  fs_seq : Z -> list mp -> res (A * list mp);
  (** The local variables of [visit_map], one [Option] per field; how a value
      is put into one of them; and what they make in the end. *)
  fs_slots : Type;
  fs_empty : fs_slots;
  fs_put : nat -> mp -> fs_slots -> res fs_slots;
  fs_done : fs_slots -> res A;
}.
#[global] Arguments fs_names {A} f.
#[global] Arguments fs_seq {A} f.
#[global] Arguments fs_slots {A} f.
#[global] Arguments fs_empty {A} f.
#[global] Arguments fs_put {A} f.
#[global] Arguments fs_done {A} f.

Definition no_fields : fields unit := {|
  fs_names := []; fs_seq _ l := Ok (tt, l);
  fs_slots := unit; fs_empty := tt; fs_put _ _ s := Ok s; fs_done _ := Ok tt |}.

(** One more field in front; [default] is its [serde(default)]. *)
Definition and_field {A B} (name : string) (de : mp -> res A) (default : option A) (fs : fields B) : fields (A * B) := {|
  fs_names := name :: fs_names fs;
  fs_seq i l :=
    '(a, l) ← match default with Some d => field_default d de l | None => field i de l end;
    '(b, l) ← fs_seq fs (i + 1) l;
    mret ((a, b), l);
  fs_slots := option A * fs_slots fs;
  fs_empty := (None, fs_empty fs);
  fs_put k v s :=
    match k with
    | O =>
        match s.1 with
        | Some _ => Err (duplicate_field name)
        | None => a ← de v; mret (Some a, s.2)
        end
    | S k => s2 ← fs_put fs k v s.2; mret (s.1, s2)
    end;
  fs_done s :=
    a ← match s.1 with
        | Some a => Ok a
        | None => ok_or default (missing_field name)
        end;
    b ← fs_done fs s.2;
    mret (a, b);
|}.

(** The field a key names: a name or an index; [None] is a field to ignore. *)
Definition field_of (names : list string) (key : mp) : res (option nat) :=
  let by_name s := fst <$> list_find (fun n => n = s) names in
  match key with
  | MInt z => mret (if z <? len names then Some (Z.to_nat z) else None)
  | MStr s => mret (by_name s)
  | MBin bs => mret (by_name (of_bytes bs))
  | _ => Err (invalid_type key)
  end.

(** The loop of [visit_map]. *)
Fixpoint put_entries {A} (fs : fields A) (l : list (mp * mp)) (s : fs_slots fs) : res (fs_slots fs) :=
  match l with
  | [] => Ok s
  | (key, v) :: l =>
      k ← field_of (fs_names fs) key;
      s ← match k with Some k => fs_put fs k v s | None => Ok s end;
      put_entries fs l s
  end.

Definition visit_map {A} (fs : fields A) (l : list (mp * mp)) : res A :=
  s ← put_entries fs l (fs_empty fs);
  fs_done fs s.

Definition de_struct {A B} (fs : fields A) (make : A -> B) (v : mp) : res B :=
  match v with
  | MArray l => '(a, l) ← fs_seq fs 0 l; end_seq (make a) l
  | MMap l => make <$> visit_map fs l
  | _ => Err (invalid_type v)
  end.

(** A tuple: an array only. *)
Definition de_tuple {A B} (fs : fields A) (make : A -> B) (v : mp) : res B :=
  match v with
  | MArray l => '(a, l) ← fs_seq fs 0 l; end_seq (make a) l
  | _ => Err (invalid_type v)
  end.
End Visitors.

#[global] Arguments end_seq : simpl never.
#[global] Arguments de_uint : simpl never.
#[global] Arguments de_vec : simpl never.
#[global] Arguments de_byte_array : simpl never.
#[global] Arguments de_option : simpl never.

(** ** What a struct written as a map reads as

    A specification of [visit_map] that does not run through the entries: every
    key is a name or an index, each field has at most one entry, wherever it is,
    and takes its value from it or from its default. *)

Definition is_key (key : mp) : bool :=
  match key with
  | MInt _ | MStr _ | MBin _ => true
  | _ => false
  end.

(** The keys that name the [i]-th field: its name as a string or as bytes, or
    its index. *)
Definition names_field (name : string) (i : nat) (key : mp) : bool :=
  match key with
  | MInt z => bool_decide (Z.to_nat z = i)
  | MStr s => bool_decide (s = name)
  | MBin bs => bool_decide (bs = as_bytes name)
  | _ => false
  end.

Definition values_of (name : string) (i : nat) (l : list (mp * mp)) : list mp :=
  snd <$> filter (fun e => names_field name i e.1 = true) l.

Definition reads {A} (de : mp -> res A) (default : option A) (vs : list mp) (a : A) : Prop :=
  match vs with
  | [] => default = Some a
  | [v] => de v = Ok a
  | _ => False
  end.

Section MapForm.
Context `{Rmp}.

(** The fields the entries are for, with their values. *)
Definition field_index (names : list string) (key : mp) : option nat :=
  match field_of names key with
  | Ok o => o
  | _ => None
  end.

Definition numbered (names : list string) (l : list (mp * mp)) : list (nat * mp) :=
  omap (fun e => i ← field_index names e.1; Some (i, e.2)) l.

Definition values_at (i : nat) (l : list (nat * mp)) : list mp := snd <$> filter (fun e => e.1 = i) l.

Fixpoint put_list {A} (fs : fields A) (l : list (nat * mp)) (s : fs_slots fs) : res (fs_slots fs) :=
  match l with
  | [] => Ok s
  | (k, v) :: l => s ← fs_put fs k v s; put_list fs l s
  end.

Lemma field_of_key names key : is_key key = true -> field_of names key = Ok (field_index names key).
Proof. by destruct key. Qed.

Lemma put_entries_list {A} (fs : fields A) l s s' :
  put_entries fs l s = Ok s' <->
  Forall (fun e => is_key e.1 = true) l /\ put_list fs (numbered (fs_names fs) l) s = Ok s'.
Proof.
  revert s. induction l as [|[key v] l IH]; intros s; cbn [put_entries].
  { split; [intros H1; split; [constructor|exact H1]|by intros [_ H1]]. }
  rewrite Forall_cons. cbn [fst]. destruct (is_key key) eqn:Hk.
  - rewrite field_of_key by done. cbn [mbind result_bind].
    assert (numbered (fs_names fs) ((key, v) :: l) =
      match field_index (fs_names fs) key with
      | Some i => (i, v) :: numbered (fs_names fs) l
      | None => numbered (fs_names fs) l
      end) as ->.
    { unfold numbered. cbn. by destruct (field_index _ key). }
    destruct (field_index _ key) as [i|]; cbn [put_list mbind result_bind].
    + destruct (fs_put fs i v s) as [s1|e|]; cbn [mbind result_bind]; [rewrite IH; naive_solver|naive_solver..].
    + rewrite IH. naive_solver.
  - assert (field_of (fs_names fs) key = Err (invalid_type key)) as -> by by destruct key.
    cbn [mbind result_bind]. naive_solver.
Qed.

(** The values of each of the [n] fields. *)
Definition values (n : nat) (l : list (nat * mp)) : list (list mp) := map (fun i => values_at i l) (seq 0 n).

(** What a struct's visitors make of the values of its fields. *)
Definition fields_read {A} (fs : fields A) (spec : list (list mp) -> A -> Prop) : Prop :=
  forall l a, (exists s, put_list fs l (fs_empty fs) = Ok s /\ fs_done fs s = Ok a)
              <-> spec (values (List.length (fs_names fs)) l) a.

(** The entries after the first field's. *)
Definition later (l : list (nat * mp)) : list (nat * mp) :=
  omap (fun e => match e.1 with O => None | S k => Some (k, e.2) end) l.

Lemma values_at_later i l : values_at i (later l) = values_at (S i) l.
Proof.
  unfold values_at, later. induction l as [|[[|k] v] l IH]; [done|done|].
  cbn [omap list_omap fst snd]. destruct (decide (k = i)) as [->|Hk].
  - rewrite !filter_cons_True by done. cbn. by f_equal.
  - by rewrite !filter_cons_False by (cbn; congruence).
Qed.

Lemma values_later n l : values (S n) l = values_at 0 l :: values n (later l).
Proof.
  unfold values. cbn [seq map]. f_equal. rewrite <- seq_shift, map_map.
  apply map_ext. intros i. by rewrite values_at_later.
Qed.

(** The first slot after reading the values [vs] into it. *)
Definition fill {A} (de : mp -> res A) (o : option A) (vs : list mp) (o' : option A) : Prop :=
  match vs with
  | [] => o' = o
  | [v] => o = None /\ exists a, de v = Ok a /\ o' = Some a
  | _ => False
  end.

Lemma put_list_and_field {A B} name (de : mp -> res A) default (fs : fields B) l : forall o s o' s',
  put_list (and_field name de default fs) l (o, s) = Ok (o', s') <->
  fill de o (values_at 0 l) o' /\ put_list fs (later l) s = Ok s'.
Proof.
  induction l as [|[[|k] v] l IH]; intros o s o' s'.
  - cbn. naive_solver.
  - cbn [put_list and_field fs_put fst snd].
    change (values_at 0 ((0%nat, v) :: l)) with (v :: values_at 0 l).
    change (later ((0%nat, v) :: l)) with (later l).
    destruct o as [a|]; cbn [mbind result_bind].
    { split; [done|]. unfold fill. destruct (values_at 0 l); [by intros [[? _] _]|by intros [[] _]]. }
    destruct (de v) as [a|e|] eqn:Hv; cbn [mbind result_bind mret result_ret].
    + rewrite (IH (Some a) s o' s'). unfold fill. rewrite Hv. destruct (values_at 0 l) as [|v1 [|? ?]].
      * split; [intros [-> ?]; by eauto|]. by intros [[_ (a' & [= <-] & ->)] ?].
      * by split; [intros [[? _] _]|intros [[] _]].
      * by split; intros [[] _].
    + split; [done|]. unfold fill. destruct (values_at 0 l); [intros [[_ (a & Ha & _)] _]; congruence|by intros [[] _]].
    + split; [done|]. unfold fill. destruct (values_at 0 l); [intros [[_ (a & Ha & _)] _]; congruence|by intros [[] _]].
  - cbn [put_list and_field fs_put fst snd].
    change (values_at 0 ((S k, v) :: l)) with (values_at 0 l).
    change (later ((S k, v) :: l)) with ((k, v) :: later l). cbn [put_list].
    destruct (fs_put fs k v s) as [s1|e|]; cbn [mbind result_bind mret result_ret]; [apply IH|by split; [|intros [_ ?]]..].
Qed.

Lemma no_fields_read : fields_read no_fields (fun vs _ => vs = []).
Proof.
  intros l []. split; [done|]. intros _. exists tt.
  assert (forall s, put_list no_fields l s = Ok s) as ->; [|done].
  induction l as [|[k v] l IH]; [done|exact IH].
Qed.

Lemma and_field_read {A B} name (de : mp -> res A) default (fs : fields B) spec :
  fields_read fs spec ->
  fields_read (and_field name de default fs) (fun vs ab =>
    match vs with
    | v :: vs => reads de default v ab.1 /\ spec vs ab.2
    | [] => False
    end).
Proof.
  intros Hfs l [a b]. cbn [fst snd]. change (List.length (fs_names _)) with (S (List.length (fs_names fs))).
  rewrite values_later, <- (Hfs (later l) b). split.
  - intros ([o s] & Hp & Hd). apply put_list_and_field in Hp as [Hf Hp].
    cbn in Hd. apply bind_Ok in Hd as (a' & Ho & Hd). apply bind_Ok in Hd as (b' & Hb & Hd). injection Hd as <- <-.
    split; [|by exists s]. unfold fill in Hf. unfold reads. destruct (values_at 0 l) as [|v [|? ?]]; [| |done].
    + subst o. by destruct default; [injection Ho as <-|].
    + destruct Hf as [_ (a1 & Hv & ->)]. by injection Ho as <-.
  - intros [Hr (s & Hp & Hb)]. unfold reads in Hr.
    destruct (values_at 0 l) as [|v [|? ?]] eqn:Hvs; [| |done].
    + exists (None, s). split; [apply put_list_and_field; rewrite Hvs; by split|]. cbn. rewrite Hr. cbn. by rewrite Hb.
    + exists (Some a, s). split; [apply put_list_and_field; rewrite Hvs; split; [split; [done|by exists a]|done]|]. cbn. by rewrite Hb.
Qed.

(** *** Names *)

Lemma field_index_names names i n key :
  NoDup names -> names !! i = Some n -> field_index names key = Some i <-> names_field n i key = true.
Proof.
  intros Hnd Hi.
  assert (forall s, fst <$> list_find (fun n => n = s) names = Some i <-> s = n) as Hname.
  { intros s. split.
    - intros ([j x] & Hf & ->)%fmap_Some. apply list_find_Some in Hf as (Hj & <- & _). cbn in Hi. congruence.
    - intros ->. apply fmap_Some. exists (i, n). split; [|done]. apply list_find_Some. split_and!; [done|done|].
      intros j y Hj Hlt ->. pose proof (NoDup_lookup _ _ _ _ Hnd Hi Hj). lia. }
  unfold field_index, names_field. destruct key; cbn [field_of mret result_ret]; try (by split).
  - rewrite bool_decide_eq_true. apply lookup_lt_Some in Hi. unfold len.
    destruct (Z.ltb_spec z (Z.of_nat (List.length names))); split; intros Hz; try done; try lia.
    + by injection Hz.
    + by rewrite Hz.
  - rewrite bool_decide_eq_true. apply Hname.
  - rewrite bool_decide_eq_true, Hname. split.
    + intros <-. by rewrite as_bytes_of_bytes.
    + intros ->. apply of_bytes_as_bytes.
Qed.

Lemma values_numbered names i n l :
  NoDup names -> names !! i = Some n -> values_at i (numbered names l) = values_of n i l.
Proof.
  intros Hnd Hi. unfold values_at, values_of, numbered. induction l as [|[key v] l IH]; [done|].
  cbn [omap list_omap fst snd]. pose proof (field_index_names names i n key Hnd Hi) as Hk.
  destruct (names_field n i key) eqn:E.
  - rewrite (proj2 Hk) by done. cbn [mbind option_bind]. rewrite !filter_cons_True by done. cbn. by f_equal.
  - rewrite (filter_cons_False _ (key, v)) by (cbn; congruence).
    destruct (field_index names key) as [j|]; cbn [mbind option_bind]; [|done].
    rewrite filter_cons_False; [done|]. cbn. intros ->. discriminate (proj1 Hk eq_refl).
Qed.

Lemma values_names names l :
  NoDup names -> values (List.length names) (numbered names l) = imap (fun i n => values_of n i l) names.
Proof.
  intros Hnd. apply list_eq. intros i. unfold values. rewrite list_lookup_imap, list_lookup_fmap.
  destruct (names !! i) as [n|] eqn:Hi.
  - rewrite lookup_seq_lt by (by eapply lookup_lt_Some). cbn. f_equal. by apply values_numbered.
  - rewrite lookup_seq_ge by (by apply lookup_ge_None). done.
Qed.

(** A struct written as a map: what its fields make of the values with their
    names. *)
Lemma de_struct_map {A B} (fs : fields A) spec (make : A -> B) l b :
  fields_read fs spec -> NoDup (fs_names fs) ->
  de_struct fs make (MMap l) = Ok b <->
  Forall (fun e => is_key e.1 = true) l /\
  exists a, spec (imap (fun i n => values_of n i l) (fs_names fs)) a /\ make a = b.
Proof.
  intros Hfs Hnd. rewrite <- values_names by done. unfold de_struct, visit_map. split.
  - intros Hb. destruct (put_entries fs l (fs_empty fs) ≫= fs_done fs) as [a|e|] eqn:Ha; try done. injection Hb as Hb. apply bind_Ok in Ha as (s & Hs & Ha).
    apply put_entries_list in Hs as [Hk Hs]. split; [done|]. exists a. split; [|done]. apply Hfs. by exists s.
  - intros (Hk & a & Ha & <-). apply Hfs in Ha as (s & Hs & Ha).
    rewrite (proj2 (put_entries_list fs l _ s) (conj Hk Hs)). cbn [mbind result_bind]. by rewrite Ha.
Qed.
End MapForm.

(** What serde writes for the standard types. *)
Definition ser_u8 (b : byte) : mp := MInt (Z_of_byte b).
Definition ser_seq_bytes (bs : bytes) : mp := MArray (map ser_u8 bs).
Definition ser_option {A} (ser : A -> mp) (o : option A) : mp :=
  match o with
  | Some a => ser a
  | None => MNil
  end.

(** ** postcard

    Not self-describing: the reader is driven by the [shape] the derived
    [Deserialize] asks for, so the order and the types of the fields and the
    order of enum variants decide how the bytes are read. *)
Inductive pv : Type :=
  | PBool (b : bool)
  | PU8 (b : byte)
  | PUint (w : Z) (z : Z)
  | PStr (s : string)
  | PSeq (l : list pv)
  | PTuple (l : list pv)
  | PNone
  | PSome (v : pv)
  | PVariant (i : Z) (v : pv).

Inductive shape : Type :=
  | ShBool
  | ShU8
  | ShUint (w : Z)
  | ShStr
  | ShSeq (s : shape)
  | ShTuple (l : list shape)
  | ShOption (s : shape)
  | ShEnum (variants : list shape).

Section ForallB2.
Context {A B : Type} (p : A -> B -> bool).
Fixpoint forallb2 (l : list A) (m : list B) : bool :=
  match l, m with
  | [], [] => true
  | a :: l, b :: m => p a b && forallb2 l m
  | _, _ => false
  end.
End ForallB2.

(** Lengths, indices and integers within what the writer's types hold. *)
Fixpoint has_shape (v : pv) (s : shape) {struct v} : bool :=
  match v, s with
  | PBool _, ShBool => true
  | PU8 _, ShU8 => true
  | PUint w z, ShUint w' => (w =? w') && bool_decide (in_width w z) && (0 <? w) && (w <=? 64)
  | PStr str, ShStr => (str_len str <? 2 ^ 32) && str_valid str
  | PSeq l, ShSeq s => (len l <? 2 ^ 32) && forallb (fun v => has_shape v s) l
  | PTuple l, ShTuple ss => forallb2 has_shape l ss
  | PNone, ShOption _ => true
  | PSome v, ShOption s => has_shape v s
  | PVariant i v, ShEnum ss =>
      (0 <=? i) && (i <? 2 ^ 32) &&
      match ss !! Z.to_nat i with
      | Some s => has_shape v s
      | None => false
      end
  | _, _ => false
  end.

(** The wire format postcard documents: LEB128 integers (seven bits a byte,
    least significant first), lengths and enum variants as such integers,
    no field names. *)
Fixpoint varint (fuel : nat) (z : Z) : bytes :=
  match fuel with
  | O => []
  | S fuel =>
      if z <? 128 then [byte_of_Z z]
      else byte_of_Z (z mod 128 + 128) :: varint fuel (z / 128)
  end.

(** Ten groups of seven bits hold 64-bit values. *)
Definition VARINT : nat := 10.

Fixpoint postcard_bytes (v : pv) : bytes :=
  match v with
  | PBool b => [if b then x01 else x00]
  | PU8 b => [b]
  | PUint w z => varint VARINT z
  | PStr s => varint VARINT (str_len s) ++ as_bytes s
  | PSeq l => varint VARINT (len l) ++ concat (map postcard_bytes l)
  | PTuple l => concat (map postcard_bytes l)
  | PNone => [x00]
  | PSome v => x01 :: postcard_bytes v
  | PVariant i v => varint VARINT i ++ postcard_bytes v
  end.

Class Postcard := {
  to_stdvec : pv -> res bytes;
  from_bytes : shape -> bytes -> res pv;
}.

Class PostcardLaws `{Postcard} : Prop := {
  to_stdvec_format v s : has_shape v s = true -> to_stdvec v = Ok (postcard_bytes v);
  from_bytes_postcard v s : has_shape v s = true -> from_bytes s (postcard_bytes v) = Ok v;
  from_bytes_shape s bs v : from_bytes s bs = Ok v -> has_shape v s = true;
  from_bytes_total s bs : from_bytes s bs <> Panic;
  to_stdvec_total v : to_stdvec v <> Panic;
}.
