(* ===== verification/Wire.v ===== *)
(** * Derived postcard serialisers

    What [#[derive(Serialize, Deserialize)]] generates, as combinators: a type
    is described by its fields in declaration order or its variants in
    declaration order, and the description gives the shape the reader asks
    for, the writer and the reader.  The laws of a description follow from
    those of its parts by instance resolution. *)

From S2P Require Import Prelude Text Serde.

(** A type of messages with its derived [Serialize] and [Deserialize]. *)
Class Wire (A : Type) := {
  wire_shape : shape;
  wire_ser : A -> pv;
  wire_de : pv -> option A;
  (** The values whose machine integers and lengths are in range: the ones
      that exist in the program. *)
  wire_ok : A -> bool;
}.

(** Writing produces the shape that reading asks for, and the two are inverse
    of each other. *)
Class WireLaws {A : Type} (W : Wire A) : Prop := {
  wire_has_shape a : wire_ok a = true -> has_shape (wire_ser a) wire_shape = true;
  wire_de_ser a : wire_de (wire_ser a) = Some a;
  wire_de_shape v :
    has_shape v wire_shape = true ->
    exists a, wire_de v = Some a /\ wire_ok a = true /\ wire_ser a = v;
}.

(** The fields of a struct or of a variant. *)
Class Fields (A : Type) := {
  fields_shape : list shape;
  fields_ser : A -> list pv;
  fields_de : list pv -> option A;
  fields_ok : A -> bool;
}.

Class FieldsLaws {A : Type} (F : Fields A) : Prop := {
  fields_has_shape a : fields_ok a = true -> forallb2 has_shape (fields_ser a) fields_shape = true;
  fields_de_ser a : fields_de (fields_ser a) = Some a;
  fields_de_shape l :
    forallb2 has_shape l fields_shape = true ->
    exists a, fields_de l = Some a /\ fields_ok a = true /\ fields_ser a = l;
}.

(** The variants of an enum. *)
Class Variants (A : Type) := {
  variants_shape : list shape;
  variants_ser : A -> nat * pv;
  variants_de : nat -> pv -> option A;
  variants_ok : A -> bool;
}.

Class VariantsLaws {A : Type} (V : Variants A) : Prop := {
  variants_has_shape a :
    variants_ok a = true ->
    exists s, variants_shape !! (variants_ser a).1 = Some s /\ has_shape (variants_ser a).2 s = true;
  variants_de_ser a : variants_de (variants_ser a).1 (variants_ser a).2 = Some a;
  variants_de_shape i s v :
    variants_shape !! i = Some s -> has_shape v s = true ->
    exists a, variants_de i v = Some a /\ variants_ok a = true /\ variants_ser a = (i, v);
}.

(** ** Combinators *)

Definition wire_uint (w : Z) : Wire Z := {|
  wire_shape := ShUint w;
  wire_ser z := PUint w z;
  wire_de v := match v with PUint _ z => Some z | _ => None end;
  wire_ok z := bool_decide (in_width w z);
|}.

Abbreviation wire_u16 := (wire_uint 16).
Abbreviation wire_u32 := (wire_uint 32).
Abbreviation wire_u64 := (wire_uint 64).
(** [usize] on [wasm32]. *)
Abbreviation wire_usize := (wire_uint 32).

Definition wire_u8 : Wire byte := {|
  wire_shape := ShU8;
  wire_ser b := PU8 b;
  wire_de v := match v with PU8 b => Some b | _ => None end;
  wire_ok _ := true;
|}.

Definition wire_bool : Wire bool := {|
  wire_shape := ShBool;
  wire_ser b := PBool b;
  wire_de v := match v with PBool b => Some b | _ => None end;
  wire_ok _ := true;
|}.

Definition wire_str : Wire string := {|
  wire_shape := ShStr;
  wire_ser s := PStr s;
  wire_de v := match v with PStr s => Some s | _ => None end;
  wire_ok s := (str_len s <? 2 ^ 32) && str_valid s;
|}.

Definition wire_vec {A} (W : Wire A) : Wire (list A) := {|
  wire_shape := ShSeq wire_shape;
  wire_ser l := PSeq (map wire_ser l);
  wire_de v := match v with PSeq l => mapM wire_de l | _ => None end;
  wire_ok l := (len l <? 2 ^ 32) && forallb wire_ok l;
|}.

Abbreviation wire_bytes := (wire_vec wire_u8).

Definition wire_arr (n : nat) : Wire (arr n) := {|
  wire_shape := ShTuple (replicate n ShU8);
  wire_ser (a : arr n) := PTuple (map PU8 a);
  wire_de v := match v with
               | PTuple l => bs ← mapM (@wire_de _ wire_u8) l; try_into n bs
               | _ => None
               end;
  wire_ok (_ : arr n) := true;
|}.

Definition wire_option {A} (W : Wire A) : Wire (option A) := {|
  wire_shape := ShOption wire_shape;
  wire_ser o := match o with Some a => PSome (wire_ser a) | None => PNone end;
  wire_de v := match v with
               | PNone => Some None
               | PSome v => a ← wire_de v; Some (Some a)
               | _ => None
               end;
  wire_ok o := match o with Some a => wire_ok a | None => true end;
|}.

Definition fields_nil : Fields unit := {|
  fields_shape := [];
  fields_ser _ := [];
  fields_de l := match l with [] => Some tt | _ => None end;
  fields_ok _ := true;
|}.

Definition fields_cons {A B} (W : Wire A) (F : Fields B) : Fields (A * B) := {|
  fields_shape := wire_shape :: fields_shape;
  fields_ser p := wire_ser p.1 :: fields_ser p.2;
  fields_de l := match l with
                 | v :: l => a ← wire_de v; b ← fields_de l; Some (a, b)
                 | [] => None
                 end;
  fields_ok (p : A * B) := wire_ok p.1 && fields_ok p.2;
|}.

Definition variants_nil : Variants Empty_set := {|
  variants_shape := [];
  variants_ser (e : Empty_set) := match e with end;
  variants_de _ _ := None;
  variants_ok (e : Empty_set) := match e with end;
|}.

Definition variants_cons {A B} (W : Wire A) (V : Variants B) : Variants (A + B) := {|
  variants_shape := wire_shape :: variants_shape;
  variants_ser s := match s with
                    | inl a => (O, wire_ser a)
                    | inr b => (S (variants_ser b).1, (variants_ser b).2)
                    end;
  variants_de i v := match i with
                     | O => a ← wire_de v; Some (inl a)
                     | S i => b ← variants_de i v; Some (inr b)
                     end;
  variants_ok s := match s with inl a => wire_ok a | inr b => variants_ok b end;
|}.

(** The fields of a struct-like variant, as a type of its own. *)
Definition wire_fields {P} (F : Fields P) : Wire P := {|
  wire_shape := ShTuple fields_shape;
  wire_ser p := PTuple (fields_ser p);
  wire_de v := match v with PTuple l => fields_de l | _ => None end;
  wire_ok := fields_ok;
|}.

(** A description [W] of a type isomorphic to [A]. *)
Definition wire_iso {A P} (to : A -> P) (from : P -> A) (W : Wire P) : Wire A := {|
  wire_shape := wire_shape;
  wire_ser a := wire_ser (to a);
  wire_de v := p ← wire_de v; Some (from p);
  wire_ok a := wire_ok (to a);
|}.

Definition wire_struct {A P} (F : Fields P) (to : A -> P) (from : P -> A) : Wire A :=
  wire_iso to from (wire_fields F).

Definition wire_variants {P} (V : Variants P) : Wire P := {|
  wire_shape := ShEnum variants_shape;
  wire_ser p := PVariant (Z.of_nat (variants_ser p).1) (variants_ser p).2;
  wire_de v := match v with PVariant i v => variants_de (Z.to_nat i) v | _ => None end;
  wire_ok := variants_ok;
|}.

Definition wire_enum {A P} (V : Variants P) (to : A -> P) (from : P -> A) : Wire A :=
  wire_iso to from (wire_variants V).

Declare Scope wire_scope.
Delimit Scope wire_scope with wire.
Infix "⊗" := fields_cons (at level 51, right associativity) : wire_scope.
Infix "⊕" := variants_cons (at level 52, right associativity) : wire_scope.
Notation "⟨⟩" := fields_nil : wire_scope.
Notation "∅ᵥ" := variants_nil : wire_scope.
#[global] Open Scope wire_scope.

(** ** Laws of the combinators *)

#[export] Instance wire_uint_laws w : TCEq ((0 <? w) && (w <=? 64)) true -> WireLaws (wire_uint w).
Proof.
  intros Hw%TCEq_eq. split; cbn; [|done|].
  - intros z Hz. rewrite Z.eqb_refl, Hz. exact Hw.
  - intros [] Hv; try done. cbn in Hv.
    apply andb_true_iff in Hv as [Hv _]. apply andb_true_iff in Hv as [Hv _].
    apply andb_true_iff in Hv as [<-%Z.eqb_eq Hv]. eauto.
Qed.

#[export] Instance wire_u8_laws : WireLaws wire_u8.
Proof. split; cbn; [done..|]. intros [] Hv; try done. eauto. Qed.

#[export] Instance wire_bool_laws : WireLaws wire_bool.
Proof. split; cbn; [done..|]. intros [] Hv; try done. eauto. Qed.

#[export] Instance wire_str_laws : WireLaws wire_str.
Proof. split; cbn; [done..|]. intros [] Hv; try done. eauto. Qed.

(** Reading a list of values of one shape. *)
Lemma mapM_de_shape {A} (W : Wire A) `{WL : !WireLaws W} l :
  forallb (fun v => has_shape v wire_shape) l = true ->
  exists la, mapM wire_de l = Some la /\ forallb wire_ok la = true /\ map wire_ser la = l.
Proof.
  induction l as [|v l IH]; cbn; intros H; [by exists []|].
  apply andb_true_iff in H as [Hv Hl].
  destruct (wire_de_shape v Hv) as (a & -> & Ha & Hs), (IH Hl) as (la & -> & Hla & Hsl).
  exists (a :: la). cbn. by rewrite Ha, Hla, Hs, Hsl.
Qed.

Lemma mapM_de_ser {A} (W : Wire A) `{WL : !WireLaws W} l : mapM wire_de (map wire_ser l) = Some l.
Proof. induction l as [|a l IH]; [done|]. cbn. by rewrite wire_de_ser, IH. Qed.

#[export] Instance wire_vec_laws {A} (W : Wire A) : WireLaws W -> WireLaws (wire_vec W).
Proof.
  intros WL. split; cbn.
  - intros l Hl. apply andb_true_iff in Hl as [Hl Ho]. unfold len in *. rewrite length_map, Hl. cbn.
    rewrite forallb_forall in *. intros v Hv. apply in_map_iff in Hv as (a & <- & Ha).
    by apply wire_has_shape, Ho.
  - intros l. apply mapM_de_ser, WL.
  - intros [] Hv; try done. cbn in Hv. apply andb_true_iff in Hv as [Hl Hv].
    destruct (mapM_de_shape W l Hv) as (la & -> & Ho & <-). exists la.
    unfold len in *. rewrite length_map in Hl. by rewrite Hl, Ho.
Qed.

Lemma forallb2_replicate l n s :
  forallb2 has_shape l (replicate n s) = true <->
  List.length l = n /\ forallb (fun v => has_shape v s) l = true.
Proof.
  revert n. induction l as [|v l IH]; intros [|n]; cbn; [naive_solver..|].
  rewrite !andb_true_iff, IH. naive_solver.
Qed.

#[export] Instance wire_arr_laws n : WireLaws (wire_arr n).
Proof.
  split; cbn [wire_ok wire_ser wire_de wire_shape wire_arr].
  - intros a _. apply forallb2_replicate. rewrite length_map, arr_length. split; [done|].
    rewrite forallb_forall. intros v Hv. by apply in_map_iff in Hv as (b & <- & _).
  - intros a. change (map PU8 a) with (map (@wire_ser _ wire_u8) a).
    rewrite (mapM_de_ser wire_u8). apply try_into_arr.
  - intros [] Hv; try done. apply forallb2_replicate in Hv as [Hn Hv].
    destruct (mapM_de_shape wire_u8 l Hv) as (bs & -> & _ & <-). cbn [mbind option_bind].
    rewrite length_map in Hn. destruct (try_into n bs) as [a|] eqn:Ha.
    + exists a. apply try_into_Some in Ha. by rewrite <- Ha.
    + by apply try_into_None in Ha.
Qed.

#[export] Instance wire_option_laws {A} (W : Wire A) : WireLaws W -> WireLaws (wire_option W).
Proof.
  intros WL. split; cbn.
  - intros [a|]; [apply wire_has_shape|done].
  - intros [a|]; [by rewrite wire_de_ser|done].
  - intros [] Hv; try done; [by exists None|]. cbn in Hv.
    destruct (wire_de_shape v Hv) as (a & -> & Ha & <-). by exists (Some a).
Qed.

#[export] Instance fields_nil_laws : FieldsLaws fields_nil.
Proof. split; cbn; [done|by intros []|]. intros [|]; [|done]. by exists tt. Qed.

#[export] Instance fields_cons_laws {A B} (W : Wire A) (F : Fields B) :
  WireLaws W -> FieldsLaws F -> FieldsLaws (W ⊗ F).
Proof.
  intros WL FL. split; cbn.
  - intros [a b] H. cbn in *. apply andb_true_iff in H as [Ha Hb].
    by rewrite wire_has_shape, fields_has_shape.
  - intros [a b]. cbn. by rewrite wire_de_ser, fields_de_ser.
  - intros [|v l] H; [done|]. apply andb_true_iff in H as [Hv Hl].
    destruct (wire_de_shape v Hv) as (a & -> & Ha & <-), (fields_de_shape l Hl) as (b & -> & Hb & <-).
    exists (a, b). cbn. by rewrite Ha, Hb.
Qed.

#[export] Instance variants_nil_laws : VariantsLaws variants_nil.
Proof. split; [by intros []..|done]. Qed.

#[export] Instance variants_cons_laws {A B} (W : Wire A) (V : Variants B) :
  WireLaws W -> VariantsLaws V -> VariantsLaws (W ⊕ V).
Proof.
  intros WL VL. split; cbn.
  - intros [a|b] H; cbn; [eauto using wire_has_shape|by apply variants_has_shape].
  - intros [a|b]; cbn; [by rewrite wire_de_ser|by rewrite variants_de_ser].
  - intros [|i] s v Hi Hv; cbn in *.
    + injection Hi as <-. destruct (wire_de_shape v Hv) as (a & -> & Ha & <-). by exists (inl a).
    + destruct (variants_de_shape i s v Hi Hv) as (b & -> & Hb & Hs).
      exists (inr b). cbn. by rewrite Hs.
Qed.

#[export] Instance wire_fields_laws {P} (F : Fields P) : FieldsLaws F -> WireLaws (wire_fields F).
Proof.
  intros FL. split; cbn.
  - apply fields_has_shape.
  - apply fields_de_ser.
  - intros [] Hv; try done. destruct (fields_de_shape l Hv) as (a & -> & Ha & <-). eauto.
Qed.

#[export] Instance wire_variants_laws {P} (V : Variants P) :
  VariantsLaws V -> TCEq (len (@variants_shape _ V) <? 2 ^ 32) true -> WireLaws (wire_variants V).
Proof.
  intros VL Hlen%TCEq_eq%Z.ltb_lt. unfold len in Hlen. split; cbn.
  - intros a Ha. destruct (variants_has_shape a Ha) as (s & Hs & Hv). rewrite Nat2Z.id, Hs, Hv.
    apply lookup_lt_Some in Hs. rewrite andb_true_r. apply andb_true_iff.
    rewrite Z.leb_le, Z.ltb_lt. lia.
  - intros a. rewrite Nat2Z.id. apply variants_de_ser.
  - intros [] Hv; try done. cbn in Hv. apply andb_true_iff in Hv as [Hi Hv].
    destruct (variants_shape !! Z.to_nat i) as [s|] eqn:E; [|done].
    destruct (variants_de_shape _ _ _ E Hv) as (a & -> & Ha & Hs). exists a. rewrite Hs. cbn.
    apply andb_true_iff in Hi as [Hi%Z.leb_le _]. by rewrite Z2Nat.id.
Qed.

Lemma wire_iso_laws {A P} (to : A -> P) (from : P -> A) (W : Wire P) :
  WireLaws W -> (forall a, from (to a) = a) -> (forall p, to (from p) = p) ->
  WireLaws (wire_iso to from W).
Proof.
  intros WL Hof Hto. split; cbn.
  - intros a. apply wire_has_shape.
  - intros a. rewrite wire_de_ser. cbn. by rewrite Hof.
  - intros v Hv. destruct (wire_de_shape v Hv) as (p & -> & Hp & Hs). exists (from p). cbn. by rewrite Hto.
Qed.

(** Proves the laws of a struct or an enum from those of its parts. *)
Ltac wire_laws :=
  apply wire_iso_laws;
  [apply _ | intros []; reflexivity
  | let p := fresh "p" in
    intros p; repeat match goal with x : _ + _ |- _ => destruct x | x : _ * _ |- _ => destruct x
                     | x : unit |- _ => destruct x | x : Empty_set |- _ => destruct x end; reflexivity].

(** ** Encoding and decoding a message *)

Section Codec.
Context {A : Type} (W : Wire A) `{Postcard}.

(** [postcard::to_stdvec(self)] and [postcard::from_bytes(data)] at [A]: the
    value built from what was read; the [Panic] case is unreachable. *)
Definition postcard_encode (a : A) : res bytes := to_stdvec (wire_ser a).

Definition postcard_decode (data : bytes) : res A :=
  v ← from_bytes wire_shape data;
  match wire_de v with Some a => Ok a | None => Panic end.

Context `{PL : !PostcardLaws} `{WL : !WireLaws W}.

Lemma postcard_encode_ok a :
  wire_ok a = true -> postcard_encode a = Ok (postcard_bytes (wire_ser a)).
Proof. intros Ha. by apply (to_stdvec_format _ wire_shape), wire_has_shape. Qed.

Lemma postcard_decode_encode a :
  wire_ok a = true -> postcard_decode (postcard_bytes (wire_ser a)) = Ok a.
Proof.
  intros Ha. unfold postcard_decode. rewrite from_bytes_postcard by (by apply wire_has_shape).
  cbn [mbind result_bind]. by rewrite wire_de_ser.
Qed.

Lemma postcard_decode_total data : postcard_decode data <> Panic.
Proof.
  unfold postcard_decode. intros Hp. apply bind_Panic in Hp as [Hp|(v & Hv & Hp)].
  - by apply from_bytes_total in Hp.
  - apply from_bytes_shape in Hv. destruct (wire_de_shape v Hv) as (a & Ha & _).
    by rewrite Ha in Hp.
Qed.

Lemma postcard_encode_total a : postcard_encode a <> Panic.
Proof. apply to_stdvec_total. Qed.

Lemma postcard_decode_ok data a : postcard_decode data = Ok a -> wire_ok a = true.
Proof.
  unfold postcard_decode. intros Hd. inv_res. apply from_bytes_shape in H0.
  destruct (wire_de_shape _ H0) as (a' & Ha & Ho & _). congruence.
Qed.
End Codec.
