(* ===== verification/RefCrates.v ===== *)
(** * Reference instances of the crate interfaces

    Executable instances of the interfaces of [Crates], with proofs of their
    laws: [hex] as the crate documents it, and toy stand-ins for the
    cryptographic crates that satisfy the same laws.  Witnesses evaluate the
    client's code with them; no theorem about the client depends on them. *)

From Stdlib Require Import Ascii.
From S2P Require Import Prelude Text Crates.

(** ** Padding to a fixed size *)

Lemma pad_length n (l : bytes) : List.length (take n (l ++ replicate n x00)) = n.
Proof. rewrite length_take, length_app, length_replicate. lia. Qed.

Definition pad (n : nat) (l : bytes) : arr n := mk_arr n _ (pad_length n l).

Lemma pad_take n (l : bytes) : (List.length l <= n)%nat -> take (List.length l) (pad n l) = l.
Proof.
  intros H. cbn. rewrite take_take, Nat.min_l by done. by rewrite take_app_length.
Qed.

Lemma pad_id n (a : arr n) : pad n a = a.
Proof. apply arr_eq. cbn. apply take_app_length'. by rewrite arr_length. Qed.

Lemma pad_unpad n m (a : arr n) : (n <= m)%nat -> pad n (take n (pad m a)) = a.
Proof.
  intros H. pose proof (pad_take m a) as Hp. rewrite arr_length in Hp. rewrite Hp by done.
  apply pad_id.
Qed.

(** ** hex *)

Module HexRef.
Definition encode (l : bytes) : string :=
  fold_right (fun b s => hex_02x b +:+ s) EmptyString l.

(** Either case, as the crate accepts. *)
Definition digit (c : ascii) : option Z :=
  let n := Z.of_nat (nat_of_ascii c) in
  if (48 <=? n) && (n <=? 57) then Some (n - 48)
  else if (97 <=? n) && (n <=? 102) then Some (n - 87)
  else if (65 <=? n) && (n <=? 70) then Some (n - 55)
  else None.

Fixpoint decode (s : string) : res bytes :=
  match s with
  | EmptyString => Ok []
  | String a (String b s) =>
      match digit a, digit b with
      | Some x, Some y => l ← decode s; mret (byte_of_Z (16 * x + y) :: l)
      | _, _ => Err "Invalid character"
      end
  | String _ EmptyString => Err "Odd number of digits"
  end.

#[export] Instance hex_ref : Hex := { hex_encode := encode; hex_decode := decode }.

Lemma digit_hex_digit z : 0 <= z < 16 -> digit (hex_digit z) = Some z.
Proof.
  intros Hz. assert (z = 0 \/ z = 1 \/ z = 2 \/ z = 3 \/ z = 4 \/ z = 5 \/ z = 6 \/ z = 7 \/
    z = 8 \/ z = 9 \/ z = 10 \/ z = 11 \/ z = 12 \/ z = 13 \/ z = 14 \/ z = 15) as Hc by lia.
  repeat destruct Hc as [->|Hc]; try reflexivity. by subst.
Qed.

Lemma decode_encode l : decode (encode l) = Ok l.
Proof.
  induction l as [|b l IH]; [done|]. cbn [encode fold_right].
  pose proof (Z_of_byte_range b).
  unfold hex_02x. cbn [String.append decode].
  rewrite !digit_hex_digit by (first [apply Z.mod_pos_bound; lia
    | split; [apply Z.div_pos; lia|apply Z.div_lt_upper_bound; lia]]).
  change (fold_right _ _ l) with (encode l). rewrite IH. cbn.
  rewrite <- Z.div_mod by lia. by rewrite byte_of_Z_of_byte.
Qed.

Lemma decode_len s : forall l, decode s = Ok l -> str_len s = 2 * len l.
Proof.
  induction s as [s IH] using (induction_ltof1 _ String.length). unfold ltof in IH.
  intros l. destruct s as [|a [|b s]]; cbn; [by intros [= <-]|done|].
  destruct (digit a), (digit b); try done. intros H. inv_res.
  rewrite len_cons. pose proof (IH s ltac:(cbn; lia) x ltac:(done)) as Hs.
  unfold str_len in *. cbn [String.length]. lia.
Qed.

Lemma decode_total s : decode s <> Panic.
Proof.
  induction s as [s IH] using (induction_ltof1 _ String.length). unfold ltof in IH.
  destruct s as [|a [|b s]]; cbn; [done|done|].
  destruct (digit a), (digit b); try done. intros [H|(? & _ & H)]%bind_Panic; [|done].
  by apply (IH s) in H; [|cbn; lia].
Qed.

#[export] Instance hex_ref_laws : HexLaws.
Proof.
  split; cbn.
  - apply decode_encode.
  - intros b. apply decode_len, decode_encode.
  - intros s b. apply decode_len.
  - apply decode_total.
  - done.
Qed.
End HexRef.

(** ** Toy cryptography *)

Module ToyCrypto.
(** A 32-byte digest that depends on the length and the first bytes. *)
Definition digest (l : bytes) : arr 32 := pad 32 (le_bytes 4 (len l) ++ l).

#[export] Instance blake3_toy : Blake3 := {
  blake3_hash := digest;
  blake3_derive_key ctx l := digest (as_bytes ctx ++ l);
}.

#[export] Instance keccak_toy : Keccak := { keccak256 := digest }.

Definition tag (k : arr 32) (n : arr 12) : bytes := take 8 k ++ take 8 n.

Lemma length_tag k n : List.length (tag k n) = 16%nat.
Proof. unfold tag. rewrite length_app, !length_take, !arr_length. lia. Qed.

#[export] Instance chacha_toy : ChaCha := {
  aead_encrypt k n p := Some (p ++ tag k n);
  aead_decrypt k n c :=
    let m := (List.length c - 16)%nat in
    if decide (drop m c = tag k n) then Some (take m c) else None;
}.

#[export] Instance chacha_toy_laws : ChaChaLaws.
Proof.
  split; cbn; intros k n p c Hd; [injection Hd as <-; rewrite length_app, length_tag;
    replace (List.length p + 16 - 16)%nat with (List.length p) by lia|].
  - by rewrite drop_app_length, take_app_length, decide_True.
  - case_decide as Ht; [|done]. injection Hd as <-. by rewrite <- Ht, take_drop.
Qed.

#[export] Instance mlkem_toy : MlKem := {
  DecapsKey := unit;
  CipherText := arr CT_LEN;
  Randomness := arr 32;
  kem_try_keygen r := Ok (pad EK_LEN r, tt);
  ct_try_from_bytes := Some;
  try_decaps _ ct := Some (pad 32 (take 32 ct));
  kem_encaps _ r := Some (r, pad CT_LEN r);
}.

#[export] Instance mlkem_toy_laws : MlKemLaws.
Proof.
  split; cbn; [|done]. intros r r' ek dk ss ct _ [= <- <-]. eexists. split; [done|]. f_equal.
  apply (pad_unpad 32 CT_LEN). apply Nat.leb_le. reflexivity.
Qed.

Definition toy_sign (pk msg ctx : bytes) : arr SIG_LEN := pad SIG_LEN (take 32 pk ++ digest (ctx ++ msg)).

#[export] Instance mldsa_toy : MlDsa := {
  PublicKey := arr PK_LEN;
  SecretKey := arr 32;
  pk_try_from_bytes := Some;
  dsa_verify pk msg sig ctx := bool_decide (arr_list sig = toy_sign pk msg ctx);
  sk_public sk := pad PK_LEN sk;
  dsa_sign sk msg ctx := toy_sign (pad PK_LEN sk) msg ctx;
}.

#[export] Instance mldsa_toy_laws : MlDsaLaws.
Proof. split. cbn. intros sk msg ctx. eexists. split; [done|]. by apply bool_decide_eq_true. Qed.
(** Data maps are written as a level byte followed by 32-byte addresses;
    "decryption" concatenates the chunks. *)
Definition toy_map : Type := bool * list (arr 32).

Definition toy_parse (bs : bytes) : res toy_map :=
  match bs with
  | b :: bs => Ok (bool_decide (b = x01), omap (try_into 32) (chunks 32 bs))
  | [] => Err "empty"
  end.

Definition toy_decrypt (m : toy_map) (cs : list EncryptedChunk) : res bytes :=
  Ok (mjoin (map content cs)).

Fixpoint toy_fetch_all (fetch : arr 32 -> res bytes) (l : list (arr 32)) : res (list EncryptedChunk) :=
  match l with
  | [] => Ok []
  | a :: l => b ← fetch a; r ← toy_fetch_all fetch l; mret ({| content := b |} :: r)
  end.

Fixpoint toy_root (fuel : nat) (m : toy_map) (fetch : arr 32 -> res bytes) : res toy_map :=
  if negb m.1 then Ok m else
  match fuel with
  | O => Err "too deep"
  | S fuel =>
      cs ← toy_fetch_all fetch m.2;
      bs ← toy_decrypt m cs;
      m' ← toy_parse bs;
      toy_root fuel m' fetch
  end.

#[export] Instance selfenc_toy : SelfEncryption := {
  DataMap := toy_map;
  infos := snd;
  is_child := fst;
  verify_chunk a b := if bool_decide (digest b = a) then Ok {| content := b |} else Err "hash mismatch";
  data_map_of_bytes := toy_parse;
  decrypt_level := toy_decrypt;
  data_map_inner := toy_parse;
  get_root_data_map := toy_root 3;
  decrypt := toy_decrypt;
}.

Lemma toy_fetch_all_Ok fetch l cs :
  toy_fetch_all fetch l = Ok cs <-> Forall2 (fun a c => fetch a = Ok (content c)) l cs.
Proof.
  revert cs. induction l as [|a l IH]; intros cs; cbn [toy_fetch_all].
  - split; [intros [= <-]; constructor|]. by intros ->%Forall2_nil_inv_l.
  - split.
    + intros Hf. inv_res. constructor; [done|]. by apply IH.
    + intros (c & cs' & Hc & Hcs & ->)%Forall2_cons_inv_l. rewrite Hc. cbn [mbind result_bind].
      rewrite (proj2 (IH cs') Hcs). by destruct c.
Qed.

Lemma toy_root_unwraps fuel : forall m fetch root,
  toy_root fuel m fetch = Ok root -> unwraps fetch m root.
Proof.
  induction fuel as [|fuel IH]; intros m fetch root Hr; cbn [toy_root] in Hr;
    destruct m as [[] l]; cbn [negb fst] in Hr; try discriminate;
    try (injection Hr as <-; by apply unwrap_root).
  inv_res. eapply unwrap_child; [done| | | |by apply IH]; [by apply toy_fetch_all_Ok|done|done].
Qed.

#[export] Instance selfenc_toy_laws : SelfEncryptionLaws.
Proof.
  split; cbn.
  - intros a b c. case_bool_decide; split; [intros [= <-]|..]; try done.
    + intros [<- _]. by destruct c.
    + by intros [_ ?].
  - intros m fetch root Hr. exact (toy_root_unwraps 3 _ _ _ Hr).
  - intros [[] l] fetch cs bs root Hm Hc Hd Hp Hroot; [|done].
    apply toy_fetch_all_Ok in Hc. unfold toy_decrypt in Hd. injection Hd as <-. cbn [snd] in Hc.
    cbn [negb fst snd]. rewrite Hc. cbn [mbind result_bind]. rewrite Hp. cbn [mbind result_bind].
    destruct root as [[] ?]; done.
  - intros a b. by case_bool_decide.
  - intros []; done.
  - intros m fetch Hf. change (toy_root 3 m fetch <> Panic). generalize 3%nat. intros fuel. revert m.
    induction fuel as [|fuel IH]; intros [[] l]; cbn [toy_root negb fst]; try done.
    assert (toy_fetch_all fetch l <> Panic) as Hl.
    { induction l as [|a l IHl]; [done|]. cbn [toy_fetch_all]. intros Hp.
      apply bind_Panic in Hp as [Hp|(b & _ & Hp)]; [by eapply Hf|].
      apply bind_Panic in Hp as [Hp|(c & _ & Hp)]; done. }
    intros Hp. apply bind_Panic in Hp as [Hp|(cs & _ & Hp)]; [done|].
    apply bind_Panic in Hp as [Hp|(bs & _ & Hp)]; [done|].
    apply bind_Panic in Hp as [Hp|(m' & _ & Hp)]; [by destruct bs|by eapply IH].
  - done.
Qed.

(** A file is cut into pieces of 8 bytes; a map of more than three entries is
    wrapped once. *)
Definition toy_write (m : toy_map) : bytes := (if m.1 then x01 else x00) :: mjoin (map arr_list m.2).

#[export] Instance selfenc_toy_encryptor : SelfEncryptor := {
  encrypt data := let pieces := chunks 8 data in Ok ((false, map digest pieces), map Build_EncryptedChunk pieces);
  shrink_data_map m :=
    if (List.length m.2 <=? 3)%nat then Ok (m, []) else
    let bs := toy_write m in Ok ((true, [digest bs]), [(digest bs, bs)]);
  data_map_to_vec m := Ok (toy_write m);
}.

Lemma toy_parse_write m : toy_parse (toy_write m) = Ok m.
Proof.
  destruct m as [b l]. unfold toy_write. cbn [fst snd toy_parse]. f_equal. f_equal; [by destruct b|].
  rewrite chunks_mjoin; [|lia|].
  - induction l as [|a l IH]; [done|]. cbn [map omap list_omap]. by rewrite try_into_arr, IH.
  - apply Forall_map, Forall_true. intros a. cbn. unfold len. by rewrite arr_length.
Qed.

#[export] Instance selfenc_toy_encryptor_laws : SelfEncryptorLaws.
Proof.
  split; cbn [encrypt shrink_data_map data_map_to_vec selfenc_toy_encryptor]; try done.
  - intros data m cs fetch [= <- <-] Hf. exists (false, map digest (chunks 8 data)), (map Build_EncryptedChunk (chunks 8 data)).
    split; [by apply unwrap_root|]. split.
    + cbn [infos selfenc_toy snd]. apply Forall2_fmap, Forall_Forall2_diag, Forall_forall. intros p Hp.
      apply (Hf {| content := p |}). by apply (list_elem_of_fmap_2 Build_EncryptedChunk).
    + cbn [decrypt selfenc_toy]. unfold toy_decrypt. rewrite map_map. cbn [content]. rewrite map_id.
      by rewrite chunks_concat.
  - intros m m' stored. case_match; intros [= <- <-]; [constructor|]. by repeat constructor.
  - intros m m' stored fetch root. case_match; intros [= <- <-] Hf Hu; [done|].
    apply (unwrap_child (H := selfenc_toy)) with (chunks := [{| content := toy_write m |}]) (bs := toy_write m) (m' := m);
      [done|..|done].
    + constructor; [|constructor]. apply Hf. left.
    + change (Ok (toy_write m ++ []) = (Ok (toy_write m) : res bytes)). by rewrite app_nil_r.
    + apply toy_parse_write.
  - intros m bs [= <-]. apply toy_parse_write.
  - intros m. by case_match.
Qed.
End ToyCrypto.
