(* ===== verification/RefCodec.v ===== *)
(** * Reference codecs

    Concrete instances of the serialization interfaces: MessagePack and
    postcard encoders and decoders written from the two formats'
    specifications, with proofs of the interfaces' laws.  They show that the
    laws can hold together and let witnesses evaluate the client's code on real
    bytes; no theorem about the client depends on them. *)

From S2P Require Import Prelude Text Crates Serde.

(** ** MessagePack *)

Module Msgpack.

Definition tagged (t : Z) (n : nat) (z : Z) : bytes := byte_of_Z t :: be_bytes n z.

Definition write_int (z : Z) : bytes :=
  if (0 <=? z) then
    if z <? 128 then [byte_of_Z z]
    else if z <? 2 ^ 8 then tagged 204 1 z
    else if z <? 2 ^ 16 then tagged 205 2 z
    else if z <? 2 ^ 32 then tagged 206 4 z
    else tagged 207 8 z
  else if -32 <=? z then [byte_of_Z (256 + z)]
  else tagged 211 8 (2 ^ 64 + z).

(** The three or four length forms of strings, binaries and arrays. *)
Definition write_str_len (n : Z) : bytes :=
  if n <? 32 then [byte_of_Z (160 + n)]
  else if n <? 2 ^ 8 then tagged 217 1 n
  else if n <? 2 ^ 16 then tagged 218 2 n
  else tagged 219 4 n.

Definition write_bin_len (n : Z) : bytes :=
  if n <? 2 ^ 8 then tagged 196 1 n
  else if n <? 2 ^ 16 then tagged 197 2 n
  else tagged 198 4 n.

Definition write_array_len (n : Z) : bytes :=
  if n <? 16 then [byte_of_Z (144 + n)]
  else if n <? 2 ^ 16 then tagged 220 2 n
  else tagged 221 4 n.

Definition write_map_len (n : Z) : bytes :=
  if n <? 16 then [byte_of_Z (128 + n)]
  else if n <? 2 ^ 16 then tagged 222 2 n
  else tagged 223 4 n.

Fixpoint write (v : mp) : bytes :=
  match v with
  | MNil => [xc0]
  | MBool false => [xc2]
  | MBool true => [xc3]
  | MInt z | MSint z => write_int z
  | MStr s => write_str_len (str_len s) ++ as_bytes s
  | MBin bs => write_bin_len (len bs) ++ bs
  | MArray l => write_array_len (len l) ++ concat (map write l)
  | MMap l => write_map_len (len l) ++ concat (map (fun p => write p.1 ++ write p.2) l)
  | MOther _ => []
  end.

(** The first [n] bytes as an integer. *)
Definition read_be (n : nat) (bs : bytes) : option (Z * bytes) :=
  if (n <=? List.length bs)%nat then Some (be_val (take n bs), drop n bs) else None.

Definition read_raw (n : Z) (bs : bytes) : option (bytes * bytes) :=
  if n <=? len bs then Some (take (Z.to_nat n) bs, drop (Z.to_nat n) bs) else None.

Section Many.
Context (read : bytes -> option (mp * bytes)).
Fixpoint read_many (k : nat) (bs : bytes) : option (list mp * bytes) :=
  match k with
  | O => Some ([], bs)
  | S k =>
      '(v, bs) ← read bs;
      '(l, bs) ← read_many k bs;
      Some (v :: l, bs)
  end.
End Many.

(** The entries of a map, key and value in turn. *)
Fixpoint pairs_of (l : list mp) : list (mp * mp) :=
  match l with
  | k :: v :: l => (k, v) :: pairs_of l
  | _ => []
  end.
Definition flatten (l : list (mp * mp)) : list mp := concat (map (fun p => [p.1; p.2]) l).

(** What the first byte announces. *)
Inductive header : Type :=
  | HNil | HBool (b : bool) | HInt (z : Z) | HNeg (z : Z)
  | HUint (n : nat) | HSint (n : nat)
  | HMap (z : Z) | HMapLen (n : nat)
  | HStr (z : Z) | HStrLen (n : nat) | HBinLen (n : nat)
  | HArray (z : Z) | HArrayLen (n : nat) | HUnsupported.

Definition read_header (b : byte) : header :=
  let t := Z_of_byte b in
  if t <? 128 then HInt t
  else if t <? 144 then HMap (t - 128)
  else if t <? 160 then HArray (t - 144)
  else if t <? 192 then HStr (t - 160)
  else if 224 <=? t then HNeg (t - 256)
  else match t with
  | 192 => HNil | 194 => HBool false | 195 => HBool true
  | 196 => HBinLen 1 | 197 => HBinLen 2 | 198 => HBinLen 4
  | 204 => HUint 1 | 205 => HUint 2 | 206 => HUint 4 | 207 => HUint 8
  | 208 => HSint 1 | 209 => HSint 2 | 210 => HSint 4 | 211 => HSint 8
  | 217 => HStrLen 1 | 218 => HStrLen 2 | 219 => HStrLen 4
  | 220 => HArrayLen 2 | 221 => HArrayLen 4
  | 222 => HMapLen 2 | 223 => HMapLen 4
  | _ => HUnsupported
  end.

Definition read_str (n : Z) (bs : bytes) : option (mp * bytes) :=
  '(s, bs) ← read_raw n bs; if utf8_valid s then Some (MStr (of_bytes s), bs) else None.

Fixpoint read (fuel : nat) (bs : bytes) : option (mp * bytes) :=
  match fuel, bs with
  | S fuel, b :: bs =>
      let array n bs :=
        '(l, bs) ← read_many (read fuel) (Z.to_nat n) bs; Some (MArray l, bs) in
      let entries n bs :=
        '(l, bs) ← read_many (read fuel) (2 * Z.to_nat n) bs; Some (MMap (pairs_of l), bs) in
      match read_header b with
      | HNil => Some (MNil, bs)
      | HBool b => Some (MBool b, bs)
      | HInt z => Some (MInt z, bs)
      | HNeg z => Some (MSint z, bs)
      | HUint n => '(z, bs) ← read_be n bs; Some (MInt z, bs)
      | HSint n =>
          '(z, bs) ← read_be n bs;
          let w := 8 * Z.of_nat n in Some (MSint (if z <? 2 ^ (w - 1) then z else z - 2 ^ w), bs)
      | HStr n => read_str n bs
      | HStrLen n => '(z, bs) ← read_be n bs; read_str z bs
      | HBinLen n => '(z, bs) ← read_be n bs; '(s, bs) ← read_raw z bs; Some (MBin s, bs)
      | HArray n => array n bs
      | HArrayLen n => '(z, bs) ← read_be n bs; array z bs
      | HMap n => entries n bs
      | HMapLen n => '(z, bs) ← read_be n bs; entries z bs
      | HUnsupported => None
      end
  | _, _ => None
  end.

#[export] Instance msgpack : Rmp := {
  rmp_write v := if mp_ok v then Ok (write v) else Err "unsupported value";
  rmp_read bs :=
    match read (S (List.length bs)) bs with
    | Some (v, _) => Ok v
    | None => Err "invalid MessagePack"
    end;
  invalid_type _ := "invalid type";
  invalid_length n := fmt ["invalid length "; dec n];
  duplicate_field name := fmt ["duplicate field "; name];
  missing_field name := fmt ["missing field "; name];
  unread_elements n := if (n =? 0)%nat then None else Some "array had incorrect length";
}.

(** *** Proofs of the laws *)

Lemma read_be_app n z r :
  in_width (8 * Z.of_nat n) z -> read_be n (be_bytes n z ++ r) = Some (z, r).
Proof.
  intros Hz. unfold read_be. rewrite length_app, length_be_bytes.
  destruct (Nat.leb_spec n (n + List.length r)); [|lia].
  rewrite take_app_length', drop_app_length' by (by rewrite length_be_bytes).
  by rewrite be_val_bytes_small.
Qed.

Lemma read_raw_app bs r : read_raw (len bs) (bs ++ r) = Some (bs, r).
Proof.
  unfold read_raw. rewrite len_app. pose proof (len_nonneg r).
  destruct (Z.leb_spec (len bs) (len bs + len r)); [|lia].
  unfold len. rewrite Nat2Z.id. by rewrite take_app_length, drop_app_length.
Qed.

Lemma str_len_bytes s : str_len s = len (as_bytes s).
Proof.
  unfold str_len, len. f_equal. induction s as [|a s IH]; [done|].
  cbn. by rewrite IH.
Qed.

Lemma header_byte (z : Z) h :
  (0 <= z < 256) -> (forall b, Z_of_byte b = z -> read_header b = h) ->
  read_header (byte_of_Z z) = h.
Proof. intros Hz H. apply H. rewrite Z_of_byte_of_Z. by apply Z.mod_small. Qed.

Lemma header_int z : 0 <= z < 128 -> read_header (byte_of_Z z) = HInt z.
Proof.
  intros Hz. apply header_byte; [lia|]. intros b <-. unfold read_header.
  by destruct (Z.ltb_spec (Z_of_byte b) 128); [|lia].
Qed.

Lemma header_array n : 0 <= n < 16 -> read_header (byte_of_Z (144 + n)) = HArray n.
Proof.
  intros Hz. apply header_byte; [lia|]. intros b Hb. unfold read_header. rewrite Hb.
  destruct (Z.ltb_spec (144 + n) 128); [lia|]. destruct (Z.ltb_spec (144 + n) 144); [lia|].
  destruct (Z.ltb_spec (144 + n) 160); [|lia]. f_equal. lia.
Qed.

Lemma header_map n : 0 <= n < 16 -> read_header (byte_of_Z (128 + n)) = HMap n.
Proof.
  intros Hz. apply header_byte; [lia|]. intros b Hb. unfold read_header. rewrite Hb.
  destruct (Z.ltb_spec (128 + n) 128); [lia|]. destruct (Z.ltb_spec (128 + n) 144); [|lia]. f_equal. lia.
Qed.

Lemma header_str n : 0 <= n < 32 -> read_header (byte_of_Z (160 + n)) = HStr n.
Proof.
  intros Hz. apply header_byte; [lia|]. intros b Hb. unfold read_header. rewrite Hb.
  destruct (Z.ltb_spec (160 + n) 128); [lia|]. destruct (Z.ltb_spec (160 + n) 144); [lia|].
  destruct (Z.ltb_spec (160 + n) 160); [lia|]. destruct (Z.ltb_spec (160 + n) 192); [|lia].
  f_equal. lia.
Qed.

(** Induction over trees of values; a map is its keys and values in turn. *)
Fixpoint mp_ind' (P : mp -> Prop) (Hnil : P MNil) (Hbool : forall b, P (MBool b))
    (Hint : forall z, P (MInt z)) (Hsint : forall z, P (MSint z)) (Hstr : forall s, P (MStr s))
    (Hbin : forall b, P (MBin b)) (Harr : forall l, Forall P l -> P (MArray l))
    (Hmap : forall l, Forall P (flatten l) -> P (MMap l)) (Hoth : forall t, P (MOther t)) (v : mp) : P v :=
  let ind := mp_ind' P Hnil Hbool Hint Hsint Hstr Hbin Harr Hmap Hoth in
  match v with
  | MNil => Hnil
  | MBool b => Hbool b
  | MInt z => Hint z
  | MSint z => Hsint z
  | MStr s => Hstr s
  | MBin b => Hbin b
  | MArray l =>
      Harr l ((fix go l : Forall P l :=
        match l with
        | [] => Forall_nil_2 P
        | v :: l => Forall_cons_2 P v l (ind v) (go l)
        end) l)
  | MMap l =>
      Hmap l ((fix go l : Forall P (flatten l) :=
        match l with
        | [] => Forall_nil_2 P
        | p :: l => Forall_cons_2 P _ _ (ind p.1) (Forall_cons_2 P _ _ (ind p.2) (go l))
        end) l)
  | MOther t => Hoth t
  end.

Lemma pairs_of_flatten l : pairs_of (flatten l) = l.
Proof. induction l as [|[k v] l IH]; [done|]. cbn. by f_equal. Qed.

Lemma length_flatten l : List.length (flatten l) = (2 * List.length l)%nat.
Proof. induction l as [|p l IH]; [done|]. change (flatten (p :: l)) with (p.1 :: p.2 :: flatten l). cbn [List.length]. lia. Qed.

Lemma write_flatten l : concat (map (fun p => write p.1 ++ write p.2) l) = concat (map write (flatten l)).
Proof. induction l as [|p l IH]; [done|]. cbn in *. by rewrite IH, <- app_assoc. Qed.

Lemma forallb_flatten (f : mp -> bool) l : forallb (fun p => f p.1 && f p.2) l = forallb f (flatten l).
Proof. induction l as [|p l IH]; [done|]. cbn in *. by rewrite IH, andb_assoc. Qed.

Lemma forallb_pairs (f : mp -> bool) n : forall l, List.length l = (2 * n)%nat ->
  forallb f l = true -> List.length (pairs_of l) = n /\ forallb (fun p => f p.1 && f p.2) (pairs_of l) = true.
Proof.
  induction n as [|n IH]; intros [|k [|v l]] Hl Hf; cbn in Hl; try lia; [done|].
  cbn in *. apply andb_true_iff in Hf as [-> Hf]. apply andb_true_iff in Hf as [-> Hf].
  destruct (IH l ltac:(lia) Hf) as [<- ->]. done.
Qed.

Ltac branches :=
  repeat match goal with
  | |- context [?a <? ?b] => destruct (Z.ltb_spec a b)
  | |- context [?a <=? ?b] => destruct (Z.leb_spec a b)
  end.

(** One header with a big-endian operand. *)
Ltac operand :=
  unfold tagged; cbn [app read];
  lazymatch goal with
  | |- context [read_header (byte_of_Z (Zpos ?p))] =>
      let t := constr:(Zpos p) in
      let h := eval vm_compute in (read_header (byte_of_Z t)) in
      change (read_header (byte_of_Z t)) with h
  end;
  cbv iota beta; rewrite read_be_app by (unfold in_width; cbn; lia); cbn [mbind option_bind].

Lemma write_nonempty v : mp_ok v = true -> (0 < List.length (write v))%nat.
Proof.
  destruct v as [|[]|z|z|s|bs|l|l|t]; cbn; intros H; try lia; try done.
  - unfold write_int, tagged. branches; cbn; lia.
  - unfold write_str_len, tagged. rewrite length_app. branches; cbn; lia.
  - unfold write_bin_len, tagged. rewrite length_app. branches; cbn; lia.
  - unfold write_array_len, tagged. rewrite length_app. branches; cbn; lia.
  - unfold write_map_len, tagged. rewrite length_app. branches; cbn; lia.
Qed.

Lemma read_int z r fuel :
  mp_ok (MInt z) = true -> read (S fuel) (write_int z ++ r) = Some (MInt z, r).
Proof.
  cbn [mp_ok]. intros [H1%Z.leb_le H2%Z.ltb_lt]%andb_true_iff. unfold write_int. branches; try lia.
  all: first
    [ by (cbn [app read]; rewrite header_int by lia)
    | by operand ].
Qed.

Lemma read_str_app s r : str_valid s = true -> read_str (str_len s) (as_bytes s ++ r) = Some (MStr s, r).
Proof.
  intros Hs. unfold read_str. rewrite str_len_bytes, read_raw_app. cbn [mbind option_bind].
  unfold str_valid in Hs. by rewrite Hs, of_bytes_as_bytes.
Qed.

Lemma read_write_str s r fuel :
  mp_ok (MStr s) = true -> read (S fuel) (write (MStr s) ++ r) = Some (MStr s, r).
Proof.
  cbn [mp_ok write]. intros [H1%Z.ltb_lt Hs]%andb_true_iff. rewrite <- app_assoc.
  assert (0 <= str_len s) by (unfold str_len; lia).
  unfold write_str_len. branches; try lia.
  all: first
    [ cbn [app read]; rewrite header_str by lia; by apply read_str_app
    | operand; by apply read_str_app ].
Qed.

Lemma read_write_bin bs r fuel :
  mp_ok (MBin bs) = true -> read (S fuel) (write (MBin bs) ++ r) = Some (MBin bs, r).
Proof.
  cbn [mp_ok write]. intros H1%Z.ltb_lt. rewrite <- app_assoc. pose proof (len_nonneg bs).
  unfold write_bin_len. branches; try lia; operand; by rewrite read_raw_app.
Qed.

Lemma read_write_many l r fuel :
  Forall (fun v => forall r, read fuel (write v ++ r) = Some (v, r)) l ->
  read_many (read fuel) (List.length l) (concat (map write l) ++ r) = Some (l, r).
Proof.
  intros H. revert r. induction H as [|v l Hv Hl IH]; intros r; [done|].
  cbn [List.length map concat read_many]. rewrite <- app_assoc, Hv. cbn [mbind option_bind].
  by rewrite IH.
Qed.

Lemma write_in l v : v ∈ l -> (List.length (write v) <= List.length (concat (map write l)))%nat.
Proof.
  induction l as [|w l IH]; [by intros ?%not_elem_of_nil|].
  cbn. rewrite length_app. intros [->|Hv]%elem_of_cons; [lia|]. specialize (IH Hv). lia.
Qed.

(** The items of an array or a map after their number. *)
Lemma read_write_items l fuel r n :
  Forall (fun v => mp_ok v = true -> forall fuel r,
    (List.length (write v) <= fuel)%nat -> read fuel (write v ++ r) = Some (v, r)) l ->
  forallb mp_ok l = true -> List.length l = n -> (List.length (concat (map write l)) <= fuel)%nat ->
  read_many (read fuel) n (concat (map write l) ++ r) = Some (l, r).
Proof.
  intros IH Hok <- Hf. apply read_write_many. rewrite Forall_forall in IH |- *. intros v Hv r'. apply IH; [done| |].
  - apply (proj1 (forallb_forall _ _) Hok). by apply list_elem_of_In.
  - pose proof (write_in _ _ Hv). lia.
Qed.

Lemma read_write v : mp_ok v = true -> forall fuel r,
  (List.length (write v) <= fuel)%nat -> read fuel (write v ++ r) = Some (v, r).
Proof.
  induction v as [| b|z|z|s|bs|l IH|l IH|t] using mp_ind'; intros Hok fuel r Hf;
    (destruct fuel as [|fuel]; [pose proof (write_nonempty _ Hok); lia|]).
  - done.
  - by destruct b.
  - by apply read_int.
  - done.
  - by apply read_write_str.
  - by apply read_write_bin.
  - cbn [mp_ok] in Hok. apply andb_true_iff in Hok as [Hl%Z.ltb_lt Ha].
    cbn [write] in *. rewrite <- app_assoc. rewrite length_app in Hf. pose proof (len_nonneg l).
    assert (0 < List.length (write_array_len (len l)))%nat by (unfold write_array_len; branches; cbn; lia).
    pose proof (read_write_items l fuel r (Z.to_nat (len l)) IH Ha ltac:(unfold len; lia) ltac:(lia)) as Hm.
    unfold write_array_len. branches; try lia.
    all: first
      [ by (cbn [app read]; rewrite header_array by lia; rewrite Hm)
      | by (operand; rewrite Hm) ].
  - cbn [mp_ok] in Hok. apply andb_true_iff in Hok as [Hl%Z.ltb_lt Ha]. rewrite forallb_flatten in Ha.
    cbn [write] in *. rewrite write_flatten in *. rewrite <- app_assoc. rewrite length_app in Hf. pose proof (len_nonneg l).
    assert (0 < List.length (write_map_len (len l)))%nat by (unfold write_map_len; branches; cbn; lia).
    pose proof (read_write_items (flatten l) fuel r (2 * Z.to_nat (len l)) IH Ha
      ltac:(rewrite length_flatten; unfold len; lia) ltac:(lia)) as Hm.
    unfold write_map_len. branches; try lia.
    all: first
      [ by (cbn [app read]; rewrite header_map by lia; rewrite Hm; cbn [mbind option_bind]; rewrite pairs_of_flatten)
      | by (operand; rewrite Hm; cbn [mbind option_bind]; rewrite pairs_of_flatten) ].
  - done.
Qed.

(** What is read is an item of the format. *)

Lemma read_be_range n bs z r : read_be n bs = Some (z, r) -> 0 <= z < 2 ^ (8 * Z.of_nat n).
Proof.
  unfold read_be. destruct (Nat.leb_spec n (List.length bs)) as [Hn|]; [|done]. intros [= <- _].
  pose proof (be_val_range (take n bs)) as Hr. unfold len in Hr. by rewrite length_take, Nat.min_l in Hr.
Qed.

Lemma read_raw_len n bs s r : 0 <= n -> read_raw n bs = Some (s, r) -> len s = n.
Proof.
  unfold read_raw. intros Hn. destruct (Z.leb_spec n (len bs)) as [Hl|]; [|done]. intros [= <- _].
  unfold len in *. rewrite length_take. lia.
Qed.

Lemma read_str_ok n bs v r : 0 <= n < 2 ^ 32 -> read_str n bs = Some (v, r) -> mp_item v = true.
Proof.
  intros Hn. unfold read_str. destruct (read_raw n bs) as [[s r']|] eqn:E; [|done]. cbn [mbind option_bind].
  destruct (utf8_valid s) eqn:Hv; [|done]. intros [= <- _]. cbn [mp_item].
  rewrite str_len_bytes. unfold str_valid. rewrite as_bytes_of_bytes, Hv, andb_true_r.
  apply Z.ltb_lt. rewrite (read_raw_len _ _ _ _ (proj1 Hn) E). lia.
Qed.

Lemma read_many_ok (rd : bytes -> option (mp * bytes)) k :
  (forall bs v r, rd bs = Some (v, r) -> mp_item v = true) ->
  forall bs l r, read_many rd k bs = Some (l, r) -> List.length l = k /\ forallb mp_item l = true.
Proof.
  intros Hrd. induction k as [|k IH]; intros bs l r; cbn [read_many]; [by intros [= <- _]|].
  destruct (rd bs) as [[v r1]|] eqn:E; [|done]. cbn [mbind option_bind].
  destruct (read_many rd k r1) as [[l1 r2]|] eqn:E2; [|done]. cbn [mbind option_bind]. intros [= <- _].
  destruct (IH _ _ _ E2) as [<- Hl]. cbn [forallb]. by rewrite (Hrd _ _ _ E), Hl.
Qed.

Definition header_ok (h : header) : Prop :=
  match h with
  | HInt z => 0 <= z < 128
  | HNeg z => -32 <= z < 0
  | HUint n => (n <= 8)%nat
  | HSint n => n = 1%nat \/ n = 2%nat \/ n = 4%nat \/ n = 8%nat
  | HStr z | HArray z | HMap z => 0 <= z < 32
  | HStrLen n | HBinLen n | HArrayLen n | HMapLen n => (n <= 4)%nat
  | _ => True
  end.

Lemma read_header_ok b : header_ok (read_header b).
Proof.
  destruct b; vm_compute; first [exact I | split; [discriminate|reflexivity] | tauto | repeat constructor].
Qed.

Lemma pow_bytes n m z : (n <= m)%nat -> 0 <= z < 2 ^ (8 * Z.of_nat n) -> 0 <= z < 2 ^ (8 * Z.of_nat m).
Proof. intros Hn Hz. pose proof (Z.pow_le_mono_r 2 (8 * Z.of_nat n) (8 * Z.of_nat m)). lia. Qed.

Lemma read_ok fuel : forall bs v r, read fuel bs = Some (v, r) -> mp_item v = true.
Proof.
  induction fuel as [|fuel IH]; intros [|b bs] v r; cbn [read]; try done.
  assert (forall n bs v r, 0 <= n < 2 ^ 32 ->
    ('(l, bs) ← read_many (read fuel) (Z.to_nat n) bs; Some (MArray l, bs)) = Some (v, r) -> mp_item v = true) as Harr.
  { intros n bs' v' r' Hn. destruct (read_many (read fuel) (Z.to_nat n) bs') as [[l r1]|] eqn:E; [|done].
    cbn [mbind option_bind]. intros [= <- _]. destruct (read_many_ok _ _ IH _ _ _ E) as [Hl Hok]. cbn [mp_item].
    rewrite Hok, andb_true_r. apply Z.ltb_lt. unfold len. lia. }
  assert (forall n bs v r, 0 <= n < 2 ^ 32 ->
    ('(l, bs) ← read_many (read fuel) (2 * Z.to_nat n) bs; Some (MMap (pairs_of l), bs)) = Some (v, r) -> mp_item v = true) as Hmap.
  { intros n bs' v' r' Hn. destruct (read_many (read fuel) (2 * Z.to_nat n) bs') as [[l r1]|] eqn:E; [|done].
    cbn [mbind option_bind]. intros [= <- _]. destruct (read_many_ok _ _ IH _ _ _ E) as [Hl Hok].
    destruct (forallb_pairs mp_item _ l Hl Hok) as [Hn' Hp]. cbn [mp_item].
    rewrite Hp, andb_true_r. apply Z.ltb_lt. unfold len. lia. }
  pose proof (read_header_ok b) as Hh. destruct (read_header b) as [|b0|z|z|n|n|z|n|z|n|n|z|n|]; cbn [header_ok] in Hh;
    try (destruct (read_be _ bs) as [[z r1]|] eqn:E; [|done]; apply read_be_range in E; cbn [mbind option_bind]); try done.
  - by intros [= <- _].
  - by intros [= <- _].
  - intros [= <- _]. cbn [mp_item]. apply andb_true_iff. rewrite Z.leb_le, Z.ltb_lt. lia.
  - intros [= <- _]. cbn [mp_item]. apply andb_true_iff. rewrite Z.leb_le, Z.ltb_lt. lia.
  - apply (pow_bytes n 8) in E; [|done]. intros [= <- _]. cbn [mp_item]. apply andb_true_iff. rewrite Z.leb_le, Z.ltb_lt.
    cbn in E. lia.
  - intros [= <- _]. cbn [mp_item]. apply andb_true_iff. rewrite Z.leb_le, Z.ltb_lt.
    destruct Hh as [-> | [-> | [-> | ->]]]; cbn in E |- *; branches; lia.
  - apply Hmap. lia.
  - apply (pow_bytes n 4) in E; [|done]. apply Hmap. cbn in E. lia.
  - apply read_str_ok. lia.
  - apply (pow_bytes n 4) in E; [|done]. apply read_str_ok. cbn in E. lia.
  - apply (pow_bytes n 4) in E; [|done]. destruct (read_raw z r1) as [[s r2]|] eqn:E2; [|done]. cbn [mbind option_bind].
    intros [= <- _]. cbn [mp_item]. apply Z.ltb_lt. rewrite (read_raw_len _ _ _ _ (proj1 E) E2). cbn in E. lia.
  - apply Harr. lia.
  - apply (pow_bytes n 4) in E; [|done]. apply Harr. cbn in E. lia.
Qed.

#[export] Instance msgpack_laws : RmpLaws.
Proof.
  split; unfold rmp_write, rmp_read, unread_elements, msgpack.
  - intros v Hv. rewrite Hv. eauto.
  - intros v bs Hv Hw. rewrite Hv in Hw. injection Hw as <-.
    pose proof (read_write v Hv (S (List.length (write v))) [] ltac:(lia)) as Hr.
    rewrite app_nil_r in Hr. by rewrite Hr.
  - intros bs. by destruct (read (S (List.length bs)) bs) as [[]|].
  - intros bs v. destruct (read (S (List.length bs)) bs) as [[v' r]|] eqn:E; [|done]. intros [= <-].
    by eapply read_ok.
  - intros v. by destruct (mp_ok v).
  - done.
Qed.
End Msgpack.

(** ** postcard *)

Module PostcardRef.

Fixpoint read_varint (fuel : nat) (bs : bytes) : option (Z * bytes) :=
  match fuel, bs with
  | S fuel, b :: bs =>
      let t := Z_of_byte b in
      if t <? 128 then Some (t, bs)
      else '(z, bs) ← read_varint fuel bs; Some (t - 128 + 128 * z, bs)
  | _, _ => None
  end.

Definition read_raw (n : Z) (bs : bytes) : option (bytes * bytes) :=
  if n <=? len bs then Some (take (Z.to_nat n) bs, drop (Z.to_nat n) bs) else None.

(** A length or an index: a varint below [2^32]. *)
Definition read_len (bs : bytes) : option (Z * bytes) :=
  '(n, bs) ← read_varint VARINT bs;
  if (0 <=? n) && (n <? 2 ^ 32) then Some (n, bs) else None.

Definition read_bool (bs : bytes) : option (bool * bytes) :=
  match bs with
  | b :: bs => if decide (b = x00) then Some (false, bs)
               else if decide (b = x01) then Some (true, bs) else None
  | [] => None
  end.

Section Many.
Context (read : bytes -> option (pv * bytes)).
Fixpoint read_many (k : nat) (bs : bytes) : option (list pv * bytes) :=
  match k with
  | O => Some ([], bs)
  | S k =>
      '(v, bs) ← read bs;
      '(l, bs) ← read_many k bs;
      Some (v :: l, bs)
  end.
End Many.

Fixpoint read (s : shape) (bs : bytes) : option (pv * bytes) :=
  match s with
  | ShBool => '(b, bs) ← read_bool bs; Some (PBool b, bs)
  | ShU8 => match bs with b :: bs => Some (PU8 b, bs) | [] => None end
  | ShUint w =>
      '(z, bs) ← read_varint VARINT bs;
      if has_shape (PUint w z) (ShUint w) then Some (PUint w z, bs) else None
  | ShStr =>
      '(n, bs) ← read_len bs;
      '(str, bs) ← read_raw n bs;
      if utf8_valid str then Some (PStr (of_bytes str), bs) else None
  | ShSeq s =>
      '(n, bs) ← read_len bs;
      '(l, bs) ← read_many (read s) (Z.to_nat n) bs;
      Some (PSeq l, bs)
  | ShTuple ss =>
      '(l, bs) ← (fix go ss bs :=
         match ss with
         | [] => Some ([], bs)
         | s :: ss =>
             '(v, bs) ← read s bs;
             '(l, bs) ← go ss bs;
             Some (v :: l, bs)
         end) ss bs;
      Some (PTuple l, bs)
  | ShOption s =>
      '(b, bs) ← read_bool bs;
      if b : bool then '(v, bs) ← read s bs; Some (PSome v, bs) else Some (PNone, bs)
  | ShEnum ss =>
      '(i, bs) ← read_len bs;
      '(v, bs) ← (fix go ss n :=
         match ss, n with
         | s :: _, O => read s bs
         | _ :: ss, S n => go ss n
         | [], _ => None
         end) ss (Z.to_nat i);
      Some (PVariant i v, bs)
  end.

Definition read_tuple (ss : list shape) (bs : bytes) : option (list pv * bytes) :=
  (fix go ss bs :=
     match ss with
     | [] => Some ([], bs)
     | s :: ss =>
         '(v, bs) ← read s bs;
         '(l, bs) ← go ss bs;
         Some (v :: l, bs)
     end) ss bs.

#[export] Instance postcard_ref : Postcard := {
  to_stdvec v := Ok (postcard_bytes v);
  from_bytes s bs :=
    match read s bs with
    | Some (v, _) => Ok v
    | None => Err "invalid postcard"
    end;
}.

(** *** Proofs of the laws *)

Lemma read_varint_app fuel z r :
  (0 < fuel)%nat -> 0 <= z < 128 ^ Z.of_nat fuel ->
  read_varint fuel (varint fuel z ++ r) = Some (z, r).
Proof.
  revert z. induction fuel as [|fuel IH]; intros z Hf Hz; [lia|].
  replace (Z.of_nat (S fuel)) with (1 + Z.of_nat fuel) in Hz by lia.
  rewrite Z.pow_add_r, Z.pow_1_r in Hz by lia.
  cbn [varint]. destruct (Z.ltb_spec z 128).
  - cbn [app read_varint]. rewrite Z_of_byte_of_Z, Z.mod_small by lia.
    by destruct (Z.ltb_spec z 128); [|lia].
  - cbn [app read_varint]. rewrite Z_of_byte_of_Z.
    pose proof (Z.mod_pos_bound z 128 ltac:(lia)).
    rewrite (Z.mod_small (_ + 128)) by lia.
    destruct (Z.ltb_spec (z mod 128 + 128) 128); [lia|].
    rewrite IH.
    + cbn. do 2 f_equal. pose proof (Z.div_mod z 128). lia.
    + destruct fuel; [|lia]. change (128 ^ Z.of_nat 0) with 1 in Hz. lia.
    + split; [apply Z.div_pos; lia|]. apply Z.div_lt_upper_bound; lia.
Qed.

Lemma read_varint_64 z r : in_width 64 z -> read_varint VARINT (varint VARINT z ++ r) = Some (z, r).
Proof.
  intros Hz. apply read_varint_app; [unfold VARINT; lia|]. unfold in_width in Hz.
  change (128 ^ Z.of_nat VARINT) with (2 ^ 70). lia.
Qed.

Lemma read_len_app n r : 0 <= n < 2 ^ 32 -> read_len (varint VARINT n ++ r) = Some (n, r).
Proof.
  intros Hn. unfold read_len. rewrite read_varint_64 by (unfold in_width; lia). cbn [mbind option_bind].
  destruct (Z.leb_spec 0 n), (Z.ltb_spec n (2 ^ 32)); try lia. done.
Qed.

Lemma read_raw_str s r : read_raw (str_len s) (as_bytes s ++ r) = Some (as_bytes s, r).
Proof. rewrite Msgpack.str_len_bytes. apply (Msgpack.read_raw_app (as_bytes s)). Qed.

Fixpoint pv_ind' (P : pv -> Prop) (Hb : forall b, P (PBool b)) (H8 : forall b, P (PU8 b))
    (Hu : forall w z, P (PUint w z)) (Hs : forall s, P (PStr s))
    (Hq : forall l, Forall P l -> P (PSeq l)) (Ht : forall l, Forall P l -> P (PTuple l))
    (Hn : P PNone) (Ho : forall v, P v -> P (PSome v))
    (Hv : forall i v, P v -> P (PVariant i v)) (v : pv) : P v :=
  let ind := pv_ind' P Hb H8 Hu Hs Hq Ht Hn Ho Hv in
  let all := fix go l : Forall P l :=
    match l with
    | [] => Forall_nil_2 P
    | v :: l => Forall_cons_2 P v l (ind v) (go l)
    end in
  match v with
  | PBool b => Hb b
  | PU8 b => H8 b
  | PUint w z => Hu w z
  | PStr s => Hs s
  | PSeq l => Hq l (all l)
  | PTuple l => Ht l (all l)
  | PNone => Hn
  | PSome v => Ho v (ind v)
  | PVariant i v => Hv i v (ind v)
  end.

Lemma read_many_app s l r :
  Forall (fun v => forall r, read s (postcard_bytes v ++ r) = Some (v, r)) l ->
  read_many (read s) (List.length l) (concat (map postcard_bytes l) ++ r) = Some (l, r).
Proof.
  intros H. revert r. induction H as [|v l Hv Hl IH]; intros r; [done|].
  cbn [List.length map concat read_many]. rewrite <- app_assoc, Hv. cbn [mbind option_bind].
  by rewrite IH.
Qed.

Lemma read_tuple_app l : forall ss r,
  Forall (fun v => forall s r, has_shape v s = true -> read s (postcard_bytes v ++ r) = Some (v, r)) l ->
  forallb2 has_shape l ss = true ->
  read_tuple ss (concat (map postcard_bytes l) ++ r) = Some (l, r).
Proof.
  induction l as [|v l IH]; intros [|s ss] r Hall Hs; try done.
  cbn in Hs. apply andb_true_iff in Hs as [Hv Hs]. inversion Hall as [|? ? Hrd Hall']; subst.
  cbn [map concat read_tuple]. rewrite <- app_assoc, (Hrd s) by done.
  cbn [mbind option_bind]. fold (read_tuple ss (concat (map postcard_bytes l) ++ r)). by rewrite IH.
Qed.

Lemma pick_lookup (bs : bytes) ss n s :
  ss !! n = Some s ->
  (fix go ss n :=
     match ss, n with
     | s :: _, O => read s bs
     | _ :: ss, S n => go ss n
     | [], _ => None
     end) ss n = read s bs.
Proof.
  revert n. induction ss as [|s' ss IH]; intros [|n]; cbn; try done.
  - by intros [= ->].
  - apply IH.
Qed.

Lemma read_postcard_bytes v : forall s r, has_shape v s = true -> read s (postcard_bytes v ++ r) = Some (v, r).
Proof.
  induction v as [b|b|w z|str|l IH|l IH| |v IH|i v IH] using pv_ind'; intros s r Hs.
  all: destruct s; try done; cbn [has_shape] in Hs.
  - by destruct b.
  - apply andb_true_iff in Hs as [Hs Hw]. apply andb_true_iff in Hs as [Hs Hw0].
    apply andb_true_iff in Hs as [Heq%Z.eqb_eq Hin%bool_decide_eq_true]. subst.
    apply Z.leb_le in Hw. apply Z.ltb_lt in Hw0.
    cbn [read postcard_bytes]. rewrite read_varint_64.
    + cbn [mbind option_bind has_shape].
      rewrite Z.eqb_refl, bool_decide_true by done.
      destruct (Z.ltb_spec 0 w0), (Z.leb_spec w0 64); try lia. done.
    + unfold in_width in *. pose proof (Z.pow_le_mono_r 2 w0 64). lia.
  - apply andb_true_iff in Hs as [Hl%Z.ltb_lt Hv].
    assert (0 <= str_len str) by (unfold str_len; lia).
    cbn [read postcard_bytes]. rewrite <- app_assoc, read_len_app by lia. cbn [mbind option_bind].
    rewrite read_raw_str. unfold str_valid in Hv. cbn. by rewrite Hv, of_bytes_as_bytes.
  - apply andb_true_iff in Hs as [Hl%Z.ltb_lt Ha]. pose proof (len_nonneg l).
    cbn [read postcard_bytes]. rewrite <- app_assoc, read_len_app by lia. cbn [mbind option_bind].
    unfold len. rewrite Nat2Z.id, read_many_app; [done|].
    rewrite Forall_forall in IH |- *. intros v Hv r'. apply IH; [done|].
    apply (proj1 (forallb_forall _ _) Ha). by apply list_elem_of_In.
  - cbn [read postcard_bytes]. fold (read_tuple l0 (concat (map postcard_bytes l) ++ r)).
    by rewrite read_tuple_app.
  - cbn [read postcard_bytes app].
    change (read_bool (x01 :: postcard_bytes v ++ r)) with (Some (true, postcard_bytes v ++ r)).
    cbn [mbind option_bind]. by rewrite IH.
  - apply andb_true_iff in Hs as [Hi Hs]. apply andb_true_iff in Hi as [Hi0%Z.leb_le Hi%Z.ltb_lt].
    destruct (variants !! Z.to_nat i) as [s|] eqn:E; [|done].
    cbn [read postcard_bytes]. rewrite <- app_assoc, read_len_app by lia. cbn [mbind option_bind].
    rewrite (pick_lookup _ _ _ s) by done. by rewrite IH.
Qed.

Fixpoint shape_ind' (P : shape -> Prop) (Hb : P ShBool) (H8 : P ShU8) (Hu : forall w, P (ShUint w))
    (Hs : P ShStr) (Hq : forall s, P s -> P (ShSeq s)) (Ht : forall l, Forall P l -> P (ShTuple l))
    (Ho : forall s, P s -> P (ShOption s)) (He : forall l, Forall P l -> P (ShEnum l))
    (s : shape) : P s :=
  let ind := shape_ind' P Hb H8 Hu Hs Hq Ht Ho He in
  let all := fix go l : Forall P l :=
    match l with
    | [] => Forall_nil_2 P
    | s :: l => Forall_cons_2 P s l (ind s) (go l)
    end in
  match s with
  | ShBool => Hb
  | ShU8 => H8
  | ShUint w => Hu w
  | ShStr => Hs
  | ShSeq s => Hq s (ind s)
  | ShTuple l => Ht l (all l)
  | ShOption s => Ho s (ind s)
  | ShEnum l => He l (all l)
  end.

Definition reads_shape (s : shape) : Prop :=
  forall bs v r, read s bs = Some (v, r) -> has_shape v s = true.

(** Peels the binds of a successful read. *)
Ltac inv_read :=
  repeat match goal with
  | H : mbind _ _ = Some _ |- _ => apply bind_Some in H as ([? ?] & ? & H)
  | H : Some _ = Some _ |- _ => injection H as H; try subst
  | H : (_, _) = (_, _) |- _ => injection H as H; try subst
  | H : None = Some _ |- _ => discriminate H
  end.

Lemma read_len_range bs n r : read_len bs = Some (n, r) -> 0 <= n < 2 ^ 32.
Proof.
  unfold read_len. intros H. inv_read.
  destruct (_ && _) eqn:E; inv_read. apply andb_true_iff in E. lia.
Qed.

Lemma read_many_shape s : reads_shape s -> forall k bs l r,
  read_many (read s) k bs = Some (l, r) ->
  List.length l = k /\ forallb (fun v => has_shape v s) l = true.
Proof.
  intros Hs. induction k as [|k IH]; intros bs l r H; cbn [read_many] in H; inv_read; [done|].
  match goal with Hm : read_many _ _ _ = _ |- _ => apply IH in Hm as [<- Hl] end.
  split; [done|]. cbn. rewrite Hl, andb_true_r. by eapply Hs.
Qed.

Lemma read_tuple_shape ss : Forall reads_shape ss -> forall bs l r,
  read_tuple ss bs = Some (l, r) -> forallb2 has_shape l ss = true.
Proof.
  intros H. induction H as [|s ss Hs Hss IH]; intros bs l r Hr; cbn [read_tuple] in Hr; inv_read; [done|].
  fold read_tuple in *. cbn. apply andb_true_iff. split; [by eapply Hs|].
  by eapply IH.
Qed.

Lemma pick_shape ss : forall n bs,
  (fix go ss n :=
     match ss, n with
     | s :: _, O => read s bs
     | _ :: ss, S n => go ss n
     | [], _ => None
     end) ss n = match ss !! n with Some s => read s bs | None => None end.
Proof. induction ss as [|s ss IH]; intros [|n] bs; cbn; try done; apply IH. Qed.

Lemma read_shape s : reads_shape s.
Proof.
  induction s as [| |w| |s IH|ss IH|s IH|ss IH] using shape_ind'; intros bs v r H; cbn [read] in H.
  - by inv_read.
  - by destruct bs; inv_read.
  - inv_read. by destruct (has_shape _ _) eqn:E; inv_read.
  - inv_read. match goal with Hl : read_len _ = _ |- _ => pose proof (read_len_range _ _ _ Hl) end.
    destruct (utf8_valid _) eqn:E; inv_read. cbn [has_shape].
    unfold str_valid. rewrite as_bytes_of_bytes, E, andb_true_r.
    apply Z.ltb_lt. rewrite Msgpack.str_len_bytes, as_bytes_of_bytes.
    match goal with Hr : read_raw _ _ = _ |- _ => unfold read_raw in Hr; destruct (Z.leb_spec z (len l)); inv_read end.
    unfold len in *. rewrite length_take. lia.
  - inv_read. match goal with Hl : read_len _ = _ |- _ => pose proof (read_len_range _ _ _ Hl) end.
    match goal with Hm : read_many _ _ _ = _ |- _ => apply (read_many_shape s IH) in Hm as [Hlen Hf] end.
    cbn [has_shape]. rewrite Hf, andb_true_r. apply Z.ltb_lt. unfold len. lia.
  - fold (read_tuple ss bs) in H. inv_read. cbn [has_shape]. by eapply read_tuple_shape.
  - inv_read. destruct b; inv_read; [|done]. cbn [has_shape]. by eapply IH.
  - inv_read. match goal with Hl : read_len _ = _ |- _ => pose proof (read_len_range _ _ _ Hl) end.
    match goal with Hp : _ = Some (_, _) |- _ => rewrite pick_shape in Hp end.
    cbn [has_shape]. destruct (ss !! Z.to_nat z) as [s|] eqn:E; [|done].
    destruct (Z.leb_spec 0 z), (Z.ltb_spec z (2 ^ 32)); try lia. cbn.
    rewrite Forall_forall in IH. apply (IH s (list_elem_of_lookup_2 _ _ _ E) _ _ _ ltac:(eassumption)).
Qed.

#[export] Instance postcard_ref_laws : PostcardLaws.
Proof.
  split; unfold to_stdvec, from_bytes, postcard_ref.
  - done.
  - intros v s Hs. pose proof (read_postcard_bytes v s [] Hs) as Hr.
    rewrite app_nil_r in Hr. by rewrite Hr.
  - intros s bs v H. destruct (read s bs) as [[v' r]|] eqn:E; [|done].
    injection H as <-. by eapply read_shape.
  - intros s bs. by destruct (read s bs) as [[]|].
  - done.
Qed.
End PostcardRef.
