(* ===== verification/Protocol.v ===== *)
(** * The chunk protocol messages ([src/protocol.rs])

    The types of [autonomi.ant.chunk.v1], their derived serialisers as
    descriptions in declaration order, and the size-capped codec. *)

From S2P Require Import Prelude Text Framing Serde Wire RefCrates RefCodec.

Abbreviation XorName := (arr 32).

(** ** Types *)

Inductive ProtocolError : Type :=
  | SerializationFailed (m : string)
  | DeserializationFailed (m : string)
  | MessageTooLarge (size max_size : Z)
  | ChunkTooLarge (size max_size : Z)
  | AddressMismatch (expected actual : XorName)
  | StorageFailed (m : string)
  | PaymentFailed (m : string)
  | QuoteFailed (m : string)
  | Internal (m : string).

Record ChunkPutRequest : Type := {
  put_address : XorName;
  put_content : bytes;
  payment_proof : option bytes;
}.

Inductive ChunkPutResponse : Type :=
  | PutSuccess (address : XorName)
  | AlreadyExists (address : XorName)
  | PaymentRequired (message : string)
  | PutError (e : ProtocolError).

Record ChunkGetRequest : Type := { get_address : XorName }.

Inductive ChunkGetResponse : Type :=
  | GetSuccess (address : XorName) (content : bytes)
  | NotFound (address : XorName)
  | GetError (e : ProtocolError).

Record ChunkQuoteRequest : Type := {
  quote_address : XorName;
  data_size : Z;
  data_type : Z;
}.

Inductive ChunkQuoteResponse : Type :=
  | QuoteSuccess (quote : bytes) (already_stored : bool) (commitment : option bytes)
  | QuoteError (e : ProtocolError).

Record MerkleCandidateQuoteRequest : Type := {
  merkle_address : XorName;
  merkle_data_type : Z;
  merkle_data_size : Z;
  merkle_payment_timestamp : Z;
}.

Inductive MerkleCandidateQuoteResponse : Type :=
  | MerkleSuccess (candidate_node : bytes) (commitment : option bytes)
  | MerkleError (e : ProtocolError).

Inductive ChunkMessageBody : Type :=
  | PutRequest (r : ChunkPutRequest)
  | PutResponse (r : ChunkPutResponse)
  | GetRequest (r : ChunkGetRequest)
  | GetResponse (r : ChunkGetResponse)
  | QuoteRequest (r : ChunkQuoteRequest)
  | QuoteResponse (r : ChunkQuoteResponse)
  | MerkleQuoteRequest (r : MerkleCandidateQuoteRequest)
  | MerkleQuoteResponse (r : MerkleCandidateQuoteResponse).

Record ChunkMessage : Type := {
  request_id : Z;
  body : ChunkMessageBody;
}.

(** [impl Display for ProtocolError]. *)
Definition protocol_error_display (e : ProtocolError) : string :=
  match e with
  | SerializationFailed m => fmt ["serialization failed: "; m]
  | DeserializationFailed m => fmt ["deserialization failed: "; m]
  | MessageTooLarge size max_size =>
      fmt ["message size "; dec size; " exceeds maximum "; dec max_size]
  | ChunkTooLarge size max_size =>
      fmt ["chunk size "; dec size; " exceeds maximum "; dec max_size]
  | AddressMismatch _ _ => "address mismatch"
  | StorageFailed m => fmt ["storage failed: "; m]
  | PaymentFailed m => fmt ["payment failed: "; m]
  | QuoteFailed m => fmt ["quote failed: "; m]
  | Internal m => fmt ["internal error: "; m]
  end.

(** ** Serialisers

    [#[serde(default)]] changes nothing here: postcard always reads every
    field. *)

Definition wire_protocol_error : Wire ProtocolError :=
  wire_enum
    (wire_str ⊕ wire_str
     ⊕ wire_fields (wire_usize ⊗ wire_usize ⊗ ⟨⟩)
     ⊕ wire_fields (wire_usize ⊗ wire_usize ⊗ ⟨⟩)
     ⊕ wire_fields (wire_arr 32 ⊗ wire_arr 32 ⊗ ⟨⟩)
     ⊕ wire_str ⊕ wire_str ⊕ wire_str ⊕ wire_str ⊕ ∅ᵥ)
    (fun e => match e with
      | SerializationFailed m => inl m
      | DeserializationFailed m => inr (inl m)
      | MessageTooLarge s m => inr (inr (inl (s, (m, tt))))
      | ChunkTooLarge s m => inr (inr (inr (inl (s, (m, tt)))))
      | AddressMismatch x a => inr (inr (inr (inr (inl (x, (a, tt))))))
      | StorageFailed m => inr (inr (inr (inr (inr (inl m)))))
      | PaymentFailed m => inr (inr (inr (inr (inr (inr (inl m))))))
      | QuoteFailed m => inr (inr (inr (inr (inr (inr (inr (inl m)))))))
      | Internal m => inr (inr (inr (inr (inr (inr (inr (inr (inl m))))))))
      end)
    (fun s => match s with
      | inl m => SerializationFailed m
      | inr (inl m) => DeserializationFailed m
      | inr (inr (inl (s, (m, _)))) => MessageTooLarge s m
      | inr (inr (inr (inl (s, (m, _))))) => ChunkTooLarge s m
      | inr (inr (inr (inr (inl (x, (a, _)))))) => AddressMismatch x a
      | inr (inr (inr (inr (inr (inl m))))) => StorageFailed m
      | inr (inr (inr (inr (inr (inr (inl m)))))) => PaymentFailed m
      | inr (inr (inr (inr (inr (inr (inr (inl m))))))) => QuoteFailed m
      | inr (inr (inr (inr (inr (inr (inr (inr (inl m)))))))) => Internal m
      | inr (inr (inr (inr (inr (inr (inr (inr (inr e)))))))) => match e with end
      end).

Definition wire_put_request : Wire ChunkPutRequest :=
  wire_struct
    (wire_arr 32 ⊗ wire_bytes ⊗ wire_option wire_bytes ⊗ ⟨⟩)
    (fun r => (put_address r, (put_content r, (payment_proof r, tt))))
    (fun '(a, (c, (p, _))) => {| put_address := a; put_content := c; payment_proof := p |}).

Definition wire_put_response : Wire ChunkPutResponse :=
  wire_enum
    (wire_fields (wire_arr 32 ⊗ ⟨⟩) ⊕ wire_fields (wire_arr 32 ⊗ ⟨⟩)
     ⊕ wire_fields (wire_str ⊗ ⟨⟩) ⊕ wire_protocol_error ⊕ ∅ᵥ)
    (fun r => match r with
      | PutSuccess a => inl (a, tt)
      | AlreadyExists a => inr (inl (a, tt))
      | PaymentRequired m => inr (inr (inl (m, tt)))
      | PutError e => inr (inr (inr (inl e)))
      end)
    (fun s => match s with
      | inl (a, _) => PutSuccess a
      | inr (inl (a, _)) => AlreadyExists a
      | inr (inr (inl (m, _))) => PaymentRequired m
      | inr (inr (inr (inl e))) => PutError e
      | inr (inr (inr (inr e))) => match e with end
      end).

Definition wire_get_request : Wire ChunkGetRequest :=
  wire_struct
    (wire_arr 32 ⊗ ⟨⟩)
    (fun r => (get_address r, tt)) (fun '(a, _) => {| get_address := a |}).

Definition wire_get_response : Wire ChunkGetResponse :=
  wire_enum
    (wire_fields (wire_arr 32 ⊗ wire_bytes ⊗ ⟨⟩) ⊕ wire_fields (wire_arr 32 ⊗ ⟨⟩)
     ⊕ wire_protocol_error ⊕ ∅ᵥ)
    (fun r => match r with
      | GetSuccess a c => inl (a, (c, tt))
      | NotFound a => inr (inl (a, tt))
      | GetError e => inr (inr (inl e))
      end)
    (fun s => match s with
      | inl (a, (c, _)) => GetSuccess a c
      | inr (inl (a, _)) => NotFound a
      | inr (inr (inl e)) => GetError e
      | inr (inr (inr e)) => match e with end
      end).

Definition wire_quote_request : Wire ChunkQuoteRequest :=
  wire_struct
    (wire_arr 32 ⊗ wire_u64 ⊗ wire_u32 ⊗ ⟨⟩)
    (fun r => (quote_address r, (data_size r, (data_type r, tt))))
    (fun '(a, (s, (t, _))) => {| quote_address := a; data_size := s; data_type := t |}).

Definition wire_quote_response : Wire ChunkQuoteResponse :=
  wire_enum
    (wire_fields (wire_bytes ⊗ wire_bool ⊗ wire_option wire_bytes ⊗ ⟨⟩)
     ⊕ wire_protocol_error ⊕ ∅ᵥ)
    (fun r => match r with
      | QuoteSuccess q s c => inl (q, (s, (c, tt)))
      | QuoteError e => inr (inl e)
      end)
    (fun s => match s with
      | inl (q, (s, (c, _))) => QuoteSuccess q s c
      | inr (inl e) => QuoteError e
      | inr (inr e) => match e with end
      end).

Definition wire_merkle_request : Wire MerkleCandidateQuoteRequest :=
  wire_struct
    (wire_arr 32 ⊗ wire_u32 ⊗ wire_u64 ⊗ wire_u64 ⊗ ⟨⟩)
    (fun r => (merkle_address r, (merkle_data_type r,
                 (merkle_data_size r, (merkle_payment_timestamp r, tt)))))
    (fun '(a, (t, (s, (u, _)))) =>
       {| merkle_address := a; merkle_data_type := t; merkle_data_size := s;
          merkle_payment_timestamp := u |}).

Definition wire_merkle_response : Wire MerkleCandidateQuoteResponse :=
  wire_enum
    (wire_fields (wire_bytes ⊗ wire_option wire_bytes ⊗ ⟨⟩) ⊕ wire_protocol_error ⊕ ∅ᵥ)
    (fun r => match r with
      | MerkleSuccess n c => inl (n, (c, tt))
      | MerkleError e => inr (inl e)
      end)
    (fun s => match s with
      | inl (n, (c, _)) => MerkleSuccess n c
      | inr (inl e) => MerkleError e
      | inr (inr e) => match e with end
      end).

Definition wire_body : Wire ChunkMessageBody :=
  wire_enum
    (wire_put_request ⊕ wire_put_response ⊕ wire_get_request ⊕ wire_get_response
     ⊕ wire_quote_request ⊕ wire_quote_response ⊕ wire_merkle_request ⊕ wire_merkle_response ⊕ ∅ᵥ)
    (fun b => match b with
      | PutRequest r => inl r
      | PutResponse r => inr (inl r)
      | GetRequest r => inr (inr (inl r))
      | GetResponse r => inr (inr (inr (inl r)))
      | QuoteRequest r => inr (inr (inr (inr (inl r))))
      | QuoteResponse r => inr (inr (inr (inr (inr (inl r)))))
      | MerkleQuoteRequest r => inr (inr (inr (inr (inr (inr (inl r))))))
      | MerkleQuoteResponse r => inr (inr (inr (inr (inr (inr (inr (inl r)))))))
      end)
    (fun s => match s with
      | inl r => PutRequest r
      | inr (inl r) => PutResponse r
      | inr (inr (inl r)) => GetRequest r
      | inr (inr (inr (inl r))) => GetResponse r
      | inr (inr (inr (inr (inl r)))) => QuoteRequest r
      | inr (inr (inr (inr (inr (inl r))))) => QuoteResponse r
      | inr (inr (inr (inr (inr (inr (inl r)))))) => MerkleQuoteRequest r
      | inr (inr (inr (inr (inr (inr (inr (inl r))))))) => MerkleQuoteResponse r
      | inr (inr (inr (inr (inr (inr (inr (inr e))))))) => match e with end
      end).

Definition wire_message : Wire ChunkMessage :=
  wire_struct
    (wire_u64 ⊗ wire_body ⊗ ⟨⟩)
    (fun m => (request_id m, (body m, tt)))
    (fun '(i, (b, _)) => {| request_id := i; body := b |}).

(** ** The codec *)

Section Codec.
Context `{Postcard}.

(** [ChunkMessage::encode]. *)
Definition message_encode (m : ChunkMessage) : res bytes :=
  map_err (fun e => fmt ["encode failed: "; e]) (postcard_encode wire_message m).

(** [ChunkMessage::decode]. *)
Definition message_decode (data : bytes) : res ChunkMessage :=
  if MAX_WIRE_MESSAGE_SIZE <? len data
  then Err (fmt ["message too large: "; dec (len data); " bytes"])
  else map_err (fun e => fmt ["decode failed: "; e]) (postcard_decode wire_message data).
End Codec.

(** ** Laws of the serialisers *)

#[export] Instance wire_protocol_error_laws : WireLaws wire_protocol_error.
Proof. wire_laws. Qed.
#[export] Instance wire_put_request_laws : WireLaws wire_put_request.
Proof. wire_laws. Qed.
#[export] Instance wire_put_response_laws : WireLaws wire_put_response.
Proof. wire_laws. Qed.
#[export] Instance wire_get_request_laws : WireLaws wire_get_request.
Proof. wire_laws. Qed.
#[export] Instance wire_get_response_laws : WireLaws wire_get_response.
Proof. wire_laws. Qed.
#[export] Instance wire_quote_request_laws : WireLaws wire_quote_request.
Proof. wire_laws. Qed.
#[export] Instance wire_quote_response_laws : WireLaws wire_quote_response.
Proof. wire_laws. Qed.
#[export] Instance wire_merkle_request_laws : WireLaws wire_merkle_request.
Proof. wire_laws. Qed.
#[export] Instance wire_merkle_response_laws : WireLaws wire_merkle_response.
Proof. wire_laws. Qed.
#[export] Instance wire_body_laws : WireLaws wire_body.
Proof. wire_laws. Qed.
#[export] Instance wire_message_laws : WireLaws wire_message.
Proof. wire_laws. Qed.

(** ** The wire format

    The bytes [ant-protocol] exchanges, field by field: the variant index of
    each message, then its fields. *)

Definition w_int (z : Z) : bytes := varint VARINT z.
Definition w_blob (b : bytes) : bytes := w_int (len b) ++ b.
Definition w_text (s : string) : bytes := w_int (str_len s) ++ as_bytes s.
Definition w_opt (o : option bytes) : bytes :=
  match o with
  | None => [x00]
  | Some b => x01 :: w_blob b
  end.

Definition error_layout (e : ProtocolError) : bytes :=
  match e with
  | SerializationFailed m => x00 :: w_text m
  | DeserializationFailed m => x01 :: w_text m
  | MessageTooLarge s m => x02 :: w_int s ++ w_int m
  | ChunkTooLarge s m => x03 :: w_int s ++ w_int m
  | AddressMismatch x a => x04 :: x ++ a
  | StorageFailed m => x05 :: w_text m
  | PaymentFailed m => x06 :: w_text m
  | QuoteFailed m => x07 :: w_text m
  | Internal m => x08 :: w_text m
  end.

Definition body_layout (b : ChunkMessageBody) : bytes :=
  match b with
  | PutRequest r => x00 :: put_address r ++ w_blob (put_content r) ++ w_opt (payment_proof r)
  | PutResponse (PutSuccess a) => x01 :: x00 :: a
  | PutResponse (AlreadyExists a) => x01 :: x01 :: a
  | PutResponse (PaymentRequired m) => x01 :: x02 :: w_text m
  | PutResponse (PutError e) => x01 :: x03 :: error_layout e
  | GetRequest r => x02 :: get_address r
  | GetResponse (GetSuccess a c) => x03 :: x00 :: a ++ w_blob c
  | GetResponse (NotFound a) => x03 :: x01 :: a
  | GetResponse (GetError e) => x03 :: x02 :: error_layout e
  | QuoteRequest r => x04 :: quote_address r ++ w_int (data_size r) ++ w_int (data_type r)
  | QuoteResponse (QuoteSuccess q s c) => x05 :: x00 :: w_blob q ++ [if s then x01 else x00] ++ w_opt c
  | QuoteResponse (QuoteError e) => x05 :: x01 :: error_layout e
  | MerkleQuoteRequest r =>
      x06 :: merkle_address r ++ w_int (merkle_data_type r) ++ w_int (merkle_data_size r)
        ++ w_int (merkle_payment_timestamp r)
  | MerkleQuoteResponse (MerkleSuccess n c) => x07 :: x00 :: w_blob n ++ w_opt c
  | MerkleQuoteResponse (MerkleError e) => x07 :: x01 :: error_layout e
  end.

Definition message_layout (m : ChunkMessage) : bytes := w_int (request_id m) ++ body_layout (body m).

(** The writer of each part. *)
Lemma layout_u8s (l : bytes) : concat (map postcard_bytes (map PU8 l)) = l.
Proof. induction l as [|b l IH]; [done|]. cbn. by rewrite IH. Qed.

Lemma layout_arr {n} (a : arr n) : postcard_bytes (@wire_ser _ (wire_arr n) a) = a.
Proof. apply layout_u8s. Qed.

Lemma layout_blob (b : bytes) : postcard_bytes (@wire_ser _ wire_bytes b) = w_blob b.
Proof.
  change (w_int (len (map PU8 b)) ++ concat (map postcard_bytes (map PU8 b)) = w_blob b).
  rewrite layout_u8s. unfold len. by rewrite length_map.
Qed.

Lemma layout_opt (o : option bytes) : postcard_bytes (@wire_ser _ (wire_option wire_bytes) o) = w_opt o.
Proof. destruct o; [|done]. cbn [w_opt]. by rewrite <- layout_blob. Qed.

(** Reduces the writer of a struct or of an enum to those of its fields. *)
Ltac layout :=
  cbn -[wire_arr wire_vec wire_u8 wire_option varint];
  rewrite ?layout_arr, ?layout_blob, ?layout_opt, ?app_nil_r; reflexivity.
Lemma layout_error e : postcard_bytes (@wire_ser _ wire_protocol_error e) = error_layout e.
Proof. destruct e; layout. Qed.

Lemma layout_body b : postcard_bytes (@wire_ser _ wire_body b) = body_layout b.
Proof.
  destruct b as [r|[]|r|[]|r|[]|r|[]];
    cbn -[wire_arr wire_vec wire_u8 wire_option wire_protocol_error varint];
    rewrite ?layout_arr, ?layout_blob, ?layout_opt, ?layout_error, ?app_nil_r; reflexivity.
Qed.

Lemma layout_message m : postcard_bytes (@wire_ser _ wire_message m) = message_layout m.
Proof.
  unfold message_layout. rewrite <- layout_body.
  cbn -[wire_body varint]. by rewrite app_nil_r.
Qed.

(** ** Properties *)

Section Properties.
Context `{Postcard} `{PL : !PostcardLaws}.

Lemma message_encode_no_panic m : message_encode m <> Panic.
Proof. unfold message_encode. rewrite map_err_Panic. apply to_stdvec_total. Qed.

Lemma message_decode_no_panic data : message_decode data <> Panic.
Proof.
  unfold message_decode. case_match; [done|]. rewrite map_err_Panic. by apply postcard_decode_total, _.
Qed.

(** C24: a message is written in exactly the wire format of [ant-protocol]
    (variant indices, field order, integer encoding) and, when it is within
    the size cap, read back unchanged; beyond the cap the reader refuses it. *)
Theorem message_roundtrip (m : ChunkMessage) (Hm : @wire_ok _ wire_message m = true) :
  message_encode m = Ok (message_layout m) /\
  message_decode (message_layout m) =
    if MAX_WIRE_MESSAGE_SIZE <? len (message_layout m)
    then Err (fmt ["message too large: "; dec (len (message_layout m)); " bytes"])
    else Ok m.
Proof.
  unfold message_encode, message_decode. rewrite <- layout_message.
  rewrite (postcard_encode_ok wire_message m Hm). split; [done|].
  case_match; [done|]. by rewrite (postcard_decode_encode wire_message m Hm).
Qed.

(** C25: reading any bytes never panics: more than the cap is refused without
    being parsed, and what is accepted holds only values the types can hold,
    so that it can be written again. *)
Theorem message_decode_total (data : bytes) :
  message_decode data <> Panic /\
  (MAX_WIRE_MESSAGE_SIZE < len data ->
   message_decode data = Err (fmt ["message too large: "; dec (len data); " bytes"])) /\
  (forall m, message_decode data = Ok m ->
   len data <= MAX_WIRE_MESSAGE_SIZE /\ message_encode m = Ok (message_layout m)).
Proof.
  unfold message_decode. destruct (Z.ltb_spec MAX_WIRE_MESSAGE_SIZE (len data)) as [Hl|Hl].
  { split; [discriminate|]. split; [reflexivity|]. intros m. discriminate. }
  split; [|split; [lia|]].
  - rewrite map_err_Panic. by apply postcard_decode_total, _.
  - intros m Hm. split; [done|]. rewrite map_err_Ok in Hm.
    unfold message_encode. rewrite <- layout_message.
    by rewrite (postcard_encode_ok wire_message m (postcard_decode_ok wire_message _ _ Hm)).
Qed.
End Properties.

(** A 300-byte GET response through the reference codec. *)
Lemma message_roundtrip_witness :
  let m := {| request_id := 300; body := GetResponse (GetSuccess (RefCrates.pad 32 [x07]) (replicate 300 x2a)) |} in
  @wire_ok _ wire_message m = true /\
  message_decode (H := PostcardRef.postcard_ref) (message_layout m) = Ok m.
Proof.
  split; [by vm_compute|].
  assert ((MAX_WIRE_MESSAGE_SIZE <? len (message_layout {| request_id := 300;
    body := GetResponse (GetSuccess (RefCrates.pad 32 [x07]) (replicate 300 x2a)) |})) = false) as Hs
    by reflexivity.
  pose proof (proj2 (message_roundtrip (H := PostcardRef.postcard_ref) (PL := PostcardRef.postcard_ref_laws)
    {| request_id := 300; body := GetResponse (GetSuccess (RefCrates.pad 32 [x07]) (replicate 300 x2a)) |}
    ltac:(by vm_compute))) as Hr.
  by rewrite Hs in Hr.
Defined.

Lemma message_decode_total_witness :
  message_decode (H := PostcardRef.postcard_ref) [x05; x02; x2a] <> Panic.
Proof.
  apply (message_decode_total (H := PostcardRef.postcard_ref) (PL := PostcardRef.postcard_ref_laws)).
Defined.
