(* ===== verification/Discovery.v ===== *)
(** * Discovery and signalling messages ([src/discovery.rs]) *)

From S2P Require Import Prelude Text Serde Wire RefCrates RefCodec Protocol.

Definition PROTO_CHUNK : byte := x01.
Definition PROTO_DISCOVERY : byte := x02.
Definition PROTO_SIGNAL : byte := x03.

Record ClosestPeersRequest : Type := { closest_address : arr 32 }.

Record PeerConnectInfo : Type := {
  peer_id : arr 32;
  ip : string;
  port : Z;
  cert_hash : arr 32;
}.

Record ClosestPeersResponse : Type := { peers : list PeerConnectInfo }.

Inductive DiscoveryBody : Type :=
  | ClosestRequest (r : ClosestPeersRequest)
  | ClosestResponse (r : ClosestPeersResponse)
  | DiscoveryError (e : string).

Record DiscoveryMessage : Type := {
  disc_request_id : Z;
  disc_body : DiscoveryBody;
}.

Record SignalRelayRequest : Type := {
  target_peer_id : arr 32;
  sdp_offer : string;
}.

Record SignalRelayResponse : Type := { sdp_answer : string }.

Inductive SignalRelayBody : Type :=
  | SignalRequest (r : SignalRelayRequest)
  | SignalResponse (r : SignalRelayResponse)
  | SignalError (e : string).

Record SignalRelayMessage : Type := {
  sig_request_id : Z;
  sig_body : SignalRelayBody;
}.

(** ** Serialisers *)

Definition wire_closest_request : Wire ClosestPeersRequest :=
  wire_struct (wire_arr 32 ⊗ ⟨⟩)
    (fun r => (closest_address r, tt)) (fun '(a, _) => {| closest_address := a |}).

Definition wire_peer_info : Wire PeerConnectInfo :=
  wire_struct (wire_arr 32 ⊗ wire_str ⊗ wire_u16 ⊗ wire_arr 32 ⊗ ⟨⟩)
    (fun p => (peer_id p, (ip p, (port p, (cert_hash p, tt)))))
    (fun '(i, (a, (p, (c, _)))) => {| peer_id := i; ip := a; port := p; cert_hash := c |}).

Definition wire_closest_response : Wire ClosestPeersResponse :=
  wire_struct (wire_vec wire_peer_info ⊗ ⟨⟩)
    (fun r => (peers r, tt)) (fun '(l, _) => {| peers := l |}).

Definition wire_discovery_body : Wire DiscoveryBody :=
  wire_enum (wire_closest_request ⊕ wire_closest_response ⊕ wire_str ⊕ ∅ᵥ)
    (fun b => match b with
      | ClosestRequest r => inl r
      | ClosestResponse r => inr (inl r)
      | DiscoveryError e => inr (inr (inl e))
      end)
    (fun s => match s with
      | inl r => ClosestRequest r
      | inr (inl r) => ClosestResponse r
      | inr (inr (inl e)) => DiscoveryError e
      | inr (inr (inr e)) => match e with end
      end).

Definition wire_discovery : Wire DiscoveryMessage :=
  wire_struct (wire_u64 ⊗ wire_discovery_body ⊗ ⟨⟩)
    (fun m => (disc_request_id m, (disc_body m, tt)))
    (fun '(i, (b, _)) => {| disc_request_id := i; disc_body := b |}).

Definition wire_signal_request : Wire SignalRelayRequest :=
  wire_struct (wire_arr 32 ⊗ wire_str ⊗ ⟨⟩)
    (fun r => (target_peer_id r, (sdp_offer r, tt)))
    (fun '(t, (o, _)) => {| target_peer_id := t; sdp_offer := o |}).

Definition wire_signal_response : Wire SignalRelayResponse :=
  wire_struct (wire_str ⊗ ⟨⟩) (fun r => (sdp_answer r, tt)) (fun '(a, _) => {| sdp_answer := a |}).

Definition wire_signal_body : Wire SignalRelayBody :=
  wire_enum (wire_signal_request ⊕ wire_signal_response ⊕ wire_str ⊕ ∅ᵥ)
    (fun b => match b with
      | SignalRequest r => inl r
      | SignalResponse r => inr (inl r)
      | SignalError e => inr (inr (inl e))
      end)
    (fun s => match s with
      | inl r => SignalRequest r
      | inr (inl r) => SignalResponse r
      | inr (inr (inl e)) => SignalError e
      | inr (inr (inr e)) => match e with end
      end).

Definition wire_signal : Wire SignalRelayMessage :=
  wire_struct (wire_u64 ⊗ wire_signal_body ⊗ ⟨⟩)
    (fun m => (sig_request_id m, (sig_body m, tt)))
    (fun '(i, (b, _)) => {| sig_request_id := i; sig_body := b |}).

Section Codec.
Context `{Postcard}.

(** [DiscoveryMessage::encode] and [decode]. *)
Definition discovery_encode (m : DiscoveryMessage) : res bytes :=
  map_err (fun e => fmt ["discovery encode: "; e]) (postcard_encode wire_discovery m).
Definition discovery_decode (data : bytes) : res DiscoveryMessage :=
  map_err (fun e => fmt ["discovery decode: "; e]) (postcard_decode wire_discovery data).

(** [SignalRelayMessage::encode] and [decode]. *)
Definition signal_encode (m : SignalRelayMessage) : res bytes :=
  map_err (fun e => fmt ["signal-relay encode: "; e]) (postcard_encode wire_signal m).
Definition signal_decode (data : bytes) : res SignalRelayMessage :=
  map_err (fun e => fmt ["signal-relay decode: "; e]) (postcard_decode wire_signal data).
End Codec.

#[export] Instance wire_closest_request_laws : WireLaws wire_closest_request.
Proof. wire_laws. Qed.
#[export] Instance wire_peer_info_laws : WireLaws wire_peer_info.
Proof. wire_laws. Qed.
#[export] Instance wire_closest_response_laws : WireLaws wire_closest_response.
Proof. wire_laws. Qed.
#[export] Instance wire_discovery_body_laws : WireLaws wire_discovery_body.
Proof. wire_laws. Qed.
#[export] Instance wire_discovery_laws : WireLaws wire_discovery.
Proof. wire_laws. Qed.
#[export] Instance wire_signal_request_laws : WireLaws wire_signal_request.
Proof. wire_laws. Qed.
#[export] Instance wire_signal_response_laws : WireLaws wire_signal_response.
Proof. wire_laws. Qed.
#[export] Instance wire_signal_body_laws : WireLaws wire_signal_body.
Proof. wire_laws. Qed.
#[export] Instance wire_signal_laws : WireLaws wire_signal.
Proof. wire_laws. Qed.

(** ** The wire format of [ant-node] *)

Definition peer_layout (p : PeerConnectInfo) : bytes :=
  peer_id p ++ w_text (ip p) ++ w_int (port p) ++ cert_hash p.

Definition discovery_layout (m : DiscoveryMessage) : bytes :=
  w_int (disc_request_id m) ++
  match disc_body m with
  | ClosestRequest r => x00 :: closest_address r
  | ClosestResponse r => x01 :: w_int (len (peers r)) ++ mjoin (map peer_layout (peers r))
  | DiscoveryError e => x02 :: w_text e
  end.

Definition signal_layout (m : SignalRelayMessage) : bytes :=
  w_int (sig_request_id m) ++
  match sig_body m with
  | SignalRequest r => x00 :: target_peer_id r ++ w_text (sdp_offer r)
  | SignalResponse r => x01 :: w_text (sdp_answer r)
  | SignalError e => x02 :: w_text e
  end.

Lemma layout_peer p : postcard_bytes (@wire_ser _ wire_peer_info p) = peer_layout p.
Proof. cbn -[wire_arr varint]. by rewrite !layout_arr, app_nil_r. Qed.

Lemma layout_peers l :
  postcard_bytes (@wire_ser _ (wire_vec wire_peer_info) l) = w_int (len l) ++ mjoin (map peer_layout l).
Proof.
  cbn -[wire_peer_info varint]. unfold len. rewrite length_map. f_equal.
  induction l as [|p l IH]; [done|]. cbn -[wire_peer_info]. by rewrite layout_peer, IH.
Qed.

Lemma layout_discovery m : postcard_bytes (@wire_ser _ wire_discovery m) = discovery_layout m.
Proof.
  destruct m as [i [[]|[]|]]; unfold discovery_layout; cbn -[wire_arr wire_vec wire_peer_info varint];
    rewrite ?layout_arr, ?layout_peers, ?app_nil_r; reflexivity.
Qed.

Lemma layout_signal m : postcard_bytes (@wire_ser _ wire_signal m) = signal_layout m.
Proof.
  destruct m as [i [[]|[]|]]; unfold signal_layout; cbn -[wire_arr varint];
    rewrite ?layout_arr, ?app_nil_r; reflexivity.
Qed.

(** ** Properties *)

Section Properties.
Context `{Postcard} `{PL : !PostcardLaws}.

Lemma discovery_encode_no_panic m : discovery_encode m <> Panic.
Proof. unfold discovery_encode. rewrite map_err_Panic. apply to_stdvec_total. Qed.

Lemma discovery_decode_no_panic data : discovery_decode data <> Panic.
Proof. unfold discovery_decode. rewrite map_err_Panic. by apply postcard_decode_total, _. Qed.

Lemma signal_encode_no_panic m : signal_encode m <> Panic.
Proof. unfold signal_encode. rewrite map_err_Panic. apply to_stdvec_total. Qed.

Lemma signal_decode_no_panic data : signal_decode data <> Panic.
Proof. unfold signal_decode. rewrite map_err_Panic. by apply postcard_decode_total, _. Qed.

(** C34: discovery and signalling messages are written in exactly the node's
    wire format and read back unchanged, and reading any bytes never
    panics. *)
Theorem discovery_signal_roundtrip (m : DiscoveryMessage) (s : SignalRelayMessage) (data : bytes)
    (Hm : @wire_ok _ wire_discovery m = true) (Hs : @wire_ok _ wire_signal s = true) :
  discovery_encode m = Ok (discovery_layout m) /\
  discovery_decode (discovery_layout m) = Ok m /\
  signal_encode s = Ok (signal_layout s) /\
  signal_decode (signal_layout s) = Ok s /\
  discovery_decode data <> Panic /\ signal_decode data <> Panic.
Proof.
  unfold discovery_encode, discovery_decode, signal_encode, signal_decode.
  rewrite <- layout_discovery, <- layout_signal.
  rewrite (postcard_encode_ok wire_discovery m Hm), (postcard_decode_encode wire_discovery m Hm).
  rewrite (postcard_encode_ok wire_signal s Hs), (postcard_decode_encode wire_signal s Hs).
  repeat (split; [done|]). rewrite !map_err_Panic.
  split; by apply postcard_decode_total, _.
Qed.
End Properties.

Lemma discovery_signal_roundtrip_witness :
  let p := {| peer_id := pad 32 [x01]; ip := "10.0.0.1"; port := 40000; cert_hash := pad 32 [x02] |} in
  let m := {| disc_request_id := 5; disc_body := ClosestResponse {| peers := [p; p] |} |} in
  let s := {| sig_request_id := 6;
              sig_body := SignalRequest {| target_peer_id := pad 32 [x03]; sdp_offer := "v=0" |} |} in
  @wire_ok _ wire_discovery m = true /\ @wire_ok _ wire_signal s = true /\
  discovery_decode (H := PostcardRef.postcard_ref) (discovery_layout m) = Ok m.
Proof.
  split; [by vm_compute|]. split; [by vm_compute|].
  apply (discovery_signal_roundtrip (H := PostcardRef.postcard_ref) (PL := PostcardRef.postcard_ref_laws)
    {| disc_request_id := 5; disc_body := ClosestResponse {| peers :=
       [{| peer_id := pad 32 [x01]; ip := "10.0.0.1"; port := 40000; cert_hash := pad 32 [x02] |};
        {| peer_id := pad 32 [x01]; ip := "10.0.0.1"; port := 40000; cert_hash := pad 32 [x02] |}] |} |}
    {| sig_request_id := 6;
       sig_body := SignalRequest {| target_peer_id := pad 32 [x03]; sdp_offer := "v=0" |} |} []);
    by vm_compute.
Defined.
