(* ===== verification/Tunnel.v ===== *)
(** * The post-quantum tunnel ([src/tunnel.rs]) *)

From S2P Require Import Prelude Text Crates RefCrates.

Definition PQC_VERSION : Z := 2.
Definition ML_KEM_768_EK_SIZE : Z := 1184.
Definition ML_KEM_768_CT_SIZE : Z := 1088.
Definition ML_DSA_65_PK_SIZE : Z := 1952.
Definition ML_DSA_65_SIG_SIZE : Z := 3309.

Definition KDF_CONTEXT : string := "ant-webrtc-pqc-v1".
Definition AUTH_SIGN_CONTEXT : bytes := as_bytes "ant-webrtc-auth-v1".

(** [u32::MAX - 1]. *)
Definition MAX_SEQ : Z := 2 ^ 32 - 2.

Inductive Direction : Type := ClientToServer | ServerToClient.

(** [dst.copy_from_slice(&src[a..b])] for an array [dst] of [n] bytes: panics
    when the range or the length is wrong. *)
Definition copy_from_slice {E} (n : nat) (src : bytes) (a b : Z) : result E (arr n) :=
  l ← slice src a b;
  match try_into n l with
  | Some a => Ok a
  | None => Panic
  end.

(** [nonce[0..4]] is the sequence number, [nonce[4]] the direction. *)
Definition build_nonce (seq : Z) (direction : Direction) : arr 12 :=
  pad 12 (be_bytes 4 seq ++ [match direction with ClientToServer => x00 | ServerToClient => x01 end]).

(** ** The session cipher *)

Record SessionCipher : Type := { key : arr 32 }.

Definition from_shared_secret `{Blake3} (ss : arr 32) : SessionCipher :=
  {| key := blake3_derive_key KDF_CONTEXT ss |}.

Definition seal_request `{ChaCha} (self : SessionCipher) (seq : Z) (plaintext : bytes) : res bytes :=
  let nonce := build_nonce seq ClientToServer in
  ciphertext ← ok_or (aead_encrypt (key self) nonce plaintext) "encryption failed";
  mret (x03 :: be_bytes 4 seq ++ ciphertext).

Definition open_response `{ChaCha} (self : SessionCipher) (envelope : bytes) : res (Z * bytes) :=
  let invalid := Err "invalid Encrypted envelope" in
  if len envelope <? 5 then invalid else
  b ← index envelope 0;
  if negb (bool_decide (b = x03)) then invalid else
  e1 ← index envelope 1;
  e2 ← index envelope 2;
  e3 ← index envelope 3;
  e4 ← index envelope 4;
  let seq := be_val [e1; e2; e3; e4] in
  let nonce := build_nonce seq ServerToClient in
  ciphertext ← slice envelope 5 (len envelope);
  plaintext ← ok_or (aead_decrypt (key self) nonce ciphertext)
                "decryption failed (tampered or wrong session)";
  mret (seq, plaintext).

(** ** The handshake *)

Record Established : Type := {
  cipher : SessionCipher;
  est_peer_id : arr 32;
}.

Section Handshake.
Context `{Hex} `{Blake3} `{MlKem} `{MlDsa}.

Record ClientHandshake : Type := {
  dk : DecapsKey;
  ek_bytes : arr EK_LEN;
}.

Definition hello_frame (ek : arr EK_LEN) : bytes := x01 :: be_bytes 2 PQC_VERSION ++ ek.

(** [ClientHandshake::start]; the generator's randomness is an argument. *)
Definition start (rng : Randomness) : res (ClientHandshake * bytes) :=
  '(ek, dk) ← map_err (fun e => fmt ["ML-KEM keygen: "; e]) (kem_try_keygen rng);
  mret ({| dk := dk; ek_bytes := ek |}, hello_frame ek).

Definition auth_message (ek : arr EK_LEN) (ct : arr CT_LEN) : bytes := AUTH_SIGN_CONTEXT ++ ek ++ ct.

Definition expected_len : Z := 1 + 2 + ML_KEM_768_CT_SIZE + ML_DSA_65_PK_SIZE + ML_DSA_65_SIG_SIZE.

(** [ClientHandshake::finish]. *)
Definition finish (self : ClientHandshake) (accept_frame : bytes)
    (expected_peer_id : option (arr 32)) : res Established :=
  if len accept_frame <? expected_len
  then Err (fmt ["ServerAccept too short: "; dec (len accept_frame); " bytes"]) else
  b0 ← index accept_frame 0;
  if negb (bool_decide (b0 = x02))
  then Err (fmt ["expected ServerAccept type 0x02, got 0x"; hex_02x b0]) else
  b1 ← index accept_frame 1;
  b2 ← index accept_frame 2;
  let version := be_val [b1; b2] in
  if negb (version =? PQC_VERSION)
  then Err (fmt ["unsupported PQC version "; dec version]) else
  let ct_start := 3 in
  let pk_start := ct_start + ML_KEM_768_CT_SIZE in
  let sig_start := pk_start + ML_DSA_65_PK_SIZE in
  ct ← copy_from_slice CT_LEN accept_frame ct_start pk_start;
  pubkey ← copy_from_slice PK_LEN accept_frame pk_start sig_start;
  signature ← copy_from_slice SIG_LEN accept_frame sig_start (sig_start + ML_DSA_65_SIG_SIZE);
  vk ← ok_or (pk_try_from_bytes pubkey) "invalid ML-DSA-65 public key";
  if negb (dsa_verify vk (auth_message (ek_bytes self) ct) signature [])
  then Err "ML-DSA-65 signature verification failed" else
  let peer_id := blake3_hash (pubkey : arr PK_LEN) in
  _ ← match expected_peer_id with
      | Some expected =>
          if negb (bool_decide (peer_id = expected))
          then Err (fmt ["PeerId mismatch: expected "; hex_encode expected;
                         ", got "; hex_encode peer_id])
          else mret tt
      | None => mret tt
      end;
  ct ← ok_or (ct_try_from_bytes ct) "invalid ML-KEM-768 ciphertext";
  ss ← ok_or (try_decaps (dk self) ct) "ML-KEM-768 decapsulation failed";
  mret {| cipher := from_shared_secret ss; est_peer_id := peer_id |}.
End Handshake.

(** ** Specifications *)

(** The envelope both sides write. *)
Definition envelope (seq : Z) (ciphertext : bytes) : bytes := x03 :: be_bytes 4 seq ++ ciphertext.

(** The node's half of the session: the same cipher with the directions
    exchanged. *)
Definition server_seal `{ChaCha} (self : SessionCipher) (seq : Z) (plaintext : bytes) : option bytes :=
  c ← aead_encrypt (key self) (build_nonce seq ServerToClient) plaintext;
  Some (envelope seq c).

Definition server_open `{ChaCha} (self : SessionCipher) (env : bytes) : option (Z * bytes) :=
  match env with
  | b :: b1 :: b2 :: b3 :: b4 :: c =>
      if bool_decide (b = x03) then
        let seq := be_val [b1; b2; b3; b4] in
        p ← aead_decrypt (key self) (build_nonce seq ClientToServer) c; Some (seq, p)
      else None
  | _ => None
  end.

Definition accept_frame `{MlDsa} (ct : arr CT_LEN) (pk : arr PK_LEN) (sig : arr SIG_LEN) : bytes :=
  x02 :: be_bytes 2 PQC_VERSION ++ ct ++ pk ++ sig.

(** The node's side of the handshake: encapsulate to the key of the hello,
    sign the transcript. *)
Definition server_accept `{Blake3} `{MlKem} `{MlDsa} (sk : SecretKey) (rng : Randomness)
    (hello : bytes) : option (bytes * SessionCipher) :=
  if bool_decide (take 3 hello = x01 :: be_bytes 2 PQC_VERSION) then
    ek ← try_into EK_LEN (drop 3 hello);
    '(ss, ct) ← kem_encaps ek rng;
    Some (accept_frame ct (sk_public sk) (dsa_sign sk (auth_message ek ct) []), from_shared_secret ss)
  else None.

(** ** Lemmas *)

Lemma index_cons_0 {E A} (x : A) l : index (E:=E) (x :: l) 0 = Ok x.
Proof. done. Qed.
Lemma index_cons_1 {E A} (x y : A) l : index (E:=E) (x :: y :: l) 1 = Ok y.
Proof. done. Qed.
Lemma index_cons_2 {E A} (x y z : A) l : index (E:=E) (x :: y :: z :: l) 2 = Ok z.
Proof. done. Qed.

Lemma copy_from_slice_app {E} n (l1 l3 : bytes) (a : arr n) i j :
  i = len l1 -> j = i + Z.of_nat n ->
  copy_from_slice (E:=E) n (l1 ++ a ++ l3) i j = Ok a.
Proof.
  intros -> ->. unfold copy_from_slice. rewrite slice_app by (rewrite ?arr_len; lia).
  cbn [mbind result_bind]. by rewrite try_into_arr.
Qed.

(** Three consecutive copies. *)
Lemma copy_three {E B} {n1 n2 n3} (l0 : bytes) (a : arr n1) (b : arr n2) (c : arr n3) rest i0 i1 i2 i3
    (k : arr n1 -> arr n2 -> arr n3 -> result E B) :
  i0 = len l0 -> i1 = i0 + Z.of_nat n1 -> i2 = i1 + Z.of_nat n2 -> i3 = i2 + Z.of_nat n3 ->
  (x ← copy_from_slice n1 (l0 ++ a ++ b ++ c ++ rest) i0 i1;
   y ← copy_from_slice n2 (l0 ++ a ++ b ++ c ++ rest) i1 i2;
   z ← copy_from_slice n3 (l0 ++ a ++ b ++ c ++ rest) i2 i3;
   k x y z) = k a b c.
Proof.
  intros H0 H1 H2 H3. rewrite copy_from_slice_app by done. cbn [mbind result_bind].
  rewrite (app_assoc l0 a). rewrite copy_from_slice_app by (rewrite ?len_app, ?arr_len; lia).
  cbn [mbind result_bind].
  rewrite (app_assoc _ b). rewrite copy_from_slice_app by (rewrite ?len_app, ?arr_len; lia). done.
Qed.

(** A long enough list splits off an array. *)
Lemma split_arr n (l : bytes) : (n <= List.length l)%nat -> exists (a : arr n) r, l = a ++ r.
Proof.
  intros Hn. destruct (try_into_length n (take n l)) as (a & _ & Ha).
  { rewrite length_take. lia. }
  exists a, (drop n l). by rewrite Ha, take_drop.
Qed.

Section Lemmas.
Context `{Hex} `{Blake3} `{MlKem} `{MlDsa}.

(** What [finish] checks once the frame is split. *)
Definition accept_checks (hs : ClientHandshake) (ct : arr CT_LEN) (pk : arr PK_LEN) (sig : arr SIG_LEN)
    (expected_peer_id : option (arr 32)) : res Established :=
  vk ← ok_or (pk_try_from_bytes pk) "invalid ML-DSA-65 public key";
  if negb (dsa_verify vk (auth_message (ek_bytes hs) ct) sig [])
  then Err "ML-DSA-65 signature verification failed" else
  let peer_id := blake3_hash pk in
  _ ← match expected_peer_id with
      | Some expected =>
          if negb (bool_decide (peer_id = expected))
          then Err (fmt ["PeerId mismatch: expected "; hex_encode expected;
                         ", got "; hex_encode peer_id])
          else mret tt
      | None => mret tt
      end;
  c ← ok_or (ct_try_from_bytes ct) "invalid ML-KEM-768 ciphertext";
  ss ← ok_or (try_decaps (dk hs) c) "ML-KEM-768 decapsulation failed";
  mret {| cipher := from_shared_secret ss; est_peer_id := peer_id |}.

Lemma frame_long b0 b1 b2 (ct : arr CT_LEN) (pk : arr PK_LEN) (sig : arr SIG_LEN) rest :
  expected_len <= len (b0 :: b1 :: b2 :: ct ++ pk ++ sig ++ rest).
Proof.
  rewrite !len_cons, !len_app, !arr_len. pose proof (len_nonneg rest).
  change expected_len with 6352. change (Z.of_nat CT_LEN) with 1088.
  change (Z.of_nat PK_LEN) with 1952. change (Z.of_nat SIG_LEN) with 3309. lia.
Qed.

Lemma finish_split hs b0 b1 b2 (ct : arr CT_LEN) (pk : arr PK_LEN) (sig : arr SIG_LEN) rest exp :
  finish hs (b0 :: b1 :: b2 :: ct ++ pk ++ sig ++ rest) exp =
  if negb (bool_decide (b0 = x02))
  then Err (fmt ["expected ServerAccept type 0x02, got 0x"; hex_02x b0]) else
  if negb (be_val [b1; b2] =? PQC_VERSION)
  then Err (fmt ["unsupported PQC version "; dec (be_val [b1; b2])]) else
  accept_checks hs ct pk sig exp.
Proof.
  unfold finish. rewrite (proj2 (Z.ltb_ge _ _) (frame_long b0 b1 b2 ct pk sig rest)).
  rewrite index_cons_0. cbn [mbind result_bind]. destruct (negb (bool_decide (b0 = x02))); [reflexivity|].
  rewrite index_cons_1, index_cons_2. cbn [mbind result_bind]. cbv zeta.
  destruct (negb (be_val [b1; b2] =? PQC_VERSION)); [reflexivity|].
  exact (copy_three [b0; b1; b2] ct pk sig rest _ _ _ _
           (fun ct pk sig => accept_checks hs ct pk sig exp) eq_refl eq_refl eq_refl eq_refl).
Qed.

(** Any frame that is long enough splits. *)
Lemma frame_split (frame : bytes) :
  expected_len <= len frame ->
  exists b0 b1 b2 (ct : arr CT_LEN) (pk : arr PK_LEN) (sig : arr SIG_LEN) rest,
    frame = b0 :: b1 :: b2 :: ct ++ pk ++ sig ++ rest.
Proof.
  change expected_len with 6352. unfold len. intros Hl.
  assert (Z.of_nat CT_LEN = 1088 /\ Z.of_nat PK_LEN = 1952 /\ Z.of_nat SIG_LEN = 3309) as (H1' & H2' & H3')
    by done.
  destruct frame as [|b0 [|b1 [|b2 l]]]; cbn [List.length] in Hl; try lia.
  destruct (split_arr CT_LEN l ltac:(lia)) as (ct & l1 & ->). rewrite length_app, arr_length in Hl.
  destruct (split_arr PK_LEN l1 ltac:(lia)) as (pk & l2 & ->). rewrite length_app, arr_length in Hl.
  destruct (split_arr SIG_LEN l2 ltac:(lia)) as (sig & rest & ->).
  by exists b0, b1, b2, ct, pk, sig, rest.
Qed.

Lemma accept_frame_app (ct : arr CT_LEN) (pk : arr PK_LEN) (sig : arr SIG_LEN) rest :
  accept_frame ct pk sig ++ rest = x02 :: x00 :: x02 :: ct ++ pk ++ sig ++ rest.
Proof. unfold accept_frame. cbn [app]. by rewrite <- !app_assoc. Qed.

Lemma version_bytes b1 b2 : be_val [b1; b2] = PQC_VERSION -> [b1; b2] = be_bytes 2 PQC_VERSION.
Proof. intros Hv. rewrite <- Hv. symmetry. apply (be_bytes_val [b1; b2]). Qed.

Lemma accept_checks_Ok hs ct pk sig exp est :
  accept_checks hs ct pk sig exp = Ok est <->
  exists vk c ss,
    pk_try_from_bytes pk = Some vk /\
    dsa_verify vk (auth_message (ek_bytes hs) ct) sig [] = true /\
    (forall p, exp = Some p -> p = blake3_hash pk) /\
    ct_try_from_bytes ct = Some c /\ try_decaps (dk hs) c = Some ss /\
    est = {| cipher := from_shared_secret ss; est_peer_id := blake3_hash pk |}.
Proof.
  unfold accept_checks. split.
  - destruct (pk_try_from_bytes pk) as [vk|]; [|done]. cbn [ok_or mbind result_bind].
    destruct (dsa_verify _ _ _ _) eqn:Hv; [|done]. cbn [negb]. cbv zeta. intros Hr.
    assert (forall p, exp = Some p -> p = blake3_hash pk) as He.
    { intros p ->. by case_bool_decide. }
    destruct exp as [p|]; [rewrite (He p eq_refl), bool_decide_true in Hr by done|].
    all: cbn [negb mret result_ret mbind result_bind] in Hr.
    all: destruct (ct_try_from_bytes ct) as [c|] eqn:Hc; [|done]; cbn [ok_or mbind result_bind] in Hr.
    all: destruct (try_decaps (dk hs) c) as [ss|] eqn:Hd; [|done]; injection Hr as <-.
    all: by exists vk, c, ss.
  - intros (vk & c & ss & -> & Hv & He & Hc & Hd & ->). cbn [ok_or mbind result_bind].
    rewrite Hv. cbn [negb]. cbv zeta.
    destruct exp as [p|]; [rewrite (He p eq_refl), bool_decide_true by done|];
      cbn [negb mret result_ret mbind result_bind];
      rewrite Hc; cbn [ok_or mbind result_bind]; by rewrite Hd.
Qed.

Lemma accept_checks_total hs ct pk sig exp : accept_checks hs ct pk sig exp <> Panic.
Proof.
  unfold accept_checks. destruct (pk_try_from_bytes pk); [|done]. cbn [ok_or mbind result_bind].
  case_match; [done|]. cbv zeta. destruct exp; [case_bool_decide|]; cbn; try done;
    (destruct (ct_try_from_bytes ct) as [c|]; cbn; [|done]; by destruct (try_decaps (dk hs) c)).
Qed.

(** A frame is refused for its shape, or its parts are checked. *)
Lemma finish_cases hs frame exp :
  ((exists e, finish hs frame exp = Err e) /\
   forall ct pk sig rest, frame <> accept_frame ct pk sig ++ rest) \/
  exists (ct : arr CT_LEN) (pk : arr PK_LEN) (sig : arr SIG_LEN) rest,
    frame = accept_frame ct pk sig ++ rest /\ finish hs frame exp = accept_checks hs ct pk sig exp.
Proof.
  destruct (Z.lt_ge_cases (len frame) expected_len) as [Hl|Hl].
  { left. unfold finish. rewrite (proj2 (Z.ltb_lt _ _) Hl). split; [by eexists|].
    intros ct pk sig rest ->. revert Hl. apply Z.le_ngt. rewrite accept_frame_app. apply frame_long. }
  destruct (frame_split frame Hl) as (b0 & b1 & b2 & ct & pk & sig & rest & ->).
  rewrite finish_split. case_bool_decide as Hb; cbn [negb].
  2: { left. split; [by eexists|]. intros ? ? ? ? [= Hb0 _]. congruence. }
  destruct (Z.eqb_spec (be_val [b1; b2]) PQC_VERSION) as [Hv|Hv]; cbn [negb].
  2: { left. split; [by eexists|]. intros ? ? ? ? Hf. destruct Hv.
       rewrite accept_frame_app in Hf. injection Hf as _ -> -> _. reflexivity. }
  right. exists ct, pk, sig, rest. split; [|done].
  apply version_bytes in Hv. injection Hv as -> ->. by rewrite accept_frame_app, Hb.
Qed.

Lemma finish_total hs frame exp : finish hs frame exp <> Panic.
Proof.
  destruct (finish_cases hs frame exp) as [[[e ->] _]|(ct & pk & sig & rest & _ & ->)]; [done|].
  apply accept_checks_total.
Qed.

Lemma start_total `{KL : !MlKemLaws} rng : start rng <> Panic.
Proof.
  unfold start. destruct (kem_try_keygen rng) as [[]| |] eqn:E; [done|done|].
  by apply kem_try_keygen_total in E.
Qed.
End Lemmas.

(** ** Properties *)

Section Properties.
Context `{Hex} `{Blake3} `{MlKem} `{MlDsa}.

(** C20: [finish] never panics, and it establishes a session exactly when the
    frame is a [ServerAccept] of this protocol version whose signature over
    the transcript (context, the client's own encapsulation key, the
    ciphertext) verifies under the public key it carries, the hash of that
    key is the pinned identity when one is given, and the ciphertext
    decapsulates; the session's key and peer id are then the ones derived
    from the shared secret and that key. *)
Theorem finish_authenticates (hs : ClientHandshake) (frame : bytes) (exp : option (arr 32)) :
  finish hs frame exp <> Panic /\
  forall est, finish hs frame exp = Ok est <->
    exists (ct : arr CT_LEN) (pk : arr PK_LEN) (sig : arr SIG_LEN) rest vk c ss,
      frame = accept_frame ct pk sig ++ rest /\
      pk_try_from_bytes pk = Some vk /\
      dsa_verify vk (AUTH_SIGN_CONTEXT ++ ek_bytes hs ++ ct) sig [] = true /\
      (forall p, exp = Some p -> p = blake3_hash pk) /\
      ct_try_from_bytes ct = Some c /\ try_decaps (dk hs) c = Some ss /\
      est = {| cipher := {| key := blake3_derive_key KDF_CONTEXT ss |}; est_peer_id := blake3_hash pk |}.
Proof.
  destruct (finish_cases hs frame exp) as [[[e ->] Hno]|(ct & pk & sig & rest & -> & ->)].
  { split; [discriminate|]. intros est. split; [discriminate|].
    intros (ct & pk & sig & rest & _ & _ & _ & Hf & _). by apply Hno in Hf. }
  split; [apply accept_checks_total|]. intros est. rewrite accept_checks_Ok. split.
  - intros (vk & c & ss & Hrest). by exists ct, pk, sig, rest, vk, c, ss.
  - intros (ct' & pk' & sig' & rest' & vk & c & ss & Hf & Hrest).
    rewrite !accept_frame_app in Hf. injection Hf as Hf.
    apply app_inj_1 in Hf as [Hct Hf]; [|by rewrite !arr_length].
    apply app_inj_1 in Hf as [Hpk Hf]; [|by rewrite !arr_length].
    apply app_inj_1 in Hf as [Hsig Hf]; [|by rewrite !arr_length].
    apply arr_eq in Hct, Hpk, Hsig. subst. by exists vk, c, ss.
Qed.

Context `{KL : !MlKemLaws} `{DL : !MlDsaLaws}.

(** C21: a node that follows the protocol is accepted: when it answers the
    client's hello, the client ends the handshake with the node's own session
    key and the hash of the node's public key as its identity, whether that
    identity was pinned or not; pinning any other identity is refused. *)
Theorem handshake_agrees (rng : Randomness) (hs : ClientHandshake) (hello : bytes)
    (sk : SecretKey) (rng' : Randomness) (frame : bytes) (session : SessionCipher)
    (Hstart : start rng = Ok (hs, hello))
    (Haccept : server_accept sk rng' hello = Some (frame, session)) :
  let id := blake3_hash (sk_public sk) in
  finish hs frame None = Ok {| cipher := session; est_peer_id := id |} /\
  finish hs frame (Some id) = Ok {| cipher := session; est_peer_id := id |} /\
  forall p, p <> id ->
    finish hs frame (Some p) =
      Err (fmt ["PeerId mismatch: expected "; hex_encode p; ", got "; hex_encode id]).
Proof.
  unfold start in Hstart. inv_res. unfold server_accept in Haccept. unfold hello_frame in Haccept.
  match goal with Hk : kem_try_keygen rng = Ok _ |- _ => rename Hk into Hkey end.
  change (take 3 (x01 :: be_bytes 2 PQC_VERSION ++ ?l)) with (x01 :: be_bytes 2 PQC_VERSION) in Haccept.
  change (drop 3 (x01 :: be_bytes 2 PQC_VERSION ++ ?l)) with l in Haccept.
  rewrite bool_decide_true in Haccept by done. rewrite try_into_arr in Haccept.
  cbn [mbind option_bind] in Haccept.
  destruct (kem_encaps _ rng') as [[ss ct]|] eqn:He; [|discriminate].
  injection Haccept as <- <-.
  destruct (kem_correct _ _ _ _ _ _ Hkey He) as (c & Hc & Hd).
  destruct (dsa_correct sk (auth_message a ct) []) as (vk & Hvk & Hver).
  assert (forall exp, finish {| dk := d; ek_bytes := a |}
      (accept_frame ct (sk_public sk) (dsa_sign sk (auth_message a ct) [])) exp
    = accept_checks {| dk := d; ek_bytes := a |} ct (sk_public sk) (dsa_sign sk (auth_message a ct) []) exp) as Hf.
  { intros exp. rewrite <- (app_nil_r (accept_frame _ _ _)), accept_frame_app, finish_split. reflexivity. }
  cbv zeta. rewrite !Hf. split; [|split].
  - apply accept_checks_Ok. by exists vk, c, ss.
  - apply accept_checks_Ok. exists vk, c, ss. repeat (split; [done|]). split; [by intros p [= <-]|done].
  - intros p Hp. rewrite Hf. unfold accept_checks. rewrite Hvk. cbn [ok_or mbind result_bind ek_bytes].
    rewrite Hver. cbn [negb]. cbv zeta. by rewrite bool_decide_false.
Qed.
End Properties.

Section Session.
Context `{ChaCha} `{CL : !ChaChaLaws}.

Lemma open_response_cons self b b1 b2 b3 b4 c :
  open_response self (b :: b1 :: b2 :: b3 :: b4 :: c) =
  if bool_decide (b = x03) then
    let seq := be_val [b1; b2; b3; b4] in
    p ← ok_or (aead_decrypt (key self) (build_nonce seq ServerToClient) c)
          "decryption failed (tampered or wrong session)";
    Ok (seq, p)
  else Err "invalid Encrypted envelope".
Proof.
  unfold open_response.
  rewrite (proj2 (Z.ltb_ge _ 5)) by (rewrite !len_cons; pose proof (len_nonneg c); lia).
  rewrite index_cons_0. cbn [mbind result_bind]. case_bool_decide; [|done]. cbn [negb].
  change (index (b :: b1 :: b2 :: b3 :: b4 :: c) 1) with (Ok (E:=string) b1).
  change (index (b :: b1 :: b2 :: b3 :: b4 :: c) 2) with (Ok (E:=string) b2).
  change (index (b :: b1 :: b2 :: b3 :: b4 :: c) 3) with (Ok (E:=string) b3).
  change (index (b :: b1 :: b2 :: b3 :: b4 :: c) 4) with (Ok (E:=string) b4).
  cbn [mbind result_bind]. cbv zeta.
  replace (b :: b1 :: b2 :: b3 :: b4 :: c) with ([b; b1; b2; b3; b4] ++ c ++ []) by (by rewrite app_nil_r).
  rewrite slice_app; [done|done|]. rewrite !len_app. change (len []) with 0. lia.
Qed.

(** A four-byte big-endian number. *)
Lemma be4 seq : is_u32 seq ->
  exists b1 b2 b3 b4, be_bytes 4 seq = [b1; b2; b3; b4] /\ be_val [b1; b2; b3; b4] = seq.
Proof.
  intros Hs. pose proof (be_val_bytes_small 4 seq Hs) as Hv.
  pose proof (length_be_bytes 4 seq) as Hl.
  destruct (be_bytes 4 seq) as [|b1 [|b2 [|b3 [|b4 [|]]]]]; try discriminate Hl.
  by exists b1, b2, b3, b4.
Qed.

Lemma be4_bytes b1 b2 b3 b4 :
  is_u32 (be_val [b1; b2; b3; b4]) /\ be_bytes 4 (be_val [b1; b2; b3; b4]) = [b1; b2; b3; b4].
Proof. split; [apply (be_val_range [b1; b2; b3; b4])|apply (be_bytes_val [b1; b2; b3; b4])]. Qed.

Lemma open_response_total self env : open_response self env <> Panic.
Proof.
  destruct env as [|b [|b1 [|b2 [|b3 [|b4 c]]]]]; try discriminate.
  rewrite open_response_cons. case_bool_decide; [|discriminate]. cbv zeta.
  by destruct (aead_decrypt _ _ _).
Qed.

Lemma seal_request_total self seq p : seal_request self seq p <> Panic.
Proof. unfold seal_request. cbv zeta. by destruct (aead_encrypt _ _ _). Qed.

Lemma open_server_seal self seq p env :
  is_u32 seq -> server_seal self seq p = Some env -> open_response self env = Ok (seq, p).
Proof.
  intros Hs. unfold server_seal. intros He. apply bind_Some in He as (c & Hc & [= <-]).
  destruct (be4 seq Hs) as (b1 & b2 & b3 & b4 & Hb & Hv). unfold envelope. rewrite Hb. cbn [app].
  rewrite open_response_cons, bool_decide_true by done. cbv zeta. rewrite Hv.
  by rewrite (aead_decrypt_encrypt _ _ _ _ Hc).
Qed.

Lemma session_ok self seq p env :
  open_response self env = Ok (seq, p) -> server_seal self seq p = Some env.
Proof.
  unfold open_response. destruct (len env <? 5) eqn:Hl; [discriminate|]. apply Z.ltb_ge in Hl.
  destruct env as [|b [|b1 [|b2 [|b3 [|b4 c]]]]]; try (by cbv in Hl).
  intros Ho. pose proof (open_response_cons self b b1 b2 b3 b4 c) as Hc.
  unfold open_response in Hc at 1. apply Z.ltb_ge in Hl. rewrite Hl in Hc.
  rewrite Hc in Ho. clear Hc. case_bool_decide as Hb; [|discriminate]. cbv zeta in Ho. inv_res.
  match goal with Hc : aead_decrypt _ _ _ = Some _ |- _ => apply aead_encrypt_decrypt in Hc; rename Hc into Henc end.
  unfold server_seal. rewrite Henc. cbn [mbind option_bind]. unfold envelope.
  by rewrite (proj2 (be4_bytes b1 b2 b3 b4)).
Qed.

(** C23: requests and responses cross the session in one piece: the node opens
    exactly what the client sealed, under the sequence number it was sealed
    with, and an envelope is accepted by the client, with a sequence number
    and a plaintext, exactly when it is the node's sealing of that plaintext
    under that number; no envelope makes the client panic. *)
Theorem session_roundtrip (self : SessionCipher) (seq : Z) (p env : bytes) (Hs : is_u32 seq) :
  (forall e, seal_request self seq p = Ok e -> server_open self e = Some (seq, p)) /\
  (open_response self env = Ok (seq, p) <-> server_seal self seq p = Some env) /\
  open_response self env <> Panic.
Proof.
  split; [|split].
  - unfold seal_request. intros e He. inv_res.
    match goal with Hc : aead_encrypt _ _ _ = Some _ |- _ => rename Hc into Henc end.
    destruct (be4 seq Hs) as (b1 & b2 & b3 & b4 & Hb & Hv). change (server_open self (x03 :: be_bytes 4 seq ++ x) = Some (seq, p)).
    unfold server_open. rewrite Hb. cbn [app].
    rewrite bool_decide_true by done. cbv zeta. rewrite Hv.
    by rewrite (aead_decrypt_encrypt _ _ _ _ Henc).
  - split.
    + apply session_ok.
    + by apply open_server_seal.
  - apply open_response_total.
Qed.
End Session.

Lemma pad_app_inj n (l l' : bytes) :
  List.length l = List.length l' -> (List.length l <= n)%nat -> pad n l = pad n l' -> l = l'.
Proof.
  intros Hl Hn Hp. apply (f_equal (fun a : arr n => arr_list a)) in Hp.
  apply (f_equal (take (List.length l))) in Hp. unfold pad in Hp. cbn [arr_list mk_arr] in Hp.
  rewrite !take_take in Hp. rewrite Nat.min_l in Hp by lia.
  rewrite take_app_length, Hl, take_app_length in Hp. done.
Qed.

Lemma build_nonce_inj (s s' : Z) (d d' : Direction) (Hs : is_u32 s) (Hs' : is_u32 s') :
  build_nonce s d = build_nonce s' d' -> s = s' /\ d = d'.
Proof.
  intros Hn. unfold build_nonce in Hn. apply pad_app_inj in Hn.
  - apply app_inj_1 in Hn as [Hb Hd]; [|by rewrite !length_be_bytes].
    split; [by apply (be_bytes_inj 4)|]. by destruct d, d'.
  - by rewrite !length_app, !length_be_bytes.
  - rewrite length_app, length_be_bytes. cbn. lia.
Qed.

(** The nonce determines the sequence number and the direction, so that
    two messages of one session get the same nonce only when they carry the
    same number in the same direction. *)
Theorem build_nonce_injective (s s' : Z) (d d' : Direction) (Hs : is_u32 s) (Hs' : is_u32 s') :
  build_nonce s d = build_nonce s' d' -> s = s' /\ d = d'.
Proof. by apply build_nonce_inj. Qed.

(** ** Witnesses *)

Module Witnesses.
Import ToyCrypto.

Definition rng : arr 32 := pad 32 [x09].
Definition sk : arr 32 := pad 32 [x05].
Definition hs : ClientHandshake := {| dk := tt; ek_bytes := pad EK_LEN rng |}.
Definition session : SessionCipher := from_shared_secret rng.
Definition frame : bytes :=
  let ct := pad CT_LEN rng in
  accept_frame ct (sk_public sk) (dsa_sign sk (auth_message (pad EK_LEN rng) ct) []).

Lemma handshake_agrees_witness :
  start rng = Ok (hs, hello_frame (pad EK_LEN rng)) /\
  server_accept sk rng (hello_frame (pad EK_LEN rng)) = Some (frame, session) /\
  finish (H := HexRef.hex_ref) hs frame None =
    Ok {| cipher := session; est_peer_id := blake3_hash (sk_public sk) |}.
Proof.
  assert (start rng = Ok (hs, hello_frame (pad EK_LEN rng))) as Hs by reflexivity.
  assert (server_accept sk rng (hello_frame (pad EK_LEN rng)) = Some (frame, session)) as Ha.
  { unfold server_accept. rewrite bool_decide_true by done.
    change (drop 3 (hello_frame (pad EK_LEN rng))) with (arr_list (pad EK_LEN rng)).
    rewrite try_into_arr. reflexivity. }
  split; [exact Hs|]. split; [exact Ha|].
  exact (proj1 (handshake_agrees (H := HexRef.hex_ref) (KL := mlkem_toy_laws) (DL := mldsa_toy_laws)
           rng hs _ sk rng frame session Hs Ha)).
Defined.

Lemma session_roundtrip_witness :
  is_u32 7 /\ open_response session (envelope 7 (x01 :: x02 :: tag (key session) (build_nonce 7 ServerToClient)))
    = Ok (7, [x01; x02]).
Proof.
  assert (is_u32 7) as Hs by (by vm_compute).
  split; [exact Hs|].
  apply (session_roundtrip (CL := chacha_toy_laws) session 7 [x01; x02] _ Hs). reflexivity.
Defined.

Lemma build_nonce_injective_witness :
  is_u32 7 /\ (build_nonce 7 ClientToServer = build_nonce 7 ServerToClient -> ClientToServer = ServerToClient).
Proof.
  assert (is_u32 7) as Hs by (by vm_compute).
  split; [exact Hs|]. apply (build_nonce_injective 7 7 ClientToServer ServerToClient Hs Hs).
Defined.
End Witnesses.
