(* ===== verification/Retrieval.v ===== *)
(** * Verified retrieval ([src/retrieval.rs])

    The chunks of one file are accepted under their content addresses, the
    data map is resolved to its root, and the plaintext is reassembled. *)

From S2P Require Import Prelude Text Crates RefCrates.

Section Retrieval.
Context `{Hex} `{SelfEncryption}.

Record Retrieval : Type := {
  r_map : DataMap;
  root_resolved : bool;
  cache : gmap (arr 32) EncryptedChunk;
}.

Definition begin (address : arr 32) (bs : bytes) : res Retrieval :=
  _ ← map_err (fun e => fmt ["data map chunk failed verification: "; e]) (verify_chunk address bs);
  m ← map_err (fun e => fmt ["address does not hold a data map: "; e]) (data_map_of_bytes bs);
  mret {| r_map := m; root_resolved := negb (is_child m); cache := ∅ |}.

Definition required_addresses (self : Retrieval) : list (arr 32) :=
  filter (fun dst_hash => cache self !! dst_hash = None) (infos (r_map self)).

Definition supply (address : arr 32) (bs : bytes) : st Retrieval unit := fun self =>
  match map_err (fun e => fmt ["chunk "; hex_encode address; " failed verification: "; e])
          (verify_chunk address bs) with
  | Ok chunk => ({| r_map := r_map self; root_resolved := root_resolved self;
                    cache := <[address := chunk]> (cache self) |}, Ok tt)
  | Err e => (self, Err e)
  | Panic => (self, Panic)
  end.

(** The closure [advance] gives to [get_root_data_map]. *)
Definition fetch_cached (self : Retrieval) (address : arr 32) : res bytes :=
  ok_or (content <$> cache self !! address) (fmt ["missing wrapper chunk "; hex_encode address]).

Definition advance : st Retrieval unit := fun self =>
  if root_resolved self || negb (bool_decide (required_addresses self = [])) then (self, Ok tt) else
  match map_err (fun e => fmt ["failed to resolve the root data map: "; e])
          (get_root_data_map (r_map self) (fetch_cached self)) with
  | Ok root => ({| r_map := root; root_resolved := true; cache := cache self |}, Ok tt)
  | Err e => (self, Err e)
  | Panic => (self, Panic)
  end.

Definition is_complete (self : Retrieval) : bool :=
  root_resolved self && bool_decide (required_addresses self = []).

Definition chunk_count (self : Retrieval) : Z := len (infos (r_map self)).

(** [.map(..).collect::<Result<Vec<_>, _>>()]: stops at the first error. *)
Fixpoint collect_chunks (self : Retrieval) (l : list (arr 32)) : res (list EncryptedChunk) :=
  match l with
  | [] => Ok []
  | dst_hash :: l =>
      chunk ← ok_or (cache self !! dst_hash) (fmt ["missing chunk "; hex_encode dst_hash]);
      chunks ← collect_chunks self l;
      mret (chunk :: chunks)
  end.

Definition finish (self : Retrieval) : res bytes :=
  if negb (is_complete self) then Err "cannot finish: chunks missing or root map unresolved" else
  chunks ← collect_chunks self (infos (r_map self));
  map_err (fun e => fmt ["decryption failed: "; e]) (decrypt (r_map self) chunks).

(** ** Runs

    A caller may supply any bytes under any address and advance at any time;
    errors leave it free to go on. *)

Inductive action : Type :=
  | Supply (address : arr 32) (bs : bytes)
  | Advance.

Definition act (a : action) (self : Retrieval) : Retrieval :=
  match a with
  | Supply address bs => (supply address bs self).1
  | Advance => (advance self).1
  end.

Definition run (actions : list action) (self : Retrieval) : Retrieval := fold_left (flip act) actions self.
End Retrieval.

(** ** Specification *)

Section Spec.
Context `{Hex} `{Blake3} `{SelfEncryption}.

(** Every cached chunk is the preimage of its address. *)
Definition cache_ok (r : Retrieval) : Prop :=
  forall a c, cache r !! a = Some c -> blake3_hash (content c) = a.

(** A fetch function that never lies. *)
Definition honest (fetch : arr 32 -> res bytes) : Prop :=
  forall a b, fetch a = Ok b -> blake3_hash b = a.

(** [root] is the root data map of the file published at [address]. *)
Definition root_of (address : arr 32) (root : DataMap) : Prop :=
  exists bs m fetch,
    blake3_hash bs = address /\ data_map_of_bytes bs = Ok m /\ honest fetch /\ unwraps fetch m root.

(** [out] is the content of the file published at [address]: what its root
    map decrypts to from chunks that hash to the addresses it lists. *)
Definition content_of (address : arr 32) (out : bytes) : Prop :=
  exists root chunks,
    root_of address root /\ is_child root = false /\
    Forall2 (fun a c => blake3_hash (content c) = a) (infos root) chunks /\
    decrypt root chunks = Ok out.

(** The same with all the bytes on the way from the address to the content (data
    maps and chunks) among [used]. *)
Definition content_from (used : list bytes) (address : arr 32) (out : bytes) : Prop :=
  exists bs m fetch root chunks,
    bs ∈ used /\ blake3_hash bs = address /\ data_map_of_bytes bs = Ok m /\
    honest fetch /\ (forall a b, fetch a = Ok b -> b ∈ used) /\ unwraps fetch m root /\
    Forall2 (fun a c => blake3_hash (content c) = a /\ content c ∈ used) (infos root) chunks /\
    decrypt root chunks = Ok out.

(** One of the byte strings [used] and one of [used'], different, with the same
    hash. *)
Definition collide (used used' : list bytes) : Prop :=
  exists x y, x ∈ used /\ y ∈ used' /\ x <> y /\ blake3_hash x = blake3_hash y.

(** The bytes a run supplies. *)
Definition supplied (actions : list action) : list bytes :=
  omap (fun a => match a with Supply _ bs => Some bs | Advance => None end) actions.
End Spec.

(** ** Lemmas *)

Section Lemmas.
Context `{Hex} `{Blake3} `{SelfEncryption} `{SL : !SelfEncryptionLaws}.

Lemma unwraps_root fetch m root : unwraps fetch m root -> is_child root = false.
Proof. by induction 1. Qed.

Lemma verify_chunk_cases a b :
  (blake3_hash b = a /\ exists c, verify_chunk a b = Ok c /\ content c = b) \/
  (blake3_hash b <> a /\ exists e, verify_chunk a b = Err e).
Proof.
  destruct (decide (blake3_hash b = a)) as [Hb|Hb]; [left|right]; split; try done.
  - exists {| content := b |}. split; [|done]. by apply verify_chunk_Ok.
  - destruct (verify_chunk a b) as [c|e|] eqn:E; [|by exists e|by apply verify_chunk_total in E].
    by apply verify_chunk_Ok in E as [_ E].
Qed.

(** [supply], by whether the bytes hash to the address. *)
Lemma supply_good a b r :
  blake3_hash b = a -> exists c, content c = b /\
  supply a b r = ({| r_map := r_map r; root_resolved := root_resolved r; cache := <[a := c]> (cache r) |}, Ok tt).
Proof.
  intros Hb. destruct (verify_chunk_cases a b) as [[_ (c & Hc & Hcont)]|[Hn _]]; [|done].
  exists c. split; [done|]. unfold supply. by rewrite Hc.
Qed.

Lemma supply_bad a b r : blake3_hash b <> a -> exists e, supply a b r = (r, Err e).
Proof.
  intros Hb. destruct (verify_chunk_cases a b) as [[Hn _]|[_ (e & He)]]; [done|].
  unfold supply. rewrite He. cbn [map_err]. eauto.
Qed.

Lemma required_nil r : required_addresses r = [] <-> forall a, a ∈ infos (r_map r) -> is_Some (cache r !! a).
Proof.
  unfold required_addresses. split.
  - intros Hf a Ha. destruct (cache r !! a) as [c|] eqn:E; [by exists c|].
    assert (a ∈ filter (fun h => cache r !! h = None) (infos (r_map r))) as Hin.
    { by apply list_elem_of_filter. }
    rewrite Hf in Hin. by apply elem_of_nil in Hin.
  - intros Ha. destruct (filter _ _) as [|a l] eqn:E; [done|].
    assert (a ∈ filter (fun h => cache r !! h = None) (infos (r_map r))) as Hin by (rewrite E; left).
    apply list_elem_of_filter in Hin as [Hn Hin]. destruct (Ha a Hin) as [c Hc]. congruence.
Qed.

Lemma collect_present r l :
  (forall a, a ∈ l -> is_Some (cache r !! a)) ->
  exists cs, collect_chunks r l = Ok cs /\ Forall2 (fun a c => cache r !! a = Some c) l cs.
Proof.
  induction l as [|a l IH]; intros Ha; [exists []; by split; [|constructor]|].
  destruct (Ha a) as [c Hc]; [left|]. destruct IH as (cs & Hcs & HF); [intros b Hb; apply Ha; by right|].
  exists (c :: cs). split; [|by constructor]. cbn [collect_chunks]. rewrite Hc. cbn [ok_or mbind result_bind].
  by rewrite Hcs.
Qed.

(** A complete retrieval decrypts the cached chunks of its map. *)
Lemma finish_complete r :
  is_complete r = true ->
  exists cs, Forall2 (fun a c => cache r !! a = Some c) (infos (r_map r)) cs /\
    finish r = map_err (fun e => fmt ["decryption failed: "; e]) (decrypt (r_map r) cs).
Proof.
  intros Hc. unfold finish. rewrite Hc. cbn [negb].
  apply andb_true_iff in Hc as [_ Hr%bool_decide_eq_true].
  destruct (collect_present r (infos (r_map r))) as (cs & Hcs & HF); [by apply required_nil|].
  exists cs. split; [done|]. by rewrite Hcs.
Qed.

Lemma fetch_cached_honest r : cache_ok r -> honest (fetch_cached r).
Proof.
  intros Hok a b Hf. unfold fetch_cached in Hf. apply ok_or_Ok in Hf.
  destruct (cache r !! a) as [c|] eqn:E; [|done]. injection Hf as <-. by apply Hok.
Qed.

(** The invariant of a retrieval of [address] that has been given the bytes [used]. *)
Record inv (used : list bytes) (address : arr 32) (r : Retrieval) : Prop := {
  inv_cache : cache_ok r;
  inv_used : forall a c, cache r !! a = Some c -> content c ∈ used;
  inv_map : exists bs m fetch,
    bs ∈ used /\ blake3_hash bs = address /\ data_map_of_bytes bs = Ok m /\
    honest fetch /\ (forall a b, fetch a = Ok b -> b ∈ used) /\
    if root_resolved r then unwraps fetch m (r_map r) else m = r_map r;
}.

Lemma begin_inv address bs r : begin address bs = Ok r -> inv [bs] address r.
Proof.
  unfold begin. intros Hb. inv_res.
  match goal with Hv : verify_chunk _ _ = Ok _ |- _ => apply verify_chunk_Ok in Hv as [_ Hv] end.
  split; cbn.
  - intros a c Hc. cbn [cache] in Hc. by apply lookup_empty_Some in Hc.
  - intros a c Hc. cbn [cache] in Hc. by apply lookup_empty_Some in Hc.
  - eexists bs, _, (fun _ => Err EmptyString). do 3 (split; [done || by left|]). do 2 (split; [done|]).
    destruct (is_child _) eqn:E; cbn; [done|]. by apply unwrap_root.
Qed.

Lemma inv_more used used' address r : (forall b, b ∈ used -> b ∈ used') -> inv used address r -> inv used' address r.
Proof.
  intros Hsub [Hc Hu (bs & m & fetch & Hin & Hb & Hm & Hf & Hfu & Hr)]. split; [done|by eauto|].
  exists bs, m, fetch. split_and!; eauto.
Qed.

Lemma act_inv used address a r : inv used address r -> inv (used ++ supplied [a]) address (act a r).
Proof.
  intros Hinv. destruct a as [a bs|]; cbn [act].
  - apply (inv_more _ (used ++ [bs])) in Hinv; [|set_solver]. change (supplied _) with [bs].
    destruct (decide (blake3_hash bs = a)) as [Hb|Hb].
    + destruct Hinv as [Hc Hu Hm]. destruct (supply_good a bs r Hb) as (c & Hcont & ->).
      split; cbn [fst cache r_map root_resolved]; [..|done].
      * intros a' c'. cbn. rewrite lookup_insert_Some. intros [[<- <-]|[_ Hl]]; [by subst|by apply Hc].
      * intros a' c'. cbn. rewrite lookup_insert_Some. intros [[<- <-]|[_ Hl]]; [set_solver|by eapply Hu].
    + by destruct (supply_bad a bs r Hb) as (e & ->).
  - change (supplied _) with (@nil bytes). rewrite app_nil_r.
    unfold advance. destruct (root_resolved r) eqn:E; [done|]. cbn [orb].
    destruct (negb _); [done|].
    destruct (get_root_data_map _ _) as [root|e|] eqn:Hg; cbn; [|done..].
    destruct Hinv as [Hc Hu (bs & m & fetch0 & Hin & Hb & Hm & _ & _ & Hr)]. rewrite E in Hr. subst m.
    apply get_root_Ok in Hg. split; cbn; [done..|]. exists bs, (r_map r), (fetch_cached r).
    split_and!; [done..|by apply fetch_cached_honest| |done].
    intros a b Hf. unfold fetch_cached in Hf. apply ok_or_Ok in Hf.
    destruct (cache r !! a) as [c|] eqn:Ec; [|done]. injection Hf as <-. by eapply Hu.
Qed.

Lemma run_inv address acts : forall used r, inv used address r -> inv (used ++ supplied acts) address (run acts r).
Proof.
  induction acts as [|a acts IH]; intros used r Hr; [by rewrite app_nil_r|].
  replace (supplied (a :: acts)) with (supplied [a] ++ supplied acts) by by destruct a.
  rewrite app_assoc. by apply IH, act_inv.
Qed.

Lemma finish_content used address r out : inv used address r -> finish r = Ok out -> content_from used address out.
Proof.
  intros [Hc Hu (bs & m & fetch & Hin & Hb & Hm & Hf & Hfu & Hr)] Hfin. destruct (is_complete r) eqn:Hcomp.
  2: { unfold finish in Hfin. by rewrite Hcomp in Hfin. }
  destruct (finish_complete r Hcomp) as (cs & HF & Hfc). rewrite Hfc, map_err_Ok in Hfin.
  apply andb_true_iff in Hcomp as [Hroot _]. rewrite Hroot in Hr.
  exists bs, m, fetch, (r_map r), cs. split_and!; [done..| |done].
  eapply Forall2_impl; [exact HF|]. intros a c Ha. split; [by apply Hc|exact (Hu _ _ Ha)].
Qed.

Lemma content_from_of used address out : content_from used address out -> content_of address out.
Proof.
  intros (bs & m & fetch & root & cs & _ & Hb & Hm & Hf & _ & Hu & HF & Hd). exists root, cs.
  split; [by exists bs, m, fetch|]. split; [by eapply unwraps_root|]. split; [|done].
  eapply Forall2_impl; [exact HF|]. by intros a c [? _].
Qed.

(** The invariant for a caller that does not keep the bytes. *)
Definition retrieving (address : arr 32) (r : Retrieval) : Prop := exists used, inv used address r.

Lemma begin_retrieving address bs r : begin address bs = Ok r -> retrieving address r.
Proof. intros Hb. exists [bs]. by apply begin_inv. Qed.

Lemma act_retrieving address a r : retrieving address r -> retrieving address (act a r).
Proof. intros [used Hr]. eexists. by apply act_inv. Qed.

Lemma retrieving_finish address r out : retrieving address r -> finish r = Ok out -> content_of address out.
Proof. intros [used Hr] Hf. by eapply content_from_of, finish_content. Qed.

Lemma retrieved address bs r acts out :
  begin address bs = Ok r -> finish (run acts r) = Ok out -> content_from (bs :: supplied acts) address out.
Proof. intros Hb Hf. eapply finish_content; [|exact Hf]. apply (run_inv address acts [bs]). by apply begin_inv. Qed.

(** Two preimages of one address are equal, or collide. *)
Lemma preimage_or_collide used used' x y :
  x ∈ used -> y ∈ used' -> blake3_hash x = blake3_hash y -> x = y \/ collide used used'.
Proof. intros Hx Hy Hh. destruct (decide (x = y)) as [|Hn]; [by left|right; by exists x, y]. Qed.

Lemma chunks_or_collide used used' l cs cs' :
  Forall2 (fun a c => blake3_hash (content c) = a /\ content c ∈ used) l cs ->
  Forall2 (fun a c => blake3_hash (content c) = a /\ content c ∈ used') l cs' -> cs = cs' \/ collide used used'.
Proof.
  intros HF. revert cs'. induction HF as [|a c l cs [Hc Hu] HF IH]; intros cs' HF'.
  - apply Forall2_nil_inv_l in HF' as ->. by left.
  - apply Forall2_cons_inv_l in HF' as (c' & cs'' & [Hc' Hu'] & HF' & ->).
    destruct (preimage_or_collide used used' (content c) (content c')) as [He|]; [done..|congruence| |by right].
    destruct (IH cs'' HF') as [->|]; [|by right]. left. by destruct c, c'; cbn in He; subst.
Qed.

Lemma unwraps_or_collide used used' f f' m root root' :
  honest f -> honest f' -> (forall a b, f a = Ok b -> b ∈ used) -> (forall a b, f' a = Ok b -> b ∈ used') ->
  unwraps f m root -> unwraps f' m root' -> root = root' \/ collide used used'.
Proof.
  intros Hf Hf' Hfu Hfu' Hu. revert root'. induction Hu as [m Hm|m cs bs m1 root Hm HF Hd Hp Hu IH]; intros root' Hu'.
  - inversion Hu' as [|? ? ? ? ? Hm']; [by left|congruence].
  - inversion Hu' as [? Hm'|? cs' bs' m1' ? Hm' HF' Hd' Hp' Hu1']; [congruence|]. subst.
    destruct (chunks_or_collide used used' (infos m) cs cs') as [->|]; [| | |by right].
    + eapply Forall2_impl; [exact HF|]. intros a c Ha. split; [by apply Hf|exact (Hfu _ _ Ha)].
    + eapply Forall2_impl; [exact HF'|]. intros a c Ha. split; [by apply Hf'|exact (Hfu' _ _ Ha)].
    + assert (bs = bs') as <- by congruence. assert (m1 = m1') as <- by congruence. by apply IH.
Qed.

Lemma content_or_collide used used' address out out' :
  content_from used address out -> content_from used' address out' -> out = out' \/ collide used used'.
Proof.
  intros (bs & m & f & root & cs & Hin & Hb & Hm & Hf & Hfu & Hu & HF & Hd)
         (bs' & m' & f' & root' & cs' & Hin' & Hb' & Hm' & Hf' & Hfu' & Hu' & HF' & Hd').
  destruct (preimage_or_collide used used' bs bs') as [->|]; [done..|congruence| |by right].
  assert (m = m') as <- by congruence.
  destruct (unwraps_or_collide used used' f f' m root root') as [->|]; [done..| |by right].
  destruct (chunks_or_collide used used' _ cs cs' HF HF') as [->|]; [|by right].
  left. congruence.
Qed.

Lemma supply_total address bs r : (supply address bs r).2 <> Panic.
Proof.
  destruct (decide (blake3_hash bs = address)) as [Hb|Hb].
  - by destruct (supply_good address bs r Hb) as (c & _ & ->).
  - by destruct (supply_bad address bs r Hb) as (e & ->).
Qed.

Lemma advance_total r : (advance r).2 <> Panic.
Proof.
  unfold advance. destruct (_ || _); [done|].
  destruct (get_root_data_map _ _) eqn:E; [done..|].
  apply get_root_total in E; [done|]. intros a. unfold fetch_cached.
  by destruct (cache r !! a).
Qed.

End Lemmas.

(** ** Rounds

    How a caller drives a retrieval when every requested chunk is served:
    supply all that is required, advance, repeat until complete. *)

Section Rounds.
Context `{Hex} `{Blake3} `{SelfEncryption} `{SL : !SelfEncryptionLaws}.

Fixpoint supply_all (serve : arr 32 -> bytes) (l : list (arr 32)) : st Retrieval unit :=
  match l with
  | [] => mret tt
  | a :: l => _ ← supply a (serve a); supply_all serve l
  end.

Definition round (serve : arr 32 -> bytes) : st Retrieval unit := fun self =>
  (_ ← supply_all serve (required_addresses self); advance) self.

(** [None] when [fuel] rounds decide nothing. *)
Fixpoint rounds (fuel : nat) (serve : arr 32 -> bytes) (self : Retrieval) : option (res Retrieval) :=
  if is_complete self then Some (Ok self) else
  match fuel with
  | O => None
  | S fuel =>
      match round serve self with
      | (self, Ok _) => rounds fuel serve self
      | (_, Err e) => Some (Err e)
      | (_, Panic) => Some Panic
      end
  end.

(** Nothing but served chunks in the cache. *)
Definition cached_from (serve : arr 32 -> bytes) (r : Retrieval) : Prop :=
  forall a c, cache r !! a = Some c -> content c = serve a.

Definition served (serve : arr 32 -> bytes) (l : list (arr 32)) : Prop :=
  forall a, a ∈ l -> blake3_hash (serve a) = a.

Definition chunk_of (serve : arr 32 -> bytes) (a : arr 32) : EncryptedChunk := {| content := serve a |}.

Lemma supply_all_spec serve l r :
  served serve l -> cached_from serve r ->
  exists r', supply_all serve l r = (r', Ok tt) /\ r_map r' = r_map r /\
    root_resolved r' = root_resolved r /\ cached_from serve r' /\
    forall a, is_Some (cache r' !! a) <-> is_Some (cache r !! a) \/ a ∈ l.
Proof.
  revert r. induction l as [|a l IH]; intros r Hs Hc.
  - exists r. do 4 (split; [done|]). intros a. rewrite elem_of_nil. tauto.
  - destruct (supply_good a (serve a) r) as (c & Hcont & Hsup); [apply Hs; left|].
    cbn [supply_all]. unfold mbind, st_bind. rewrite Hsup.
    match goal with |- context [supply_all serve l ?r1] => destruct (IH r1) as (r' & Hr & Hm & Hrr & Hcf & Hin) end.
    + intros b Hb. apply Hs. by right.
    + intros b c'. cbn [cache]. rewrite lookup_insert_Some. intros [[<- <-]|[_ Hl]]; [done|by apply Hc].
    + exists r'. do 4 (split; [done|]). intros b. rewrite Hin. cbn [cache].
      rewrite lookup_insert_is_Some, elem_of_cons.
      destruct (decide (a = b)) as [->|Hn]; [tauto|]. intuition congruence.
Qed.

(** One round brings in every chunk of the current map. *)
Lemma round_spec serve r :
  served serve (infos (r_map r)) -> cached_from serve r ->
  exists r', r_map r' = r_map r /\ root_resolved r' = root_resolved r /\ cached_from serve r' /\
    required_addresses r' = [] /\ round serve r = advance r'.
Proof.
  intros Hs Hc. destruct (supply_all_spec serve (required_addresses r) r) as (r' & Hr & Hm & Hrr & Hcf & Hin).
  { intros a Ha. apply Hs. unfold required_addresses in Ha. by apply list_elem_of_filter in Ha as [_ Ha]. }
  { done. }
  exists r'. do 3 (split; [done|]). split.
  - apply required_nil. rewrite Hm. intros a Ha. apply Hin.
    destruct (cache r !! a) as [c|] eqn:E; [left; by exists c|right].
    unfold required_addresses. by apply list_elem_of_filter.
  - unfold round, mbind, st_bind. by rewrite Hr.
Qed.

(** How many rounds are left: one to find the root map, if it is not known,
    and one for its chunks. *)
Definition rounds_left (r : Retrieval) : nat :=
  if is_complete r then 0 else if root_resolved r then 1 else 2.

(** [r'] is [r] with chunks for all of [l]. *)
Definition supplied_with (l : list (arr 32)) (r r' : Retrieval) : Prop :=
  r_map r' = r_map r /\ root_resolved r' = root_resolved r /\
  forall a, is_Some (cache r !! a) \/ a ∈ l -> is_Some (cache r' !! a).

Lemma supplied_nil r : supplied_with [] r r.
Proof. split_and!; [done..|]. intros a [Ha|Ha]; [done|by apply elem_of_nil in Ha]. Qed.

Lemma supplied_cons a bs l r r1 r2 :
  supply a bs r = (r1, Ok tt) -> supplied_with l r1 r2 -> supplied_with (a :: l) r r2.
Proof.
  intros Hs (Hm & Hr & Hc). destruct (verify_chunk_cases a bs) as [[Hb _]|[Hn _]].
  - destruct (supply_good a bs r Hb) as (c & _ & He). rewrite He in Hs. injection Hs as <-.
    split_and!; [done..|]. intros x Hx. apply Hc. cbn [cache]. destruct (decide (a = x)) as [->|Hne].
    + left. by rewrite lookup_insert_eq.
    + rewrite lookup_insert_ne by done. rewrite elem_of_cons in Hx. naive_solver.
  - destruct (supply_bad a bs r Hn) as (e & He). by rewrite He in Hs.
Qed.

(** A round in which everything went well brings the end nearer. *)
Lemma round_progress r r1 r2 :
  is_complete r = false -> supplied_with (required_addresses r) r r1 -> advance r1 = (r2, Ok tt) ->
  (rounds_left r2 < rounds_left r)%nat.
Proof.
  intros Hnc (Hm & Hr & Hc) Ha.
  assert (required_addresses r1 = []) as Hreq.
  { apply required_nil. rewrite Hm. intros a Hin. apply Hc. destruct (cache r !! a) eqn:E; [by left|right].
    unfold required_addresses. by apply list_elem_of_filter. }
  unfold advance in Ha. rewrite Hreq, Hr, bool_decide_true in Ha by done. unfold rounds_left. rewrite Hnc.
  destruct (root_resolved r) eqn:Hrr; cbn [orb negb] in Ha.
  - injection Ha as <-. unfold is_complete. rewrite Hr, bool_decide_true by done. cbn. lia.
  - destruct (map_err _ _) as [root|e|]; [|done..]. injection Ha as <-. cbn [root_resolved].
    case_match; lia.
Qed.

Lemma supply_all_with serve l : forall r r1, supply_all serve l r = (r1, Ok tt) -> supplied_with l r r1.
Proof.
  induction l as [|a l IH]; intros r r1 Hs; [injection Hs as <-; apply supplied_nil|].
  cbn [supply_all] in Hs. unfold mbind, st_bind in Hs.
  destruct (supply a (serve a) r) as [r' [[]|e|]] eqn:E; [|done..]. eapply supplied_cons; [exact E|by apply IH].
Qed.

Lemma supply_all_total serve l : forall r, (supply_all serve l r).2 <> Panic.
Proof.
  induction l as [|a l IH]; intros r; [done|]. cbn [supply_all]. unfold mbind, st_bind.
  pose proof (supply_total a (serve a) r). destruct (supply a (serve a) r) as [r' [[]|e|]]; [apply IH|done|done].
Qed.

Lemma rounds_enough serve n : forall r, (rounds_left r <= n)%nat ->
  exists out, (forall m, rounds (n + m) serve r = Some out) /\ out <> Panic /\
    forall r', out = Ok r' -> is_complete r' = true.
Proof.
  induction n as [|n IH]; intros r Hn.
  - unfold rounds_left in Hn. destruct (is_complete r) eqn:E; [|destruct (root_resolved r); lia].
    exists (Ok r). split_and!; [intros m; destruct m; cbn [rounds Nat.add]; by rewrite E|done|by intros r' [= <-]].
  - cbn [rounds Nat.add]. destruct (is_complete r) eqn:E; [exists (Ok r); split_and!; [done..|by intros r' [= <-]]|].
    destruct (round serve r) as [r' out] eqn:Hr. unfold round, mbind, st_bind in Hr.
    pose proof (supply_all_total serve (required_addresses r) r) as Hp.
    destruct (supply_all serve (required_addresses r) r) as [r1 [[]|e|]] eqn:Hs;
      [|injection Hr as <- <-; by exists (Err e)|done].
    destruct out as [[]|e|]; [|by exists (Err e)|by pose proof (advance_total r1); rewrite Hr in H2].
    apply IH. pose proof (round_progress r r1 r' E (supply_all_with _ _ _ _ Hs) Hr). lia.
Qed.

Lemma cached_chunks serve r l cs :
  cached_from serve r -> Forall2 (fun a c => cache r !! a = Some c) l cs -> cs = List.map (chunk_of serve) l.
Proof.
  intros Hc HF. induction HF as [|a c l cs Ha HF IH]; [done|]. cbn. rewrite IH. f_equal.
  apply Hc in Ha. destruct c. cbn in Ha. by subst.
Qed.

Lemma all_cached serve r l :
  cached_from serve r -> (forall a, a ∈ l -> is_Some (cache r !! a)) ->
  Forall2 (fun a c => fetch_cached r a = Ok (content c)) l (List.map (chunk_of serve) l).
Proof.
  intros Hc Ha. induction l as [|a l IH]; constructor.
  - destruct (Ha a) as [c E]; [left|]. unfold fetch_cached. rewrite E. cbn. f_equal. by apply Hc.
  - apply IH. intros b Hb. apply Ha. by right.
Qed.

(** With a resolved root, one served round completes. *)
Lemma round_completes serve r :
  root_resolved r = true -> served serve (infos (r_map r)) -> cached_from serve r ->
  exists r', round serve r = (r', Ok tt) /\ r_map r' = r_map r /\ is_complete r' = true /\ cached_from serve r'.
Proof.
  intros Hrr Hs Hc. destruct (round_spec serve r Hs Hc) as (r' & Hm & Hrr' & Hcf & Hreq & ->).
  exists r'. unfold advance. rewrite Hrr', Hrr. cbn [orb]. do 2 (split; [done|]). split; [|done].
  unfold is_complete. rewrite Hrr', Hrr. by rewrite bool_decide_true.
Qed.

(** Of a child map whose wrapped map is a root, one served round finds that
    root. *)
Lemma round_resolves serve r bs root :
  root_resolved r = false -> is_child (r_map r) = true ->
  served serve (infos (r_map r)) -> cached_from serve r ->
  decrypt_level (r_map r) (List.map (chunk_of serve) (infos (r_map r))) = Ok bs ->
  data_map_inner bs = Ok root -> is_child root = false ->
  exists r', round serve r = (r', Ok tt) /\ r_map r' = root /\ root_resolved r' = true /\ cached_from serve r'.
Proof.
  intros Hrr Hch Hs Hc Hd Hp Hroot.
  destruct (round_spec serve r Hs Hc) as (r' & Hm & Hrr' & Hcf & Hreq & ->).
  unfold advance. rewrite Hrr', Hrr, Hreq. cbn [orb].
  rewrite bool_decide_true by done. cbn [negb].
  rewrite (get_root_one_level (r_map r') _ (List.map (chunk_of serve) (infos (r_map r))) bs root);
    [cbn [map_err]; by eexists|by rewrite Hm| |by rewrite Hm|done|done].
  rewrite Hm. apply all_cached; [done|]. rewrite <- Hm. by apply required_nil.
Qed.

Lemma complete_finish serve r :
  is_complete r = true -> cached_from serve r ->
  finish r = map_err (fun e => fmt ["decryption failed: "; e])
               (decrypt (r_map r) (List.map (chunk_of serve) (infos (r_map r)))).
Proof.
  intros Hcomp Hcf. destruct (finish_complete r Hcomp) as (cs & HF & ->).
  by rewrite (cached_chunks serve r _ _ Hcf HF).
Qed.

(** What [begin] and the rounds make of a map whose root is [root], given
    directly or wrapped once. *)
Lemma begin_fresh address bs r serve : begin address bs = Ok r -> cached_from serve r /\ root_resolved r = negb (is_child (r_map r)).
Proof.
  unfold begin. intros Hb. inv_res. split; [|done]. intros a c Ha. cbn [cache] in Ha. by apply lookup_empty_Some in Ha.
Qed.

Lemma rounds_last serve r root out :
  root_resolved r = true -> r_map r = root -> cached_from serve r -> served serve (infos root) ->
  decrypt root (List.map (chunk_of serve) (infos root)) = Ok out ->
  exists r', (forall n, rounds (S n) serve r = Some (Ok r')) /\ finish r' = Ok out.
Proof.
  intros Hrr Hm Hc Hserve Hout. destruct (is_complete r) eqn:Hcomp.
  - exists r. split; [intros n; cbn [rounds]; by rewrite Hcomp|].
    rewrite (complete_finish serve r Hcomp Hc), Hm. by rewrite Hout.
  - destruct (round_completes serve r Hrr) as (r' & Hr & Hm' & Hcomp' & Hc'); [by rewrite Hm|done|].
    exists r'. split; [intros n; cbn [rounds]; rewrite Hcomp, Hr; destruct n; cbn [rounds]; by rewrite Hcomp'|].
    rewrite (complete_finish serve r' Hcomp' Hc'), Hm', Hm. by rewrite Hout.
Qed.

(** A flat map is complete after one round (and then asks for no more). *)
Lemma rounds_flat address bs r0 serve out :
  begin address bs = Ok r0 -> is_child (r_map r0) = false -> served serve (infos (r_map r0)) ->
  decrypt (r_map r0) (List.map (chunk_of serve) (infos (r_map r0))) = Ok out ->
  exists r, (forall n, rounds (S n) serve r0 = Some (Ok r)) /\ finish r = Ok out.
Proof.
  intros Hbegin Hroot Hserve Hout. destruct (begin_fresh address bs r0 serve Hbegin) as [Hc0 Hr0].
  apply (rounds_last serve r0 (r_map r0)); [|done..]. by rewrite Hr0, Hroot.
Qed.

Lemma rounds_wrapped address bs r0 serve inner root out :
  begin address bs = Ok r0 -> is_child (r_map r0) = true -> is_child root = false ->
  decrypt_level (r_map r0) (List.map (chunk_of serve) (infos (r_map r0))) = Ok inner -> data_map_inner inner = Ok root ->
  served serve (infos (r_map r0)) -> served serve (infos root) ->
  decrypt root (List.map (chunk_of serve) (infos root)) = Ok out ->
  exists r1 r, round serve r0 = (r1, Ok tt) /\ r_map r1 = root /\
    (forall n, rounds (S (S n)) serve r0 = Some (Ok r)) /\ finish r = Ok out.
Proof.
  intros Hbegin Hch Hroot Hdec Hin Hserve0 Hserve Hout. destruct (begin_fresh address bs r0 serve Hbegin) as [Hc0 Hr0].
  assert (is_complete r0 = false) as Hcomp by (unfold is_complete; by rewrite Hr0, Hch).
  destruct (round_resolves serve r0 inner root) as (r1 & Hround & Hm1 & Hr1 & Hc1); [by rewrite Hr0, Hch|done..|].
  destruct (rounds_last serve r1 root out) as (r & Hr & Hf); [done..|].
  exists r1, r. do 2 (split; [done|]). split; [|done]. intros n.
  change (rounds (S (S n)) serve r0) with (if is_complete r0 then Some (Ok r0) else
    match round serve r0 with (self, Ok _) => rounds (S n) serve self | (_, Err e) => Some (Err e) | (_, Panic) => Some Panic end).
  by rewrite Hcomp, Hround.
Qed.

Lemma rounds_served address bs r0 serve root out :
  begin address bs = Ok r0 -> is_child root = false ->
  (r_map r0 = root \/
   is_child (r_map r0) = true /\ exists inner,
     decrypt_level (r_map r0) (List.map (chunk_of serve) (infos (r_map r0))) = Ok inner /\ data_map_inner inner = Ok root) ->
  served serve (infos (r_map r0)) -> served serve (infos root) ->
  decrypt root (List.map (chunk_of serve) (infos root)) = Ok out ->
  exists r, rounds 2 serve r0 = Some (Ok r) /\ finish r = Ok out.
Proof.
  intros Hbegin Hroot Hmap Hserve0 Hserve Hout. destruct Hmap as [Hm|(Hch & inner & Hdec & Hin)].
  - destruct (rounds_flat address bs r0 serve out) as (r & Hr & Hf); [done|by rewrite Hm..|]. exists r. by split.
  - destruct (rounds_wrapped address bs r0 serve inner root out) as (r1 & r & _ & _ & Hr & Hf); [done..|]. exists r. by split.
Qed.
End Rounds.

(** ** Properties *)

Section Properties.
Context `{Hex} `{Blake3} `{SelfEncryption} `{SL : !SelfEncryptionLaws}.

(** C11: whatever bytes are supplied, in whatever order, under whatever
    addresses, a retrieval that finishes returns the content published at its
    address: what the root data map reached from the address decrypts to, from
    chunks that hash to the addresses the map lists, all of it read from the
    bytes the retrieval was given.  Two retrievals of an address, and more
    generally any two ways of reading it, from whatever sources, give the same
    content, unless a byte string used in the one and a different one used in the
    other have the same BLAKE3 hash. *)
Theorem retrieval_integrity (address : arr 32) (bs : bytes) (r : Retrieval) (acts : list action) (out : bytes)
    (Hb : begin address bs = Ok r) (Hf : finish (run acts r) = Ok out) :
  content_of address out /\ content_from (bs :: supplied acts) address out /\
  (forall used out', content_from used address out' -> out = out' \/ collide (bs :: supplied acts) used) /\
  (forall bs' r' acts' out', begin address bs' = Ok r' -> finish (run acts' r') = Ok out' ->
   out = out' \/ collide (bs :: supplied acts) (bs' :: supplied acts')).
Proof.
  pose proof (retrieved address bs r acts out Hb Hf) as Hc. split_and!.
  - by eapply content_from_of.
  - exact Hc.
  - intros used out'. by apply content_or_collide.
  - intros bs' r' acts' out' Hb' Hf'. eapply content_or_collide; [exact Hc|by eapply retrieved].
Qed.

Lemma begin_total address bs : begin address bs <> Panic.
Proof.
  unfold begin. intros Hp. apply bind_Panic in Hp as [Hp|(c & _ & Hp)].
  { rewrite map_err_Panic in Hp. by apply verify_chunk_total in Hp. }
  apply bind_Panic in Hp as [Hp|(m & _ & Hp)]; [|done].
  rewrite map_err_Panic in Hp. by apply data_map_of_bytes_total in Hp.
Qed.

Lemma reassemble_total r : finish r <> Panic.
Proof.
  destruct (is_complete r) eqn:Hc.
  - destruct (finish_complete r Hc) as (cs & _ & ->). rewrite map_err_Panic. apply decrypt_total.
  - unfold finish. by rewrite Hc.
Qed.

(** [supply] takes bytes under an address exactly when they hash to it,
    which takes that address, and no other, off the list of required ones;
    otherwise it reports an error and changes nothing. *)
Theorem supply_verifies (a : arr 32) (bs : bytes) (r : Retrieval) :
  if decide (blake3_hash bs = a)
  then (supply a bs r).2 = Ok tt /\
       required_addresses (supply a bs r).1 = filter (fun b => b <> a) (required_addresses r)
  else exists e, supply a bs r = (r, Err e).
Proof.
  destruct (decide (blake3_hash bs = a)) as [Hb|Hb]; [|by apply supply_bad].
  destruct (supply_good a bs r Hb) as (c & Hcont & ->). split; [done|].
  unfold required_addresses. cbn [cache r_map]. rewrite list_filter_filter. apply list_filter_iff.
  intros b. cbn [fst cache]. rewrite lookup_insert_None. naive_solver.
Qed.

(** No operation of a retrieval panics, and [finish] reports a missing
    chunk only up front: once a retrieval is complete, it decrypts. *)
Theorem retrieval_total (address : arr 32) (bs : bytes) (r : Retrieval) :
  begin address bs <> Panic /\ (supply address bs r).2 <> Panic /\ (advance r).2 <> Panic /\
  finish r <> Panic /\
  (is_complete r = true -> exists cs, finish r =
     map_err (fun e => fmt ["decryption failed: "; e]) (decrypt (r_map r) cs)) /\
  (is_complete r = false ->
     finish r = Err "cannot finish: chunks missing or root map unresolved").
Proof.
  split; [|split; [|split; [|split; [|split]]]].
  - apply begin_total.
  - apply supply_total.
  - apply advance_total.
  - apply reassemble_total.
  - intros Hc. destruct (finish_complete r Hc) as (cs & _ & Hf). by exists cs.
  - intros Hc. unfold finish. by rewrite Hc.
Qed.

(** C12: when the requested chunks are served, a file behind a flat data map is
    complete after one round; behind a map wrapped once, the first round finds
    the root map and the retrieval is complete after the second (and further
    rounds change nothing).  Either way it decrypts to the content of the root
    map's chunks. *)
Theorem rounds_complete (address : arr 32) (bs : bytes) (r0 : Retrieval)
    (serve : arr 32 -> bytes) (root : DataMap) (out : bytes)
    (Hbegin : begin address bs = Ok r0)
    (Hroot : is_child root = false)
    (Hserve0 : served serve (infos (r_map r0)))
    (Hserve : served serve (infos root))
    (Hout : decrypt root (List.map (chunk_of serve) (infos root)) = Ok out) :
  (r_map r0 = root ->
   exists r, (forall n, rounds (1 + n) serve r0 = Some (Ok r)) /\ finish r = Ok out)
  /\ (forall inner, is_child (r_map r0) = true ->
      decrypt_level (r_map r0) (List.map (chunk_of serve) (infos (r_map r0))) = Ok inner ->
      data_map_inner inner = Ok root ->
      exists r1 r, round serve r0 = (r1, Ok tt) /\ r_map r1 = root /\
        (forall n, rounds (2 + n) serve r0 = Some (Ok r)) /\ finish r = Ok out).
Proof.
  split; [intros <-; by eapply rounds_flat|]. intros inner Hch Hdec Hin. by eapply rounds_wrapped.
Qed.

(** C13: two rounds decide: whatever is served, and however many rounds are
    allowed, a caller that goes on while the retrieval is incomplete stops after
    at most two, with a complete retrieval or with an error. *)
Theorem rounds_bounded (serve : arr 32 -> bytes) (r : Retrieval) :
  exists out, (forall n, rounds (2 + n) serve r = Some out) /\ out <> Panic /\
    forall r', out = Ok r' -> is_complete r' = true.
Proof.
  apply rounds_enough. unfold rounds_left. destruct (is_complete r), (root_resolved r); lia.
Qed.

(** C38: [advance] gives the root resolution only what is cached, so a map
    wrapped more than once does not resolve: if the wrapped map is itself a
    child, with a chunk that has not been supplied, [advance] fails and the
    retrieval stays as it is, still asking for nothing, so that every further
    round fails the same way. *)
Theorem nested_map_unresolved (r : Retrieval) (chunks : list EncryptedChunk) (inner : bytes) (m' : DataMap) (a : arr 32)
    (Hres : root_resolved r = false) (Hchild : is_child (r_map r) = true)
    (Hreq : required_addresses r = [])
    (Hchunks : Forall2 (fun a c => cache r !! a = Some c) (infos (r_map r)) chunks)
    (Hdec : decrypt_level (r_map r) chunks = Ok inner) (Hin : data_map_inner inner = Ok m')
    (Hchild' : is_child m' = true) (Ha : a ∈ infos m') (Hmiss : cache r !! a = None) :
  exists e, advance r = (r, Err e).
Proof.
  unfold advance. rewrite Hres, Hreq. cbn [orb]. rewrite bool_decide_true by done. cbn [negb].
  destruct (get_root_data_map (r_map r) (fetch_cached r)) as [root|e|] eqn:E; [exfalso|by eexists|exfalso].
  - apply get_root_Ok in E.
    inversion E as [? Hm|? cs bs m1 ? _ HF Hd Hp Hu]; [congruence|]. subst.
    assert (cs = chunks) as ->.
    { clear -HF Hchunks. revert cs HF. induction Hchunks as [|b c l chunks Hb HF' IH]; intros cs HF.
      - by apply Forall2_nil_inv_l in HF.
      - apply Forall2_cons_inv_l in HF as (c' & cs' & Hc' & HF & ->). rewrite (IH cs' HF). f_equal.
        unfold fetch_cached in Hc'. rewrite Hb in Hc'. cbn in Hc'. injection Hc' as Hc'.
        by destruct c, c'; cbn in Hc'; subst. }
    assert (m1 = m') as -> by congruence.
    inversion Hu as [? Hm|? cs bs' m2 ? _ HF' _ _ _]; [congruence|]. subst.
    apply (proj1 (list_elem_of_lookup _ _)) in Ha as [i Hi].
    destruct (Forall2_lookup_l _ _ _ _ _ HF' Hi) as (c & _ & Hc).
    unfold fetch_cached in Hc. by rewrite Hmiss in Hc.
  - apply get_root_total in E; [done|]. intros b. unfold fetch_cached. by destruct (cache r !! b).
Qed.
End Properties.

(** ** Witnesses *)

Module Witnesses.
Import ToyCrypto.
Local Existing Instance HexRef.hex_ref.

Definition chunk1 : bytes := [x68; x69].
Definition addr1 : arr 32 := digest chunk1.
(** A flat map naming one chunk, and a child map wrapping it. *)
Definition flat_bytes : bytes := x00 :: addr1.
Definition flat : toy_map := (false, [addr1]).
Definition wrapped_bytes : bytes := x01 :: digest flat_bytes.
Definition wrapped : toy_map := (true, [digest flat_bytes]).
(** A child map wrapping the child map. *)
Definition twice_bytes : bytes := x01 :: digest wrapped_bytes.
Definition twice : toy_map := (true, [digest wrapped_bytes]).

Definition serve (a : arr 32) : bytes :=
  if bool_decide (a = addr1) then chunk1 else
  if bool_decide (a = digest flat_bytes) then flat_bytes else wrapped_bytes.

Definition fresh (m : toy_map) : Retrieval :=
  {| r_map := m; root_resolved := negb m.1; cache := ∅ |}.

Lemma served_example l : l = [addr1] \/ l = [digest flat_bytes] -> served serve l.
Proof. intros [-> | ->] a Ha; apply list_elem_of_singleton in Ha as ->; by vm_compute. Qed.

Lemma begin_example m bs : toy_parse bs = Ok m -> begin (digest bs) bs = Ok (fresh m).
Proof.
  intros Hp. unfold begin. cbn [verify_chunk selfenc_toy]. rewrite bool_decide_true by done.
  cbn [map_err mbind result_bind data_map_of_bytes selfenc_toy]. by rewrite Hp.
Qed.

Lemma chunks_one (a : arr 32) : chunks 32 a = [arr_list a].
Proof.
  unfold chunks. rewrite arr_length. change (Z.to_nat 32) with 32%nat. cbn [chunks_fuel].
  pose proof (arr_length a) as Hl. destruct (arr_list a) as [|b l] eqn:E; [discriminate Hl|].
  rewrite take_ge, drop_ge by lia. reflexivity.
Qed.

Lemma toy_parse_one b (a : arr 32) : toy_parse (b :: a) = Ok (bool_decide (b = x01), [a]).
Proof. cbn [toy_parse]. rewrite chunks_one. cbn. by rewrite try_into_arr. Qed.

Lemma retrieval_integrity_witness :
  begin (digest flat_bytes) flat_bytes = Ok (fresh flat) /\ finish (run [Supply addr1 chunk1; Supply addr1 [x00]] (fresh flat)) = Ok chunk1 /\ content_of (digest flat_bytes) chunk1.
Proof.
  assert (begin (digest flat_bytes) flat_bytes = Ok (fresh flat)) as Hb by apply begin_example, toy_parse_one.
  assert (finish (run [Supply addr1 chunk1; Supply addr1 [x00]] (fresh flat)) = Ok chunk1) as Hf by (by vm_compute).
  split; [exact Hb|]. split; [exact Hf|].
  exact (proj1 (retrieval_integrity (SL := selfenc_toy_laws) _ flat_bytes _ _ _ Hb Hf)).
Defined.

Lemma supply_verifies_witness : exists e, supply addr1 [x00] (fresh flat) = (fresh flat, Err e).
Proof. exact (supply_verifies (SL := selfenc_toy_laws) addr1 [x00] (fresh flat)). Defined.

Lemma retrieval_total_witness : finish (fresh flat) <> Panic.
Proof. apply (retrieval_total (SL := selfenc_toy_laws) addr1 [x00] (fresh flat)). Defined.

Lemma rounds_complete_witness :
  (begin (digest flat_bytes) flat_bytes = Ok (fresh flat) /\
   exists r, (forall n, rounds (1 + n) serve (fresh flat) = Some (Ok r)) /\ finish r = Ok chunk1) /\
  (begin (digest wrapped_bytes) wrapped_bytes = Ok (fresh wrapped) /\
   exists r1 r, round serve (fresh wrapped) = (r1, Ok tt) /\ r_map r1 = flat /\
     (forall n, rounds (2 + n) serve (fresh wrapped) = Some (Ok r)) /\ finish r = Ok chunk1).
Proof.
  assert (begin (digest flat_bytes) flat_bytes = Ok (fresh flat)) as Hf by apply begin_example, toy_parse_one.
  assert (begin (digest wrapped_bytes) wrapped_bytes = Ok (fresh wrapped)) as Hb by apply begin_example, toy_parse_one.
  assert (served serve (infos flat)) as Hs by (apply served_example; by left).
  split; split; [exact Hf| |exact Hb|].
  - apply (rounds_complete (SL := selfenc_toy_laws) _ _ (fresh flat) serve flat chunk1 Hf); [done|exact Hs|exact Hs|by vm_compute|done].
  - apply (rounds_complete (SL := selfenc_toy_laws) _ _ (fresh wrapped) serve flat chunk1 Hb) with (inner := flat_bytes);
      [done|apply served_example; by right|exact Hs|by vm_compute|done|by vm_compute|apply toy_parse_one].
Defined.

Definition is_none {A} (o : option A) : bool := match o with Some _ => false | None => true end.

(** One round is not enough for a wrapped map, two are. *)
Lemma rounds_bounded_witness :
  is_none (rounds 1 serve (fresh wrapped)) = true /\ exists out, forall n, rounds (2 + n) serve (fresh wrapped) = Some out.
Proof.
  split; [|destruct (rounds_bounded (SL := selfenc_toy_laws) serve (fresh wrapped)) as (out & Hn & _); by exists out].
  vm_compute. reflexivity.
Defined.

Lemma nested_map_unresolved_witness :
  let r := (supply (digest wrapped_bytes) wrapped_bytes (fresh twice)).1 in
  required_addresses r = [] /\ exists e, advance r = (r, Err e).
Proof.
  cbv zeta.
  assert (required_addresses (supply (digest wrapped_bytes) wrapped_bytes (fresh twice)).1 = []) as Hr by (by vm_compute).
  split; [exact Hr|].
  apply (nested_map_unresolved (SL := selfenc_toy_laws) _ [{| content := wrapped_bytes |}] wrapped_bytes wrapped
           (digest flat_bytes)); [by vm_compute|by vm_compute|exact Hr| |by vm_compute|apply toy_parse_one|done| |by vm_compute].
  - constructor; [by vm_compute|constructor].
  - left.
Defined.
End Witnesses.
