(* ===== verification/Async.v ===== *)
(** * Futures, polling and a logic of ownership

    An [async fn] is a [task]: a tree of atomic sections separated by the
    points where the future may be pending.  [poll] runs a task as an executor
    does, without interruption, to its next pending point; events of the
    browser happen between polls.  Loops that wait for an unbounded number of
    events take a bound as fuel and stay pending when it is used up. *)

From S2P Require Import Prelude.

Section Task.
Context {S : Type}.

(** [Await k]: polled in a state where [k] gives [None], the future is
    pending; otherwise it goes on, in a changed state.  [Yield]: pending once. *)
Inductive task (A : Type) : Type :=
  | Done (r : res A)
  | Await (k : S -> option (S * task A))
  | Yield (t : task A).
#[global] Arguments Done {A} r.
#[global] Arguments Await {A} k.
#[global] Arguments Yield {A} t.

Fixpoint task_ind' {A} (P : task A -> Prop) (Hd : forall r, P (Done r))
    (Ha : forall k, (forall s s' t, k s = Some (s', t) -> P t) -> P (Await k))
    (Hy : forall t, P t -> P (Yield t)) (t : task A) : P t :=
  match t with
  | Done r => Hd r
  | Await k => Ha k (fun s s' t' H =>
      match k s as o return o = Some (s', t') -> P t' with
      | Some (s1, t1) => fun E =>
          eq_ind t1 P (task_ind' P Hd Ha Hy t1) t' (f_equal (fun o => match o with Some (_, t) => t | None => t1 end) E)
      | None => fun E => match E with end
      end H)
  | Yield t => Hy t (task_ind' P Hd Ha Hy t)
  end.

(** [t.await?] followed by the rest of the function. *)
Fixpoint task_bind_ {A B} (f : A -> task B) (t : task A) : task B :=
  match t with
  | Done (Ok a) => f a
  | Done (Err e) => Done (Err e)
  | Done Panic => Done Panic
  | Await k => Await (fun s =>
      match k s with
      | Some (s', t') => Some (s', task_bind_ f t')
      | None => None
      end)
  | Yield t => Yield (task_bind_ f t)
  end.

(** [match t.await { Ok(_) => .., Err(_) => .. }]: errors become values, panics
    go through. *)
Fixpoint attempt {A} (t : task A) : task (res A) :=
  match t with
  | Done Panic => Done Panic
  | Done r => Done (Ok r)
  | Await k => Await (fun s =>
      match k s with
      | Some (s', t') => Some (s', attempt t')
      | None => None
      end)
  | Yield t => Yield (attempt t)
  end.

(** Code between two awaits. *)
Definition atomic {A} (f : st S A) : task A :=
  Await (fun s => let '(s', r) := f s in Some (s', Done r)).

Definition pure {A} (r : res A) : task A := Done r.

(** A future that is never woken. *)
Definition hang {A} : task A := Await (fun _ => None).

(** Runs a task to its next pending point. *)
Fixpoint poll {A} (t : task A) (s : S) : S * task A :=
  match t with
  | Done r => (s, Done r)
  | Await k =>
      match k s with
      | Some (s', t') => poll t' s'
      | None => (s, Await k)
      end
  | Yield t => (s, t)
  end.

(** ** [join_all]

    Each wake-up polls some of the children, those that have been woken;
    [sched] lists them for every wake-up, in the order they are polled. *)

Fixpoint poll_all {A} (woken : list nat) (ts : list (task A)) (s : S) : S * list (task A) :=
  match woken with
  | [] => (s, ts)
  | i :: woken =>
      match ts !! i with
      | Some t => let '(s', t') := poll t s in poll_all woken (<[i := t']> ts) s'
      | None => poll_all woken ts s
      end
  end.

(** [None] while some child is pending; a child's panic is the caller's. *)
Fixpoint joined {A} (ts : list (task A)) : option (res (list (res A))) :=
  match ts with
  | [] => Some (Ok [])
  | Done Panic :: _ => Some Panic
  | Done r :: ts =>
      match joined ts with
      | Some (Ok rs) => Some (Ok (r :: rs))
      | o => o
      end
  | _ :: ts => match joined ts with Some Panic => Some Panic | _ => None end
  end.

Fixpoint join_all {A} (sched : list (list nat)) (ts : list (task A)) : task (list (res A)) :=
  match sched with
  | [] => hang
  | woken :: sched =>
      Await (fun s =>
        let '(s', ts') := poll_all woken ts s in
        Some (s', match joined ts' with
                  | Some r => Done r
                  | None => Yield (join_all sched ts')
                  end))
  end.
End Task.
Arguments task S A : clear implicits.

#[export] Instance task_ret S : MRet (task S) := fun A a => Done (Ok a).
#[export] Instance task_bind S : MBind (task S) := fun A B f t => task_bind_ f t.

(** Tasks that are pending only on the state. *)
Fixpoint prompt {S A} (t : task S A) : Prop :=
  match t with
  | Done _ => True
  | Await k => forall s, match k s with Some (_, t) => prompt t | None => True end
  | Yield _ => False
  end.

Lemma prompt_bind {S A B} (t : task S A) (f : A -> task S B) :
  prompt t -> (forall a, prompt (f a)) -> prompt (t ≫= f).
Proof.
  intros Ht Hf. unfold mbind, task_bind. induction t as [r|k IH|t IH] using task_ind'; cbn [task_bind_]; [|..|done].
  - destruct r; [apply Hf|done..].
  - intros s. specialize (Ht s). destruct (k s) as [[s' t']|] eqn:E; [|done]. by apply (IH s s' t' E).
Qed.

Lemma prompt_atomic {S A} (f : st S A) : prompt (atomic f).
Proof. intros s. by destruct (f s). Qed.

(** Polling, construct by construct. *)
Lemma poll_bind {S A B} (t : task S A) (f : A -> task S B) s :
  prompt t ->
  poll (t ≫= f) s =
  match poll t s with
  | (s', Done (Ok a)) => poll (f a) s'
  | (s', Done (Err e)) => (s', Done (Err e))
  | (s', Done Panic) => (s', Done Panic)
  | (s', t') => (s', t' ≫= f)
  end.
Proof.
  revert s. unfold mbind, task_bind. induction t as [r|k IH|t IH] using task_ind'; intros s Ht;
    cbn [task_bind_ poll]; [by destruct r|..|done].
  specialize (Ht s). destruct (k s) as [[s' t']|] eqn:E; [|done]. by apply (IH s s' t' E).
Qed.

Lemma poll_attempt {S A} (t : task S A) s :
  prompt t ->
  poll (attempt t) s =
  match poll t s with
  | (s', Done Panic) => (s', Done Panic)
  | (s', Done r) => (s', Done (Ok r))
  | (s', t') => (s', attempt t')
  end.
Proof.
  revert s. induction t as [r|k IH|t IH] using task_ind'; intros s Ht; cbn [attempt poll]; [by destruct r|..|done].
  specialize (Ht s). destruct (k s) as [[s' t']|] eqn:E; [|done]. by apply (IH s s' t' E).
Qed.

Lemma prompt_attempt {S A} (t : task S A) : prompt t -> prompt (attempt t).
Proof.
  intros Ht. induction t as [r|k IH|t IH] using task_ind'; cbn [attempt]; [by destruct r|..|done].
  intros s. specialize (Ht s). destruct (k s) as [[s' t']|] eqn:E; [|done]. by apply (IH s s' t' E).
Qed.

(** A task on a part of the state: the part [get] finds and [put] replaces. *)
Section Zoom.
Context {S C : Type} (get : S -> option C) (put : C -> S -> S).

Fixpoint zoom {A} (t : task C A) : task S A :=
  match t with
  | Done r => Done r
  | Await k => Await (fun s =>
      c ← get s;
      '(c', t') ← k c;
      Some (put c' s, zoom t'))
  | Yield t => Yield (zoom t)
  end.
End Zoom.

Lemma poll_zoom {S C A} (get : S -> option C) (put : C -> S -> S) (t : task C A) s c :
  (forall c s, get (put c s) = Some c) -> (forall c c' s, put c' (put c s) = put c' s) ->
  (forall c s, get s = Some c -> put c s = s) ->
  get s = Some c ->
  poll (zoom get put t) s = (put (poll t c).1 s, zoom get put (poll t c).2).
Proof.
  intros Hgp Hpp Hpg. revert s c. induction t as [r|k IH|t IH] using task_ind'; intros s c Hs; cbn [zoom poll].
  - cbn. by rewrite Hpg.
  - rewrite Hs. cbn [mbind option_bind]. destruct (k c) as [[c' t']|] eqn:E; cbn [mbind option_bind].
    + rewrite (IH c c' t' E (put c' s) c') by done. by rewrite Hpp.
    + cbn. by rewrite Hpg.
  - cbn. by rewrite Hpg.
Qed.

Lemma prompt_zoom {S C A} (get : S -> option C) (put : C -> S -> S) (t : task C A) :
  prompt t -> prompt (zoom get put t).
Proof.
  intros Ht. induction t as [r|k IH|t IH] using task_ind'; [done|..|done].
  intros s. destruct (get s) as [c|]; [|done]. cbn [mbind option_bind]. specialize (Ht c).
  destruct (k c) as [[c' t']|] eqn:E; [|done]. by apply (IH c c' t' E).
Qed.

(** ** Executions

    A system is a state and the tasks that have been spawned; a step polls one
    of them, is an event of the environment, or spawns one more. *)

Section Execution.
Context {S A : Type} (env : S -> S -> Prop) (program : task S A -> Prop).

Inductive sys_step : S * list (task S A) -> S * list (task S A) -> Prop :=
  | step_poll s ts i t s' t' :
      ts !! i = Some t -> poll t s = (s', t') -> sys_step (s, ts) (s', <[i := t']> ts)
  | step_env s ts s' : env s s' -> sys_step (s, ts) (s', ts)
  | step_spawn s ts t : program t -> sys_step (s, ts) (s, ts ++ [t]).

Inductive reachable (s0 : S) : S * list (task S A) -> Prop :=
  | reach_init : reachable s0 (s0, [])
  | reach_step c c' : reachable s0 c -> sys_step c c' -> reachable s0 c'.
End Execution.

(** ** The logic

    [I] is an invariant of the state and [G] a preorder along which it
    evolves.  Some parts of the state, the cells, can be owned: while a task
    owns cell [c] with the content [b], the state satisfies [cell c b], and no
    other task changes that.  What a task may rely on, and what it must
    guarantee to the others, follows from the cells it owns. *)

Section Logic.
Context {S V : Type} (I : S -> Prop) (G : S -> S -> Prop) (cell : nat -> V -> S -> Prop).
Context `{GP : !PreOrder G}.
#[local] Abbreviation own := (gmap nat V).

Definition held (o : own) (s : S) : Prop := forall c b, o !! c = Some b -> cell c b s.

(** A step from ownership [o] to [o'] keeps the cells of the others and takes
    only cells nobody owns. *)
Definition guar (o o' : own) (s s' : S) : Prop :=
  G s s' /\
  (forall c b, o !! c = None -> o' !! c = None -> cell c b s -> cell c b s') /\
  (forall c b b', o !! c = None -> o' !! c = Some b -> ~ cell c b' s).

(** [safe s0 o t Q]: started from any state after [s0] while owning [o], the
    task keeps the invariant, guarantees what it must at every step, does not
    panic, and its result satisfies [Q], for a part of what it owns then. *)
Fixpoint safe {A} (s0 : S) (o : own) (t : task S A) (Q : res A -> own -> S -> Prop) : Prop :=
  match t with
  | Done r => forall s, G s0 s -> I s -> held o s -> r <> Panic /\ exists o', o' ⊆ o /\ Q r o' s
  | Await k => forall s, G s0 s -> I s -> held o s ->
      match k s with
      | Some (s', t') => exists o', I s' /\ held o' s' /\ guar o o' s s' /\ safe s' o' t' Q
      | None => True
      end
  | Yield t => safe s0 o t Q
  end.

Lemma guar_refl o s : guar o o s s.
Proof. split; [done|]. split; [done|]. intros c b b' H1 H2. congruence. Qed.

Lemma guar_trans o1 o2 o3 s1 s2 s3 : guar o1 o2 s1 s2 -> guar o2 o3 s2 s3 -> guar o1 o3 s1 s3.
Proof.
  intros (HG & Hk & Ht) (HG' & Hk' & Ht'). split; [by etrans|]. split.
  - intros c b H1 H3 Hc. destruct (o2 !! c) as [b2|] eqn:H2; [by edestruct Ht|]. eauto.
  - intros c b b' H1 H3 Hc. destruct (o2 !! c) as [b2|] eqn:H2; [by eapply Ht|].
    eapply Ht'; [done..|]. by eapply Hk.
Qed.

Lemma held_subset o o' s : o' ⊆ o -> held o s -> held o' s.
Proof. intros Hsub Ho c b Hc. by eapply Ho, lookup_weaken. Qed.

Lemma guar_subset o1 o2 o' s s' : o1 ⊆ o2 -> guar o1 o' s s' -> guar o2 o' s s'.
Proof.
  intros Hsub (HG & Hk & Ht). assert (forall c, o2 !! c = None -> o1 !! c = None) as Hn.
  { intros c Hc. by eapply lookup_weaken_None. }
  split; [done|]. split; eauto.
Qed.

Lemma safe_mono {A} (t : task S A) s0 s1 o (Q Q' : res A -> own -> S -> Prop) :
  G s0 s1 -> (forall r o s, G s1 s -> I s -> held o s -> Q r o s -> Q' r o s) ->
  safe s0 o t Q -> safe s1 o t Q'.
Proof.
  revert s0 s1 o. induction t as [r|k IH|t IH] using task_ind'; intros s0 s1 o HG HQ.
  - intros Hr s Hs HI Ho. destruct (Hr s) as (Hp & o' & Hsub & Hq); [by etrans|done..|]. split; [done|].
    exists o'. split; [done|]. apply HQ; [done..|by eapply held_subset|done].
  - intros Hk s Hs HI Ho. specialize (Hk s (transitivity HG Hs) HI Ho).
    destruct (k s) as [[s' t']|] eqn:E; [|done]. destruct Hk as (o' & HI' & Ho' & Hg & Hsafe).
    exists o'. do 3 (split; [done|]). eapply IH; [done| |..|exact Hsafe]; [reflexivity|].
    intros r o2 s2 Hs2. apply HQ. destruct Hg as (HG' & _ & _). by do 2 (etrans; [eassumption|]).
  - by apply IH.
Qed.

(** What holds from every later state holds from now. *)
Lemma safe_later {A} (t : task S A) s0 o Q :
  (forall s, G s0 s -> I s -> held o s -> safe s o t Q) -> safe s0 o t Q.
Proof.
  induction t as [r|k IH|t IH] using task_ind'; cbn; intros Hs; [..|by apply IH];
    intros s H1 H2 H3; by apply (Hs s).
Qed.

(** Owning more does not hurt. *)
Lemma safe_subset {A} (t : task S A) s0 o o' Q : o' ⊆ o -> safe s0 o' t Q -> safe s0 o t Q.
Proof.
  revert s0 o o'. induction t as [r|k IH|t IH] using task_ind'; intros s0 o o' Hsub.
  - intros Hr s H1 H2 H3. destruct (Hr s H1 H2 (held_subset _ _ _ Hsub H3)) as (Hp & o2 & Ho2 & HQ).
    split; [done|]. exists o2. split; [by etrans|done].
  - intros Hk s H1 H2 H3. specialize (Hk s H1 H2 (held_subset _ _ _ Hsub H3)).
    destruct (k s) as [[s' t']|]; [|done]. destruct Hk as (o2 & HI & Ho & Hg & Hs).
    exists o2. do 2 (split; [done|]). split; [by eapply guar_subset|done].
  - by apply IH.
Qed.

Lemma safe_bind {A B} (t : task S A) (f : A -> task S B) s0 o Q Q' :
  safe s0 o t Q' ->
  (forall a o s, G s0 s -> I s -> held o s -> Q' (Ok a) o s -> safe s o (f a) Q) ->
  (forall e o s, G s0 s -> I s -> held o s -> Q' (Err e) o s -> Q (Err e) o s) ->
  safe s0 o (t ≫= f) Q.
Proof.
  intros Ht Hok Herr. unfold mbind, task_bind. revert s0 o Ht Hok Herr.
  induction t as [r|k IH|t IH] using task_ind'; intros s0 o Ht Hok Herr; cbn [task_bind_].
  - destruct r as [a|e|].
    + apply safe_later. intros s H1 H2 H3. destruct (Ht s H1 H2 H3) as (_ & o' & Hsub & HQ).
      eapply safe_subset; [exact Hsub|]. apply Hok; [done..|by eapply held_subset|done].
    + intros s H1 H2 H3. destruct (Ht s H1 H2 H3) as (_ & o' & Hsub & HQ). split; [done|].
      exists o'. split; [done|]. apply Herr; [done..|by eapply held_subset|done].
    + intros s H1 H2 H3. by destruct (Ht s).
  - intros s H1 H2 H3. specialize (Ht s H1 H2 H3).
    destruct (k s) as [[s' t']|] eqn:E; [|done]. destruct Ht as (o' & HI' & Ho' & Hg & Hsafe).
    exists o'. do 3 (split; [done|]). destruct Hg as (HG & _ & _).
    eapply IH; [done|done|..]; intros ? ? ? ?; [apply Hok|apply Herr]; by do 2 (etrans; [eassumption|]).
  - by apply IH.
Qed.

Lemma safe_attempt {A} (t : task S A) s0 o (Q : res (res A) -> own -> S -> Prop) :
  safe s0 o t (fun r o s => r <> Panic -> Q (Ok r) o s) -> safe s0 o (attempt t) Q.
Proof.
  revert s0 o. induction t as [r|k IH|t IH] using task_ind'; intros s0 o Ht; cbn [attempt].
  - destruct r as [a|e|]; intros s H1 H2 H3; destruct (Ht s H1 H2 H3) as (Hp & o' & Hsub & HQ); (split; [done|]);
      try done; exists o'; (split; [done|]); by apply HQ.
  - intros s H1 H2 H3. specialize (Ht s H1 H2 H3).
    destruct (k s) as [[s' t']|] eqn:E; [|done]. destruct Ht as (o' & HI' & Ho' & Hg & Hsafe).
    exists o'. do 3 (split; [done|]). by eapply IH.
  - by apply IH.
Qed.

Lemma safe_done {A} (r : res A) s0 (Q : res A -> own -> S -> Prop) :
  r <> Panic -> (forall s, G s0 s -> I s -> Q r ∅ s) -> safe s0 ∅ (Done r) Q.
Proof. intros Hp HQ s HG HI _. split; [done|]. exists ∅. split; [done|by apply HQ]. Qed.

(** Code between two awaits that touches no cell. *)
Lemma safe_atomic {A} (f : st S A) s0 o (Q : res A -> own -> S -> Prop) :
  (forall s, G s0 s -> I s -> held o s -> let '(s', r) := f s in
     I s' /\ G s s' /\ (forall c b, cell c b s -> cell c b s') /\ r <> Panic /\
     forall s'', G s' s'' -> I s'' -> held o s'' -> Q r o s'') ->
  safe s0 o (atomic f) Q.
Proof.
  intros Hf s H1 H2 H3. specialize (Hf s H1 H2 H3). cbn [atomic]. destruct (f s) as [s' r].
  destruct Hf as (HI & HG & Hc & Hp & HQ). exists o. split; [done|].
  split; [intros c b Hcb; by apply Hc, H3|]. split.
  - split; [done|]. split; [by auto|]. intros c b b' Hn Hs. congruence.
  - intros s'' Hs'' HI'' Ho''. split; [done|]. exists o. split; [done|]. by apply HQ.
Qed.

(** Owning less in the end. *)
Lemma safe_drop {A} (t : task S A) s0 o (Q Q' : res A -> own -> S -> Prop) :
  safe s0 o t Q -> (forall r o s, Q r o s -> exists o', o' ⊆ o /\ Q' r o' s) -> safe s0 o t Q'.
Proof.
  intros Ht HQ. revert s0 o Ht. induction t as [r|k IH|t IH] using task_ind'; intros s0 o Ht.
  - intros s H1 H2 H3. destruct (Ht s H1 H2 H3) as (Hp & o1 & Hsub & HQ1). split; [done|].
    destruct (HQ r o1 s HQ1) as (o2 & Hsub2 & HQ2). exists o2. split; [by etrans|done].
  - intros s H1 H2 H3. specialize (Ht s H1 H2 H3).
    destruct (k s) as [[s' t']|] eqn:E; [|done]. destruct Ht as (o' & HI' & Ho' & Hg & Hsafe).
    exists o'. do 3 (split; [done|]). by eapply IH.
  - by apply IH.
Qed.

(** What else is owned stays as it is. *)
Lemma safe_frame {A} (t : task S A) s0 o o2 (Q : res A -> own -> S -> Prop) :
  o ##ₘ o2 -> safe s0 o t Q ->
  safe s0 (o ∪ o2) t (fun r o' s => exists o1, o' = o1 ∪ o2 /\ Q r o1 s).
Proof.
  assert (forall o s, o ##ₘ o2 -> held (o ∪ o2) s -> held o s /\ held o2 s) as Hsplit.
  { intros o' s Hd Ho. split; intros c b Hc; apply Ho;
      [by apply lookup_union_Some_l|by rewrite lookup_union_r by (by eapply map_disjoint_Some_r)]. }
  revert s0 o. induction t as [r|k IH|t IH] using task_ind'; intros s0 o Hd Ht.
  - intros s H1 H2 H3. destruct (Hsplit o s Hd H3) as [Ho _]. destruct (Ht s H1 H2 Ho) as (Hp & o' & Hsub & HQ).
    split; [done|]. exists (o' ∪ o2). split; [|by exists o']. by apply map_union_mono_r.
  - intros s H1 H2 H3. destruct (Hsplit o s Hd H3) as [Ho Ho2]. specialize (Ht s H1 H2 Ho).
    destruct (k s) as [[s' t']|] eqn:E; [|done]. destruct Ht as (o' & HI & Ho' & (HG & Hk & Htk) & Hs).
    assert (o' ##ₘ o2) as Hd'.
    { apply map_disjoint_spec. intros c b b2 Hc Hc2. eapply (Htk c b b2); [|exact Hc|by apply Ho2].
      by eapply map_disjoint_Some_l. }
    exists (o' ∪ o2). split; [done|]. split; [|split; [split; [done|split]|by eapply IH]].
    + intros c b [Hc|[Hn Hc]]%lookup_union_Some_raw; [by apply Ho'|].
      apply Hk; [by eapply map_disjoint_Some_l|done|by apply Ho2].
    + intros c b [Hn _]%lookup_union_None [Hn' _]%lookup_union_None. by apply Hk.
    + intros c b b' [Hn Hn2]%lookup_union_None [Hc|[_ Hc]]%lookup_union_Some_raw; [by eapply Htk|congruence].
  - by apply IH.
Qed.

(** *** Tasks that own nothing before and after *)

Definition spec {A} (s0 : S) (t : task S A) (P : res A -> S -> Prop) : Prop :=
  safe s0 ∅ t (fun r o s => o = ∅ /\ P r s).

Lemma spec_mono {A} (t : task S A) s0 s1 (P P' : res A -> S -> Prop) :
  G s0 s1 -> (forall r s, G s1 s -> I s -> P r s -> P' r s) -> spec s0 t P -> spec s1 t P'.
Proof. intros HG HP. apply safe_mono; [done|]. intros r o s H1 H2 _ [-> H3]. split; [done|by apply HP]. Qed.

Lemma spec_no_panic {A} (t : task S A) s0 (P : res A -> S -> Prop) :
  spec s0 t P -> spec s0 t (fun r s => r <> Panic /\ P r s).
Proof.
  unfold spec. generalize (∅ : own) at 1 3. intros o. revert s0 o.
  induction t as [r|k IH|t IH] using task_ind'; intros s0 o Ht.
  - intros s H1 H2 H3. destruct (Ht s H1 H2 H3) as (Hp & o' & Hsub & -> & HP). split; [done|]. by exists ∅.
  - intros s H1 H2 H3. specialize (Ht s H1 H2 H3).
    destruct (k s) as [[s' t']|] eqn:E; [|done]. destruct Ht as (o' & HI & Ho & Hg & Hs).
    exists o'. do 3 (split; [done|]). by eapply IH.
  - by apply IH.
Qed.

Lemma spec_bind {A B} (t : task S A) (f : A -> task S B) s0 (P : res A -> S -> Prop) (Q : res B -> S -> Prop) :
  spec s0 t P ->
  (forall a s, G s0 s -> I s -> P (Ok a) s -> spec s (f a) Q) ->
  (forall e s, G s0 s -> I s -> P (Err e) s -> Q (Err e) s) ->
  spec s0 (t ≫= f) Q.
Proof.
  intros Ht Hok Herr. eapply safe_bind; [exact Ht|..].
  - intros a o s H1 H2 _ [-> H3]. by apply Hok.
  - intros e o s H1 H2 _ [-> H3]. split; [done|by apply Herr].
Qed.

Lemma spec_attempt {A} (t : task S A) s0 (P : res A -> S -> Prop) :
  spec s0 t P -> spec s0 (attempt t) (fun rr s => exists r, rr = Ok r /\ r <> Panic /\ P r s).
Proof.
  intros Ht. apply safe_attempt. eapply safe_mono; [reflexivity| |exact Ht].
  intros r o s _ _ _ [-> HP] Hp. split; [done|]. by exists r.
Qed.

Lemma spec_done {A} (r : res A) s0 (P : res A -> S -> Prop) :
  r <> Panic -> (forall s, G s0 s -> I s -> P r s) -> spec s0 (Done r) P.
Proof. intros Hp HP. apply safe_done; [done|]. intros s H1 H2. split; [done|by apply HP]. Qed.

Lemma spec_pure {A B} (r : res A) (f : A -> task S B) s0 (P : res B -> S -> Prop) :
  r <> Panic -> (forall a, r = Ok a -> spec s0 (f a) P) -> (forall e s, r = Err e -> P (Err e) s) ->
  spec s0 (pure r ≫= f) P.
Proof.
  intros Hp Hok Herr. destruct r as [a|e|]; [by apply Hok| |done]. apply spec_done; [done|]. intros s _ _. by apply Herr.
Qed.

Lemma spec_atomic {A B} (f : st S A) (g : A -> task S B) s0 (P : res B -> S -> Prop) :
  (forall s, G s0 s -> I s -> let '(s', r) := f s in
     I s' /\ G s s' /\ (forall c b, cell c b s -> cell c b s') /\
     match r with
     | Ok a => spec s' (g a) P
     | Err e => forall s'', G s' s'' -> I s'' -> P (Err e) s''
     | Panic => False
     end) ->
  spec s0 (atomic f ≫= g) P.
Proof.
  intros Hf s H1 H2 _. cbn [mbind task_bind task_bind_ atomic]. specialize (Hf s H1 H2).
  destruct (f s) as [s' r]. destruct Hf as (HI & HG & Hc & Hr). exists ∅. split; [done|].
  split; [intros c b Hcb; by rewrite lookup_empty in Hcb|].
  split; [split; [done|]; split; [by auto|]; intros c b b' _ Hs; by rewrite lookup_empty in Hs|].
  destruct r as [a|e|]; [exact Hr| |done]. cbn [task_bind_]. by apply spec_done.
Qed.

Lemma poll_safe {A} (t : task S A) s0 o s Q :
  safe s0 o t Q -> G s0 s -> I s -> held o s ->
  forall s' t', poll t s = (s', t') ->
  exists o', I s' /\ held o' s' /\ guar o o' s s' /\ safe s' o' t' Q.
Proof.
  revert s0 o s. induction t as [r|k IH|t IH] using task_ind'; intros s0 o s Ht H1 H2 H3 s' t' Hp; cbn [poll] in Hp.
  - injection Hp as <- <-. exists o. do 2 (split; [done|]). split; [apply guar_refl|].
    eapply safe_mono; [exact H1| |exact Ht]. done.
  - pose proof (Ht s H1 H2 H3) as Hk. destruct (k s) as [[s1 t1]|] eqn:E.
    + destruct Hk as (o1 & HI1 & Ho1 & Hg1 & Hsafe).
      destruct (IH s s1 t1 E s1 o1 s1 Hsafe ltac:(reflexivity) HI1 Ho1 _ _ Hp) as (o2 & HI2 & Ho2 & Hg2 & Hs2).
      exists o2. do 2 (split; [done|]). split; [by eapply guar_trans|done].
    + injection Hp as <- <-. exists o. do 2 (split; [done|]). split; [apply guar_refl|].
      eapply safe_mono; [exact H1| |exact Ht]. done.
  - injection Hp as <- <-. exists o. do 2 (split; [done|]). split; [apply guar_refl|].
    eapply safe_mono; [exact H1| |exact Ht]. done.
Qed.
(** ** Several tasks *)

Definition disjoint_owns (os : list own) : Prop :=
  forall i j o o' c, i <> j -> os !! i = Some o -> os !! j = Some o' -> o !! c = None \/ o' !! c = None.

Definition total (os : list own) : own := ⋃ os.

Lemma total_None os c : total os !! c = None <-> forall i o, os !! i = Some o -> o !! c = None.
Proof.
  unfold total. induction os as [|o os IH]; cbn.
  - rewrite lookup_empty. split; [|done]. intros _ i o Hi. by rewrite lookup_nil in Hi.
  - rewrite lookup_union_None, IH. split.
    + intros [Ho Hos] [|i] o' Hi; [by injection Hi as <-|by eapply Hos].
    + intros Hall. split; [by apply (Hall 0%nat)|]. intros i o' Hi. by apply (Hall (Datatypes.S i)).
Qed.

Lemma total_Some os c b : total os !! c = Some b -> exists i o, os !! i = Some o /\ o !! c = Some b.
Proof.
  unfold total. induction os as [|o os IH]; cbn; [by rewrite lookup_empty|].
  rewrite lookup_union_Some_raw. intros [Ho|[_ Hos]]; [by exists 0%nat, o|].
  destruct (IH Hos) as (i & o' & Hi & Hc). by exists (Datatypes.S i), o'.
Qed.

Lemma held_total os s i o : disjoint_owns os -> held (total os) s -> os !! i = Some o -> held o s.
Proof.
  intros Hd Ho Hi c b Hc. apply Ho. destruct (total os !! c) as [b'|] eqn:E.
  - apply total_Some in E as (j & o' & Hj & Hc'). destruct (decide (i = j)) as [<-|N]; [congruence|].
    destruct (Hd i j o o' c N Hi Hj); congruence.
  - rewrite total_None in E. by rewrite (E i o Hi) in Hc.
Qed.

(** Tasks that own disjoint cells. *)
Definition all_safe {A} (s : S) (ts : list (task S A)) (os : list own) (Q : res A -> own -> S -> Prop) : Prop :=
  Forall2 (fun t o => safe s o t Q) ts os /\ disjoint_owns os /\
  forall i o, os !! i = Some o -> held o s.

Lemma all_poll {A} (ts : list (task S A)) os s i t s' t' Q :
  all_safe s ts os Q -> I s -> ts !! i = Some t -> poll t s = (s', t') ->
  exists o', I s' /\ all_safe s' (<[i := t']> ts) (<[i := o']> os) Q /\
    guar (total os) (total (<[i := o']> os)) s s'.
Proof.
  intros (HF & Hd & Hh) HI Ht Hp.
  destruct (Forall2_lookup_l _ _ _ _ _ HF Ht) as (o & Ho & Hs).
  destruct (poll_safe t s o s Q Hs ltac:(reflexivity) HI (Hh i o Ho) s' t' Hp)
    as (o' & HI' & Ho' & (HG & Hk & Hg) & Hs').
  pose proof (lookup_lt_Some _ _ _ Ho) as Hlt.
  (* the cells of the other tasks stay theirs *)
  assert (forall j oj c b, i <> j -> os !! j = Some oj -> oj !! c = Some b ->
            o !! c = None /\ o' !! c = None /\ cell c b s') as Hother.
  { intros j oj c b Hij Hj Hc. pose proof (Hh j oj Hj c b Hc) as Hcell.
    destruct (Hd i j o oj c Hij Ho Hj) as [Hn|Hn]; [|congruence]. split; [done|].
    destruct (o' !! c) as [b'|] eqn:E; [by edestruct Hg|]. split; [done|]. by apply Hk. }
  exists o'. split; [done|]. split; [split; [|split]|].
  - apply Forall2_insert; [|done]. eapply Forall2_impl; [exact HF|].
    intros t1 o1. by apply safe_mono.
  - intros j1 j2 o1 o2 c Hne H1 H2.
    destruct (decide (i = j1)) as [<-|N1]; destruct (decide (i = j2)) as [<-|N2]; [done|..].
    + rewrite list_lookup_insert_eq in H1 by done. injection H1 as <-.
      rewrite list_lookup_insert_ne in H2 by done.
      destruct (o2 !! c) as [b|] eqn:E; [left|by right]. by apply (Hother j2 o2 c b).
    + rewrite list_lookup_insert_eq in H2 by done. injection H2 as <-.
      rewrite list_lookup_insert_ne in H1 by done.
      destruct (o1 !! c) as [b|] eqn:E; [right|by left]. by apply (Hother j1 o1 c b).
    + rewrite list_lookup_insert_ne in H1, H2 by done. by apply (Hd j1 j2).
  - intros j oj Hj. destruct (decide (i = j)) as [<-|N].
    + rewrite list_lookup_insert_eq in Hj by done. by injection Hj as <-.
    + rewrite list_lookup_insert_ne in Hj by done. intros c b Hc. by apply (Hother j oj c b).
  - split; [done|]. split.
    + intros c b Hc Hc' Hcell. apply Hk; [by apply (proj1 (total_None _ _) Hc i)| |done].
      apply (proj1 (total_None _ _) Hc' i). by rewrite list_lookup_insert_eq.
    + intros c b b' Hc Hc'. apply total_Some in Hc' as (j & oj & Hj & Hjc).
      destruct (decide (i = j)) as [<-|N].
      * rewrite list_lookup_insert_eq in Hj by done. injection Hj as <-.
        eapply Hg; [|done]. by apply (proj1 (total_None _ _) Hc i).
      * rewrite list_lookup_insert_ne in Hj by done.
        pose proof (proj1 (total_None _ _) Hc j oj Hj). congruence.
Qed.

Lemma all_poll_all {A} woken : forall (ts : list (task S A)) os s s' ts' Q,
  all_safe s ts os Q -> I s -> poll_all woken ts s = (s', ts') ->
  exists os', I s' /\ all_safe s' ts' os' Q /\ guar (total os) (total os') s s'.
Proof.
  induction woken as [|i woken IH]; intros ts os s s' ts' Q Hall HI Hp; cbn [poll_all] in Hp.
  - injection Hp as <- <-. exists os. do 2 (split; [done|]). apply guar_refl.
  - destruct (ts !! i) as [t|] eqn:Ht; [|by eapply IH].
    destruct (poll t s) as [s1 t1] eqn:E.
    destruct (all_poll ts os s i t s1 t1 Q Hall HI Ht E) as (o' & HI1 & Hall1 & Hg1).
    destruct (IH _ _ _ _ _ _ Hall1 HI1 Hp) as (os' & HI2 & Hall2 & Hg2).
    exists os'. do 2 (split; [done|]). by eapply guar_trans.
Qed.

(** When every child is done: their results. *)
Lemma all_joined {A} (ts : list (task S A)) os s (Q : res A -> S -> Prop) r :
  all_safe s ts os (fun r o s => o = ∅ /\ Q r s) -> I s -> joined ts = Some r ->
  exists rs, r = Ok rs /\ List.length rs = List.length ts /\
    forall s', G s s' -> I s' -> (forall i o, os !! i = Some o -> held o s') -> Forall (fun r => Q r s') rs.
Proof.
  intros (HF & _ & Hh) HI. revert r Hh. induction HF as [|t o ts os Ht HF IH]; intros r Hh Hj; cbn [joined] in Hj.
  - injection Hj as <-. exists []. split; [done|]. split; [done|]. constructor.
  - assert (held o s) as Ho by (by apply (Hh 0%nat)).
    assert (forall i o', os !! i = Some o' -> held o' s) as Hh' by (intros i; apply (Hh (Datatypes.S i))).
    destruct t as [rt|k|t]; cbn in Ht.
    + destruct (Ht s ltac:(reflexivity) HI Ho) as (Hp & _).
      destruct (joined ts) as [r'|] eqn:Hj'; [|by destruct rt].
      destruct (IH r' Hh' eq_refl) as (rs & -> & Hl & Hall).
      assert (r = Ok (rt :: rs)) as -> by (destruct rt; [by injection Hj..|done]).
      exists (rt :: rs). split; [done|]. split; [cbn; by rewrite Hl|].
      intros s' Hs' HI' Hh2. constructor.
      * destruct (Ht s' Hs' HI' (Hh2 0%nat _ eq_refl)) as (_ & o' & _ & _ & HQ). done.
      * apply Hall; [done..|]. intros i; apply (Hh2 (Datatypes.S i)).
    + exfalso. destruct (joined ts) as [[rs|e|]|]; try discriminate Hj.
      by destruct (IH Panic Hh' eq_refl) as (rs & [=] & _).
    + exfalso. destruct (joined ts) as [[rs|e|]|]; try discriminate Hj.
      by destruct (IH Panic Hh' eq_refl) as (rs & [=] & _).
Qed.

Lemma safe_join_owned {A} sched : forall (ts : list (task S A)) os s0 (Q : res A -> S -> Prop),
  Forall2 (fun t o => safe s0 o t (fun r o s => o = ∅ /\ Q r s)) ts os -> disjoint_owns os ->
  safe s0 (total os) (join_all sched ts)
    (fun r o s => o = ∅ /\ exists rs, r = Ok rs /\ List.length rs = List.length ts /\ Forall (fun r => Q r s) rs).
Proof.
  induction sched as [|woken sched IH]; intros ts os s0 Q HF Hd; [done|].
  intros s H1 HI Ho. cbn [join_all].
  assert (all_safe s ts os (fun r o s => o = ∅ /\ Q r s)) as Hall.
  { split; [|split; [done|]].
    - eapply Forall2_impl; [exact HF|]. intros t o. by apply safe_mono.
    - intros i o. by apply held_total. }
  destruct (poll_all woken ts s) as [s' ts'] eqn:Hp.
  destruct (all_poll_all woken ts os s s' ts' _ Hall HI Hp) as (os' & HI' & Hall' & Hg).
  assert (List.length ts' = List.length ts) as Hlen.
  { clear -Hp. revert ts s Hp. induction woken as [|i woken IH]; intros ts s Hp; cbn [poll_all] in Hp; [by injection Hp as _ <-|].
    destruct (ts !! i) as [t|]; [|by eapply IH]. destruct (poll t s) as [s1 t1]. rewrite (IH _ _ Hp).
    apply length_insert. }
  exists (total os'). split; [done|].
  assert (held (total os') s') as Hh.
  { intros c b Hc. apply total_Some in Hc as (i & o & Hi & Hc). destruct Hall' as (_ & _ & Hh). by eapply Hh. }
  split; [done|]. split; [done|].
  destruct (joined ts') as [r|] eqn:Hj.
  - destruct (all_joined ts' os' s' Q r Hall' HI' Hj) as (rs & -> & Hl & Hall2).
    intros s2 H2 HI2 Hh2. split; [done|]. exists ∅. split; [apply map_empty_subseteq|]. split; [done|].
    exists rs. split; [done|]. split; [congruence|]. apply Hall2; [done..|].
    intros i o. destruct Hall' as (_ & Hd' & _). by apply held_total.
  - destruct Hall' as (HF' & Hd' & _).
    change (safe s' (total os') (join_all sched ts') (fun r o s => o = ∅ /\ exists rs, r = Ok rs /\
      List.length rs = List.length ts /\ Forall (fun r => Q r s) rs)).
    rewrite <- Hlen. by apply IH.
Qed.

(** [join_all] of tasks that own nothing. *)
Lemma safe_join {A} sched (ts : list (task S A)) s0 (Q : res A -> S -> Prop) :
  Forall (fun t => safe s0 ∅ t (fun r o s => o = ∅ /\ Q r s)) ts ->
  safe s0 ∅ (join_all sched ts)
    (fun r o s => o = ∅ /\ exists rs, r = Ok rs /\ List.length rs = List.length ts /\ Forall (fun r => Q r s) rs).
Proof.
  intros HF. assert (total (replicate (List.length ts) ∅) = ∅) as Ht.
  { apply map_eq. intros c. rewrite lookup_empty, total_None. intros i o Hi.
    apply lookup_replicate in Hi as [-> _]. apply lookup_empty. }
  rewrite <- Ht at 1. apply safe_join_owned.
  - apply Forall2_same_length_lookup_2; [by rewrite length_replicate|].
    intros i t o Hti Ho. apply lookup_replicate in Ho as [-> _]. by eapply Forall_lookup_1 in HF.
  - intros i j o o' c _ Hi _. apply lookup_replicate in Hi as [-> _]. left. apply lookup_empty.
Qed.
Lemma spec_join {A} sched (ts : list (task S A)) s0 (P : res A -> S -> Prop) :
  Forall (fun t => spec s0 t P) ts ->
  spec s0 (join_all sched ts) (fun r s => exists rs, r = Ok rs /\ List.length rs = List.length ts /\ Forall (fun r => P r s) rs).
Proof. apply safe_join. Qed.

(** ** Adequacy *)

Section Adequacy.
Context {A : Type} (env : S -> S -> Prop) (program : task S A -> Prop) (Q : res A -> S -> Prop) (s0 : S).
Context (Henv : forall s s', env s s' -> I s -> I s' /\ G s s' /\ forall c b, cell c b s -> cell c b s').
Context (Hprog : forall s t, G s0 s -> I s -> program t -> safe s ∅ t (fun r o s => o = ∅ /\ Q r s)).

Let Qo : res A -> own -> S -> Prop := fun r o s => o = ∅ /\ Q r s.

Lemma sys_step_safe s ts os s' ts' :
  G s0 s -> I s -> all_safe s ts os Qo -> sys_step env program (s, ts) (s', ts') ->
  exists os', I s' /\ G s s' /\ all_safe s' ts' os' Qo.
Proof.
  intros HG0 HI Hall Hstep. inversion Hstep as [? ? i t ? t' Ht Hp|? ? ? He|? ? t Ht]; subst.
  - destruct (all_poll ts os s i t s' t' Qo Hall HI Ht Hp) as (o' & HI' & Hall' & Hg).
    exists (<[i := o']> os). split; [done|]. split; [apply Hg|done].
  - destruct (Henv s s' He HI) as (HI' & HG & Hc). exists os. split; [done|]. split; [done|].
    destruct Hall as (HF & Hd & Hh). split; [|split; [done|]].
    + eapply Forall2_impl; [exact HF|]. intros t o. by apply safe_mono.
    + intros i o Ho c b Hcb. by eapply Hc, Hh.
  - exists (os ++ [∅]). split; [done|]. split; [done|]. destruct Hall as (HF & Hd & Hh). split; [|split].
    + apply Forall2_app; [done|]. constructor; [by apply Hprog|constructor].
    + intros i j o o' c Hne Hi Hj.
      apply lookup_app_Some in Hi as [Hi|[Hi1 Hi]]; [|apply list_lookup_singleton_Some in Hi as [_ <-]; left; apply lookup_empty].
      apply lookup_app_Some in Hj as [Hj|[Hj1 Hj]]; [|apply list_lookup_singleton_Some in Hj as [_ <-]; right; apply lookup_empty].
      by apply (Hd i j).
    + intros i o Hi. apply lookup_app_Some in Hi as [Hi|[Hi1 Hi]]; [by eapply Hh|].
      apply list_lookup_singleton_Some in Hi as [_ <-]. intros c b Hc. by rewrite lookup_empty in Hc.
Qed.

(** In every reachable configuration the invariant holds, and a task that is
    done has a result that satisfies its specification. *)
Lemma adequacy c :
  I s0 -> reachable env program s0 c ->
  I c.1 /\ G s0 c.1 /\ forall i r, c.2 !! i = Some (Done r) -> r <> Panic /\ Q r c.1.
Proof.
  intros HI0 Hr.
  assert (exists os, I c.1 /\ G s0 c.1 /\ all_safe c.1 c.2 os Qo) as (os & HI & HG & HF & _ & Hh).
  { induction Hr as [|[s ts] [s' ts'] Hr (os & HI & HG & Hall) Hstep].
    - exists []. split; [done|]. split; [done|]. split; [constructor|]. split; [by intros [] j o|by intros []].
    - destruct (sys_step_safe s ts os s' ts' HG HI Hall Hstep) as (os' & HI' & HG' & Hall').
      exists os'. split; [done|]. split; [by etrans|done]. }
  split; [done|]. split; [done|]. intros i r Hi.
  destruct (Forall2_lookup_l _ _ _ _ _ HF Hi) as (o & Ho & Hs).
  destruct (Hs c.1 ltac:(reflexivity) HI (Hh i o Ho)) as (Hp & o' & _ & _ & HQ). done.
Qed.
End Adequacy.
End Logic.

(** Only what the preorder relates matters. *)
Lemma safe_equivalent {S V A} I (G G' : S -> S -> Prop) (cell : nat -> V -> S -> Prop) (t : task S A) s0 o Q :
  (forall s s', G s s' <-> G' s s') -> safe I G cell s0 o t Q -> safe I G' cell s0 o t Q.
Proof.
  intros HG. revert s0 o. induction t as [r|k IH|t IH] using task_ind'; intros s0 o Ht.
  - intros s H1 H2 H3. apply HG in H1. by apply Ht.
  - intros s H1 H2 H3. apply HG in H1. specialize (Ht s H1 H2 H3).
    destruct (k s) as [[s' t']|] eqn:E; [|done]. destruct Ht as (o' & HI & Ho & (Hg & Hrest) & Hs).
    exists o'. do 2 (split; [done|]). split; [|by eapply IH]. split; [by apply HG|done].
  - by apply IH.
Qed.

(** ** One task in an environment *)

Section Runs.
Context {S A : Type} (env : S -> S -> Prop).

(** [runs s t s' r]: polled from [s] on, with events of the environment while
    it is pending, [t] ends with [r] in [s']. *)
Inductive runs : S -> task S A -> S -> res A -> Prop :=
  | run_done s t s' r : poll t s = (s', Done r) -> runs s t s' r
  | run_wait s t s1 t1 s2 s' r :
      poll t s = (s1, t1) -> rtc env s1 s2 -> runs s2 t1 s' r -> runs s t s' r.

Lemma runs_one t s r : (poll t s).2 = Done r -> runs s t (poll t s).1 r.
Proof. intros Hr. apply run_done. rewrite <- Hr. apply surjective_pairing. Qed.

Lemma runs_two t s p s2 r :
  poll t s = p -> rtc env p.1 s2 -> (poll p.2 s2).2 = Done r ->
  runs s t (poll p.2 s2).1 r.
Proof.
  intros <- He Hr. eapply run_wait; [apply surjective_pairing|exact He|]. by apply runs_one.
Qed.
End Runs.

(** *** Runs of a sequence *)

Lemma poll_bind_cases {S A B} (t : task S A) (f : A -> task S B) s :
  (exists a, (poll t s).2 = Done (Ok a) /\ poll (t ≫= f) s = poll (f a) (poll t s).1) \/
  poll (t ≫= f) s = ((poll t s).1, (poll t s).2 ≫= f).
Proof.
  unfold mbind, task_bind. revert s. induction t as [r|k IH|t IH] using task_ind'; intros s; cbn [poll task_bind_].
  - destruct r as [a|e|]; [left; by exists a|by right..].
  - destruct (k s) as [[s' t']|] eqn:E; [|by right]. exact (IH s s' t' E s').
  - by right.
Qed.

Lemma runs_poll {S A} (env : S -> S -> Prop) (t1 t2 : task S A) s1 s2 s' r :
  poll t1 s1 = poll t2 s2 -> runs env s1 t1 s' r -> runs env s2 t2 s' r.
Proof.
  intros Hp Hr. inversion Hr as [? ? ? ? Hd|? ? s3 t3 s4 ? ? Hd He Hrest]; subst.
  - apply run_done. by rewrite <- Hp.
  - eapply run_wait; [rewrite <- Hp; exact Hd|exact He|exact Hrest].
Qed.

Lemma runs_bind {S A B} (env : S -> S -> Prop) (t : task S A) (f : A -> task S B) s s' r :
  runs env s (t ≫= f) s' r ->
  (exists a s1, runs env s t s1 (Ok a) /\ runs env s1 (f a) s' r) \/
  (exists e, r = Err e /\ runs env s t s' (Err e)) \/ (r = Panic /\ runs env s t s' Panic).
Proof.
  remember (t ≫= f) as tf eqn:Htf. intros Hr. revert t Htf.
  induction Hr as [s tf s' r Hp|s tf s1 t1 s2 s' r Hp He Hr IH]; intros t ->;
    (destruct (poll_bind_cases t f s) as [(a & Ha & Hb)|Hb];
      [left; exists a, (poll t s).1; split; [by apply runs_one|];
       eapply (runs_poll env (t ≫= f)); [exact Hb|]; (by apply run_done) || (by eapply run_wait)|];
     rewrite Hp in Hb).
  - injection Hb as Hs Ht. destruct (poll t s) as [s1 t1] eqn:Hpt. cbn [fst snd] in *. subst s1.
    destruct t1 as [[a|e|]|k|t1]; [|right; left|right; right|done..]; cbn in Ht.
    + left. exists a, s'. split; [by apply run_done|]. apply run_done. rewrite <- Ht. done.
    + injection Ht as ->. exists e. split; [done|by apply run_done].
    + injection Ht as ->. split; [done|by apply run_done].
  - injection Hb as Hs Ht. destruct (poll t s) as [s3 t3] eqn:Hpt. cbn [fst snd] in *. subst s3.
    destruct (IH t3 Ht) as [(a & s3 & Ha & Hf)|[(e & -> & Ht3)|[-> Ht3]]]; [left|right; left|right; right].
    + exists a, s3. split; [by eapply run_wait|done].
    + exists e. split; [done|by eapply run_wait].
    + split; [done|by eapply run_wait].
Qed.

(** What is done stays done. *)
Lemma runs_done {S A} (env : S -> S -> Prop) s (t : task S A) s' r r1 :
  runs env s t s' r -> t = Done r1 -> r1 = r /\ rtc env s s'.
Proof.
  induction 1 as [s t s' r Hp|s t s3 t3 s5 s' r Hp He _ IH]; intros ->; injection Hp as <- <-; [done|].
  destruct (IH eq_refl) as [-> Hs]. split; [done|by etrans].
Qed.

(** An atomic step ends at once. *)
Lemma runs_atomic {S A} (env : S -> S -> Prop) (f : st S A) s s' r :
  runs env s (atomic f) s' r -> exists s1, f s = (s1, r) /\ rtc env s1 s'.
Proof.
  intros Hr. destruct (f s) as [s1 r1] eqn:Hf.
  destruct (runs_done env s1 (Done r1) s' r r1) as [-> Hs]; [|done|by exists s1].
  eapply runs_poll; [|exact Hr]. cbn. by rewrite Hf.
Qed.

Section RunsSafe.
Context {S V : Type} (I : S -> Prop) (G : S -> S -> Prop) (cell : nat -> V -> S -> Prop).
Context `{GP : !PreOrder G} {A : Type} (env : S -> S -> Prop).
Context (Henv : forall s s', env s s' -> I s -> I s' /\ G s s' /\ forall c b, cell c b s -> cell c b s').

Lemma rtc_env s s' :
  rtc env s s' -> I s -> I s' /\ G s s' /\ forall c b, cell c b s -> cell c b s'.
Proof.
  induction 1 as [s|s s1 s2 He _ IH]; intros HI; [done|].
  destruct (Henv s s1 He HI) as (HI1 & HG1 & Hc1). destruct (IH HI1) as (HI2 & HG2 & Hc2).
  split; [done|]. split; [by etrans|]. eauto.
Qed.

Lemma runs_safe (t : task S A) s s0 o s' r Q :
  safe I G cell s0 o t Q -> G s0 s -> I s -> held cell o s -> runs env s t s' r ->
  r <> Panic /\ I s' /\ G s s' /\ exists o', held cell o' s' /\ Q r o' s'.
Proof.
  intros Ht HG HI Ho Hr. revert s0 o Ht HG HI Ho.
  induction Hr as [s t s' r Hp|s t s1 t1 s2 s' r Hp He _ IH]; intros s0 o Ht HG HI Ho.
  - destruct (poll_safe I G cell t s0 o s Q Ht HG HI Ho s' _ Hp) as (o' & HI' & Ho' & (HG' & _) & Hs).
    destruct (Hs s' ltac:(reflexivity) HI' Ho') as (Hpn & o2 & Hsub & HQ).
    split; [done|]. split; [done|]. split; [done|]. exists o2. split; [by eapply held_subset|done].
  - destruct (poll_safe I G cell t s0 o s Q Ht HG HI Ho s1 _ Hp) as (o1 & HI1 & Ho1 & (HG1 & _) & Hs).
    destruct (rtc_env s1 s2 He HI1) as (HI2 & HG2 & Hc2).
    destruct (IH s1 o1 Hs HG2 HI2) as (Hpn & HI' & HG' & Hrest); [intros c b Hc; by apply Hc2, Ho1|].
    split; [done|]. split; [done|]. split; [by do 2 (etrans; [eassumption|])|done].
Qed.
End RunsSafe.

(** ** Zooming

    A specification of a task on a part carries over to the whole.  [up] maps
    what is owned of the part to what is owned of the whole; [P] is what else is
    known of the whole meanwhile. *)

Section ZoomSafe.
Context {S C V W : Type} (get : S -> option C) (put : C -> S -> S).
Context (I : S -> Prop) (G : S -> S -> Prop) (cell : nat -> V -> S -> Prop) `{GP : !PreOrder G}.
Context (I' : C -> Prop) (G' : C -> C -> Prop) (cell' : nat -> W -> C -> Prop) `{GP' : !PreOrder G'}.
Context (up : gmap nat W -> gmap nat V).
Context (up_mono : forall o o', o ⊆ o' -> up o ⊆ up o').
Context (P : S -> Prop) (P_stable : forall s0 s, P s0 -> G s0 s -> P s).
Context (get_stable : forall s0 s c0, P s0 -> G s0 s -> get s0 = Some c0 -> exists c, get s = Some c /\ G' c0 c).
Context (get_inv : forall s c o, I s -> held cell (up o) s -> get s = Some c -> I' c /\ held cell' o c).
Context (put_inv : forall s c c' o o',
  I s -> held cell (up o) s -> get s = Some c -> I' c' -> held cell' o' c' -> guar G' cell' o o' c c' ->
  I (put c' s) /\ held cell (up o') (put c' s) /\ guar G cell (up o) (up o') s (put c' s) /\
  get (put c' s) = Some c').

Lemma safe_zoom {A} (t : task C A) s0 c0 o (Q' : res A -> gmap nat W -> C -> Prop) (Q : res A -> gmap nat V -> S -> Prop) :
  P s0 -> get s0 = Some c0 -> safe I' G' cell' c0 o t Q' ->
  (forall r o s c, G s0 s -> I s -> get s = Some c -> held cell (up o) s -> Q' r o c -> Q r (up o) s) ->
  safe I G cell s0 (up o) (zoom get put t) Q.
Proof.
  revert s0 c0 o. induction t as [r|k IH|t IH] using task_ind'; intros s0 c0 o HP H0 Ht HQ; cbn [zoom].
  - intros s HG HI Ho. destruct (get_stable s0 s c0 HP HG H0) as (c & Hc & HG').
    destruct (get_inv s c o HI Ho Hc) as [HI' Ho'].
    destruct (Ht c HG' HI' Ho') as (Hp & o2 & Hsub & HQ2). split; [done|].
    exists (up o2). split; [by apply up_mono|]. apply (HQ r o2 s c); [done..| |done].
    eapply held_subset; [by apply up_mono|done].
  - intros s HG HI Ho. destruct (get_stable s0 s c0 HP HG H0) as (c & Hc & HG').
    destruct (get_inv s c o HI Ho Hc) as [HI' Ho'].
    rewrite Hc. cbn [mbind option_bind]. specialize (Ht c HG' HI' Ho').
    destruct (k c) as [[c' t']|] eqn:E; [|done]. cbn [mbind option_bind].
    destruct Ht as (o' & HI2 & Ho2 & Hg2 & Hs).
    destruct (put_inv s c c' o o' HI Ho Hc HI2 Ho2 Hg2) as (HI3 & Ho3 & Hg3 & Hget).
    exists (up o'). do 3 (split; [done|]). destruct Hg3 as (HG3 & _).
    eapply IH; [exact E| |exact Hget|exact Hs|].
    { eapply P_stable; [|exact HG3]. by eapply P_stable. }
    intros r o2 s2 c2 HG2. apply HQ. by do 2 (etrans; [eassumption|]).
  - by eapply IH.
Qed.
End ZoomSafe.

(** ** A state with one owner

    The whole private part [private] of the state is one cell, which exists
    while [opened]. *)

Section Owner.
Context {S V : Type} (I : S -> Prop) (G : S -> S -> Prop) `{GP : !PreOrder G}.
Context (opened : S -> Prop) (private : S -> V).

Definition private_cell (n : nat) (v : V) (s : S) : Prop := n = 0%nat /\ opened s /\ private s = v.
Definition owns (v : V) : gmap nat V := {[0%nat := v]}.
#[local] Abbreviation safe := (safe I G private_cell).

Lemma held_owns v s : held private_cell (owns v) s <-> opened s /\ private s = v.
Proof.
  unfold held, owns, private_cell. split.
  - intros Hh. by apply (Hh 0%nat v), lookup_singleton_eq.
  - intros Hv c b. rewrite lookup_singleton_Some. by intros [<- <-].
Qed.

(** The owner changes what it owns as it likes. *)
Lemma guar_owns v o' s s' : G s s' -> (forall c b, o' !! c = Some b -> c = 0%nat) ->
  guar G private_cell (owns v) o' s s'.
Proof.
  intros HG Ho'. split; [done|]. unfold owns, private_cell. split.
  - intros c b Hc _ [-> _]. by rewrite lookup_singleton_eq in Hc.
  - intros c b b' Hc Hc' _. apply Ho' in Hc' as ->. by rewrite lookup_singleton_eq in Hc.
Qed.

Lemma owned_await {A} (k : S -> option (S * task S A)) s0 v (Q : res A -> gmap nat V -> S -> Prop) :
  (forall s, G s0 s -> I s -> opened s -> private s = v ->
     match k s with
     | Some (s', t') => I s' /\ opened s' /\ G s s' /\ safe s' (owns (private s')) t' Q
     | None => True
     end) ->
  safe s0 (owns v) (Await k) Q.
Proof.
  intros Hk s HG HI Ho. apply held_owns in Ho as [Ho Hv]. specialize (Hk s HG HI Ho Hv).
  destruct (k s) as [[s' t']|]; [|done]. destruct Hk as (HI' & Ho' & HG' & Hs).
  exists (owns (private s')). split; [done|]. split; [by apply held_owns|].
  split; [|done]. apply guar_owns; [done|]. intros c b. unfold owns. rewrite lookup_singleton_Some. by intros [<- _].
Qed.

(** The owner lets go. *)
Lemma owned_release {A} (k : S -> option (S * task S A)) s0 v (Q : res A -> gmap nat V -> S -> Prop) :
  (forall s, G s0 s -> I s -> opened s -> private s = v ->
     match k s with
     | Some (s', t') => I s' /\ G s s' /\ safe s' ∅ t' Q
     | None => True
     end) ->
  safe s0 (owns v) (Await k) Q.
Proof.
  intros Hk s HG HI Ho. apply held_owns in Ho as [Ho Hv]. specialize (Hk s HG HI Ho Hv).
  destruct (k s) as [[s' t']|]; [|done]. destruct Hk as (HI' & HG' & Hs).
  exists ∅. split; [done|]. split; [intros c b Hc; by rewrite lookup_empty in Hc|].
  split; [|done]. apply guar_owns; [done|]. intros c b Hc. by rewrite lookup_empty in Hc.
Qed.

Lemma owned_done {A} (r : res A) s0 v (Q : res A -> gmap nat V -> S -> Prop) :
  r <> Panic -> (forall s, G s0 s -> I s -> opened s -> private s = v -> Q r (owns v) s) ->
  safe s0 (owns v) (Done r) Q.
Proof.
  intros Hp HQ s HG HI Ho. apply held_owns in Ho as [Ho Hv]. split; [done|]. exists (owns v).
  split; [done|by apply HQ].
Qed.

Lemma owned_atomic {A B} (f : st S A) (g : A -> task S B) s0 v (Q : res B -> gmap nat V -> S -> Prop) :
  (forall s, G s0 s -> I s -> opened s -> private s = v ->
     let '(s', r) := f s in
     I s' /\ opened s' /\ G s s' /\
     match r with
     | Ok a => safe s' (owns (private s')) (g a) Q
     | Err e => forall s'', G s' s'' -> I s'' -> opened s'' -> private s'' = private s' ->
                  Q (Err e) (owns (private s')) s''
     | Panic => False
     end) ->
  safe s0 (owns v) (atomic f ≫= g) Q.
Proof.
  intros Hf. cbn [mbind task_bind task_bind_ atomic]. apply owned_await. intros s HG HI Ho Hv.
  specialize (Hf s HG HI Ho Hv). destruct (f s) as [s' [a|e|]]; destruct Hf as (HI' & Ho' & HG' & Hr); [done|..|done].
  do 3 (split; [done|]). by apply owned_done.
Qed.
End Owner.
