(* ===== verification/Transport.v ===== *)
(** * The WebRTC transport ([src/webrtc.rs])

    The browser's objects are modelled by what the client can observe of them:
    the outcome of each call, which the environment chooses and may change
    between polls, what the client asked of them and what they handed to it. *)

From S2P Require Import Prelude Text Crates RefCrates Framing Sdp Async.

(** ** State *)

Inductive RtcDataChannelState : Type := Connecting | Open | Closing | Closed.

Definition state_debug (s : RtcDataChannelState) : string :=
  match s with
  | Connecting => "Connecting"
  | Open => "Open"
  | Closing => "Closing"
  | Closed => "Closed"
  end.

(** What a call into the browser gives: a value, or the [Debug] text of the
    exception. *)
Abbreviation js := (sum string).

(** [.map_err(|e| format!(..))] on such an outcome. *)
Definition js_result {A} (context : string) (o : js A) : res A :=
  match o with
  | inr a => Ok a
  | inl e => Err (fmt [context; e])
  end.

(** [RtcPeerConnection].  [js_*]: outcomes (a promise that is [None] is
    pending). *)
Record PeerConnection : Type := {
  js_new : js unit;
  js_random : js (arr 32);
  js_offer : option (js string);
  js_set_local : option (js unit);
  js_set_remote : option (js unit);
  gathered : bool;                      (* complete, or the 5 s cap has elapsed *)
  local_description : option string;
  (* what the client asked, and what it was handed *)
  ice_servers : list string;
  negotiated : option Z;                (* the id of a pre-negotiated channel *)
  local_sdp : option string;
  remote_sdp : option string;
  handed : list (arr 32 + string);      (* random bytes and offers it got, oldest first *)
}.

(** [RtcDataChannel]: a call to [send] throws [send_error] once [send_room]
    messages have been taken. *)
Record DataChannel : Type := {
  ready_state : RtcDataChannelState;
  notified : bool;                      (* opened, failed, or 15 s have elapsed *)
  send_room : nat;
  send_error : string;
  sent : list bytes;
}.

(** The receiving end of the [mpsc] channel the event handlers feed, with the
    dynamic borrow flag of its [RefCell]. *)
Record Receiver : Type := {
  queue : list bytes;
  closed : bool;
  borrowed : bool;
  installed : bool;                     (* the handlers are set *)
}.

Record Transport : Type := {
  pc : PeerConnection;
  dc : DataChannel;
  rx : Receiver;
  frame_buf : FrameBuf;
}.

Definition with_pc (p : PeerConnection) (t : Transport) : Transport :=
  {| pc := p; dc := dc t; rx := rx t; frame_buf := frame_buf t |}.
Definition with_dc (d : DataChannel) (t : Transport) : Transport :=
  {| pc := pc t; dc := d; rx := rx t; frame_buf := frame_buf t |}.
Definition with_rx (r : Receiver) (t : Transport) : Transport :=
  {| pc := pc t; dc := dc t; rx := r; frame_buf := frame_buf t |}.
Definition with_frame_buf (f : FrameBuf) (t : Transport) : Transport :=
  {| pc := pc t; dc := dc t; rx := rx t; frame_buf := f |}.

Definition with_queue (q : list bytes) (b : bool) (r : Receiver) : Receiver :=
  {| queue := q; closed := closed r; borrowed := b; installed := installed r |}.

(** ** Sending *)

(** [data_channel.send_with_u8_array(msg)] *)
Definition dc_send (msg : bytes) : st Transport unit := fun t =>
  match send_room (dc t) with
  | O => (t, Err (fmt ["DataChannel send: "; send_error (dc t)]))
  | S room =>
      (with_dc {| ready_state := ready_state (dc t); notified := notified (dc t); send_room := room;
                  send_error := send_error (dc t); sent := sent (dc t) ++ [msg] |} t, Ok tt)
  end.

Fixpoint send_all (msgs : list bytes) : st Transport unit :=
  match msgs with
  | [] => mret tt
  | msg :: msgs => _ ← dc_send msg; send_all msgs
  end.

Definition send_frame (payload : bytes) : st Transport unit :=
  send_all (split_messages (encode_frame payload)).

(** ** Receiving *)

(** The [onmessage] handler: data that is not an [ArrayBuffer] ([None]) is
    ignored, and so is everything after the channel is closed or before the
    handler is set. *)
Definition on_message (data : option bytes) (t : Transport) : Transport :=
  match data with
  | Some b =>
      if installed (rx t) && negb (closed (rx t))
      then with_rx {| queue := queue (rx t) ++ [b]; closed := closed (rx t);
                      borrowed := borrowed (rx t); installed := installed (rx t) |} t
      else t
  | None => t
  end.

(** The [onclose] handler. *)
Definition on_close (t : Transport) : Transport :=
  if installed (rx t)
  then with_rx {| queue := queue (rx t); closed := true;
                  borrowed := borrowed (rx t); installed := installed (rx t) |} t
  else t.

(** [self.frame_buf.borrow_mut().push(data)] *)
Definition take_frame (data : bytes) : st Transport (option bytes) := fun t =>
  let '(fb, r) := push data (frame_buf t) in (with_frame_buf fb t, r).

(** [self.receiver.borrow_mut()]: panics while another borrow is alive. *)
Definition borrow_receiver : st Transport unit := fun t =>
  if borrowed (rx t) then (t, Panic) else (with_rx (with_queue (queue (rx t)) true (rx t)) t, Ok tt).

(** [.next().await], then the borrow ends. *)
Definition next_ready (t : Transport) : option (Transport * task Transport (option bytes)) :=
  match queue (rx t) with
  | m :: q => Some (with_rx (with_queue q false (rx t)) t, Done (Ok (Some m)))
  | [] =>
      if closed (rx t)
      then Some (with_rx (with_queue [] false (rx t)) t, Done (Ok None))
      else None
  end.

(** The rest of an iteration, once the stream has answered. *)
Definition after_message (again : task Transport bytes) (raw : option bytes) : task Transport bytes :=
  match raw with
  | None => Done (Err "connection closed")
  | Some raw =>
      frame ← atomic (take_frame raw);
      match frame with
      | Some frame => mret frame
      | None => again
      end
  end.

Definition waiting (again : task Transport bytes) : task Transport bytes :=
  raw ← Await next_ready; after_message again raw.

(** The loop; [fuel] bounds the messages one call may consume. *)
Fixpoint recv_frame (fuel : nat) : task Transport bytes :=
  match fuel with
  | O => hang
  | S fuel =>
      frame ← atomic (take_frame []);
      match frame with
      | Some frame => mret frame
      | None =>
          _ ← atomic borrow_receiver;
          waiting (recv_frame fuel)
      end
  end.

(** ** Opening *)

Definition set_pc (f : PeerConnection -> PeerConnection) : st Transport unit :=
  fun t => (with_pc (f (pc t)) t, Ok tt).

Definition ask_ice_servers (l : list string) (p : PeerConnection) : PeerConnection :=
  {| js_new := js_new p; js_random := js_random p; js_offer := js_offer p; js_set_local := js_set_local p;
     js_set_remote := js_set_remote p; gathered := gathered p; local_description := local_description p;
     ice_servers := l; negotiated := negotiated p; local_sdp := local_sdp p; remote_sdp := remote_sdp p;
     handed := handed p |}.
Definition ask_negotiated (o : option Z) (p : PeerConnection) : PeerConnection :=
  {| js_new := js_new p; js_random := js_random p; js_offer := js_offer p; js_set_local := js_set_local p;
     js_set_remote := js_set_remote p; gathered := gathered p; local_description := local_description p;
     ice_servers := ice_servers p; negotiated := o; local_sdp := local_sdp p; remote_sdp := remote_sdp p;
     handed := handed p |}.
Definition ask_local (s : string) (p : PeerConnection) : PeerConnection :=
  {| js_new := js_new p; js_random := js_random p; js_offer := js_offer p; js_set_local := js_set_local p;
     js_set_remote := js_set_remote p; gathered := gathered p; local_description := local_description p;
     ice_servers := ice_servers p; negotiated := negotiated p; local_sdp := Some s; remote_sdp := remote_sdp p;
     handed := handed p |}.
Definition ask_remote (s : string) (p : PeerConnection) : PeerConnection :=
  {| js_new := js_new p; js_random := js_random p; js_offer := js_offer p; js_set_local := js_set_local p;
     js_set_remote := js_set_remote p; gathered := gathered p; local_description := local_description p;
     ice_servers := ice_servers p; negotiated := negotiated p; local_sdp := local_sdp p; remote_sdp := Some s;
     handed := handed p |}.

Definition hand_over (x : arr 32 + string) (p : PeerConnection) : PeerConnection :=
  {| js_new := js_new p; js_random := js_random p; js_offer := js_offer p; js_set_local := js_set_local p;
     js_set_remote := js_set_remote p; gathered := gathered p; local_description := local_description p;
     ice_servers := ice_servers p; negotiated := negotiated p; local_sdp := local_sdp p; remote_sdp := remote_sdp p;
     handed := handed p ++ [x] |}.

(** A call that answers at once, and a promise. *)
Definition call {A} (outcome : PeerConnection -> res A) : task Transport A :=
  atomic (fun t => (t, outcome (pc t))).

Definition promise {A} (outcome : PeerConnection -> option (res A)) : task Transport A :=
  Await (fun t => r ← outcome (pc t); Some (t, Done r)).

(** [getrandom(&mut [u8; 32])] and the promise of [create_offer]; what they
    give is noted. *)
Definition getrandom : task Transport (arr 32) :=
  atomic (fun t =>
    match js_result "getrandom: " (js_random (pc t)) with
    | Ok r => (with_pc (hand_over (inl r) (pc t)) t, Ok r)
    | Err e => (t, Err e)
    | Panic => (t, Panic)
    end).

Definition create_offer : task Transport string :=
  Await (fun t =>
    o ← js_offer (pc t);
    Some match js_result "createOffer: " o with
         | Ok offer => (with_pc (hand_over (inr offer) (pc t)) t, Done (Ok offer))
         | Err e => (t, Done (Err e))
         | Panic => (t, Done Panic)
         end).

(** [wait_for_open]: wakes on [onopen], [onerror] or the 15 s timeout. *)
Definition wait_for_open : task Transport unit :=
  opened ← atomic (fun t => (t, Ok (ready_state (dc t))));
  match opened with
  | Open => mret tt
  | _ =>
      _ ← Await (fun t => if notified (dc t) then Some (t, Done (Ok tt)) else None);
      atomic (fun t =>
        match ready_state (dc t) with
        | Open => (t, Ok tt)
        | s => (t, Err (fmt ["DataChannel did not open (state: "; state_debug s; ")"]))
        end)
  end.

Definition wait_for_ice_complete : task Transport unit :=
  Await (fun t => if gathered (pc t) then Some (t, Done (Ok tt)) else None).

(** [from_open]: a fresh channel and buffer, and the handlers. *)
Definition from_open : st Transport unit := fun t =>
  (with_frame_buf FrameBuf_new
     (with_rx {| queue := []; closed := false; borrowed := false; installed := true |} t), Ok tt).

Section Connect.
Context `{Hex} (unicode_upper2 : byte -> byte -> string).

(** [Transport::connect], on a transport that does not exist yet. *)
Definition connect (ip : string) (port : Z) (fingerprint_hex : string) : task Transport unit :=
  _ ← atomic (set_pc (ask_ice_servers []));
  _ ← call (fun p => js_result "RTCPeerConnection: " (js_new p));
  _ ← atomic (set_pc (ask_negotiated (Some 0)));
  ufrag_bytes ← getrandom;
  let ufrag := hex_encode (ufrag_bytes : arr 32) in
  offer ← create_offer;
  munged_sdp ← pure (munge_offer offer ufrag);
  _ ← atomic (set_pc (ask_local munged_sdp));
  _ ← promise (fun p => js_result "setLocalDescription: " <$> js_set_local p);
  let colon_fp := fingerprint_to_colon_form unicode_upper2 fingerprint_hex in
  let answer_sdp := server_answer ip port ufrag colon_fp in
  _ ← atomic (set_pc (ask_remote answer_sdp));
  _ ← promise (fun p => js_result "setRemoteDescription: " <$> js_set_remote p);
  _ ← wait_for_open;
  atomic from_open.

(** [Transport::connect_via_relay] up to the call of [exchange], and after
    it. *)
Definition relay_offer (stun : string) : task Transport string :=
  _ ← atomic (set_pc (ask_ice_servers [fmt ["stun:"; stun]]));
  _ ← call (fun p => js_result "RTCPeerConnection: " (js_new p));
  _ ← atomic (set_pc (ask_negotiated None));
  offer ← create_offer;
  _ ← atomic (set_pc (ask_local offer));
  _ ← promise (fun p => js_result "setLocalDescription: " <$> js_set_local p);
  _ ← wait_for_ice_complete;
  call (fun p => ok_or (local_description p) "no local description after gathering").

Definition relay_answer (answer_sdp : string) : task Transport unit :=
  _ ← atomic (set_pc (ask_remote answer_sdp));
  _ ← promise (fun p => js_result "setRemoteDescription: " <$> js_set_remote p);
  _ ← wait_for_open;
  atomic from_open.
End Connect.

(** ** Receiving, as the reading of one byte stream *)

(** The bytes received and not yet returned. *)
Definition stream (t : Transport) : bytes := buf (frame_buf t) ++ mjoin (queue (rx t)).

(** What a poll of a receiving task does, by the first frame of the stream;
    [left] is the fuel that remains if it has to wait. *)
Definition recv_result (left : nat) (t t' : Transport) (k : task Transport bytes) : Prop :=
  pc t' = pc t /\ dc t' = dc t /\ closed (rx t') = closed (rx t) /\ installed (rx t') = installed (rx t) /\
  match parse_frame (stream t) with
  | Frame p rest => k = Done (Ok p) /\ stream t' = rest /\ borrowed (rx t') = false
  | BadLength n =>
      k = Done (Err (frame_length_error n)) /\ stream t' = stream t /\ borrowed (rx t') = false
  | Incomplete =>
      stream t' = stream t /\ queue (rx t') = [] /\
      if closed (rx t) then k = Done (Err "connection closed") /\ borrowed (rx t') = false
      else k = waiting (recv_frame left) /\ borrowed (rx t') = true
  end.

Lemma poll_atomic {S A B} (f : st S A) (g : A -> task S B) s :
  poll (atomic f ≫= g) s =
  match f s with
  | (s', Ok a) => poll (g a) s'
  | (s', Err e) => (s', Done (Err e))
  | (s', Panic) => (s', Done Panic)
  end.
Proof. cbn. destruct (f s) as [s' [a|e|]]; done. Qed.

(** Reading [data] and then the queue is reading the stream. *)
Lemma take_frame_spec data t :
  take_frame data t =
  match parse_frame (buf (frame_buf t) ++ data) with
  | Incomplete => (with_frame_buf {| buf := buf (frame_buf t) ++ data |} t, Ok None)
  | BadLength n => (with_frame_buf {| buf := buf (frame_buf t) ++ data |} t, Err (frame_length_error n))
  | Frame p rest => (with_frame_buf {| buf := rest |} t, Ok (Some p))
  end.
Proof. unfold take_frame. rewrite push_parse. by destruct (parse_frame _). Qed.

(** The two states of the loop, one step at a time. *)
Lemma poll_recv_S n t :
  borrowed (rx t) = false ->
  poll (recv_frame (S n)) t =
  match parse_frame (buf (frame_buf t)) with
  | Incomplete => poll (waiting (recv_frame n)) (with_rx (with_queue (queue (rx t)) true (rx t)) t)
  | BadLength m => (t, Done (Err (frame_length_error m)))
  | Frame p rest => (with_frame_buf {| buf := rest |} t, Done (Ok p))
  end.
Proof.
  intros Hb. cbn [recv_frame]. rewrite poll_atomic, take_frame_spec, app_nil_r.
  assert (with_frame_buf {| buf := buf (frame_buf t) |} t = t) as Ht by (by destruct t as [? ? ? []]).
  rewrite Ht. destruct (parse_frame _); [|done..].
  rewrite poll_atomic. unfold borrow_receiver. by rewrite Hb.
Qed.

Lemma poll_waiting_step again t :
  poll (waiting again) t =
  match queue (rx t) with
  | [] =>
      if closed (rx t) then (with_rx (with_queue [] false (rx t)) t, Done (Err "connection closed"))
      else (t, waiting again)
  | m :: q =>
      let t1 := with_rx (with_queue q false (rx t)) t in
      match parse_frame (buf (frame_buf t) ++ m) with
      | Incomplete => poll again (with_frame_buf {| buf := buf (frame_buf t) ++ m |} t1)
      | BadLength n =>
          (with_frame_buf {| buf := buf (frame_buf t) ++ m |} t1, Done (Err (frame_length_error n)))
      | Frame p rest => (with_frame_buf {| buf := rest |} t1, Done (Ok p))
      end
  end.
Proof.
  unfold waiting. cbn [mbind task_bind task_bind_ poll]. unfold next_ready at 1.
  destruct (queue (rx t)) as [|m q] eqn:Hq.
  - destruct (closed (rx t)) eqn:Hc; [done|]. f_equal.
  - cbn [task_bind_ after_message]. rewrite poll_atomic, take_frame_spec. cbn [frame_buf with_rx].
    by destruct (parse_frame _).
Qed.

Lemma poll_waiting n : forall t,
  (List.length (queue (rx t)) <= n)%nat -> borrowed (rx t) = true ->
  parse_frame (buf (frame_buf t)) = Incomplete ->
  recv_result (n - List.length (queue (rx t))) t
    (poll (waiting (recv_frame n)) t).1 (poll (waiting (recv_frame n)) t).2.
Proof.
  induction n as [|n IH]; intros t Hl Hb Hi; rewrite poll_waiting_step; unfold recv_result, stream.
  all: destruct (queue (rx t)) as [|m q] eqn:Hq; cbn [List.length] in *; try lia.
  1, 2: rewrite app_nil_r, Hi; destruct (closed (rx t)) eqn:Hc; cbn; rewrite ?Hq, ?Hc, ?app_nil_r, ?Nat.sub_0_r;
    repeat (split; [done|]); done.
  cbn [mjoin list_join]. rewrite app_assoc. cbv zeta.
  destruct (parse_frame (buf (frame_buf t) ++ m)) as [|k|p rest] eqn:Hp.
  - set (t1 := with_frame_buf _ _).
    rewrite poll_recv_S by done. change (buf (frame_buf t1)) with (buf (frame_buf t) ++ m). rewrite Hp.
    specialize (IH (with_rx (with_queue (queue (rx t1)) true (rx t1)) t1) ltac:(cbn; lia) eq_refl Hp).
    unfold recv_result, stream in IH. cbn [frame_buf rx with_rx with_queue queue] in IH. exact IH.
  - rewrite (parse_bad_app _ _ _ Hp). split_and!; try done; cbn; by rewrite <- app_assoc.
  - rewrite (parse_frame_app _ _ _ _ Hp). done.
Qed.

Lemma poll_recv_frame n t :
  (List.length (queue (rx t)) < n)%nat -> borrowed (rx t) = false ->
  recv_result (n - 1 - List.length (queue (rx t))) t (poll (recv_frame n) t).1 (poll (recv_frame n) t).2.
Proof.
  intros Hl Hb. destruct n as [|n]; [lia|]. rewrite poll_recv_S by done.
  replace (S n - 1)%nat with n by lia. unfold recv_result, stream.
  destruct (parse_frame (buf (frame_buf t))) as [|k|p rest] eqn:Hp.
  - pose proof (poll_waiting n (with_rx (with_queue (queue (rx t)) true (rx t)) t) ltac:(cbn; lia) eq_refl Hp) as Hw.
    unfold recv_result, stream in Hw. cbn [frame_buf rx with_rx with_queue queue] in Hw. exact Hw.
  - rewrite (parse_bad_app _ _ _ Hp). done.
  - rewrite (parse_frame_app _ _ _ _ Hp). done.
Qed.

Lemma poll_waiting_queue n : forall t,
  (List.length (queue (rx (poll (waiting (recv_frame n)) t).1)) <= List.length (queue (rx t)))%nat.
Proof.
  induction n as [|n IH]; intros t; rewrite poll_waiting_step; destruct (queue (rx t)) as [|m q] eqn:Hq;
    try (destruct (closed (rx t)); cbn; rewrite ?Hq; cbn; lia); cbv zeta;
    (destruct (parse_frame (buf (frame_buf t) ++ m)) eqn:Hp; [|cbn; lia..]).
  - cbn. lia.
  - rewrite poll_recv_S by done. cbn [frame_buf with_frame_buf buf]. rewrite Hp.
    etrans; [apply IH|]. cbn. lia.
Qed.

Lemma poll_queue n t :
  borrowed (rx t) = false ->
  (List.length (queue (rx (poll (recv_frame n) t).1)) <= List.length (queue (rx t)))%nat.
Proof.
  intros Hb. destruct n as [|n]; [done|]. rewrite poll_recv_S by done.
  destruct (parse_frame _); [|done..]. etrans; [apply poll_waiting_queue|done].
Qed.

(** Nothing has arrived. *)
Definition idle_rx (b : bool) : Receiver := {| queue := []; closed := false; borrowed := b; installed := true |}.

Lemma poll_recv_idle n t :
  rx t = idle_rx false -> frame_buf t = FrameBuf_new ->
  poll (recv_frame (S n)) t = (with_rx (idle_rx true) t, waiting (recv_frame n)).
Proof.
  destruct t as [p d r f]. cbn [rx frame_buf]. intros -> ->. rewrite poll_recv_S by done.
  change (parse_frame (buf (frame_buf _))) with Incomplete. cbv iota. by rewrite poll_waiting_step.
Qed.

Lemma prompt_waiting again : prompt again -> prompt (waiting again).
Proof.
  intros Ha. apply prompt_bind.
  - intros t. unfold next_ready. destruct (queue (rx t)); [by destruct (closed (rx t))|done].
  - intros [m|]; [|done]. apply prompt_bind; [apply prompt_atomic|]. by intros [|].
Qed.

Lemma prompt_recv_frame n : prompt (recv_frame n).
Proof.
  induction n as [|n IH]; [done|]. apply prompt_bind; [apply prompt_atomic|]. intros [f|]; [done|].
  apply prompt_bind; [apply prompt_atomic|]. intros _. by apply prompt_waiting.
Qed.

(** ** Sending *)

Lemma send_all_spec msgs : forall t,
  send_all msgs t =
  if (List.length msgs <=? send_room (dc t))%nat
  then (with_dc {| ready_state := ready_state (dc t); notified := notified (dc t);
                   send_room := send_room (dc t) - List.length msgs;
                   send_error := send_error (dc t); sent := sent (dc t) ++ msgs |} t, Ok tt)
  else (with_dc {| ready_state := ready_state (dc t); notified := notified (dc t); send_room := 0;
                   send_error := send_error (dc t); sent := sent (dc t) ++ take (send_room (dc t)) msgs |} t,
        Err (fmt ["DataChannel send: "; send_error (dc t)])).
Proof.
  induction msgs as [|m msgs IH]; intros t; destruct t as [p [rs nt room err out] r f]; cbn [dc send_room send_all].
  - cbn. by rewrite Nat.sub_0_r, app_nil_r.
  - unfold mbind, st_bind, dc_send. cbn [dc send_room]. destruct room as [|room]; cbn.
    + by rewrite app_nil_r.
    + rewrite IH. cbn [dc with_dc send_room ready_state notified send_error sent].
      destruct (Nat.leb_spec (List.length msgs) room); cbn; by rewrite <- app_assoc.
Qed.

(** The messages of one frame: its bytes, in pieces the channel takes. *)
Lemma split_frame payload :
  mjoin (split_messages (encode_frame payload)) = encode_frame payload /\
  Forall (fun m => 0 < len m <= MAX_DC_MESSAGE_SIZE) (split_messages (encode_frame payload)).
Proof.
  unfold split_messages. split; [by apply chunks_concat|].
  apply chunks_sizes. done.
Qed.

(** Several frames one after the other. *)
Fixpoint send_frames (ps : list bytes) : st Transport unit :=
  match ps with
  | [] => mret tt
  | p :: ps => _ ← send_frame p; send_frames ps
  end.

Definition messages_of (ps : list bytes) : list bytes :=
  mjoin (map (fun p => split_messages (encode_frame p)) ps).

Lemma send_frames_spec ps : forall t,
  (List.length (messages_of ps) <= send_room (dc t))%nat ->
  exists t', send_frames ps t = (t', Ok tt) /\ sent (dc t') = sent (dc t) ++ messages_of ps /\
    rx t' = rx t /\ frame_buf t' = frame_buf t.
Proof.
  induction ps as [|p ps IH]; intros t Hl.
  - exists t. change (messages_of []) with (@nil bytes). by rewrite app_nil_r.
  - unfold messages_of in Hl. cbn [map mjoin list_join] in Hl. rewrite length_app in Hl.
    change (mjoin (map _ ps)) with (messages_of ps) in Hl.
    cbn [send_frames]. unfold mbind, st_bind, send_frame. rewrite send_all_spec.
    rewrite (proj2 (Nat.leb_le _ _)) by lia.
    match goal with |- context [send_frames ps ?t1] => destruct (IH t1) as (t' & -> & Hs & Hr & Hf) end.
    { cbn [dc with_dc send_room]. lia. }
    exists t'. split; [done|]. rewrite Hs. split; [|done]. cbn [dc with_dc sent].
    by rewrite <- app_assoc.
Qed.

Lemma messages_bytes ps : mjoin (messages_of ps) = mjoin (map encode_frame ps).
Proof.
  induction ps as [|p ps IH]; [done|].
  change (messages_of (p :: ps)) with (split_messages (encode_frame p) ++ messages_of ps).
  by rewrite join_app, IH, (proj1 (split_frame p)).
Qed.

(** ** Delivery *)

Definition deliver (ms : list bytes) (t : Transport) : Transport :=
  fold_left (fun t m => on_message (Some m) t) ms t.

Lemma stream_on_message m t :
  installed (rx t) = true -> closed (rx t) = false ->
  stream (on_message (Some m) t) = stream t ++ m.
Proof.
  intros Hi Hc. unfold on_message, stream. rewrite Hi, Hc. cbn.
  rewrite join_app. cbn. by rewrite app_nil_r, app_assoc.
Qed.

Lemma deliver_spec ms : forall t,
  installed (rx t) = true -> closed (rx t) = false ->
  stream (deliver ms t) = stream t ++ mjoin ms /\
  rx (deliver ms t) = {| queue := queue (rx t) ++ ms; closed := false; borrowed := borrowed (rx t); installed := true |} /\
  frame_buf (deliver ms t) = frame_buf t.
Proof.
  induction ms as [|m ms IH]; intros t Hi Hc; cbn [deliver fold_left].
  - cbn. rewrite !app_nil_r. split; [done|]. split; [|done]. destruct (rx t); cbn in *; by subst.
  - change (fold_left _ ms ?t1) with (deliver ms t1).
    destruct (IH (on_message (Some m) t)) as (Hs & Hr & Hf); [unfold on_message; by rewrite Hi, Hc..|].
    rewrite Hs, Hr, Hf, stream_on_message by done. unfold on_message. rewrite Hi, Hc. cbn.
    by rewrite <- !app_assoc.
Qed.

(** [n] receptions in a row, none of which has to wait. *)
Fixpoint recv_frames (fuel : nat) (n : nat) (t : Transport) : res (list bytes) * Transport :=
  match n with
  | O => (Ok [], t)
  | S n =>
      match poll (recv_frame fuel) t with
      | (t, Done (Ok p)) =>
          let '(r, t) := recv_frames fuel n t in (ps ← r; mret (p :: ps), t)
      | (t, Done (Err e)) => (Err e, t)
      | (t, Done Panic) => (Panic, t)
      | (t, _) => (Err "pending", t)
      end
  end.

(** ** Properties *)

(** C18: receiving is reading the byte stream: wherever the boundaries of the
    messages fall, a reception returns the first frame of what has arrived
    and leaves the rest; it waits exactly when there is no complete frame yet
    (and resumes where it was); it reports the end of the channel only when no
    complete frame is left, and an impossible length as soon as it is seen.
    A second reception started while one is waiting panics. *)
Theorem recv_frame_reads_stream (n : nat) (t : Transport) :
  ((List.length (queue (rx t)) < n)%nat -> borrowed (rx t) = false ->
   recv_result (n - 1 - List.length (queue (rx t))) t (poll (recv_frame n) t).1 (poll (recv_frame n) t).2) /\
  ((List.length (queue (rx t)) <= n)%nat -> borrowed (rx t) = true ->
   parse_frame (buf (frame_buf t)) = Incomplete ->
   recv_result (n - List.length (queue (rx t))) t
     (poll (waiting (recv_frame n)) t).1 (poll (waiting (recv_frame n)) t).2 /\
   (poll (recv_frame (S n)) t).2 = Done Panic).
Proof.
  split; [apply poll_recv_frame|]. intros Hl Hb Hi. split; [by apply poll_waiting|].
  cbn [recv_frame]. rewrite poll_atomic, take_frame_spec, app_nil_r, Hi, poll_atomic.
  unfold borrow_receiver. cbn [rx with_frame_buf]. by rewrite Hb.
Qed.

(** The frames of a stream are received in order. *)
Lemma recv_frames_spec ps : forall fuel t tail,
  Forall frame_ok ps -> (List.length (queue (rx t)) < fuel)%nat -> borrowed (rx t) = false ->
  stream t = mjoin (map encode_frame ps) ++ tail ->
  exists t', recv_frames fuel (List.length ps) t = (Ok ps, t') /\ stream t' = tail.
Proof.
  induction ps as [|p ps IH]; intros fuel t tail Hok Hf Hb Hs; cbn [List.length recv_frames].
  - by exists t.
  - inversion Hok as [|? ? Hp Hps]; subst.
    pose proof (poll_recv_frame fuel t Hf Hb) as (_ & _ & _ & _ & Hr).
    assert (parse_frame (stream t) = Frame p (mjoin (map encode_frame ps) ++ tail)) as Hpf.
    { rewrite Hs. cbn [map mjoin list_join]. rewrite <- app_assoc. by apply parse_encode. }
    rewrite Hpf in Hr. pose proof (poll_queue fuel t Hb) as Hq.
    destruct (poll (recv_frame fuel) t) as [t1 k]. cbn [fst snd] in *. destruct Hr as (-> & Hs1 & Hb1).
    destruct (IH fuel t1 tail Hps ltac:(lia) Hb1 Hs1) as (t' & -> & Ht'). by exists t'.
Qed.

(** C17: frames cross the channel whole: the payloads one side sends, each
    within the size limit, come out of the other side's receptions in order,
    however the bytes are cut into messages on the way; every message handed
    to the channel is non-empty and within the [DataChannel] limit. *)
Theorem frames_cross (ps : list bytes) (s r : Transport) (ms : list bytes) (fuel : nat)
    (Hps : Forall frame_ok ps)
    (Hroom : (List.length (messages_of ps) <= send_room (dc s))%nat)
    (Hr : rx r = {| queue := []; closed := false; borrowed := false; installed := true |})
    (Hfb : frame_buf r = FrameBuf_new)
    (Hms : mjoin ms = mjoin (drop (List.length (sent (dc s))) (sent (dc (send_frames ps s).1))))
    (Hfuel : (List.length ms < fuel)%nat) :
  (send_frames ps s).2 = Ok tt /\
  Forall (fun m => 0 < len m <= MAX_DC_MESSAGE_SIZE)
    (drop (List.length (sent (dc s))) (sent (dc (send_frames ps s).1))) /\
  exists r', recv_frames fuel (List.length ps) (deliver ms r) = (Ok ps, r') /\ stream r' = [].
Proof.
  destruct (send_frames_spec ps s Hroom) as (s' & Hsend & Hsent & _ & _).
  rewrite Hsend in *. cbn [fst snd] in *. rewrite Hsent, drop_app_length in *.
  split; [done|]. split.
  - clear. induction ps as [|p ps IH]; [constructor|].
    change (messages_of (p :: ps)) with (split_messages (encode_frame p) ++ messages_of ps).
    apply Forall_app. split; [apply split_frame|done].
  - destruct (deliver_spec ms r) as (Hstr & Hrx & Hf); [by rewrite Hr..|].
    apply (recv_frames_spec ps fuel (deliver ms r) []); [done|by rewrite Hrx, Hr|by rewrite Hrx, Hr|].
    rewrite Hstr, Hms, messages_bytes, app_nil_r. unfold stream. by rewrite Hr, Hfb.
Qed.

(** Receptions with deliveries between them. *)
Fixpoint attempts (fuel : nat) (batches : list (list bytes)) (t : Transport) : list (task Transport bytes) :=
  match batches with
  | [] => []
  | ms :: batches =>
      let '(t, k) := poll (recv_frame fuel) (deliver ms t) in k :: attempts fuel batches t
  end.

(** Once the first batch has completed an impossible length, every reception
    fails. *)
Lemma attempts_bad n fuel batches : forall ms t,
  parse_frame (stream t ++ mjoin ms) = BadLength n ->
  borrowed (rx t) = false -> installed (rx t) = true -> closed (rx t) = false ->
  (List.length (queue (rx t)) + List.length (mjoin (ms :: batches)) < fuel)%nat ->
  Forall (fun k => k = Done (Err (frame_length_error n))) (attempts fuel (ms :: batches) t).
Proof.
  induction batches as [|ms' batches IH]; intros ms t Hbad Hb Hi Hc Hfuel;
    change (mjoin (ms :: ?b)) with (ms ++ mjoin b) in Hfuel; rewrite length_app in Hfuel; cbn [attempts];
    destruct (deliver_spec ms t Hi Hc) as (Hs & Hrx & _);
    assert (List.length (queue (rx (deliver ms t))) = (List.length (queue (rx t)) + List.length ms)%nat) as Hq
      by (rewrite Hrx; apply length_app);
    pose proof (poll_recv_frame fuel (deliver ms t) ltac:(lia) ltac:(by rewrite Hrx)) as (_ & _ & Hc' & Hi' & Hres);
    pose proof (poll_queue fuel (deliver ms t) ltac:(by rewrite Hrx)) as Hq';
    rewrite Hs, Hbad in Hres;
    destruct (poll (recv_frame fuel) (deliver ms t)) as [t' k]; cbn [fst snd] in *;
    destruct Hres as (-> & Hs' & Hb').
  - by repeat constructor.
  - constructor; [done|]. apply (IH ms' t'); [|done|by rewrite Hi', Hrx|by rewrite Hc', Hrx|lia].
    rewrite Hs'. by apply parse_bad_app.
Qed.

Lemma parse_bad_frame p : ~ frame_ok p -> len p < 2 ^ 32 -> parse_frame (encode_frame p) = BadLength (len p).
Proof.
  intros Hp Hp32. unfold parse_frame. pose proof (len_nonneg p). rewrite len_encode_frame.
  rewrite (proj2 (Z.ltb_ge _ _)) by lia.
  unfold encode_frame. rewrite take_app_length' by (by rewrite length_be_bytes).
  rewrite be_val_bytes. change (8 * Z.of_nat 4) with 32. rewrite Z.mod_mod, Z.mod_small by lia.
  unfold frame_ok in Hp. destruct (Z.eqb_spec (len p) 0); [done|].
  destruct (Z.ltb_spec MAX_FRAME_SIZE (len p)); [done|]. lia.
Qed.

(** C37: a payload outside the size limits (empty, or longer than
    [MAX_FRAME_SIZE]) is sent without complaint: [send_frame] returns [Ok] as
    soon as there is room for its messages, all of which go out.  But the
    receiver those bytes reach, cut into messages in any way, does not take the
    payload, and its channel is dead: that reception and every later one,
    whatever arrives in between, reports the same length error.  More generally
    any channel on which an impossible length has arrived is dead in this way. *)
Theorem bad_length_poisons (p : bytes) (s r : Transport) (ms : list bytes) (batches : list (list bytes)) (fuel : nat)
    (Hp : ~ frame_ok p) (Hp32 : len p < 2 ^ 32)
    (Hroom : (List.length (split_messages (encode_frame p)) <= send_room (dc s))%nat)
    (Hr : rx r = {| queue := []; closed := false; borrowed := false; installed := true |})
    (Hfb : frame_buf r = FrameBuf_new)
    (Hms : mjoin ms = mjoin (drop (List.length (sent (dc s))) (sent (dc (send_frame p s).1))))
    (Hfuel : (List.length (mjoin (ms :: batches)) < fuel)%nat) :
  (send_frame p s).2 = Ok tt /\
  mjoin (drop (List.length (sent (dc s))) (sent (dc (send_frame p s).1))) = encode_frame p /\
  Forall (fun k => k = Done (Err (frame_length_error (len p)))) (attempts fuel (ms :: batches) r) /\
  (forall n t batches', parse_frame (stream t) = BadLength n ->
   borrowed (rx t) = false -> installed (rx t) = true -> closed (rx t) = false ->
   (List.length (queue (rx t)) + List.length (mjoin batches') < fuel)%nat ->
   Forall (fun k => k = Done (Err (frame_length_error n))) (attempts fuel batches' t)).
Proof.
  assert (send_frame p s = (with_dc {| ready_state := ready_state (dc s); notified := notified (dc s);
      send_room := send_room (dc s) - List.length (split_messages (encode_frame p));
      send_error := send_error (dc s); sent := sent (dc s) ++ split_messages (encode_frame p) |} s, Ok tt)) as Hsend.
  { unfold send_frame. by rewrite send_all_spec, (proj2 (Nat.leb_le _ _) Hroom). }
  rewrite Hsend in *. cbn [fst snd dc with_dc sent] in *. rewrite drop_app_length, (proj1 (split_frame p)) in *.
  do 2 (split; [done|]). split.
  - apply attempts_bad; [|by rewrite Hr..]. unfold stream. rewrite Hr, Hfb, Hms. by apply parse_bad_frame.
  - intros n t [|ms' batches'] Hbad Hb Hi Hc Hf; [constructor|]. apply attempts_bad; [by apply parse_bad_app|done..].
Qed.

(** ** What the owner of a transport relies on

    The environment brings messages and closes channels, and it chooses the
    outcomes of the browser's calls; the rest of a transport changes only by
    the hand of the task that owns it. *)

Record tpriv : Type := {
  p_asked : list string * option Z * option string * option string * list (arr 32 + string);
  p_sent : list bytes;
  p_borrowed : bool;
  p_installed : bool;
  p_buf : FrameBuf;
}.

Definition asked (p : PeerConnection) := (ice_servers p, negotiated p, local_sdp p, remote_sdp p, handed p).

Definition tprivate (t : Transport) : tpriv := {|
  p_asked := asked (pc t); p_sent := sent (dc t); p_borrowed := borrowed (rx t);
  p_installed := installed (rx t); p_buf := frame_buf t |}.

Inductive transport_env : Transport -> Transport -> Prop :=
  | env_message data t : transport_env t (on_message data t)
  | env_close t : transport_env t (on_close t)
  | env_outcomes t t' :
      tprivate t' = tprivate t -> queue (rx t') = queue (rx t) -> closed (rx t') = closed (rx t) ->
      transport_env t t'.

Lemma transport_env_private t t' : transport_env t t' -> tprivate t' = tprivate t.
Proof.
  destruct 1 as [[b|] t|t|]; [| done| |done].
  - unfold on_message. destruct (installed (rx t)) eqn:E; [|done].
    destruct (closed (rx t)); [done|]. unfold tprivate. cbn. by rewrite E.
  - unfold on_close. destruct (installed (rx t)) eqn:E; [|done]. unfold tprivate. cbn. by rewrite E.
Qed.

Abbreviation tcell := (private_cell (fun _ : Transport => True) tprivate).
Definition tinv (t : Transport) : Prop := True.
Abbreviation towns := (owns (V := tpriv)).

Lemma held_towns v t : held tcell (towns v) t <-> tprivate t = v.
Proof. rewrite held_owns. tauto. Qed.

Section Owner.
Context (G : Transport -> Transport -> Prop) `{GP : !PreOrder G}.
#[local] Abbreviation tsafe := (safe tinv G tcell).

(** The rules for the owner: what it sees is what it left. *)
Lemma towned_await {A} k t0 v (Q : res A -> gmap nat tpriv -> Transport -> Prop) :
  (forall t, G t0 t -> tprivate t = v ->
     match k t with
     | Some (t', k') => G t t' /\ tsafe t' (towns (tprivate t')) k' Q
     | None => True
     end) ->
  tsafe t0 (towns v) (Await k) Q.
Proof.
  intros Hk. apply owned_await. intros t HG _ _ Ht. specialize (Hk t HG Ht).
  destruct (k t) as [[t' k']|]; [|done]. by destruct Hk.
Qed.

Lemma towned_done {A} (r : res A) t0 v (Q : res A -> gmap nat tpriv -> Transport -> Prop) :
  r <> Panic -> (forall t, tprivate t = v -> Q r (towns v) t) -> tsafe t0 (towns v) (Done r) Q.
Proof. intros Hp HQ. apply owned_done; [done|]. intros t _ _ _. apply HQ. Qed.

Lemma towned_atomic {A B} (f : st Transport A) (g : A -> task Transport B) t0 v
    (Q : res B -> gmap nat tpriv -> Transport -> Prop) :
  (forall t, G t0 t -> tprivate t = v ->
     let '(t', r) := f t in
     G t t' /\
     match r with
     | Ok a => tsafe t' (towns (tprivate t')) (g a) Q
     | Err e => forall t'', tprivate t'' = tprivate t' -> Q (Err e) (towns (tprivate t')) t''
     | Panic => False
     end) ->
  tsafe t0 (towns v) (atomic f ≫= g) Q.
Proof.
  intros Hf. apply owned_atomic. intros t HG _ _ Ht. specialize (Hf t HG Ht).
  destruct (f t) as [t' [a|e|]]; destruct Hf as [HG' Hr]; [done|..|done].
  do 3 (split; [done|]). intros t'' _ _ _. apply Hr.
Qed.

(** A task that only looks at the environment. *)
Lemma towned_call {A B} (outcome : PeerConnection -> res A) (g : A -> task Transport B) t0 v
    (Q : res B -> gmap nat tpriv -> Transport -> Prop) :
  (forall p, outcome p <> Panic) ->
  (forall a t, tsafe t (towns v) (g a) Q) -> (forall e t, Q (Err e) (towns v) t) ->
  tsafe t0 (towns v) (call outcome ≫= g) Q.
Proof.
  intros Hp Hg He. apply towned_atomic. intros t _ Ht. split; [done|]. rewrite Ht.
  destruct (outcome (pc t)) eqn:E; [done|by intros|by apply Hp in E].
Qed.

Lemma towned_promise {A B} (outcome : PeerConnection -> option (res A)) (g : A -> task Transport B) t0 v
    (Q : res B -> gmap nat tpriv -> Transport -> Prop) :
  (forall p, outcome p <> Some Panic) ->
  (forall a t, tsafe t (towns v) (g a) Q) -> (forall e t, Q (Err e) (towns v) t) ->
  tsafe t0 (towns v) (promise outcome ≫= g) Q.
Proof.
  intros Hp Hg He. cbn [mbind task_bind task_bind_ promise]. apply towned_await. intros t _ Ht.
  destruct (outcome (pc t)) as [[a|e|]|] eqn:E; cbn; [..|done].
  - by rewrite Ht.
  - split; [done|]. rewrite Ht. by apply towned_done.
  - by apply Hp in E.
Qed.
End Owner.

(** ** Specifications for the owner *)

Definition with_p_buf (fb : FrameBuf) (v : tpriv) : tpriv := {|
  p_asked := p_asked v; p_sent := p_sent v; p_borrowed := false; p_installed := p_installed v; p_buf := fb |}.

Definition with_p_sent (out : list bytes) (v : tpriv) : tpriv := {|
  p_asked := p_asked v; p_sent := out; p_borrowed := p_borrowed v; p_installed := p_installed v; p_buf := p_buf v |}.

(** Equalities between private parts, field by field. *)
Ltac private :=
  repeat match goal with
  | H : tprivate ?t = ?v |- _ =>
      pose proof (f_equal p_asked H); pose proof (f_equal p_sent H); pose proof (f_equal p_borrowed H);
      pose proof (f_equal p_installed H); pose proof (f_equal p_buf H); clear H
  end;
  unfold tprivate, with_p_buf, with_p_sent in *; cbn in *; f_equal; congruence.

Section OwnerSpecs.
Context (G : Transport -> Transport -> Prop) `{GP : !PreOrder G}.
Context (HG : forall t t', asked (pc t') = asked (pc t) -> installed (rx t') = installed (rx t) -> G t t').
#[local] Abbreviation tsafe := (safe tinv G tcell).

Lemma towned_pure {A} (r : res A) t0 v (Q : res A -> gmap nat tpriv -> Transport -> Prop) :
  r <> Panic -> (forall t, tprivate t = v -> Q r (towns v) t) -> tsafe t0 (towns v) (pure r) Q.
Proof. apply (towned_done G). Qed.

Lemma send_frame_safe p t0 v :
  tsafe t0 (towns v) (atomic (send_frame p))
    (fun r o t => exists out, p_sent v `prefix_of` out /\ o = towns (with_p_sent out v)).
Proof.
  apply (towned_await G). intros t _ Ht. unfold send_frame. rewrite send_all_spec. subst v.
  destruct (_ <=? _)%nat; (split; [by apply HG|]; apply (towned_done G); [done|]; intros t' _; eexists; split; [|reflexivity]);
    by apply prefix_app_r.
Qed.

(** Receiving returns the borrow. *)
Definition recv_post (v : tpriv) (r : res bytes) (o : gmap nat tpriv) (t : Transport) : Prop :=
  exists fb, o = towns (with_p_buf fb v).

Lemma waiting_safe again t0 v :
  p_borrowed v = true ->
  (forall t fb, tsafe t (towns (with_p_buf fb v)) again (recv_post v)) ->
  tsafe t0 (towns v) (waiting again) (recv_post v).
Proof.
  intros Hb Hagain. unfold waiting. cbn [mbind task_bind task_bind_]. apply (towned_await G).
  intros t _ Ht. unfold next_ready. subst v. destruct (queue (rx t)) as [|m q].
  - destruct (closed (rx t)); [|done]. split; [by apply HG|]. cbn [task_bind_ after_message].
    apply (towned_done G); [done|]. intros t' _. by exists (frame_buf t).
  - split; [by apply HG|]. cbn [task_bind_ after_message]. apply (towned_atomic G). intros t' _ Ht'.
    unfold take_frame. destruct (push m (frame_buf t')) as [fb [[f|]|e|]] eqn:Hp.
    + split; [by apply HG|]. unfold mret, task_ret. apply (towned_done G); [done|]. intros t'' Ht''.
      exists fb. f_equal. private.
    + split; [by apply HG|]. replace (tprivate _) with (with_p_buf fb (tprivate t)); [apply Hagain|].
      private.
    + split; [by apply HG|]. intros t'' Ht''. exists fb. f_equal. private.
    + exfalso. rewrite push_parse in Hp. by destruct (parse_frame _).
Qed.

Lemma recv_frame_safe fuel : forall t0 v,
  p_borrowed v = false -> tsafe t0 (towns v) (recv_frame fuel) (recv_post v).
Proof.
  induction fuel as [|fuel IH]; intros t0 v Hb; [done|].
  cbn [recv_frame]. apply (towned_atomic G). intros t _ Ht. unfold take_frame.
  destruct (push [] (frame_buf t)) as [fb [[f|]|e|]] eqn:Hp.
  - split; [by apply HG|]. unfold mret, task_ret. apply (towned_done G); [done|]. intros t' _.
    exists fb. f_equal. private.
  - split; [by apply HG|]. apply (towned_atomic G). intros t1 _ Ht1. unfold borrow_receiver.
    assert (borrowed (rx t1) = false) as Hb1 by private.
    rewrite Hb1. split; [by apply HG|].
    assert (p_asked (tprivate t1) = p_asked v /\ p_sent (tprivate t1) = p_sent v /\ p_installed (tprivate t1) = p_installed v) as Hv.
    { split_and!; private. }
    apply (safe_mono _ _ _ _ t1 _ _ (recv_post (tprivate (with_rx (with_queue (queue (rx t1)) true (rx t1)) t1)))).
    + by apply HG.
    + intros r o t2 _ _ _ (fb' & ->). exists fb'. f_equal. destruct Hv as (H1 & H2 & H3). private.
    + apply waiting_safe; [done|]. intros t2 fb'.
      apply (safe_mono _ _ _ _ t2 _ _ (recv_post (with_p_buf fb' (tprivate (with_rx (with_queue (queue (rx t1)) true (rx t1)) t1)))));
        [done| |by apply IH].
      intros r o t3 _ _ _ (fb2 & ->). by exists fb2.
  - split; [by apply HG|]. intros t' _. exists fb. f_equal. private.
  - exfalso. rewrite push_parse in Hp. by destruct (parse_frame _).
Qed.
End OwnerSpecs.

(** ** Opening, for the owner *)

Lemma munge_offer_total sdp ufrag : munge_offer sdp ufrag <> Panic.
Proof. unfold munge_offer. destruct (munge_loop _ _ _ _). by case_match. Qed.

Lemma js_result_total {A} context (o : js A) : js_result context o <> Panic.
Proof. by destruct o. Qed.

Lemma js_promise_total {A} context (o : option (js A)) : js_result context <$> o <> Some Panic.
Proof. by destruct o as [[]|]. Qed.

Section OwnerOpening.
(** No one else needs to rely on a transport that is being opened. *)
Definition anything (t t' : Transport) : Prop := True.
#[local] Instance anything_preorder : PreOrder anything.
Proof. split; done. Qed.
#[local] Abbreviation tsafe := (safe tinv anything tcell).

Context `{Hex} (unicode_upper2 : byte -> byte -> string).

Definition with_p_asked a (v : tpriv) : tpriv := {|
  p_asked := a; p_sent := p_sent v; p_borrowed := p_borrowed v; p_installed := p_installed v; p_buf := p_buf v |}.

(** A transport that [from_open] has made ready. *)
Definition opened_priv a out : tpriv := {|
  p_asked := a; p_sent := out; p_borrowed := false; p_installed := true; p_buf := FrameBuf_new |}.

Definition open_post a out (r : res unit) (o : gmap nat tpriv) (t : Transport) : Prop :=
  match r with
  | Ok _ => o = towns (opened_priv a out)
  | Err _ => True
  | Panic => False
  end.

Lemma set_pc_safe {A} f (g : unit -> task Transport A) t0 v (Q : res A -> gmap nat tpriv -> Transport -> Prop) a :
  (forall p, asked p = p_asked v -> asked (f p) = a) ->
  (forall t, tsafe t (towns (with_p_asked a v)) (g tt) Q) ->
  tsafe t0 (towns v) (atomic (set_pc f) ≫= g) Q.
Proof.
  intros Hf Hg. apply (towned_atomic anything). intros t _ Ht. split; [done|].
  replace (tprivate (with_pc (f (pc t)) t)) with (with_p_asked a v); [apply Hg|].
  subst v. unfold with_p_asked, tprivate. cbn. f_equal. symmetry. by apply Hf.
Qed.

Lemma getrandom_safe {A} (g : arr 32 -> task Transport A) t0 ice neg loc rem log out bor ins fb
    (Q : res A -> gmap nat tpriv -> Transport -> Prop) :
  let v log := {| p_asked := (ice, neg, loc, rem, log); p_sent := out; p_borrowed := bor; p_installed := ins; p_buf := fb |} in
  (forall r t, tsafe t (towns (v (log ++ [inl r]))) (g r) Q) -> (forall e o t, Q (Err e) o t) ->
  tsafe t0 (towns (v log)) (getrandom ≫= g) Q.
Proof.
  intros v Hg He. apply (towned_atomic anything). intros t _ Ht.
  destruct (js_random (pc t)) as [e|r]; cbn [js_result]; (split; [done|]); [intros; apply He|].
  replace (tprivate _) with (v (log ++ [inl r])); [apply Hg|].
  unfold tprivate, asked, v in *. cbn in *. congruence.
Qed.

Lemma create_offer_safe {A} (g : string -> task Transport A) t0 ice neg loc rem log out bor ins fb
    (Q : res A -> gmap nat tpriv -> Transport -> Prop) :
  let v log := {| p_asked := (ice, neg, loc, rem, log); p_sent := out; p_borrowed := bor; p_installed := ins; p_buf := fb |} in
  (forall offer t, tsafe t (towns (v (log ++ [inr offer]))) (g offer) Q) -> (forall e o t, Q (Err e) o t) ->
  tsafe t0 (towns (v log)) (create_offer ≫= g) Q.
Proof.
  intros v Hg He. cbn [mbind task_bind task_bind_ create_offer]. apply (towned_await anything). intros t _ Ht.
  destruct (js_offer (pc t)) as [[e|offer]|]; cbn [mbind option_bind js_result task_bind_]; [..|done]; (split; [done|]).
  - apply (towned_done anything); [done|]. intros. apply He.
  - replace (tprivate _) with (v (log ++ [inr offer])); [apply Hg|].
    unfold tprivate, asked, v in *. cbn in *. congruence.
Qed.

Lemma wait_for_open_safe t0 v :
  tsafe t0 (towns v) (_ ← wait_for_open; atomic from_open) (open_post (p_asked v) (p_sent v)).
Proof.
  assert (forall t, tsafe t (towns v) (atomic from_open) (open_post (p_asked v) (p_sent v))) as Hfrom.
  { intros t. apply (towned_await anything). intros t1 _ Ht1. split; [done|]. apply (towned_done anything); [done|].
    intros t2 _. cbn. f_equal. by subst v. }
  unfold wait_for_open. cbn [mbind task_bind task_bind_ atomic]. apply (towned_await anything).
  intros t _ Ht. split; [done|]. rewrite Ht. cbn [task_bind_].
  assert (forall t, tsafe t (towns v)
    (task_bind_ (fun _ => atomic from_open)
       (task_bind_ (fun _ => atomic (fun t => match ready_state (dc t) with
         | Open => (t, Ok tt)
         | s => (t, Err (fmt ["DataChannel did not open (state: "; state_debug s; ")"])) end))
         (Await (fun t => if notified (dc t) then Some (t, Done (Ok tt)) else None))))
    (open_post (p_asked v) (p_sent v))) as Hwait.
  { intros t1. cbn [task_bind_]. apply (towned_await anything). intros t2 _ Ht2.
    destruct (notified (dc t2)); [|done]. split; [done|]. rewrite Ht2. cbn [task_bind_ atomic].
    apply (towned_await anything). intros t3 _ Ht3.
    destruct (ready_state (dc t3)); (split; [done|]); rewrite Ht3; cbn [task_bind_]; [|apply Hfrom|..];
      by apply (towned_done anything). }
  destruct (ready_state (dc t)); [apply Hwait| |apply Hwait..].
  cbn [mret task_ret task_bind_]. apply Hfrom.
Qed.
(** A connection that opens went to the pinned certificate: the session
    descriptions in force are the munged offer and the answer synthesised from
    the address and the fingerprint, with one [ufrag] in both, and offer and
    [ufrag] are what the browser handed out on the way ([log] before). *)
Definition connect_asked (ip : string) (port : Z) (fingerprint_hex : string) (log : list (arr 32 + string))
    (a : list string * option Z * option string * option string * list (arr 32 + string)) : Prop :=
  exists ufrag offer munged,
    munge_offer offer (hex_encode (ufrag : arr 32)) = Ok munged /\
    a = ([], Some 0, Some munged,
         Some (server_answer ip port (hex_encode ufrag) (fingerprint_to_colon_form unicode_upper2 fingerprint_hex)),
         log ++ [inl ufrag; inr offer]).

Definition connect_post ip port fp log out (r : res unit) (o : gmap nat tpriv) (t : Transport) : Prop :=
  match r with
  | Ok _ => exists a, connect_asked ip port fp log a /\ o = towns (opened_priv a out)
  | Err _ => True
  | Panic => False
  end.

Lemma connect_safe ip port fp t0 v :
  tsafe t0 (towns v) (connect unicode_upper2 ip port fp) (connect_post ip port fp (p_asked v).2 (p_sent v)).
Proof.
  unfold connect. destruct v as [[[[[ice neg] loc] rem] log] out bor ins fb].
  apply set_pc_safe with (a := ([], neg, loc, rem, log)).
  { intros p Hp. unfold asked in *. cbn in *. congruence. }
  intros t1. apply (towned_call anything); [intros; apply js_result_total| |done]. intros _ t2.
  apply set_pc_safe with (a := ([], Some 0, loc, rem, log)).
  { intros p Hp. unfold asked in *. cbn in *. congruence. }
  intros t3. apply getrandom_safe; [|done]. intros ufrag t4.
  cbv zeta. apply create_offer_safe; [|done]. intros offer t5. rewrite <- app_assoc. cbn [app p_asked p_sent snd].
  set (log' := log ++ [inl ufrag; inr offer]).
  destruct (munge_offer offer (hex_encode ufrag)) as [munged|e|] eqn:Hm;
    [| |by apply munge_offer_total in Hm].
  2: { by apply (towned_done anything). }
  change (pure (Ok munged) ≫= ?f) with (f munged). cbv beta.
  apply set_pc_safe with (a := ([], Some 0, Some munged, rem, log')).
  { intros p Hp. unfold asked in *. cbn in *. congruence. }
  intros t6. apply (towned_promise anything); [intros; apply js_promise_total| |done]. intros _ t7.
  set (answer := server_answer _ _ _ _).
  apply set_pc_safe with (a := ([], Some 0, Some munged, Some answer, log')).
  { intros p Hp. unfold asked in *. cbn in *. congruence. }
  intros t8. apply (towned_promise anything); [intros; apply js_promise_total| |done]. intros _ t9.
  apply (safe_mono _ _ _ _ t9 _ _ (open_post ([], Some 0, Some munged, Some answer, log') out)); [done| |].
  - intros [[]|e|] o t _ _ _ Hpost; [|done..]. cbn in Hpost. exists ([], Some 0, Some munged, Some answer, log').
    split; [|done]. by exists ufrag, offer, munged.
  - exact (wait_for_open_safe t9 {| p_asked := ([], Some 0, Some munged, Some answer, log'); p_sent := out;
      p_borrowed := bor; p_installed := ins; p_buf := fb |}).
Qed.

Lemma relay_offer_safe stun t0 v :
  tsafe t0 (towns v) (relay_offer stun)
    (fun r o t => match r with
                  | Ok _ => exists a, o = towns (with_p_asked a v)
                  | Err _ => True
                  | Panic => False
                  end).
Proof.
  unfold relay_offer. destruct v as [[[[[ice neg] loc] rem] log] out bor ins fb].
  apply set_pc_safe with (a := ([fmt ["stun:"; stun]], neg, loc, rem, log)).
  { intros p Hp. unfold asked in *. cbn in *. congruence. }
  intros t1. apply (towned_call anything); [intros; apply js_result_total| |done]. intros _ t2.
  apply set_pc_safe with (a := ([fmt ["stun:"; stun]], None, loc, rem, log)).
  { intros p Hp. unfold asked in *. cbn in *. congruence. }
  intros t3. apply create_offer_safe; [|done]. intros offer t4.
  apply set_pc_safe with (a := ([fmt ["stun:"; stun]], None, Some offer, rem, log ++ [inr offer])).
  { intros p Hp. unfold asked in *. cbn in *. congruence. }
  intros t5. apply (towned_promise anything); [intros; apply js_promise_total| |done]. intros _ t6.
  unfold wait_for_ice_complete. cbn [mbind task_bind task_bind_]. apply (towned_await anything).
  intros t7 _ Ht7. destruct (gathered (pc t7)); [|done]. split; [done|]. rewrite Ht7. cbn [task_bind_ call atomic].
  apply (towned_await anything). intros t8 _ Ht8. split; [done|]. rewrite Ht8.
  apply (towned_done anything); [by destruct (local_description _)|]. intros t9 _.
  destruct (local_description (pc t8)); [|done]. by eexists.
Qed.

Lemma relay_answer_safe answer t0 v :
  tsafe t0 (towns v) (relay_answer answer)
    (fun r o t => match r with
                  | Ok _ => exists a, o = towns (opened_priv a (p_sent v))
                  | Err _ => True
                  | Panic => False
                  end).
Proof.
  unfold relay_answer. destruct v as [[[[[ice neg] loc] rem] log] out bor ins fb].
  apply set_pc_safe with (a := (ice, neg, loc, Some answer, log)).
  { intros p Hp. unfold asked in *. cbn in *. congruence. }
  intros t1. apply (towned_promise anything); [intros; apply js_promise_total| |done]. intros _ t2.
  apply (safe_mono _ _ _ _ t2 _ _ (open_post (ice, neg, loc, Some answer, log) out)); [done| |].
  - intros [[]|e|] o t _ _ _ Hpost; [|done..]. by eexists.
  - exact (wait_for_open_safe t2 {| p_asked := (ice, neg, loc, Some answer, log); p_sent := out;
      p_borrowed := bor; p_installed := ins; p_buf := fb |}).
Qed.

Lemma transport_env_cells t t' :
  transport_env t t' -> tinv t -> tinv t' /\ anything t t' /\ forall c b, tcell c b t -> tcell c b t'.
Proof.
  intros He _. split; [done|]. split; [done|]. intros c b (-> & _ & Hb). do 2 (split; [done|]).
  by rewrite (transport_env_private t t' He).
Qed.

(** C19: whatever the browser, the network and the events in between do, an
    attempt to connect that ends with a transport has gone to the pinned
    certificate only: the peer connection was created without ICE servers and
    with the pre-negotiated channel 0; during the attempt the client drew 32
    random bytes from the browser, once, and then had it create one offer
    ([handed] has grown by these two); the local description is that offer with
    both ICE credentials replaced by the hex form of those bytes; and the remote
    description is the answer synthesised from the address, the same credentials
    and the given fingerprint.  The transport starts with its handlers set, its
    receiver free and nothing buffered or sent. *)
Theorem connect_pins (ip : string) (port : Z) (fingerprint_hex : string) (t t' : Transport) (r : res unit)
    (Hrun : runs transport_env t (connect unicode_upper2 ip port fingerprint_hex) t' r) :
  r <> Panic /\
  (r = Ok tt ->
    ice_servers (pc t') = [] /\ negotiated (pc t') = Some 0 /\
    (exists ufrag offer munged,
       handed (pc t') = handed (pc t) ++ [inl ufrag; inr offer] /\
       munge_offer offer (hex_encode (ufrag : arr 32)) = Ok munged /\
       local_sdp (pc t') = Some munged /\
       remote_sdp (pc t') =
         Some (server_answer ip port (hex_encode ufrag) (fingerprint_to_colon_form unicode_upper2 fingerprint_hex))) /\
    installed (rx t') = true /\ borrowed (rx t') = false /\ frame_buf t' = FrameBuf_new /\
    sent (dc t') = sent (dc t)).
Proof.
  destruct (runs_safe tinv anything tcell transport_env transport_env_cells _ t t (towns (tprivate t)) t' r _
    (connect_safe ip port fingerprint_hex t (tprivate t)) ltac:(done) I
    ltac:(by apply held_towns) Hrun) as (Hp & _ & _ & o & Ho & Hpost).
  split; [done|]. intros ->. cbn in Hpost. destruct Hpost as (a & (ufrag & offer & munged & Hm & ->) & ->).
  apply held_towns in Ho. unfold tprivate, opened_priv, asked in Ho. cbn in Ho.
  pose proof (f_equal p_asked Ho) as Ha. cbn in Ha. injection Ha as Hice Hneg Hloc Hrem Hlog.
  pose proof (f_equal p_borrowed Ho). pose proof (f_equal p_installed Ho). pose proof (f_equal p_buf Ho).
  pose proof (f_equal p_sent Ho). cbn in *. split_and!; try done. by exists ufrag, offer, munged.
Qed.
End OwnerOpening.

(** ** Witnesses *)

Definition idle_pc : PeerConnection := {|
  js_new := inr tt; js_random := inr (pad 32 []); js_offer := None; js_set_local := None; js_set_remote := None;
  gathered := false; local_description := None;
  ice_servers := []; negotiated := None; local_sdp := None; remote_sdp := None; handed := [] |}.

(** An open transport on which [q] has arrived. *)
Definition open_transport (q : list bytes) : Transport := {|
  pc := idle_pc;
  dc := {| ready_state := Open; notified := true; send_room := 100; send_error := EmptyString; sent := [] |};
  rx := {| queue := q; closed := false; borrowed := false; installed := true |};
  frame_buf := FrameBuf_new |}.

(** Two frames, the first cut in the middle of its length. *)
Lemma recv_frame_reads_stream_witness :
  let t := open_transport [[x00; x00]; [x00; x02; x61; x62; x00]; [x00; x00; x01; x63]] in
  (List.length (queue (rx t)) < 5)%nat /\ borrowed (rx t) = false /\
  recv_result 1 t (poll (recv_frame 5) t).1 (poll (recv_frame 5) t).2.
Proof.
  split; [by vm_compute; lia|]. split; [done|].
  apply (proj1 (recv_frame_reads_stream 5
    (open_transport [[x00; x00]; [x00; x02; x61; x62; x00]; [x00; x00; x01; x63]]))); [cbn; lia|done].
Defined.

Lemma frames_cross_witness :
  Forall frame_ok [[x61; x62]; [x63]] /\
  exists r', recv_frames 4 2 (deliver [[x00; x00]; [x00; x02; x61; x62; x00]; [x00; x00; x01; x63]] (open_transport []))
             = (Ok [[x61; x62]; [x63]], r') /\ stream r' = [].
Proof.
  assert (Forall frame_ok [[x61; x62]; [x63]]) as Hps by (repeat constructor; by vm_compute).
  split; [exact Hps|].
  apply (frames_cross [[x61; x62]; [x63]] (open_transport []) (open_transport [])
    [[x00; x00]; [x00; x02; x61; x62; x00]; [x00; x00; x01; x63]] 4 Hps); [|done|done|by vm_compute|cbn; lia].
  apply Nat.leb_le. by vm_compute.
Defined.

(** An empty payload is sent, and its four bytes make the receiver refuse the
    next frame too. *)
Lemma bad_length_poisons_witness :
  (send_frame [] (open_transport [])).2 = Ok tt /\
  Forall (fun k => k = Done (Err (frame_length_error 0)))
    (attempts 7 [[[x00]; [x00; x00; x00]]; []; [[x00; x00; x00; x01; x61]]] (open_transport [])).
Proof.
  destruct (bad_length_poisons [] (open_transport []) (open_transport []) [[x00]; [x00; x00; x00]]
    [[]; [[x00; x00; x00; x01; x61]]] 7) as (Hs & _ & Hr & _);
    [|done|by vm_compute; lia|done|done|by vm_compute|cbn; lia|].
  - unfold frame_ok. intros [H _]. by vm_compute in H.
  - split; [exact Hs|exact Hr].
Defined.

(** A browser that answers everything at once. *)
Definition ready_pc : PeerConnection := {|
  js_new := inr tt; js_random := inr (pad 32 [x01]);
  js_offer := Some (inr (fmt ["v=0"; CRLF; "a=ice-ufrag:x"; CRLF; "a=ice-pwd:y"; CRLF]));
  js_set_local := Some (inr tt); js_set_remote := Some (inr tt);
  gathered := true; local_description := None;
  ice_servers := []; negotiated := None; local_sdp := None; remote_sdp := None; handed := [] |}.

Definition ready_transport : Transport := {|
  pc := ready_pc; dc := dc (open_transport []);
  rx := {| queue := []; closed := false; borrowed := false; installed := false |};
  frame_buf := FrameBuf_new |}.

Lemma connect_pins_witness :
  let task := connect (H := HexRef.hex_ref) (fun a b => EmptyString) "1.2.3.4" 4433 "ab" in
  runs transport_env ready_transport task (poll task ready_transport).1 (Ok tt) /\
  head (handed (pc (poll task ready_transport).1)) = Some (inl (pad 32 [x01])) /\
  exists munged, local_sdp (pc (poll task ready_transport).1) = Some munged /\
    exists offer, munge_offer offer (HexRef.encode (pad 32 [x01])) = Ok munged.
Proof.
  set (task := connect (H := HexRef.hex_ref) (fun a b => EmptyString) "1.2.3.4" 4433 "ab").
  cbv zeta.
  assert (runs transport_env ready_transport task (poll task ready_transport).1 (Ok tt)) as Hr.
  { apply run_done. unfold task. vm_compute. reflexivity. }
  split; [exact Hr|].
  destruct (connect_pins (H := HexRef.hex_ref) (fun a b => EmptyString) "1.2.3.4" 4433 "ab" _ _ _ Hr)
    as (_ & Hok).
  destruct (Hok eq_refl) as (_ & _ & (u & o & m & Hlog & Hm & Hloc & _) & _).
  assert (handed (pc ready_transport) = []) as Hnil by reflexivity. rewrite Hnil in Hlog. cbn [app] in Hlog.
  assert (head (handed (pc (poll task ready_transport).1)) = Some (inl (pad 32 [x01]))) as Hhead
    by (vm_compute; reflexivity).
  split; [exact Hhead|]. rewrite Hlog in Hhead. injection Hhead as Hu. subst u. exists m. split; [exact Hloc|]. by exists o.
Defined.
