(* ===== verification/Conn.v ===== *)
(** * One authenticated connection ([src/conn.rs]) *)

From Stdlib Require Import Sorted.
From S2P Require Import Prelude Text Crates RefCrates Framing Sdp Serde Wire RefCodec Protocol Discovery Tunnel Async Transport.

Section Conn.
Context `{Hex} `{Blake3} `{MlKem} `{MlDsa} `{ChaCha} `{Postcard}.

(** [NodeConnection], from the moment its transport is created: [session]
    (the cipher and the node's peer id) is [None] until the handshake is over,
    which is when the Rust value comes into being.  [js_keygen] is the
    randomness the environment provides.  [sealed] is auxiliary: the requests
    that have been sealed, each with its sequence number, oldest first. *)
Record NodeConnection : Type := {
  transport : Transport;
  session : option (SessionCipher * arr 32);
  next_seq : Z;
  request_lock : bool;
  js_keygen : Randomness;
  sealed : list (Z * bytes);
}.

Definition with_transport (t : Transport) (c : NodeConnection) : NodeConnection :=
  {| transport := t; session := session c; next_seq := next_seq c; request_lock := request_lock c;
     js_keygen := js_keygen c; sealed := sealed c |}.
Definition with_lock (b : bool) (c : NodeConnection) : NodeConnection :=
  {| transport := transport c; session := session c; next_seq := next_seq c; request_lock := b;
     js_keygen := js_keygen c; sealed := sealed c |}.

(** Operations of [self.transport]. *)
Definition on_transport {A} (t : task Transport A) : task NodeConnection A :=
  zoom (fun c => Some (transport c)) with_transport t.

(** ** The handshake *)

(** [ClientHandshake::start()] with the randomness at hand. *)
Definition start_handshake : st NodeConnection (ClientHandshake * bytes) :=
  fun c => (c, start (js_keygen c)).

(** The [Ok(Self { .. })] of [establish]. *)
Definition established (est : Established) : st NodeConnection unit := fun c =>
  ({| transport := transport c; session := Some (cipher est, est_peer_id est); next_seq := 1;
      request_lock := false; js_keygen := js_keygen c; sealed := [] |}, Ok tt).

Definition establish (fuel : nat) (expected_peer_id : option (arr 32)) : task NodeConnection unit :=
  '(handshake, hello) ← atomic start_handshake;
  _ ← on_transport (atomic (send_frame hello));
  accept ← on_transport (recv_frame fuel);
  est ← pure (finish handshake accept expected_peer_id);
  atomic (established est).

(** [NodeConnection::connect]. *)
Definition conn_connect (unicode_upper2 : byte -> byte -> string) (fuel : nat) (ip : string) (port : Z) (cert_hash_hex : string)
    (expected_peer_id : option (arr 32)) : task NodeConnection unit :=
  _ ← on_transport (connect unicode_upper2 ip port cert_hash_hex);
  establish fuel expected_peer_id.

(** [self.peer_id] and [self.cipher]; a connection without a session does not
    exist as a value. *)
Definition conn_peer_id (c : NodeConnection) : res (arr 32) :=
  match session c with Some (_, id) => Ok id | None => Panic end.
Definition conn_cipher (c : NodeConnection) : res SessionCipher :=
  match session c with Some (k, _) => Ok k | None => Panic end.

(** ** Requests *)

(** [NodeConnection::next_seq]. *)
Definition take_seq : st NodeConnection Z := fun c =>
  let seq := next_seq c in
  if MAX_SEQ <=? seq then (c, Err "session sequence space exhausted; reconnect") else
  ({| transport := transport c; session := session c; next_seq := seq + 1;
      request_lock := request_lock c; js_keygen := js_keygen c; sealed := sealed c |}, Ok seq).

(** [self.cipher.seal_request(seq, &tagged)], noted in [sealed]. *)
Definition seal (seq : Z) (tagged : bytes) : st NodeConnection bytes := fun c =>
  ({| transport := transport c; session := session c; next_seq := next_seq c;
      request_lock := request_lock c; js_keygen := js_keygen c; sealed := sealed c ++ [(seq, tagged)] |},
   k ← conn_cipher c; seal_request k seq tagged).

Definition lock : task NodeConnection unit :=
  Await (fun c => if request_lock c then None else Some (with_lock true c, Done (Ok tt))).
Definition unlock : st NodeConnection unit := fun c => (with_lock false c, Ok tt).

(** What [round_trip] makes of a response frame. *)
Definition accept_response (k : SessionCipher) (tag : byte) (seq : Z) (frame : bytes) : res bytes :=
  '(resp_seq, plaintext) ← open_response k frame;
  if negb (resp_seq =? seq)
  then Err (fmt ["response seq "; dec resp_seq; " does not match request "; dec seq]) else
  if negb (bool_decide (head plaintext = Some tag))
  then Err "unexpected response protocol tag" else
  slice plaintext 1 (len plaintext).

(** The body of [round_trip], under the guard. *)
Definition exchange (fuel : nat) (tag : byte) (payload : bytes) : task NodeConnection bytes :=
  seq ← atomic take_seq;
  let tagged := tag :: payload in
  envelope ← atomic (seal seq tagged);
  _ ← on_transport (atomic (send_frame envelope));
  frame ← on_transport (recv_frame fuel);
  atomic (fun c => (c, k ← conn_cipher c; accept_response k tag seq frame)).

Definition round_trip (fuel : nat) (tag : byte) (payload : bytes) : task NodeConnection bytes :=
  _ ← lock;
  r ← attempt (exchange fuel tag payload);
  _ ← atomic unlock;
  pure r.

(** [u64::from(self.next_seq.get())] *)
Definition peek_seq : task NodeConnection Z := atomic (fun c => (c, Ok (next_seq c))).

Definition check_content (address : arr 32) (response : ChunkMessage) : res bytes :=
  match body response with
  | GetResponse (GetSuccess resp_address content) =>
      if negb (bool_decide (resp_address = address)) then Err "response address mismatch" else
      let computed := blake3_hash content in
      if negb (bool_decide (computed = address))
      then Err (fmt ["chunk "; hex_encode address; " failed BLAKE3 verification"])
      else Ok content
  | GetResponse (NotFound _) => Err (fmt ["not found: "; hex_encode address])
  | GetResponse (GetError e) => Err (fmt ["node error: "; protocol_error_display e])
  | _ => Err "unexpected response type"
  end.

Definition get_verified (fuel : nat) (address : arr 32) : task NodeConnection bytes :=
  id ← peek_seq;
  let request := {| request_id := id; body := GetRequest {| get_address := address |} |} in
  payload ← pure (message_encode request);
  plaintext ← round_trip fuel PROTO_CHUNK payload;
  response ← pure (message_decode plaintext);
  pure (check_content address response).

Definition closest_peers (fuel : nat) (address : arr 32) : task NodeConnection (list PeerConnectInfo) :=
  id ← peek_seq;
  let request := {| disc_request_id := id; disc_body := ClosestRequest {| closest_address := address |} |} in
  payload ← pure (discovery_encode request);
  plaintext ← round_trip fuel PROTO_DISCOVERY payload;
  response ← pure (discovery_decode plaintext);
  match disc_body response with
  | ClosestResponse r => pure (Ok (peers r))
  | DiscoveryError e => pure (Err (fmt ["discovery error: "; e]))
  | ClosestRequest _ => pure (Err "unexpected discovery response")
  end.

Definition signal_relay (fuel : nat) (target : arr 32) (offer : string) : task NodeConnection string :=
  id ← peek_seq;
  let request := {| sig_request_id := id;
                    sig_body := SignalRequest {| target_peer_id := target; sdp_offer := offer |} |} in
  payload ← pure (signal_encode request);
  plaintext ← round_trip fuel PROTO_SIGNAL payload;
  response ← pure (signal_decode plaintext);
  match sig_body response with
  | SignalResponse r => pure (Ok (sdp_answer r))
  | SignalError e => pure (Err (fmt ["signal relay error: "; e]))
  | SignalRequest _ => pure (Err "unexpected signal-relay response")
  end.

Definition chunk_round_trip (fuel : nat) (request : ChunkMessage) : task NodeConnection ChunkMessage :=
  payload ← pure (message_encode request);
  plaintext ← round_trip fuel PROTO_CHUNK payload;
  pure (message_decode plaintext).

(** The requests of the tunnel, each answered with what it asked. *)
Inductive request : Type :=
  | AskContent (address : arr 32)
  | AskPeers (address : arr 32)
  | AskRelay (target : arr 32) (offer : string)
  | AskChunk (message : ChunkMessage).
Inductive reply : Type :=
  | Content (content : bytes)
  | Peers (infos : list PeerConnectInfo)
  | Answer (sdp : string)
  | Response (message : ChunkMessage).

Definition serve (fuel : nat) (q : request) : task NodeConnection (request * reply) :=
  match q with
  | AskContent address => content ← get_verified fuel address; mret (q, Content content)
  | AskPeers address => infos ← closest_peers fuel address; mret (q, Peers infos)
  | AskRelay target offer => sdp ← signal_relay fuel target offer; mret (q, Answer sdp)
  | AskChunk message => response ← chunk_round_trip fuel message; mret (q, Response response)
  end.

(** ** What one connection guarantees

    While a connection is being established, or its lock is held, one task
    owns its private part; otherwise nobody does. *)

Record cpriv : Type := {
  q_transport : tpriv;
  q_session : option (SessionCipher * arr 32);
  q_next : Z;
  q_sealed : list (Z * bytes);
}.

Definition with_q_transport (v : cpriv) (tv : tpriv) : cpriv :=
  {| q_transport := tv; q_session := q_session v; q_next := q_next v; q_sealed := q_sealed v |}.

Definition cprivate (c : NodeConnection) : cpriv :=
  {| q_transport := tprivate (transport c); q_session := session c; q_next := next_seq c; q_sealed := sealed c |}.

Definition busy (c : NodeConnection) : Prop := session c = None \/ request_lock c = true.

Abbreviation ccell := (private_cell busy cprivate).
Abbreviation cowns := (owns (V := cpriv)).

(** Between requests the receiver is free; the sequence numbers used so far
    are increasing and below the next one, which stays in its space. *)
Definition conn_inv (c : NodeConnection) : Prop :=
  session c <> None ->
  (request_lock c = false -> borrowed (rx (transport c)) = false) /\
  1 <= next_seq c <= MAX_SEQ /\
  StronglySorted Z.lt (sealed c).*1 /\ Forall (fun q => 1 <= q < next_seq c) (sealed c).*1.

(** An established connection keeps its session and its pinned descriptions,
    and its history only grows. *)
Definition evolves (c c' : NodeConnection) : Prop :=
  forall x, session c = Some x ->
    session c' = Some x /\ next_seq c <= next_seq c' /\ sealed c `prefix_of` sealed c' /\
    asked (pc (transport c')) = asked (pc (transport c)).

#[export] Instance evolves_preorder : PreOrder evolves.
Proof.
  split.
  - intros c x Hx. by split_and!.
  - intros c1 c2 c3 H12 H23 x Hx. destruct (H12 x Hx) as (Hx2 & ? & ? & ?).
    destruct (H23 x Hx2) as (? & ? & ? & ?). split_and!; [done|lia|by etrans|congruence].
Qed.

(** Messages arrive, channels close, the browser's calls have other outcomes,
    and there is other randomness. *)
Inductive conn_env : NodeConnection -> NodeConnection -> Prop :=
  | conn_env_transport t' c : transport_env (transport c) t' -> conn_env c (with_transport t' c)
  | conn_env_random r c : conn_env c {| transport := transport c; session := session c; next_seq := next_seq c;
      request_lock := request_lock c; js_keygen := r; sealed := sealed c |}.

Lemma conn_env_cells c c' : conn_env c c' ->
  conn_inv c -> conn_inv c' /\ evolves c c' /\ forall n v, ccell n v c -> ccell n v c'.
Proof.
  destruct 1 as [t' c Ht|r c]; intros HI; [|by split_and!].
  apply transport_env_private in Ht. pose proof (f_equal p_borrowed Ht) as Hb. pose proof (f_equal p_asked Ht) as Ha.
  cbn in Hb, Ha. split; [|split].
  - unfold conn_inv. cbn. rewrite Hb. exact HI.
  - intros x Hx. by split_and!.
  - intros n v (-> & Hbusy & Hv). split; [done|]. split; [exact Hbusy|]. rewrite <- Hv.
    unfold cprivate. cbn. by rewrite Ht.
Qed.

#[local] Abbreviation csafe := (safe conn_inv evolves ccell).

(** *** Operations of the transport *)

Definition steady (t t' : Transport) : Prop :=
  asked (pc t') = asked (pc t) /\ installed (rx t') = installed (rx t).

(** What the rest of the program relies on while the owner of [v] works. *)
Definition transport_rely (v : cpriv) (t t' : Transport) : Prop :=
  q_session v <> None -> asked (pc t') = asked (pc t).

#[local] Instance transport_rely_preorder v : PreOrder (transport_rely v).
Proof. split; [done|]. intros t1 t2 t3 H12 H23 Hv. by rewrite (H23 Hv), (H12 Hv). Qed.

Lemma put_transport v c t' (o o' : gmap nat tpriv) :
  conn_inv c -> held ccell (with_q_transport v <$> o) c ->
  held tcell o' t' -> guar (transport_rely v) tcell o o' (transport c) t' ->
  conn_inv (with_transport t' c) /\ held ccell (with_q_transport v <$> o') (with_transport t' c) /\
  guar evolves ccell (with_q_transport v <$> o) (with_q_transport v <$> o') c (with_transport t' c).
Proof.
  intros HI Ho Ho' (HG & Hkeep & Htake).
  assert (forall n tv, o' !! n = Some tv -> n = 0%nat /\ tprivate t' = tv) as Ho'0.
  { intros n tv Hn. by destruct (Ho' n tv Hn) as (-> & _ & ?). }
  destruct (o !! 0%nat) as [tv|] eqn:E.
  - destruct (Ho 0%nat (with_q_transport v tv)) as (_ & Hbusy & Hv); [by rewrite lookup_fmap, E|].
    assert (q_session v = session c /\ q_next v = next_seq c /\ q_sealed v = sealed c) as (Hs & Hn & Hq).
    { unfold cprivate, with_q_transport in Hv. by injection Hv. }
    split; [|split].
    + intros Hsome. destruct (HI Hsome) as (_ & HI'). split; [|exact HI'].
      intros Hl. cbn in Hl, Hsome. destruct Hbusy; congruence.
    + intros n v' Hn'. rewrite lookup_fmap in Hn'. apply fmap_Some in Hn' as (tv' & Ht' & ->).
      apply Ho'0 in Ht' as [-> <-]. split; [done|]. split; [exact Hbusy|].
      unfold cprivate, with_q_transport. cbn. congruence.
    + split; [|split].
      * intros x Hx. split_and!; try done. apply HG. congruence.
      * intros n b Hn' _ (-> & _). by rewrite lookup_fmap, E in Hn'.
      * intros n b b' Hn' Hn2 _. rewrite lookup_fmap in Hn2. apply fmap_Some in Hn2 as (tv' & Ht' & _).
        apply Ho'0 in Ht' as [-> _]. by rewrite lookup_fmap, E in Hn'.
  - assert (o' !! 0%nat = None) as E'.
    { destruct (o' !! 0%nat) as [tv|] eqn:E'; [|done]. exfalso.
      by eapply (Htake 0%nat tv (tprivate (transport c)) E E'). }
    assert (forall n, o' !! n = None) as Hnone.
    { intros n. destruct (o' !! n) as [tv|] eqn:En; [|done]. pose proof (Ho'0 n tv En) as [-> _]. congruence. }
    destruct (Hkeep 0%nat (tprivate (transport c)) E E') as (_ & _ & Hp); [done|].
    pose proof (f_equal p_borrowed Hp) as Hb. pose proof (f_equal p_asked Hp) as Ha. cbn in Hb, Ha.
    split; [|split; [|split; [|split]]].
    + unfold conn_inv. cbn. rewrite Hb. exact HI.
    + intros n v'. rewrite lookup_fmap, Hnone. done.
    + intros x Hx. by split_and!.
    + intros n b _ _ (-> & Hbusy & Hv). split; [done|]. split; [exact Hbusy|]. rewrite <- Hv.
      unfold cprivate. cbn. by rewrite Hp.
    + intros n b b' _. by rewrite lookup_fmap, Hnone.
Qed.

(** A specification of the transport, for the owner of the connection. *)
Lemma on_transport_safe {A} (t : task Transport A) v c0
    (Q' : res A -> gmap nat tpriv -> Transport -> Prop) (Q : res A -> gmap nat cpriv -> NodeConnection -> Prop) :
  (q_session v <> None -> session c0 = q_session v) ->
  safe tinv (transport_rely v) tcell (transport c0) (towns (q_transport v)) t Q' ->
  (forall r o c, evolves c0 c -> conn_inv c -> held ccell (with_q_transport v <$> o) c -> Q' r o (transport c) ->
     Q r (with_q_transport v <$> o) c) ->
  csafe c0 (cowns v) (on_transport t) Q.
Proof.
  intros Hs Ht HQ.
  assert (cowns v = with_q_transport v <$> towns (q_transport v)) as ->.
  { unfold owns. rewrite map_fmap_singleton. by destruct v. }
  eapply (safe_zoom _ _ conn_inv evolves ccell tinv (transport_rely v) tcell (fmap (with_q_transport v)))
    with (P := fun c => q_session v <> None -> session c = q_session v); [..|exact Hs|done|exact Ht|].
  - intros o o'. apply map_fmap_mono.
  - intros c1 c2 Hc HG Hv. destruct (q_session v) as [x|] eqn:E; [|done].
    by destruct (HG x (Hc Hv)) as (-> & _).
  - intros c1 c2 t0 Hc HG [= <-]. eexists. split; [done|]. intros Hv.
    destruct (q_session v) as [x|] eqn:E; [|done]. by apply (HG x (Hc Hv)).
  - intros c t0 o _ Ho [= <-]. split; [done|]. intros n tv Hn.
    destruct (Ho n (with_q_transport v tv)) as (-> & _ & Hv); [by rewrite lookup_fmap, Hn|].
    do 2 (split; [done|]). unfold cprivate, with_q_transport in Hv. by injection Hv.
  - intros c t1 t' o o' HI Ho [= <-] _ Ho' Hg. destruct (put_transport v c t' o o' HI Ho Ho' Hg) as (? & ? & ?).
    by split_and!.
  - intros r o c t1 HG HI [= <-] Ho. by apply HQ.
Qed.

(** The same, when the task ends with the transport in hand. *)
Lemma on_transport_owned {A B} (t : task Transport A) (g : A -> task NodeConnection B) v c0
    (W : res A -> tpriv -> Prop) (Q : res B -> gmap nat cpriv -> NodeConnection -> Prop) :
  (q_session v <> None -> session c0 = q_session v) ->
  safe tinv (transport_rely v) tcell (transport c0) (towns (q_transport v)) t
    (fun r o _ => exists tv, o = towns tv /\ W r tv) ->
  (forall a tv c, W (Ok a) tv -> evolves c0 c -> (q_session v <> None -> session c = q_session v) ->
     csafe c (cowns (with_q_transport v tv)) (g a) Q) ->
  (forall e tv c, W (Err e) tv -> Q (Err e) (cowns (with_q_transport v tv)) c) ->
  csafe c0 (cowns v) (on_transport t ≫= g) Q.
Proof.
  intros Hs Ht Hg He.
  apply (safe_bind conn_inv evolves ccell _ _ _ _ _
    (fun r o c => exists tv, o = cowns (with_q_transport v tv) /\ W r tv)).
  - eapply on_transport_safe; [exact Hs|exact Ht|]. intros r o c _ _ _ (tv & -> & HW). exists tv.
    split; [|done]. unfold owns. by rewrite map_fmap_singleton.
  - intros a o c HG _ Ho (tv & -> & HW). apply Hg; [done..|]. apply held_owns in Ho as [_ Hv].
    intros _. exact (f_equal q_session Hv).
  - intros e o c _ _ _ (tv & -> & HW). by apply He.
Qed.

(** *** The lock *)

(** A private part between two requests. *)
Definition idle (x : SessionCipher * arr 32) (v : cpriv) : Prop :=
  q_session v = Some x /\ p_borrowed (q_transport v) = false /\
  1 <= q_next v <= MAX_SEQ /\ StronglySorted Z.lt (q_sealed v).*1 /\ Forall (fun q => 1 <= q < q_next v) (q_sealed v).*1.

Lemma lock_safe {A} (g : unit -> task NodeConnection A) x c0 (Q : res A -> gmap nat cpriv -> NodeConnection -> Prop) :
  session c0 = Some x ->
  (forall v c, idle x v -> evolves c0 c -> session c = Some x -> csafe c (cowns v) (g tt) Q) ->
  csafe c0 ∅ (lock ≫= g) Q.
Proof.
  intros Hx Hg c HG HI _. cbn [mbind task_bind task_bind_ lock].
  destruct (request_lock c) eqn:Hl; [done|]. destruct (HG x Hx) as (Hcx & _ & _).
  destruct (HI ltac:(congruence)) as (Hb & Hn & Hsort & Hlt).
  exists (cowns (cprivate (with_lock true c))). split; [|split; [|split]].
  - intros _. split; [done|exact (conj Hn (conj Hsort Hlt))].
  - apply held_owns. split; [by right|done].
  - split; [intros y Hy; by split_and!|]. split.
    + intros n b _ Hnone (-> & _). unfold owns in Hnone. by rewrite lookup_singleton_eq in Hnone.
    + intros n b b' _ _ (_ & [Hbusy|Hbusy] & _); congruence.
  - apply Hg; [|etrans; [exact HG|]; intros y Hy; by split_and!|done].
    exact (conj Hcx (conj (Hb Hl) (conj Hn (conj Hsort Hlt)))).
Qed.

Lemma unlock_safe {A} (r : res A) x v c0 (Q : res A -> gmap nat cpriv -> NodeConnection -> Prop) :
  idle x v -> r <> Panic -> (forall c, evolves c0 c -> Q r ∅ c) ->
  csafe c0 (cowns v) (_ ← atomic unlock; pure r) Q.
Proof.
  intros (Hx & Hb & Hn & Hsort & Hlt) Hp HQ. cbn [mbind task_bind task_bind_ atomic]. apply owned_release.
  intros c HG HI Hbusy Hv. subst v. cbn [unlock]. cbn in *.
  assert (evolves c (with_lock false c)) as Hev by (intros y Hy; by split_and!).
  split; [|split; [done|]].
  - intros _. exact (conj (fun _ => Hb) (conj Hn (conj Hsort Hlt))).
  - intros c1 HG1 HI1 _. split; [done|]. exists ∅. split; [done|]. apply HQ. etrans; [exact HG|]. by etrans.
Qed.

(** *** Requests *)

(** [resp] is what the node has sealed in answer to the request [payload] of
    this connection, under that request's number and tag. *)
Definition answered (k : SessionCipher) (tag : byte) (payload resp : bytes) (log : list (Z * bytes)) : Prop :=
  exists seq frame, (seq, tag :: payload) ∈ log /\ open_response k frame = Ok (seq, tag :: resp).

Lemma answered_grows k tag payload resp log log' :
  log `prefix_of` log' -> answered k tag payload resp log -> answered k tag payload resp log'.
Proof.
  intros [l ->] (seq & frame & Hs & Ho). exists seq, frame. split; [|done]. apply elem_of_app. by left.
Qed.

Definition exchange_post (x : SessionCipher * arr 32) (tag : byte) (payload : bytes)
    (r : res bytes) (o : gmap nat cpriv) (c : NodeConnection) : Prop :=
  exists v, o = cowns v /\ idle x v /\ forall resp, r = Ok resp -> answered x.1 tag payload resp (q_sealed v).

Lemma idle_transport x v tv :
  idle x v -> p_borrowed tv = false -> idle x (with_q_transport v tv).
Proof. by intros (? & _ & ? & ? & ?). Qed.

Lemma idle_sealed x v log m tv :
  idle x v -> q_next v < MAX_SEQ -> log = q_sealed v ++ [(q_next v, m)] -> p_borrowed tv = false ->
  idle x {| q_transport := tv; q_session := q_session v; q_next := q_next v + 1; q_sealed := log |}.
Proof.
  intros (Hx & Hb & Hn & Hsort & Hlt) Hmax -> Htv. unfold idle. cbn [q_transport q_session q_next q_sealed].
  rewrite fmap_app. cbn [fmap list_fmap fst]. split_and!; [done|done|lia|lia|..].
  - clear -Hsort Hlt. induction (q_sealed v).*1 as [|q l IH]; [by repeat constructor|].
    apply StronglySorted_inv in Hsort as [Hsort Hq]. inversion Hlt as [|? ? Hq' Hl]; subst.
    cbn [app]. constructor; [by apply IH|]. apply Forall_app. split; [done|]. constructor; [lia|done].
  - apply Forall_app. split; [|constructor; [lia|done]]. eapply Forall_impl; [exact Hlt|]. cbn. intros; lia.
Qed.

Lemma exchange_err x tag payload e v c :
  idle x v -> exchange_post x tag payload (Err e) (cowns v) c.
Proof. intros Hv. exists v. by split_and!. Qed.

Lemma accept_response_Ok k tag seq frame resp :
  accept_response k tag seq frame = Ok resp <-> open_response k frame = Ok (seq, tag :: resp).
Proof.
  unfold accept_response. destruct (open_response k frame) as [[rs pt]|e|]; [|done..].
  cbn [mbind result_bind]. destruct (Z.eqb_spec rs seq) as [->|Hne]; cbn [negb]; [|naive_solver].
  destruct pt as [|b pt]; [done|]. case_bool_decide as Hb; cbn [negb].
  - injection Hb as ->. rewrite slice_tail. naive_solver.
  - split; [done|]. intros [= -> ->]. by destruct Hb.
Qed.

Lemma accept_response_total k tag seq frame : accept_response k tag seq frame <> Panic.
Proof.
  destruct (accept_response k tag seq frame) eqn:E; [done..|]. exfalso. revert E. unfold accept_response.
  destruct (open_response k frame) as [[rs pt]|e|] eqn:Ho; [|done|by apply open_response_total in Ho].
  cbn [mbind result_bind]. case_match; [done|]. destruct pt as [|b pt]; [done|]. case_bool_decide; [|done].
  by rewrite slice_tail.
Qed.

Lemma check_response_safe x tag payload frame seq v c :
  idle x v -> (seq, tag :: payload) ∈ q_sealed v ->
  csafe c (cowns v) (atomic (fun c => (c, k ← conn_cipher c; accept_response k tag seq frame)))
    (exchange_post x tag payload).
Proof.
  intros Hv Hseq. apply owned_await. intros c1 _ HI Hbusy Hc1.
  assert (conn_cipher c1 = Ok x.1) as ->.
  { destruct Hv as (Hs & _). unfold conn_cipher. rewrite <- Hc1 in Hs. cbn in Hs. rewrite Hs. by destruct x. }
  cbn [mbind result_bind]. do 3 (split; [done|]). rewrite Hc1.
  apply owned_done; [apply accept_response_total|]. intros c2 _ _ _ _. exists v. split_and!; [done..|].
  intros resp Hr. apply accept_response_Ok in Hr. by exists seq, frame.
Qed.

Lemma rely_steady v t t' :
  asked (pc t') = asked (pc t) -> installed (rx t') = installed (rx t) -> transport_rely v t t'.
Proof. by intros Ha _ _. Qed.

Lemma exchange_safe fuel tag payload x v c0 :
  idle x v -> session c0 = Some x -> csafe c0 (cowns v) (exchange fuel tag payload) (exchange_post x tag payload).
Proof.
  intros Hv Hx. unfold exchange. apply owned_atomic. intros c HG HI Hbusy Hc.
  unfold take_seq. destruct (Z.leb_spec MAX_SEQ (next_seq c)) as [Hmax|Hmax].
  { do 3 (split; [done|]). rewrite Hc. intros c1 _ _ _ _. by apply exchange_err. }
  destruct (HG x Hx) as (Hcx & _).
  assert (conn_inv {| transport := transport c; session := session c; next_seq := next_seq c + 1;
    request_lock := request_lock c; js_keygen := js_keygen c; sealed := sealed c |}) as HI1.
  { intros Hs. destruct (HI Hs) as (Hb & Hn & Hsort & Hlt). cbn. split_and!; [done|lia|lia|done|].
    eapply Forall_impl; [exact Hlt|]. cbn. intros; lia. }
  split; [done|]. split; [exact Hbusy|]. split; [intros y Hy; split_and!; cbn; (lia || done)|].
  assert (q_next v = next_seq c) as Hqn by (by rewrite <- Hc).
  apply owned_atomic. intros c1 HG1 HI2 Hbusy1 Hc1. set (seq := next_seq c) in *. unfold seal.
  assert (session c1 = Some x) as Hc1x by (by apply (HG1 x)).
  assert (conn_cipher c1 = Ok x.1) as -> by (unfold conn_cipher; rewrite Hc1x; by destruct x).
  cbn [mbind result_bind].
  assert (idle x (cprivate {| transport := transport c1; session := session c1; next_seq := next_seq c1;
    request_lock := request_lock c1; js_keygen := js_keygen c1; sealed := sealed c1 ++ [(seq, tag :: payload)] |})) as Hv1.
  { pose proof (f_equal q_transport Hc1) as Ht. pose proof (f_equal q_next Hc1) as Hn.
    pose proof (f_equal q_sealed Hc1) as Hq. destruct Hv as (Hvs & Hvb & Hrest).
    pose proof (idle_sealed x v (sealed c ++ [(seq, tag :: payload)]) (tag :: payload) (tprivate (transport c1)) (conj Hvs (conj Hvb Hrest))) as Hi.
    unfold cprivate in *. cbn [q_transport q_next q_sealed next_seq sealed transport session] in *.
    rewrite Hn, Hq, Hc1x. rewrite Hqn, Hvs in Hi. apply Hi; [done|by rewrite <- Hc|by rewrite Ht, <- Hc in *]. }
  split; [|split; [|split]].
  - intros Hs. destruct Hv1 as (_ & Hb & Hn & Hsort & Hlt). exact (conj (fun _ => Hb) (conj Hn (conj Hsort Hlt))).
  - exact Hbusy1.
  - intros y Hy. cbn. split_and!; [done|lia|by apply prefix_app_r|done].
  - destruct (seal_request x.1 seq (tag :: payload)) as [env|e|] eqn:He; [| |by apply seal_request_total in He].
    2: { intros c2 _ _ _ _. by apply exchange_err. }
    match type of Hv1 with idle _ ?w => set (v1 := w) in * end.
    assert ((seq, tag :: payload) ∈ q_sealed v1) as Hseq by (cbn; apply elem_of_app; right; by apply list_elem_of_singleton).
    assert (q_session v1 = Some x) as Hv1x by apply Hv1.
    apply on_transport_owned with (W := fun _ tv => p_borrowed tv = false).
    { intros _. reflexivity. }
    { eapply safe_mono; [apply _|by intros _| |apply send_frame_safe, rely_steady].
      intros r o t _ _ _ (out & _ & ->). eexists. split; [done|]. apply Hv1. }
    2: { intros e tv c2 Htv. by apply exchange_err, idle_transport. }
    intros _ tv c2 Htv _ Hc2. pose proof (idle_transport x v1 tv Hv1 Htv) as Hv2.
    apply on_transport_owned with (W := fun _ tv => p_borrowed tv = false).
    { exact Hc2. }
    { eapply safe_mono; [apply _|by intros _| |apply recv_frame_safe; [apply _|apply rely_steady|exact Htv]].
      intros r o t _ _ _ (fb & ->). by eexists. }
    2: { intros e tv' c3 Htv'. by apply exchange_err, idle_transport. }
    intros frame tv' c3 Htv' _ _. apply check_response_safe; [by apply idle_transport|exact Hseq].
Qed.

Definition trip_post (x : SessionCipher * arr 32) (tag : byte) (payload : bytes)
    (r : res bytes) (o : gmap nat cpriv) (c : NodeConnection) : Prop :=
  o = ∅ /\ forall resp, r = Ok resp -> answered x.1 tag payload resp (sealed c).

Lemma round_trip_safe fuel tag payload x c0 :
  session c0 = Some x -> csafe c0 ∅ (round_trip fuel tag payload) (trip_post x tag payload).
Proof.
  intros Hx. unfold round_trip. apply (lock_safe _ x); [done|]. intros v c Hv _ Hcx.
  apply (safe_bind conn_inv evolves ccell _ _ _ _ _
    (fun rr o c => session c = Some x /\ exists r, rr = Ok r /\ r <> Panic /\ exchange_post x tag payload r o c)).
  - apply safe_attempt. eapply safe_mono; [apply _|reflexivity| |apply (exchange_safe fuel tag payload x v c Hv Hcx)].
    intros r o c1 HG _ _ Hr Hp. split; [by apply (HG x)|]. by exists r.
  - intros r o c1 HG _ Ho (Hc1 & r' & [= <-] & Hp & (v1 & -> & Hv1 & Hr)).
    apply held_owns in Ho as [_ Ho]. apply (unlock_safe _ x); [done|done|].
    intros c2 HG2. split; [done|]. intros resp Hresp. eapply answered_grows; [|by apply Hr].
    rewrite <- Ho. by apply (HG2 x).
  - intros e o c1 _ _ _ (_ & r & [=] & _).
Qed.

(** A request around [round_trip]: it reads the next number for its id, writes
    its message, and reads the response. *)
Lemma request_safe {A} fuel tag (payload : Z -> res bytes) (k : bytes -> task NodeConnection A) x c0
    (Q : res A -> NodeConnection -> Prop) :
  (forall id, payload id <> Panic) -> (forall e c, Q (Err e) c) ->
  session c0 = Some x ->
  (forall id bs pt c, payload id = Ok bs -> session c = Some x -> answered x.1 tag bs pt (sealed c) ->
     csafe c ∅ (k pt) (fun r o c => o = ∅ /\ Q r c)) ->
  csafe c0 ∅ (id ← peek_seq; bs ← pure (payload id); pt ← round_trip fuel tag bs; k pt)
    (fun r o c => o = ∅ /\ Q r c).
Proof.
  intros Hp He Hx Hk.
  apply (safe_bind conn_inv evolves ccell _ _ _ _ _ (fun r o c => o = ∅ /\ session c = Some x)).
  - apply safe_atomic. intros c HG HI _. split_and!; [done|reflexivity|done|done|].
    intros c1 HG1 _ _. split; [done|]. apply HG1. by apply (HG x).
  - intros id o c _ _ _ [-> Hc]. destruct (payload id) as [bs|e|] eqn:E; [| |by apply Hp in E].
    2: { apply safe_done; [done|]. by split. }
    change (pure (Ok bs) ≫= ?f) with (f bs). cbv beta.
    apply (safe_bind conn_inv evolves ccell _ _ _ _ _
      (fun r o c => session c = Some x /\ trip_post x tag bs r o c)).
    + eapply safe_mono; [apply _|reflexivity| |by apply (round_trip_safe fuel tag bs x c)].
      intros r o c1 HG _ _ Hr. split; [by apply (HG x)|done].
    + intros pt o c1 _ _ _ (Hc1 & -> & Hans). apply (Hk id bs); [done|done|by apply Hans].
    + intros e o c1 _ _ _ (_ & -> & _). by split.
  - intros e o c _ _ _ [-> _]. by split.
Qed.

(** Reading a response that cannot panic. *)
Lemma response_safe {A} (r : res A) c (Q : res A -> NodeConnection -> Prop) :
  r <> Panic -> (forall c', evolves c c' -> Q r c') -> csafe c ∅ (pure r) (fun r o c => o = ∅ /\ Q r c).
Proof. intros Hp HQ. apply safe_done; [done|]. intros c' HG _. split; [done|by apply HQ]. Qed.

(** What a reply is worth: the node has sealed it in answer to that very
    request, and content is the content of the address. *)
Definition proper_reply (k : SessionCipher) (log : list (Z * bytes)) (q : request) (p : reply) : Prop :=
  match q, p with
  | AskContent address, Content content =>
      blake3_hash content = address /\
      exists id payload pt rid,
        message_encode {| request_id := id; body := GetRequest {| get_address := address |} |} = Ok payload /\
        answered k PROTO_CHUNK payload pt log /\
        message_decode pt = Ok {| request_id := rid; body := GetResponse (GetSuccess address content) |}
  | AskPeers address, Peers infos =>
      exists id payload pt rid,
        discovery_encode {| disc_request_id := id; disc_body := ClosestRequest {| closest_address := address |} |} = Ok payload /\
        answered k PROTO_DISCOVERY payload pt log /\
        discovery_decode pt = Ok {| disc_request_id := rid; disc_body := ClosestResponse {| peers := infos |} |}
  | AskRelay target offer, Answer sdp =>
      exists id payload pt rid,
        signal_encode {| sig_request_id := id;
          sig_body := SignalRequest {| target_peer_id := target; sdp_offer := offer |} |} = Ok payload /\
        answered k PROTO_SIGNAL payload pt log /\
        signal_decode pt = Ok {| sig_request_id := rid; sig_body := SignalResponse {| sdp_answer := sdp |} |}
  | AskChunk m, Response m' =>
      exists payload pt, message_encode m = Ok payload /\ answered k PROTO_CHUNK payload pt log /\ message_decode pt = Ok m'
  | _, _ => False
  end.

Lemma proper_reply_grows k log log' q p : log `prefix_of` log' -> proper_reply k log q p -> proper_reply k log' q p.
Proof.
  intros Hlog. assert (forall tag payload pt, answered k tag payload pt log -> answered k tag payload pt log') as Hg.
  { intros tag payload pt. by apply answered_grows. }
  destruct q, p; try done; cbn; naive_solver.
Qed.

Definition serve_post (x : SessionCipher * arr 32) (r : res (request * reply)) (c : NodeConnection) : Prop :=
  forall q p, r = Ok (q, p) -> proper_reply x.1 (sealed c) q p.

Context `{PL : !PostcardLaws}.

Lemma check_content_total address m : check_content address m <> Panic.
Proof. unfold check_content. destruct (body m) as [| |? |[] | | | |]; repeat case_match; done. Qed.

Lemma check_content_Ok address m content :
  check_content address m = Ok content <->
  blake3_hash content = address /\ body m = GetResponse (GetSuccess address content).
Proof.
  unfold check_content. split.
  - destruct (body m) as [| |? |[a c|a|e] | | | |]; try discriminate.
    case_bool_decide as Ha; [|discriminate]. cbn [negb]. cbv zeta.
    case_bool_decide as Hc; [|discriminate]. cbn [negb]. intros [= <-]. by subst.
  - intros [Hc ->]. rewrite bool_decide_true by done. cbn [negb]. cbv zeta. by rewrite bool_decide_true.
Qed.

(** After the response plaintext: a function of it alone. *)
Definition read_content (address : arr 32) (pt : bytes) : res bytes :=
  response ← message_decode pt; check_content address response.

Lemma get_verified_safe fuel address x c0 :
  session c0 = Some x ->
  csafe c0 ∅ (get_verified fuel address)
    (fun r o c => o = ∅ /\ forall content, r = Ok content ->
       proper_reply x.1 (sealed c) (AskContent address) (Content content)).
Proof.
  intros Hx. apply (request_safe fuel PROTO_CHUNK
    (fun id => message_encode {| request_id := id; body := GetRequest {| get_address := address |} |}) _ x);
    [intros; apply message_encode_no_panic|done|done|].
  intros id payload pt c Hpay Hc Hans. cbv beta.
  destruct (message_decode pt) as [m|e|] eqn:Hm; [| |by apply message_decode_no_panic in Hm].
  2: { by apply safe_done. }
  apply response_safe; [apply check_content_total|]. intros c' HG content Hcontent.
  apply check_content_Ok in Hcontent as [Hh Hb]. split; [done|]. exists id, payload, pt, (request_id m).
  split; [done|]. split; [eapply answered_grows; [|exact Hans]; by apply (HG x)|]. rewrite Hm. destruct m. cbn in *. by subst.
Qed.

Lemma closest_peers_safe fuel address x c0 :
  session c0 = Some x ->
  csafe c0 ∅ (closest_peers fuel address)
    (fun r o c => o = ∅ /\ forall infos, r = Ok infos ->
       proper_reply x.1 (sealed c) (AskPeers address) (Peers infos)).
Proof.
  intros Hx. apply (request_safe fuel PROTO_DISCOVERY
    (fun id => discovery_encode {| disc_request_id := id; disc_body := ClosestRequest {| closest_address := address |} |})
    _ x); [intros; apply discovery_encode_no_panic|done|done|].
  intros rid payload pt c Hpay Hc Hans. cbv beta.
  destruct (discovery_decode pt) as [[id b]|e|] eqn:Hm; [| |by apply discovery_decode_no_panic in Hm].
  2: { by apply safe_done. }
  cbn [mbind task_bind task_bind_ pure disc_body].
  destruct b as [q|r|e]; (apply response_safe; [done|]); intros c' HG infos; [done| |done].
  intros [= <-]. exists rid, payload, pt, id. split; [done|].
  split; [eapply answered_grows; [|exact Hans]; by apply (HG x)|].
  rewrite Hm. by destruct r.
Qed.

Lemma signal_relay_safe fuel target offer x c0 :
  session c0 = Some x ->
  csafe c0 ∅ (signal_relay fuel target offer)
    (fun r o c => o = ∅ /\ forall sdp, r = Ok sdp ->
       proper_reply x.1 (sealed c) (AskRelay target offer) (Answer sdp)).
Proof.
  intros Hx. apply (request_safe fuel PROTO_SIGNAL
    (fun id => signal_encode {| sig_request_id := id;
       sig_body := SignalRequest {| target_peer_id := target; sdp_offer := offer |} |})
    _ x); [intros; apply signal_encode_no_panic|done|done|].
  intros rid payload pt c Hpay Hc Hans. cbv beta.
  destruct (signal_decode pt) as [[id b]|e|] eqn:Hm; [| |by apply signal_decode_no_panic in Hm].
  2: { by apply safe_done. }
  cbn [mbind task_bind task_bind_ pure sig_body].
  destruct b as [q|r|e]; (apply response_safe; [done|]); intros c' HG sdp; [done| |done].
  intros [= <-]. exists rid, payload, pt, id. split; [done|].
  split; [eapply answered_grows; [|exact Hans]; by apply (HG x)|].
  rewrite Hm. by destruct r.
Qed.

Lemma chunk_round_trip_safe fuel m x c0 :
  session c0 = Some x ->
  csafe c0 ∅ (chunk_round_trip fuel m)
    (fun r o c => o = ∅ /\ forall m', r = Ok m' ->
       proper_reply x.1 (sealed c) (AskChunk m) (Response m')).
Proof.
  intros Hx. unfold chunk_round_trip.
  destruct (message_encode m) as [bs|e|] eqn:E; [| |by apply message_encode_no_panic in E].
  2: { by apply safe_done. }
  change (pure (Ok bs) ≫= ?f) with (f bs). cbv beta.
  eapply safe_bind; [apply _|by apply (round_trip_safe fuel PROTO_CHUNK bs x)|..].
  - intros pt o c HG _ _ [-> Hans]. apply response_safe; [apply message_decode_no_panic|].
    intros c' HG' m' Hm'. exists bs, pt. split; [done|]. split; [|done]. eapply answered_grows; [|by apply Hans].
    apply (HG' x). by apply (HG x).
  - intros e o c _ _ _ [-> _]. by split.
Qed.

Lemma serve_safe fuel q x c0 :
  session c0 = Some x -> csafe c0 ∅ (serve fuel q) (fun r o c => o = ∅ /\ serve_post x r c).
Proof.
  assert (forall A (t : task NodeConnection A) (wrap : A -> reply),
    csafe c0 ∅ t (fun r o c => o = ∅ /\ forall a, r = Ok a -> proper_reply x.1 (sealed c) q (wrap a)) ->
    session c0 = Some x ->
    csafe c0 ∅ (a ← t; mret (q, wrap a)) (fun r o c => o = ∅ /\ serve_post x r c)) as Hwrap.
  { intros A t wrap Ht Hx. eapply safe_bind; [apply _|exact Ht|..].
    - intros a o c HG _ _ [-> Ha]. apply safe_done; [done|]. intros c' HG' _. split; [done|].
      intros q' p [= <- <-]. specialize (Ha a eq_refl).
      eapply proper_reply_grows; [|exact Ha]. apply (HG' x). by apply (HG x).
    - intros e o c _ _ _ [-> _]. by split. }
  intros Hx. destruct q; (apply Hwrap; [|done]).
  - by apply get_verified_safe.
  - by apply closest_peers_safe.
  - by apply signal_relay_safe.
  - by apply chunk_round_trip_safe.
Qed.

(** *** Establishing *)

(** The session [x] comes from a handshake of ours that ended well. *)
Definition handshaken (exp : option (arr 32)) (x : SessionCipher * arr 32) : Prop :=
  exists rng hs hello accept,
    start rng = Ok (hs, hello) /\ finish hs accept exp = Ok {| cipher := x.1; est_peer_id := x.2 |}.

Definition est_post (exp : option (arr 32)) a (r : res unit) (o : gmap nat cpriv) (c : NodeConnection) : Prop :=
  match r with
  | Ok _ => o = ∅ /\ asked (pc (transport c)) = a /\ exists x, session c = Some x /\ handshaken exp x
  | _ => True
  end.

Context `{KL : !MlKemLaws}.

Lemma established_safe exp rng hs hello accept est v c0 :
  q_session v = None -> p_borrowed (q_transport v) = false ->
  start rng = Ok (hs, hello) -> finish hs accept exp = Ok est ->
  csafe c0 (cowns v) (atomic (established est)) (est_post exp (p_asked (q_transport v))).
Proof.
  intros Hs Hb Hstart Hfin. apply owned_release. intros c _ _ _ <-. cbn in Hs, Hb.
  split; [|split].
  - intros _. cbn. split_and!; [done|lia|by apply Z.leb_le|by constructor|by constructor].
  - intros y Hy. congruence.
  - apply safe_done; [done|]. intros c' HG _.
    destruct (HG (cipher est, est_peer_id est) eq_refl) as (Hs' & _ & _ & Ha).
    split; [done|]. split; [exact Ha|]. eexists. split; [exact Hs'|].
    exists rng, hs, hello, accept. split; [done|]. by destruct est.
Qed.

Lemma establish_safe fuel exp v c0 :
  q_session v = None -> p_borrowed (q_transport v) = false ->
  csafe c0 (cowns v) (establish fuel exp) (est_post exp (p_asked (q_transport v))).
Proof.
  intros Hs Hb. unfold establish. apply owned_atomic. intros c _ HI Hbusy Hc. unfold start_handshake.
  do 3 (split; [done|]). rewrite Hc. generalize (js_keygen c). intros rng.
  destruct (start rng) as [[hs hello]|e|] eqn:Hstart; [| |by apply start_total in Hstart].
  2: { done. }
  apply on_transport_owned with (W := fun _ tv => p_borrowed tv = false /\ p_asked tv = p_asked (q_transport v)).
  { congruence. }
  { eapply safe_mono; [apply _|by intros _| |apply send_frame_safe, rely_steady].
    intros r o t _ _ _ (out & _ & ->). by eexists. }
  2: { done. }
  intros _ tv c2 [Htv Hav] _ _.
  apply on_transport_owned with (W := fun _ tv => p_borrowed tv = false /\ p_asked tv = p_asked (q_transport v)).
  { cbn. congruence. }
  { eapply safe_mono; [apply _|by intros _| |apply recv_frame_safe; [apply _|apply rely_steady|exact Htv]].
    intros r o t _ _ _ (fb & ->). by eexists. }
  2: { done. }
  intros accept tv' c3 [Htv' Hav'] _ _.
  destruct (finish hs accept exp) as [est|e|] eqn:Hfin; [| |by apply finish_total in Hfin].
  2: { by apply owned_done. }
  change (pure (Ok est) ≫= ?f) with (f est). cbv beta. rewrite <- Hav'.
  by apply (established_safe exp rng hs hello accept est (with_q_transport (with_q_transport v tv) tv')).
Qed.

(** Nobody relies on a transport that is being opened. *)
Lemma opening_safe {A} (t : task Transport A) v t0 (Q : res A -> gmap nat tpriv -> Transport -> Prop) :
  q_session v = None ->
  safe tinv anything tcell t0 (towns (q_transport v)) t Q ->
  safe tinv (transport_rely v) tcell t0 (towns (q_transport v)) t Q.
Proof. intros Hs. apply safe_equivalent. intros t1 t2. split; [|done]. intros _ Hv. by destruct Hv. Qed.

(** The two halves of a relayed opening. *)
Lemma relay_offer_conn_safe stun v c0 :
  q_session v = None ->
  csafe c0 (cowns v) (on_transport (relay_offer stun))
    (fun r o c => forall offer, r = Ok offer -> exists tv, o = cowns (with_q_transport v tv)).
Proof.
  intros Hs. eapply on_transport_safe; [congruence|apply opening_safe; [done|apply relay_offer_safe]|].
  intros r o c _ _ _ Hpost offer ->. cbn in Hpost. destruct Hpost as (a & ->). eexists. unfold owns. by rewrite map_fmap_singleton.
Qed.

Lemma relay_answer_conn_safe answer v c0 :
  q_session v = None ->
  csafe c0 (cowns v) (on_transport (relay_answer answer))
    (fun r o c => r = Ok tt -> exists tv, p_borrowed tv = false /\ o = cowns (with_q_transport v tv)).
Proof.
  intros Hs. eapply on_transport_safe; [congruence|apply opening_safe; [done|apply relay_answer_safe]|].
  intros r o c _ _ _ Hpost ->. cbn in Hpost. destruct Hpost as (a & ->).
  exists (opened_priv a (p_sent (q_transport v))). split; [done|]. unfold owns. by rewrite map_fmap_singleton.
Qed.

Lemma conn_connect_safe unicode_upper2 fuel ip port fp exp v c0 :
  q_session v = None ->
  csafe c0 (cowns v) (conn_connect unicode_upper2 fuel ip port fp exp)
    (fun r o c => r = Ok tt -> exists a, connect_asked unicode_upper2 ip port fp (p_asked (q_transport v)).2 a /\ est_post exp a r o c).
Proof.
  intros Hs. unfold conn_connect.
  apply (safe_bind conn_inv evolves ccell _ _ _ _ _ (fun r o c => r = Ok tt -> exists tv,
    o = cowns (with_q_transport v tv) /\ p_borrowed tv = false /\
    connect_asked unicode_upper2 ip port fp (p_asked (q_transport v)).2 (p_asked tv))).
  - eapply on_transport_safe; [congruence|apply opening_safe; [done|apply connect_safe]|].
    intros r o c _ _ _ Hpost ->. cbn in Hpost. destruct Hpost as (a & Ha & ->).
    exists (opened_priv a (p_sent (q_transport v))). split; [|done]. unfold owns. by rewrite map_fmap_singleton.
  - intros [] o c _ _ _ Hr. destruct (Hr eq_refl) as (tv & -> & Hb & Ha).
    eapply safe_mono; [apply _|reflexivity| |apply establish_safe; [exact Hs|exact Hb]].
    intros r o c' _ _ _ Hpost _. by eexists.
  - done.
Qed.

(** ** Properties *)

(** C4: whatever the network and the browser do, an attempt to connect never
    panics, and when it gives a connection, its data channel goes to the
    certificate with the given fingerprint at the given address, and the peer
    at its other end has signed this handshake: the connection's peer id is the
    hash of a public key under which the signature over the client's own fresh
    encapsulation key verified, it is the expected one when one was given, and
    the session key comes from the secret encapsulated to that key.  The
    connection then satisfies the invariant on which requests rely. *)
Theorem connect_authenticates (unicode_upper2 : byte -> byte -> string) (fuel : nat) (ip : string) (port : Z) (cert_hash_hex : string)
    (expected : option (arr 32)) (c c' : NodeConnection) (r : res unit)
    (Hnew : session c = None)
    (Hrun : runs conn_env c (conn_connect unicode_upper2 fuel ip port cert_hash_hex expected) c' r) :
  r <> Panic /\
  (r = Ok tt ->
    exists k id, session c' = Some (k, id) /\ conn_inv c' /\
      (forall p, expected = Some p -> p = id) /\
      (exists rng hs hello ct pk sig vk c ss,
         start rng = Ok (hs, hello) /\ id = blake3_hash (pk : arr PK_LEN) /\
         pk_try_from_bytes pk = Some vk /\ dsa_verify vk (auth_message (ek_bytes hs) ct) sig [] = true /\
         ct_try_from_bytes ct = Some c /\ try_decaps (dk hs) c = Some ss /\ k = from_shared_secret ss) /\
      (exists ufrag : arr 32, remote_sdp (pc (transport c')) = Some (server_answer ip port (hex_encode ufrag)
         (fingerprint_to_colon_form unicode_upper2 cert_hash_hex)))).
Proof.
  destruct (runs_safe conn_inv evolves ccell conn_env conn_env_cells _ c c (cowns (cprivate c)) c' r _
    (conn_connect_safe unicode_upper2 fuel ip port cert_hash_hex expected (cprivate c) c Hnew) ltac:(reflexivity)
    ltac:(by intros Hs; destruct Hs) ltac:(apply held_owns; split; [by left|done]) Hrun)
    as (Hp & HI & _ & o & _ & Hpost).
  split; [done|]. intros ->. destruct (Hpost eq_refl) as (a & (u & offer & munged & _ & ->) & _ & Ha & [k id] & Hs & Hh).
  exists k, id. split; [done|]. split; [done|]. destruct Hh as (rng & hs & hello & accept & Hstart & Hf).
  destruct (finish_cases hs accept expected) as [[[e He] _]|(ct & pk & sig & rest & _ & He)]; rewrite He in Hf; [done|].
  apply accept_checks_Ok in Hf as (vk & ct' & ss & Hvk & Hver & Hexp & Hct & Hss & [= -> ->]).
  split; [done|]. split; [by exists rng, hs, hello, ct, pk, sig, vk, ct', ss|].
  exists u. unfold asked in Ha. by injection Ha.
Qed.

(** A connection whose requests are made by any number of tasks, started and
    polled in any order. *)
Definition connection_run (fuel : nat) (c0 : NodeConnection)
    (conf : NodeConnection * list (task NodeConnection (request * reply))) : Prop :=
  reachable conn_env (fun t => exists q, t = serve fuel q) c0 conf.

Lemma connection_run_safe fuel x c0 c ts :
  session c0 = Some x -> conn_inv c0 -> connection_run fuel c0 (c, ts) ->
  conn_inv c /\ evolves c0 c /\ forall i r, ts !! i = Some (Done r) -> r <> Panic /\ serve_post x r c.
Proof.
  intros Hx HI Hr. refine (adequacy conn_inv evolves ccell conn_env _ (serve_post x) c0 _ _ (c, ts) HI Hr).
  - apply conn_env_cells.
  - intros c1 t HG _ [q ->]. apply serve_safe. by apply (HG x).
Qed.

(** C6: however many requests overlap on one connection, in whatever order
    they are polled and whatever arrives, no task panics (the receiver is never
    borrowed twice), the session and the descriptions that pin it never
    change, and no nonce is used twice: the numbers under which requests are
    sealed increase and stay below [MAX_SEQ], so that the nonces are pairwise
    different.  Whenever no request holds the lock, the receiver is free. *)
Theorem requests_keep_connection (fuel : nat) (x : SessionCipher * arr 32) (c0 c : NodeConnection)
    (ts : list (task NodeConnection (request * reply)))
    (Hx : session c0 = Some x) (HI : conn_inv c0) (Hrun : connection_run fuel c0 (c, ts)) :
  (forall i r, ts !! i = Some (Done r) -> r <> Panic) /\
  session c = Some x /\ asked (pc (transport c)) = asked (pc (transport c0)) /\
  (request_lock c = false -> borrowed (rx (transport c)) = false) /\
  sealed c0 `prefix_of` sealed c /\ Forall (fun q => 1 <= q.1 < MAX_SEQ) (sealed c) /\
  NoDup ((fun q => build_nonce q.1 ClientToServer) <$> sealed c).
Proof.
  destruct (connection_run_safe fuel x c0 c ts Hx HI Hrun) as (HI' & HG & Hts).
  destruct (HG x Hx) as (Hs & _ & Hpre & Ha). destruct (HI' ltac:(congruence)) as (Hb & Hn & Hsort & Hlt).
  split_and!; try done; [intros i r Hi; by apply (Hts i r)| |].
  - apply Forall_fmap in Hlt. eapply Forall_impl; [exact Hlt|]. cbn. intros; lia.
  - change (NoDup ((fun seq => build_nonce seq ClientToServer) ∘ fst <$> sealed c)). rewrite list_fmap_compose.
    assert (Forall (fun q => is_u32 q) (sealed c).*1) as H32.
    { eapply Forall_impl; [exact Hlt|]. cbn. unfold is_u32, MAX_SEQ in *. intros; lia. }
    clear -Hsort H32. induction Hsort as [|q l Hl IH Hq]; [constructor|].
    apply Forall_cons in H32 as [Hq32 Hl32]. cbn [fmap list_fmap]. constructor; [|by apply IH].
    rewrite list_elem_of_fmap. intros (q' & Hn & Hin).
    rewrite Forall_forall in Hq, Hl32. apply build_nonce_inj in Hn as [-> _]; [|done|by apply Hl32].
    specialize (Hq q' Hin). lia.
Qed.

(** C5: in the same circumstances, every request that ends with a reply ends
    with one that the authenticated node sealed for that very request, under
    its number and tag, and that has the type the request asks for; the content a GET ends with hashes to the address. *)
Theorem replies_authentic (fuel : nat) (x : SessionCipher * arr 32) (c0 c : NodeConnection)
    (ts : list (task NodeConnection (request * reply))) (i : nat) (q : request) (p : reply)
    (Hx : session c0 = Some x) (HI : conn_inv c0) (Hrun : connection_run fuel c0 (c, ts))
    (Hi : ts !! i = Some (Done (Ok (q, p)))) :
  proper_reply x.1 (sealed c) q p.
Proof.
  destruct (connection_run_safe fuel x c0 c ts Hx HI Hrun) as (_ & _ & Hts).
  by destruct (Hts i _ Hi) as (_ & Hpost); apply Hpost.
Qed.

(** ** A request alone on its connection *)

Lemma poll_on_transport {A} (t : task Transport A) c :
  poll (on_transport t) c = (with_transport (poll t (transport c)).1 c, on_transport (poll t (transport c)).2).
Proof. apply poll_zoom; try done. intros t' c' [= <-]. by destruct c'. Qed.

Lemma prompt_exchange fuel tag payload : prompt (exchange fuel tag payload).
Proof.
  unfold exchange. apply prompt_bind; [apply prompt_atomic|]. intros seq.
  apply prompt_bind; [apply prompt_atomic|]. intros env.
  apply prompt_bind; [apply prompt_zoom, prompt_atomic|]. intros _.
  apply prompt_bind; [apply prompt_zoom, prompt_recv_frame|]. intros frame. apply prompt_atomic.
Qed.

(** The request on its way: the envelope is sent, the lock held, and what is
    left to do is to await the response frame. *)
Definition requesting (tagged : bytes) (c : NodeConnection) (t : Transport) : NodeConnection := {|
  transport := t; session := session c; next_seq := next_seq c + 1; request_lock := true;
  js_keygen := js_keygen c; sealed := sealed c ++ [(next_seq c, tagged)] |}.

Definition awaiting (left : nat) (tag : byte) (seq : Z) : task NodeConnection bytes :=
  r ← attempt (frame ← on_transport (waiting (recv_frame left));
               atomic (fun c => (c, k ← conn_cipher c; accept_response k tag seq frame)));
  _ ← atomic unlock;
  pure r.

Lemma poll_request fuel tag payload k id c env :
  session c = Some (k, id) -> request_lock c = false -> next_seq c < MAX_SEQ ->
  rx (transport c) = idle_rx false ->
  frame_buf (transport c) = FrameBuf_new ->
  seal_request k (next_seq c) (tag :: payload) = Ok env ->
  (List.length (split_messages (encode_frame env)) <= send_room (dc (transport c)))%nat ->
  (0 < fuel)%nat ->
  exists t1, poll (round_trip fuel tag payload) c = (requesting (tag :: payload) c t1, awaiting (fuel - 1) tag (next_seq c)) /\
    sent (dc t1) = sent (dc (transport c)) ++ split_messages (encode_frame env) /\
    frame_buf t1 = FrameBuf_new /\
    rx t1 = idle_rx true /\
    send_room (dc t1) = (send_room (dc (transport c)) - List.length (split_messages (encode_frame env)))%nat.
Proof.
  intros Hs Hl Hn Hrx Hbuf Henv Hroom Hfuel. destruct fuel as [|fuel]; [lia|].
  replace (S fuel - 1)%nat with fuel by lia.
  set (t0 := (send_frame env (transport c)).1).
  set (t1 := with_rx (idle_rx true) t0).
  assert (send_frame env (transport c) = (t0, Ok tt) /\ rx t0 = rx (transport c) /\ frame_buf t0 = frame_buf (transport c) /\
    sent (dc t0) = sent (dc (transport c)) ++ split_messages (encode_frame env) /\
    send_room (dc t0) = (send_room (dc (transport c)) - List.length (split_messages (encode_frame env)))%nat)
    as (Hsend & Hrx0 & Hbuf0 & Hsent & Hroom0).
  { unfold t0. unfold send_frame. rewrite send_all_spec. rewrite (proj2 (Nat.leb_le _ _) Hroom). by split_and!. }
  rewrite Hrx in Hrx0. rewrite Hbuf in Hbuf0.
  exists t1. split; [|by split_and!].
  unfold round_trip. cbn [mbind task_bind task_bind_ lock poll]. rewrite Hl.
  cbn [task_bind_ poll].
  rewrite poll_bind, poll_attempt by (apply prompt_exchange || apply prompt_attempt, prompt_exchange).
  assert (poll (exchange (S fuel) tag payload) (with_lock true c) = (requesting (tag :: payload) c t1,
    frame ← on_transport (waiting (recv_frame fuel));
    atomic (fun c' => (c', k ← conn_cipher c'; accept_response k tag (next_seq c) frame)))) as ->; [|reflexivity].
  unfold exchange. rewrite poll_atomic. unfold take_seq. cbn [next_seq with_lock].
  rewrite (proj2 (Z.leb_gt _ _)) by lia. rewrite poll_atomic. unfold seal, conn_cipher at 1. cbn [session with_lock].
  rewrite Hs. cbn [mbind result_bind]. rewrite Henv.
  rewrite poll_bind by apply prompt_zoom, prompt_atomic. rewrite poll_on_transport.
  cbn [transport with_lock poll atomic]. rewrite Hsend. cbn [fst snd on_transport zoom].
  rewrite poll_bind by apply prompt_zoom, prompt_recv_frame. rewrite poll_on_transport.
  cbn [transport with_transport]. rewrite poll_recv_idle by done. unfold requesting. rewrite Hs. reflexivity.
Qed.

(** The response arrives. *)
Lemma poll_response left tag seq k id c ms reply :
  session c = Some (k, id) ->
  rx (transport c) = idle_rx true -> frame_buf (transport c) = FrameBuf_new ->
  frame_ok reply -> mjoin ms = encode_frame reply -> (List.length ms <= left)%nat ->
  exists c2,
    poll (awaiting left tag seq) (with_transport (deliver ms (transport c)) c)
      = (c2, Done (accept_response k tag seq reply)) /\
    session c2 = session c /\ next_seq c2 = next_seq c /\ sealed c2 = sealed c /\ request_lock c2 = false /\
    stream (transport c2) = [] /\ borrowed (rx (transport c2)) = false /\
    transport c2 = (poll (waiting (recv_frame left)) (deliver ms (transport c))).1.
Proof.
  intros Hs Hrx Hbuf Hok Hms Hleft.
  destruct (deliver_spec ms (transport c)) as (Hstr & Hrx' & Hf'); [by rewrite Hrx..|].
  set (t := deliver ms (transport c)) in *. rewrite Hrx in Hrx'. rewrite Hbuf in Hf'.
  assert (stream t = encode_frame reply) as Hst.
  { rewrite Hstr, Hms. unfold stream. by rewrite Hrx, Hbuf. }
  pose proof (poll_waiting left t ltac:(by rewrite Hrx') ltac:(by rewrite Hrx') ltac:(by rewrite Hf'))
    as (_ & _ & _ & _ & Hr).
  rewrite Hst, <- (app_nil_r (encode_frame reply)), parse_encode in Hr by done. destruct Hr as (Hk & Hst' & Hb').
  exists (with_lock false (with_transport (poll (waiting (recv_frame left)) t).1 (with_transport t c))).
  split; [|by split_and!].
  assert (prompt (frame ← on_transport (waiting (recv_frame left));
    atomic (fun c => (c, k ← conn_cipher c; accept_response k tag seq frame)))) as Hprompt.
  { apply prompt_bind; [apply prompt_zoom, prompt_waiting, prompt_recv_frame|]. intros. apply prompt_atomic. }
  unfold awaiting. rewrite poll_bind, poll_attempt by (done || by apply prompt_attempt).
  rewrite poll_bind by apply prompt_zoom, prompt_waiting, prompt_recv_frame.
  rewrite poll_on_transport. cbn [transport with_transport]. rewrite Hk. cbn [on_transport zoom poll atomic].
  unfold conn_cipher. cbn [session with_transport]. rewrite Hs. cbn [mbind result_bind].
  destruct (accept_response k tag seq reply) as [resp|e|] eqn:E; [done..|].
  by apply accept_response_total in E.
Qed.

Context `{CL : !ChaChaLaws}.

(** C16: a request on an idle connection does what it should in two polls.  The
    first takes the lock and the next sequence number, sends exactly the sealed
    request, cut into messages, and waits.  When the bytes of one frame have
    arrived, cut into messages in any way, the second releases the lock and
    ends with the payload if the frame is the node's sealing of a plaintext
    with the request's tag under the request's number, and with an error
    otherwise; either way the connection is ready for the next request. *)
Theorem round_trip_exchange (fuel : nat) (tag : byte) (payload : bytes) (k : SessionCipher) (id : arr 32)
    (c : NodeConnection) (env reply : bytes) (ms : list bytes)
    (Hs : session c = Some (k, id)) (Hl : request_lock c = false) (Hn : 0 <= next_seq c < MAX_SEQ)
    (Hrx : rx (transport c) = idle_rx false) (Hbuf : frame_buf (transport c) = FrameBuf_new)
    (Henv : seal_request k (next_seq c) (tag :: payload) = Ok env)
    (Hroom : (List.length (split_messages (encode_frame env)) <= send_room (dc (transport c)))%nat)
    (Hreply : frame_ok reply) (Hms : mjoin ms = encode_frame reply) (Hfuel : (List.length ms < fuel)%nat) :
  let (c1, t1) := poll (round_trip fuel tag payload) c in
  request_lock c1 = true /\
  sent (dc (transport c1)) = sent (dc (transport c)) ++ split_messages (encode_frame env) /\
  exists c2 r,
    poll t1 (with_transport (deliver ms (transport c1)) c1) = (c2, Done r) /\
    session c2 = session c /\ next_seq c2 = next_seq c + 1 /\ request_lock c2 = false /\
    stream (transport c2) = [] /\ borrowed (rx (transport c2)) = false /\
    (forall resp, server_seal k (next_seq c) (tag :: resp) = Some reply -> r = Ok resp) /\
    ((forall resp, server_seal k (next_seq c) (tag :: resp) <> Some reply) -> exists e, r = Err e).
Proof.
  destruct (poll_request fuel tag payload k id c env Hs Hl (proj2 Hn) Hrx Hbuf Henv Hroom ltac:(lia))
    as (t1 & -> & Hsent & Hbuf1 & Hrx1 & _).
  split; [done|]. split; [done|].
  destruct (poll_response (fuel - 1) tag (next_seq c) k id (requesting (tag :: payload) c t1) ms reply Hs Hrx1 Hbuf1 Hreply Hms
    ltac:(lia)) as (c2 & Hp & Hs2 & Hn2 & _ & Hl2 & Hst & Hb & _).
  exists c2, (accept_response k tag (next_seq c) reply). do 6 (split; [done|]).
  assert (is_u32 (next_seq c)) as H32 by (unfold is_u32; unfold MAX_SEQ in Hn; lia).
  split.
  - intros resp Hr. apply accept_response_Ok. by apply open_server_seal.
  - intros Hno. destruct (accept_response k tag (next_seq c) reply) as [resp|e|] eqn:E; [|by eexists|].
    + exfalso. apply accept_response_Ok, session_ok in E. by eapply Hno.
    + by apply accept_response_total in E.
Qed.

(** When the sequence space of a session is used up, every further request
    is refused at once with the advice to reconnect, without sending or sealing
    anything, and the connection stays as it was. *)
Theorem sequence_exhausted (fuel : nat) (tag : byte) (payload : bytes) (c : NodeConnection)
    (Hl : request_lock c = false) (Hn : MAX_SEQ <= next_seq c) :
  poll (round_trip fuel tag payload) c
    = (c, Done (Err "session sequence space exhausted; reconnect")).
Proof.
  unfold round_trip. cbn [mbind task_bind task_bind_ lock poll]. rewrite Hl. cbn [task_bind_ poll].
  rewrite poll_bind, poll_attempt by (apply prompt_exchange || apply prompt_attempt, prompt_exchange).
  unfold exchange. rewrite poll_atomic. unfold take_seq. cbn [next_seq with_lock].
  rewrite (proj2 (Z.leb_le _ _)) by lia. destruct c. cbn in *. by subst.
Qed.
End Conn.

(** ** Witnesses *)

Module Witnesses.
Import ToyCrypto.
#[local] Existing Instances HexRef.hex_ref PostcardRef.postcard_ref PostcardRef.postcard_ref_laws.

Definition no_case (a b : byte) : string := EmptyString.

(** An idle connection, and the node's sealing of a response on it. *)
Definition established_session : SessionCipher * arr 32 := (Tunnel.Witnesses.session, pad 32 [x05]).

Definition idle_conn (next : Z) : NodeConnection := {|
  transport := open_transport []; session := Some established_session; next_seq := next;
  request_lock := false; js_keygen := Tunnel.Witnesses.rng; sealed := [] |}.

Definition node_reply (seq : Z) (plaintext : bytes) : bytes :=
  default [] (server_seal Tunnel.Witnesses.session seq plaintext).

Definition client_envelope (seq : Z) (plaintext : bytes) : bytes :=
  match seal_request Tunnel.Witnesses.session seq plaintext with Ok e => e | _ => [] end.

Lemma round_trip_exchange_witness :
  let (c1, t1) := poll (round_trip 5 PROTO_CHUNK [x07]) (idle_conn 1) in
  exists c2,
    poll t1 (with_transport (deliver [encode_frame (node_reply 1 [PROTO_CHUNK; x2a])] (transport c1)) c1)
      = (c2, Done (Ok [x2a])).
Proof.
  assert (seal_request Tunnel.Witnesses.session 1 [PROTO_CHUNK; x07] = Ok (client_envelope 1 [PROTO_CHUNK; x07])) as Henv
    by (vm_compute; reflexivity).
  assert (frame_ok (node_reply 1 [PROTO_CHUNK; x2a])) as Hok by (by vm_compute).
  assert (List.length (split_messages (encode_frame (client_envelope 1 [PROTO_CHUNK; x07]))) <= 100)%nat as Hroom
    by (apply Nat.leb_le; vm_compute; reflexivity).
  pose proof (round_trip_exchange (CL := chacha_toy_laws) 5 PROTO_CHUNK [x07] Tunnel.Witnesses.session (pad 32 [x05])
    (idle_conn 1) (client_envelope 1 [PROTO_CHUNK; x07]) (node_reply 1 [PROTO_CHUNK; x2a])
    [encode_frame (node_reply 1 [PROTO_CHUNK; x2a])] eq_refl eq_refl ltac:(by vm_compute) eq_refl eq_refl Henv Hroom Hok
    (app_nil_r _) ltac:(cbn; lia)) as Hex.
  destruct (poll (round_trip 5 PROTO_CHUNK [x07]) (idle_conn 1)) as [c1 t1].
  destruct Hex as (_ & _ & c2 & r & Hp & _ & _ & _ & _ & _ & Hr & _). exists c2. rewrite Hp.
  rewrite (Hr [x2a]); [done|]. vm_compute. reflexivity.
Defined.

Lemma sequence_exhausted_witness :
  MAX_SEQ <= MAX_SEQ /\
  poll (round_trip 5 PROTO_CHUNK [x07]) (idle_conn MAX_SEQ)
    = (idle_conn MAX_SEQ, Done (Err "session sequence space exhausted; reconnect")).
Proof.
  split; [done|]. apply (sequence_exhausted 5 PROTO_CHUNK [x07] (idle_conn MAX_SEQ)); done.
Defined.

Lemma idle_conn_inv : conn_inv (idle_conn 1).
Proof. intros _. cbn. split_and!; [done|lia|by apply Z.leb_le|constructor|constructor]. Qed.

(** A GET served in two polls: its configuration in the end. *)
Definition content : bytes := [x61; x62; x63].
Definition get : request := AskContent (blake3_hash content).
Definition get_reply : bytes :=
  node_reply 1 (PROTO_CHUNK :: message_layout
    {| request_id := 1; body := GetResponse (GetSuccess (blake3_hash content) content) |}).

Definition asked_conf : NodeConnection * task NodeConnection (request * reply) :=
  poll (serve 5 get) (idle_conn 1).
Definition arrived : NodeConnection :=
  with_transport (on_message (Some (encode_frame get_reply)) (transport asked_conf.1)) asked_conf.1.
Definition served : NodeConnection * task NodeConnection (request * reply) := poll asked_conf.2 arrived.

Lemma served_reachable : connection_run 5 (idle_conn 1) (served.1, [Done (Ok (get, Content content))]).
Proof.
  assert (served.2 = Done (Ok (get, Content content))) as <- by (vm_compute; reflexivity).
  assert (connection_run 5 (idle_conn 1) (idle_conn 1, [serve 5 get])) as H1.
  { eapply reach_step; [apply reach_init|]. apply (step_spawn _ _ _ []). by exists get. }
  assert (connection_run 5 (idle_conn 1) (asked_conf.1, [asked_conf.2])) as H2.
  { eapply reach_step; [exact H1|]. exact (step_poll _ _ (idle_conn 1) [serve 5 get] 0%nat _ _ _ eq_refl (surjective_pairing _)). }
  assert (connection_run 5 (idle_conn 1) (arrived, [asked_conf.2])) as H3.
  { eapply reach_step; [exact H2|]. apply step_env. apply conn_env_transport, env_message. }
  eapply reach_step; [exact H3|]. exact (step_poll _ _ arrived [asked_conf.2] 0%nat _ _ _ eq_refl (surjective_pairing _)).
Qed.

Lemma requests_keep_connection_witness :
  conn_inv (idle_conn 1) /\
  connection_run 5 (idle_conn 1) (served.1, [Done (Ok (get, Content content))]) /\
  session served.1 = Some established_session.
Proof.
  split; [exact idle_conn_inv|]. split; [exact served_reachable|].
  apply (requests_keep_connection (PL := PostcardRef.postcard_ref_laws) 5 established_session (idle_conn 1) served.1
    [Done (Ok (get, Content content))] eq_refl idle_conn_inv served_reachable).
Defined.

Lemma replies_authentic_witness :
  connection_run 5 (idle_conn 1) (served.1, [Done (Ok (get, Content content))]) /\
  proper_reply Tunnel.Witnesses.session (sealed served.1) get (Content content).
Proof.
  split; [exact served_reachable|].
  apply (replies_authentic (PL := PostcardRef.postcard_ref_laws) 5 established_session (idle_conn 1) served.1
    [Done (Ok (get, Content content))] 0 get (Content content) eq_refl idle_conn_inv served_reachable eq_refl).
Defined.

(** A connection to a node that follows the protocol. *)
Definition new_conn : NodeConnection := {|
  transport := ready_transport; session := None; next_seq := 0; request_lock := false;
  js_keygen := Tunnel.Witnesses.rng; sealed := [] |}.
Definition node_id : arr 32 := blake3_hash (sk_public Tunnel.Witnesses.sk).
Definition connecting : task NodeConnection unit :=
  conn_connect no_case 5 "1.2.3.4" 4433 "ab" (Some node_id).
Definition hello_sent : NodeConnection * task NodeConnection unit := poll connecting new_conn.
Definition accepted : NodeConnection :=
  with_transport (on_message (Some (encode_frame Tunnel.Witnesses.frame)) (transport hello_sent.1)) hello_sent.1.

Lemma connect_authenticates_witness :
  runs conn_env new_conn connecting (poll hello_sent.2 accepted).1 (Ok tt) /\
  exists k, session (poll hello_sent.2 accepted).1 = Some (k, node_id).
Proof.
  assert ((poll hello_sent.2 accepted).2 = Done (Ok tt)) as Hdone by (vm_compute; reflexivity).
  assert (runs conn_env new_conn connecting (poll hello_sent.2 accepted).1 (Ok tt)) as Hrun.
  { apply (runs_two conn_env connecting new_conn hello_sent accepted (Ok tt)); [by unfold hello_sent| |exact Hdone].
    apply rtc_once, conn_env_transport, env_message. }
  split; [exact Hrun|].
  destruct (connect_authenticates (H0 := blake3_toy) (H1 := mlkem_toy) (H2 := mldsa_toy) (KL := mlkem_toy_laws) no_case 5 "1.2.3.4" 4433 "ab"
    (Some node_id) new_conn _ _ eq_refl Hrun) as (_ & Hok).
  destruct (Hok eq_refl) as (k & id & Hs & _ & Hid & _). exists k. rewrite Hs. by rewrite (Hid _ eq_refl).
Defined.
End Witnesses.
