(* ===== verification/Progress.v ===== *)
(** * The life of a request, and what ends it

    The requests on one connection as an abstract machine: they wait for each
    other, at most one is in flight, and each flight has a number of its own.
    Every interleaving of the tasks of file [Conn] is a run of that machine; and
    once the channel has closed, two rounds of polling end every request. *)

From S2P Require Import Prelude Text Crates RefCrates Framing Sdp Serde Wire RefCodec Protocol Discovery Tunnel Async Transport Conn.

(** ** A reception at any fuel *)

(** The outcomes of polling a reception that may read [fuel - 1] messages
    before it must end: it ends, it waits for more, having read all there was,
    or it cannot go on, with more messages in the queue than it may read. *)
Inductive reception (fuel : nat) (t t' : Transport) : task Transport bytes -> Prop :=
  | received r : r <> Panic -> borrowed (rx t') = false -> reception fuel t t' (Done r)
  | receiving m : (S m + List.length (queue (rx t)) = fuel)%nat -> borrowed (rx t') = true ->
      closed (rx t) = false -> queue (rx t') = [] -> reception fuel t t' (waiting (recv_frame m))
  | out_of_fuel : (fuel <= List.length (queue (rx t)))%nat -> reception fuel t t' hang.

(** A reception never opens or closes the channel, nor fills its queue. *)
Definition drains (t t' : Transport) : Prop :=
  closed (rx t') = closed (rx t) /\ (List.length (queue (rx t')) <= List.length (queue (rx t)))%nat.

Definition receives (fuel : nat) (t : Transport) (polled : Transport * task Transport bytes) : Prop :=
  drains t polled.1 /\ reception fuel t polled.1 polled.2.

Lemma receives_recv n t :
  (forall t, borrowed (rx t) = true -> receives (S n) t (poll (waiting (recv_frame n)) t)) ->
  borrowed (rx t) = false -> receives (S n) t (poll (recv_frame (S n)) t).
Proof.
  intros IH Hb. rewrite poll_recv_S by done. destruct (parse_frame _).
  - destruct (IH (with_rx (with_queue (queue (rx t)) true (rx t)) t) eq_refl) as [Hd Hr].
    split; [exact Hd|]. destruct Hr; by constructor.
  - split; [done|]. by constructor.
  - split; [done|]. by constructor.
Qed.

Lemma receives_waiting n : forall t,
  borrowed (rx t) = true -> receives (S n) t (poll (waiting (recv_frame n)) t).
Proof.
  induction n as [|n IH]; intros t Hb; rewrite poll_waiting_step; destruct (queue (rx t)) as [|m q] eqn:Hq.
  1, 3: destruct (closed (rx t)) eqn:Hc; (split; [by split; cbn; rewrite ?Hc, ?Hq|]);
    [by constructor|constructor; [by rewrite Hq|done..]].
  all: cbv zeta; destruct (parse_frame _); try (split; [split; cbn; [done|rewrite Hq; cbn; lia]|by constructor]).
  - split; [split; cbn; [done|rewrite Hq; cbn; lia]|]. constructor. rewrite Hq. cbn. lia.
  - match goal with |- receives _ _ (poll _ ?t1) => destruct (receives_recv n t1 IH eq_refl) as [[Hc Hl] Hr] end.
    split; [split; [done|rewrite Hq; cbn in *; lia]|].
    destruct Hr; constructor; rewrite ?Hq; cbn in *; by try lia.
Qed.

Lemma receives_recv_frame n t : borrowed (rx t) = false -> receives n t (poll (recv_frame n) t).
Proof.
  destruct n as [|n]; [|intros; by apply receives_recv; [apply receives_waiting|]].
  intros Hb. split; [done|]. constructor. lia.
Qed.

Section Progress.
Context `{Hex} `{Blake3} `{MlKem} `{MlDsa} `{ChaCha} `{Postcard}.

(** ** The phases of a request *)

(** The tag of its messages, and what it makes of the answer. *)
Definition tag_of (q : request) : byte :=
  match q with AskContent _ | AskChunk _ => PROTO_CHUNK | AskPeers _ => PROTO_DISCOVERY | AskRelay _ _ => PROTO_SIGNAL end.

(** What a request does with the answer to its round trip [t]. *)
Definition answering (q : request) (t : task NodeConnection bytes) : task NodeConnection (request * reply) :=
  match q with
  | AskContent address =>
      content ← (plaintext ← t; response ← pure (message_decode plaintext); pure (check_content address response));
      mret (q, Content content)
  | AskPeers _ =>
      infos ← (plaintext ← t; response ← pure (discovery_decode plaintext);
               match disc_body response with
               | ClosestResponse r => pure (Ok (peers r))
               | DiscoveryError e => pure (Err (fmt ["discovery error: "; e]))
               | ClosestRequest _ => pure (Err "unexpected discovery response")
               end);
      mret (q, Peers infos)
  | AskRelay _ _ =>
      sdp ← (plaintext ← t; response ← pure (signal_decode plaintext);
             match sig_body response with
             | SignalResponse r => pure (Ok (sdp_answer r))
             | SignalError e => pure (Err (fmt ["signal relay error: "; e]))
             | SignalRequest _ => pure (Err "unexpected signal-relay response")
             end);
      mret (q, Answer sdp)
  | AskChunk _ =>
      response ← (plaintext ← t; pure (message_decode plaintext));
      mret (q, Response response)
  end.

(** The round trip from the moment the envelope has been sent; [t] is what is
    left of the reception. *)
Definition in_flight (t : task Transport bytes) (tag : byte) (seq : Z) : task NodeConnection bytes :=
  r ← attempt (frame ← on_transport t; atomic (fun c => (c, k ← conn_cipher c; accept_response k tag seq frame)));
  _ ← atomic unlock;
  pure r.

Inductive phase : Type :=
  | Unstarted (q : request)
  | Queued (q : request) (payload : bytes)
  | InFlight (q : request) (more : nat) (seq : Z)
  | Starved (q : request) (seq : Z)
  | Ended (r : res (request * reply)).

(** The task of each phase; [fuel] is that of the connection's receptions. *)
Definition residual (fuel : nat) (p : phase) : task NodeConnection (request * reply) :=
  match p with
  | Unstarted q => serve fuel q
  | Queued q payload => answering q (round_trip fuel (tag_of q) payload)
  | InFlight q more seq => answering q (in_flight (waiting (recv_frame more)) (tag_of q) seq)
  | Starved q seq => answering q (in_flight hang (tag_of q) seq)
  | Ended r => Done r
  end.

(** ** One poll of a request *)

Definition conclude (q : request) (plaintext : bytes) : res (request * reply) :=
  match answering q (pure (Ok plaintext)) with Done r => r | _ => Panic end.

Lemma answering_pure q r :
  answering q (pure r) = Done (match r with Ok pt => conclude q pt | Err e => Err e | Panic => Panic end).
Proof.
  destruct r as [pt|e|]; [|by destruct q..]. unfold conclude. destruct q; cbn.
  - destruct (message_decode pt); [|done..]. cbn. by destruct (check_content _ _).
  - destruct (discovery_decode pt) as [m|e|]; [|done..]. cbn. by destruct (disc_body m).
  - destruct (signal_decode pt) as [m|e|]; [|done..]. cbn. by destruct (sig_body m).
  - by destruct (message_decode pt).
Qed.

Lemma poll_answering q t c :
  prompt t ->
  poll (answering q t) c =
  match poll t c with
  | (c', Done r) => (c', answering q (pure r))
  | (c', t') => (c', answering q t')
  end.
Proof.
  intros Ht. destruct q; cbn [answering].
  all: rewrite poll_bind by (apply prompt_bind; [exact Ht|intros pt]; first [exact I|
    apply prompt_bind; [exact I|intros m]; first [exact I|case_match; exact I]]).
  all: rewrite poll_bind by exact Ht; destruct (poll t c) as [c' [[pt|e|]|k|t']]; try reflexivity.
  - cbn. destruct (message_decode pt) as [m|e|]; [|done..]. cbn. by destruct (check_content address m).
  - cbn. destruct (discovery_decode pt) as [m|e|]; [|done..]. cbn. by destruct (disc_body m).
  - cbn. destruct (signal_decode pt) as [m|e|]; [|done..]. cbn. by destruct (sig_body m).
  - cbn. by destruct (message_decode pt).
Qed.

Lemma poll_in_flight t tag seq c x :
  prompt t -> session c = Some x ->
  poll (in_flight t tag seq) c =
  match poll t (transport c) with
  | (t', Done (Ok frame)) => (with_lock false (with_transport t' c), Done (accept_response x.1 tag seq frame))
  | (t', Done (Err e)) => (with_lock false (with_transport t' c), Done (Err e))
  | (t', Done Panic) => (with_transport t' c, Done Panic)
  | (t', t1) => (with_transport t' c, in_flight t1 tag seq)
  end.
Proof.
  intros Ht Hx. unfold in_flight.
  assert (prompt (frame ← on_transport t; atomic (fun c => (c, k ← conn_cipher c; accept_response k tag seq frame)))) as Hp.
  { apply prompt_bind; [by apply prompt_zoom|]. intros. apply prompt_atomic. }
  rewrite poll_bind, poll_attempt by (exact Hp || by apply prompt_attempt).
  rewrite poll_bind by by apply prompt_zoom. rewrite poll_on_transport.
  destruct (poll t (transport c)) as [t' [[frame|e|]|k|t1]]; cbn [fst snd]; [|done..].
  cbn [on_transport zoom poll atomic]. unfold conn_cipher. cbn [session with_transport]. rewrite Hx. destruct x as [k id].
  cbn [mbind result_bind fst]. pose proof (accept_response_total k tag seq frame).
  by destruct (accept_response k tag seq frame).
Qed.

(** Code under the guard, one atomic section at a time. *)
Lemma poll_guarded_atomic {S A B C} (f : st S A) (g : A -> task S B) (h : res B -> task S C) s :
  poll (attempt (atomic f ≫= g) ≫= h) s =
  match f s with
  | (s', Ok a) => poll (attempt (g a) ≫= h) s'
  | (s', Err e) => poll (h (Err e)) s'
  | (s', Panic) => (s', Done Panic)
  end.
Proof. cbn. destruct (f s) as [s' [a|e|]]; done. Qed.

Lemma poll_guarded_transport {A B C} (f : st Transport A) (g : A -> task NodeConnection B) (h : res B -> task NodeConnection C) c :
  poll (attempt (on_transport (atomic f) ≫= g) ≫= h) c =
  match f (transport c) with
  | (t', Ok a) => poll (attempt (g a) ≫= h) (with_transport t' c)
  | (t', Err e) => poll (h (Err e)) (with_transport t' c)
  | (t', Panic) => (with_transport t' c, Done Panic)
  end.
Proof. cbn. destruct (f (transport c)) as [t' [a|e|]]; done. Qed.

(** A request in flight, polled. *)
Inductive flies (fuel : nat) (q : request) (seq : Z) (c c' : NodeConnection) : phase -> Prop :=
  | flies_home r : request_lock c' = false -> borrowed (rx (transport c')) = false -> flies fuel q seq c c' (Ended r)
  | flies_on more : (S more + List.length (queue (rx (transport c))) = fuel)%nat ->
      request_lock c' = true -> borrowed (rx (transport c')) = true -> closed (rx (transport c)) = false ->
      queue (rx (transport c')) = [] -> flies fuel q seq c c' (InFlight q more seq)
  | flies_no_more : (fuel <= List.length (queue (rx (transport c))))%nat -> request_lock c' = true ->
      flies fuel q seq c c' (Starved q seq).

Lemma poll_answering_flight limit fuel t q seq c x :
  prompt t -> session c = Some x -> request_lock c = true ->
  receives fuel (transport c) (poll t (transport c)) ->
  exists c' p', poll (answering q (in_flight t (tag_of q) seq)) c = (c', residual limit p') /\
    flies fuel q seq c c' p' /\ session c' = session c /\ next_seq c' = next_seq c /\
    drains (transport c) (transport c').
Proof.
  intros Ht Hx Hl [Hd Hr]. rewrite poll_answering.
  2: { apply prompt_bind; [apply prompt_attempt, prompt_bind; [by apply prompt_zoom|intros; apply prompt_atomic]|].
       intros r. apply prompt_bind; [apply prompt_atomic|done]. }
  rewrite (poll_in_flight _ _ _ _ _ Ht Hx).
  destruct (poll t (transport c)) as [t' t1]. cbn [fst snd] in *. destruct Hr as [r Hp Hb|more Hm Hb Hc Hq|Hf].
  - destruct r as [frame|e|]; [| |done]; rewrite ?answering_pure; eexists _, (Ended _); (split; [reflexivity|]);
      (split; [by constructor|done]).
  - eexists _, (InFlight q more seq). split; [reflexivity|]. by split; [constructor|].
  - eexists _, (Starved q seq). split; [reflexivity|]. by split; [constructor|].
Qed.

Lemma prompt_round_trip fuel tag payload : prompt (round_trip fuel tag payload).
Proof.
  apply prompt_bind; [intros c; by destruct (request_lock c)|intros _].
  apply prompt_bind; [apply prompt_attempt, prompt_exchange|]. intros r.
  apply prompt_bind; [apply prompt_atomic|done].
Qed.

(** While the connection is busy, a request waits. *)
Lemma poll_queued fuel q payload c :
  request_lock c = true ->
  poll (answering q (round_trip fuel (tag_of q) payload)) c = (c, residual fuel (Queued q payload)).
Proof.
  intros Hl. rewrite poll_answering by apply prompt_round_trip.
  unfold round_trip at 1. cbn [lock mbind task_bind task_bind_ poll]. rewrite Hl. reflexivity.
Qed.

(** When it is free, the request either is refused for want of a number, or
    takes one and flies. *)
Inductive departs (fuel : nat) (q : request) (c c' : NodeConnection) (p' : phase) : Prop :=
  | departs_not e : MAX_SEQ <= next_seq c -> c' = c -> p' = Ended (Err e) -> departs fuel q c c' p'
  | departs_now : next_seq c < MAX_SEQ -> next_seq c' = next_seq c + 1 ->
      flies fuel q (next_seq c) c c' p' -> session c' = session c ->
      drains (transport c) (transport c') -> departs fuel q c c' p'.

Lemma send_frame_rx env t : rx (send_frame env t).1 = rx t /\ (send_frame env t).2 <> Panic.
Proof.
  unfold send_frame. rewrite send_all_spec.
  destruct (List.length (split_messages (encode_frame env)) <=? send_room (dc t))%nat; (split; [reflexivity|discriminate]).
Qed.

Lemma flies_from fuel q seq c1 c c' p' :
  rx (transport c1) = rx (transport c) -> flies fuel q seq c1 c' p' -> flies fuel q seq c c' p'.
Proof. intros Hrx Hf. destruct Hf; rewrite ?Hrx in *; by constructor. Qed.

Lemma poll_locked fuel tag payload c :
  request_lock c = false ->
  poll (round_trip fuel tag payload) c =
  poll (r ← attempt (exchange fuel tag payload); _ ← atomic unlock; pure r) (with_lock true c).
Proof. intros Hl. unfold round_trip. cbn [lock mbind task_bind task_bind_ poll]. rewrite Hl. reflexivity. Qed.

Lemma poll_departure fuel q payload c x :
  session c = Some x -> request_lock c = false -> borrowed (rx (transport c)) = false ->
  exists c' p', poll (answering q (round_trip fuel (tag_of q) payload)) c = (c', residual fuel p') /\
    departs fuel q c c' p'.
Proof.
  intros Hx Hl Hb. rewrite poll_answering by apply prompt_round_trip.
  rewrite poll_locked by done. unfold exchange. rewrite poll_guarded_atomic. unfold take_seq.
  cbn [next_seq with_lock]. destruct (Z.leb_spec MAX_SEQ (next_seq c)) as [Hmax|Hmax].
  { cbn. eexists c, (Ended _). rewrite answering_pure. split; [|by eapply departs_not].
    destruct c. cbn in *. by subst. }
  rewrite poll_guarded_atomic. unfold seal, conn_cipher at 1. cbn [session with_lock]. rewrite Hx. destruct x as [k id].
  cbn [mbind result_bind]. destruct (seal_request k _ _) as [env|e|] eqn:He; [| |by apply seal_request_total in He].
  2: { cbn. eexists _, (Ended _). rewrite answering_pure. split; [reflexivity|]. by apply departs_now; [..|constructor| |]. }
  rewrite poll_guarded_transport. cbn [transport with_lock].
  pose proof (send_frame_rx env (transport c)) as [Hrx Hp].
  destruct (send_frame env (transport c)) as [t1 r]. cbn [fst snd] in Hrx, Hp.
  destruct r as [[]|e|]; [| |done].
  2: { cbn. eexists _, (Ended _). rewrite answering_pure. split; [reflexivity|].
       apply departs_now; [..|constructor| |]; cbn; try done; [by rewrite Hrx|]. unfold drains. cbn. by rewrite Hrx. }
  match goal with |- context [poll (attempt ?t ≫= _) ?s] => set (c1 := s) end.
  destruct (poll_answering_flight fuel fuel (recv_frame fuel) q (next_seq c) c1 (k, id)) as (c' & p' & Hpoll & Hfl & Hsc & Hn & Hd).
  { apply prompt_recv_frame. }
  { reflexivity. }
  { reflexivity. }
  { apply receives_recv_frame. cbn. by rewrite Hrx. }
  rewrite poll_answering in Hpoll.
  2: { apply prompt_bind; [apply prompt_attempt, prompt_bind; [apply prompt_zoom, prompt_recv_frame|intros; apply prompt_atomic]|].
       intros r. apply prompt_bind; [apply prompt_atomic|done]. }
  exists c', p'. split; [exact Hpoll|]. apply departs_now; [done|by rewrite Hn| |by rewrite Hsc, Hx|].
  - eapply flies_from; [|exact Hfl]. exact Hrx.
  - destruct Hd as [Hd1 Hd2]. cbn in Hd1, Hd2. rewrite Hrx in Hd1, Hd2. by split.
Qed.

(** The request a page has just made. *)
Lemma poll_unstarted fuel q c :
  (exists r, poll (serve fuel q) c = (c, Done r)) \/
  (exists payload, poll (serve fuel q) c = poll (answering q (round_trip fuel (tag_of q) payload)) c).
Proof.
  destruct q as [a|a|tg o|m]; cbn [serve].
  - unfold get_verified. cbn [peek_seq mbind task_bind task_bind_ atomic poll].
    destruct (message_encode _) as [bs|e|]; [right; exists bs; reflexivity|left; eexists; reflexivity..].
  - unfold closest_peers. cbn [peek_seq mbind task_bind task_bind_ atomic poll].
    destruct (discovery_encode _) as [bs|e|]; [right; exists bs; reflexivity|left; eexists; reflexivity..].
  - unfold signal_relay. cbn [peek_seq mbind task_bind task_bind_ atomic poll].
    destruct (signal_encode _) as [bs|e|]; [right; exists bs; reflexivity|left; eexists; reflexivity..].
  - unfold chunk_round_trip. cbn [mbind task_bind task_bind_].
    destruct (message_encode _) as [bs|e|]; [right; exists bs; reflexivity|left; eexists; reflexivity..].
Qed.

(** ** Taking turns

    The abstract machine: what stage each request has reached, and the next
    number. *)

Inductive stage : Type :=
  | Arriving
  | Queuing
  | Flying (seq : Z)
  | Over.

Definition grounded (s : stage) : Prop := s = Arriving \/ s = Queuing.
Definition busy_sky (l : list stage) : Prop := exists i m, l !! i = Some (Flying m).

Inductive turn : list stage * Z -> list stage * Z -> Prop :=
  | turn_arrive l n : turn (l, n) (l ++ [Arriving], n)
  | turn_queue l n i : l !! i = Some Arriving -> busy_sky l -> turn (l, n) (<[i := Queuing]> l, n)
  | turn_refuse l n i s : l !! i = Some s -> grounded s -> turn (l, n) (<[i := Over]> l, n)
  | turn_depart l n i s : l !! i = Some s -> grounded s -> ~ busy_sky l -> n < MAX_SEQ ->
      turn (l, n) (<[i := Flying n]> l, n + 1)
  | turn_land l n i m : l !! i = Some (Flying m) -> turn (l, n) (<[i := Over]> l, n).

(** At most one request flies, and it has the number before the next one. *)
Definition one_flies (a : list stage * Z) : Prop :=
  forall i m, a.1 !! i = Some (Flying m) -> m + 1 = a.2 /\ forall j m', a.1 !! j = Some (Flying m') -> j = i.

Lemma flying_insert (l : list stage) (i : nat) (s : stage) (j : nat) (m : Z) :
  <[i := s]> l !! j = Some (Flying m) -> (forall m, s <> Flying m) -> l !! j = Some (Flying m) /\ j <> i.
Proof.
  intros Hl Hs. apply list_lookup_insert_Some in Hl as [(-> & -> & _)|[Hn Hl]]; [by destruct (Hs m)|done].
Qed.

Lemma turn_one_flies a b : turn a b -> one_flies a -> one_flies b.
Proof.
  intros Ht Ha. destruct Ht as [l n|l n i Hl Hsky|l n i s Hl Hs|l n i s Hl Hs Hsky Hn|l n i m Hl]; unfold one_flies in *; cbn [fst snd] in *.
  - intros j m Hj. assert (forall k m, (l ++ [Arriving]) !! k = Some (Flying m) -> l !! k = Some (Flying m)) as Hk.
    { intros k m' Hk. apply lookup_app_Some in Hk as [Hk|[_ Hk]]; [done|]. by apply list_lookup_singleton_Some in Hk as [_ [=]]. }
    apply Hk in Hj. destruct (Ha j m Hj) as [He Hu]. split; [done|]. intros k m' Hk'. by apply (Hu k m'), Hk.
  - intros j m Hj. apply flying_insert in Hj as [Hj _]; [|done]. destruct (Ha j m Hj) as [He Hu]. split; [done|].
    intros k m' Hk. apply flying_insert in Hk as [Hk _]; [|done]. by eapply Hu.
  - intros j m Hj. apply flying_insert in Hj as [Hj _]; [|done]. destruct (Ha j m Hj) as [He Hu]. split; [done|].
    intros k m' Hk. apply flying_insert in Hk as [Hk _]; [|done]. by eapply Hu.
  - assert (forall k m, <[i := Flying n]> l !! k = Some (Flying m) -> k = i /\ m = n) as Hk.
    { intros k m Hk. apply list_lookup_insert_Some in Hk as [(-> & [= ->] & _)|[_ Hk]]; [done|].
      destruct Hsky. by exists k, m. }
    intros j m Hj. apply Hk in Hj as [-> ->]. split; [done|]. intros k m' Hk'. by apply Hk in Hk' as [-> _].
  - intros j k Hj. apply flying_insert in Hj as [Hj Hne]; [|done]. destruct Hne. by apply (proj2 (Ha i m Hl) j k).
Qed.

Lemma turns_one_flies a b : rtc turn a b -> one_flies a -> one_flies b.
Proof. induction 1 as [|a b c Ht _ IH]; [done|]. intros Ha. by apply IH, (turn_one_flies a). Qed.

Definition stage_of (p : phase) : stage :=
  match p with
  | Unstarted _ => Arriving
  | Queued _ _ => Queuing
  | InFlight _ _ seq | Starved _ seq => Flying seq
  | Ended _ => Over
  end.

Definition stages (ps : list phase) : list stage := stage_of <$> ps.

(** A connection and its requests' phases are a state of the machine. *)
Record in_turn (x : SessionCipher * arr 32) (n0 : Z) (c : NodeConnection) (ps : list phase) : Prop := {
  turn_run : rtc turn ([], n0) (stages ps, next_seq c);
  turn_session : session c = Some x;
  turn_lock : request_lock c = true <-> busy_sky (stages ps);
  turn_free : request_lock c = false -> borrowed (rx (transport c)) = false;
  turn_flight : forall i q more seq, ps !! i = Some (InFlight q more seq) -> borrowed (rx (transport c)) = true;
}.

Lemma in_turn_one x n0 c ps : in_turn x n0 c ps -> one_flies (stages ps, next_seq c).
Proof. intros Hc. eapply turns_one_flies; [by apply Hc|]. intros i m Hi. discriminate Hi. Qed.

Lemma stages_insert i p ps : stages (<[i := p]> ps) = <[i := stage_of p]> (stages ps).
Proof. apply list_fmap_insert. Qed.

Lemma stages_lookup ps i p : ps !! i = Some p -> stages ps !! i = Some (stage_of p).
Proof. intros Hp. unfold stages. by rewrite list_lookup_fmap, Hp. Qed.

Lemma in_flight_stage ps i q more seq : ps !! i = Some (InFlight q more seq) -> stages ps !! i = Some (Flying seq).
Proof. apply stages_lookup. Qed.

(** A request that flies is polled. *)
Lemma in_turn_flight x n0 c ps i p fuel q seq c' p' :
  in_turn x n0 c ps -> ps !! i = Some p -> stage_of p = Flying seq ->
  flies fuel q seq c c' p' -> session c' = session c -> next_seq c' = next_seq c ->
  in_turn x n0 c' (<[i := p']> ps).
Proof.
  intros Hc Hp Hst Hf Hs Hn. pose proof (in_turn_one _ _ _ _ Hc) as Hone.
  pose proof (stages_lookup _ _ _ Hp) as Hi. rewrite Hst in Hi. destruct (Hone i seq Hi) as [_ Hu]. cbn [fst] in Hu.
  assert (forall p1, stage_of p1 = Flying seq -> stages (<[i := p1]> ps) = stages ps) as Hsame.
  { intros p1 H1'. rewrite stages_insert, H1'. by apply list_insert_id. }
  assert (forall j q0 m0 s0, <[i := p']> ps !! j = Some (InFlight q0 m0 s0) -> p' = InFlight q0 m0 s0) as Hfl.
  { intros j q0 m0 s0 Hj. apply list_lookup_insert_Some in Hj as [(-> & -> & _)|[Hne Hj]]; [done|].
    apply in_flight_stage in Hj. by destruct Hne; rewrite (Hu j s0 Hj). }
  destruct Hf as [r Hl Hb|more Hm Hl Hb Hcl Hq|Hm Hl].
  - assert (~ busy_sky (stages (<[i := Ended r]> ps))) as Hfree.
    { intros (j & m & Hj). rewrite stages_insert in Hj. apply flying_insert in Hj as [Hj Hne]; [|done]. by destruct Hne; apply (Hu j m). }
    split; [|by rewrite Hs; apply Hc|rewrite Hl; by split|done|].
    + eapply rtc_r; [by apply Hc|]. rewrite Hn, stages_insert. by eapply turn_land.
    + intros j q0 m0 s0 Hj. by apply Hfl in Hj.
  - split; rewrite ?Hsame by done; [rewrite Hn|rewrite Hs| |by rewrite Hl|done]; [by apply Hc..|].
    rewrite Hl. split; [|done]. intros _. by exists i, seq.
  - split; rewrite ?Hsame by done; [rewrite Hn|rewrite Hs| |by rewrite Hl|]; [by apply Hc..| |].
    + rewrite Hl. split; [|done]. intros _. by exists i, seq.
    + intros j q0 m0 s0 Hj. by apply Hfl in Hj.
Qed.

(** What a poll does to a request in each phase. *)
Inductive polled (fuel : nat) (c c' : NodeConnection) : phase -> phase -> Prop :=
  | polled_over r : c' = c -> polled fuel c c' (Ended r) (Ended r)
  | polled_refused p r : grounded (stage_of p) -> c' = c -> polled fuel c c' p (Ended r)
  | polled_waits p q payload : grounded (stage_of p) -> request_lock c = true -> c' = c ->
      (forall q' payload', p = Queued q' payload' -> q' = q /\ payload' = payload) ->
      polled fuel c c' p (Queued q payload)
  | polled_departs p q p' : grounded (stage_of p) -> request_lock c = false -> departs fuel q c c' p' ->
      polled fuel c c' p p'
  | polled_flies p q seq f p' : stage_of p = Flying seq -> f = match p with InFlight _ more _ => S more | _ => 0%nat end ->
      flies f q seq c c' p' -> session c' = session c -> next_seq c' = next_seq c ->
      drains (transport c) (transport c') -> polled fuel c c' p p'.

Lemma poll_waiting_turn fuel c x p q payload :
  session c = Some x -> (request_lock c = false -> borrowed (rx (transport c)) = false) ->
  grounded (stage_of p) -> (forall q' payload', p = Queued q' payload' -> q' = q /\ payload' = payload) ->
  exists c' p', poll (answering q (round_trip fuel (tag_of q) payload)) c = (c', residual fuel p') /\ polled fuel c c' p p'.
Proof.
  intros Hx Hb Hg Hsame. destruct (request_lock c) eqn:Hl.
  - exists c, (Queued q payload). split; [by apply poll_queued|]. by apply polled_waits.
  - destruct (poll_departure fuel q payload c x Hx Hl (Hb eq_refl)) as (c' & p' & Hp & Hd).
    exists c', p'. split; [done|]. by apply (polled_departs _ _ _ _ q).
Qed.

Lemma poll_phase fuel c x p :
  session c = Some x -> (request_lock c = false -> borrowed (rx (transport c)) = false) ->
  (forall seq, stage_of p = Flying seq -> request_lock c = true) ->
  (forall q more seq, p = InFlight q more seq -> borrowed (rx (transport c)) = true) ->
  exists c' p', poll (residual fuel p) c = (c', residual fuel p') /\ polled fuel c c' p p'.
Proof.
  intros Hx Hfree Hlock Hfl. destruct p as [q|q payload|q more seq|q seq|r]; cbn [residual].
  - destruct (poll_unstarted fuel q c) as [[r ->]|[payload ->]].
    + exists c, (Ended r). split; [done|]. apply polled_refused; [by left|done].
    + apply (poll_waiting_turn fuel c x); [done|done|by left|done].
  - apply (poll_waiting_turn fuel c x); [done|done|by right|]. by intros q' payload' [= -> ->].
  - destruct (poll_answering_flight fuel (S more) (waiting (recv_frame more)) q seq c x) as (c' & p' & Hp & Hf & Hs & Hn & Hd);
      [apply prompt_waiting, prompt_recv_frame|done|by apply (Hlock seq)|by apply receives_waiting, (Hfl q more seq)|].
    exists c', p'. split; [done|]. by eapply polled_flies.
  - destruct (poll_answering_flight fuel 0 hang q seq c x) as (c' & p' & Hp & Hf & Hs & Hn & Hd);
      [done|done|by apply (Hlock seq)|split; [done|by constructor; lia]|].
    exists c', p'. split; [done|]. by eapply polled_flies.
  - by exists c, (Ended r); split; [|constructor].
Qed.

(** A request on the ground stays there, or is over. *)
Lemma in_turn_ground x n0 c ps i p p' :
  in_turn x n0 c ps -> ps !! i = Some p -> grounded (stage_of p) -> (forall m, stage_of p' <> Flying m) ->
  rtc turn (stages ps, next_seq c) (<[i := stage_of p']> (stages ps), next_seq c) ->
  in_turn x n0 c (<[i := p']> ps).
Proof.
  intros Hc Hp Hg Hno Ht. pose proof (stages_lookup _ _ _ Hp) as Hi.
  split; rewrite ?stages_insert; [|by apply Hc| |by apply Hc|].
  - etrans; [by apply Hc|done].
  - rewrite (turn_lock _ _ _ _ Hc). split; intros (j & m & Hj).
    + exists j, m. rewrite list_lookup_insert_ne; [done|]. intros ->. rewrite Hi in Hj. destruct Hg as [Hg|Hg]; congruence.
    + apply flying_insert in Hj as [Hj _]; [|done]. by exists j, m.
  - intros j q more seq Hj. apply list_lookup_insert_Some in Hj as [(_ & -> & _)|[_ Hj]]; [|by eapply Hc].
    by destruct (Hno seq).
Qed.

(** A request takes off. *)
Lemma in_turn_takeoff x n0 fuel c ps i p q c' p' :
  in_turn x n0 c ps -> ps !! i = Some p -> grounded (stage_of p) -> request_lock c = false ->
  next_seq c < MAX_SEQ -> next_seq c' = next_seq c + 1 -> flies fuel q (next_seq c) c c' p' ->
  session c' = session c -> in_turn x n0 c' (<[i := p']> ps).
Proof.
  intros Hc Hp Hg Hl Hmax Hn Hf Hs. pose proof (stages_lookup _ _ _ Hp) as Hi.
  assert (~ busy_sky (stages ps)) as Hsky by (rewrite <- (turn_lock _ _ _ _ Hc); by rewrite Hl).
  set (c1 := {| transport := transport c; session := session c; next_seq := next_seq c + 1; request_lock := true;
                js_keygen := js_keygen c; sealed := sealed c |}).
  assert (in_turn x n0 c1 (<[i := Starved q (next_seq c)]> ps)) as Hc1.
  { split; rewrite ?stages_insert; [|by apply Hc| |done|].
    - eapply rtc_r; [by apply Hc|]. by eapply turn_depart.
    - split; [|done]. intros _. exists i, (next_seq c). apply list_lookup_insert_eq. by eapply lookup_lt_Some.
    - intros j q' more seq Hj. apply list_lookup_insert_Some in Hj as [(_ & [=] & _)|[_ Hj]].
      destruct Hsky. exists j, seq. by apply in_flight_stage in Hj. }
  rewrite <- (list_insert_insert_eq ps i p' (Starved q (next_seq c))).
  eapply (in_turn_flight x n0 c1 _ i (Starved q (next_seq c)) fuel q (next_seq c)); [exact Hc1| |done| |done|done].
  - apply list_lookup_insert_eq. by eapply lookup_lt_Some.
  - by eapply flies_from; [|exact Hf].
Qed.

Lemma in_turn_polled x n0 fuel c ps i p c' p' :
  in_turn x n0 c ps -> ps !! i = Some p -> polled fuel c c' p p' -> in_turn x n0 c' (<[i := p']> ps).
Proof.
  intros Hc Hp Hpoll. pose proof (stages_lookup _ _ _ Hp) as Hi.
  destruct Hpoll as [r ->|p r Hg ->|p q payload Hg Hl -> Hq|p q p' Hg Hl Hd|p q seq f p' Hst _ Hf Hs Hn _].
  - by rewrite list_insert_id.
  - eapply in_turn_ground; [done..|]. eapply rtc_once, turn_refuse; [done|done].
  - eapply in_turn_ground; [done..|]. destruct Hg as [Hg|Hg]; rewrite Hg in Hi.
    + apply rtc_once, turn_queue; [done|]. by apply (turn_lock _ _ _ _ Hc).
    + cbn [stage_of]. rewrite list_insert_id; [reflexivity|done].
  - destruct Hd as [e Hmax -> ->|Hmax Hn Hf Hs _].
    + eapply in_turn_ground; [done..|]. eapply rtc_once, turn_refuse; [done|done].
    + by eapply in_turn_takeoff.
  - by eapply in_turn_flight.
Qed.

Lemma in_turn_poll x n0 fuel c ps i p :
  in_turn x n0 c ps -> ps !! i = Some p ->
  exists c' p', poll (residual fuel p) c = (c', residual fuel p') /\ polled fuel c c' p p' /\
    in_turn x n0 c' (<[i := p']> ps).
Proof.
  intros Hc Hp. destruct (poll_phase fuel c x p) as (c' & p' & Hpoll & Hd); [by apply Hc..| | |].
  - intros seq Hst. apply (turn_lock _ _ _ _ Hc). exists i, seq. rewrite <- Hst. by apply stages_lookup.
  - intros q more seq ->. by eapply Hc.
  - exists c', p'. split; [done|]. split; [done|]. by eapply in_turn_polled.
Qed.

Lemma in_turn_env x n0 c ps c' : conn_env c c' -> in_turn x n0 c ps -> in_turn x n0 c' ps.
Proof.
  intros He Hc. destruct He as [t' c Ht|r c]; [|by split; apply Hc].
  apply transport_env_private in Ht. pose proof (f_equal p_borrowed Ht) as Hb. cbn in Hb.
  split; cbn; rewrite ?Hb; apply Hc.
Qed.

Lemma in_turn_spawn x n0 c ps q : in_turn x n0 c ps -> in_turn x n0 c (ps ++ [Unstarted q]).
Proof.
  intros [Hrun Hx Hl Hb Hfl].
  assert (stages (ps ++ [Unstarted q]) = stages ps ++ [Arriving]) as Hst by (unfold stages; by rewrite fmap_app).
  assert (forall A (l : list A) a j y, (l ++ [a]) !! j = Some y -> l !! j = Some y \/ y = a) as Happ.
  { intros A l a j y Hj. apply lookup_app_Some in Hj as [Hj|[_ Hj]]; [by left|right].
    by apply list_lookup_singleton_Some in Hj as [_ ?]. }
  split; rewrite ?Hst; [eapply rtc_r; [done|constructor]|done| |done|].
  - rewrite Hl. split; intros (j & m & Hj); exists j, m; [by apply lookup_app_l_Some|].
    by apply Happ in Hj as [Hj|[=]].
  - intros j q' more seq Hj. apply Happ in Hj as [Hj|[=]]. by eapply Hfl.
Qed.

(** ** Counting the messages *)

Abbreviation queued c := (List.length (queue (rx (transport c)))).

(** A run in which [n] messages have reached the queue. *)
Inductive counted_run (fuel : nat) (c0 : NodeConnection) :
    nat -> NodeConnection * list (task NodeConnection (request * reply)) -> Prop :=
  | counted_init : counted_run fuel c0 (queued c0) (c0, [])
  | counted_poll n c ts i t c' t' : counted_run fuel c0 n (c, ts) ->
      ts !! i = Some t -> poll t c = (c', t') -> counted_run fuel c0 n (c', <[i := t']> ts)
  | counted_env n c ts c' : counted_run fuel c0 n (c, ts) -> conn_env c c' ->
      counted_run fuel c0 (n + (queued c' - queued c)) (c', ts)
  | counted_spawn n c ts q : counted_run fuel c0 n (c, ts) -> counted_run fuel c0 n (c, ts ++ [serve fuel q]).

Lemma connection_run_counted fuel c0 conf : connection_run fuel c0 conf -> exists n, counted_run fuel c0 n conf.
Proof.
  induction 1 as [|conf conf' _ [n IH] Hstep]; [by eexists; constructor|].
  destruct Hstep as [s ts i t s' t' Hi Hp|s ts s' He|s ts t (q & ->)]; eexists; by econstructor.
Qed.

Lemma counted_run_connection fuel c0 n conf : counted_run fuel c0 n conf -> connection_run fuel c0 conf.
Proof.
  induction 1 as [|n c ts i t c' t' _ IH Hi Hp|n c ts c' _ IH He|n c ts q _ IH]; [constructor|..];
    (eapply reach_step; [exact IH|]); [by eapply step_poll|by apply step_env|]. apply step_spawn. by exists q.
Qed.

(** The fuel that a request in flight has used is no more than the messages
    that are no longer queued. *)
Definition fueled (fuel n : nat) (c : NodeConnection) (p : phase) : Prop :=
  match p with
  | InFlight _ more _ => (fuel + queued c <= S more + n)%nat
  | Starved _ _ => (fuel <= n)%nat
  | _ => True
  end.

Lemma polled_fueled fuel n c c' p p' :
  polled fuel c c' p p' -> (queued c <= n)%nat -> fueled fuel n c p ->
  (queued c' <= queued c)%nat /\ fueled fuel n c' p'.
Proof.
  intros Hp Hn Hf. destruct Hp as [r ->|p r Hg ->|p q payload Hg Hl -> Hq|p q p' Hg Hl Hd|p q seq f p' Hst Hff Hfl Hs Hns Hd].
  1-3: done.
  - destruct Hd as [e _ -> ->|_ _ Hfl _ [_ Hd]]; [done|]. split; [done|].
    destruct Hfl as [r Hl' Hb|more Hm Hl' Hb Hc Hq|Hm Hl']; cbn; [done|rewrite Hq; cbn|]; lia.
  - destruct Hd as [_ Hd]. split; [done|]. destruct Hfl as [r Hl Hb|more Hm Hl Hb Hc Hq|Hm Hl]; cbn; [done|rewrite Hq|];
      destruct p; try done; cbn in *; lia.
Qed.

(** Every run of a connection's requests is a run of the machine. *)
Lemma counted_run_in_turn fuel x c0 n c ts :
  session c0 = Some x -> request_lock c0 = false -> borrowed (rx (transport c0)) = false ->
  counted_run fuel c0 n (c, ts) ->
  exists ps, ts = residual fuel <$> ps /\ in_turn x (next_seq c0) c ps /\
    (queued c <= n)%nat /\ Forall (fueled fuel n c) ps.
Proof.
  intros Hx Hl Hb Hrun. remember (c, ts) as conf eqn:E. revert c ts E.
  induction Hrun as [|n c1 ts1 i t c2 t' Hrun IH Hi Hp|n c1 ts1 c2 Hrun IH He|n c1 ts1 q Hrun IH]; intros c ts [= <- <-].
  - exists []. split; [done|]. split; [|by split]. split; [done|done| |done|done].
    rewrite Hl. split; [done|]. by intros (i & m & Hi).
  - destruct (IH c1 ts1 eq_refl) as (ps & -> & Hc & Hn & Hf). apply list_lookup_fmap_Some in Hi as (p & -> & Hip).
    destruct (in_turn_poll _ _ fuel _ _ _ _ Hc Hip) as (c' & p' & Hpoll & Hpd & Hc').
    destruct (polled_fueled _ n _ _ _ _ Hpd Hn) as [Hn' Hf']; [by eapply Forall_lookup_1|].
    rewrite Hpoll in Hp. injection Hp as <- <-. exists (<[i := p']> ps). rewrite list_fmap_insert.
    split; [done|]. split; [done|]. split; [lia|]. apply Forall_insert; [|done].
    eapply Forall_impl; [exact Hf|]. intros p1. destruct p1; cbn; lia.
  - destruct (IH c1 ts1 eq_refl) as (ps & -> & Hc & Hn & Hf). exists ps. split; [done|].
    split; [by eapply in_turn_env|]. split; [lia|]. eapply Forall_impl; [exact Hf|]. intros p1. destruct p1; cbn; lia.
  - destruct (IH c1 ts1 eq_refl) as (ps & -> & Hc & Hn & Hf). exists (ps ++ [Unstarted q]). rewrite fmap_app.
    split; [done|]. split; [by apply in_turn_spawn|]. split; [done|]. by apply Forall_app_2; [|constructor].
Qed.

(** ** After the channel has closed *)

(** Fuel enough to read [n] queued messages. *)
Definition enough (fuel n : nat) (p : phase) : Prop :=
  match p with
  | Unstarted _ | Queued _ _ => (n < fuel)%nat
  | InFlight _ more _ => (n <= more)%nat
  | Starved _ _ => False
  | Ended _ => True
  end.

Record settling (x : SessionCipher * arr 32) (n0 : Z) (fuel : nat) (c : NodeConnection) (ps : list phase) : Prop := {
  settling_turn : in_turn x n0 c ps;
  settling_closed : closed (rx (transport c)) = true;
  settling_enough : Forall (enough fuel (List.length (queue (rx (transport c))))) ps;
}.

Definition over (ps : list phase) (i : nat) : Prop := exists r, ps !! i = Some (Ended r).

Lemma enough_less fuel n m p : (m <= n)%nat -> enough fuel n p -> enough fuel m p.
Proof. destruct p; cbn; lia. Qed.

(** On a closed channel nothing flies on. *)
Lemma flies_closed f q seq c c' p' :
  flies f q seq c c' p' -> closed (rx (transport c)) = true -> (List.length (queue (rx (transport c))) < f)%nat ->
  request_lock c' = false /\ exists r, p' = Ended r.
Proof. intros [r Hl Hb|more Hm Hl Hb Hc Hq|Hm Hl] Hcl Hf; [by split; [|exists r]|congruence|lia]. Qed.

(** A poll on a closed channel ends the request and frees the connection, or
    leaves the connection, busy with another request, as it is. *)
Inductive settles (c c' : NodeConnection) (p p' : phase) : Prop :=
  | settles_over r : request_lock c' = false -> p' = Ended r -> settles c c' p p'
  | settles_not : request_lock c = true -> c' = c -> (forall seq, stage_of p <> Flying seq) ->
      (forall seq, stage_of p' <> Flying seq) -> settles c c' p p'.

Lemma polled_settles fuel c c' p p' :
  polled fuel c c' p p' -> closed (rx (transport c)) = true ->
  enough fuel (List.length (queue (rx (transport c)))) p ->
  drains (transport c) (transport c') /\ enough fuel (List.length (queue (rx (transport c)))) p' /\ settles c c' p p'.
Proof.
  intros Hp Hcl He. destruct Hp as [r ->|p r Hg ->|p q payload Hg Hl -> Hq|p q p' Hg Hl Hd|p q seq f p' Hst Hf Hfl Hs Hn Hd].
  - split; [done|]. split; [done|]. destruct (request_lock c) eqn:Hl; [by apply settles_not|by eapply settles_over].
  - split; [done|]. split; [done|]. destruct (request_lock c) eqn:Hl; [|by eapply settles_over].
    apply settles_not; [done|done| |done]. intros seq Hs. by destruct Hg as [Hg|Hg]; rewrite Hg in Hs.
  - split; [done|]. split; [destruct Hg as [Hg|Hg]; by destruct p|].
    apply settles_not; [done|done| |done]. intros seq Hs. by destruct Hg as [Hg|Hg]; rewrite Hg in Hs.
  - destruct Hd as [e _ -> ->|_ _ Hfl _ Hd]; [split; [done|]; split; [done|]; by eapply settles_over|].
    destruct (flies_closed _ _ _ _ _ _ Hfl Hcl) as (Hl' & r & ->).
    { destruct Hg as [Hg|Hg]; by destruct p. }
    split; [done|]. split; [done|]. by eapply settles_over.
  - destruct (flies_closed _ _ _ _ _ _ Hfl Hcl) as (Hl' & r & ->).
    { destruct p; try done. subst f. cbn in He. lia. }
    split; [done|]. split; [done|]. by eapply settles_over.
Qed.

Lemma settling_poll x n0 fuel c ps i p :
  settling x n0 fuel c ps -> ps !! i = Some p ->
  exists c' p', poll (residual fuel p) c = (c', residual fuel p') /\ settling x n0 fuel c' (<[i := p']> ps) /\
    settles c c' p p'.
Proof.
  intros [Ht Hcl He] Hp. destruct (in_turn_poll _ _ fuel _ _ _ _ Ht Hp) as (c' & p' & Hpoll & Hpd & Ht').
  destruct (polled_settles _ _ _ _ _ Hpd Hcl) as ([Hd1 Hd2] & He' & Hs); [by eapply Forall_lookup_1|].
  exists c', p'. split; [done|]. split; [|done]. split; [done|by rewrite Hd1|].
  eapply Forall_impl; [apply Forall_insert; [exact He|exact He']|]. intros p1. by apply enough_less.
Qed.

(** Once it is free, every request that is polled ends. *)
Lemma settling_free x n0 fuel woken : forall c ps,
  settling x n0 fuel c ps -> request_lock c = false ->
  exists c' ps', poll_all woken (residual fuel <$> ps) c = (c', residual fuel <$> ps') /\
    settling x n0 fuel c' ps' /\ request_lock c' = false /\ List.length ps' = List.length ps /\
    forall i, (i ∈ woken /\ (i < List.length ps)%nat) \/ over ps i -> over ps' i.
Proof.
  induction woken as [|i woken IH]; intros c ps Hc Hl; cbn [poll_all].
  - exists c, ps. repeat (split; [done|]). intros i [[Hi _]|Hi]; [by apply elem_of_nil in Hi|done].
  - rewrite list_lookup_fmap. destruct (ps !! i) as [p|] eqn:Hp; cbn [fmap option_fmap option_map].
    + destruct (settling_poll _ _ _ _ _ _ _ Hc Hp) as (c1 & p1 & -> & Hc1 & Hs).
      destruct Hs as [r Hl1 ->|Hl' _ _ _]; [|congruence].
      rewrite <- list_fmap_insert. destruct (IH c1 _ Hc1 Hl1) as (c' & ps' & -> & Hc' & Hl' & Hlen & Hov).
      rewrite length_insert in Hlen, Hov. exists c', ps'. do 4 (split; [done|]).
      intros j Hj. apply Hov. destruct (decide (i = j)) as [->|Hne].
      * right. exists r. apply list_lookup_insert_eq. by eapply lookup_lt_Some.
      * destruct Hj as [[Hj Hlt]|[r' Hj]]; [left|right; exists r'; by rewrite list_lookup_insert_ne].
        apply elem_of_cons in Hj as [->|Hj]; done.
    + destruct (IH c ps Hc Hl) as (c' & ps' & -> & Hc' & Hl' & Hlen & Hov). exists c', ps'. do 4 (split; [done|]).
      intros j Hj. apply Hov. destruct Hj as [[Hj Hlt]|Hj]; [|by right]. apply elem_of_cons in Hj as [->|Hj]; [|by left].
      apply lookup_ge_None in Hp. lia.
Qed.

(** Polling the one that flies frees the connection. *)
Lemma settling_any x n0 fuel woken : forall c ps,
  settling x n0 fuel c ps -> (forall i seq, stages ps !! i = Some (Flying seq) -> i ∈ woken) ->
  exists c' ps', poll_all woken (residual fuel <$> ps) c = (c', residual fuel <$> ps') /\
    settling x n0 fuel c' ps' /\ request_lock c' = false /\ List.length ps' = List.length ps.
Proof.
  intros c ps Hc. destruct (request_lock c) eqn:Hl.
  2: { intros _. destruct (settling_free x n0 fuel woken c ps Hc Hl) as (c' & ps' & ? & ? & ? & ? & _). by exists c', ps'. }
  revert c ps Hc Hl. induction woken as [|i woken IH]; intros c ps Hc Hl Hw; cbn [poll_all].
  - apply (turn_lock _ _ _ _ (settling_turn _ _ _ _ _ Hc)) in Hl as (i & m & Hi). by apply Hw, elem_of_nil in Hi.
  - assert (forall ps1 : list phase, (forall j seq, stages ps1 !! j = Some (Flying seq) -> stages ps !! j = Some (Flying seq) /\ j <> i) ->
      forall j seq, stages ps1 !! j = Some (Flying seq) -> j ∈ woken) as Hw1.
    { intros ps1 H1' j seq Hj. apply H1' in Hj as [Hj Hne]. apply Hw in Hj. by apply elem_of_cons in Hj as [->|Hj]. }
    rewrite list_lookup_fmap. destruct (ps !! i) as [p|] eqn:Hp; cbn [fmap option_fmap option_map].
    + destruct (settling_poll _ _ _ _ _ _ _ Hc Hp) as (c1 & p1 & -> & Hc1 & Hs). rewrite <- list_fmap_insert.
      destruct Hs as [r Hl1 ->|_ -> Hno Hno'].
      * destruct (settling_free x n0 fuel woken c1 _ Hc1 Hl1) as (c' & ps' & -> & Hc' & Hl' & Hlen & _).
        rewrite length_insert in Hlen. by exists c', ps'.
      * destruct (IH c (<[i := p1]> ps) Hc1 Hl) as (c' & ps' & -> & Hc' & Hl' & Hlen).
        2: { rewrite length_insert in Hlen. by exists c', ps'. }
        apply Hw1. intros j seq Hj. rewrite stages_insert in Hj. apply flying_insert in Hj as [Hj _]; [|exact Hno'].
        split; [done|]. intros ->. rewrite (stages_lookup _ _ _ Hp) in Hj. injection Hj as Hj. by destruct (Hno seq).
    + apply IH; [done..|]. apply Hw1. intros j seq Hj. split; [done|]. intros ->. unfold stages in Hj.
      by rewrite list_lookup_fmap, Hp in Hj.
Qed.

Lemma poll_all_app {S A} (w1 w2 : list nat) : forall (ts : list (task S A)) s,
  poll_all (w1 ++ w2) ts s = let '(s', ts') := poll_all w1 ts s in poll_all w2 ts' s'.
Proof.
  induction w1 as [|i w1 IH]; intros ts s; [done|]. cbn [app poll_all].
  destruct (ts !! i) as [t|]; [|apply IH]. destruct (poll t s) as [s' t']. apply IH.
Qed.

Definition is_done {S A} (t : task S A) : Prop := exists r, t = Done r.

(** C7: the requests of one connection refine the abstract machine, whatever the
    interleaving and the environment: each is arriving, queuing, in flight or
    over; the stages and the next sequence number are reached from the empty
    machine by its steps, and in particular at most one request is in flight,
    under the number before the next one; the lock is held exactly while one
    is. *)
Theorem requests_take_turns (fuel : nat) (x : SessionCipher * arr 32) (c0 c : NodeConnection)
    (ts : list (task NodeConnection (request * reply)))
    (Hx : session c0 = Some x) (Hl : request_lock c0 = false) (Hb : borrowed (rx (transport c0)) = false)
    (Hrun : connection_run fuel c0 (c, ts)) :
  exists ps, ts = residual fuel <$> ps /\ rtc turn ([], next_seq c0) (stages ps, next_seq c) /\
    one_flies (stages ps, next_seq c) /\ (request_lock c = true <-> busy_sky (stages ps)).
Proof.
  apply connection_run_counted in Hrun as (n & Hrun).
  destruct (counted_run_in_turn fuel x c0 n c ts Hx Hl Hb Hrun) as (ps & -> & Ht & _).
  exists ps. split; [done|]. split; [by apply Ht|]. split; [by eapply in_turn_one|by apply Ht].
Qed.

(** C8: no request outlives its channel: at any moment of any run, if the channel
    has closed, then polling every request twice, in the order in which they
    were made, ends them all and leaves the connection free.  More fuel than
    messages that have arrived in the whole run is enough. *)
Theorem close_ends_requests (fuel : nat) (x : SessionCipher * arr 32) (c0 c : NodeConnection)
    (ts : list (task NodeConnection (request * reply))) (n : nat)
    (Hx : session c0 = Some x) (Hl : request_lock c0 = false) (Hb : borrowed (rx (transport c0)) = false)
    (Hrun : counted_run fuel c0 n (c, ts)) (Hfuel : (n < fuel)%nat) (Hclosed : closed (rx (transport c)) = true) :
  let '(c', ts') := poll_all (seq 0 (List.length ts) ++ seq 0 (List.length ts)) ts c in
  Forall is_done ts' /\ List.length ts' = List.length ts /\ request_lock c' = false.
Proof.
  destruct (counted_run_in_turn fuel x c0 n c ts Hx Hl Hb Hrun) as (ps & -> & Ht & Hn & Hf).
  assert (settling x (next_seq c0) fuel c ps) as Hs.
  { split; [done|done|]. eapply Forall_impl; [exact Hf|]. intros p. destruct p; cbn; lia. }
  rewrite length_fmap, poll_all_app.
  destruct (settling_any x (next_seq c0) fuel (seq 0 (List.length ps)) c ps) as (c1 & ps1 & -> & Hs1 & Hl1 & Hlen1); [done| |].
  { intros i m Hi. apply elem_of_seq. apply lookup_lt_Some in Hi. unfold stages in Hi. rewrite length_fmap in Hi. lia. }
  destruct (settling_free x (next_seq c0) fuel (seq 0 (List.length ps)) c1 ps1 Hs1 Hl1) as (c2 & ps2 & -> & _ & Hl2 & Hlen2 & Hov).
  rewrite !length_fmap. split; [|split; [lia|done]].
  apply Forall_fmap, Forall_lookup_2. intros i p Hp. destruct (Hov i) as (r & Hr).
  - left. apply lookup_lt_Some in Hp. rewrite elem_of_seq. lia.
  - assert (p = Ended r) as -> by congruence. by exists r.
Qed.
End Progress.

(** ** Witnesses *)

Module Witnesses.
Import ToyCrypto Conn.Witnesses.
#[local] Existing Instances HexRef.hex_ref PostcardRef.postcard_ref PostcardRef.postcard_ref_laws.

(** Two requests are made; the first takes off, the second queues, and the
    channel closes. *)
Definition first_conf : NodeConnection * task NodeConnection (request * reply) := poll (serve 5 get) (idle_conn 1).
Definition second_conf : NodeConnection * task NodeConnection (request * reply) := poll (serve 5 get) first_conf.1.
Definition closing : NodeConnection := with_transport (on_close (transport second_conf.1)) second_conf.1.

Lemma closing_run : counted_run 5 (idle_conn 1) 0 (closing, [first_conf.2; second_conf.2]).
Proof.
  assert (counted_run 5 (idle_conn 1) 0 (idle_conn 1, [serve 5 get; serve 5 get])) as H1.
  { apply (counted_spawn _ _ _ _ [serve 5 get] get), (counted_spawn _ _ _ _ [] get), counted_init. }
  pose proof (counted_poll _ _ _ _ _ 0%nat _ _ _ H1 eq_refl (surjective_pairing _)) as H2.
  pose proof (counted_poll _ _ _ _ _ 1%nat _ _ _ H2 eq_refl (surjective_pairing _)) as H3.
  apply (counted_env 5 (idle_conn 1) 0 _ _ closing) in H3; [|apply conn_env_transport, env_close].
  replace (0 + (List.length (queue (rx (transport closing))) - List.length (queue (rx (transport second_conf.1)))))%nat with 0%nat in H3 by (vm_compute; reflexivity).
  exact H3.
Qed.

Lemma requests_take_turns_witness :
  request_lock closing = true /\
  exists ps, [first_conf.2; second_conf.2] = residual 5 <$> ps /\ busy_sky (stages ps).
Proof.
  assert (request_lock closing = true) as Hl by (vm_compute; reflexivity). split; [exact Hl|].
  destruct (requests_take_turns 5 established_session (idle_conn 1) closing [first_conf.2; second_conf.2]
    eq_refl eq_refl eq_refl (counted_run_connection _ _ _ _ closing_run)) as (ps & Hps & _ & _ & Hsky).
  exists ps. split; [exact Hps|]. by apply Hsky.
Defined.

Lemma close_ends_requests_witness :
  request_lock closing = true /\
  let '(c', ts') := poll_all [0; 1; 0; 1]%nat [first_conf.2; second_conf.2] closing in
  Forall is_done ts' /\ List.length ts' = 2%nat /\ request_lock c' = false.
Proof.
  split; [vm_compute; reflexivity|].
  exact (close_ends_requests 5 established_session (idle_conn 1) closing [first_conf.2; second_conf.2] 0
    eq_refl eq_refl eq_refl closing_run ltac:(lia) ltac:(vm_compute; reflexivity)).
Defined.
End Witnesses.
