(* ===== verification/Payment.v ===== *)
(** * Payment types and their wire encoding ([src/payment.rs])

    The structs mirror evmlib's; [..._ser] and [..._de] are their [Serialize]
    and [Deserialize] implementations (derived, or the modules [bin_bytes_32],
    [bin_bytes_20] and [seq_bytes_32]) over the MessagePack interface of
    [Serde]: written as arrays, read from arrays or from maps. *)

From S2P Require Import Prelude Text Crates Serde RefCrates RefCodec.

Definition PROOF_TAG_SINGLE_NODE : byte := x01.

Record Timestamp : Type := {
  secs : Z;    (* u64 *)
  nanos : Z;   (* u32 *)
}.

Definition Timestamp_from_secs (s : Z) : Timestamp := {| secs := s; nanos := 0 |}.

Record Quote : Type := {
  content : arr 32;
  timestamp : Timestamp;
  price : arr 32;
  rewards_address : arr 20;
  pub_key : bytes;
  signature : bytes;
  committed_key_count : Z;   (* u32 *)
  commitment_pin : option (arr 32);
}.

Record PeerId : Type := MkPeerId { peer_id_bytes : arr 32 }.

Record TxHash : Type := MkTxHash { tx_hash_bytes : arr 32 }.

Record ProofOfPayment : Type := {
  peer_quotes : list (PeerId * Quote);
}.

Record PaymentProof : Type := {
  proof_of_payment : ProofOfPayment;
  tx_hashes : list TxHash;
  commitment_sidecars : list bytes;
}.

Inductive PaymentError : Type :=
  | Decode (e : string)
  | Encode (e : string)
  | BadProofTag (tag : option byte).

(** [Display for PaymentError]. *)
Definition PaymentError_fmt (e : PaymentError) : string :=
  match e with
  | Decode e => fmt ["payment decode failed: "; e]
  | Encode e => fmt ["payment encode failed: "; e]
  | BadProofTag (Some tag) => fmt ["unexpected proof tag byte 0x"; hex_02x tag]
  | BadProofTag None => "empty proof bytes"
  end.

(** ** The custom serde modules *)

(** [bin_bytes_mod!]: [serialize_bytes]. *)
Definition bin_bytes_ser {n} (a : arr n) : mp := MBin a.

(** [seq_bytes_32::serialize]: a slice, which serde writes as a sequence. *)
Definition seq_bytes_32_ser (a : arr 32) : mp := ser_seq_bytes a.

Section WithRmp.
Context `{Rmp}.

(** [BinVisitor]: [visit_bytes] wants exactly [n] bytes, [visit_seq] takes
    [n] elements. *)
Definition bin_bytes_de (n : nat) (v : mp) : res (arr n) :=
  match v with
  | MBin bs =>
      ok_or (try_into n bs)
        (fmt ["expected "; dec (Z.of_nat n); " bytes, got "; dec (len bs)])
  | MArray l =>
      '(out, l) ← take_bytes n 0 l;
      a ← match try_into n out with Some a => mret a | None => Panic end;
      end_seq a l
  | _ => Err (invalid_type v)
  end.

(** [seq_bytes_32::deserialize]: a [Vec<u8>], then [try_into]. *)
Definition seq_bytes_32_de (v : mp) : res (arr 32) :=
  bs ← de_vec de_u8 v;
  ok_or (try_into 32 bs) (fmt ["Expected 32 bytes, got "; dec (len bs)]).
End WithRmp.

(** ** [Serialize] of the types: a struct is the array of its fields *)

Definition Timestamp_ser (t : Timestamp) : mp :=
  MArray [MInt (secs t); MInt (nanos t)].

Definition quote_fields (q : Quote) : list mp :=
  [ ser_seq_bytes (content q);
    Timestamp_ser (timestamp q);
    bin_bytes_ser (price q);
    bin_bytes_ser (rewards_address q);
    ser_seq_bytes (pub_key q);
    ser_seq_bytes (signature q);
    MInt (committed_key_count q);
    ser_option (fun pin : arr 32 => ser_seq_bytes pin) (commitment_pin q) ].

Definition Quote_ser (q : Quote) : mp := MArray (quote_fields q).

Definition PeerId_ser (p : PeerId) : mp := seq_bytes_32_ser (peer_id_bytes p).

Definition TxHash_ser (t : TxHash) : mp := bin_bytes_ser (tx_hash_bytes t).

Definition ProofOfPayment_ser (p : ProofOfPayment) : mp :=
  MArray [ MArray (map (fun '(peer, q) => MArray [PeerId_ser peer; Quote_ser q]) (peer_quotes p)) ].

Definition PaymentProof_ser (p : PaymentProof) : mp :=
  MArray [ ProofOfPayment_ser (proof_of_payment p);
           MArray (map TxHash_ser (tx_hashes p));
           MArray (map ser_seq_bytes (commitment_sidecars p)) ].

(** ** [Deserialize] *)

Section Deserialize.
Context `{Rmp}.

Definition Timestamp_fields : fields (Z * (Z * unit)) :=
  and_field "secs" (de_uint 64) None
  (and_field "nanos" (de_uint 32) None no_fields).

Definition Timestamp_de : mp -> res Timestamp :=
  de_struct Timestamp_fields (fun '(s, (n, _)) => {| secs := s; nanos := n |}).

Definition Quote_fields :=
  and_field "content" (de_byte_array 32) None
  (and_field "timestamp" Timestamp_de None
  (and_field "price" (bin_bytes_de 32) None
  (and_field "rewards_address" (bin_bytes_de 20) None
  (and_field "pub_key" (de_vec de_u8) None
  (and_field "signature" (de_vec de_u8) None
  (and_field "committed_key_count" (de_uint 32) (Some 0)
  (and_field "commitment_pin" (de_option (de_byte_array 32)) (Some None) no_fields))))))).

Definition Quote_de : mp -> res Quote :=
  de_struct Quote_fields (fun '(content, (timestamp, (price, (rewards_address, (pub_key, (signature,
      (committed_key_count, (commitment_pin, _)))))))) =>
    {| content := content; timestamp := timestamp; price := price;
       rewards_address := rewards_address; pub_key := pub_key;
       signature := signature; committed_key_count := committed_key_count;
       commitment_pin := commitment_pin |}).

Definition PeerId_de (v : mp) : res PeerId := MkPeerId <$> seq_bytes_32_de v.

Definition TxHash_de (v : mp) : res TxHash := MkTxHash <$> bin_bytes_de 32 v.

(** A tuple [(PeerId, Quote)]. *)
Definition peer_quote_de : mp -> res (PeerId * Quote) :=
  de_tuple (and_field "0" PeerId_de None (and_field "1" Quote_de None no_fields))
    (fun '(p, (q, _)) => (p, q)).

Definition ProofOfPayment_de : mp -> res ProofOfPayment :=
  de_struct (and_field "peer_quotes" (de_vec peer_quote_de) None no_fields)
    (fun '(pq, _) => {| peer_quotes := pq |}).

Definition PaymentProof_fields :=
  and_field "proof_of_payment" ProofOfPayment_de None
  (and_field "tx_hashes" (de_vec TxHash_de) None
  (and_field "commitment_sidecars" (de_vec (de_vec de_u8)) (Some []) no_fields)).

Definition PaymentProof_de : mp -> res PaymentProof :=
  de_struct PaymentProof_fields
    (fun '(p, (t, (s, _))) => {| proof_of_payment := p; tx_hashes := t; commitment_sidecars := s |}).

(** ** The module's functions *)

Definition parse_quote (bs : bytes) : result PaymentError Quote :=
  map_err Decode (v ← rmp_read bs; Quote_de v).

Definition encode_quote (q : Quote) : result PaymentError bytes :=
  map_err Encode (rmp_write (Quote_ser q)).

Definition encode_proof (proof : PaymentProof) : result PaymentError bytes :=
  body ← map_err Encode (rmp_write (PaymentProof_ser proof));
  mret (PROOF_TAG_SINGLE_NODE :: body).

Definition serialize_single_node_proof (pqs : list (arr 32 * Quote)) (tx_hash : arr 32)
    (sidecars : list bytes) : result PaymentError bytes :=
  let proof := {| proof_of_payment :=
                    {| peer_quotes := map (fun '(peer, quote) => (MkPeerId peer, quote)) pqs |};
                  tx_hashes := [MkTxHash tx_hash];
                  commitment_sidecars := sidecars |} in
  encode_proof proof.

Definition parse_single_node_proof (bs : bytes) : result PaymentError PaymentProof :=
  match head bs with
  | Some tag =>
      if decide (tag = PROOF_TAG_SINGLE_NODE)
      then body ← slice bs 1 (len bs);
           map_err Decode (v ← rmp_read body; PaymentProof_de v)
      else Err (BadProofTag (Some tag))
  | None => Err (BadProofTag None)
  end.
End Deserialize.

(** ** Signatures and hashes *)

Definition bytes_for_sig (q : Quote) : bytes :=
  let price_le := rev (price q) in
  content q
  ++ le_bytes 8 (secs (timestamp q))
  ++ price_le
  ++ rewards_address q
  ++ le_bytes 4 (committed_key_count q)
  ++ match commitment_pin q with
     | Some pin => x01 :: arr_list pin
     | None => [x00]
     end.


Definition verify_quote `{MlDsa} (q : Quote) : bool :=
  match try_into PK_LEN (pub_key q) with
  | None => false
  | Some pk_bytes =>
      match try_into SIG_LEN (signature q) with
      | None => false
      | Some sig =>
          match pk_try_from_bytes pk_bytes with
          | None => false
          | Some pk => dsa_verify pk (bytes_for_sig q) sig []
          end
      end
  end.

(** The bytes fed to the Keccak hasher. *)
Definition quote_preimage (q : Quote) : bytes :=
  bytes_for_sig q ++ pub_key q ++ signature q.

Definition quote_hash `{Keccak} (q : Quote) : arr 32 := keccak256 (quote_preimage q).

(** ** Well-formed values: every integer within its Rust type *)

Definition Timestamp_wf (t : Timestamp) : Prop := is_u64 (secs t) /\ is_u32 (nanos t).

Definition bytes_wf (b : bytes) : Prop := len b < 2 ^ 32.

Definition Quote_wf (q : Quote) : Prop :=
  Timestamp_wf (timestamp q) /\ is_u32 (committed_key_count q)
  /\ bytes_wf (pub_key q) /\ bytes_wf (signature q).

Definition PaymentProof_wf (p : PaymentProof) : Prop :=
  len (peer_quotes (proof_of_payment p)) < 2 ^ 32
  /\ Forall (fun pq => Quote_wf pq.2) (peer_quotes (proof_of_payment p))
  /\ len (tx_hashes p) < 2 ^ 32
  /\ len (commitment_sidecars p) < 2 ^ 32
  /\ Forall bytes_wf (commitment_sidecars p).

(** A quote written by a node that predates the two tail fields. *)
Definition truncate_quote (k : nat) (q : Quote) : Quote :=
  {| content := content q; timestamp := timestamp q; price := price q;
     rewards_address := rewards_address q; pub_key := pub_key q; signature := signature q;
     committed_key_count := if (7 <=? k)%nat then committed_key_count q else 0;
     commitment_pin := if (8 <=? k)%nat then commitment_pin q else None |}.

(** The entries of a map that reads as [q]: keys only, and each field's value
    (at most one) or default. *)
Definition quote_entries `{Rmp} (entries : list (mp * mp)) (q : Quote) : Prop :=
  Forall (fun e => is_key e.1 = true) entries
  /\ reads (de_byte_array 32) None (values_of "content" 0 entries) (content q)
  /\ reads Timestamp_de None (values_of "timestamp" 1 entries) (timestamp q)
  /\ reads (bin_bytes_de 32) None (values_of "price" 2 entries) (price q)
  /\ reads (bin_bytes_de 20) None (values_of "rewards_address" 3 entries) (rewards_address q)
  /\ reads (de_vec de_u8) None (values_of "pub_key" 4 entries) (pub_key q)
  /\ reads (de_vec de_u8) None (values_of "signature" 5 entries) (signature q)
  /\ reads (de_uint 32) (Some 0) (values_of "committed_key_count" 6 entries) (committed_key_count q)
  /\ reads (de_option (de_byte_array 32)) (Some None) (values_of "commitment_pin" 7 entries) (commitment_pin q).

(** A quote under the names of its fields. *)
Definition quote_names : list string :=
  ["content"; "timestamp"; "price"; "rewards_address"; "pub_key"; "signature"; "committed_key_count"; "commitment_pin"].

Definition named_fields (q : Quote) : list (mp * mp) := zip (MStr <$> quote_names) (quote_fields q).

(** Entries under other names. *)
Definition other_names (l : list (mp * mp)) : Prop := Forall (fun e => exists s, e.1 = MStr s /\ s ∉ quote_names) l.

(** The values of the types' fields that [bytes_for_sig] signs. *)
Definition signed_fields (q : Quote) :=
  (content q, secs (timestamp q), price q, rewards_address q, committed_key_count q, commitment_pin q).

(** ** Lemmas: reading back what was written *)

Create HintDb readback.
Create HintDb np.

Section Readback.
Context `{R : Rmp, RL : !RmpLaws}.

Lemma de_uint_in w z : in_width w z -> de_uint w (MInt z) = Ok z.
Proof. intros. unfold de_uint. by rewrite decide_True. Qed.

Lemma de_u8_ser b : de_u8 (ser_u8 b) = Ok b.
Proof.
  unfold de_u8, ser_u8. rewrite de_uint_in by apply Z_of_byte_range. cbn.
  by rewrite byte_of_Z_of_byte.
Qed.

Lemma de_all_map {A B} (de : mp -> res B) (ser : A -> mp) (f : A -> B) (l : list A) :
  (forall a, a ∈ l -> de (ser a) = Ok (f a)) -> de_all de (map ser l) = Ok (map f l).
Proof.
  induction l as [|a l IH]; intros Hd; [done|]. cbn. rewrite Hd by set_solver. cbn.
  rewrite IH by set_solver. done.
Qed.

Lemma de_vec_bytes bs : de_vec de_u8 (ser_seq_bytes bs) = Ok bs.
Proof.
  unfold de_vec, ser_seq_bytes. rewrite (de_all_map de_u8 ser_u8 (fun b => b)); [|intros; apply de_u8_ser].
  f_equal. apply map_id.
Qed.

Lemma end_seq_nil {A} (a : A) : end_seq a [] = Ok a.
Proof. unfold end_seq. cbn. by rewrite unread_none. Qed.

Lemma take_bytes_ser bs i rest :
  take_bytes (List.length bs) i (map ser_u8 bs ++ rest) = Ok (bs, rest).
Proof.
  revert i. induction bs as [|b bs IH]; intros i; [done|].
  cbn [List.length map app take_bytes]. unfold field, next_element.
  rewrite de_u8_ser. cbn. by rewrite IH.
Qed.

Lemma de_byte_array_ser n (a : arr n) : de_byte_array n (ser_seq_bytes a) = Ok a.
Proof.
  unfold de_byte_array, ser_seq_bytes.
  pose proof (take_bytes_ser a 0 []) as Ht. rewrite app_nil_r, arr_length in Ht.
  rewrite Ht. cbn. rewrite try_into_arr. cbn. apply end_seq_nil.
Qed.

Lemma bin_bytes_de_ser n (a : arr n) : bin_bytes_de n (bin_bytes_ser a) = Ok a.
Proof. unfold bin_bytes_de, bin_bytes_ser. by rewrite try_into_arr. Qed.

(** A [bin] field also reads a sequence of exactly [n] integers. *)
Lemma bin_bytes_de_seq n (a : arr n) : bin_bytes_de n (ser_seq_bytes a) = Ok a.
Proof.
  unfold bin_bytes_de, ser_seq_bytes.
  pose proof (take_bytes_ser a 0 []) as Ht. rewrite app_nil_r, arr_length in Ht.
  rewrite Ht. cbn. rewrite try_into_arr. cbn. apply end_seq_nil.
Qed.

Lemma de_option_ser n (o : option (arr n)) :
  de_option (de_byte_array n) (ser_option (fun a : arr n => ser_seq_bytes a) o) = Ok o.
Proof.
  destruct o as [a|]; [|done]. unfold de_option. cbn [ser_option ser_seq_bytes].
  by rewrite (de_byte_array_ser n a).
Qed.

Lemma field_ok {A} i (de : mp -> res A) v l a : de v = Ok a -> field i de (v :: l) = Ok (a, l).
Proof. unfold field, next_element. by intros ->. Qed.

Lemma field_nil {A} i (de : mp -> res A) : field i de [] = Err (invalid_length i).
Proof. done. Qed.

Lemma field_default_ok {A} d (de : mp -> res A) v l a :
  de v = Ok a -> field_default d de (v :: l) = Ok (a, l).
Proof. unfold field_default, next_element. by intros ->. Qed.

Lemma field_default_nil {A} d (de : mp -> res A) : field_default d de [] = Ok (d, []).
Proof. done. Qed.

Hint Resolve de_uint_in de_vec_bytes de_byte_array_ser bin_bytes_de_ser de_option_ser
  end_seq_nil : readback.

(** Reads the fields of a struct one by one. *)
Ltac read_fields :=
  cbn [and_field no_fields fs_seq];
  repeat (first
    [ rewrite field_nil | rewrite field_default_nil
    | erewrite field_ok by eauto with readback
    | erewrite field_default_ok by eauto with readback ];
    cbn [mbind result_bind]);
  cbn [mret result_ret mbind result_bind]; rewrite ?end_seq_nil.

Lemma Timestamp_de_ser t : Timestamp_wf t -> Timestamp_de (Timestamp_ser t) = Ok t.
Proof.
  intros [Hs Hn]. unfold Timestamp_de, Timestamp_ser, Timestamp_fields, de_struct. read_fields. by destruct t.
Qed.

Hint Resolve Timestamp_de_ser : readback.

(** The first [k] fields of a quote, as an older node writes them. *)
Lemma Quote_de_prefix q k :
  Quote_wf q -> (k <= 8)%nat ->
  Quote_de (MArray (take k (quote_fields q))) =
  if (k <? 6)%nat then Err (invalid_length (Z.of_nat k)) else Ok (truncate_quote k q).
Proof.
  intros (Ht & Hk & Hp & Hs) Hle.
  unfold Quote_de, Quote_fields, de_struct, quote_fields, truncate_quote.
  destruct k as [|[|[|[|[|[|[|[|[|k]]]]]]]]]; [..|lia].
  all: cbn [take]; read_fields; done.
Qed.

Lemma truncate_quote_8 q : truncate_quote 8 q = q.
Proof. by destruct q. Qed.

Lemma Quote_de_ser q : Quote_wf q -> Quote_de (Quote_ser q) = Ok q.
Proof.
  intros Hq. change (Quote_ser q) with (MArray (take 8 (quote_fields q))).
  rewrite Quote_de_prefix by (done || lia). by rewrite truncate_quote_8.
Qed.

Lemma PeerId_de_ser p : PeerId_de (PeerId_ser p) = Ok p.
Proof.
  unfold PeerId_de, PeerId_ser, seq_bytes_32_ser, seq_bytes_32_de.
  rewrite de_vec_bytes. cbn. rewrite try_into_arr. by destruct p.
Qed.

Lemma TxHash_de_ser t : TxHash_de (TxHash_ser t) = Ok t.
Proof. unfold TxHash_de, TxHash_ser. rewrite bin_bytes_de_ser. by destruct t. Qed.

Hint Resolve Quote_de_ser PeerId_de_ser TxHash_de_ser : readback.

Lemma de_vec_map {A} (de : mp -> res A) (ser : A -> mp) (l : list A) :
  (forall a, a ∈ l -> de (ser a) = Ok a) -> de_vec de (MArray (map ser l)) = Ok l.
Proof.
  intros H. unfold de_vec. rewrite (de_all_map de ser (fun a => a)) by done.
  by rewrite map_id.
Qed.

Lemma peer_quotes_de_ser p :
  Forall (fun pq => Quote_wf pq.2) (peer_quotes p) ->
  ProofOfPayment_de (ProofOfPayment_ser p) = Ok p.
Proof.
  intros H. unfold ProofOfPayment_de, ProofOfPayment_ser, de_struct. cbn [and_field no_fields fs_seq].
  erewrite field_ok.
  2:{ apply de_vec_map. intros [peer q] Hin. rewrite Forall_forall in H.
      specialize (H _ Hin). cbn in H. unfold peer_quote_de, de_tuple. by read_fields. }
  cbn [mbind result_bind mret result_ret]. rewrite end_seq_nil. by destruct p.
Qed.

Lemma PaymentProof_de_ser p : PaymentProof_wf p -> PaymentProof_de (PaymentProof_ser p) = Ok p.
Proof.
  intros (_ & Hq & _). unfold PaymentProof_de, PaymentProof_ser, PaymentProof_fields, de_struct.
  cbn [and_field no_fields fs_seq].
  erewrite field_ok by (by apply peer_quotes_de_ser). cbn [mbind result_bind].
  erewrite field_ok by (apply de_vec_map; intros; apply TxHash_de_ser). cbn [mbind result_bind].
  erewrite field_default_ok by (apply de_vec_map; intros; apply de_vec_bytes).
  cbn [mbind result_bind mret result_ret]. rewrite end_seq_nil. by destruct p.
Qed.
End Readback.

(** ** Lemmas: no reader panics *)

Section NoPanic.
Context `{R : Rmp, RL : !RmpLaws}.

Definition no_panic {A} (de : mp -> res A) : Prop := forall v, de v <> Panic.

(** Splits a panicking chain of [?]s into its steps. *)
Ltac inv_panic :=
  repeat match goal with
  | H : mbind _ _ = Panic |- _ => apply bind_Panic in H as [H|([? ?] & ? & H)]
  | H : mbind _ _ = Panic |- _ => apply bind_Panic in H as [H|(? & ? & H)]
  | H : mret _ = Panic |- _ => discriminate H
  | H : Ok _ = Panic |- _ => discriminate H
  | H : Err _ = Panic |- _ => discriminate H
  | H : match ?o with Some _ => _ | None => _ end = Panic |- _ => destruct o eqn:?
  end.

Lemma de_uint_np w : no_panic (de_uint w).
Proof. intros v. unfold de_uint. destruct v; try done; by case_decide. Qed.

Lemma de_u8_np : no_panic de_u8.
Proof. intros v H. unfold de_u8 in H. inv_panic. by eapply de_uint_np. Qed.

Lemma end_seq_np {A} (a : A) l : end_seq a l <> Panic.
Proof. unfold end_seq. by destruct (unread_elements _). Qed.

Lemma field_np {A} i (de : mp -> res A) l : no_panic de -> field i de l <> Panic.
Proof.
  intros Hd H. unfold field, next_element in H. destruct l as [|v l]; cbn in H; [done|].
  inv_panic; by eapply Hd.
Qed.

Lemma field_default_np {A} d (de : mp -> res A) l : no_panic de -> field_default d de l <> Panic.
Proof.
  intros Hd H. unfold field_default, next_element in H. destruct l as [|v l]; cbn in H; [done|].
  inv_panic; by eapply Hd.
Qed.

Lemma take_bytes_np n : forall i l, take_bytes n i l <> Panic.
Proof.
  induction n as [|n IH]; intros i l H; cbn in H; [done|].
  inv_panic; [by apply (field_np _ _ _ de_u8_np) in H|by eapply IH].
Qed.

Lemma take_bytes_length n : forall i l bs r, take_bytes n i l = Ok (bs, r) -> List.length bs = n.
Proof.
  induction n as [|n IH]; intros i l bs r H; cbn in H; [by injection H as <- _|].
  apply bind_Ok in H as ([b l'] & _ & H). apply bind_Ok in H as ([bs' l''] & H' & H).
  injection H as <- _. cbn. f_equal. by eapply IH.
Qed.

(** The array visitors' common tail. *)
Lemma fill_array_np n l :
  ('(out, l) ← take_bytes n 0 l;
   a ← match try_into n out with Some a => mret a | None => Panic end;
   end_seq a l) <> (Panic : res (arr n)).
Proof.
  intros H. inv_panic.
  - by eapply take_bytes_np.
  - match goal with H : take_bytes _ _ _ = _ |- _ => apply take_bytes_length in H end.
    by apply (proj1 (try_into_None _ _)) in Heqo.
  - by eapply end_seq_np.
Qed.

Lemma de_byte_array_np n : no_panic (de_byte_array n).
Proof. intros v. unfold de_byte_array. destruct v; try done. apply fill_array_np. Qed.

Lemma bin_bytes_de_np n : no_panic (bin_bytes_de n).
Proof.
  intros v. unfold bin_bytes_de. destruct v; try done; [by destruct (try_into _ _)|].
  apply fill_array_np.
Qed.

Lemma de_vec_np {A} (de : mp -> res A) : no_panic de -> no_panic (de_vec de).
Proof.
  intros Hd v. unfold de_vec. destruct v; try done.
  induction l as [|v l IH]; intros H; cbn in H; inv_panic; [by eapply Hd|by apply IH].
Qed.

Lemma de_option_np {A} (de : mp -> res A) : no_panic de -> no_panic (de_option de).
Proof. intros Hd v H. unfold de_option in H. destruct v; inv_panic; try done; by eapply Hd. Qed.

(** The same of the visitors of a struct. *)
Definition fields_np {A} (fs : fields A) : Prop :=
  (forall i l, fs_seq fs i l <> Panic) /\ (forall k v s, fs_put fs k v s <> Panic) /\ (forall s, fs_done fs s <> Panic).

Lemma no_fields_np : fields_np no_fields.
Proof. done. Qed.

Lemma and_field_np {A B} name (de : mp -> res A) default (fs : fields B) :
  no_panic de -> fields_np fs -> fields_np (and_field name de default fs).
Proof.
  intros Hd (Hseq & Hput & Hdone). split_and!.
  - intros i l H. cbn in H. apply bind_Panic in H as [H|([a l'] & _ & H)].
    + destruct default; [by eapply field_default_np|by eapply field_np].
    + apply bind_Panic in H as [H|([b l2] & _ & H)]; [by eapply Hseq|done].
  - intros [|k] v [o s] H; cbn in H.
    + destruct o; [done|]. apply bind_Panic in H as [H|(a & _ & H)]; [by eapply Hd|done].
    + apply bind_Panic in H as [H|(s2 & _ & H)]; [by eapply Hput|done].
  - intros [o s] H. cbn in H. apply bind_Panic in H as [H|(a & _ & H)]; [by destruct o, default|].
    apply bind_Panic in H as [H|(b & _ & H)]; [by eapply Hdone|done].
Qed.

Lemma field_of_np names key : field_of names key <> Panic.
Proof. by destruct key. Qed.

Lemma visit_map_np {A} (fs : fields A) l : fields_np fs -> visit_map fs l <> Panic.
Proof.
  intros (_ & Hput & Hdone) H. unfold visit_map in H. apply bind_Panic in H as [H|(s & _ & H)]; [|by eapply Hdone].
  revert H. generalize (fs_empty fs). induction l as [|[key v] l IH]; intros s H; cbn [put_entries] in H; [done|].
  apply bind_Panic in H as [H|(k & _ & H)]; [by eapply field_of_np|].
  apply bind_Panic in H as [H|(s' & _ & H)]; [destruct k; [by eapply Hput|done]|by eapply IH].
Qed.

Lemma de_struct_np {A B} (fs : fields A) (make : A -> B) : fields_np fs -> no_panic (de_struct fs make).
Proof.
  intros Hf v H. unfold de_struct in H. destruct v; try done.
  - apply bind_Panic in H as [H|([a l'] & _ & H)]; [by eapply (proj1 Hf)|by eapply end_seq_np].
  - destruct (visit_map fs l) eqn:E; try done. by eapply visit_map_np.
Qed.

Lemma de_tuple_np {A B} (fs : fields A) (make : A -> B) : fields_np fs -> no_panic (de_tuple fs make).
Proof.
  intros Hf v H. unfold de_tuple in H. destruct v; try done.
  apply bind_Panic in H as [H|([a l'] & _ & H)]; [by eapply (proj1 Hf)|by eapply end_seq_np].
Qed.

Hint Resolve de_uint_np de_u8_np de_byte_array_np bin_bytes_de_np de_vec_np de_option_np : np.

Ltac np_struct :=
  first [apply de_struct_np|apply de_tuple_np]; repeat (apply and_field_np; [by eauto with np|]); apply no_fields_np.

Lemma Timestamp_de_np : no_panic Timestamp_de.
Proof. np_struct. Qed.
Hint Resolve Timestamp_de_np : np.

Lemma Quote_de_np : no_panic Quote_de.
Proof. np_struct. Qed.

Lemma PeerId_de_np : no_panic PeerId_de.
Proof.
  intros v H. unfold PeerId_de in H. destruct (seq_bytes_32_de v) eqn:E; try done.
  unfold seq_bytes_32_de in E. inv_panic; [by apply (de_vec_np _ de_u8_np) in E|].
  by destruct (try_into _ _).
Qed.

Lemma TxHash_de_np : no_panic TxHash_de.
Proof.
  intros v H. unfold TxHash_de in H. destruct (bin_bytes_de 32 v) eqn:E; try done.
  by eapply bin_bytes_de_np.
Qed.
Hint Resolve Quote_de_np PeerId_de_np TxHash_de_np : np.

Lemma peer_quote_de_np : no_panic peer_quote_de.
Proof. np_struct. Qed.
Hint Resolve peer_quote_de_np : np.

Lemma ProofOfPayment_de_np : no_panic ProofOfPayment_de.
Proof. np_struct. Qed.
Hint Resolve ProofOfPayment_de_np : np.

Lemma PaymentProof_de_np : no_panic PaymentProof_de.
Proof. np_struct. Qed.

Lemma parse_quote_np bs : parse_quote bs <> Panic.
Proof.
  intros H. unfold parse_quote in H. apply map_err_Panic in H. inv_panic.
  - by eapply rmp_read_total.
  - by eapply Quote_de_np.
Qed.
End NoPanic.

(** ** Lemmas: everything read is within its type *)

Section Typed.
Context `{R : Rmp, RL : !RmpLaws}.

Definition items_ok (l : list mp) : Prop := Forall (fun v => mp_item v = true) l.

(** What [de] makes of an item of the format satisfies [P]. *)
Definition typed {A} (P : A -> Prop) (de : mp -> res A) : Prop := forall v a, mp_item v = true -> de v = Ok a -> P a.

Lemma mp_item_elements l : mp_item (MArray l) = true -> len l < 2 ^ 32 /\ items_ok l.
Proof.
  cbn [mp_item]. intros [Hl%Z.ltb_lt Ha]%andb_true_iff. split; [done|]. apply Forall_forall. intros v Hv.
  rewrite forallb_forall in Ha. apply Ha. by apply list_elem_of_In.
Qed.

Lemma typed_any {A} (de : mp -> res A) : typed (fun _ => True) de.
Proof. done. Qed.

Lemma de_uint_typed w : typed (in_width w) (de_uint w).
Proof. intros v a _. unfold de_uint. destruct v; try done; case_decide; try done; by intros [= <-]. Qed.

Lemma de_all_length {A} (de : mp -> res A) l : forall r, de_all de l = Ok r -> List.length r = List.length l.
Proof.
  induction l as [|v l IH]; intros r Hr; cbn [de_all] in Hr; [by injection Hr as <-|].
  apply bind_Ok in Hr as (a & _ & Hr). apply bind_Ok in Hr as (r' & Hr' & Hr). injection Hr as <-.
  cbn. f_equal. by apply IH.
Qed.

Lemma de_bytes_typed : typed bytes_wf (de_vec de_u8).
Proof.
  intros v a Hv. unfold de_vec. destruct v; try done. apply mp_item_elements in Hv as [Hl _].
  intros Ha%de_all_length. unfold bytes_wf, len in *. by rewrite Ha.
Qed.

Lemma field_typed {A} (P : A -> Prop) i (de : mp -> res A) l a l' :
  typed P de -> items_ok l -> field i de l = Ok (a, l') -> P a /\ items_ok l'.
Proof.
  intros Hd Hl. unfold field, next_element. destruct l as [|v l]; [done|]. apply Forall_cons in Hl as [Hv Hl].
  intros Hf. destruct (de v) as [x|e|] eqn:E; [|done..]. injection Hf as <- <-. split; [by apply (Hd v)|done].
Qed.

Lemma field_default_typed {A} (P : A -> Prop) d (de : mp -> res A) l a l' :
  P d -> typed P de -> items_ok l -> field_default d de l = Ok (a, l') -> P a /\ items_ok l'.
Proof.
  intros HP Hd Hl. unfold field_default, next_element. destruct l as [|v l]; [by intros [= <- <-]|].
  apply Forall_cons in Hl as [Hv Hl]. intros Hf. destruct (de v) as [x|e|] eqn:E; [|done..].
  injection Hf as <- <-. split; [by apply (Hd v)|done].
Qed.

(** A struct's visitors keep what is known of its fields, [PS] of the slots of
    [visit_map]. *)
Definition fields_typed {A} (P : A -> Prop) (fs : fields A) : Prop :=
  (forall i l a l', items_ok l -> fs_seq fs i l = Ok (a, l') -> P a)
  /\ exists PS : fs_slots fs -> Prop, PS (fs_empty fs)
     /\ (forall k v s s', mp_item v = true -> PS s -> fs_put fs k v s = Ok s' -> PS s')
     /\ (forall s a, PS s -> fs_done fs s = Ok a -> P a).

Lemma no_fields_typed : fields_typed (fun _ => True) no_fields.
Proof. split; [done|]. by exists (fun _ => True). Qed.

Lemma and_field_typed {A B} (P : A -> Prop) (Q : B -> Prop) name (de : mp -> res A) default (fs : fields B) :
  typed P de -> from_option P True default -> fields_typed Q fs ->
  fields_typed (fun ab => P ab.1 /\ Q ab.2) (and_field name de default fs).
Proof.
  intros Hd Hdef (Hseq & PS & Hempty & Hput & Hdone). split; [|exists (fun s => from_option P True s.1 /\ PS s.2); split_and!].
  - intros i l [a b] l' Hl H. cbn in H. apply bind_Ok in H as ([a' l1] & Ha & H).
    apply bind_Ok in H as ([b' l2] & Hb & H). injection H as <- <- <-.
    assert (P a' /\ items_ok l1) as [HP Hl1].
    { destruct default; [by eapply field_default_typed|by eapply field_typed]. }
    split; [done|by eapply Hseq].
  - exact I.
  - exact Hempty.
  - intros [|k] v [[a|] s] s' Hv [Ha Hs] H; cbn in Ha, Hs, H; try done.
    + apply bind_Ok in H as (a & Hde & H). injection H as <-. split; [by eapply Hd|done].
    + apply bind_Ok in H as (s2 & Hp & H). injection H as <-. split; [done|by eapply Hput].
    + apply bind_Ok in H as (s2 & Hp & H). injection H as <-. split; [done|by eapply Hput].
  - intros [o s] [a b] [Ha Hs] H. cbn in *. apply bind_Ok in H as (a' & Ho & H).
    apply bind_Ok in H as (b' & Hb & H). injection H as <- <-. split; [|by eapply Hdone].
    destruct o; [by injection Ho as <-|]. destruct default; [by injection Ho as <-|done].
Qed.

Lemma de_struct_typed {A B} (P : A -> Prop) (Q : B -> Prop) (fs : fields A) (make : A -> B) :
  fields_typed P fs -> (forall a, P a -> Q (make a)) -> typed Q (de_struct fs make).
Proof.
  intros (Hseq & PS & Hempty & Hput & Hdone) Hmake v b Hv. unfold de_struct. destruct v as [| | | | | |l|l|]; try done.
  - apply mp_item_elements in Hv as [_ Hv]. intros Hb. apply bind_Ok in Hb as ([a l'] & Ha & He).
    unfold end_seq in He. destruct (unread_elements _); [done|]. injection He as <-. by eapply Hmake, Hseq.
  - cbn [mp_item] in Hv. apply andb_true_iff in Hv as [_ Hv]. intros Hb.
    destruct (visit_map fs l) as [a|e|] eqn:Ha; try done. injection Hb as <-. apply Hmake.
    unfold visit_map in Ha. apply bind_Ok in Ha as (s & Hs & Ha). eapply Hdone; [|exact Ha]. clear Ha.
    revert Hempty Hs. generalize (fs_empty fs). induction l as [|[key v] l IH]; intros s0 HPS Hs; cbn [put_entries] in Hs.
    { by injection Hs as <-. }
    cbn [forallb fst snd] in Hv. apply andb_true_iff in Hv as [[_ Hv]%andb_true_iff Hl].
    apply bind_Ok in Hs as (k & _ & Hs). apply bind_Ok in Hs as (s1 & H1 & Hs). eapply IH; [done| |exact Hs].
    destruct k; [by eapply Hput|by injection H1 as <-].
Qed.

Lemma Timestamp_de_typed : typed Timestamp_wf Timestamp_de.
Proof.
  eapply de_struct_typed; [repeat (eapply and_field_typed; [apply de_uint_typed|done|]); apply no_fields_typed|].
  intros (s & n & []). by intros (? & ? & _).
Qed.

Lemma Quote_de_typed : typed Quote_wf Quote_de.
Proof.
  eapply de_struct_typed.
  - do 6 (eapply and_field_typed; [first [apply Timestamp_de_typed|apply de_bytes_typed|apply typed_any]|exact I|]).
    eapply and_field_typed; [apply de_uint_typed|by vm_compute|].
    eapply and_field_typed; [apply typed_any|exact I|apply no_fields_typed].
  - intros (c & t & p & r & pk & sg & n & pin & []). cbn. intros (_ & ? & _ & _ & ? & ? & ? & _). by split_and!.
Qed.

Lemma parse_quote_wf bs q : parse_quote bs = Ok q -> Quote_wf q.
Proof.
  unfold parse_quote. intros Hq. apply map_err_Ok in Hq. apply bind_Ok in Hq as (v & Hv & Hq).
  eapply Quote_de_typed; [by eapply rmp_read_ok|exact Hq].
Qed.
End Typed.

(** ** Lemmas: everything written is representable *)

Lemma mp_ok_seq_bytes bs : bytes_wf bs -> mp_ok (ser_seq_bytes bs) = true.
Proof.
  intros Hb. unfold bytes_wf in Hb. cbn. apply andb_true_iff. split.
  - apply Z.ltb_lt. unfold len in *. by rewrite length_map.
  - apply forallb_forall. intros v Hv. apply in_map_iff in Hv as (b & <- & _).
    pose proof (Z_of_byte_range b). cbn. apply andb_true_iff. lia.
Qed.

Lemma arr_bytes_wf {n} (a : arr n) : Z.of_nat n < 2 ^ 32 -> bytes_wf a.
Proof. unfold bytes_wf. by rewrite arr_len. Qed.

Lemma mp_ok_array l : len l < 2 ^ 32 -> Forall (fun v => mp_ok v = true) l -> mp_ok (MArray l) = true.
Proof.
  intros Hl H. cbn. apply andb_true_iff. split; [by apply Z.ltb_lt|].
  apply forallb_forall. rewrite Forall_forall in H. intros v Hv. apply H. by apply list_elem_of_In.
Qed.

Lemma mp_ok_bin {n} (a : arr n) : Z.of_nat n < 2 ^ 32 -> mp_ok (bin_bytes_ser a) = true.
Proof. intros. cbn. rewrite arr_len. by apply Z.ltb_lt. Qed.

Lemma mp_ok_int z : in_width 64 z -> mp_ok (MInt z) = true.
Proof. unfold in_width. cbn. intros. apply andb_true_iff. lia. Qed.

Lemma in_width_le w w' z : 0 <= w <= w' -> in_width w z -> in_width w' z.
Proof.
  unfold in_width. intros Hw Hz. pose proof (Z.pow_le_mono_r 2 w w'). lia.
Qed.

#[export] Hint Resolve mp_ok_seq_bytes arr_bytes_wf mp_ok_bin mp_ok_int : wasm.

Lemma quote_fields_ok q : Quote_wf q -> Forall (fun v => mp_ok v = true) (quote_fields q).
Proof.
  intros ([Hs Hn] & Hk & Hp & Hg). unfold quote_fields.
  rewrite !Forall_cons, Forall_nil. split_and!; [..|done].
  - by apply mp_ok_seq_bytes, arr_bytes_wf.
  - apply mp_ok_array; [done|]. rewrite !Forall_cons, Forall_nil.
    split_and!; [..|done]; apply mp_ok_int; [done|by apply (in_width_le 32)].
  - by apply mp_ok_bin.
  - by apply mp_ok_bin.
  - by apply mp_ok_seq_bytes.
  - by apply mp_ok_seq_bytes.
  - apply mp_ok_int. by apply (in_width_le 32).
  - destruct (commitment_pin q) as [pin|]; [|done]. by apply mp_ok_seq_bytes, arr_bytes_wf.
Qed.

Lemma mp_ok_quote_prefix q k : Quote_wf q -> mp_ok (MArray (take k (quote_fields q))) = true.
Proof.
  intros Hq. apply mp_ok_array; [|by apply Forall_take, quote_fields_ok].
  unfold len. rewrite length_take. change (List.length (quote_fields q)) with 8%nat. lia.
Qed.

Lemma mp_ok_quote q : Quote_wf q -> mp_ok (Quote_ser q) = true.
Proof. intros Hq. exact (mp_ok_quote_prefix q 8 Hq). Qed.

Lemma len_map {A B} (f : A -> B) l : len (map f l) = len l.
Proof. unfold len. by rewrite length_map. Qed.

Lemma mp_ok_proof p : PaymentProof_wf p -> mp_ok (PaymentProof_ser p) = true.
Proof.
  intros (Hl & Hq & Ht & Hs & Hb). unfold PaymentProof_ser, ProofOfPayment_ser.
  apply mp_ok_array; [done|]. repeat constructor.
  - apply mp_ok_array; [done|]. repeat constructor.
    apply mp_ok_array; [by rewrite len_map|]. rewrite Forall_map.
    eapply Forall_impl; [exact Hq|]. intros [peer q] Hwf.
    apply mp_ok_array; [done|]. repeat constructor; [|by apply mp_ok_quote].
    apply mp_ok_seq_bytes. by apply arr_bytes_wf.
  - apply mp_ok_array; [by rewrite len_map|]. rewrite Forall_map.
    apply Forall_true. intros t. by apply mp_ok_bin.
  - apply mp_ok_array; [by rewrite len_map|]. rewrite Forall_map.
    eapply Forall_impl; [exact Hb|]. intros b. apply mp_ok_seq_bytes.
Qed.

(** ** Lemmas: the signed payload *)

Lemma le_bytes_inj n a b :
  in_width (8 * Z.of_nat n) a -> in_width (8 * Z.of_nat n) b ->
  le_bytes n a = le_bytes n b -> a = b.
Proof.
  intros Ha Hb H. apply (f_equal le_val) in H. rewrite !le_val_bytes in H.
  by rewrite !Z.mod_small in H.
Qed.

Lemma rev_inj {A} (l k : list A) : rev l = rev k -> l = k.
Proof. intros H. by rewrite <- (rev_involutive l), H, rev_involutive. Qed.

(** The payload is self-delimiting: followed by anything, it still determines
    the signed fields and where it ends. *)
Lemma bytes_for_sig_app q q' r r' :
  Quote_wf q -> Quote_wf q' ->
  bytes_for_sig q ++ r = bytes_for_sig q' ++ r' ->
  signed_fields q = signed_fields q' /\ r = r'.
Proof.
  intros ([Hs _] & Hk & _) ([Hs' _] & Hk' & _). unfold bytes_for_sig, signed_fields.
  rewrite <- !app_assoc. intros H.
  apply app_inj_1 in H as [Hc H]; [|by rewrite !arr_length].
  apply app_inj_1 in H as [Hsecs H]; [|by rewrite !length_le_bytes].
  apply app_inj_1 in H as [Hp H]; [|by rewrite !length_rev, !arr_length].
  apply app_inj_1 in H as [Hr H]; [|by rewrite !arr_length].
  apply app_inj_1 in H as [Hcount H]; [|by rewrite !length_le_bytes].
  apply le_bytes_inj in Hsecs; [|done..]. apply le_bytes_inj in Hcount; [|done..].
  apply rev_inj in Hp.
  apply arr_eq in Hc, Hp, Hr.
  assert (commitment_pin q = commitment_pin q' /\ r = r') as [-> ->].
  { destruct (commitment_pin q) as [pin|], (commitment_pin q') as [pin'|]; cbn in H;
      try discriminate H.
    - injection H as H. apply app_inj_1 in H as [Hpin ->]; [|by rewrite !arr_length].
      by rewrite (arr_eq _ _ Hpin).
    - injection H as ->. done. }
  by rewrite Hc, Hsecs, Hp, Hr, Hcount.
Qed.

Lemma verify_quote_lengths `{MlDsa} q :
  verify_quote q = true ->
  List.length (pub_key q) = PK_LEN /\ List.length (signature q) = SIG_LEN.
Proof.
  unfold verify_quote.
  destruct (try_into PK_LEN (pub_key q)) as [pk|] eqn:E1; [|done].
  destruct (try_into SIG_LEN (signature q)) as [sg|] eqn:E2; [|done].
  apply try_into_Some in E1, E2. intros _. by rewrite E1, E2, !arr_length.
Qed.

(** ** Properties *)

Section Properties.
Context `{R : Rmp, RL : !RmpLaws}.

Lemma quote_prefix_parses q k bs :
  Quote_wf q -> (k <= 8)%nat -> rmp_write (MArray (take k (quote_fields q))) = Ok bs ->
  parse_quote bs =
  if (k <? 6)%nat then Err (Decode (invalid_length (Z.of_nat k))) else Ok (truncate_quote k q).
Proof.
  intros Hq Hk Hw. unfold parse_quote.
  rewrite (rmp_read_write _ bs (mp_ok_quote_prefix q k Hq) Hw). cbn [mbind result_bind].
  rewrite Quote_de_prefix by done. by destruct (k <? 6)%nat.
Qed.

Lemma encode_quote_parses q :
  Quote_wf q -> exists bs, encode_quote q = Ok bs /\ parse_quote bs = Ok q.
Proof.
  intros Hq. destruct (rmp_write_ok _ (mp_ok_quote q Hq)) as [bs Hbs]. exists bs.
  unfold encode_quote. rewrite Hbs. split; [done|].
  rewrite (quote_prefix_parses q 8 bs Hq ltac:(lia) Hbs). cbn. by rewrite truncate_quote_8.
Qed.

Lemma encode_proof_parses p :
  PaymentProof_wf p ->
  exists body, rmp_write (PaymentProof_ser p) = Ok body /\
    encode_proof p = Ok (PROOF_TAG_SINGLE_NODE :: body) /\
    parse_single_node_proof (PROOF_TAG_SINGLE_NODE :: body) = Ok p.
Proof.
  intros Hp. destruct (rmp_write_ok _ (mp_ok_proof p Hp)) as [body Hb]. exists body.
  split; [done|]. unfold encode_proof, parse_single_node_proof. rewrite Hb. split; [done|].
  cbn [head]. rewrite decide_True by done.
  rewrite slice_tail. cbn [mbind result_bind].
  rewrite (rmp_read_write _ body (mp_ok_proof p Hp) Hb). cbn [mbind result_bind].
  by rewrite PaymentProof_de_ser.
Qed.

Lemma proof_parses pqs tx sidecars :
  len pqs < 2 ^ 32 -> Forall (fun pq => Quote_wf pq.2) pqs ->
  len sidecars < 2 ^ 32 -> Forall bytes_wf sidecars ->
  exists body, serialize_single_node_proof pqs tx sidecars = Ok (PROOF_TAG_SINGLE_NODE :: body) /\
    parse_single_node_proof (PROOF_TAG_SINGLE_NODE :: body) =
      Ok {| proof_of_payment := {| peer_quotes := map (fun pq => (MkPeerId pq.1, pq.2)) pqs |};
            tx_hashes := [MkTxHash tx]; commitment_sidecars := sidecars |}.
Proof.
  intros Hl Hq Hs Hb.
  assert (map (fun '(peer, quote) => (MkPeerId peer, quote)) pqs
          = map (fun pq => (MkPeerId pq.1, pq.2)) pqs) as Hmap by (apply map_ext; by intros []).
  edestruct (encode_proof_parses {| proof_of_payment :=
    {| peer_quotes := map (fun pq => (MkPeerId pq.1, pq.2)) pqs |};
    tx_hashes := [MkTxHash tx]; commitment_sidecars := sidecars |}) as (body & _ & He & Hp).
  { repeat split; try done; cbn; [by rewrite len_map|by rewrite Forall_map]. }
  exists body. unfold serialize_single_node_proof. by rewrite Hmap.
Qed.

Lemma parse_quote_read bs v q : rmp_read bs = Ok v -> parse_quote bs = Ok q <-> Quote_de v = Ok q.
Proof.
  intros Hv. unfold parse_quote. rewrite Hv. cbn [mbind result_bind].
  split; [by intros Hq%map_err_Ok|by intros ->].
Qed.

Lemma Quote_de_map entries q :
  Quote_de (MMap entries) = Ok q <->
  quote_entries entries q.
Proof.
  unfold Quote_de. rewrite de_struct_map;
    [|unfold Quote_fields; do 8 apply and_field_read; apply no_fields_read|apply (bool_decide_unpack _); by vm_compute].
  unfold quote_entries. cbn -[reads values_of]. split.
  - intros (Hk & (c & t & p & r & pk & sg & n & pin & []) & Hr & <-). cbn -[reads values_of] in *. tauto.
  - intros (Hk & Hr). split; [done|].
    exists (content q, (timestamp q, (price q, (rewards_address q, (pub_key q, (signature q,
      (committed_key_count q, (commitment_pin q, tt)))))))).
    split; [cbn -[reads values_of]; tauto|by destruct q].
Qed.

(** The values with a name are the same in any order of the entries, whatever
    there is under other names. *)
Lemma values_of_among name i l others l' v :
  Permutation l (others ++ l') -> other_names others -> name ∈ quote_names ->
  values_of name i l' = [v] -> values_of name i l = [v].
Proof.
  intros Hp Ho Hn Hv. apply Permutation_singleton_r. rewrite <- Hv. unfold values_of. rewrite Hp, filter_app.
  assert (filter (fun e => names_field name i e.1 = true) others = []) as ->; [|done].
  clear Hp. induction Ho as [|[key w] others (s & Hkey & Hs) _ IH]; [done|]. cbn in Hkey. subst key. rewrite filter_cons_False; [by apply IH|].
  cbn. rewrite bool_decide_eq_true. by intros ->.
Qed.

Lemma named_quote_reads entries others q :
  Quote_wf q -> other_names others -> Permutation entries (others ++ named_fields q) -> quote_entries entries q.
Proof.
  intros (Ht & Hk & _) Ho Hp. split.
  { rewrite Hp. apply Forall_app. split; [|by repeat constructor].
    eapply Forall_impl; [exact Ho|]. by intros [key w] (s & Hs & _); cbn in *; subst. }
  split_and!;
    match goal with |- reads _ _ (values_of _ _ _) _ =>
      erewrite values_of_among by (exact Hp || exact Ho || (unfold quote_names; set_solver) || reflexivity) end;
    cbn [reads]; eauto using de_byte_array_ser, Timestamp_de_ser, bin_bytes_de_ser, de_vec_bytes, de_uint_in, de_option_ser.
Qed.
End Properties.

(** C27: encoding a quote always succeeds, and parsing the bytes gives back
    exactly the quote, whatever MessagePack codec reads what it wrote. *)
Theorem quote_roundtrip `{R : Rmp, RL : !RmpLaws} q :
  Quote_wf q -> exists bs, encode_quote q = Ok bs /\ parse_quote bs = Ok q.
Proof. exact (encode_quote_parses q). Qed.

(** C26: a quote written as a MessagePack map is read by name.  The bytes of a
    map are accepted as [q] exactly when every key is a field's name (as a
    string or as bytes), an index or one to ignore, each field has at most one
    entry, wherever it is and whatever else the map holds, the six mandatory
    fields have one, every value reads as the field of [q], and a tail field
    without an entry is [0] or [None] in [q].  So the fields of a quote in any
    order, under their names and among others, are read as this quote; and a quote read from a map
    can be written in the positional form, which reads as the same quote. *)
Theorem quote_map_form `{R : Rmp, RL : !RmpLaws} bs entries q (Hread : rmp_read bs = Ok (MMap entries)) :
  (parse_quote bs = Ok q <-> quote_entries entries q)
  /\ (forall others, Quote_wf q -> other_names others -> Permutation entries (others ++ named_fields q) ->
      parse_quote bs = Ok q)
  /\ (parse_quote bs = Ok q -> exists bs', encode_quote q = Ok bs' /\ parse_quote bs' = Ok q).
Proof.
  pose proof (Quote_de_map entries q) as Hmap. rewrite <- (parse_quote_read bs (MMap entries) q Hread) in Hmap.
  split; [exact Hmap|split].
  - intros others Hq Ho Hp. apply Hmap. by eapply named_quote_reads.
  - intros Hq%parse_quote_wf. by apply encode_quote_parses.
Qed.

(** A full-size quote with a commitment pin. *)
Definition example_quote : Quote :=
  {| content := pad 32 [x01; x02]; timestamp := {| secs := 1700000000; nanos := 123456789 |};
     price := pad 32 [xff]; rewards_address := pad 20 [xab];
     pub_key := replicate PK_LEN x07; signature := replicate SIG_LEN xff;
     committed_key_count := 424242; commitment_pin := Some (pad 32 [x80]) |}.

Lemma example_quote_wf : Quote_wf example_quote.
Proof. by vm_compute. Defined.

(** A quote as a named serializer writes it, the fields in reverse order, with
    one the client does not know. *)
Definition named_quote : list (mp * mp) :=
  (MStr "comment", MArray [MNil; MSint (-1)]) :: rev (named_fields example_quote).

Lemma quote_map_form_witness :
  exists bs, @rmp_read Msgpack.msgpack bs = Ok (MMap named_quote) /\ @parse_quote Msgpack.msgpack bs = Ok example_quote.
Proof.
  exists (Msgpack.write (MMap named_quote)). split; [by vm_compute|].
  apply (quote_map_form (R := Msgpack.msgpack) (RL := Msgpack.msgpack_laws) (Msgpack.write (MMap named_quote))
    named_quote example_quote ltac:(by vm_compute)) with (others := [(MStr "comment", MArray [MNil; MSint (-1)])]).
  - exact example_quote_wf.
  - constructor; [|constructor]. exists "comment". split; [reflexivity|]. unfold quote_names. set_solver.
  - apply Permutation_cons; [reflexivity|]. symmetry. apply Permutation_rev.
Defined.

Lemma quote_roundtrip_witness :
  exists bs, @encode_quote Msgpack.msgpack example_quote = Ok bs
             /\ @parse_quote Msgpack.msgpack bs = Ok example_quote.
Proof. exact (quote_roundtrip (RL := Msgpack.msgpack_laws) example_quote example_quote_wf). Defined.

(** C36: a quote written by an older node, with only the first [k] of the eight
    fields, is accepted exactly when the six mandatory fields are there, and
    the missing tail fields get their defaults ([0] and [None]); all other
    fields keep their values. *)
Theorem quote_old_format `{R : Rmp, RL : !RmpLaws} q k bs :
  Quote_wf q -> (k <= 8)%nat -> rmp_write (MArray (take k (quote_fields q))) = Ok bs ->
  parse_quote bs =
  if (k <? 6)%nat then Err (Decode (invalid_length (Z.of_nat k))) else Ok (truncate_quote k q).
Proof. exact (quote_prefix_parses q k bs). Qed.

Lemma quote_old_format_witness :
  exists bs, @rmp_write Msgpack.msgpack (MArray (take 6 (quote_fields example_quote))) = Ok bs
    /\ head bs = Some x96
    /\ @parse_quote Msgpack.msgpack bs = Ok (truncate_quote 6 example_quote).
Proof.
  eexists. split; [vm_compute; reflexivity|]. split; [reflexivity|].
  apply (quote_old_format (RL := Msgpack.msgpack_laws) example_quote 6); [exact example_quote_wf|lia|vm_compute; reflexivity].
Defined.

(** C28: the tagged single-node proof the client sends with a PUT always
    encodes, starts with the tag byte, and reads back as exactly the peers,
    quotes, transaction hash and sidecars it was built from, in order. *)
Theorem single_node_proof_roundtrip `{R : Rmp, RL : !RmpLaws} pqs tx sidecars :
  len pqs < 2 ^ 32 -> Forall (fun pq => Quote_wf pq.2) pqs ->
  len sidecars < 2 ^ 32 -> Forall bytes_wf sidecars ->
  exists body,
    serialize_single_node_proof pqs tx sidecars = Ok (PROOF_TAG_SINGLE_NODE :: body)
    /\ parse_single_node_proof (PROOF_TAG_SINGLE_NODE :: body) =
       Ok {| proof_of_payment := {| peer_quotes := map (fun pq => (MkPeerId pq.1, pq.2)) pqs |};
             tx_hashes := [MkTxHash tx]; commitment_sidecars := sidecars |}.
Proof. apply proof_parses. Qed.

Lemma single_node_proof_roundtrip_witness :
  exists body,
    @serialize_single_node_proof Msgpack.msgpack [(pad 32 [x01], example_quote)] (pad 32 [x5a]) [[x08; x0f]]
      = Ok (PROOF_TAG_SINGLE_NODE :: body)
    /\ @parse_single_node_proof Msgpack.msgpack (PROOF_TAG_SINGLE_NODE :: body) =
       Ok {| proof_of_payment := {| peer_quotes := [(MkPeerId (pad 32 [x01]), example_quote)] |};
             tx_hashes := [MkTxHash (pad 32 [x5a])]; commitment_sidecars := [[x08; x0f]] |}.
Proof.
  apply (single_node_proof_roundtrip (RL := Msgpack.msgpack_laws) [(pad 32 [x01], example_quote)]);
    [reflexivity|constructor; [exact example_quote_wf|constructor]|reflexivity|by repeat constructor].
Defined.

(** Proof bytes without the tag byte are rejected with the byte that was
    found; with it the body decides; and no input at all makes the parser (or
    the quote parser) panic. *)
Theorem parse_proof_tag `{R : Rmp, RL : !RmpLaws} bs :
  parse_single_node_proof bs =
    (if decide (head bs = Some PROOF_TAG_SINGLE_NODE)
     then map_err Decode (v ← rmp_read (tail bs); PaymentProof_de v)
     else Err (BadProofTag (head bs)))
  /\ parse_single_node_proof bs <> Panic /\ parse_quote bs <> Panic.
Proof.
  assert (parse_single_node_proof bs =
    (if decide (head bs = Some PROOF_TAG_SINGLE_NODE)
     then map_err Decode (v ← rmp_read (tail bs); PaymentProof_de v)
     else Err (BadProofTag (head bs)))) as Heq.
  { unfold parse_single_node_proof. destruct bs as [|b bs]; cbn [head tail]; [done|].
    destruct (decide (b = _)) as [->|Hb].
    - rewrite decide_True by done. by rewrite slice_tail.
    - rewrite decide_False by congruence. done. }
  split; [done|]. split; [|apply parse_quote_np]. rewrite Heq. case_decide; [|done].
  intros [H1|(v & _ & H1)]%map_err_Panic%bind_Panic; [by eapply rmp_read_total|by eapply PaymentProof_de_np].
Qed.

Lemma parse_proof_tag_witness :
  @parse_single_node_proof Msgpack.msgpack [x02; x91] = Err (BadProofTag (Some x02)).
Proof. exact (proj1 (parse_proof_tag (RL := Msgpack.msgpack_laws) [x02; x91])). Defined.

(** C30: the payload a node signs is unambiguous: two well-formed quotes with
    the same payload agree on the content address, the seconds of the
    timestamp, the price, the rewards address, the key count and the pin.  (The
    nanoseconds, the key and the signature are not signed.) *)
Theorem bytes_for_sig_injective q q' :
  Quote_wf q -> Quote_wf q' ->
  bytes_for_sig q = bytes_for_sig q' <-> signed_fields q = signed_fields q'.
Proof.
  intros Hq Hq'. split.
  - intros H. apply (bytes_for_sig_app q q' [] []); [done..|]. by rewrite H.
  - unfold signed_fields, bytes_for_sig. by intros [= -> -> -> -> -> ->].
Qed.

Lemma bytes_for_sig_injective_witness :
  bytes_for_sig example_quote = bytes_for_sig example_quote <->
  signed_fields example_quote = signed_fields example_quote.
Proof. apply bytes_for_sig_injective; exact example_quote_wf. Defined.

(** C31: among quotes whose signature verifies, the bytes hashed for the
    on-chain payment determine every signed field, the public key and the
    signature: two different verified quotes never share a payment preimage
    unless they differ in the unsigned nanoseconds only. *)
Theorem quote_preimage_injective `{MlDsa} q q' :
  Quote_wf q -> Quote_wf q' -> verify_quote q = true -> verify_quote q' = true ->
  quote_preimage q = quote_preimage q' ->
  signed_fields q = signed_fields q' /\ pub_key q = pub_key q' /\ signature q = signature q'.
Proof.
  intros Hq Hq' [Hk _]%verify_quote_lengths [Hk' _]%verify_quote_lengths Hp.
  apply bytes_for_sig_app in Hp as [Hs Hp]; [|done..].
  apply app_inj_1 in Hp as [Hpk Hsig]; [done|]. by rewrite Hk, Hk'.
Qed.

(** A quote signed with the toy scheme. *)
Definition unsigned_quote : Quote :=
  {| content := pad 32 [x01; x02]; timestamp := Timestamp_from_secs 5; price := pad 32 [x00; x09];
     rewards_address := pad 20 [xab]; pub_key := pad 1952 (pad 32 [x2a]); signature := [];
     committed_key_count := 0; commitment_pin := None |}.

(** The node's side of [verify_quote]: sign the payload with an empty context. *)
Definition sign_quote `{MlDsa} (sk : SecretKey) (q : Quote) : Quote :=
  {| content := content q; timestamp := timestamp q; price := price q;
     rewards_address := rewards_address q; pub_key := sk_public sk;
     signature := dsa_sign sk (bytes_for_sig q) [];
     committed_key_count := committed_key_count q; commitment_pin := commitment_pin q |}.

Definition signed_quote : Quote :=
  @sign_quote ToyCrypto.mldsa_toy (pad 32 [x2a] : arr 32) unsigned_quote.

Lemma quote_preimage_injective_witness :
  Quote_wf signed_quote /\ @verify_quote ToyCrypto.mldsa_toy signed_quote = true /\
  signed_fields signed_quote = signed_fields signed_quote.
Proof.
  split; [by vm_compute|]. split; [by vm_compute|].
  eapply (@quote_preimage_injective ToyCrypto.mldsa_toy signed_quote signed_quote);
    [by vm_compute|by vm_compute|by vm_compute|by vm_compute|reflexivity].
Defined.

(** C29: a quote is accepted exactly when its public key bytes are an ML-DSA-65
    key, its signature has the length ML-DSA-65 prescribes and the key verifies
    it, with an empty context, over the quote's own payload.  So a quote signed
    by the holder of a key is accepted, whatever its fields, and one whose key or
    signature has any other length is refused. *)
Theorem verify_quote_correct `{D : MlDsa, DL : !MlDsaLaws} q :
  (verify_quote q = true <->
   exists (pk_bytes : arr PK_LEN) (sig : arr SIG_LEN) pk,
     pub_key q = pk_bytes /\ signature q = sig /\
     pk_try_from_bytes pk_bytes = Some pk /\ dsa_verify pk (bytes_for_sig q) sig [] = true)
  /\ (forall sk, verify_quote (sign_quote sk q) = true)
  /\ (List.length (pub_key q) <> PK_LEN \/ List.length (signature q) <> SIG_LEN ->
      verify_quote q = false).
Proof.
  split; [|split].
  - split.
    + unfold verify_quote. destruct (try_into PK_LEN (pub_key q)) as [pk_bytes|] eqn:E1; [|done].
      destruct (try_into SIG_LEN (signature q)) as [sg|] eqn:E2; [|done].
      destruct (pk_try_from_bytes pk_bytes) as [pk|] eqn:E3; [|done].
      apply try_into_Some in E1, E2. intros Hv. exists pk_bytes, sg, pk. by split_and!.
    + intros (pk_bytes & sg & pk & Hk & Hs & Hpk & Hv). unfold verify_quote. rewrite Hk, Hs.
      by rewrite (try_into_arr (n:=PK_LEN)), (try_into_arr (n:=SIG_LEN)), Hpk.
  - intros sk. unfold verify_quote, sign_quote. cbn [pub_key signature].
    rewrite (try_into_arr (n:=PK_LEN)), (try_into_arr (n:=SIG_LEN)).
    destruct (dsa_correct sk (bytes_for_sig q) []) as (pk & -> & Hv). exact Hv.
  - intros Hlen. destruct (verify_quote q) eqn:E; [|done].
    apply verify_quote_lengths in E as [H1 H2]. by destruct Hlen.
Qed.

Lemma verify_quote_correct_witness :
  @verify_quote ToyCrypto.mldsa_toy signed_quote = true.
Proof.
  exact (proj1 (proj2 (@verify_quote_correct ToyCrypto.mldsa_toy ToyCrypto.mldsa_toy_laws unsigned_quote))
    (pad 32 [x2a] : arr 32)).
Defined.
