(* ===== verification/Evm.v ===== *)
(** * EVM calldata, 256-bit arithmetic and the payment split ([src/evm.rs]) *)

From Stdlib Require Import Sorting.Sorted.
From S2P Require Import Prelude Text Crates Serde RefCrates RefCodec Payment.

(** [(rewardsAddress, amount_be, quoteHash)] *)
Definition DataPayment : Type := arr 20 * arr 32 * arr 32.

Definition rewards_of (p : DataPayment) : arr 20 := p.1.1.
Definition amount_of (p : DataPayment) : arr 32 := p.1.2.
Definition hash_of (p : DataPayment) : arr 32 := p.2.

Definition ERC20_APPROVE_SELECTOR : bytes := [x09; x5e; xa7; xb3].

Definition CLOSE_GROUP_SIZE : Z := 7.

(** [[0u8; 32]] *)
Definition zero_word : arr 32 := pad 32 [].

(** ** Words and calldata *)

Lemma word_from_address_length (addr : arr 20) :
  List.length (replicate 12 x00 ++ addr) = 32%nat.
Proof. by rewrite length_app, length_replicate, arr_length. Qed.

Definition word_from_address (addr : arr 20) : arr 32 :=
  mk_arr 32 _ (word_from_address_length addr).

Definition approve_calldata (spender : arr 20) (amount : arr 32) : bytes :=
  ERC20_APPROVE_SELECTOR ++ word_from_address spender ++ amount.

Definition PAY_FOR_QUOTES_SIGNATURE : string := "payForQuotes((address,uint256,bytes32)[])".

Definition pay_for_quotes_selector `{Keccak} : bytes :=
  take 4 (keccak256 (as_bytes PAY_FOR_QUOTES_SIGNATURE)).

(** [offset[31] = 0x20] *)
Definition offset_word : bytes := replicate 31 x00 ++ [x20].

(** [len_word[24..] = (payments.len() as u64).to_be_bytes()] *)
Definition len_word (n : Z) : bytes := replicate 24 x00 ++ be_bytes 8 (n mod 2 ^ 64).

Definition payment_words (p : DataPayment) : bytes :=
  let '(rewards, amount, quote_hash) := p in
  word_from_address rewards ++ amount ++ quote_hash.

Definition pay_for_quotes_calldata `{Keccak} (payments : list DataPayment) : bytes :=
  pay_for_quotes_selector ++ offset_word ++ len_word (len payments)
  ++ mjoin (map payment_words payments).

(** ** Big-endian 256-bit arithmetic

    The loops run over [i] from 31 down to 0: over the reversed arrays. *)

(** [u16]: the sum of two bytes and the carry. *)
Fixpoint add_loop (a b : bytes) (carry : Z) : bytes :=
  match a, b with
  | x :: a, y :: b =>
      let sum := (Z_of_byte x + Z_of_byte y + carry) mod 2 ^ 16 in
      byte_of_Z (Z.land sum 0xff) :: add_loop a b (Z.shiftr sum 8)
  | _, _ => []
  end.

(** [u128]: the product of a byte and the multiplier, plus the carry. *)
Fixpoint mul_loop (a : bytes) (m carry : Z) : bytes :=
  match a with
  | x :: a =>
      let prod := (Z_of_byte x * m + carry) mod 2 ^ 128 in
      byte_of_Z (Z.land prod 0xff) :: mul_loop a m (Z.shiftr prod 8)
  | [] => []
  end.

Lemma add_loop_length a : forall b c, List.length a = List.length b ->
  List.length (add_loop a b c) = List.length a.
Proof.
  induction a as [|x a IH]; intros [|y b] c H; cbn in *; try done.
  f_equal. apply IH. lia.
Qed.

Lemma mul_loop_length a m : forall c, List.length (mul_loop a m c) = List.length a.
Proof. induction a as [|x a IH]; intros c; cbn; [done|]. by rewrite IH. Qed.

Lemma u256_add_length (a b : arr 32) :
  List.length (rev (add_loop (rev a) (rev b) 0)) = 32%nat.
Proof. rewrite length_rev, add_loop_length, length_rev, arr_length; [done|]. by rewrite !length_rev, !arr_length. Qed.

Lemma u256_mul_length (a : arr 32) m : List.length (rev (mul_loop (rev a) m 0)) = 32%nat.
Proof. by rewrite length_rev, mul_loop_length, length_rev, arr_length. Qed.

Definition u256_add (a b : arr 32) : arr 32 := mk_arr 32 _ (u256_add_length a b).

Definition u256_mul_u64 (a : arr 32) (m : Z) : arr 32 := mk_arr 32 _ (u256_mul_length a m).

(** [Ord for [u8; 32]]: lexicographic. *)
Fixpoint bytes_cmp (a b : bytes) : comparison :=
  match a, b with
  | [], [] => Eq
  | [], _ :: _ => Lt
  | _ :: _, [] => Gt
  | x :: a, y :: b =>
      match Z.compare (Z_of_byte x) (Z_of_byte y) with
      | Eq => bytes_cmp a b
      | c => c
      end
  end.

Definition u256_cmp (a b : arr 32) : comparison := bytes_cmp a b.

Definition total_amount (payments : list DataPayment) : arr 32 :=
  fold_left (fun acc p => u256_add acc (amount_of p)) payments zero_word.

(** ** The single-node payment split *)

(** [slice::sort_by]: the stable sort. *)
Section SortBy.
Context {A : Type} (cmp : A -> A -> comparison).

Fixpoint insert_by (x : A) (l : list A) : list A :=
  match l with
  | [] => [x]
  | y :: l => match cmp x y with
              | Gt => y :: insert_by x l
              | _ => x :: y :: l
              end
  end.

Definition sort_by (l : list A) : list A := fold_right insert_by [] l.
End SortBy.

(** [quotes[i].price]; the indices compared are all in range. *)
Definition price_at (quotes : list Quote) (i : nat) : arr 32 :=
  match quotes !! i with
  | Some q => price q
  | None => zero_word
  end.

Definition ranked (quotes : list Quote) : list nat :=
  sort_by (fun i j => u256_cmp (price_at quotes i) (price_at quotes j)) (seq 0 (List.length quotes)).

Definition split_size_error (n : Z) : string :=
  fmt ["payment split needs exactly "; dec CLOSE_GROUP_SIZE; " quotes, got "; dec n].

Definition payment_split `{Keccak} (quotes : list Quote) : res (list DataPayment) :=
  if negb (len quotes =? CLOSE_GROUP_SIZE) then Err (split_size_error (len quotes))
  else
    median_idx ← index (ranked quotes) 3;
    median_quote ← index quotes (Z.of_nat median_idx);
    let median_price_x3 := u256_mul_u64 (price median_quote) 3 in
    mret (imap (fun i q =>
            let amount := if (i =? median_idx)%nat then median_price_x3 else zero_word in
            (rewards_address q, amount, quote_hash q)) quotes).

(** ** Specifications *)

(** The value of a 256-bit word. *)
Definition word_val (w : arr 32) : Z := be_val w.

(** Rank of entry [k] of a list of numbers in the stable ascending order:
    how many entries come before it. *)
Definition before (l : list Z) (k i : nat) : bool :=
  match l !! i, l !! k with
  | Some x, Some y => (x <? y) || ((x =? y) && (i <? k)%nat)
  | _, _ => false
  end.

Definition rank (l : list Z) (k : nat) : nat :=
  List.length (List.filter (before l k) (seq 0 (List.length l))).

(** Reference ABI decoders. *)
Definition address_of_word (w : bytes) : option (arr 20) :=
  if decide (take 12 w = replicate 12 x00) then try_into 20 (drop 12 w) else None.

Definition decode_approve (data : bytes) : option (arr 20 * arr 32) :=
  if decide (take 4 data = ERC20_APPROVE_SELECTOR) then
    spender ← address_of_word (take 32 (drop 4 data));
    amount ← try_into 32 (drop 36 data);
    Some (spender, amount)
  else None.

(** [n] static three-word tuples. *)
Fixpoint decode_tuples (n : nat) (data : bytes) : option (list DataPayment) :=
  match n with
  | O => if decide (data = []) then Some [] else None
  | S n =>
      rewards ← address_of_word (take 32 data);
      amount ← try_into 32 (take 32 (drop 32 data));
      hash ← try_into 32 (take 32 (drop 64 data));
      rest ← decode_tuples n (drop 96 data);
      Some ((rewards, amount, hash) :: rest)
  end.

(** The head of the dynamic array: its offset word, its length at the offset,
    then its elements. *)
Definition decode_pay_for_quotes (selector data : bytes) : option (list DataPayment) :=
  if decide (take 4 data = selector) then
    let args := drop 4 data in
    let offset := be_val (take 32 args) in
    let array := drop (Z.to_nat offset) args in
    decode_tuples (Z.to_nat (be_val (take 32 array))) (drop 32 array)
  else None.

(** ** Lemmas: arithmetic *)

Lemma low_byte s : 0 <= s -> Z_of_byte (byte_of_Z (Z.land s 0xff)) = s mod 256.
Proof.
  intros Hs. change 0xff with (Z.ones 8). rewrite Z.land_ones by lia. change (2 ^ 8) with 256.
  rewrite Z_of_byte_of_Z. apply Z.mod_mod. lia.
Qed.

Lemma high_bits s : Z.shiftr s 8 = s / 256.
Proof. by rewrite Z.shiftr_div_pow2 by lia. Qed.

Lemma len_pow n : 2 ^ (8 * Z.of_nat (S n)) = 256 * 2 ^ (8 * Z.of_nat n).
Proof. replace (8 * Z.of_nat (S n)) with (8 + 8 * Z.of_nat n) by lia. by rewrite Z.pow_add_r by lia. Qed.

(** One digit of a carry chain. *)
Lemma digit_step s t n :
  s mod 256 + 256 * ((t + s / 256) mod 2 ^ (8 * Z.of_nat n))
  = (s + 256 * t) mod 2 ^ (8 * Z.of_nat (S n)).
Proof.
  rewrite len_pow, Z.rem_mul_r by lia.
  rewrite (Z.mul_comm 256 t), Z.mod_add, Z.div_add by lia.
  by rewrite (Z.add_comm t).
Qed.

Lemma add_loop_val a : forall b c,
  List.length a = List.length b -> 0 <= c <= 1 ->
  le_val (add_loop a b c) = (le_val a + le_val b + c) mod 2 ^ (8 * Z.of_nat (List.length a)).
Proof.
  induction a as [|x a IH]; intros [|y b] c Hl Hc; try discriminate Hl.
  - by rewrite Z.mod_1_r.
  - cbn in Hl. cbn [add_loop le_val List.length].
    pose proof (Z_of_byte_range x). pose proof (Z_of_byte_range y).
    rewrite (Z.mod_small _ (2 ^ 16)) by lia.
    rewrite low_byte by lia. rewrite high_bits.
    assert (0 <= (Z_of_byte x + Z_of_byte y + c) / 256 <= 1).
    { split; [apply Z.div_pos; lia|apply Z.lt_succ_r, Z.div_lt_upper_bound; lia]. }
    rewrite IH by lia.
    rewrite digit_step. f_equal. lia.
Qed.

Lemma mul_loop_val a m : forall c,
  is_u64 m -> 0 <= c < 2 ^ 64 ->
  le_val (mul_loop a m c) = (le_val a * m + c) mod 2 ^ (8 * Z.of_nat (List.length a)).
Proof.
  unfold in_width. induction a as [|x a IH]; intros c Hm Hc.
  - by rewrite Z.mod_1_r.
  - cbn [mul_loop le_val List.length]. pose proof (Z_of_byte_range x).
    assert (0 <= Z_of_byte x * m + c < 256 * 2 ^ 64) by nia.
    rewrite (Z.mod_small _ (2 ^ 128)) by lia.
    rewrite low_byte by lia. rewrite high_bits.
    assert (0 <= (Z_of_byte x * m + c) / 256 < 2 ^ 64).
    { split; [apply Z.div_pos; lia|apply Z.div_lt_upper_bound; lia]. }
    rewrite IH by done.
    rewrite digit_step. f_equal. lia.
Qed.

Lemma le_val_snoc l x : le_val (l ++ [x]) = le_val l + 2 ^ (8 * len l) * Z_of_byte x.
Proof.
  induction l as [|y l IH]; cbn [app le_val].
  - change (2 ^ (8 * len [])) with 1. lia.
  - rewrite IH, len_cons. replace (8 * (1 + len l)) with (8 + 8 * len l) by lia.
    pose proof (len_nonneg l). rewrite Z.pow_add_r by lia. lia.
Qed.

Lemma be_val_cons x l : be_val (x :: l) = 2 ^ (8 * len l) * Z_of_byte x + be_val l.
Proof.
  unfold be_val. cbn [rev]. rewrite le_val_snoc. unfold len. rewrite length_rev. lia.
Qed.

Lemma bytes_cmp_val a : forall b, List.length a = List.length b ->
  bytes_cmp a b = Z.compare (be_val a) (be_val b).
Proof.
  induction a as [|x a IH]; intros [|y b] Hl; try discriminate Hl; [done|].
  injection Hl as Hl. cbn [bytes_cmp]. rewrite !be_val_cons.
  assert (len a = len b) as Hlen by (unfold len; lia). rewrite Hlen.
  pose proof (be_val_range a) as Ha. pose proof (be_val_range b) as Hb. rewrite Hlen in Ha.
  set (M := 2 ^ (8 * len b)) in *.
  destruct (Z.compare_spec (Z_of_byte x) (Z_of_byte y)) as [He|Hlt|Hgt].
  - rewrite He, IH by done. symmetry. apply Zcompare_plus_compat.
  - symmetry. apply Z.compare_lt_iff. nia.
  - symmetry. apply Z.compare_gt_iff. nia.
Qed.

Lemma word_val_range w : in_width 256 (word_val w).
Proof. unfold in_width, word_val. pose proof (be_val_range w) as H. by rewrite arr_len in H. Qed.

Lemma word_val_inj a b : word_val a = word_val b -> a = b.
Proof. intros H. apply arr_eq, be_val_inj; [by rewrite !arr_length|done]. Qed.

Lemma u256_add_val a b : word_val (u256_add a b) = (word_val a + word_val b) mod 2 ^ 256.
Proof.
  unfold word_val, be_val, u256_add. cbn [arr_list mk_arr]. rewrite rev_involutive.
  rewrite add_loop_val by (rewrite ?length_rev, ?arr_length; lia).
  rewrite length_rev, arr_length, Z.add_0_r. done.
Qed.

Lemma u256_mul_val a m : is_u64 m -> word_val (u256_mul_u64 a m) = (word_val a * m) mod 2 ^ 256.
Proof.
  intros Hm. unfold word_val, be_val, u256_mul_u64. cbn [arr_list mk_arr]. rewrite rev_involutive.
  rewrite mul_loop_val by (done || lia).
  rewrite length_rev, arr_length, Z.add_0_r. done.
Qed.

Lemma u256_cmp_val a b : u256_cmp a b = Z.compare (word_val a) (word_val b).
Proof. apply bytes_cmp_val. by rewrite !arr_length. Qed.

Definition sum_amounts (ps : list DataPayment) : Z :=
  fold_right (fun p s => word_val (amount_of p) + s) 0 ps.

Lemma zero_word_val : word_val zero_word = 0.
Proof. by vm_compute. Qed.

Lemma total_amount_val ps : word_val (total_amount ps) = sum_amounts ps mod 2 ^ 256.
Proof.
  unfold total_amount. rewrite <- (Z.add_0_l (sum_amounts ps)), <- zero_word_val.
  generalize zero_word as acc. induction ps as [|p ps IH]; intros acc; cbn [fold_left sum_amounts fold_right].
  - rewrite Z.add_0_r, Z.mod_small; [done|apply word_val_range].
  - rewrite IH, u256_add_val. rewrite Z.add_mod_idemp_l by lia.
    f_equal. change (fold_right _ 0 ps) with (sum_amounts ps). lia.
Qed.

(** ** Lemmas: the stable sort and ranks *)

Section Sorting.
Context (f : nat -> Z).

(** The order [sort_by] puts indices in: by key, ties by index. *)
Definition rank_lt (i j : nat) : Prop := f i < f j \/ (f i = f j /\ (i < j)%nat).

Definition cmp_key (i j : nat) : comparison := Z.compare (f i) (f j).

Lemma rank_lt_trans i j k : rank_lt i j -> rank_lt j k -> rank_lt i k.
Proof. unfold rank_lt. lia. Qed.

Lemma rank_lt_irrefl i : ~ rank_lt i i.
Proof. unfold rank_lt. lia. Qed.

Lemma insert_by_perm i l : insert_by cmp_key i l ≡ₚ i :: l.
Proof.
  induction l as [|j l IH]; cbn; [done|].
  destruct (cmp_key i j); [done|done|]. rewrite IH. apply Permutation_swap.
Qed.

Lemma sort_by_perm l : sort_by cmp_key l ≡ₚ l.
Proof. induction l as [|i l IH]; cbn; [done|]. by rewrite insert_by_perm, IH. Qed.

Lemma insert_by_sorted i l :
  Forall (fun j => (i < j)%nat) l -> StronglySorted rank_lt l ->
  StronglySorted rank_lt (insert_by cmp_key i l).
Proof.
  intros Hi Hs. induction Hs as [|j l Hs IH Hj]; cbn; [by repeat constructor|].
  inversion Hi as [|? ? Hij Hi']; subst. unfold cmp_key.
  destruct (Z.compare_spec (f i) (f j)) as [He|Hlt|Hgt].
  - constructor; [by constructor|]. constructor; [by right|].
    eapply Forall_impl; [exact Hj|]. intros k. apply rank_lt_trans. by right.
  - constructor; [by constructor|]. constructor; [by left|].
    eapply Forall_impl; [exact Hj|]. intros k. apply rank_lt_trans. by left.
  - constructor; [by apply IH|]. rewrite (insert_by_perm i l). constructor; [by left|done].
Qed.

Lemma sort_seq_sorted n : forall a, StronglySorted rank_lt (sort_by cmp_key (seq a n)).
Proof.
  induction n as [|n IH]; intros a; [constructor|].
  cbn [seq sort_by fold_right]. change (fold_right _ _ _) with (sort_by cmp_key (seq (S a) n)).
  apply insert_by_sorted; [|apply IH]. rewrite sort_by_perm. apply Forall_forall. intros j Hj. apply elem_of_seq in Hj. lia.
Qed.

(** In a strictly sorted list, the elements before position [p] are those
    below the element at [p]. *)
Lemma sorted_position (lt_b : nat -> nat -> bool) l :
  (forall i j, lt_b i j = true <-> rank_lt i j) ->
  StronglySorted rank_lt l -> forall p k, l !! p = Some k ->
  List.length (List.filter (fun i => lt_b i k) l) = p.
Proof.
  intros Hb Hs. induction Hs as [|i l Hs IH Hi]; intros p k Hp; [done|].
  rewrite Forall_forall in Hi. cbn [List.filter]. destruct p as [|p]; cbn in Hp.
  - injection Hp as ->. destruct (lt_b k k) eqn:E; [by apply Hb, rank_lt_irrefl in E|].
    assert (List.filter (fun i => lt_b i k) l = []) as ->; [|done].
    clear -Hb Hi. induction l as [|j l IH]; [done|]. cbn.
    destruct (lt_b j k) eqn:E; [|apply IH; set_solver].
    apply Hb in E. specialize (Hi j ltac:(set_solver)). exfalso.
    by eapply rank_lt_irrefl, rank_lt_trans.
  - assert (lt_b i k = true) as ->.
    { apply Hb, Hi. by eapply list_elem_of_lookup_2. }
    cbn. f_equal. by apply IH.
Qed.
End Sorting.

Lemma filter_perm_length {A} (p : A -> bool) l l' :
  l ≡ₚ l' -> List.length (List.filter p l) = List.length (List.filter p l').
Proof. induction 1; cbn; repeat case_match; cbn; lia. Qed.

Definition prices (quotes : list Quote) : list Z := map (fun q => word_val (price q)) quotes.

Lemma price_at_val quotes i q : quotes !! i = Some q -> word_val (price_at quotes i) = word_val (price q).
Proof. unfold price_at. by intros ->. Qed.

Lemma insert_by_ext {A} (c c' : A -> A -> comparison) x l :
  (forall a b, c a b = c' a b) -> insert_by c x l = insert_by c' x l.
Proof.
  intros H. induction l as [|y l IH]; [done|]. cbn. rewrite H, IH. done.
Qed.

Lemma sort_by_ext {A} (c c' : A -> A -> comparison) l :
  (forall a b, c a b = c' a b) -> sort_by c l = sort_by c' l.
Proof.
  intros H. induction l as [|x l IH]; [done|].
  unfold sort_by in *. cbn [fold_right]. rewrite IH. by apply insert_by_ext.
Qed.

Lemma ranked_sorted quotes :
  ranked quotes = sort_by (cmp_key (fun i => word_val (price_at quotes i))) (seq 0 (List.length quotes)).
Proof. apply sort_by_ext. intros i j. apply u256_cmp_val. Qed.

(** Position [p] of the ranking holds the entry of rank [p]. *)
Lemma ranked_rank quotes p k :
  ranked quotes !! p = Some k -> (k < List.length quotes)%nat /\ rank (prices quotes) k = p.
Proof.
  rewrite ranked_sorted. set (f := fun i => word_val (price_at quotes i)). intros Hk.
  pose proof (sort_by_perm f (seq 0 (List.length quotes))) as Hperm.
  assert (k ∈ seq 0 (List.length quotes)) as Hin.
  { rewrite <- Hperm. by eapply list_elem_of_lookup_2. }
  apply elem_of_seq in Hin. split; [lia|].
  pose proof (sorted_position f (fun i j => (f i <? f j) || ((f i =? f j) && (i <? j)%nat)) _
    ltac:(intros i j; unfold rank_lt; rewrite orb_true_iff, andb_true_iff, Z.ltb_lt, Z.eqb_eq, Nat.ltb_lt; tauto)
    (sort_seq_sorted f (List.length quotes) 0) p k Hk) as Hpos.
  rewrite (filter_perm_length _ _ _ Hperm) in Hpos.
  rewrite <- Hpos. unfold rank, prices. rewrite length_map. f_equal.
  apply List.filter_ext_in. intros i Hi. apply list_elem_of_In, elem_of_seq in Hi.
  unfold before. rewrite !list_lookup_fmap.
  destruct (lookup_lt_is_Some_2 quotes i ltac:(lia)) as [q Hq].
  destruct (lookup_lt_is_Some_2 quotes k ltac:(lia)) as [q' Hq'].
  rewrite Hq, Hq'. cbn. unfold f. by rewrite (price_at_val _ _ _ Hq), (price_at_val _ _ _ Hq').
Qed.

(** ** Lemmas: the split *)

Section Split.
Context `{Keccak}.

(** What the split pays the entry at index [i] when the median is at [m]. *)
Definition paid (m : nat) (mq : Quote) (i : nat) (q : Quote) : DataPayment :=
  (rewards_address q, if (i =? m)%nat then u256_mul_u64 (price mq) 3 else zero_word, quote_hash q).

Lemma payment_split_seven quotes :
  len quotes = 7 ->
  exists m mq, quotes !! m = Some mq /\ rank (prices quotes) m = 3%nat /\
    payment_split quotes = Ok (imap (paid m mq) quotes).
Proof.
  intros Hl.
  destruct (lookup_lt_is_Some_2 (ranked quotes) 3) as [m Hm].
  { rewrite ranked_sorted, sort_by_perm, length_seq. unfold len in Hl. lia. }
  destruct (ranked_rank _ _ _ Hm) as [Hlt Hr].
  destruct (lookup_lt_is_Some_2 quotes m Hlt) as [mq Hq].
  exists m, mq. split; [done|]. split; [done|].
  unfold payment_split. rewrite Hl. cbn [negb Z.eqb CLOSE_GROUP_SIZE].
  assert (index (E:=string) (ranked quotes) 3 = Ok m) as -> by (by apply index_Ok).
  cbn [mbind result_bind].
  assert (index (E:=string) quotes (Z.of_nat m) = Ok mq) as ->
    by (apply index_Ok; rewrite Nat2Z.id; split; [lia|done]).
  done.
Qed.

Lemma sum_zero_amounts (m : nat) mq quotes (f : nat -> nat) :
  (forall i, f i <> m) ->
  sum_amounts (imap (fun i q => paid m mq (f i) q) quotes) = 0.
Proof.
  revert f. induction quotes as [|q quotes IH]; intros f Hf; [done|].
  rewrite imap_cons. cbn [sum_amounts fold_right].
  change (fold_right _ 0 ?l) with (sum_amounts l).
  change (imap _ quotes) with (imap (fun i q => paid m mq (f (S i)) q) quotes).
  unfold paid at 1. unfold amount_of. cbn [fst snd].
  destruct (Nat.eqb_spec (f 0%nat) m) as [E|_]; [by apply Hf in E|].
  rewrite zero_word_val. rewrite (IH (fun i => f (S i))) by (intros; apply Hf). done.
Qed.

(** The only non-zero amount is the median's. *)
Lemma sum_paid m mq quotes :
  quotes !! m = Some mq ->
  sum_amounts (imap (paid m mq) quotes) = (3 * word_val (price mq)) mod 2 ^ 256.
Proof.
  intros Hm.
  assert (forall qs (k : nat), qs !! (m - k)%nat = Some mq -> (k <= m)%nat ->
    sum_amounts (imap (fun i q => paid m mq (k + i) q) qs) = (3 * word_val (price mq)) mod 2 ^ 256) as Hgen.
  { induction qs as [|q qs IH]; intros k Hq Hk; [done|].
    rewrite imap_cons. cbn [sum_amounts fold_right]. change (fold_right _ 0 ?l) with (sum_amounts l).
    change (imap _ qs) with (imap (fun i q => paid m mq (k + S i) q) qs).
    unfold paid at 1. unfold amount_of. cbn [fst snd]. rewrite Nat.add_0_r.
    destruct (Nat.eqb_spec k m) as [->|Hne].
    - rewrite (sum_zero_amounts m mq qs (fun i => (m + S i)%nat)) by (intros; lia).
      rewrite u256_mul_val by (by vm_compute). rewrite Z.mul_comm. lia.
    - rewrite zero_word_val. rewrite <- (IH (S k)); [|by replace (m - k)%nat with (S (m - S k)) in Hq by lia|lia].
      rewrite Z.add_0_l. f_equal. apply imap_ext. intros i x _. cbn. f_equal. lia. }
  rewrite <- (Hgen quotes 0%nat); [|by rewrite Nat.sub_0_r|lia]. done.
Qed.

(** *** Calldata *)

Lemma take_app_exact {A} n (l k : list A) : List.length l = n -> take n (l ++ k) = l.
Proof. intros. by apply take_app_length'. Qed.

Lemma drop_app_exact {A} n (l k : list A) : List.length l = n -> drop n (l ++ k) = k.
Proof. intros. by apply drop_app_length'. Qed.

Lemma address_of_word_of (a : arr 20) : address_of_word (word_from_address a) = Some a.
Proof.
  unfold address_of_word. cbn [arr_list word_from_address mk_arr].
  rewrite take_app_exact, drop_app_exact by (by rewrite length_replicate).
  rewrite decide_True by done. apply try_into_arr.
Qed.

Lemma payment_words_length p : List.length (payment_words p) = 96%nat.
Proof.
  destruct p as [[r a] h]. cbn [payment_words]. rewrite !length_app, !arr_length. done.
Qed.

Lemma decode_tuples_words ps :
  decode_tuples (List.length ps) (mjoin (map payment_words ps)) = Some ps.
Proof.
  induction ps as [|[[r a] h] ps IH]; [done|].
  cbn [map List.length decode_tuples]. 
  change (mjoin (?x :: ?l)) with (x ++ mjoin l).
  rewrite (drop_app_exact 96) by apply payment_words_length.
  cbn [payment_words]. rewrite <- !app_assoc.
  rewrite (take_app_exact 32) by apply arr_length. rewrite address_of_word_of. cbn [mbind option_bind].
  rewrite (drop_app_exact 32) by apply arr_length.
  rewrite (take_app_exact 32) by apply arr_length. rewrite try_into_arr. cbn [mbind option_bind].
  change 64%nat with (32 + 32)%nat. rewrite <- drop_drop.
  rewrite !(drop_app_exact 32) by apply arr_length.
  rewrite (take_app_exact 32) by apply arr_length. rewrite try_into_arr. cbn [mbind option_bind].
  by rewrite IH.
Qed.

Lemma be_val_app l k : be_val (l ++ k) = 2 ^ (8 * len k) * be_val l + be_val k.
Proof.
  induction l as [|x l IH]; [change (be_val []) with 0; cbn [app]; lia|].
  cbn [app]. rewrite !be_val_cons, IH, len_app.
  rewrite Z.mul_add_distr_l, Z.pow_add_r by (pose proof (len_nonneg l); pose proof (len_nonneg k); lia).
  lia.
Qed.

Lemma be_val_zeros n : be_val (replicate n x00) = 0.
Proof.
  induction n as [|n IH]; [done|]. cbn [replicate]. rewrite be_val_cons, IH.
  change (Z_of_byte x00) with 0. lia.
Qed.

Lemma len_word_val n : is_u64 n -> be_val (len_word n) = n.
Proof.
  intros Hn. unfold len_word. rewrite be_val_app, be_val_zeros, Z.mul_0_r, Z.add_0_l.
  rewrite be_val_bytes. change (8 * Z.of_nat 8) with 64.
  rewrite Z.mod_mod by (apply Z.pow_nonzero; lia). by apply Z.mod_small.
Qed.

Lemma selector_length : List.length pay_for_quotes_selector = 4%nat.
Proof. unfold pay_for_quotes_selector. rewrite length_take, arr_length. done. Qed.

Lemma len_word_length n : List.length (len_word n) = 32%nat.
Proof. unfold len_word. by rewrite length_app, length_replicate, length_be_bytes. Qed.

Lemma decode_calldata ps :
  len ps < 2 ^ 64 ->
  decode_pay_for_quotes pay_for_quotes_selector (pay_for_quotes_calldata ps) = Some ps.
Proof.
  intros Hl. unfold decode_pay_for_quotes, pay_for_quotes_calldata.
  rewrite (take_app_exact 4) by apply selector_length. rewrite decide_True by done.
  cbv zeta. rewrite (drop_app_exact 4) by apply selector_length.
  rewrite (take_app_exact 32) by done. change (Z.to_nat (be_val offset_word)) with 32%nat.
  rewrite (drop_app_exact 32) by done.
  rewrite (take_app_exact 32), (drop_app_exact 32) by apply len_word_length.
  rewrite len_word_val by (split; [apply len_nonneg|done]).
  unfold len. rewrite Nat2Z.id. apply decode_tuples_words.
Qed.

Lemma calldata_length ps : len (pay_for_quotes_calldata ps) = 68 + 96 * len ps.
Proof.
  unfold pay_for_quotes_calldata. rewrite !len_app.
  unfold len at 1 2 3. rewrite selector_length, len_word_length.
  change (List.length offset_word) with 32%nat.
  assert (len (mjoin (map payment_words ps)) = 96 * len ps) as ->; [|lia].
  induction ps as [|p ps IH]; [done|].
  cbn [map]. change (mjoin (?x :: ?l)) with (x ++ mjoin l).
  rewrite len_app, IH, len_cons. unfold len at 1. rewrite payment_words_length. lia.
Qed.
End Split.

(** ** Properties *)

(** C32: the byte-wise 256-bit routines compute on the big-endian values:
    addition and multiplication by a [u64] modulo [2^256], with no overflow of
    the [u16] and [u128] accumulators they use, the comparison is the numeric
    one, and the total of a payment list is the sum of its amounts modulo
    [2^256]. *)
Theorem u256_arithmetic (a b : arr 32) (m : Z) (ps : list DataPayment) (Hm : is_u64 m) :
  word_val (u256_add a b) = (word_val a + word_val b) mod 2 ^ 256 /\
  word_val (u256_mul_u64 a m) = (word_val a * m) mod 2 ^ 256 /\
  u256_cmp a b = Z.compare (word_val a) (word_val b) /\
  word_val (total_amount ps) = sum_amounts ps mod 2 ^ 256.
Proof.
  split; [apply u256_add_val|]. split; [by apply u256_mul_val|].
  split; [apply u256_cmp_val|apply total_amount_val].
Qed.

(** C22: [payment_split] refuses any number of quotes but seven, and on seven
    never fails: the result lines up with the quotes, each entry carrying its
    quote's rewards address and hash; the entry of rank 3 in the stable
    ascending order of prices, and no other, gets an amount, three times its
    own price (modulo [2^256]); and the total approved is exactly the sum of
    the amounts, the median's. *)
Theorem payment_split_correct `{Keccak} (quotes : list Quote) :
  match payment_split quotes with
  | Ok ps =>
      len quotes = 7 /\
      exists m mq paid3,
        quotes !! m = Some mq /\ rank (prices quotes) m = 3%nat /\
        word_val paid3 = (3 * word_val (price mq)) mod 2 ^ 256 /\
        ps = imap (fun i q =>
               (rewards_address q, if (i =? m)%nat then paid3 else zero_word, quote_hash q)) quotes /\
        word_val (total_amount ps) = sum_amounts ps /\ total_amount ps = paid3
  | Err e => len quotes <> 7 /\ e = split_size_error (len quotes)
  | Panic => False
  end.
Proof.
  destruct (decide (len quotes = 7)) as [Hl|Hl].
  - destruct (payment_split_seven quotes Hl) as (m & mq & Hm & Hr & ->). split; [done|].
    pose proof (total_amount_val (imap (paid m mq) quotes)) as Ht.
    pose proof (u256_mul_val (price mq) 3 ltac:(by vm_compute)) as Hp. rewrite Z.mul_comm in Hp.
    rewrite (sum_paid _ _ _ Hm), Z.mod_mod in Ht by (apply Z.pow_nonzero; lia).
    exists m, mq, (u256_mul_u64 (price mq) 3). repeat (split; [done|]).
    split; [by rewrite (sum_paid _ _ _ Hm)|]. apply word_val_inj. congruence.
  - unfold payment_split. by destruct (Z.eqb_spec (len quotes) CLOSE_GROUP_SIZE).
Qed.

(** C33: a contract decoding the calldata reads the arguments back: [approve]
    carries the spender and the amount, [payForQuotes] (whose dynamic array is
    found through its offset word) exactly the payments in order; the sizes
    are the ABI's. *)
Theorem calldata_decodes `{Keccak} (spender : arr 20) (amount : arr 32) (ps : list DataPayment)
    (Hl : len ps < 2 ^ 64) :
  decode_approve (approve_calldata spender amount) = Some (spender, amount) /\
  decode_pay_for_quotes pay_for_quotes_selector (pay_for_quotes_calldata ps) = Some ps /\
  len (approve_calldata spender amount) = 68 /\
  len (pay_for_quotes_calldata ps) = 68 + 96 * len ps.
Proof.
  split; [|split; [by apply decode_calldata|split; [|apply calldata_length]]].
  - unfold decode_approve, approve_calldata.
    rewrite (take_app_exact 4), decide_True by done. change 36%nat with (4 + 32)%nat.
    rewrite <- drop_drop, !(drop_app_exact 4) by done.
    rewrite (take_app_exact 32), (drop_app_exact 32) by apply arr_length.
    rewrite address_of_word_of. cbn [mbind option_bind]. by rewrite try_into_arr.
  - unfold approve_calldata. rewrite !len_app, !arr_len. done.
Qed.

(** *** Witnesses *)

Lemma u256_arithmetic_witness :
  is_u64 3 /\ word_val (u256_mul_u64 (pad 32 [xff]) 3) = (word_val (pad 32 [xff]) * 3) mod 2 ^ 256.
Proof.
  split; [by vm_compute|].
  apply (u256_arithmetic (pad 32 [xff]) zero_word 3 [] ltac:(by vm_compute)).
Defined.

Lemma calldata_decodes_witness :
  let p : DataPayment := (pad 20 [x01], pad 32 [x02], pad 32 [x03]) in
  len [p; p] < 2 ^ 64 /\
  decode_pay_for_quotes (pay_for_quotes_selector (H := ToyCrypto.keccak_toy))
    (pay_for_quotes_calldata (H := ToyCrypto.keccak_toy) [p; p]) = Some [p; p].
Proof.
  split; [by vm_compute|].
  apply (calldata_decodes (H := ToyCrypto.keccak_toy) (pad 20 []) (pad 32 [])
           [(pad 20 [x01], pad 32 [x02], pad 32 [x03]); (pad 20 [x01], pad 32 [x02], pad 32 [x03])]).
  by vm_compute.
Defined.
