(* ===== verification/Inputs.v ===== *)
(** * What the page passes in ([src/lib.rs], lines 556 to 605)

    Addresses, identities and transaction hashes arrive as hex text. *)

From S2P Require Import Prelude Text Crates RefCrates.

Section Inputs.
Context `{Hex} `{Blake3}.

(** [bytes.try_into().map_err(|_| msg)]. *)
Definition to_array (n : nat) (msg : string) (bs : bytes) : res (arr n) := ok_or (try_into n bs) msg.

(** [text.trim().strip_prefix("0x").unwrap_or(text.trim())]. *)
Definition trim_0x (text : string) : string := default (trim text) (strip_prefix "0x" (trim text)).

Definition hex_0x (bs : bytes) : string := fmt ["0x"; hex_encode bs].

Definition to_hex (addr : arr 20) : string := hex_0x addr.

Definition parse_eth_address (text : string) : res (arr 20) :=
  bs ← map_err (fun e => fmt ["address is not hex: "; e]) (hex_decode (trim_0x text));
  to_array 20 "address must be 20 bytes (40 hex chars)" bs.

Definition parse_tx_hash (text : string) : res (arr 32) :=
  bs ← map_err (fun e => fmt ["tx hash is not hex: "; e]) (hex_decode (trim_0x text));
  to_array 32 "tx hash must be 32 bytes (64 hex chars)" bs.

(** [WasmClient]'s [content_address]. *)
Definition content_address (bs : bytes) : bytes := blake3_hash bs.

Definition parse_address (text : string) : res (arr 32) :=
  bs ← map_err (fun e => fmt ["address is not hex: "; e]) (hex_decode (trim text));
  to_array 32 "address must be 64 hex characters" bs.

Definition parse_opt_peer_id (hex_str : string) : res (option (arr 32)) :=
  if is_empty hex_str then Ok None else
  bs ← map_err (fun e => fmt ["peer_id_hex: "; e]) (hex_decode hex_str);
  id ← to_array 32 "peer_id_hex must be 32 bytes" bs;
  mret (Some id).
End Inputs.

(** ** Trimming *)

(** Text made of white space. *)
Definition blank (s : string) : Prop := exists ws, Forall (fun w => w ∈ white_space) ws /\ as_bytes s = mjoin ws.

(** No white-space character begins, and none ends, with this byte. *)
Definition solid (b : byte) : bool :=
  forallb (fun w => negb (bool_decide (head w = Some b)) && negb (bool_decide (last w = Some b))) white_space.

Lemma strip_list_prefix_app p l : strip_list_prefix p (p ++ l) = Some l.
Proof. induction p as [|a p IH]; [done|]. cbn. by rewrite decide_True. Qed.

Lemma strip_list_prefix_Some p l r : strip_list_prefix p l = Some r -> l = p ++ r.
Proof.
  revert l. induction p as [|a p IH]; intros l; [by intros [= ->]|]. destruct l as [|b l]; [done|]. cbn.
  case_decide as Hab; [|done]. intros Hs. by rewrite Hab, (IH l Hs).
Qed.

(** A set of characters in which none is a prefix of another. *)
Definition prefix_free (ws : list bytes) : Prop :=
  forall w w' l l', w ∈ ws -> w' ∈ ws -> w ++ l = w' ++ l' -> w = w'.

Lemma strip_one_app ws w l : prefix_free ws -> w ∈ ws -> strip_one ws (w ++ l) = Some l.
Proof.
  intros Hpf Hw. assert (forall ws', (forall v, v ∈ ws' -> v ∈ ws) -> w ∈ ws' -> strip_one ws' (w ++ l) = Some l) as Hgen.
  { intros ws' Hsub. induction ws' as [|v ws' IH]; intros Hin; [by apply elem_of_nil in Hin|]. cbn [strip_one].
    destruct (strip_list_prefix v (w ++ l)) as [r|] eqn:E.
    - apply strip_list_prefix_Some in E.
      assert (w = v) as <- by (apply (Hpf w v l r); [done|apply Hsub; left|done]).
      by apply app_inv_head in E as <-.
    - apply elem_of_cons in Hin as [<-|Hin]; [by rewrite strip_list_prefix_app in E|].
      apply IH; [|done]. intros u Hu. apply Hsub. by right. }
  by apply Hgen.
Qed.

Lemma strip_one_solid ws b l :
  Forall (fun w => w <> [] /\ head w <> Some b) ws -> strip_one ws (b :: l) = None.
Proof.
  intros HF. induction HF as [|w ws [Hne Hw] HF IH]; [done|]. cbn [strip_one].
  destruct w as [|a w]; [done|]. cbn [strip_list_prefix]. case_decide as Hab; [|exact IH].
  by subst.
Qed.

Lemma strip_while_blank ws vs b l fuel :
  prefix_free ws -> Forall (fun w => w <> [] /\ head w <> Some b) ws ->
  Forall (fun w => w ∈ ws) vs -> (List.length vs <= fuel)%nat ->
  strip_while fuel ws (mjoin vs ++ b :: l) = b :: l.
Proof.
  intros Hpf Hb HF. revert fuel. induction HF as [|v vs Hv HF IH]; intros fuel Hfuel.
  - change (mjoin (@nil bytes) ++ b :: l) with (b :: l). destruct fuel as [|fuel]; [done|].
    cbn [strip_while]. by rewrite (strip_one_solid ws b l Hb).
  - destruct fuel as [|fuel]; [cbn in Hfuel; lia|]. change (mjoin (v :: vs)) with (v ++ mjoin vs).
    cbn [strip_while]. rewrite <- app_assoc, strip_one_app by done. apply IH. cbn in Hfuel. lia.
Qed.

Definition prefix_free_check (ws : list bytes) : bool :=
  forallb (fun w => forallb (fun w' => bool_decide (w = w') || negb (bool_decide (w `prefix_of` w'))) ws) ws.

Lemma prefix_free_ok ws : prefix_free_check ws = true -> prefix_free ws.
Proof.
  intros Hc w w' l l' Hw Hw' He. unfold prefix_free_check in Hc. rewrite forallb_forall in Hc.
  assert (forall u v, u ∈ ws -> v ∈ ws -> u `prefix_of` v -> u = v) as Hcheck.
  { intros u v Hu Hv Hp. specialize (Hc u). rewrite <- list_elem_of_In in Hc. specialize (Hc Hu).
    rewrite forallb_forall in Hc. specialize (Hc v). rewrite <- list_elem_of_In in Hc. specialize (Hc Hv).
    apply orb_true_iff in Hc as [Hc|Hc]; [by apply bool_decide_eq_true in Hc|].
    apply negb_true_iff, bool_decide_eq_false in Hc. done. }
  destruct (prefix_weak_total w w' (w ++ l)) as [Hp|Hp]; [by apply prefix_app_r|rewrite He; by apply prefix_app_r|..].
  - by apply Hcheck.
  - symmetry. by apply Hcheck.
Qed.

Lemma white_space_prefix_free : prefix_free white_space.
Proof. apply prefix_free_ok. vm_compute. reflexivity. Qed.

Lemma white_space_rev_prefix_free : prefix_free (map (@rev byte) white_space).
Proof. apply prefix_free_ok. vm_compute. reflexivity. Qed.

Lemma white_space_nonempty : Forall (fun w => w <> []) white_space.
Proof. unfold white_space. repeat constructor; discriminate. Qed.

Lemma solid_spec b : solid b = true ->
  Forall (fun w => w <> [] /\ head w <> Some b) white_space /\
  Forall (fun w => w <> [] /\ head w <> Some b) (map (@rev byte) white_space).
Proof.
  unfold solid. rewrite forallb_forall. intros Hb. pose proof white_space_nonempty as Hne. rewrite Forall_forall in Hne.
  assert (forall w, w ∈ white_space -> head w <> Some b /\ last w <> Some b) as Hw.
  { intros w Hw. specialize (Hb w). rewrite <- list_elem_of_In in Hb. specialize (Hb Hw).
    apply andb_true_iff in Hb as [H1%negb_true_iff H2%negb_true_iff].
    by apply bool_decide_eq_false in H1, H2. }
  split; apply Forall_forall; intros w Hin.
  - split; [by apply Hne|by apply Hw].
  - change (map (@rev byte) white_space) with ((@rev byte) <$> white_space) in Hin.
    apply list_elem_of_fmap in Hin as (v & -> & Hv). split.
    + intros Hr. apply (Hne v Hv). by rewrite <- (rev_involutive v), Hr.
    + destruct (Hw v Hv) as [_ Hl]. intros Hh. apply Hl. clear -Hh.
      induction v as [|a v _] using rev_ind; [done|]. rewrite rev_unit in Hh. by rewrite last_snoc.
Qed.

Lemma length_blanks ws : Forall (fun w => w ∈ white_space) ws -> (List.length ws <= List.length (mjoin ws))%nat.
Proof.
  pose proof white_space_nonempty as Hne. rewrite Forall_forall in Hne.
  induction 1 as [|w ws Hw HF IH]; [done|]. change (mjoin (w :: ws)) with (w ++ mjoin ws).
  rewrite length_app. specialize (Hne w Hw). destruct w; [done|]. cbn [List.length]. lia.
Qed.

Lemma rev_join (ws : list bytes) : rev (mjoin ws) = mjoin (map (@rev byte) (rev ws)).
Proof.
  induction ws as [|w ws IH]; [done|]. change (mjoin (w :: ws)) with (w ++ mjoin ws).
  rewrite rev_app_distr, IH. cbn [rev]. rewrite map_app, join_app. f_equal. cbn. by rewrite app_nil_r.
Qed.

(** White space around text that begins and ends with other characters. *)
Lemma trim_blank p q s a b l m :
  blank p -> blank q -> as_bytes s = a :: l -> as_bytes s = m ++ [b] ->
  solid a = true -> solid b = true -> trim (p +:+ s +:+ q) = s.
Proof.
  intros (ps & Hps & Hp) (qs & Hqs & Hq) Ha Hb Hsa Hsb.
  unfold trim. rewrite !as_bytes_app, Hp, Hq.
  assert (trim_start_bytes (mjoin ps ++ as_bytes s ++ mjoin qs) = as_bytes s ++ mjoin qs) as ->.
  { unfold trim_start_bytes. rewrite Ha. apply strip_while_blank;
      [apply white_space_prefix_free|by apply solid_spec|done|].
    rewrite length_app. pose proof (length_blanks ps Hps). lia. }
  assert (trim_end_bytes (as_bytes s ++ mjoin qs) = as_bytes s) as ->; [|by rewrite of_bytes_as_bytes].
  unfold trim_end_bytes. rewrite rev_app_distr, rev_join, Hb, rev_unit, strip_while_blank.
  - cbn [rev]. by rewrite rev_involutive.
  - apply white_space_rev_prefix_free.
  - by apply solid_spec.
  - apply Forall_map, Forall_rev. eapply Forall_impl; [exact Hqs|]. intros w Hw.
    exact (list_elem_of_fmap_2 (@rev byte) white_space w Hw).
  - rewrite length_map, length_rev, length_app. pose proof (length_blanks qs Hqs). lia.
Qed.

(** ** Hex text *)

Definition hex_char (b : byte) : bool := in_range 48 57 b || in_range 97 102 b.

Lemma hex_char_solid b : hex_char b = true -> solid b = true.
Proof. destruct b; vm_compute; congruence. Qed.

Section Properties.
Context `{Hex} `{HL : !HexLaws}.

Lemma hex_02x_bytes b : exists x y, as_bytes (hex_02x b) = [x; y] /\ hex_char x = true /\ hex_char y = true.
Proof. unfold hex_02x. eexists _, _. split; [reflexivity|]. by destruct b. Qed.

Lemma hex_encode_cons b bs : hex_encode (b :: bs) = hex_02x b +:+ hex_encode bs.
Proof. by rewrite !hex_encode_format. Qed.

Lemma hex_encode_nil : hex_encode [] = EmptyString.
Proof. by rewrite hex_encode_format. Qed.

Lemma hex_encode_first b bs : exists x l, as_bytes (hex_encode (b :: bs)) = x :: l /\ hex_char x = true.
Proof.
  rewrite hex_encode_cons, as_bytes_app. destruct (hex_02x_bytes b) as (x & y & -> & Hx & _).
  by exists x, (y :: as_bytes (hex_encode bs)).
Qed.

Lemma hex_encode_last b bs : exists m y, as_bytes (hex_encode (b :: bs)) = m ++ [y] /\ hex_char y = true.
Proof.
  revert b. induction bs as [|c bs IH]; intros b; rewrite hex_encode_cons, as_bytes_app;
    destruct (hex_02x_bytes b) as (x & y & -> & Hx & Hy).
  - rewrite hex_encode_nil. by exists [x], y.
  - destruct (IH c) as (m & z & -> & Hz). by exists (x :: y :: m), z.
Qed.

(** Hex text, with a prefix of solid characters or none, between blanks. *)
Lemma trim_hex p q b bs : blank p -> blank q -> trim (p +:+ hex_encode (b :: bs) +:+ q) = hex_encode (b :: bs).
Proof.
  intros Hp Hq. destruct (hex_encode_first b bs) as (x & l & Hl & Hx). destruct (hex_encode_last b bs) as (m & y & Hm & Hy).
  by eapply trim_blank; [..|apply hex_char_solid, Hx|apply hex_char_solid, Hy].
Qed.

Lemma trim_hex_0x p q b bs : blank p -> blank q -> trim (p +:+ hex_0x (b :: bs) +:+ q) = hex_0x (b :: bs).
Proof.
  intros Hp Hq. destruct (hex_encode_last b bs) as (m & y & Hm & Hy).
  assert (hex_0x (b :: bs) = "0x" +:+ hex_encode (b :: bs)) as Hh.
  { done. }
  eapply (trim_blank _ _ _ x30 y _ ([x30; x78] ++ m)); [done|done| | |reflexivity|apply hex_char_solid, Hy];
    rewrite Hh, as_bytes_app; [reflexivity|]. rewrite Hm. by rewrite <- app_assoc.
Qed.

Lemma strip_0x_hex b bs : strip_prefix "0x" (hex_encode (b :: bs)) = None.
Proof. rewrite hex_encode_cons. by destruct b. Qed.

Lemma strip_0x_0x bs : strip_prefix "0x" (hex_0x bs) = Some (hex_encode bs).
Proof. done. Qed.

(** Both ways of writing it name the same digits. *)
Lemma trim_0x_hex p q bs : bs <> [] -> blank p -> blank q ->
  trim_0x (p +:+ hex_encode bs +:+ q) = hex_encode bs /\ trim_0x (p +:+ hex_0x bs +:+ q) = hex_encode bs.
Proof.
  intros Hne Hp Hq. destruct bs as [|b bs]; [done|]. unfold trim_0x.
  rewrite trim_hex, trim_hex_0x by done. by rewrite strip_0x_hex, strip_0x_0x.
Qed.

Lemma arr_cons n (a : arr (S n)) : (a : bytes) <> [].
Proof. intros Ha. pose proof (arr_length a) as Hl. by rewrite Ha in Hl. Qed.

Lemma to_array_arr n msg (a : arr n) : to_array n msg a = Ok a.
Proof. unfold to_array. by rewrite try_into_arr. Qed.

Lemma to_array_Ok n msg bs a : to_array n msg bs = Ok a <-> bs = a.
Proof.
  unfold to_array. rewrite ok_or_Ok, try_into_Some. done.
Qed.

(** Text of the client's own making is read back. *)
Lemma parse_address_hex (a : arr 32) : parse_address (hex_encode a) = Ok a.
Proof.
  unfold parse_address. assert (blank EmptyString) as Hb by (by exists []).
  assert (trim (hex_encode a) = hex_encode a) as ->.
  { pose proof (arr_cons 31 a). destruct (arr_list a) as [|b bs]; [done|].
    pose proof (trim_hex EmptyString EmptyString b bs Hb Hb) as Ht. cbn [String.append] in Ht. by rewrite str_app_nil_r in Ht. }
  rewrite hex_decode_encode. cbn [map_err mbind result_bind]. apply to_array_arr.
Qed.

Lemma parse_eth_address_hex (e : arr 20) : parse_eth_address (to_hex e) = Ok e.
Proof.
  assert (blank EmptyString) as Hb by (by exists []).
  destruct (trim_0x_hex EmptyString EmptyString e (arr_cons 19 e) Hb Hb) as [_ Ht].
  cbn [String.append] in Ht. rewrite str_app_nil_r in Ht. unfold parse_eth_address, to_hex. rewrite Ht, hex_decode_encode.
  cbn [map_err mbind result_bind]. apply to_array_arr.
Qed.

Lemma parse_opt_peer_id_hex (a : arr 32) : parse_opt_peer_id (hex_encode a) = Ok (Some a).
Proof.
  unfold parse_opt_peer_id. assert (is_empty (hex_encode a) = false) as ->.
  { pose proof (arr_cons 31 a). destruct (arr_list a) as [|b bs]; [done|]. rewrite hex_encode_cons. by destruct b. }
  rewrite hex_decode_encode. cbn [map_err mbind result_bind]. by rewrite to_array_arr.
Qed.

Lemma parse_hex_total {n} f s msg : (bs ← map_err f (hex_decode s); to_array n msg bs) <> Panic.
Proof.
  intros Hp. apply bind_Panic in Hp as [Hp|(bs & _ & Hp)].
  - rewrite map_err_Panic in Hp. by apply hex_decode_total in Hp.
  - unfold to_array in Hp. by destruct (try_into n bs).
Qed.

Lemma parse_hex_len {n} f s msg (a : arr n) :
  (bs ← map_err f (hex_decode s); to_array n msg bs) = Ok a -> str_len s = 2 * Z.of_nat n.
Proof.
  intros Hp. apply bind_Ok in Hp as (bs & Hbs & Ha). rewrite map_err_Ok in Hbs. apply to_array_Ok in Ha as ->.
  apply hex_decode_len in Hbs. by rewrite Hbs, arr_len.
Qed.

(** An address, an identity, a transaction hash or an Ethereum address is
    read back from the hex text the client writes for it, with white space
    around it (except for the identity) and with or without [0x] where that is
    allowed; an empty identity means none; no text makes a parser panic, and a
    text that is accepted has exactly the right number of digits. *)
Theorem parse_inputs (p q text : string) (a : arr 32) (e : arr 20) (Hp : blank p) (Hq : blank q) :
  parse_address (p +:+ hex_encode a +:+ q) = Ok a /\
  parse_tx_hash (p +:+ hex_encode a +:+ q) = Ok a /\ parse_tx_hash (p +:+ hex_0x a +:+ q) = Ok a /\
  parse_eth_address (p +:+ hex_encode e +:+ q) = Ok e /\ parse_eth_address (p +:+ to_hex e +:+ q) = Ok e /\
  parse_opt_peer_id (hex_encode a) = Ok (Some a) /\ parse_opt_peer_id EmptyString = Ok None /\
  parse_address text <> Panic /\ parse_tx_hash text <> Panic /\ parse_eth_address text <> Panic /\
  parse_opt_peer_id text <> Panic /\
  (forall r, parse_address text = Ok r -> str_len (trim text) = 64) /\
  (forall r, parse_tx_hash text = Ok r -> str_len (trim_0x text) = 64) /\
  (forall r, parse_eth_address text = Ok r -> str_len (trim_0x text) = 40) /\
  (forall r, parse_opt_peer_id text = Ok (Some r) -> str_len text = 64).
Proof.
  destruct (trim_0x_hex p q a (arr_cons 31 a) Hp Hq) as [Ha Ha0].
  destruct (trim_0x_hex p q e (arr_cons 19 e) Hp Hq) as [He He0].
  unfold parse_address, parse_tx_hash, parse_eth_address, to_hex, parse_opt_peer_id.
  rewrite Ha, Ha0, He, He0.
  assert (trim (p +:+ hex_encode a +:+ q) = hex_encode a) as ->.
  { pose proof (arr_cons 31 a). destruct (arr_list a); [done|]. by apply trim_hex. }
  assert (is_empty (hex_encode a) = false) as Hem.
  { pose proof (arr_cons 31 a). destruct (arr_list a) as [|b bs]; [done|]. rewrite hex_encode_cons. by destruct b. }
  rewrite !hex_decode_encode. cbn [map_err mbind result_bind]. rewrite !to_array_arr, Hem.
  do 6 (split; [done|]). split; [done|]. do 3 (split; [apply parse_hex_total|]). split; [|do 3 (split; [intros r Hr; by apply parse_hex_len in Hr|])].
  - destruct (is_empty text); [done|]. intros Hpn. apply bind_Panic in Hpn as [Hpn|(bs & _ & Hpn)].
    + rewrite map_err_Panic in Hpn. by apply hex_decode_total in Hpn.
    + unfold to_array in Hpn. by destruct (try_into 32 bs).
  - intros r Hr. destruct (is_empty text); [done|].
    apply bind_Ok in Hr as (bs & Hbs & Hr). apply bind_Ok in Hr as (id & Hid & [= ->]).
    apply (parse_hex_len (n := 32) (fun e => fmt ["peer_id_hex: "; e]) text "peer_id_hex must be 32 bytes" r).
    by rewrite Hbs.
Qed.
End Properties.

Lemma blank_example : blank " " /\ blank CRLF.
Proof.
  split; [exists [[x20]]|exists [[x0d]; [x0a]]]; (split; [|reflexivity]);
    repeat constructor; apply (bool_decide_unpack _); vm_compute; exact I.
Qed.

Lemma parse_inputs_witness :
  blank " " /\ blank CRLF /\
  parse_address (H := HexRef.hex_ref) (" " +:+ hex_encode (Hex := HexRef.hex_ref) (pad 32 [x07]) +:+ CRLF)
    = Ok (pad 32 [x07]).
Proof.
  pose proof blank_example as [Hs Hn]. split; [exact Hs|]. split; [exact Hn|].
  exact (proj1 (parse_inputs (H := HexRef.hex_ref) (HL := HexRef.hex_ref_laws) " " CRLF EmptyString
    (pad 32 [x07]) (pad 20 [x01]) Hs Hn)).
Defined.
