(* ===== verification/Quotes.v ===== *)
(** * Quotes and what is paid for them ([src/lib.rs])

    The pure parts of the store operation: what makes a quote acceptable, and
    the two calls of the page's [pay] function that settle a group of quotes;
    and the ledger discipline that the client's invariant contains. *)

From S2P Require Import Prelude Text Crates Serde Payment Evm Inputs.

(** The constants of [lib.rs]; [CLOSE_GROUP_SIZE] is declared there as well. *)
Definition CLOSE_GROUP_SIZE : nat := 7.
Definition CLOSE_GROUP_MAJORITY : nat := 4.
Definition DATA_TYPE_CHUNK : Z := 0.
Definition QUOTE_ATTEMPTS : nat := 3.

Section Quotes.
Context `{Hex} `{Blake3} `{MlDsa} `{Keccak} `{Rmp}.

(** The end of [try_quote]: the quote is for this address and signed by this
    peer. *)
Definition check_quote (peer_id address : arr 32) (quote_bytes : bytes) : res Quote :=
  quote ← map_err (fun e => fmt ["quote parse: "; PaymentError_fmt e]) (parse_quote quote_bytes);
  if negb (bool_decide (Payment.content quote = address)) then Err "quote is for a different address" else
  if negb (bool_decide (blake3_hash (pub_key quote) = peer_id)) then Err "quote public key does not match the peer id" else
  if negb (verify_quote quote) then Err "quote signature verification failed" else
  Ok quote.

(** The arguments of the two calls: [approve] on the token contract and
    [payForQuotes] on the vault. *)
Definition approve_call (token vault : arr 20) (payments : list DataPayment) : string * string :=
  (to_hex token, hex_0x (approve_calldata vault (total_amount payments))).
Definition pay_call (vault : arr 20) (payments : list DataPayment) : string * string :=
  (to_hex vault, hex_0x (pay_for_quotes_calldata payments)).

(** ** Specification *)

Definition verified_quote (address id : arr 32) (q : Quote) : Prop :=
  Payment.content q = address /\ blake3_hash (pub_key q) = id /\ verify_quote q = true.

(** A full group of verified quotes for one address, by peer. *)
Definition quoted_group (address : arr 32) (pqs : list (arr 32 * Quote)) : Prop :=
  List.length pqs = CLOSE_GROUP_SIZE /\ Forall (fun pq => verified_quote address pq.1 pq.2) pqs.

(** [payments] settles such a group. *)
Definition settles (address : arr 32) (pqs : list (arr 32 * Quote)) (payments : list DataPayment) : Prop :=
  quoted_group address pqs /\ payment_split (map snd pqs) = Ok payments.

(** What may have been asked of the page's [pay] function: [approve] for the
    total of a settled group, and [payForQuotes] of a group whose [approve] has
    gone before. *)
Inductive justified : list (string * string) -> Prop :=
  | justified_nil : justified []
  | justified_approve l address pqs payments token vault :
      justified l -> settles address pqs payments -> justified (l ++ [approve_call token vault payments])
  | justified_pay l address pqs payments token vault :
      justified l -> settles address pqs payments -> approve_call token vault payments ∈ l ->
      justified (l ++ [pay_call vault payments]).

Lemma check_quote_Ok peer_id address quote_bytes q :
  check_quote peer_id address quote_bytes = Ok q ->
  parse_quote quote_bytes = Ok q /\ verified_quote address peer_id q.
Proof.
  unfold check_quote. intros Hq. apply bind_Ok in Hq as (q' & Hp & Hq). apply map_err_Ok in Hp.
  case_bool_decide as Ha; cbn [negb] in Hq; [|done]. case_bool_decide as Hi; cbn [negb] in Hq; [|done].
  destruct (verify_quote q') eqn:Hv; cbn [negb] in Hq; [|done]. injection Hq as <-. by split.
Qed.

Lemma check_quote_total `{!RmpLaws} peer_id address quote_bytes : check_quote peer_id address quote_bytes <> Panic.
Proof.
  unfold check_quote. intros Hq. apply bind_Panic in Hq as [Hq|(q & _ & Hq)].
  - rewrite map_err_Panic in Hq. by apply parse_quote_np in Hq.
  - by repeat (case_match; try discriminate).
Qed.
End Quotes.
