(* ===== verification/Client.v ===== *)
(** * The client: connections, discovery and download ([src/lib.rs])

    The state of a [WasmClient] together with every connection it has ever
    opened; the store of uploaded data is in the file [Store]. *)

From S2P Require Import Prelude Text Crates RefCrates Framing Sdp Serde Wire RefCodec Protocol Discovery.
From S2P Require Import Tunnel Retrieval Async Transport Conn Inputs Quotes.

(** ** State *)

(** A [JsValue], as far as it is looked at: [as_string] and
    [JSON.stringify]. *)
Record JsValue : Type := { as_string : option string; json : option string }.

(** What the page's [pay] function does: throws or returns, and then the
    promise of its result is pending, rejected or resolved. *)
Record Payer : Type := {
  js_call : JsValue + unit;
  js_promise : option (JsValue + JsValue);
}.

Section Client.
Context `{Hex} `{Blake3} `{MlKem} `{MlDsa} `{ChaCha} `{Postcard} `{SelfEncryption} `{Keccak} `{Rmp}.

(** [WasmClient].  [conns] holds the connections that exist, or are being
    established, in the order of their creation: an [Rc<NodeConnection>] is a
    position in it.  [bootstrap] is [None] until [connect] is over.  The
    fields after [chunks_fetched] belong to the environment: what the next
    peer connection and data channel do, the randomness, the page's [pay]
    function; [paid] records the calls of that function, oldest first. *)
Record WasmClient : Type := {
  conns : list NodeConnection;
  bootstrap : option nat;
  pool : gmap (arr 32) nat;
  chunks_fetched : Z;
  js_transport : Transport;
  js_seed : Randomness;
  js_pay : Payer;
  paid : list (string * string);
}.

Definition with_conns (l : list NodeConnection) (w : WasmClient) : WasmClient :=
  {| conns := l; bootstrap := bootstrap w; pool := pool w; chunks_fetched := chunks_fetched w;
     js_transport := js_transport w; js_seed := js_seed w; js_pay := js_pay w; paid := paid w |}.
Definition with_pool (p : gmap (arr 32) nat) (w : WasmClient) : WasmClient :=
  {| conns := conns w; bootstrap := bootstrap w; pool := p; chunks_fetched := chunks_fetched w;
     js_transport := js_transport w; js_seed := js_seed w; js_pay := js_pay w; paid := paid w |}.
Definition with_count (n : Z) (w : WasmClient) : WasmClient :=
  {| conns := conns w; bootstrap := bootstrap w; pool := pool w; chunks_fetched := n;
     js_transport := js_transport w; js_seed := js_seed w; js_pay := js_pay w; paid := paid w |}.
Definition with_js (t : Transport) (r : Randomness) (p : Payer) (w : WasmClient) : WasmClient :=
  {| conns := conns w; bootstrap := bootstrap w; pool := pool w; chunks_fetched := chunks_fetched w;
     js_transport := t; js_seed := r; js_pay := p; paid := paid w |}.
Definition with_paid (l : list (string * string)) (w : WasmClient) : WasmClient :=
  {| conns := conns w; bootstrap := bootstrap w; pool := pool w; chunks_fetched := chunks_fetched w;
     js_transport := js_transport w; js_seed := js_seed w; js_pay := js_pay w; paid := l |}.

(** An operation of connection [i]. *)
Definition with_conn (i : nat) (c : NodeConnection) (w : WasmClient) : WasmClient := with_conns (<[i := c]> (conns w)) w.
Definition on_conn {A} (i : nat) (t : task NodeConnection A) : task WasmClient A :=
  zoom (fun w => conns w !! i) (with_conn i) t.

(** A connection that is about to be opened. *)
Definition unopened (t : Transport) (r : Randomness) : NodeConnection :=
  {| transport := t; session := None; next_seq := 0; request_lock := false; js_keygen := r; sealed := [] |}.
Definition new_conn : st WasmClient nat := fun w =>
  (with_conns (conns w ++ [unopened (js_transport w) (js_seed w)]) w, Ok (List.length (conns w))).

(** [self.bootstrap]; without it there is no client. *)
Definition self_bootstrap : st WasmClient nat := fun w =>
  (w, match bootstrap w with Some i => Ok i | None => Panic end).
Definition on_bootstrap {A} (t : task NodeConnection A) : task WasmClient A :=
  i ← atomic self_bootstrap; on_conn i t.

Context (unicode_upper2 : byte -> byte -> string) (fuel : nat).

(** ** Connecting *)

(** The end of [WasmClient::connect]: the bootstrap connection, alone in the
    pool under its own peer id. *)
Definition enrol (i : nat) : st WasmClient unit := fun w =>
  match c ← conns w !! i; session c with
  | Some (_, id) =>
      ({| conns := conns w; bootstrap := Some i; pool := {[id := i]}; chunks_fetched := 0;
          js_transport := js_transport w; js_seed := js_seed w; js_pay := js_pay w; paid := paid w |}, Ok tt)
  | None => (w, Panic)
  end.

Definition open_bootstrap (ip : string) (port : Z) (cert_hash_hex peer_id_hex : string) : task WasmClient nat :=
  expected ← pure (parse_opt_peer_id peer_id_hex);
  i ← atomic new_conn;
  _ ← on_conn i (conn_connect unicode_upper2 fuel ip port cert_hash_hex expected);
  mret i.

Definition client_connect (ip : string) (port : Z) (cert_hash_hex peer_id_hex : string) : task WasmClient unit :=
  i ← open_bootstrap ip port cert_hash_hex peer_id_hex;
  atomic (enrol i).

(** The getters [peer_id], [connection_count] and [chunk_count]. *)
Definition client_peer_id (w : WasmClient) : res string :=
  i ← ok_or (bootstrap w) EmptyString;
  c ← ok_or (conns w !! i) EmptyString;
  id ← conn_peer_id c;
  mret (hex_encode (id : arr 32)).
Definition connection_count (w : WasmClient) : Z := Z.of_nat (size (pool w)).
Definition client_chunk_count (w : WasmClient) : Z := chunks_fetched w.

(** [connection_for]. *)
Definition connection_for (peer : PeerConnectInfo) : task WasmClient nat :=
  cached ← atomic (fun w => (w, Ok (pool w !! peer_id peer)));
  match cached with
  | Some i => mret i
  | None =>
      i ← atomic new_conn;
      _ ← on_conn i (conn_connect unicode_upper2 fuel (ip peer) (port peer) (hex_encode (cert_hash peer))
                       (Some (peer_id peer)));
      _ ← atomic (fun w => (with_pool (<[peer_id peer := i]> (pool w)) w, Ok tt));
      mret i
  end.

(** [NodeConnection::connect_via_relay]. *)
Definition connect_via_relay (relay : nat) (stun : string) (target : arr 32) : task WasmClient nat :=
  i ← atomic new_conn;
  offer_sdp ← on_conn i (on_transport (relay_offer stun));
  answer_sdp ← on_conn relay (signal_relay fuel target offer_sdp);
  _ ← on_conn i (on_transport (relay_answer answer_sdp));
  _ ← on_conn i (establish fuel (Some target));
  mret i.

(** ** Fetching *)

(** The loop of [get_direct]. *)
Fixpoint try_peers (address : arr 32) (peers : list PeerConnectInfo) (last_err : string) : task WasmClient bytes :=
  match peers with
  | [] => pure (Err (fmt ["no responsible peer served "; hex_encode address; ": "; last_err]))
  | peer :: peers =>
      conn ← attempt (connection_for peer);
      match conn with
      | Ok i =>
          r ← attempt (on_conn i (get_verified fuel address));
          match r with
          | Ok content => mret content
          | Err e => try_peers address peers e
          | Panic => pure Panic
          end
      | Err e => try_peers address peers e
      | Panic => pure Panic
      end
  end.

Definition get_direct (address : arr 32) : task WasmClient bytes :=
  peers ← on_bootstrap (closest_peers fuel address);
  if bool_decide (peers = []) then pure (Err "discovery returned no peers")
  else try_peers address peers EmptyString.

Definition fetch_chunk (address_hex : string) : task WasmClient bytes :=
  address ← pure (parse_address address_hex);
  get_direct address.

(** [self.chunks_fetched.set(self.chunks_fetched.get() + 1)] *)
Definition count_chunk : st WasmClient unit := fun w => (with_count (chunks_fetched w + 1) w, Ok tt).

(** The [for] loop of [download]. *)
Fixpoint supply_fetched (retrieval : Retrieval) (fetched : list (arr 32 * res bytes)) : task WasmClient Retrieval :=
  match fetched with
  | [] => mret retrieval
  | (addr, result) :: fetched =>
      bs ← pure result;
      let '(retrieval, supplied) := supply addr bs retrieval in
      _ ← pure supplied;
      _ ← atomic count_chunk;
      supply_fetched retrieval fetched
  end.

(** The [while] loop; [scheds] gives, for each round, the order in which the
    concurrent fetches are woken.  Two rounds are enough: with two entries the
    last branch is not reached. *)
Fixpoint download_loop (scheds : list (list (list nat))) (retrieval : Retrieval) : task WasmClient bytes :=
  if is_complete retrieval then pure (Retrieval.finish retrieval) else
  match scheds with
  | [] => pure Panic
  | sched :: scheds =>
      let addrs := required_addresses retrieval in
      fetched ← join_all sched (map get_direct addrs);
      retrieval ← supply_fetched retrieval (zip addrs fetched);
      let '(retrieval, advanced) := advance retrieval in
      _ ← pure advanced;
      download_loop scheds retrieval
  end.

Definition download (scheds : list (list (list nat))) (address_hex : string) : task WasmClient bytes :=
  address ← pure (parse_address address_hex);
  _ ← atomic (fun w => (with_count 0 w, Ok tt));
  map_bytes ← get_direct address;
  _ ← atomic count_chunk;
  retrieval ← pure (begin address map_bytes);
  download_loop scheds retrieval.

(** ** Diagnostics *)

Definition relayed_fetch (target_peer_id_hex stun_addr address_hex : string) : task WasmClient Z :=
  target ← pure (parse_address target_peer_id_hex);
  address ← pure (parse_address address_hex);
  relay ← atomic self_bootstrap;
  i ← connect_via_relay relay stun_addr target;
  content ← on_conn i (get_verified fuel address);
  mret (len content).

Definition quote_mark : string := String QUOTE EmptyString.

(** One object of the array, as [format!] writes it. *)
Definition peer_json (p : PeerConnectInfo) : string :=
  let q := quote_mark in
  fmt ["{"; q; "peer_id"; q; ":"; q; hex_encode (peer_id p); q;
       ","; q; "ip"; q; ":"; q; ip p; q;
       ","; q; "port"; q; ":"; dec (port p);
       ","; q; "cert_hash"; q; ":"; q; hex_encode (cert_hash p); q; "}"].

Definition peers_json (peers : list PeerConnectInfo) : string :=
  fmt ["["; String.concat "," (map peer_json peers); "]"].

Definition closest_peers_json (address_hex : string) : task WasmClient string :=
  address ← pure (parse_address address_hex);
  peers ← on_bootstrap (closest_peers fuel address);
  mret (peers_json peers).

(** ** What the client guarantees

    One cell for each connection: the private part of a connection that is
    being established or whose lock is held. *)

(** The node at the other end of connection [i] has proved to be [id]. *)
Definition authenticated (w : WasmClient) (i : nat) (id : arr 32) : Prop :=
  exists c k, conns w !! i = Some c /\ session c = Some (k, id) /\ exists exp, handshaken exp (k, id).

(** Every connection is sound, the pool files each under the identity its
    node has proved, and every call of the page's [pay] function settles a
    group of verified quotes. *)
Definition client_inv (w : WasmClient) : Prop :=
  (forall i c, conns w !! i = Some c -> conn_inv c) /\
  (forall id i, pool w !! id = Some i -> authenticated w i id) /\
  (forall b, bootstrap w = Some b -> exists id, authenticated w b id) /\
  justified (paid w).

(** There is a client. *)
Definition ready (w : WasmClient) : Prop := bootstrap w <> None.

Definition client_evolves (w w' : WasmClient) : Prop :=
  bootstrap w' = bootstrap w /\
  (forall i c, conns w !! i = Some c -> exists c', conns w' !! i = Some c' /\ evolves c c') /\
  paid w `prefix_of` paid w'.

#[export] Instance client_evolves_preorder : PreOrder client_evolves.
Proof.
  split.
  - intros w. split_and!; [done| |done]. intros i c Hc. by exists c.
  - intros w1 w2 w3 (Hb & Hc & Hp) (Hb' & Hc' & Hp'). split_and!; [congruence| |by etrans].
    intros i c Hi. destruct (Hc i c Hi) as (c2 & Hi2 & He). destruct (Hc' i c2 Hi2) as (c3 & Hi3 & He').
    exists c3. split; [done|by etrans].
Qed.

(** Cell [n] of connection [i]. *)
Definition at_conn (i n : nat) : nat := encode_nat (i, n).

#[local] Instance at_conn_inj i : Inj (=) (=) (at_conn i).
Proof. intros n n' He. apply encode_nat_inj in He. congruence. Qed.

Definition wcell (m : nat) (v : cpriv) (w : WasmClient) : Prop :=
  exists i n c, m = at_conn i n /\ conns w !! i = Some c /\ private_cell busy cprivate n v c.

#[local] Abbreviation csafe := (safe conn_inv evolves (private_cell busy cprivate)).
#[local] Abbreviation wsafe := (safe client_inv client_evolves wcell).

Lemma authenticated_evolves w w' i id :
  client_evolves w w' -> authenticated w i id -> authenticated w' i id.
Proof.
  intros (_ & Hc & _) (c & k & Hi & Hs & Hh). destruct (Hc i c Hi) as (c' & Hi' & He).
  exists c', k. split; [done|]. split; [by apply (He (k, id))|done].
Qed.

(** Changing nothing but one connection, along its own evolution. *)
Lemma with_conn_evolves w i c c' :
  conns w !! i = Some c -> evolves c c' -> client_evolves w (with_conn i c' w).
Proof.
  intros Hi He. split_and!; [done| |done]. intros j cj Hj. cbn.
  destruct (decide (i = j)) as [<-|Hn].
  - exists c'. rewrite list_lookup_insert_eq by (by eapply lookup_lt_Some). split; [done|].
    by assert (cj = c) as -> by congruence.
  - rewrite list_lookup_insert_ne by done. by exists cj.
Qed.

Lemma with_conn_inv w i c c' :
  client_inv w -> conns w !! i = Some c -> evolves c c' -> conn_inv c' -> client_inv (with_conn i c' w).
Proof.
  intros (Hc & Hp & Hb & Hbill) Hi He Hc'. pose proof (with_conn_evolves w i c c' Hi He) as Hev. split_and!.
  - intros j cj. cbn. destruct (decide (i = j)) as [<-|Hn].
    + rewrite list_lookup_insert_eq by (by eapply lookup_lt_Some). by intros [= <-].
    + rewrite list_lookup_insert_ne by done. apply Hc.
  - intros id j Hj. eapply authenticated_evolves; [exact Hev|by apply Hp].
  - intros b Hbs. destruct (Hb b Hbs) as (id & Hid). exists id. by eapply authenticated_evolves.
  - done.
Qed.

(** What is owned of connection [i]. *)
Definition up (i : nat) (o : gmap nat cpriv) : gmap nat cpriv := kmap (at_conn i) o.

Lemma up_lookup i o n : up i o !! at_conn i n = o !! n.
Proof. apply lookup_kmap, _. Qed.

Lemma up_Some i o m v : up i o !! m = Some v <-> exists n, m = at_conn i n /\ o !! n = Some v.
Proof. apply lookup_kmap_Some, _. Qed.

Lemma wcell_at i n v w c :
  conns w !! i = Some c -> wcell (at_conn i n) v w <-> private_cell busy cprivate n v c.
Proof.
  intros Hi. split; [|by exists i, n, c]. intros (j & m & cj & He & Hj & Hc).
  apply encode_nat_inj in He as [= <- <-]. by assert (cj = c) as -> by congruence.
Qed.

Lemma put_conn w i c c' (o o' : gmap nat cpriv) :
  client_inv w -> conns w !! i = Some c -> conn_inv c' ->
  held (private_cell busy cprivate) o' c' -> guar evolves (private_cell busy cprivate) o o' c c' ->
  client_inv (with_conn i c' w) /\ held wcell (up i o') (with_conn i c' w) /\
  guar client_evolves wcell (up i o) (up i o') w (with_conn i c' w).
Proof.
  intros HI Hi Hc' Ho' (HG & Hkeep & Htake).
  assert (conns (with_conn i c' w) !! i = Some c') as Hi'.
  { cbn. apply list_lookup_insert_eq. by eapply lookup_lt_Some. }
  split; [by eapply with_conn_inv|]. split.
  - intros m v (n & -> & Hv)%up_Some. apply (wcell_at i n v _ c' Hi'). by apply Ho'.
  - split; [by eapply with_conn_evolves|]. split.
    + intros m v Hn Hn' (j & n & cj & -> & Hj & Hcell). destruct (decide (i = j)) as [<-|Hne].
      * rewrite up_lookup in Hn, Hn'. assert (cj = c) as -> by congruence.
        apply (wcell_at i n v _ c' Hi'). by apply Hkeep.
      * exists j, n, cj. split; [done|]. split; [|done]. cbn. by rewrite list_lookup_insert_ne.
    + intros m v v' Hn (n & -> & Hs)%up_Some Hcell. rewrite up_lookup in Hn.
      apply (wcell_at i n v' w c Hi) in Hcell. by apply (Htake n v v' Hn Hs).
Qed.

(** A specification of a connection, for the client. *)
Lemma on_conn_safe {A} i (t : task NodeConnection A) w0 c0 o (Q' : res A -> gmap nat cpriv -> NodeConnection -> Prop)
    (Q : res A -> gmap nat cpriv -> WasmClient -> Prop) :
  conns w0 !! i = Some c0 -> csafe c0 o t Q' ->
  (forall r o w c, client_evolves w0 w -> conns w !! i = Some c -> Q' r o c -> Q r (up i o) w) ->
  wsafe w0 (up i o) (on_conn i t) Q.
Proof.
  intros Hi Ht HQ.
  eapply (safe_zoom _ _ client_inv client_evolves wcell conn_inv evolves (private_cell busy cprivate) (up i))
    with (P := fun _ => True); [..|done|exact Hi|exact Ht|].
  - intros o1 o2 Hsub. apply map_subseteq_spec. intros m v (n & -> & Hv)%up_Some. rewrite up_lookup.
    by eapply lookup_weaken.
  - done.
  - intros w1 w2 c _ (_ & Hc & _) Hl. by apply Hc.
  - intros w c o1 (HI & _) Ho Hl. split; [by eapply HI|]. intros n v Hn.
    apply (wcell_at i n v w c Hl), Ho. by rewrite up_lookup.
  - intros w c c' o1 o2 HI _ Hl Hc' Ho2 Hg. destruct (put_conn w i c c' o1 o2 HI Hl Hc' Ho2 Hg) as (? & ? & ?).
    split_and!; [done..|]. cbn. apply list_lookup_insert_eq. by eapply lookup_lt_Some.
  - intros r o1 w c HG _ Hl _. by apply HQ.
Qed.

#[local] Abbreviation wspec := (spec client_inv client_evolves wcell).
#[local] Abbreviation cspec := (spec conn_inv evolves (private_cell busy cprivate)).

Lemma up_empty i : up i ∅ = ∅.
Proof. apply kmap_empty. Qed.

Lemma on_conn_spec {A} i (t : task NodeConnection A) w0 c0 (P' : res A -> NodeConnection -> Prop) (P : res A -> WasmClient -> Prop) :
  conns w0 !! i = Some c0 -> cspec c0 t P' ->
  (forall r w c, client_evolves w0 w -> conns w !! i = Some c -> P' r c -> P r w) ->
  wspec w0 (on_conn i t) P.
Proof.
  intros Hi Ht HP. unfold spec. rewrite <- (up_empty i) at 1. eapply on_conn_safe; [exact Hi|exact Ht|].
  intros r o w c HG Hc [-> Hr]. split; [apply up_empty|]. by eapply HP.
Qed.

(** A new connection belongs to the task that opens it. *)
Lemma new_conn_safe {B} (g : nat -> task WasmClient B) w0 (Q : res B -> gmap nat cpriv -> WasmClient -> Prop) :
  (forall i c w, client_evolves w0 w -> conns w !! i = Some c -> session c = None ->
     wsafe w (up i (owns (cprivate c))) (g i) Q) ->
  wsafe w0 ∅ (atomic new_conn ≫= g) Q.
Proof.
  intros Hg w HG HI _. cbn [mbind task_bind task_bind_ atomic new_conn].
  set (c := unopened (js_transport w) (js_seed w)). set (i := List.length (conns w)).
  set (w' := with_conns (conns w ++ [c]) w).
  assert (conns w' !! i = Some c) as Hi by (by apply list_lookup_middle).
  assert (forall j cj, conns w !! j = Some cj -> conns w' !! j = Some cj) as Hkeep.
  { intros j cj Hj. by apply lookup_app_l_Some. }
  assert (client_evolves w w') as Hev.
  { split_and!; [done| |done]. intros j cj Hj. exists cj. split; [by apply Hkeep|done]. }
  destruct HI as (Hc & Hp & Hb & Hbill). exists (up i (owns (cprivate c))). split; [|split; [|split]].
  - split_and!.
    + intros j cj [Hj|[Hj Hj']]%lookup_app_Some; [by eapply Hc|].
      apply list_lookup_singleton_Some in Hj' as [_ <-]. intros Hs. by destruct Hs.
    + intros id j Hj. eapply authenticated_evolves; [exact Hev|by apply Hp].
    + intros b Hbs. destruct (Hb b Hbs) as (id & Hid). exists id. by eapply authenticated_evolves.
    + done.
  - intros m v (n & -> & Hn)%up_Some. apply (wcell_at i n v _ c Hi).
    unfold owns in Hn. apply lookup_singleton_Some in Hn as [<- <-]. split; [done|]. split; [by left|done].
  - split; [done|]. split.
    + intros m v _ _ (j & n & cj & -> & Hj & Hcell). exists j, n, cj. split; [done|]. split; [by apply Hkeep|done].
    + intros m v v' _ (n & -> & _)%up_Some (j & n' & cj & He & Hj & _). apply encode_nat_inj in He as [= <- _].
      apply lookup_lt_Some in Hj. unfold i in Hj. lia.
  - apply Hg; [by etrans|done|done].
Qed.

Context `{PL : !PostcardLaws} `{KL : !MlKemLaws}.

(** What a finished handshake proves about the pool's keys. *)
Lemma handshaken_expected id x : handshaken (Some id) x -> x.2 = id.
Proof.
  intros (rng & hs & hello & accept & _ & Hf).
  destruct (finish_cases hs accept (Some id)) as [[[e He] _]|(ct & pk & sig & rest & _ & He)]; rewrite He in Hf; [done|].
  apply accept_checks_Ok in Hf as (vk & ct' & ss & _ & _ & Hexp & _ & _ & Heq). rewrite (Hexp id eq_refl).
  by injection Heq.
Qed.

(** Opening a connection leaves nothing owned, whether it succeeds or not. *)
Definition opened_post (exp : option (arr 32)) (i : nat) (r : res unit) (w : WasmClient) : Prop :=
  r = Ok tt -> exists c x, conns w !! i = Some c /\ session c = Some x /\ handshaken exp x.

Lemma opening_spec i (t : task NodeConnection unit) w0 c0 o0 exp :
  conns w0 !! i = Some c0 ->
  csafe c0 o0 t (fun r o c => r = Ok tt -> exists a, est_post exp a r o c) ->
  wsafe w0 (up i o0) (on_conn i t) (fun r o w => o = ∅ /\ opened_post exp i r w).
Proof.
  intros Hi Ht. eapply safe_drop; [eapply (on_conn_safe i t w0 c0 o0 _ (fun r o w => r = Ok tt ->
    o = ∅ /\ exists c x, conns w !! i = Some c /\ session c = Some x /\ handshaken exp x)); [exact Hi|exact Ht|]|].
  - intros r o w c _ Hc Hr ->. destruct (Hr eq_refl) as (a & -> & _ & x & Hs & Hh).
    split; [apply up_empty|]. by exists c, x.
  - intros r o w Hr. exists ∅. split; [apply map_empty_subseteq|]. split; [done|]. intros He. by apply Hr.
Qed.

Lemma opened_authenticated id i w : opened_post (Some id) i (Ok tt) w -> authenticated w i id.
Proof.
  intros Ho. destruct (Ho eq_refl) as (c & x & Hc & Hs & Hh).
  pose proof (handshaken_expected _ _ Hh) as Hid. destruct x as [k id']. cbn in Hid. subst id'.
  exists c, k. split; [done|]. split; [done|]. by eexists.
Qed.

Lemma connection_for_spec peer w0 :
  wspec w0 (connection_for peer) (fun r w => forall i, r = Ok i -> authenticated w i (peer_id peer)).
Proof.
  unfold connection_for. apply spec_atomic. intros w HG HI. do 3 (split; [done|]).
  destruct (pool w !! peer_id peer) as [i|] eqn:Hp.
  { apply spec_done; [done|]. intros w' HG' _ j [= <-]. eapply authenticated_evolves; [exact HG'|]. by apply HI. }
  apply new_conn_safe. intros i c w1 _ Hi Hs.
  eapply (safe_bind client_inv client_evolves wcell _ _ _ _ _ (fun r o w => o = ∅ /\ opened_post (Some (peer_id peer)) i r w)).
  - apply (opening_spec _ _ _ c); [done|]. eapply safe_mono; [apply _|reflexivity| |by apply conn_connect_safe].
    intros r o c' _ _ _ Hr ->. destruct (Hr eq_refl) as (a & _ & Ha). by exists a.
  - intros [] o w2 _ _ _ [-> Ho]. pose proof (opened_authenticated _ _ _ Ho) as Hauth.
    apply spec_atomic. intros w3 HG3 HI3.
    assert (client_evolves w3 (with_pool (<[peer_id peer := i]> (pool w3)) w3)) as Hev.
    { split_and!; [done| |done]. intros j cj Hj. by exists cj. }
    pose proof (authenticated_evolves _ _ _ _ HG3 Hauth) as Hauth3. split; [|split; [done|]; split].
    + destruct HI3 as (Hc3 & Hp3 & Hb3 & Hbill3). split_and!; [done| | |done].
      * intros id j. cbn. rewrite lookup_insert_Some. intros [[<- <-]|[_ Hj]]; [|by apply Hp3].
        exact Hauth3.
      * exact Hb3.
    + done.
    + apply spec_done; [done|]. intros w4 HG4 _ j [= <-]. eapply authenticated_evolves; [exact HG4|]. exact Hauth3.
  - intros e o w2 _ _ _ [-> _]. by split.
Qed.

(** *** The bootstrap connection *)

Lemma ready_evolves w w' : client_evolves w w' -> ready w -> ready w'.
Proof. intros (Hb & _). unfold ready. by rewrite Hb. Qed.

Lemma on_authenticated {A} i id (t : task NodeConnection A) w0
    (P' : SessionCipher -> res A -> NodeConnection -> Prop) (P : res A -> WasmClient -> Prop) :
  authenticated w0 i id ->
  (forall c k, session c = Some (k, id) -> cspec c t (P' k)) ->
  (forall r w c k, client_evolves w0 w -> conns w !! i = Some c -> session c = Some (k, id) ->
     (exists exp, handshaken exp (k, id)) -> P' k r c -> P r w) ->
  wspec w0 (on_conn i t) P.
Proof.
  intros (c & k & Hc & Hs & Hh) Ht HP. apply (on_conn_spec i t w0 c (P' k)); [done|by apply Ht|].
  intros r w c' HG Hc' Hr. apply (HP r w c' k); [done|done| |done|done].
  destruct HG as (_ & Hev & _). destruct (Hev i c Hc) as (c2 & Hc2 & He). assert (c2 = c') as -> by congruence.
  by apply (He (k, id)).
Qed.

Lemma self_bootstrap_spec {B} (g : nat -> task WasmClient B) w0 (P : res B -> WasmClient -> Prop) :
  ready w0 ->
  (forall i id w, client_evolves w0 w -> authenticated w i id -> wspec w (g i) P) ->
  wspec w0 (atomic self_bootstrap ≫= g) P.
Proof.
  intros Hr Hg. apply spec_atomic. intros w HG HI. unfold self_bootstrap.
  pose proof (ready_evolves _ _ HG Hr) as Hrw. unfold ready in Hrw.
  destruct (bootstrap w) as [b|] eqn:Hb; [|done]. do 3 (split; [done|]).
  destruct HI as (_ & _ & HB & _). destruct (HB b Hb) as (id & Hid). by eapply Hg.
Qed.

(** Connection [i], to the node [id], has brought the reply [p] to its request
    [q], sealed by the node. *)
Definition replied (w : WasmClient) (i : nat) (id : arr 32) (q : request) (p : reply) : Prop :=
  exists c k, conns w !! i = Some c /\ session c = Some (k, id) /\ (exists exp, handshaken exp (k, id)) /\
    proper_reply k (sealed c) q p.

Lemma replied_evolves w w' i id q p : client_evolves w w' -> replied w i id q p -> replied w' i id q p.
Proof.
  intros (_ & Hc & _) (c & k & Hi & Hs & Hh & Hp). destruct (Hc i c Hi) as (c' & Hi' & He).
  destruct (He _ Hs) as (Hs' & _ & Hlog & _). exists c', k. do 3 (split; [done|]). by eapply proper_reply_grows.
Qed.

(** A node of the client has listed these peers as the closest to [address]. *)
Definition discovered (w : WasmClient) (address : arr 32) (infos : list PeerConnectInfo) : Prop :=
  exists i id, replied w i id (AskPeers address) (Peers infos).

Lemma discovered_evolves w w' address infos : client_evolves w w' -> discovered w address infos -> discovered w' address infos.
Proof. intros Hw (i & id & Hr). exists i, id. by eapply replied_evolves. Qed.

Lemma peers_spec address w0 :
  ready w0 ->
  wspec w0 (on_bootstrap (closest_peers fuel address)) (fun r w => forall infos, r = Ok infos -> discovered w address infos).
Proof.
  intros Hr. apply self_bootstrap_spec; [done|]. intros i id w _ Hid.
  apply (on_authenticated i id _ w (fun k r c => forall infos, r = Ok infos ->
    proper_reply k (sealed c) (AskPeers address) (Peers infos))); [done| |].
  - intros c k Hs. apply (closest_peers_safe fuel address (k, id) c Hs).
  - intros r w' c k _ Hc Hs Hh Hr' infos Hi. exists i, id, c, k. split_and!; [done..|by apply Hr'].
Qed.

(** *** Fetching *)

(** A node of the client has served [content] for [address]. *)
Definition served_by (w : WasmClient) (address : arr 32) (content : bytes) : Prop :=
  exists i id, replied w i id (AskContent address) (Content content).

Definition fetched_ok (address : arr 32) (r : res bytes) (w : WasmClient) : Prop :=
  forall content, r = Ok content -> served_by w address content.

Lemma served_hash w address content : served_by w address content -> blake3_hash content = address.
Proof. by intros (i & id & c & k & _ & _ & _ & Hh & _). Qed.

Lemma served_evolves w w' address content : client_evolves w w' -> served_by w address content -> served_by w' address content.
Proof. intros Hw (i & id & Hr). exists i, id. by eapply replied_evolves. Qed.

Lemma fetch_from_spec address i id w0 :
  authenticated w0 i id ->
  wspec w0 (on_conn i (get_verified fuel address))
    (fun r w => forall content, r = Ok content -> replied w i id (AskContent address) (Content content)).
Proof.
  intros Hi. eapply on_authenticated; [exact Hi| |].
  - intros c k Hs. by apply (get_verified_safe fuel address (k, id) c).
  - intros r w c k _ Hc Hs Hh Hr content Ho. exists c, k. split_and!; [done..|by apply Hr].
Qed.

Lemma try_peers_spec address peers : forall last_err w0,
  wspec w0 (try_peers address peers last_err) (fetched_ok address).
Proof.
  induction peers as [|peer peers IH]; intros last_err w0; cbn [try_peers].
  { apply spec_done; [done|]. by intros w _ _ content. }
  eapply spec_bind; [apply _|apply spec_attempt, connection_for_spec|..]; [apply _| |].
  2: { intros e w _ _ (r & [=] & _). }
  intros rr w _ _ (r & [= <-] & Hp & Hr). destruct rr as [i|e|]; [|apply IH|done].
  eapply spec_bind; [apply _|apply spec_attempt, (fetch_from_spec address i _ w (Hr i eq_refl))|..]; [apply _| |].
  2: { intros e w1 _ _ (r & [=] & _). }
  intros rr w1 _ _ (r & [= <-] & Hp' & Hr'). destruct rr as [content|e|]; [|apply IH|done].
  apply spec_done; [done|]. intros w2 HG2 _ content' [= <-]. eapply served_evolves; [exact HG2|]. exists i, (peer_id peer).
  by apply Hr'.
Qed.

Lemma get_direct_spec address w0 : ready w0 -> wspec w0 (get_direct address) (fetched_ok address).
Proof.
  intros Hr. unfold get_direct. eapply spec_bind; [apply _|by apply peers_spec|..].
  - intros peers w _ _ _. case_bool_decide; [|apply try_peers_spec]. apply spec_done; [done|]. by intros w' _ _ content.
  - by intros e w _ _ _ content.
Qed.

Context `{SL : !SelfEncryptionLaws}.

Lemma count_spec {B} (f : Z -> Z) (g : unit -> task WasmClient B) w0 (P : res B -> WasmClient -> Prop) :
  (forall w, client_evolves w0 w -> wspec w (g tt) P) ->
  wspec w0 (atomic (fun w => (with_count (f (chunks_fetched w)) w, Ok tt)) ≫= g) P.
Proof.
  intros Hg. apply spec_atomic. intros w HG HI.
  assert (client_evolves w (with_count (f (chunks_fetched w)) w)) as Hev.
  { split_and!; [done| |done]. intros j cj Hj. by exists cj. }
  split; [exact HI|]. split; [exact Hev|]. split; [done|]. apply Hg. by etrans.
Qed.

Lemma supply_fetched_spec address fetched : forall r w0,
  retrieving address r -> Forall (fun o => o.2 <> Panic) fetched ->
  wspec w0 (supply_fetched r fetched) (fun o _ => forall r', o = Ok r' -> retrieving address r' /\ supplied_with fetched.*1 r r').
Proof.
  induction fetched as [|[a result] fetched IH]; intros r w0 Hr HF; cbn [supply_fetched].
  { apply spec_done; [done|]. intros w _ _ r' [= <-]. split; [done|apply supplied_nil]. }
  apply Forall_cons in HF as [Hp HF]. apply spec_pure; [done| |done]. intros bs Hbs.
  pose proof (act_retrieving address (Supply a bs) r Hr) as Hr'. cbn [act] in Hr'.
  pose proof (supply_total a bs r) as Hst. destruct (supply a bs r) as [r1 o1] eqn:Hs. cbn [fst snd] in *.
  apply spec_pure; [done| |done]. intros [] ->. apply (count_spec (fun n => n + 1)). intros w _.
  eapply spec_mono; [apply _|reflexivity| |by apply IH]. intros o w1 _ _ Ho r' Hor. destruct (Ho r' Hor) as [Hi Hsup].
  split; [done|]. rewrite fmap_cons. by eapply supplied_cons.
Qed.

Lemma zip_fetched {A} (addrs : list (arr 32)) (rs : list A) :
  List.length rs = List.length addrs -> (zip addrs rs).*1 = addrs.
Proof. intros Hl. apply fst_zip. by rewrite Hl. Qed.

(** Entries enough for the rounds that are left. *)
Lemma download_loop_spec address scheds : forall r w0,
  ready w0 -> retrieving address r -> (rounds_left r <= List.length scheds)%nat ->
  wspec w0 (download_loop scheds r) (fun o _ => forall out, o = Ok out -> content_of address out).
Proof.
  induction scheds as [|sched scheds IH]; intros r w0 Hw Hr Hleft; cbn [download_loop];
    (destruct (is_complete r) eqn:Hnc; [apply spec_done; [apply reassemble_total|];
       intros w _ _ out; by apply retrieving_finish|]).
  { unfold rounds_left in Hleft. rewrite Hnc in Hleft. cbn in Hleft. destruct (root_resolved r); lia. }
  eapply spec_bind; [apply _| |..].
  - apply (spec_join client_inv client_evolves wcell sched _ w0 (fun r _ => r <> Panic)).
    apply Forall_map, Forall_true. intros a.
    eapply spec_mono; [apply _|reflexivity| |by apply spec_no_panic, get_direct_spec]. by intros o w _ _ [Hp _].
  - intros rs w HG _ (rs' & [= <-] & Hlen & HF). rewrite length_map in Hlen.
    eapply spec_bind; [apply _|apply (supply_fetched_spec address)|..].
    + done.
    + apply Forall_forall. intros [a o] Hin. apply elem_of_zip_r in Hin. rewrite Forall_forall in HF. by apply HF.
    + intros r1 w1 HG1 _ Hr1. destruct (Hr1 r1 eq_refl) as [Hi Hsup]. rewrite zip_fetched in Hsup by done.
      pose proof (act_retrieving address Advance r1 Hi) as Hr2. cbn [act] in Hr2.
      pose proof (advance_total r1) as Hat. destruct (advance r1) as [r2 o2] eqn:Hadv. cbn [fst snd] in *.
      apply spec_pure; [done| |done]. intros [] ->. pose proof (round_progress r r1 r2 Hnc Hsup Hadv).
      apply IH; [|done|cbn in Hleft; lia]. eapply ready_evolves; [exact HG1|]. by eapply ready_evolves.
    + done.
  - intros e w _ _ (rs & [=] & _).
Qed.

(** A finished download is the file's content. *)
Definition download_post (address_hex : string) (r : res bytes) : Prop :=
  forall out, r = Ok out -> exists address, parse_address address_hex = Ok address /\ content_of address out.

Context `{HL : !HexLaws}.

Lemma parse_address_total text : parse_address text <> Panic.
Proof. apply parse_hex_total. Qed.

Lemma download_spec scheds address_hex w0 :
  ready w0 -> (2 <= List.length scheds)%nat -> wspec w0 (download scheds address_hex) (fun r _ => download_post address_hex r).
Proof.
  intros Hw Hscheds. unfold download. apply spec_pure; [apply parse_address_total| |by intros e w _ out].
  intros address Ha. apply (count_spec (fun _ => 0)). intros w HG.
  pose proof (ready_evolves _ _ HG Hw) as Hw1.
  eapply spec_bind; [apply _|by apply get_direct_spec|..].
  2: { by intros e w1 _ _ _ out. }
  intros map_bytes w1 HG1 _ _. apply (count_spec (fun n => n + 1)). intros w2 HG2.
  apply spec_pure; [apply begin_total| |by intros e w3 _ out]. intros r Hr.
  eapply spec_mono; [apply _|reflexivity| |apply (download_loop_spec address)].
  - intros o w3 _ _ Ho out Hout. exists address. split; [done|by apply Ho].
  - eapply ready_evolves; [|exact Hw1]. by etrans.
  - by eapply begin_retrieving.
  - etrans; [|exact Hscheds]. unfold rounds_left. destruct (is_complete r), (root_resolved r); lia.
Qed.

(** What [fetch_chunk] ends with, and where it came from. *)
Definition fetch_post (address_hex : string) (r : res bytes) (w : WasmClient) : Prop :=
  forall out, r = Ok out -> exists address, parse_address address_hex = Ok address /\ served_by w address out.

Lemma fetch_chunk_spec address_hex w0 :
  ready w0 -> wspec w0 (fetch_chunk address_hex) (fetch_post address_hex).
Proof.
  intros Hw. unfold fetch_chunk. apply spec_pure; [apply parse_address_total| |by intros e w _ out].
  intros address Ha. eapply spec_mono; [apply _|reflexivity| |by apply get_direct_spec].
  intros o w _ _ Ho out Hout. exists address. split; [done|by apply Ho].
Qed.

(** *** Relayed connections *)

(** A step of the owner of a connection that goes on only on success. *)
Lemma owner_bind {A B} i (t : task NodeConnection A) (g : A -> task WasmClient B) v w0 c0
    (W : A -> cpriv -> Prop) (Q : res B -> gmap nat cpriv -> WasmClient -> Prop) :
  conns w0 !! i = Some c0 ->
  csafe c0 (owns v) t (fun r o _ => forall a, r = Ok a -> exists v', o = owns v' /\ W a v') ->
  (forall a v' w c, client_evolves w0 w -> conns w !! i = Some c -> W a v' -> wsafe w (up i (owns v')) (g a) Q) ->
  (forall e o w, Q (Err e) o w) ->
  wsafe w0 (up i (owns v)) (on_conn i t ≫= g) Q.
Proof.
  intros Hi Ht Hg He.
  eapply (safe_bind client_inv client_evolves wcell _ _ _ _ _ (fun r o w => forall a, r = Ok a ->
    exists v', o = up i (owns v') /\ W a v')); [|..].
  - eapply on_conn_safe; [exact Hi|exact Ht|]. intros r o w c _ _ Hr a Ha. destruct (Hr a Ha) as (v' & -> & HW).
    by exists v'.
  - intros a o w HG _ _ Ha. destruct (Ha a eq_refl) as (v' & -> & HW). destruct (proj1 (proj2 HG) i c0 Hi) as (c & Hc & _).
    by eapply Hg.
  - done.
Qed.

Lemma connect_via_relay_spec relay id stun target w0 :
  authenticated w0 relay id ->
  wspec w0 (connect_via_relay relay stun target) (fun r w => forall i, r = Ok i -> authenticated w i target).
Proof.
  intros Hrelay. eapply (safe_drop client_inv client_evolves wcell _ _ _ (fun r o w => forall i, r = Ok i -> o = ∅ /\ authenticated w i target)).
  2: { intros r o w Hr. exists ∅. split; [apply map_empty_subseteq|]. split; [done|]. intros i Hi. by apply Hr. }
  unfold connect_via_relay. apply new_conn_safe. intros i c w HG Hi Hs.
  apply (owner_bind i _ _ _ w c (fun _ v => q_session v = None)); [done| | |done].
  { eapply safe_mono; [apply _|reflexivity| |by apply relay_offer_conn_safe].
    intros r o c1 _ _ _ Hr offer Ho. destruct (Hr offer Ho) as (tv & ->). by eexists. }
  intros offer v1 w1 c1 HG1 Hc1 Hv1.
  assert (authenticated w1 relay id) as Hrelay1.
  { eapply authenticated_evolves; [|exact Hrelay]. by etrans. }
  eapply (safe_bind client_inv client_evolves wcell _ _ _ _ _ (fun r o w => o = up i (owns v1))).
  { eapply safe_mono; [apply _|reflexivity| |].
    2: { rewrite <- (map_empty_union (up i (owns v1))). apply (safe_frame _ _ _ _ _ _ _ (fun r o w => o = ∅)); [apply map_disjoint_empty_l|].
         eapply safe_mono; [apply _|reflexivity| |apply (on_authenticated relay id (signal_relay fuel target offer) w1
           (fun k r c => True) (fun _ _ => True) Hrelay1)].
         - by intros r o w2 _ _ _ [-> _].
         - intros c2 k Hs2. eapply spec_mono; [apply _|reflexivity| |by apply (signal_relay_safe fuel target offer (k, id))]. done.
         - done. }
    intros r o w2 _ _ _ (o1 & -> & ->). apply map_empty_union. }
  2: { done. }
  intros answer o w2 HG2 _ _ ->. destruct (proj1 (proj2 HG2) i c1 Hc1) as (c2 & Hc2 & _).
  apply (owner_bind i _ _ _ w2 c2 (fun _ v => q_session v = None /\ p_borrowed (q_transport v) = false)); [done| | |done].
  { eapply safe_mono; [apply _|reflexivity| |by apply relay_answer_conn_safe].
    intros r o c3 _ _ _ Hr [] Ho. destruct (Hr Ho) as (tv & Hb & ->). by eexists. }
  intros [] v2 w3 c3 HG3 Hc3 [Hv2 Hb2].
  eapply (safe_bind client_inv client_evolves wcell _ _ _ _ _ (fun r o w => o = ∅ /\ opened_post (Some target) i r w)).
  - apply (opening_spec _ _ _ c3); [done|]. eapply safe_mono; [apply _|reflexivity| |by apply establish_safe].
    intros r o c4 _ _ _ Hr ->. by eexists.
  - intros [] o w4 _ _ _ [-> Ho]. apply safe_done; [done|]. intros w5 HG5 _ j [= <-]. split; [done|].
    eapply authenticated_evolves; [exact HG5|]. by apply opened_authenticated.
  - done.
Qed.

(** A relayed fetch has reached the very node it was asked to reach. *)
Definition relayed_post (target_hex address_hex : string) (r : res Z) (w : WasmClient) : Prop :=
  forall n, r = Ok n -> exists target address i content,
    parse_address target_hex = Ok target /\ parse_address address_hex = Ok address /\
    replied w i target (AskContent address) (Content content) /\ n = len content.

Lemma relayed_fetch_spec target_hex stun address_hex w0 :
  ready w0 -> wspec w0 (relayed_fetch target_hex stun address_hex) (relayed_post target_hex address_hex).
Proof.
  intros Hw. unfold relayed_fetch. apply spec_pure; [apply parse_address_total| |done]. intros target Ht.
  apply spec_pure; [apply parse_address_total| |done]. intros address Ha.
  apply self_bootstrap_spec; [done|]. intros b id w _ Hid.
  eapply spec_bind; [apply _|by eapply connect_via_relay_spec| |done].
  intros i w1 _ _ Hi. eapply spec_bind; [apply _|by apply (fetch_from_spec address i target), Hi| |done].
  intros content w2 _ _ Hc. apply spec_done; [done|]. intros w3 HG3 _ n [= <-]. exists target, address, i, content.
  split_and!; [done..| |done]. eapply replied_evolves; [exact HG3|by apply Hc].
Qed.

(** The JSON lists what a node has listed for the address. *)
Definition json_post (address_hex : string) (r : res string) (w : WasmClient) : Prop :=
  forall text, r = Ok text -> exists address infos,
    parse_address address_hex = Ok address /\ discovered w address infos /\ text = peers_json infos.

Lemma closest_peers_json_spec address_hex w0 :
  ready w0 -> wspec w0 (closest_peers_json address_hex) (json_post address_hex).
Proof.
  intros Hw. unfold closest_peers_json. apply spec_pure; [apply parse_address_total| |done]. intros address Ha.
  eapply spec_bind; [apply _|by apply peers_spec| |done]. intros peers w _ _ Hd. apply spec_done; [done|].
  intros w' HG _ text [= <-]. exists address, peers. split_and!; [done| |done]. eapply discovered_evolves; [exact HG|by apply Hd].
Qed.

(** *** The first connection *)

Lemma parse_opt_peer_id_total text : parse_opt_peer_id text <> Panic.
Proof.
  unfold parse_opt_peer_id. destruct (is_empty text); [done|]. intros Hp. apply bind_Panic in Hp as [Hp|(bs & _ & Hp)].
  - rewrite map_err_Panic in Hp. by apply hex_decode_total in Hp.
  - unfold to_array in Hp. by destruct (try_into 32 bs).
Qed.

Lemma open_bootstrap_spec ip port cert_hash_hex peer_id_hex w0 :
  wspec w0 (open_bootstrap ip port cert_hash_hex peer_id_hex) (fun r w => forall i, r = Ok i ->
    exists id expected, parse_opt_peer_id peer_id_hex = Ok expected /\ authenticated w i id /\
      (forall p, expected = Some p -> p = id)).
Proof.
  unfold open_bootstrap. apply spec_pure; [apply parse_opt_peer_id_total| |done]. intros expected Hexp.
  apply new_conn_safe. intros i c w HG Hi Hs.
  eapply (safe_bind client_inv client_evolves wcell _ _ _ _ _ (fun r o w => o = ∅ /\ opened_post expected i r w)).
  - apply (opening_spec _ _ _ c); [done|]. eapply safe_mono; [apply _|reflexivity| |by apply conn_connect_safe].
    intros r o c' _ _ _ Hr ->. destruct (Hr eq_refl) as (a & _ & Ha). by exists a.
  - intros [] o w1 _ _ _ [-> Ho]. destruct (Ho eq_refl) as (c1 & [k id] & Hc1 & Hs1 & Hh).
    assert (authenticated w1 i id) as Hauth by (exists c1, k; split_and!; [done..|by eexists]).
    apply safe_done; [done|]. intros w2 HG2 _. split; [done|]. intros j [= <-]. exists id, expected.
    split; [done|]. split; [by eapply authenticated_evolves|]. intros p Hp. subst.
    by apply (handshaken_expected p (k, id)) in Hh.
  - intros e o w1 _ _ _ [-> _]. by split.
Qed.

(** The client that begins with connection [i]. *)
Lemma enrol_inv i id w :
  client_inv w -> authenticated w i id ->
  exists w', enrol i w = (w', Ok tt) /\ client_inv w' /\ bootstrap w' = Some i /\ pool w' = {[id := i]} /\
    chunks_fetched w' = 0 /\ authenticated w' i id.
Proof.
  intros (Hconn & _ & _ & Hbill) (c & k & Hc & Hs & Hh). unfold enrol. rewrite Hc. cbn [mbind option_bind]. rewrite Hs.
  eexists. split; [done|].
  match goal with |- client_inv ?x /\ _ => set (w' := x) end.
  assert (authenticated w' i id) as Ha by (by exists c, k). split; [|by split_and!]. split_and!; [done| | |done].
  - intros id' j. cbn. rewrite lookup_singleton_Some. by intros [<- <-].
  - intros b. cbn. intros [= <-]. by exists id.
Qed.

(** ** The environment of a client *)

(** Events of each connection, and other outcomes of what comes next. *)
Inductive client_env : WasmClient -> WasmClient -> Prop :=
  | client_env_conn i c c' w : conns w !! i = Some c -> conn_env c c' -> client_env w (with_conn i c' w)
  | client_env_js t r p w : client_env w (with_js t r p w).

Lemma client_env_cells w w' : client_env w w' ->
  client_inv w -> client_inv w' /\ client_evolves w w' /\ forall m v, wcell m v w -> wcell m v w'.
Proof.
  destruct 1 as [i c c' w Hi He|t r p w]; intros HI.
  - destruct (conn_env_cells c c' He (proj1 HI i c Hi)) as (HI' & HG & Hcells).
    split; [by eapply with_conn_inv|]. split; [by eapply with_conn_evolves|].
    intros m v (j & n & cj & -> & Hj & Hcell). destruct (decide (i = j)) as [<-|Hn].
    + assert (cj = c) as -> by congruence. exists i, n, c'. split; [done|]. split; [|by apply Hcells].
      cbn. apply list_lookup_insert_eq. by eapply lookup_lt_Some.
    + exists j, n, cj. split; [done|]. split; [|done]. cbn. by rewrite list_lookup_insert_ne.
  - split; [exact HI|]. split; [|done]. split_and!; [done| |done]. intros j cj Hj. by exists cj.
Qed.

(** ** The beginning of a client *)

Lemma client_env_fields w w' : rtc client_env w w' ->
  pool w' = pool w /\ chunks_fetched w' = chunks_fetched w.
Proof. induction 1 as [|w w1 w2 Hs _ [-> ->]]; [done|]. by destruct Hs. Qed.

(** C9: [connect] alone, in any environment, does not panic; if it succeeds
    there is a client that satisfies its invariant, whose only connection is
    to a node that has proved an identity, the expected one if one was
    expected, and the getters say so. *)
Theorem client_connects (ip : string) (port : Z) (cert_hash_hex peer_id_hex : string) (w w' : WasmClient) (r : res unit)
    (HI : client_inv w)
    (Hrun : runs client_env w (client_connect ip port cert_hash_hex peer_id_hex) w' r) :
  r <> Panic /\ client_inv w' /\
  (r = Ok tt -> ready w' /\ connection_count w' = 1 /\ client_chunk_count w' = 0 /\
     exists i id expected, bootstrap w' = Some i /\ pool w' !! id = Some i /\ authenticated w' i id /\
       client_peer_id w' = Ok (hex_encode id) /\
       parse_opt_peer_id peer_id_hex = Ok expected /\ (forall p, expected = Some p -> p = id)).
Proof.
  assert (forall r w', runs client_env w (open_bootstrap ip port cert_hash_hex peer_id_hex) w' r ->
    r <> Panic /\ client_inv w' /\ (forall i, r = Ok i -> exists id expected,
      parse_opt_peer_id peer_id_hex = Ok expected /\ authenticated w' i id /\ (forall p, expected = Some p -> p = id))) as Hopen.
  { intros r1 w1 Hr. destruct (runs_safe client_inv client_evolves wcell client_env client_env_cells _ w w ∅ w1 r1 _
      (open_bootstrap_spec ip port cert_hash_hex peer_id_hex w)) as (Hp & HI1 & _ & _ & _ & _ & Hpost);
      [reflexivity|done|by intros m v Hm; rewrite lookup_empty in Hm|done|]. done. }
  unfold client_connect in Hrun. apply runs_bind in Hrun as [(i & w1 & Hr & He)|[(e & -> & Hr)|[-> Hr]]].
  - destruct (Hopen _ _ Hr) as (_ & HI1 & Hi). destruct (Hi i eq_refl) as (id & expected & Hexp & Ha & Hpin).
    destruct (enrol_inv i id w1 HI1 Ha) as (w2 & Hw2 & HI2 & Hb2 & Hp2 & Hc2 & Ha2).
    apply runs_atomic in He as (w3 & Hw3 & Henv). rewrite Hw2 in Hw3. injection Hw3 as <- <-.
    destruct (rtc_env client_inv client_evolves wcell client_env client_env_cells _ _ Henv HI2) as (HI3 & HG3 & _).
    destruct (client_env_fields _ _ Henv) as [Hp3 Hc3]. pose proof (authenticated_evolves _ _ _ _ HG3 Ha2) as Ha3.
    assert (bootstrap w' = Some i) as Hb3 by (by rewrite (proj1 HG3)).
    split; [done|]. split; [done|]. intros _. unfold ready, connection_count, client_chunk_count.
    rewrite Hb3, Hp3, Hc3, Hp2, Hc2. split_and!; [done|by rewrite map_size_singleton|done|].
    exists i, id, expected. split_and!; [done|by rewrite lookup_singleton_eq|done| |done|done].
    destruct Ha3 as (c & k & Hc & Hs & _). unfold client_peer_id. rewrite Hb3. cbn [ok_or mbind result_bind].
    rewrite Hc. cbn [ok_or mbind result_bind]. unfold conn_peer_id. by rewrite Hs.
  - destruct (Hopen _ _ Hr) as (_ & HI1 & _). by split_and!.
  - by destruct (Hopen _ _ Hr) as (Hp & _).
Qed.
End Client.

(** ** The JSON of [closest_peers_json] *)

Section Json.
Context `{Hex}.

(** The [ip] of a peer whose object reads like two. *)
Definition forged_ip (a b : PeerConnectInfo) : string :=
  let q := quote_mark in
  fmt [ip a; q; ","; q; "port"; q; ":"; dec (port a);
       ","; q; "cert_hash"; q; ":"; q; hex_encode (cert_hash a); q; "}"; ",";
       "{"; q; "peer_id"; q; ":"; q; hex_encode (peer_id b); q; ","; q; "ip"; q; ":"; q; ip b].

(** C40: the objects of [closest_peers_json] are written without escaping the
    [ip], a text that the bootstrap node chooses: for any two peers there is one
    single peer whose JSON is that of the two. *)
Theorem peers_json_forged (a b : PeerConnectInfo) :
  exists evil, peers_json [evil] = peers_json [a; b] /\ peer_id evil = peer_id a /\ cert_hash evil = cert_hash b.
Proof.
  exists {| peer_id := peer_id a; ip := forged_ip a b; port := port b; cert_hash := cert_hash b |}.
  split; [|done]. unfold peers_json. f_equal. f_equal. f_equal. cbn [map String.concat].
  unfold peer_json, forged_ip. cbn [peer_id ip port cert_hash]. unfold fmt. cbn [String.concat].
  rewrite ?str_app_assoc. cbn [String.append]. rewrite ?str_app_assoc. reflexivity.
Qed.
End Json.
