(* ===== verification/Service.v ===== *)
(** * Requests that are served

    The other half of the theorems on safety: on a network whose nodes answer,
    the client's calls end, and end well.  Here for a single call that meets
    idle connections; [Vouched] uses the same runs. *)

From S2P Require Import Prelude Text Crates RefCrates Framing Sdp Serde Wire RefCodec Protocol Discovery.
From S2P Require Import Tunnel Retrieval Async Transport Conn Progress Inputs Client Quotes.

(** ** Running a task against an environment that responds

    The task is polled, and each time it is pending the environment responds
    once before it is polled again.  The relation is a function: it leaves no
    choice to anyone. *)

Section Drives.
Context {S : Type} (respond : S -> S).

Inductive drives {A} : task S A -> S -> S -> res A -> Prop :=
  | drives_done t s s' r : poll t s = (s', Done r) -> drives t s s' r
  | drives_wait t s s1 t1 s' r : poll t s = (s1, t1) -> ~ is_done t1 -> drives t1 (respond s1) s' r -> drives t s s' r.

Lemma drives_fun {A} (t : task S A) s s1 r1 s2 r2 : drives t s s1 r1 -> drives t s s2 r2 -> s1 = s2 /\ r1 = r2.
Proof.
  intros H1. revert s2 r2. induction H1 as [t s s' r Hp|t s s1 t1 s' r Hp Hn _ IH]; intros s2 r2 H2;
    inversion H2 as [? ? ? ? Hp2|? ? s3 t3 ? ? Hp2 Hn2 Hd2]; subst; rewrite Hp in Hp2.
  - by injection Hp2 as <- <-.
  - injection Hp2 as <- <-. by destruct Hn2; exists r.
  - injection Hp2 as <- ->. by destruct Hn; exists r2.
  - injection Hp2 as <- <-. by apply IH.
Qed.

Lemma drives_poll {A} (t1 t2 : task S A) s1 s2 s' r :
  poll t1 s1 = poll t2 s2 -> drives t1 s1 s' r -> drives t2 s2 s' r.
Proof.
  intros Hp Hd. inversion Hd as [? ? ? ? Hp1|? ? s3 t3 ? ? Hp1 Hn Hd1]; subst.
  - apply drives_done. by rewrite <- Hp.
  - eapply drives_wait; [rewrite <- Hp; exact Hp1|exact Hn|exact Hd1].
Qed.

Lemma prompt_poll {A} (t : task S A) : forall s, prompt t -> prompt (poll t s).2.
Proof.
  induction t as [r|k IH|t IH] using task_ind'; intros s Ht; cbn [poll]; [done|..|done].
  pose proof (Ht s) as Hs. destruct (k s) as [[s' t']|] eqn:E; [by eapply IH|exact Ht].
Qed.

Lemma bind_not_done {A B} (t : task S A) (f : A -> task S B) : ~ is_done t -> ~ is_done (t ≫= f).
Proof. intros Ht [r Hr]. destruct t as [r'| |]; [|done..]. apply Ht. by exists r'. Qed.

Lemma drives_bind {A B} (t : task S A) (f : A -> task S B) s s1 s' a r :
  prompt t -> drives t s s1 (Ok a) -> drives (f a) s1 s' r -> drives (t ≫= f) s s' r.
Proof.
  intros Ht Hd Hf. remember (Ok a) as ra eqn:Ea.
  induction Hd as [t s s1 r1 Hp|t s s2 t2 s1 r1 Hp Hn Hd IH]; subst.
  - eapply drives_poll; [|exact Hf]. by rewrite poll_bind, Hp.
  - pose proof (prompt_poll t s Ht) as Ht2. rewrite Hp in Ht2. cbn [snd] in Ht2.
    eapply drives_wait; [|by apply (bind_not_done t2 f)|by apply IH].
    rewrite poll_bind, Hp by done. destruct t2; [by destruct Hn; eexists|done..].
Qed.

Lemma drives_attempt {A} (t : task S A) s s' r :
  prompt t -> r <> Panic -> drives t s s' r -> drives (attempt t) s s' (Ok r).
Proof.
  intros Ht Hr Hd. induction Hd as [t s s1 r1 Hp|t s s2 t2 s1 r1 Hp Hn Hd IH].
  - apply drives_done. rewrite poll_attempt, Hp by done. by destruct r1.
  - pose proof (prompt_poll t s Ht) as Ht2. rewrite Hp in Ht2. cbn [snd] in Ht2.
    eapply drives_wait; [rewrite poll_attempt, Hp by done| |by apply IH].
    + destruct t2; [by destruct Hn; eexists|reflexivity..].
    + intros [r' Hr']. destruct t2; [by destruct Hn; eexists|done..].
Qed.

Lemma drives_atomic {A} (f : st S A) s s' r : f s = (s', r) -> drives (atomic f) s s' r.
Proof. intros Hf. apply drives_done. cbn. by rewrite Hf. Qed.

Lemma drives_pure {A} (r : res A) s : drives (pure r) s s r.
Proof. by apply drives_done. Qed.

(** It is one of the runs in an environment that may respond. *)
Lemma drives_runs {A} (env : S -> S -> Prop) (t : task S A) s s' r :
  (forall s, rtc env s (respond s)) -> drives t s s' r -> runs env s t s' r.
Proof.
  intros He Hd. induction Hd as [t s s' r Hp|t s s1 t1 s' r Hp _ _ IH].
  - apply run_done. exact Hp.
  - eapply run_wait; [exact Hp|apply He|exact IH].
Qed.
End Drives.

(** ** Nodes that answer *)

Section Service.
Context `{Hex} `{Blake3} `{MlKem} `{MlDsa} `{ChaCha} `{Postcard} `{SelfEncryption} `{Keccak} `{Rmp}.

(** A node with the behaviour [net] on the other end of a connection: when the
    client waits, it answers the request sealed last, under its number. *)
Definition node_answer (net : bytes -> bytes) (c : NodeConnection) : option bytes :=
  if request_lock c && borrowed (rx (transport c)) then
    '(k, _) ← session c; '(seq, tagged) ← last (sealed c); server_seal k seq (net tagged)
  else None.

Definition answer_conn (net : bytes -> bytes) (c : NodeConnection) : NodeConnection :=
  match node_answer net c with
  | Some reply => with_transport (on_message (Some (encode_frame reply)) (transport c)) c
  | None => c
  end.

(** All the nodes of a client's connections. *)
Definition respond (nets : nat -> bytes -> bytes) (w : WasmClient) : WasmClient :=
  with_conns (imap (fun i c => answer_conn (nets i) c) (conns w)) w.

(** They do nothing that an environment may not do. *)
Lemma answer_conn_env net c : rtc conn_env c (answer_conn net c).
Proof. unfold answer_conn. destruct (node_answer net c); [|done]. apply rtc_once, conn_env_transport, env_message. Qed.

Lemma client_env_rtc i c w : conns w !! i = Some c -> forall c', rtc conn_env c c' -> rtc client_env w (with_conn i c' w).
Proof.
  intros Hi c' Hc. revert w Hi. induction Hc as [c|c c1 c' Hc _ IH]; intros w Hi.
  - assert (with_conn i c w = w) as ->; [|done]. destruct w. unfold with_conn, with_conns. cbn in *. by rewrite list_insert_id.
  - eapply rtc_l; [by eapply client_env_conn|].
    assert (with_conn i c' w = with_conn i c' (with_conn i c1 w)) as ->.
    { unfold with_conn, with_conns. cbn. by rewrite list_insert_insert_eq. }
    apply IH. apply list_lookup_insert_eq. by eapply lookup_lt_Some.
Qed.

Lemma respond_env nets w : rtc client_env w (respond nets w).
Proof.
  unfold respond. set (f := fun i c => answer_conn (nets i) c).
  assert (forall l2 l1 w, conns w = l1 ++ l2 ->
    rtc client_env w (with_conns (l1 ++ imap (fun i c => f (List.length l1 + i)%nat c) l2) w)) as Hl.
  { clear w. induction l2 as [|c l2 IH]; intros l1 w Hw.
    - cbn. rewrite <- Hw. by destruct w.
    - etrans; [apply (client_env_rtc (List.length l1) c w); [|apply (answer_conn_env (nets (List.length l1)))]|].
      { rewrite Hw. by apply list_lookup_middle. }
      specialize (IH (l1 ++ [f (List.length l1) c]) (with_conn (List.length l1) (f (List.length l1) c) w)).
      rewrite length_app in IH. cbn [List.length] in IH. cbn [imap]. rewrite Nat.add_0_r.
      assert (imap ((fun i c => f (List.length l1 + i)%nat c) ∘ Datatypes.S) l2 =
              imap (fun i c => f (List.length l1 + 1 + i)%nat c) l2) as ->.
      { apply imap_ext. intros j cj _. unfold compose. f_equal. lia. }
      rewrite <- !app_assoc in IH. apply IH. cbn. by rewrite Hw, insert_app_r_alt, Nat.sub_diag by lia. }
  exact (Hl (conns w) [] w eq_refl).
Qed.

(** A connection on which a request with this tag and payload is served. *)
Record served_on (net : bytes -> bytes) (c : NodeConnection) (tag : byte) (payload : Z -> res bytes) (resp : bytes) : Prop := {
  served_free : request_lock c = false;
  served_idle : rx (transport c) = idle_rx false;
  served_buf : frame_buf (transport c) = FrameBuf_new;
  served_seq : 0 <= next_seq c < MAX_SEQ;
  served_answer : exists k id bs env reply,
    session c = Some (k, id) /\ payload (next_seq c) = Ok bs /\
    seal_request k (next_seq c) (tag :: bs) = Ok env /\
    (List.length (split_messages (encode_frame env)) <= send_room (dc (transport c)))%nat /\
    net (tag :: bs) = tag :: resp /\
    server_seal k (next_seq c) (tag :: resp) = Some reply /\ frame_ok reply;
}.

Context `{CL : !ChaChaLaws}.

(** The receiver after a whole frame has come in one message. *)
Lemma poll_waiting_whole again reply t :
  rx t = idle_rx true -> frame_buf t = FrameBuf_new -> frame_ok reply ->
  let t' := (poll (waiting again) (deliver [encode_frame reply] t)).1 in
  rx t' = idle_rx false /\ frame_buf t' = FrameBuf_new /\ dc t' = dc t.
Proof.
  intros Hrx Hbuf Hok. cbv zeta. destruct t as [p d r fb]. cbn [rx frame_buf] in Hrx, Hbuf. subst r fb.
  change (deliver _ _) with {| pc := p; dc := d; frame_buf := FrameBuf_new;
    rx := {| queue := [encode_frame reply]; closed := false; borrowed := true; installed := true |} |}.
  rewrite poll_waiting_step. cbn [rx queue frame_buf]. change (buf FrameBuf_new ++ encode_frame reply) with (encode_frame reply).
  rewrite <- (app_nil_r (encode_frame reply)), parse_encode by done. done.
Qed.

(** What a request that is served leaves behind: an idle connection, with one
    more request sealed and no more messages sent than it takes. *)
Record served_after (c : NodeConnection) (tagged : bytes) (messages : nat) (c' : NodeConnection) : Prop := {
  after_session : session c' = session c;
  after_free : request_lock c' = false;
  after_seq : next_seq c' = next_seq c + 1;
  after_sealed : sealed c' = sealed c ++ [(next_seq c, tagged)];
  after_idle : rx (transport c') = idle_rx false;
  after_buf : frame_buf (transport c') = FrameBuf_new;
  after_room : (send_room (dc (transport c')) = send_room (dc (transport c)) - messages)%nat;
}.

(** A request that is served ends, after two polls, with the answer. *)
Lemma drives_round_trip fuel net tag bs resp c k id env reply :
  (1 < fuel)%nat -> request_lock c = false -> rx (transport c) = idle_rx false ->
  frame_buf (transport c) = FrameBuf_new -> 0 <= next_seq c < MAX_SEQ ->
  session c = Some (k, id) -> seal_request k (next_seq c) (tag :: bs) = Ok env ->
  (List.length (split_messages (encode_frame env)) <= send_room (dc (transport c)))%nat ->
  net (tag :: bs) = tag :: resp -> server_seal k (next_seq c) (tag :: resp) = Some reply -> frame_ok reply ->
  exists c', drives (answer_conn net) (round_trip fuel tag bs) c c' (Ok resp) /\
    served_after c (tag :: bs) (List.length (split_messages (encode_frame env))) c'.
Proof.
  intros Hfuel Hl Hrx Hbuf Hseq Hs Henv Hroom Hnet Hreply Hok.
  destruct (poll_request fuel tag bs k id c env Hs Hl (proj2 Hseq) Hrx Hbuf Henv Hroom ltac:(lia))
    as (t1 & Hp1 & Hsent & Hbuf1 & Hrx1 & Hroom1).
  set (c1 := requesting (tag :: bs) c t1) in *.
  destruct (poll_response (fuel - 1) tag (next_seq c) k id c1 [encode_frame reply] reply Hs Hrx1 Hbuf1 Hok
    (app_nil_r _) ltac:(cbn; lia)) as (c2 & Hp2 & Hs2 & Hn2 & Hse2 & Hl2 & _ & _ & Ht2).
  assert (accept_response k tag (next_seq c) reply = Ok resp) as Hacc.
  { apply accept_response_Ok, open_server_seal; [|done]. unfold is_u32. unfold MAX_SEQ in Hseq. lia. }
  assert (answer_conn net c1 = with_transport (deliver [encode_frame reply] (transport c1)) c1) as Hans.
  { unfold answer_conn. assert (node_answer net c1 = Some reply) as ->; [|done].
    unfold node_answer. change (transport c1) with t1. rewrite Hrx1. change (request_lock c1) with true. cbn [andb idle_rx borrowed].
    change (session c1) with (session c). rewrite Hs. cbn [mbind option_bind].
    change (sealed c1) with (sealed c ++ [(next_seq c, tag :: bs)]). rewrite last_snoc. cbn [mbind option_bind]. by rewrite Hnet. }
  destruct (poll_waiting_whole (recv_frame (fuel - 1)) reply t1 Hrx1 Hbuf1 Hok) as (Hrx2 & Hbuf2 & Hdc2).
  change (transport c1) with t1 in Ht2. rewrite <- Ht2 in Hrx2, Hbuf2, Hdc2.
  exists c2. split; [|by split; [..|by rewrite Hdc2]].
  eapply drives_wait; [exact Hp1|by intros [r' Hr']|]. apply drives_done. rewrite Hans, Hp2. by rewrite Hacc.
Qed.

Lemma drives_request {A} fuel net tag payload resp (k : bytes -> task NodeConnection A) (r : res A) c :
  (1 < fuel)%nat -> served_on net c tag payload resp -> (forall pt, exists r, k pt = pure r) -> k resp = pure r ->
  exists c', drives (answer_conn net) (id ← peek_seq; bs ← pure (payload id); pt ← round_trip fuel tag bs; k pt) c c' r /\
    session c' = session c /\ request_lock c' = false /\ next_seq c' = next_seq c + 1.
Proof.
  intros Hfuel [Hl Hrx Hbuf Hseq (kk & id & bs & env & reply & Hs & Hbs & Henv & Hroom & Hnet & Hreply & Hok)] Hk Hkr.
  destruct (drives_round_trip fuel net tag bs resp c kk id env reply) as (c2 & Hd & [? ? ? _ _ _ _]); [done..|].
  exists c2. split; [|by split_and!].
  eapply (drives_bind _ _ _ c c); [apply prompt_atomic|by apply drives_atomic|].
  eapply (drives_bind _ _ _ c c); [done|rewrite Hbs; apply drives_pure|].
  eapply (drives_bind _ _ _ c c2); [apply prompt_round_trip|exact Hd|rewrite Hkr; apply drives_pure].
Qed.

(** A node that answers a GET with the chunk, and one that names these peers. *)
Definition holds_chunk (net : bytes -> bytes) (c : NodeConnection) (address : arr 32) (content : bytes) : Prop :=
  exists resp m, served_on net c PROTO_CHUNK
      (fun id => message_encode {| request_id := id; body := GetRequest {| get_address := address |} |}) resp /\
    message_decode resp = Ok m /\ check_content address m = Ok content.

Definition names_peers (net : bytes -> bytes) (c : NodeConnection) (address : arr 32) (ps : list PeerConnectInfo) : Prop :=
  exists resp m, served_on net c PROTO_DISCOVERY
      (fun id => discovery_encode {| disc_request_id := id; disc_body := ClosestRequest {| closest_address := address |} |}) resp /\
    discovery_decode resp = Ok m /\ disc_body m = ClosestResponse {| peers := ps |}.

Lemma drives_get_verified fuel net address content c :
  (1 < fuel)%nat -> holds_chunk net c address content ->
  exists c', drives (answer_conn net) (get_verified fuel address) c c' (Ok content) /\
    session c' = session c /\ request_lock c' = false /\ next_seq c' = next_seq c + 1.
Proof.
  intros Hfuel (resp & m & Hs & Hm & Hc).
  apply (drives_request fuel net PROTO_CHUNK _ resp
    (fun plaintext => response ← pure (message_decode plaintext); pure (check_content address response)) (Ok content) c Hfuel Hs).
  - intros pt. destruct (message_decode pt); by eexists.
  - by rewrite Hm, <- Hc.
Qed.

Lemma drives_closest_peers fuel net address ps c :
  (1 < fuel)%nat -> names_peers net c address ps ->
  exists c', drives (answer_conn net) (closest_peers fuel address) c c' (Ok ps) /\
    session c' = session c /\ request_lock c' = false /\ next_seq c' = next_seq c + 1.
Proof.
  intros Hfuel (resp & m & Hs & Hm & Hr).
  apply (drives_request fuel net PROTO_DISCOVERY _ resp
    (fun plaintext => response ← pure (discovery_decode plaintext);
       match disc_body response with
       | ClosestResponse r => pure (Ok (peers r))
       | DiscoveryError e => pure (Err (fmt ["discovery error: "; e]))
       | ClosestRequest _ => pure (Err "unexpected discovery response")
       end) (Ok ps) c Hfuel Hs).
  - intros pt. destruct (discovery_decode pt) as [m1|e|]; [cbn; destruct (disc_body m1)|..]; by eexists.
  - rewrite Hm. cbn. by rewrite Hr.
Qed.

(** ** One connection among others *)

(** No other request is waiting. *)
Definition only_busy (i : nat) (w : WasmClient) : Prop :=
  forall j c, j <> i -> conns w !! j = Some c -> request_lock c = false.

Lemma answer_free net c : request_lock c = false -> answer_conn net c = c.
Proof. intros Hl. unfold answer_conn, node_answer. by rewrite Hl. Qed.

Lemma respond_one nets i w c :
  conns w !! i = Some c -> only_busy i w -> forall c1, respond nets (with_conn i c1 w) = with_conn i (answer_conn (nets i) c1) w.
Proof.
  intros Hi Hb c1. unfold respond, with_conn. destruct w as [cs b p n jt js jp pd]. unfold with_conns. cbn [conns] in *. f_equal.
  apply list_eq. intros j. rewrite list_lookup_imap. destruct (decide (i = j)) as [<-|Hn].
  - apply lookup_lt_Some in Hi. by rewrite !list_lookup_insert_eq.
  - rewrite !list_lookup_insert_ne by done. destruct (cs !! j) as [cj|] eqn:Hj; [|done]. cbn. f_equal.
    apply answer_free. by apply (Hb j cj).
Qed.

Lemma with_conn_twice i c c' w : with_conn i c (with_conn i c' w) = with_conn i c w.
Proof. unfold with_conn, with_conns. cbn. by rewrite list_insert_insert_eq. Qed.

Lemma poll_on_conn {A} i (t : task NodeConnection A) w c :
  conns w !! i = Some c ->
  poll (on_conn i t) w = (with_conn i (poll t c).1 w, on_conn i (poll t c).2).
Proof.
  revert w c. induction t as [r|k IH|t IH] using task_ind'; intros w c Hi; cbn [on_conn zoom poll].
  - f_equal. unfold with_conn, with_conns. destruct w. cbn in *. by rewrite list_insert_id.
  - rewrite Hi. cbn [mbind option_bind]. destruct (k c) as [[c1 t1]|] eqn:E; cbn [mbind option_bind fst snd poll].
    + unfold on_conn in IH. rewrite (IH c c1 t1 E _ c1); [by rewrite with_conn_twice|].
      apply list_lookup_insert_eq. by eapply lookup_lt_Some.
    + f_equal. unfold with_conn, with_conns. destruct w. cbn in *. by rewrite list_insert_id.
  - f_equal. unfold with_conn, with_conns. destruct w. cbn in *. by rewrite list_insert_id.
Qed.

Lemma drives_on_conn {A} nets i (t : task NodeConnection A) c c' r :
  drives (answer_conn (nets i)) t c c' r -> forall w, conns w !! i = Some c -> only_busy i w ->
  drives (respond nets) (on_conn i t) w (with_conn i c' w) r.
Proof.
  induction 1 as [t s s' r Hp|t s s1 t1 s' r Hp Hn _ IH]; intros w Hi Hb; pose proof (poll_on_conn i t w s Hi) as Hz;
    rewrite Hp in Hz; cbn [fst snd] in Hz.
  - by apply drives_done.
  - eapply drives_wait; [exact Hz| |].
    + intros [r' Hr']. destruct t1; [by destruct Hn; eexists|done..].
    + rewrite (respond_one nets i w s) by done. specialize (IH (with_conn i (answer_conn (nets i) s1) w)).
      rewrite with_conn_twice in IH. apply IH.
      * apply list_lookup_insert_eq. by eapply lookup_lt_Some.
      * intros j c Hne Hj. cbn in Hj. rewrite list_lookup_insert_ne in Hj by done. by apply (Hb j c).
Qed.

Lemma prompt_get_verified fuel address : prompt (get_verified fuel address).
Proof.
  apply prompt_bind; [apply prompt_atomic|]. intros id. apply prompt_bind; [exact I|]. intros bs.
  apply prompt_bind; [apply prompt_round_trip|]. intros pt. apply prompt_bind; [exact I|]. intros m. exact I.
Qed.

Lemma prompt_closest_peers fuel address : prompt (closest_peers fuel address).
Proof.
  apply prompt_bind; [apply prompt_atomic|]. intros id. apply prompt_bind; [exact I|]. intros bs.
  apply prompt_bind; [apply prompt_round_trip|]. intros pt. apply prompt_bind; [exact I|]. intros m.
  destruct (disc_body m); exact I.
Qed.

(** The peer whose turn it is has a connection, and the chunk. *)
Lemma drives_try_peers unicode_upper2 nets fuel address peer rest e i w ci c' content :
  pool w !! peer_id peer = Some i -> conns w !! i = Some ci -> only_busy i w ->
  drives (answer_conn (nets i)) (get_verified fuel address) ci c' (Ok content) ->
  drives (respond nets) (try_peers unicode_upper2 fuel address (peer :: rest) e) w (with_conn i c' w) (Ok content).
Proof.
  intros Hpool Hi Hb Hd. cbn [try_peers].
  assert (drives (respond nets)
    (r ← attempt (on_conn i (get_verified fuel address));
     match r with
     | Ok content => mret content
     | Err e => try_peers unicode_upper2 fuel address rest e
     | Panic => pure Panic
     end) w (with_conn i c' w) (Ok content)) as Hr.
  { eapply (drives_bind _ _ _ w (with_conn i c' w) _ (Ok content));
      [apply prompt_attempt, prompt_zoom, prompt_get_verified| |apply drives_pure].
    apply drives_attempt; [apply prompt_zoom, prompt_get_verified|done|]. by apply (drives_on_conn nets i _ ci). }
  eapply drives_poll; [|exact Hr]. unfold connection_for. rewrite poll_guarded_atomic, Hpool. reflexivity.
Qed.

Lemma drives_bootstrap {A} nets b (t : task NodeConnection A) c c' r w :
  bootstrap w = Some b -> conns w !! b = Some c -> only_busy b w ->
  drives (answer_conn (nets b)) t c c' r -> drives (respond nets) (on_bootstrap t) w (with_conn b c' w) r.
Proof.
  intros Hw Hc Hb Hd. unfold on_bootstrap. eapply (drives_bind _ _ _ w w); [apply prompt_atomic| |by eapply drives_on_conn].
  apply drives_atomic. unfold self_bootstrap. by rewrite Hw.
Qed.

(** C14: on a network whose nodes answer, a fetch ends, and with the chunk: if
    nothing else is under way, the bootstrap node answers discovery and the first
    peer it names, which has a connection, answers with the chunk, then
    [fetch_chunk], polled whenever the nodes have answered, ends with the
    chunk's content; the client has the same connections, and both are free
    and one number further. *)
Theorem fetch_served (unicode_upper2 : byte -> byte -> string) (fuel : nat) (nets : nat -> bytes -> bytes) (w : WasmClient)
    (address_hex : string) (address : arr 32) (b i : nat) (cb ci : NodeConnection) (peer : PeerConnectInfo)
    (rest : list PeerConnectInfo) (content : bytes)
    (Hfuel : (1 < fuel)%nat) (Haddress : parse_address address_hex = Ok address)
    (Hquiet : forall j c, conns w !! j = Some c -> request_lock c = false)
    (Hboot : bootstrap w = Some b) (Hcb : conns w !! b = Some cb) (Hnames : names_peers (nets b) cb address (peer :: rest))
    (Hpool : pool w !! peer_id peer = Some i) (Hne : i <> b)
    (Hci : conns w !! i = Some ci) (Hholds : holds_chunk (nets i) ci address content) :
  exists cb' ci', drives (respond nets) (fetch_chunk unicode_upper2 fuel address_hex) w
      (with_conn i ci' (with_conn b cb' w)) (Ok content) /\
    request_lock cb' = false /\ next_seq cb' = next_seq cb + 1 /\
    request_lock ci' = false /\ next_seq ci' = next_seq ci + 1.
Proof.
  destruct (drives_closest_peers fuel _ _ _ _ Hfuel Hnames) as (cb' & Hd1 & _ & Hl1 & Hn1).
  destruct (drives_get_verified fuel _ _ _ _ Hfuel Hholds) as (ci' & Hd2 & _ & Hl2 & Hn2).
  exists cb', ci'. split; [|by split_and!].
  assert (drives (respond nets) (on_bootstrap (closest_peers fuel address)) w (with_conn b cb' w) (Ok (peer :: rest))) as Hb.
  { eapply drives_bootstrap; [done..| |exact Hd1]. intros j c _ Hj. by eapply Hquiet. }
  unfold fetch_chunk. eapply (drives_bind _ _ _ w w); [exact I|rewrite Haddress; apply drives_pure|].
  unfold get_direct. eapply drives_bind; [|exact Hb|].
  { apply prompt_bind; [apply prompt_atomic|]. intros j. apply prompt_zoom, prompt_closest_peers. }
  rewrite bool_decide_false by done. eapply drives_try_peers; [exact Hpool| | |exact Hd2].
  - cbn. by rewrite list_lookup_insert_ne.
  - intros j c Hj Hl. cbn in Hl. apply list_lookup_insert_Some in Hl as [(-> & <- & _)|[_ Hl]]; [done|by eapply Hquiet].
Qed.
End Service.

(** ** Witness *)

Module Witnesses.
Import ToyCrypto Conn.Witnesses.
#[local] Existing Instances HexRef.hex_ref PostcardRef.postcard_ref PostcardRef.postcard_ref_laws
  Msgpack.msgpack Msgpack.msgpack_laws.

(** Two idle connections, the bootstrap connection and one in the pool. *)
Definition holder : PeerConnectInfo :=
  {| peer_id := pad 32 [x09]; ip := "1.2.3.4"; port := 4433; cert_hash := pad 32 [x0c] |}.
Definition two_conns : WasmClient := {|
  conns := [idle_conn 1; idle_conn 7]; bootstrap := Some 0%nat; pool := {[peer_id holder := 1%nat]}; chunks_fetched := 0;
  js_transport := open_transport []; js_seed := Tunnel.Witnesses.rng;
  js_pay := {| js_call := inr tt; js_promise := None |}; paid := [] |}.

Definition say_peers : DiscoveryMessage :=
  {| disc_request_id := 1; disc_body := ClosestResponse {| peers := [holder] |} |}.
Definition say_content : ChunkMessage :=
  {| request_id := 7; body := GetResponse (GetSuccess (blake3_hash content) content) |}.
Definition two_nodes (i : nat) (tagged : bytes) : bytes :=
  match i with
  | O => PROTO_DISCOVERY :: discovery_layout say_peers
  | _ => PROTO_CHUNK :: message_layout say_content
  end.

Lemma served_idle_conn net n tag (payload : Z -> res bytes) bs resp :
  0 <= n < MAX_SEQ -> payload n = Ok bs -> net (tag :: bs) = tag :: resp ->
  seal_request Tunnel.Witnesses.session n (tag :: bs) = Ok (client_envelope n (tag :: bs)) ->
  (List.length (split_messages (encode_frame (client_envelope n (tag :: bs)))) <=? 100)%nat = true ->
  server_seal Tunnel.Witnesses.session n (tag :: resp) = Some (node_reply n (tag :: resp)) ->
  frame_ok (node_reply n (tag :: resp)) ->
  served_on net (idle_conn n) tag payload resp.
Proof.
  intros Hn Hbs Hnet Henv Hroom Hreply Hok. split; [reflexivity..|exact Hn|].
  exists Tunnel.Witnesses.session, (pad 32 [x05]), bs, (client_envelope n (tag :: bs)), (node_reply n (tag :: resp)).
  split_and!; [reflexivity|exact Hbs|exact Henv|by apply Nat.leb_le|exact Hnet|exact Hreply|exact Hok].
Qed.

Lemma decode_layout m : @wire_ok _ wire_discovery m = true -> discovery_decode (discovery_layout m) = Ok m.
Proof. intros Hm. unfold discovery_decode. rewrite <- layout_discovery. by rewrite (postcard_decode_encode wire_discovery m Hm). Qed.

Lemma encode_layout m : @wire_ok _ wire_discovery m = true -> discovery_encode m = Ok (discovery_layout m).
Proof. intros Hm. unfold discovery_encode. rewrite <- layout_discovery. by rewrite (postcard_encode_ok wire_discovery m Hm). Qed.

Lemma decode_message m : @wire_ok _ wire_message m = true -> (len (message_layout m) <=? MAX_WIRE_MESSAGE_SIZE) = true ->
  message_decode (message_layout m) = Ok m.
Proof.
  intros Hm Hl%Z.leb_le. unfold message_decode. rewrite (proj2 (Z.ltb_ge _ _)) by done. rewrite <- layout_message.
  by rewrite (postcard_decode_encode wire_message m Hm).
Qed.

Lemma encode_message m : @wire_ok _ wire_message m = true -> message_encode m = Ok (message_layout m).
Proof. intros Hm. unfold message_encode. rewrite <- layout_message. by rewrite (postcard_encode_ok wire_message m Hm). Qed.

Lemma names_holder : names_peers (two_nodes 0) (idle_conn 1) (blake3_hash content) [holder].
Proof.
  exists (discovery_layout say_peers), say_peers. split; [|split; [|reflexivity]].
  - apply (served_idle_conn _ _ _ _ (discovery_layout
      {| disc_request_id := 1; disc_body := ClosestRequest {| closest_address := blake3_hash content |} |}));
      [done|by apply encode_layout|reflexivity|vm_compute; reflexivity..|by vm_compute].
  - by apply decode_layout.
Qed.

Lemma holds_content : holds_chunk (two_nodes 1) (idle_conn 7) (blake3_hash content) content.
Proof.
  exists (message_layout say_content), say_content. split; [|split].
  - apply (served_idle_conn _ _ _ _ (message_layout
      {| request_id := 7; body := GetRequest {| get_address := blake3_hash content |} |}));
      [done|by apply encode_message|reflexivity|vm_compute; reflexivity..|by vm_compute].
  - by apply decode_message.
  - unfold check_content, say_content. cbn [body]. by rewrite !bool_decide_true.
Qed.

Lemma fetch_served_witness : exists w',
  drives (respond two_nodes) (fetch_chunk no_case 2 (hex_encode (blake3_hash content))) two_conns w' (Ok content) /\
  runs client_env two_conns (fetch_chunk no_case 2 (hex_encode (blake3_hash content))) w' (Ok content).
Proof.
  destruct (fetch_served (CL := chacha_toy_laws) no_case 2 two_nodes two_conns (hex_encode (blake3_hash content))
    (blake3_hash content) 0 1 (idle_conn 1) (idle_conn 7) holder [] content) as (cb & ci & Hd & _).
  - lia.
  - apply (parse_address_hex (HL := HexRef.hex_ref_laws)).
  - intros [|[|j]] c Hc; [by injection Hc as <-..|discriminate Hc].
  - reflexivity.
  - reflexivity.
  - exact names_holder.
  - cbn [pool two_conns]. apply lookup_singleton_eq.
  - done.
  - reflexivity.
  - exact holds_content.
  - eexists. split; [exact Hd|]. eapply drives_runs; [|exact Hd]. apply respond_env.
Defined.
End Witnesses.
