(* ===== verification/Store.v ===== *)
(** * Paying for chunks and storing them ([src/lib.rs])

    [WasmClient::upload] and what it calls: quotes from the close group of
    each chunk, the two payment calls, and the PUTs.  The pure parts (checking
    a quote, the payment calls) are in the file [Quotes]. *)

From S2P Require Import Prelude Text Crates RefCrates Framing Sdp Serde Wire RefCodec Payment Evm Protocol.
From S2P Require Import Discovery Tunnel Retrieval Async Transport Conn Inputs Client Quotes.

(** [js_display]. *)
Definition js_display (value : JsValue) : string :=
  match as_string value with
  | Some s => s
  | None => match json value with Some s => s | None => "<non-string JS error>" end
  end.

Section Store.
Context `{Hex} `{Blake3} `{MlKem} `{MlDsa} `{ChaCha} `{Postcard} `{SelfEncryptor} `{Keccak} `{Rmp}.
Context (unicode_upper2 : byte -> byte -> string) (fuel : nat).

(** ** Requests to one node *)

Definition read_quote_response (b : ChunkMessageBody) : res (bytes * bool * option bytes) :=
  match b with
  | QuoteResponse (QuoteSuccess quote already_stored commitment) => Ok (quote, already_stored, commitment)
  | QuoteResponse (QuoteError e) => Err (fmt ["quote error: "; protocol_error_display e])
  | _ => Err "unexpected response to quote request"
  end.

Definition quote_request (address : arr 32) (data_size : Z) : ChunkMessage :=
  {| request_id := 1;
     body := QuoteRequest {| quote_address := address; data_size := data_size; data_type := DATA_TYPE_CHUNK |} |}.

Definition request_quote (address : arr 32) (data_size : Z) : task NodeConnection (bytes * bool * option bytes) :=
  response ← chunk_round_trip fuel (quote_request address data_size);
  pure (read_quote_response (body response)).

Definition read_put_response (b : ChunkMessageBody) : res bool :=
  match b with
  | PutResponse (PutSuccess _) | PutResponse (AlreadyExists _) => Ok true
  | PutResponse (PaymentRequired message) => Err (fmt ["payment required: "; message])
  | PutResponse (PutError e) => Err (fmt ["put error: "; protocol_error_display e])
  | _ => Err "unexpected response to put request"
  end.

Definition put_request (address : arr 32) (content proof_bytes : bytes) : ChunkMessage :=
  {| request_id := 1;
     body := PutRequest {| put_address := address; put_content := content; payment_proof := Some proof_bytes |} |}.

Definition put_chunk (address : arr 32) (content proof_bytes : bytes) : task NodeConnection bool :=
  response ← chunk_round_trip fuel (put_request address content proof_bytes);
  pure (read_put_response (body response)).

(** ** Quotes *)

Definition try_quote (peer : PeerConnectInfo) (address : arr 32) (data_size : Z) :
    task WasmClient (Quote * bool * option bytes) :=
  i ← connection_for unicode_upper2 fuel peer;
  response ← on_conn i (request_quote address data_size);
  let '(quote_bytes, already_stored, commitment) := response in
  quote ← pure (check_quote (peer_id peer) address quote_bytes);
  mret (quote, already_stored, commitment).

Record QuotedPeer : Type := {
  q_peer_id : arr 32;
  q_conn : nat;
  q_quote : Quote;
  q_commitment : option bytes;
}.

(** How the attempts at one peer end: the chunk is stored by a majority
    already, or the peer has quoted (with the count of flags so far), or not. *)
Inductive quote_outcome : Type :=
  | AlreadyStored
  | Quoted (q : QuotedPeer) (already_stored_count : nat)
  | NoQuote (last : string).

(** [self.pool.borrow_mut().remove(&peer.peer_id)], unless this was the last
    attempt. *)
Definition forget (attempt : nat) (peer : PeerConnectInfo) : st WasmClient unit := fun w =>
  ((if attempt + 1 <? QUOTE_ATTEMPTS then with_pool (delete (peer_id peer) (pool w)) w else w)%nat, Ok tt).

(** The loop over the attempts. *)
Fixpoint quote_attempts (attempts : list nat) (peer : PeerConnectInfo) (address : arr 32) (data_size : Z)
    (count : nat) (last : string) : task WasmClient quote_outcome :=
  match attempts with
  | [] => mret (NoQuote last)
  | attempt :: attempts =>
      r ← Async.attempt (try_quote peer address data_size);
      match r with
      | Ok (quote, already_stored, commitment) =>
          let count := if already_stored : bool then Datatypes.S count else count in
          if already_stored && (CLOSE_GROUP_MAJORITY <=? count)%nat then mret AlreadyStored else
          conn ← connection_for unicode_upper2 fuel peer;
          mret (Quoted {| q_peer_id := peer_id peer; q_conn := conn; q_quote := quote; q_commitment := commitment |} count)
      | Err e =>
          _ ← atomic (forget attempt peer);
          quote_attempts attempts peer address data_size count e
      | Panic => pure Panic
      end
  end.

(** The loop over the close group; [None] if the chunk is stored already. *)
Fixpoint quote_phase (peers : list PeerConnectInfo) (address : arr 32) (data_size : Z)
    (quoted : list QuotedPeer) (count : nat) : task WasmClient (option (list QuotedPeer)) :=
  match peers with
  | [] => mret (Some quoted)
  | peer :: peers =>
      o ← quote_attempts (seq 0 QUOTE_ATTEMPTS) peer address data_size count "no attempt";
      match o with
      | AlreadyStored => mret None
      | Quoted q count => quote_phase peers address data_size (quoted ++ [q]) count
      | NoQuote last =>
          pure (Err (fmt ["close-group peer "; hex_encode (peer_id peer); " did not give a valid quote for ";
                          hex_encode address; " after "; dec (Z.of_nat QUOTE_ATTEMPTS); " tries: "; last]))
      end
  end.

(** ** Payment *)

(** The call of [pay], recorded; then its promise. *)
Definition invoke_pay (call : string * string) : st WasmClient unit := fun w =>
  (with_paid (paid w ++ [call]) w,
   match js_call (js_pay w) with
   | inl e => Err (fmt ["pay callback threw: "; js_display e])
   | inr _ => Ok tt
   end).

Definition read_resolved (outcome : JsValue + JsValue) : res string :=
  match outcome with
  | inl e => Err (fmt ["pay callback rejected: "; js_display e])
  | inr v => ok_or (as_string v) "pay callback did not resolve to a string tx hash"
  end.

Definition call_pay (call : string * string) : task WasmClient string :=
  _ ← atomic (invoke_pay call);
  Yield (Await (fun w => outcome ← js_promise (js_pay w); Some (w, Done (read_resolved outcome)))).

(** ** PUT *)

(** The loop over the attempts: whether the peer accepted, and the last
    error. *)
Fixpoint put_attempts (attempts : list nat) (conn : nat) (address : arr 32) (content proof_bytes : bytes)
    (last_err : string) : task WasmClient (bool * string) :=
  match attempts with
  | [] => mret (false, last_err)
  | _ :: attempts =>
      r ← Async.attempt (on_conn conn (put_chunk address content proof_bytes));
      match r with
      | Ok accepted => mret (accepted, last_err)
      | Err e => put_attempts attempts conn address content proof_bytes e
      | Panic => pure Panic
      end
  end.

Fixpoint put_phase (quoted : list QuotedPeer) (address : arr 32) (content proof_bytes : bytes)
    (accepted : nat) (last_err : string) : task WasmClient (nat * string) :=
  match quoted with
  | [] => mret (accepted, last_err)
  | peer :: quoted =>
      r ← put_attempts (seq 0 QUOTE_ATTEMPTS) (q_conn peer) address content proof_bytes last_err;
      let '(ok, last_err) := r in
      put_phase quoted address content proof_bytes (if ok : bool then Datatypes.S accepted else accepted) last_err
  end.

(** ** One chunk *)

Definition peer_quotes_of (quoted : list QuotedPeer) : list (arr 32 * Quote) := map (fun q => (q_peer_id q, q_quote q)) quoted.

(** The proof that accompanies the PUTs. *)
Definition proof_for (quoted : list QuotedPeer) (tx_hash : arr 32) : res bytes :=
  let sidecars := omap q_commitment quoted in
  map_err (fun e => fmt ["proof serialize failed: "; PaymentError_fmt e])
    (serialize_single_node_proof (peer_quotes_of quoted) tx_hash sidecars).

(** [store_one], after the quotes. *)
Definition pay_and_put (address : arr 32) (content : bytes) (token vault : arr 20) (quoted : list QuotedPeer) :
    task WasmClient unit :=
  payments ← pure (payment_split (map q_quote quoted));
  _ ← call_pay (approve_call token vault payments);
  tx_hex ← call_pay (pay_call vault payments);
  tx_hash ← pure (parse_tx_hash tx_hex);
  proof_bytes ← pure (proof_for quoted tx_hash);
  r ← put_phase quoted address content proof_bytes 0 EmptyString;
  let '(accepted, last_err) := r in
  if (accepted <? CLOSE_GROUP_MAJORITY)%nat
  then pure (Err (fmt ["chunk "; hex_encode address; " accepted by only "; dec (Z.of_nat accepted); " of ";
                       dec (Z.of_nat CLOSE_GROUP_SIZE); " peers: "; last_err]))
  else mret tt.

Definition store_one (address : arr 32) (content : bytes) (token vault : arr 20) : task WasmClient unit :=
  peers ← on_bootstrap (closest_peers fuel address);
  if (List.length peers <? CLOSE_GROUP_SIZE)%nat
  then pure (Err (fmt ["need at least "; dec (Z.of_nat CLOSE_GROUP_SIZE); " responsible peers for "; hex_encode address;
                       ", discovery returned "; dec (len peers)]))
  else
  quoted ← quote_phase (take CLOSE_GROUP_SIZE peers) address (len content) [] 0;
  match quoted with
  | None => mret tt
  | Some quoted => pay_and_put address content token vault quoted
  end.

(** ** A file *)

(** What [upload] stores, in order, and the address of the last item, the data
    map. *)
Definition upload_items (data : bytes) : res (list (arr 32 * bytes) * arr 32) :=
  '(data_map, chunks) ← map_err (fun e => fmt ["self-encryption failed: "; e]) (encrypt data);
  let items := map (fun c => (blake3_hash (Crates.content c), Crates.content c)) chunks in
  '(shrunk, stored) ← map_err (fun e => fmt ["data map shrink failed: "; e]) (shrink_data_map data_map);
  let items := items ++ stored in
  map_bytes ← map_err (fun e => fmt ["data map serialize failed: "; e]) (data_map_to_vec shrunk);
  let map_address := blake3_hash map_bytes in
  mret (items ++ [(map_address, map_bytes)], map_address).

Fixpoint store_all (items : list (arr 32 * bytes)) (token vault : arr 20) : task WasmClient unit :=
  match items with
  | [] => mret tt
  | (address, content) :: items =>
      _ ← store_one address content token vault;
      store_all items token vault
  end.

Definition upload (data : bytes) (token_addr_hex vault_addr_hex : string) : task WasmClient string :=
  token ← pure (parse_eth_address token_addr_hex);
  vault ← pure (parse_eth_address vault_addr_hex);
  items ← pure (upload_items data);
  let '(items, map_address) := items in
  _ ← store_all items token vault;
  mret (hex_encode (map_address : arr 32)).

(** ** What a stored chunk rests on *)

(** The node [id] has answered a request for a quote for [address] with a
    verified one; [flag] is its word on whether the chunk is there already. *)
Definition has_quoted (w : WasmClient) (address id : arr 32) (size : Z) (q : Quote) (flag : bool) : Prop :=
  exists i rid quote_bytes commitment,
    replied w i id (AskChunk (quote_request address size))
      (Response {| request_id := rid; body := QuoteResponse (QuoteSuccess quote_bytes flag commitment) |}) /\
    parse_quote quote_bytes = Ok q /\ verified_quote address id q.

(** The node [id] has answered the PUT of this chunk, with this proof, with
    acceptance. *)
Definition has_accepted (w : WasmClient) (address : arr 32) (content proof_bytes : bytes) (id : arr 32) : Prop :=
  exists i rid r, replied w i id (AskChunk (put_request address content proof_bytes))
      (Response {| request_id := rid; body := PutResponse r |}) /\
    exists a, r = PutSuccess a \/ r = AlreadyExists a.

(** Some of the listed entries; the same node may be listed more than once. *)
Definition entries (P : arr 32 -> Prop) (n : nat) (ids : list (arr 32)) : Prop :=
  exists l, l `sublist_of` ids /\ (n <= List.length l)%nat /\ Forall P l.

(** Entries of the close group that a node has listed have vouched that the
    chunk is there; or the whole group has quoted, the two payment calls have been
    made in order, and enough entries have accepted the chunk together with the
    proof for them. *)
Definition stored (w : WasmClient) (token vault : arr 20) (address : arr 32) (content : bytes) : Prop :=
  exists infos, discovered w address infos /\
  let group := map peer_id (take CLOSE_GROUP_SIZE infos) in
  (entries (fun id => exists q, has_quoted w address id (len content) q true) CLOSE_GROUP_MAJORITY group \/
   exists quoted payments tx_hash proof_bytes,
     settles address (peer_quotes_of quoted) payments /\ map q_peer_id quoted = group /\
     Forall (fun q => exists flag, has_quoted w address (q_peer_id q) (len content) (q_quote q) flag) quoted /\
     [approve_call token vault payments; pay_call vault payments] `sublist_of` paid w /\
     proof_for quoted tx_hash = Ok proof_bytes /\
     entries (has_accepted w address content proof_bytes) CLOSE_GROUP_MAJORITY group).

Lemma has_quoted_evolves w w' address id size q flag :
  client_evolves w w' -> has_quoted w address id size q flag -> has_quoted w' address id size q flag.
Proof.
  intros Hw (i & rid & qb & com & Hs & Hq). exists i, rid, qb, com. split; [by eapply replied_evolves|done].
Qed.

Lemma has_accepted_evolves w w' address content proof id :
  client_evolves w w' -> has_accepted w address content proof id -> has_accepted w' address content proof id.
Proof. intros Hw (i & rid & r & Hs & Ha). exists i, rid, r. split; [by eapply replied_evolves|done]. Qed.

Lemma entries_mono (P Q : arr 32 -> Prop) n ids ids' :
  (forall id, P id -> Q id) -> ids `sublist_of` ids' -> entries P n ids -> entries Q n ids'.
Proof.
  intros HPQ Hsub (l & Hl & Hn & HF). exists l. split; [by etrans|]. split; [done|]. by eapply Forall_impl.
Qed.

Lemma stored_evolves w w' token vault address content :
  client_evolves w w' -> stored w token vault address content -> stored w' token vault address content.
Proof.
  intros Hw (infos & Hd & Hs). exists infos. split; [by eapply discovered_evolves|].
  destruct Hs as [Hs|(quoted & payments & tx & proof & Hset & Hids & Hq & Hpaid & Hproof & Hs)]; [left|right].
  - eapply entries_mono; [|done|exact Hs]. intros id (q & Hq). exists q. by eapply has_quoted_evolves.
  - exists quoted, payments, tx, proof. split_and!; [done|done| | |done|].
    + eapply Forall_impl; [exact Hq|]. intros q (flag & Hf). exists flag. by eapply has_quoted_evolves.
    + destruct Hw as (_ & _ & (l & ->)). etrans; [exact Hpaid|]. by apply sublist_inserts_r.
    + eapply entries_mono; [|done|exact Hs]. intros id. by apply has_accepted_evolves.
Qed.

(** ** Specifications *)

Context `{PL : !PostcardLaws} `{KL : !MlKemLaws} `{HL : !HexLaws} `{RL : !RmpLaws}.
#[local] Abbreviation wspec := (spec client_inv client_evolves wcell).
#[local] Abbreviation cspec := (spec conn_inv evolves (private_cell busy cprivate)).

(** A chunk request to one node, and a reader of its response. *)
Lemma chunk_request_spec {A} (m : ChunkMessage) (read : ChunkMessageBody -> res A) i id w0 :
  authenticated w0 i id -> (forall b, read b <> Panic) ->
  wspec w0 (on_conn i (response ← chunk_round_trip fuel m; pure (read (body response))))
    (fun r w => forall a, r = Ok a -> exists response,
       replied w i id (AskChunk m) (Response response) /\ read (body response) = Ok a).
Proof.
  intros Hi Hread. apply (on_authenticated i id _ w0 (fun k r c => forall a, r = Ok a -> exists response,
    proper_reply k (sealed c) (AskChunk m) (Response response) /\ read (body response) = Ok a)); [done| |].
  - intros c k Hs. eapply spec_bind; [apply _|apply (chunk_round_trip_safe fuel m (k, id) c Hs)|..].
    + intros response c1 HG _ Hr. apply spec_done; [apply Hread|]. intros c2 HG2 _ a Ha. exists response. split; [|done].
      eapply proper_reply_grows; [|by apply Hr]. apply (HG2 (k, id)). by apply (HG (k, id)).
    + by intros e c1 _ _ _ a.
  - intros r w c k _ Hc Hs Hh Hr a Ha. destruct (Hr a Ha) as (response & Hp & Hread'). exists response.
    split; [|done]. by exists c, k.
Qed.

Lemma read_quote_response_total b : read_quote_response b <> Panic.
Proof. destruct b as [| | | | |[]| |]; done. Qed.

Lemma read_quote_response_Ok b quote flag commitment :
  read_quote_response b = Ok (quote, flag, commitment) -> b = QuoteResponse (QuoteSuccess quote flag commitment).
Proof. destruct b as [| | | | |[]| |]; try done. by intros [= <- <- <-]. Qed.

Lemma read_put_response_total b : read_put_response b <> Panic.
Proof. destruct b as [|[]| | | | | |]; done. Qed.

(** A reader that says [Ok] says [Ok true]. *)
Lemma read_put_response_Ok b accepted :
  read_put_response b = Ok accepted ->
  accepted = true /\ exists a, b = PutResponse (PutSuccess a) \/ b = PutResponse (AlreadyExists a).
Proof. destruct b as [|[]| | | | | |]; try done; intros [= <-]; (split; [done|]); eexists; by (left + right). Qed.

Lemma try_quote_spec peer address size w0 :
  wspec w0 (try_quote peer address size)
    (fun r w => forall q flag com, r = Ok (q, flag, com) -> has_quoted w address (peer_id peer) size q flag).
Proof.
  unfold try_quote. eapply spec_bind; [apply _|by apply connection_for_spec| |done].
  intros i w _ _ Hi. eapply spec_bind; [apply _|apply chunk_request_spec; [by apply Hi|apply read_quote_response_total]| |done].
  intros [[qb flag] com] w1 _ _ Hr. destruct (Hr _ eq_refl) as ([rid b] & Hrep & Hb). cbn [body] in Hb.
  apply read_quote_response_Ok in Hb as ->.
  apply spec_pure; [apply check_quote_total| |done]. intros q Hq. apply check_quote_Ok in Hq as [Hq Hv].
  apply spec_done; [done|]. intros w2 HG2 _ q' flag' com' [= <- <- <-]. exists i, rid, qb, com.
  split; [by eapply replied_evolves|done].
Qed.

(** Forgetting a connection. *)
Lemma forget_spec {B} attempt peer (g : unit -> task WasmClient B) w0 (P : res B -> WasmClient -> Prop) :
  (forall w, client_evolves w0 w -> wspec w (g tt) P) -> wspec w0 (atomic (forget attempt peer) ≫= g) P.
Proof.
  intros Hg. apply spec_atomic. intros w HG HI. unfold forget. case_match; [|split_and!; [done..|by apply Hg]].
  assert (client_evolves w (with_pool (delete (peer_id peer) (pool w)) w)) as Hev.
  { split_and!; [done| |done]. intros j cj Hj. by exists cj. }
  split; [|split; [exact Hev|]; split; [done|]; apply Hg; by etrans].
  destruct HI as (Hc & Hp & Hb & Hbill). split_and!; [done| |done|done].
  intros id i Hi. cbn in Hi. apply lookup_delete_Some in Hi as [_ Hi]. by apply Hp.
Qed.

(** One more entry, vouched for or not. *)
Definition flagged (w : WasmClient) (address : arr 32) (size : Z) (id : arr 32) : Prop :=
  exists q, has_quoted w address id size q true.

Definition good_quote (w : WasmClient) (address : arr 32) (size : Z) (q : QuotedPeer) : Prop :=
  exists flag, has_quoted w address (q_peer_id q) size (q_quote q) flag.

Definition outcome_ok (w : WasmClient) (peer : PeerConnectInfo) (address : arr 32) (size : Z) (count : nat)
    (o : quote_outcome) : Prop :=
  match o with
  | AlreadyStored => (CLOSE_GROUP_MAJORITY <= Datatypes.S count)%nat /\ flagged w address size (peer_id peer)
  | Quoted q count' =>
      q_peer_id q = peer_id peer /\ authenticated w (q_conn q) (peer_id peer) /\ good_quote w address size q /\
      (count' = count \/ count' = Datatypes.S count /\ flagged w address size (peer_id peer))
  | NoQuote _ => True
  end.

Lemma quote_attempts_spec peer address size count attempts : forall last w0,
  wspec w0 (quote_attempts attempts peer address size count last)
    (fun r w => forall o, r = Ok o -> outcome_ok w peer address size count o).
Proof.
  induction attempts as [|attempt attempts IH]; intros last w0; cbn [quote_attempts].
  { apply spec_done; [done|]. by intros w _ _ o [= <-]. }
  eapply spec_bind; [apply _|apply spec_attempt, try_quote_spec|..]; [apply _| |].
  2: { intros e w _ _ (r & [=] & _). }
  intros rr w _ _ (r & [= <-] & Hp & Hr). destruct rr as [[[q flag] com]|e|]; [| |done].
  2: { apply forget_spec. intros w1 _. apply IH. }
  pose proof (Hr q flag com eq_refl) as Hq.
  destruct (flag && _) eqn:Hflag.
  - apply andb_true_iff in Hflag as [-> Hcount%Nat.leb_le]. apply spec_done; [done|]. intros w1 HG1 _ o [= <-].
    split; [done|]. exists q. by eapply has_quoted_evolves.
  - eapply spec_bind; [apply _|by apply connection_for_spec| |done].
    intros i w1 HG1 _ Hi. apply spec_done; [done|]. intros w2 HG2 _ o [= <-].
    assert (client_evolves w w2) as HG by (by etrans). cbn [outcome_ok q_peer_id q_conn]. split_and!; [done| | |].
    + eapply authenticated_evolves; [exact HG2|by apply Hi].
    + exists flag. by eapply has_quoted_evolves.
    + destruct flag; [right|by left]. split; [done|]. exists q. by eapply has_quoted_evolves.
Qed.

(** What the quote phase has collected after some peers. *)
Record collected (w : WasmClient) (address : arr 32) (size : Z) (ids : list (arr 32)) (quoted : list QuotedPeer)
    (count : nat) : Prop := {
  col_ids : map q_peer_id quoted = ids;
  col_conns : Forall (fun q => authenticated w (q_conn q) (q_peer_id q)) quoted;
  col_quotes : Forall (good_quote w address size) quoted;
  col_flags : entries (flagged w address size) count ids;
}.

Lemma flagged_evolves w w' address size id : client_evolves w w' -> flagged w address size id -> flagged w' address size id.
Proof. intros Hw (q & Hq). exists q. by eapply has_quoted_evolves. Qed.

Lemma good_quote_evolves w w' address size q : client_evolves w w' -> good_quote w address size q -> good_quote w' address size q.
Proof. intros Hw (flag & Hq). exists flag. by eapply has_quoted_evolves. Qed.

Lemma collected_evolves w w' address size ids quoted count :
  client_evolves w w' -> collected w address size ids quoted count -> collected w' address size ids quoted count.
Proof.
  intros Hw [Hids Hconns Hq Hf]. split; [done|..].
  - eapply Forall_impl; [exact Hconns|]. intros q. by apply authenticated_evolves.
  - eapply Forall_impl; [exact Hq|]. intros q. by apply good_quote_evolves.
  - eapply entries_mono; [|done|exact Hf]. intros id. by apply flagged_evolves.
Qed.

Lemma entries_snoc (P : arr 32 -> Prop) n ids id : entries P n ids -> P id -> entries P (Datatypes.S n) (ids ++ [id]).
Proof.
  intros (l & Hl & Hn & HF) HP. exists (l ++ [id]). split; [by apply sublist_app|].
  split; [rewrite length_app; cbn; lia|]. apply Forall_app. split; [done|by repeat constructor].
Qed.

Lemma entries_skip (P : arr 32 -> Prop) n ids id : entries P n ids -> entries P n (ids ++ [id]).
Proof. intros. eapply entries_mono; [by intros| |done]. by apply sublist_inserts_r. Qed.

Lemma collected_snoc w peer address size ids quoted count q count' :
  collected w address size ids quoted count -> outcome_ok w peer address size count (Quoted q count') ->
  collected w address size (ids ++ [peer_id peer]) (quoted ++ [q]) count'.
Proof.
  intros [Hids Hconns Hq Hf] (Hid & Hconn & Hg & Hcount). split.
  - rewrite map_app. cbn [map]. by rewrite Hids, Hid.
  - apply Forall_app. split; [done|]. constructor; [|done]. by rewrite Hid.
  - apply Forall_app. split; [done|by constructor].
  - destruct Hcount as [->|[-> Hflag]]; [by apply entries_skip|by apply entries_snoc].
Qed.

Lemma quote_phase_spec address size peers : forall ids quoted count w0,
  collected w0 address size ids quoted count ->
  wspec w0 (quote_phase peers address size quoted count)
    (fun r w => forall o, r = Ok o -> match o with
       | None => entries (flagged w address size) CLOSE_GROUP_MAJORITY (ids ++ map peer_id peers)
       | Some quoted' => exists count', collected w address size (ids ++ map peer_id peers) quoted' count'
       end).
Proof.
  induction peers as [|peer peers IH]; intros ids quoted count w0 Hcol; cbn [quote_phase].
  { apply spec_done; [done|]. intros w HG _ o [= <-]. exists count. cbn [map]. rewrite app_nil_r.
    by eapply collected_evolves. }
  eapply spec_bind; [apply _|apply quote_attempts_spec| |done].
  intros o w HG _ Ho. pose proof (collected_evolves _ _ _ _ _ _ _ HG Hcol) as Hcol'.
  destruct o as [|q count'|last]; [| |by apply spec_done].
  - destruct (Ho _ eq_refl) as [Hcount Hflag]. apply spec_done; [done|]. intros w1 HG1 _ o [= <-].
    destruct Hcol' as [_ _ _ Hf].
    eapply (entries_mono (flagged w address size)) with (ids := ids ++ [peer_id peer]).
    { intros id. by apply flagged_evolves. }
    { cbn [map]. apply sublist_app; [done|]. apply sublist_skip, sublist_nil_l. }
    destruct (entries_snoc _ _ _ _ Hf Hflag) as (l & Hl & Hn & HF). exists l. split; [done|]. split; [lia|done].
  - pose proof (collected_snoc _ _ _ _ _ _ _ _ _ Hcol' (Ho _ eq_refl)) as Hcol2.
    eapply spec_mono; [apply _|reflexivity| |by apply (IH (ids ++ [peer_id peer]))].
    intros r w1 _ _ Hr o Hor. specialize (Hr o Hor). cbn [map]. by rewrite <- app_assoc in Hr.
Qed.

(** *** Payment *)

Lemma read_resolved_total outcome : read_resolved outcome <> Panic.
Proof. destruct outcome as [e|v]; [done|]. cbn. by destruct (as_string v). Qed.

Lemma call_pay_spec call w0 :
  (forall w, client_evolves w0 w -> justified (paid w) -> justified (paid w ++ [call])) ->
  wspec w0 (call_pay call)
    (fun r w => forall tx, r = Ok tx -> exists l, paid w0 `prefix_of` l /\ l ++ [call] `prefix_of` paid w).
Proof.
  intros Hj. unfold call_pay. apply spec_atomic. intros w HG HI. unfold invoke_pay.
  set (w' := with_paid (paid w ++ [call]) w).
  assert (client_evolves w w') as Hev.
  { split_and!; [done| |by apply prefix_app_r]. intros j cj Hcj. by exists cj. }
  split; [|split; [done|split; [done|]]].
  { destruct HI as (Hc & Hp & Hb & Hbill). split_and!; [done..|]. by apply Hj. }
  destruct (js_call (js_pay w)) as [e|[]]; [by intros w1 _ _ tx|].
  intros w1 HG1 HI1 Ho. destruct (js_promise (js_pay w1)) as [outcome|]; [|done]. cbn [mbind option_bind].
  exists ∅. split; [done|]. split; [done|]. split; [apply guar_refl; apply _|].
  apply (spec_done _ _ _ _ w1); [apply read_resolved_total|]. intros w2 HG2 _ tx _. exists (paid w).
  split; [apply HG|]. etrans; [apply HG1|apply HG2].
Qed.

(** *** PUT *)

Lemma put_attempts_spec address content proof i id attempts : forall last_err w0,
  authenticated w0 i id ->
  wspec w0 (put_attempts attempts i address content proof last_err)
    (fun r w => forall last, r = Ok (true, last) -> has_accepted w address content proof id).
Proof.
  induction attempts as [|attempt attempts IH]; intros last_err w0 Hi; cbn [put_attempts].
  { apply spec_done; [done|]. by intros w _ _ last. }
  eapply spec_bind; [apply _|apply spec_attempt, (chunk_request_spec _ _ _ _ _ Hi read_put_response_total)|..]; [apply _| |].
  2: { intros e w _ _ (r & [=] & _). }
  intros rr w HG _ (r & [= <-] & Hp & Hr). destruct rr as [accepted|e|]; [| |done].
  - destruct (Hr _ eq_refl) as ([rid b] & Hrep & Hb). cbn [body] in Hb.
    apply read_put_response_Ok in Hb as (-> & a & Hb). apply spec_done; [done|]. intros w1 HG1 _ last _.
    destruct Hb as [->| ->]; exists i, rid; eexists; (split; [by eapply replied_evolves|]); exists a; by (left + right).
  - apply IH. by eapply authenticated_evolves.
Qed.

Lemma put_phase_spec address content proof quoted : forall ids accepted last_err w0,
  Forall (fun q => authenticated w0 (q_conn q) (q_peer_id q)) quoted ->
  entries (has_accepted w0 address content proof) accepted ids ->
  wspec w0 (put_phase quoted address content proof accepted last_err)
    (fun r w => forall n last, r = Ok (n, last) ->
       entries (has_accepted w address content proof) n (ids ++ map q_peer_id quoted)).
Proof.
  induction quoted as [|q quoted IH]; intros ids accepted last_err w0 Hconns Hacc; cbn [put_phase].
  { apply spec_done; [done|]. intros w HG _ n last [= <- _]. cbn [map]. rewrite app_nil_r.
    eapply entries_mono; [|done|exact Hacc]. intros id. by apply has_accepted_evolves. }
  apply Forall_cons in Hconns as [Hi Hconns].
  eapply spec_bind; [apply _|by apply put_attempts_spec| |done].
  intros [ok last] w HG _ Hr.
  assert (entries (has_accepted w address content proof) accepted ids) as Hacc'.
  { eapply entries_mono; [|done|exact Hacc]. intros id. by apply has_accepted_evolves. }
  eapply spec_mono; [apply _|reflexivity| |apply (IH (ids ++ [q_peer_id q]))].
  - intros r w1 _ _ Hr1 n last1 Hn. specialize (Hr1 n last1 Hn). cbn [map]. by rewrite <- app_assoc in Hr1.
  - eapply Forall_impl; [exact Hconns|]. intros q'. by apply authenticated_evolves.
  - destruct ok; [apply entries_snoc; [done|by eapply Hr]|by apply entries_skip].
Qed.

(** *** One chunk *)

Lemma good_quote_verified w address size q : good_quote w address size q -> verified_quote address (q_peer_id q) (q_quote q).
Proof. by intros (flag & i & rid & qb & com & _ & _ & Hv). Qed.

Lemma collected_settles w address size ids quoted count payments :
  collected w address size ids quoted count -> List.length ids = CLOSE_GROUP_SIZE ->
  payment_split (map q_quote quoted) = Ok payments -> settles address (peer_quotes_of quoted) payments.
Proof.
  intros [Hids _ Hq _] Hl Hs. split; [split|].
  - unfold peer_quotes_of. by rewrite length_map, <- Hl, <- Hids, length_map.
  - apply Forall_map. eapply Forall_impl; [exact Hq|]. intros q. apply good_quote_verified.
  - unfold peer_quotes_of. by rewrite map_map.
Qed.

(** Both calls, in order. *)
Lemma paid_in_order (c1 c2 : string * string) l l' p1 p2 :
  l ++ [c1] `prefix_of` p1 -> p1 `prefix_of` l' -> l' ++ [c2] `prefix_of` p2 -> [c1; c2] `sublist_of` p2.
Proof.
  intros Hl Hp [k ->]. assert (l ++ [c1] `prefix_of` l') as [k' ->] by (by etrans).
  apply sublist_inserts_r. apply (sublist_app [c1] _ [c2]); [|done]. apply sublist_inserts_r.
  by apply sublist_inserts_l.
Qed.

Lemma payment_split_total quotes : payment_split quotes <> Panic.
Proof.
  destruct (Z.eq_dec (len quotes) 7) as [Hl|Hl].
  - destruct (payment_split_seven quotes Hl) as (m & mq & _ & _ & Hs). by rewrite Hs.
  - unfold payment_split. rewrite (proj2 (Z.eqb_neq _ _)) by done. done.
Qed.

Lemma proof_for_total quoted tx_hash : proof_for quoted tx_hash <> Panic.
Proof.
  unfold proof_for. rewrite map_err_Panic. unfold serialize_single_node_proof, encode_proof. intros Hp.
  apply bind_Panic in Hp as [Hp|(bs & _ & Hp)]; [|done]. rewrite map_err_Panic in Hp. by apply rmp_write_total in Hp.
Qed.

Lemma parse_tx_hash_total text : parse_tx_hash text <> Panic.
Proof. apply parse_hex_total. Qed.

Lemma pay_and_put_spec address content token vault infos quoted count w0 :
  discovered w0 address infos -> (CLOSE_GROUP_SIZE <= List.length infos)%nat ->
  collected w0 address (len content) (map peer_id (take CLOSE_GROUP_SIZE infos)) quoted count ->
  wspec w0 (pay_and_put address content token vault quoted)
    (fun r w => r = Ok tt -> stored w token vault address content).
Proof.
  intros Hd Hlen Hcol. unfold pay_and_put.
  apply spec_pure; [apply payment_split_total| |done]. intros payments Hs.
  assert (settles address (peer_quotes_of quoted) payments) as Hset.
  { eapply collected_settles; [exact Hcol| |exact Hs]. rewrite length_map, length_take. lia. }
  eapply spec_bind; [apply _|apply call_pay_spec| |done].
  { intros w _ Hj. by eapply justified_approve. }
  intros tx1 w1 HG1 _ Hp1. destruct (Hp1 tx1 eq_refl) as (l1 & _ & Hl1).
  eapply spec_bind; [apply _|apply call_pay_spec| |done].
  { intros w HG Hj. eapply justified_pay; [done|exact Hset|]. destruct HG as (_ & _ & Hpre).
    destruct Hl1 as [k Hk], Hpre as [k' Hk']. rewrite Hk', Hk. apply elem_of_app. left. apply elem_of_app. left.
    apply elem_of_app. right. by apply list_elem_of_singleton. }
  intros tx2 w2 HG2 _ Hp2. destruct (Hp2 tx2 eq_refl) as (l2 & Hl2 & Hl2').
  pose proof (paid_in_order _ _ _ _ _ _ Hl1 Hl2 Hl2') as Hpaid.
  apply spec_pure; [apply parse_tx_hash_total| |done]. intros tx_hash _.
  apply spec_pure; [apply proof_for_total| |done]. intros proof Hproof.
  assert (client_evolves w0 w2) as HG by (by etrans).
  pose proof (collected_evolves _ _ _ _ _ _ _ HG Hcol) as [Hids Hconns Hquotes _].
  eapply spec_bind; [apply _|apply (put_phase_spec address content proof quoted [] 0 EmptyString w2 Hconns)| |done].
  { exists []. by split_and!. }
  intros [accepted last] w3 HG3 _ Hr. specialize (Hr _ _ eq_refl). cbn [app] in Hr.
  case_match eqn:Hacc; [by apply spec_done|]. apply Nat.ltb_ge in Hacc. apply spec_done; [done|]. intros w4 HG4 _ _.
  assert (client_evolves w2 w4) as HG24 by (by etrans).
  eapply stored_evolves; [exact HG4|]. exists infos. split.
  { eapply discovered_evolves; [|exact Hd]. etrans; [exact HG|exact HG3]. }
  right. exists quoted, payments, tx_hash, proof. split_and!; [done|done| | |done|].
  - eapply Forall_impl; [exact Hquotes|]. intros q. by apply good_quote_evolves.
  - destruct HG3 as (_ & _ & [k ->]). by apply sublist_inserts_r.
  - rewrite Hids in Hr. destruct Hr as (l & Hl & Hn & HF). exists l. split; [done|]. split; [lia|done].
Qed.

Lemma store_one_spec address content token vault w0 :
  ready w0 ->
  wspec w0 (store_one address content token vault) (fun r w => r = Ok tt -> stored w token vault address content).
Proof.
  intros Hr. unfold store_one. eapply spec_bind; [apply _|by apply peers_spec| |done].
  intros infos w HG _ Hd. specialize (Hd _ eq_refl).
  case_match eqn:Hlen; [by apply spec_done|]. apply Nat.ltb_ge in Hlen.
  eapply spec_bind; [apply _|apply (quote_phase_spec address (len content) _ [] [] 0)| |done].
  { split; [done|constructor|constructor|]. exists []. by split_and!. }
  intros o w1 HG1 _ Ho. specialize (Ho _ eq_refl). cbn [app] in Ho.
  pose proof (discovered_evolves _ _ _ _ HG1 Hd) as Hd1.
  destruct o as [quoted|]; [destruct Ho as (count & Hcol); by eapply pay_and_put_spec|].
  apply spec_done; [done|]. intros w2 HG2 _ _. eapply stored_evolves; [exact HG2|]. exists infos. split; [done|by left].
Qed.

(** *** A file *)

Context `{SL : !SelfEncryptionLaws} `{EL : !SelfEncryptorLaws}.

(** What [upload_items] has made: the chunks, what shrinking the map has
    stored, and the map. *)
Lemma upload_items_Ok data items address :
  upload_items data = Ok (items, address) ->
  exists m cs m' stored bs,
    encrypt data = Ok (m, cs) /\ shrink_data_map m = Ok (m', stored) /\ data_map_to_vec m' = Ok bs /\
    address = blake3_hash bs /\
    items = (map (fun c => (blake3_hash (Crates.content c), Crates.content c)) cs ++ stored) ++ [(address, bs)].
Proof.
  unfold upload_items. intros Hu. apply bind_Ok in Hu as ([m cs] & He%map_err_Ok & Hu).
  apply bind_Ok in Hu as ([m' l] & Hs%map_err_Ok & Hu). apply bind_Ok in Hu as (bs & Hb%map_err_Ok & Hu).
  injection Hu as <- <-. by exists m, cs, m', l, bs.
Qed.

Lemma upload_items_total data : upload_items data <> Panic.
Proof.
  unfold upload_items. intros Hu. apply bind_Panic in Hu as [Hu|([m cs] & _ & Hu)].
  { rewrite map_err_Panic in Hu. by apply encrypt_total in Hu. }
  apply bind_Panic in Hu as [Hu|([m' l] & _ & Hu)].
  { rewrite map_err_Panic in Hu. by apply shrink_total in Hu. }
  apply bind_Panic in Hu as [Hu|(bs & _ & Hu)]; [|done]. rewrite map_err_Panic in Hu. by apply data_map_to_vec_total in Hu.
Qed.

Lemma upload_items_hashes data items address :
  upload_items data = Ok (items, address) -> Forall (fun it => blake3_hash it.2 = it.1) items.
Proof.
  intros (m & cs & m' & l & bs & _ & Hs & _ & -> & ->)%upload_items_Ok.
  repeat (apply Forall_app; split); [|by eapply shrink_names|by repeat constructor].
  by apply Forall_map, Forall_true.
Qed.

Lemma parse_eth_address_total text : parse_eth_address text <> Panic.
Proof. apply parse_hex_total. Qed.

Lemma store_all_spec token vault items : forall w0,
  ready w0 ->
  wspec w0 (store_all items token vault)
    (fun r w => r = Ok tt -> Forall (fun it => stored w token vault it.1 it.2) items).
Proof.
  induction items as [|[address content] items IH]; intros w0 Hr; cbn [store_all].
  { apply spec_done; [done|]. intros w _ _ _. constructor. }
  eapply spec_bind; [apply _|by apply store_one_spec| |done].
  intros [] w HG _ Hs. specialize (Hs eq_refl).
  eapply spec_mono; [apply _|reflexivity| |apply IH; by eapply ready_evolves].
  intros r w1 HG1 _ Hr1 Hok. constructor; [by eapply stored_evolves|by apply Hr1].
Qed.

(** A finished upload has stored every chunk of the file and its data map,
    whose address it gives. *)
Definition upload_post (data : bytes) (token_hex vault_hex : string) (r : res string) (w : WasmClient) : Prop :=
  forall text, r = Ok text -> exists token vault items address,
    parse_eth_address token_hex = Ok token /\ parse_eth_address vault_hex = Ok vault /\
    upload_items data = Ok (items, address) /\ text = hex_encode address /\
    Forall (fun it => stored w token vault it.1 it.2) items.

Lemma upload_spec data token_hex vault_hex w0 :
  ready w0 -> wspec w0 (upload data token_hex vault_hex) (upload_post data token_hex vault_hex).
Proof.
  intros Hr. unfold upload. apply spec_pure; [apply parse_eth_address_total| |done]. intros token Ht.
  apply spec_pure; [apply parse_eth_address_total| |done]. intros vault Hv.
  apply spec_pure; [apply upload_items_total| |done]. intros [items address] Hi.
  eapply spec_bind; [apply _|by apply store_all_spec| |done].
  intros [] w _ _ Hs. apply spec_done; [done|]. intros w1 HG1 _ text [= <-]. exists token, vault, items, address.
  split_and!; [done..|]. eapply Forall_impl; [exact (Hs eq_refl)|]. intros it Hit.
  exact (stored_evolves _ _ _ _ _ _ HG1 Hit).
Qed.

(** *** Getting it back *)

(** The stored items, as a store of chunks. *)
Definition stored_fetch (items : list (arr 32 * bytes)) (serve : arr 32 -> bytes) (a : arr 32) : res bytes :=
  if decide (a ∈ items.*1) then Ok (serve a) else Err EmptyString.

(** Chunks such a store gives. *)
Lemma stored_chunks items serve l chunks :
  Forall (fun it => blake3_hash it.2 = it.1) items -> (forall a bs, (a, bs) ∈ items -> serve a = bs) ->
  Forall2 (fun a c => stored_fetch items serve a = Ok (Crates.content c)) l chunks ->
  served serve l /\ chunks = List.map (chunk_of serve) l.
Proof.
  intros Hh Hserve HF. induction HF as [|a c l chunks Ha HF [IHs IHc]].
  { split; [|done]. intros a Ha. by apply elem_of_nil in Ha. }
  unfold stored_fetch in Ha. case_decide as Hin; [|done]. injection Ha as Ha. split.
  - intros b [->|Hb]%elem_of_cons; [|by apply IHs]. apply list_elem_of_fmap in Hin as ([a' bs] & -> & Hin). cbn [fst] in *.
    rewrite (Hserve _ _ Hin). rewrite Forall_forall in Hh. exact (Hh _ Hin).
  - cbn [List.map]. rewrite <- IHc. f_equal. destruct c. cbn in Ha. by subst.
Qed.

(** The data map that is stored last leads to the content. *)
Lemma stored_root data items address serve :
  upload_items data = Ok (items, address) -> (forall a bs, (a, bs) ∈ items -> serve a = bs) ->
  exists m root chunks,
    begin address (serve address) = Ok {| r_map := m; root_resolved := negb (is_child m); cache := ∅ |} /\
    unwraps (stored_fetch items serve) m root /\
    Forall2 (fun a c => stored_fetch items serve a = Ok (Crates.content c)) (infos root) chunks /\
    decrypt root chunks = Ok data.
Proof.
  intros Hu Hserve. pose proof (upload_items_hashes _ _ _ Hu) as Hh. apply upload_items_Ok in Hu
    as (m0 & cs & m & l & bs & He & Hs & Hb & -> & Hitems).
  set (fetch := stored_fetch items serve).
  assert (forall a b, (a, b) ∈ items -> fetch a = Ok b) as Hfetch.
  { intros a b Hin. unfold fetch, stored_fetch. rewrite decide_True.
    - by rewrite (Hserve _ _ Hin).
    - by apply (list_elem_of_fmap_2 fst) in Hin. }
  destruct (encrypt_Ok data m0 cs fetch He) as (root & chunks & Hroot & HF & Hd).
  { intros c Hc. apply Hfetch. rewrite Hitems. do 2 (apply elem_of_app; left).
    by apply (list_elem_of_fmap_2 (fun c => (blake3_hash (Crates.content c), Crates.content c))). }
  exists m, root, chunks. split; [|split; [|done]].
  - rewrite (Hserve (blake3_hash bs) bs). 2: { rewrite Hitems. apply elem_of_app. right. by apply list_elem_of_singleton. }
    unfold begin. destruct (verify_chunk_cases (blake3_hash bs) bs) as [[_ (c & -> & _)]|[Hn _]]; [|done].
    cbn [map_err mbind result_bind]. by rewrite (data_map_to_vec_Ok _ _ Hb).
  - eapply shrink_Ok; [exact Hs| |exact Hroot]. intros name b Hin. apply Hfetch. rewrite Hitems.
    apply elem_of_app. left. apply elem_of_app. by right.
Qed.

(** The map [m] is the root map, or a map around it. *)
Definition wrapped_once (serve : arr 32 -> bytes) (m : DataMap) : Prop :=
  is_child m = true -> exists inner root,
    decrypt_level m (List.map (chunk_of serve) (infos m)) = Ok inner /\ data_map_inner inner = Ok root /\ is_child root = false.

(** C10: what [upload] stores is what [download] needs: the address it gives is
    read back as the address of the data map, every item is stored under the hash
    of its content, and if the network serves the stored items, a retrieval that
    begins at that address is complete after at most two rounds and ends with the
    uploaded bytes, provided that the map has been wrapped at most once. *)
Theorem upload_download (data : bytes) (items : list (arr 32 * bytes)) (address : arr 32) (serve : arr 32 -> bytes)
    (Hitems : upload_items data = Ok (items, address)) (Hserve : forall a bs, (a, bs) ∈ items -> serve a = bs) :
  parse_address (hex_encode address) = Ok address /\ Forall (fun it => blake3_hash it.2 = it.1) items /\
  exists r0, begin address (serve address) = Ok r0 /\
    (wrapped_once serve (r_map r0) -> exists r, rounds 2 serve r0 = Some (Ok r) /\ Retrieval.finish r = Ok data).
Proof.
  split; [apply parse_address_hex|]. pose proof (upload_items_hashes _ _ _ Hitems) as Hh. split; [done|].
  destruct (stored_root data items address serve Hitems Hserve) as (m & root & chunks & Hb & Hu & HF & Hd).
  eexists. split; [exact Hb|]. cbn [r_map]. intros Honce.
  destruct (stored_chunks items serve _ _ Hh Hserve HF) as [Hs ->].
  eapply (rounds_served address (serve address) _ serve root); [exact Hb|by eapply unwraps_root| | |exact Hs|exact Hd].
  - cbn [r_map]. inversion Hu as [? Hm|? cs inner m' ? Hm HF' Hdec Hin Hu']; subst; [by left|right]. split; [done|].
    destruct (stored_chunks items serve _ _ Hh Hserve HF') as [_ ->]. exists inner. split; [done|].
    destruct (Honce Hm) as (inner2 & root2 & Hdec2 & Hin2 & Hroot2).
    assert (inner2 = inner) as -> by congruence. assert (m' = root2) as -> by congruence.
    inversion Hu' as [? Hm'|]; [by subst|congruence].
  - cbn [r_map]. inversion Hu as [? Hm|? cs inner m' ? Hm HF' _ _ _]; subst; [done|].
    by destruct (stored_chunks items serve _ _ Hh Hserve HF') as [Hs' _].
Qed.
End Store.
