(* ===== verification/Vouched.v ===== *)
(** * A close group that is one node ([src/lib.rs])

    [store_one] skips the payment and the PUTs once a majority of the close
    group says that it has the chunk already.  The majority is counted over the
    entries of the list discovery returned; here are the runs, on a network whose
    nodes answer, in which those entries are one node. *)

From S2P Require Import Prelude Text Crates RefCrates Framing Sdp Serde Wire RefCodec Payment Protocol.
From S2P Require Import Discovery Tunnel Retrieval Async Transport Conn Progress Inputs Client Quotes Service Store.

(** ** Opening a connection waits for the browser only *)

Lemma prompt_promise {A} (outcome : PeerConnection -> option (res A)) : prompt (promise outcome).
Proof. intros t. by destruct (outcome (pc t)). Qed.

Lemma prompt_create_offer : prompt create_offer.
Proof. intros t. by destruct (js_offer (pc t)) as [[]|]. Qed.

Lemma prompt_wait_for_open : prompt wait_for_open.
Proof.
  apply prompt_bind; [apply prompt_atomic|].
  intros []; try exact I; (apply prompt_bind; [intros t; by destruct (notified (dc t))|intros _; apply prompt_atomic]).
Qed.

Section Vouched.
Context `{Hex} `{Blake3} `{MlKem} `{MlDsa} `{ChaCha} `{Postcard} `{SelfEncryptor} `{Keccak} `{Rmp}.
Context (unicode_upper2 : byte -> byte -> string) (fuel : nat).

Lemma prompt_connect ip port fp : prompt (connect unicode_upper2 ip port fp).
Proof.
  unfold connect.
  repeat (apply prompt_bind; [first [apply prompt_atomic|apply prompt_create_offer|apply prompt_promise
    |apply prompt_wait_for_open|exact I]|intros ?]).
  apply prompt_atomic.
Qed.

Lemma prompt_conn_connect ip port fp exp : prompt (conn_connect unicode_upper2 fuel ip port fp exp).
Proof.
  apply prompt_bind; [apply prompt_zoom, prompt_connect|intros _]. unfold establish.
  apply prompt_bind; [apply prompt_atomic|intros [hs hello]].
  apply prompt_bind; [apply prompt_zoom, prompt_atomic|intros _].
  apply prompt_bind; [apply prompt_zoom, prompt_recv_frame|intros accept].
  apply prompt_bind; [exact I|intros est]. apply prompt_atomic.
Qed.

Lemma prompt_connection_for peer : prompt (connection_for unicode_upper2 fuel peer).
Proof.
  apply prompt_bind; [apply prompt_atomic|intros [i|]; [exact I|]].
  apply prompt_bind; [apply prompt_atomic|intros i].
  apply prompt_bind; [apply prompt_zoom, prompt_conn_connect|intros _].
  apply prompt_bind; [apply prompt_atomic|intros _]. exact I.
Qed.

Lemma prompt_request_quote address size : prompt (request_quote fuel address size).
Proof.
  apply prompt_bind; [|intros response; exact I]. apply prompt_bind; [exact I|intros bs].
  apply prompt_bind; [apply prompt_round_trip|intros pt; exact I].
Qed.

Lemma prompt_try_quote peer address size : prompt (try_quote unicode_upper2 fuel peer address size).
Proof.
  apply prompt_bind; [apply prompt_connection_for|intros i].
  apply prompt_bind; [apply prompt_zoom, prompt_request_quote|intros [[qb flag] com]].
  apply prompt_bind; [exact I|intros q; exact I].
Qed.

Lemma prompt_quote_attempts peer address size attempts : forall count last,
  prompt (quote_attempts unicode_upper2 fuel attempts peer address size count last).
Proof.
  induction attempts as [|n attempts IH]; intros count last; [exact I|].
  apply prompt_bind; [apply prompt_attempt, prompt_try_quote|]. intros [[[q flag] com]|e|]; [|..|exact I].
  - cbv zeta. destruct (_ && _); [exact I|]. apply prompt_bind; [apply prompt_connection_for|intros i; exact I].
  - apply prompt_bind; [apply prompt_atomic|intros _; apply IH].
Qed.

Lemma prompt_quote_phase address size peers : forall quoted count,
  prompt (quote_phase unicode_upper2 fuel peers address size quoted count).
Proof.
  induction peers as [|peer peers IH]; intros quoted count; [exact I|].
  apply prompt_bind; [apply prompt_quote_attempts|]. intros [|q c|last]; [exact I|apply IH|exact I].
Qed.

(** ** A node that vouches *)

(** The next [n] requests on [c] with this tag and payload are answered, with
    [resp]. *)
Definition serves_next (net : bytes -> bytes) (c : NodeConnection) (tag : byte) (bs resp : bytes) (n : nat) : Prop :=
  request_lock c = false /\ rx (transport c) = idle_rx false /\ frame_buf (transport c) = FrameBuf_new /\
  0 <= next_seq c /\ next_seq c + Z.of_nat n <= MAX_SEQ /\ net (tag :: bs) = tag :: resp /\
  exists k id quota, session c = Some (k, id) /\ (n * quota <= send_room (dc (transport c)))%nat /\
    forall j, (j < n)%nat -> exists env reply,
      seal_request k (next_seq c + Z.of_nat j) (tag :: bs) = Ok env /\
      (List.length (split_messages (encode_frame env)) <= quota)%nat /\
      server_seal k (next_seq c + Z.of_nat j) (tag :: resp) = Some reply /\ frame_ok reply.

(** [n] more requests with these bytes, sealed from [seq] on. *)
Definition sealed_next (tagged : bytes) (seq : Z) (n : nat) : list (Z * bytes) :=
  map (fun j => (seq + Z.of_nat j, tagged)) (List.seq 0 n).

Context `{CL : !ChaChaLaws} (Hfuel : (1 < fuel)%nat).

Lemma serves_step net c tag bs resp n :
  serves_next net c tag bs resp (S n) ->
  exists c', drives (answer_conn net) (round_trip fuel tag bs) c c' (Ok resp) /\ serves_next net c' tag bs resp n /\
    sealed c' = sealed c ++ [(next_seq c, tag :: bs)] /\ next_seq c' = next_seq c + 1.
Proof.
  intros (Hl & Hrx & Hbuf & Hn0 & Hn & Hnet & k & id & quota & Hs & Hroom & Hseal).
  destruct (Hseal 0%nat ltac:(lia)) as (env & reply & Henv & Hq & Hreply & Hok). rewrite Z.add_0_r in Henv, Hreply.
  edestruct (drives_round_trip fuel net tag bs resp c k id env reply) as (c' & Hd & [Hs' Hl' Hn' Hse' Hrx' Hbuf' Hroom']);
    try done; try lia.
  exists c'. split; [exact Hd|]. split; [|done]. split_and!; try done; try lia.
  exists k, id, quota. split; [by rewrite Hs'|]. split; [rewrite Hroom'; lia|].
  intros j Hj. destruct (Hseal (S j) ltac:(lia)) as (env' & reply' & He). exists env', reply'.
  replace (next_seq c' + Z.of_nat j) with (next_seq c + Z.of_nat (S j)) by lia. exact He.
Qed.

Lemma sealed_next_S tagged seq n : (seq, tagged) :: sealed_next tagged (seq + 1) n = sealed_next tagged seq (S n).
Proof.
  unfold sealed_next. cbn [List.seq map]. rewrite Z.add_0_r. f_equal. rewrite <- seq_shift, map_map.
  apply map_ext. intros j. f_equal. lia.
Qed.

(** A node whose next [n] quotes are good and flagged. *)
Definition vouches_next (net : bytes -> bytes) (c : NodeConnection) (id address : arr 32) (size : Z) (request : bytes) (n : nat)
    (q : Quote) (commitment : option bytes) : Prop :=
  message_encode (quote_request address size) = Ok request /\
  exists resp m quote_bytes,
    serves_next net c PROTO_CHUNK request resp n /\ message_decode resp = Ok m /\
    body m = QuoteResponse (QuoteSuccess quote_bytes true commitment) /\ check_quote id address quote_bytes = Ok q.

Context (nets : nat -> bytes -> bytes).

(** One quote from it. *)
Lemma drives_try_quote peer address size request n q com i c w :
  vouches_next (nets i) c (peer_id peer) address size request (S n) q com ->
  pool w !! peer_id peer = Some i -> conns w !! i = Some c -> only_busy i w ->
  exists c', drives (respond nets) (try_quote unicode_upper2 fuel peer address size) w (with_conn i c' w) (Ok (q, true, com)) /\
    vouches_next (nets i) c' (peer_id peer) address size request n q com /\
    sealed c' = sealed c ++ [(next_seq c, PROTO_CHUNK :: request)] /\ next_seq c' = next_seq c + 1.
Proof.
  intros (Hreq & resp & m & qb & Hserve & Hm & Hb & Hq) Hpool Hi Hbusy.
  destruct (serves_step _ c _ _ _ n Hserve) as (c' & Hd & Hserve' & Hse & Hn).
  exists c'. split; [|split; [split; [done|by exists resp, m, qb]|done]].
  assert (drives (answer_conn (nets i)) (request_quote fuel address size) c c' (Ok (qb, true, com))) as Hr.
  { unfold request_quote, chunk_round_trip.
    eapply (drives_bind _ _ _ c c'); [|eapply (drives_bind _ _ _ c c); [exact I|rewrite Hreq; apply drives_pure|]|].
    - apply prompt_bind; [exact I|intros bs]. apply prompt_bind; [apply prompt_round_trip|intros pt; exact I].
    - eapply (drives_bind _ _ _ c c'); [apply prompt_round_trip|exact Hd|rewrite Hm; apply drives_pure].
    - rewrite Hb. apply drives_pure. }
  unfold try_quote.
  eapply (drives_bind _ _ _ w w); [apply prompt_connection_for| |].
  { apply drives_done. unfold connection_for. rewrite poll_atomic, Hpool. reflexivity. }
  eapply (drives_bind _ _ _ w (with_conn i c' w)); [apply prompt_zoom, prompt_request_quote|by eapply drives_on_conn|].
  cbv beta iota. rewrite Hq. apply drives_pure.
Qed.

(** Its turns in the loop over the close group: after [m] more of them the
    count is a majority. *)
Lemma drives_quote_phase peer rest address size request q com i m : forall count quoted c w,
  (0 < m)%nat -> (count + m)%nat = CLOSE_GROUP_MAJORITY ->
  vouches_next (nets i) c (peer_id peer) address size request m q com ->
  pool w !! peer_id peer = Some i -> conns w !! i = Some c -> only_busy i w ->
  exists c', drives (respond nets) (quote_phase unicode_upper2 fuel (replicate m peer ++ rest) address size quoted count)
      w (with_conn i c' w) (Ok None) /\
    sealed c' = sealed c ++ sealed_next (PROTO_CHUNK :: request) (next_seq c) m /\
    request_lock c' = false /\ next_seq c' = next_seq c + Z.of_nat m.
Proof.
  induction m as [|m IH]; intros count quoted c w Hm Hcount Hv Hpool Hi Hbusy; [lia|].
  destruct (drives_try_quote peer address size request m q com i c w Hv Hpool Hi Hbusy) as (c1 & Hd & Hv1 & Hse1 & Hn1).
  assert (conns (with_conn i c1 w) !! i = Some c1) as Hi1 by (cbn; apply list_lookup_insert_eq; by eapply lookup_lt_Some).
  assert (only_busy i (with_conn i c1 w)) as Hbusy1.
  { intros j cj Hj Hl. cbn in Hl. rewrite list_lookup_insert_ne in Hl by done. by apply (Hbusy j cj). }
  cbn [replicate app quote_phase].
  change (List.seq 0 QUOTE_ATTEMPTS) with (0%nat :: List.seq 1 2). cbn [quote_attempts].
  assert (drives (respond nets) (attempt (try_quote unicode_upper2 fuel peer address size)) w (with_conn i c1 w) (Ok (Ok (q, true, com)))) as Ha.
  { apply drives_attempt; [apply prompt_try_quote|done|exact Hd]. }
  destruct m as [|m].
  - exists c1. destruct Hv1 as (_ & resp & mm & qb & (Hl & _) & _). split; [|split_and!; [|exact Hl|lia]].
    2: { rewrite Hse1. unfold sealed_next. cbn [List.seq map]. by rewrite Z.add_0_r. }
    eapply (drives_bind _ _ _ w (with_conn i c1 w) _ AlreadyStored); [exact (prompt_quote_attempts peer address size (0%nat :: List.seq 1 2) count EmptyString)| |apply drives_pure].
    eapply drives_bind; [apply prompt_attempt, prompt_try_quote|exact Ha|]. cbv beta iota zeta.
    rewrite (proj2 (Nat.leb_le _ _)) by lia. apply drives_pure.
  - destruct (IH (S count) (quoted ++ [{| q_peer_id := peer_id peer; q_conn := i; q_quote := q; q_commitment := com |}])
      c1 (with_conn i c1 w)) as (c2 & Hd2 & Hse2 & Hl2 & Hn2); [lia|lia|exact Hv1|exact Hpool|exact Hi1|exact Hbusy1|].
    rewrite with_conn_twice in Hd2. exists c2. split; [|split_and!; [|exact Hl2|lia]].
    2: { rewrite Hse2, Hse1, Hn1, <- app_assoc. cbn [app]. by rewrite sealed_next_S. }
    eapply (drives_bind _ _ _ w (with_conn i c1 w) _ (Quoted {| q_peer_id := peer_id peer; q_conn := i; q_quote := q; q_commitment := com |} (S count)));
      [exact (prompt_quote_attempts peer address size (0%nat :: List.seq 1 2) count EmptyString)| |exact Hd2].
    eapply drives_bind; [apply prompt_attempt, prompt_try_quote|exact Ha|]. cbv beta iota zeta.
    rewrite (proj2 (Nat.leb_gt _ _)) by (cbn in *; lia). cbn [andb].
    eapply (drives_bind _ _ _ _ (with_conn i c1 w)); [apply prompt_connection_for| |apply drives_pure].
    apply drives_done. unfold connection_for. rewrite poll_atomic. cbn [pool with_conn with_conns]. rewrite Hpool. reflexivity.
Qed.

(** ** Properties *)

(** C39: the majority that lets [store_one] skip the payment is counted over
    entries of the close group, not over nodes.  On any network where discovery
    lists one node four times in front (the rest of the list may be anything),
    and that node, which has a connection, answers four quote requests with good
    quotes of its own and the word that it stores the chunk, [store_one] ends
    well: it has sent that node these four quote requests and nothing else, no PUT
    in particular, has asked no other node than the bootstrap node, and has not
    called [pay]. *)
Theorem one_node_is_a_majority (w : WasmClient) (address : arr 32) (content : bytes) (token vault : arr 20)
    (b i : nat) (cb ci : NodeConnection) (peer : PeerConnectInfo) (rest : list PeerConnectInfo)
    (request : bytes) (q : Quote) (commitment : option bytes)
    (Hquiet : forall j c, conns w !! j = Some c -> request_lock c = false)
    (Hboot : bootstrap w = Some b) (Hcb : conns w !! b = Some cb)
    (Hnames : names_peers (nets b) cb address (replicate CLOSE_GROUP_MAJORITY peer ++ rest))
    (Hgroup : (CLOSE_GROUP_SIZE <= CLOSE_GROUP_MAJORITY + List.length rest)%nat)
    (Hpool : pool w !! peer_id peer = Some i) (Hne : i <> b) (Hci : conns w !! i = Some ci)
    (Hvouch : vouches_next (nets i) ci (peer_id peer) address (len content) request CLOSE_GROUP_MAJORITY q commitment) :
  exists w' cb' ci', drives (respond nets) (store_one unicode_upper2 fuel address content token vault) w w' (Ok tt) /\
    w' = with_conn i ci' (with_conn b cb' w) /\ paid w' = paid w /\
    sealed ci' = sealed ci ++ sealed_next (PROTO_CHUNK :: request) (next_seq ci) CLOSE_GROUP_MAJORITY /\
    request_lock cb' = false /\ request_lock ci' = false.
Proof.
  destruct (drives_closest_peers fuel _ _ _ _ Hfuel Hnames) as (cb' & Hd1 & _ & Hl1 & _).
  destruct (drives_quote_phase peer (take (CLOSE_GROUP_SIZE - CLOSE_GROUP_MAJORITY) rest) address (len content) request q commitment i
    CLOSE_GROUP_MAJORITY 0 [] ci (with_conn b cb' w)) as (ci' & Hd2 & Hse & Hl2 & _).
  { by apply Nat.ltb_lt. }
  { done. }
  { exact Hvouch. }
  { exact Hpool. }
  { cbn. by rewrite list_lookup_insert_ne. }
  { intros j c Hj Hl. cbn in Hl. apply list_lookup_insert_Some in Hl as [(-> & <- & _)|[_ Hl]]; [done|by eapply Hquiet]. }
  exists (with_conn i ci' (with_conn b cb' w)), cb', ci'. split; [|by split_and!].
  unfold store_one. eapply (drives_bind _ _ _ w (with_conn b cb' w) _ (replicate CLOSE_GROUP_MAJORITY peer ++ rest)).
  { apply prompt_bind; [apply prompt_atomic|]. intros j. apply prompt_zoom, prompt_closest_peers. }
  { eapply drives_bootstrap; [done..| |exact Hd1]. intros j c _ Hj. by eapply Hquiet. }
  rewrite length_app, length_replicate, (proj2 (Nat.ltb_ge _ _)) by exact Hgroup.
  rewrite take_app, take_replicate, length_replicate.
  change (CLOSE_GROUP_SIZE `min` CLOSE_GROUP_MAJORITY)%nat with CLOSE_GROUP_MAJORITY.
  eapply drives_bind; [apply prompt_quote_phase|exact Hd2|apply drives_pure].
Qed.
End Vouched.
