(* ===== verification/Page.v ===== *)
(** * The calls of a page

    Any number of calls of a client's exported methods overlap, in any order,
    while messages arrive, channels close and the page's [pay] function does
    what it likes. *)

From S2P Require Import Prelude Text Crates RefCrates Framing Sdp Serde Wire RefCodec Protocol Discovery.
From S2P Require Import Tunnel Retrieval Async Transport Conn Inputs Client Quotes Store.

Section Page.
Context `{Hex} `{Blake3} `{MlKem} `{MlDsa} `{ChaCha} `{Postcard} `{SelfEncryptor} `{Keccak} `{Rmp}.
Context (unicode_upper2 : byte -> byte -> string) (fuel : nat).

(** The asynchronous methods [WasmClient] exports, with their arguments; for
    [download], also the order in which the fetches of its rounds are woken. *)
Inductive call : Type :=
  | CallDownload (sched1 sched2 : list (list nat)) (address_hex : string)
  | CallFetch (address_hex : string)
  | CallUpload (data : bytes) (token_hex vault_hex : string)
  | CallRelayed (target_hex stun address_hex : string)
  | CallPeers (address_hex : string).

(** What a call ends with. *)
Inductive outcome : Type :=
  | Bytes (bs : bytes)
  | Text (s : string)
  | Length (n : Z).

Definition perform (q : call) : task WasmClient (call * outcome) :=
  match q with
  | CallDownload s1 s2 a => bs ← download unicode_upper2 fuel [s1; s2] a; mret (q, Bytes bs)
  | CallFetch a => bs ← fetch_chunk unicode_upper2 fuel a; mret (q, Bytes bs)
  | CallUpload data t v => s ← upload unicode_upper2 fuel data t v; mret (q, Text s)
  | CallRelayed t s a => n ← relayed_fetch fuel t s a; mret (q, Length n)
  | CallPeers a => s ← closest_peers_json fuel a; mret (q, Text s)
  end.

(** Everything that can happen to the client [w0]. *)
Definition page_run (w0 : WasmClient) (conf : WasmClient * list (task WasmClient (call * outcome))) : Prop :=
  reachable client_env (fun t => exists q, t = perform q) w0 conf.

(** What the end of a call guarantees. *)
Definition call_post (r : res (call * outcome)) (w : WasmClient) : Prop :=
  forall q o, r = Ok (q, o) ->
  match q, o with
  | CallDownload _ _ a, Bytes out => download_post a (Ok out)
  | CallFetch a, Bytes out => fetch_post a (Ok out) w
  | CallUpload data t v, Text s => upload_post data t v (Ok s) w
  | CallRelayed t _ a, Length n => relayed_post t a (Ok n) w
  | CallPeers a, Text s => json_post a (Ok s) w
  | _, _ => False
  end.

Context `{PL : !PostcardLaws} `{KL : !MlKemLaws} `{HL : !HexLaws} `{RL : !RmpLaws}.
Context `{SL : !SelfEncryptionLaws} `{EL : !SelfEncryptorLaws}.
#[local] Abbreviation wspec := (spec client_inv client_evolves wcell).

(** A call is its method and a label. *)
Lemma labelled_spec {A} (t : task WasmClient A) (label : A -> call * outcome) w0
    (P : res A -> WasmClient -> Prop) (Q : res (call * outcome) -> WasmClient -> Prop) :
  wspec w0 t P -> (forall a w w', P (Ok a) w -> client_evolves w w' -> Q (Ok (label a)) w') -> (forall e w, Q (Err e) w) ->
  wspec w0 (a ← t; mret (label a)) Q.
Proof.
  intros Ht HQ He. eapply spec_bind; [apply _|exact Ht| |by intros].
  intros a w _ _ Ha. apply spec_done; [done|]. intros w' HG _. by eapply HQ.
Qed.

Lemma fetch_post_evolves a out w w' : client_evolves w w' -> fetch_post a (Ok out) w -> fetch_post a (Ok out) w'.
Proof.
  intros HG Hp o [= <-]. destruct (Hp out eq_refl) as (address & Ha & Hs). exists address.
  split; [done|by eapply served_evolves].
Qed.

Lemma upload_post_evolves data t v s w w' :
  client_evolves w w' -> upload_post data t v (Ok s) w -> upload_post data t v (Ok s) w'.
Proof.
  intros HG Hp o [= <-]. destruct (Hp s eq_refl) as (token & vault & items & a & Ht & Hv & Hi & Ha & Hs).
  exists token, vault, items, a. split_and!; [done..|]. eapply Forall_impl; [exact Hs|]. intros it Hit.
  exact (stored_evolves _ _ _ _ _ _ HG Hit).
Qed.

Lemma relayed_post_evolves t a n w w' : client_evolves w w' -> relayed_post t a (Ok n) w -> relayed_post t a (Ok n) w'.
Proof.
  intros HG Hp m [= <-]. destruct (Hp n eq_refl) as (target & address & i & content & Ht & Ha & Hr & Hn).
  exists target, address, i, content. split_and!; [done..| |done]. by eapply replied_evolves.
Qed.

Lemma json_post_evolves a s w w' : client_evolves w w' -> json_post a (Ok s) w -> json_post a (Ok s) w'.
Proof.
  intros HG Hp o [= <-]. destruct (Hp s eq_refl) as (address & infos & Ha & Hd & Hs). exists address, infos.
  split_and!; [done| |done]. by eapply discovered_evolves.
Qed.

Lemma perform_spec q w0 : ready w0 -> wspec w0 (perform q) call_post.
Proof.
  intros Hr. destruct q; cbn [perform].
  - eapply labelled_spec; [by apply download_spec| |done]. intros a w w' Ha _ q o [= <- <-]. exact Ha.
  - eapply labelled_spec; [by apply fetch_chunk_spec| |done]. intros a w w' Ha HG q o [= <- <-].
    by eapply fetch_post_evolves.
  - eapply labelled_spec; [by apply upload_spec| |done]. intros a w w' Ha HG q o [= <- <-].
    by eapply upload_post_evolves.
  - eapply labelled_spec; [by apply relayed_fetch_spec| |done]. intros a w w' Ha HG q o [= <- <-].
    by eapply relayed_post_evolves.
  - eapply labelled_spec; [by apply closest_peers_json_spec| |done]. intros a w w' Ha HG q o [= <- <-].
    by eapply json_post_evolves.
Qed.

Lemma page_run_safe w0 w ts :
  client_inv w0 -> ready w0 -> page_run w0 (w, ts) ->
  client_inv w /\ client_evolves w0 w /\ forall i r, ts !! i = Some (Done r) -> r <> Panic /\ call_post r w.
Proof.
  intros HI Hready Hr. refine (adequacy client_inv client_evolves wcell client_env _ call_post w0 _ _ (w, ts) HI Hr).
  - apply client_env_cells.
  - intros w1 t HG _ [q ->]. apply perform_spec. by eapply ready_evolves.
Qed.

(** ** Properties *)

(** C3: whatever calls overlap on a client, in whatever order they are polled
    and whatever the network and the page do meanwhile, no call panics; the
    pool files each connection under the identity its node has proved, and so
    is the bootstrap connection's node authenticated; and the calls of the
    page's [pay] function, which only grow, are each justified by a full group
    of verified quotes: [approve] for exactly their total, and [payForQuotes]
    only after it. *)
Theorem client_keeps_faith (w0 w : WasmClient) (ts : list (task WasmClient (call * outcome)))
    (HI : client_inv w0) (Hready : ready w0) (Hrun : page_run w0 (w, ts)) :
  (forall i r, ts !! i = Some (Done r) -> r <> Panic) /\
  (forall id i, pool w !! id = Some i -> authenticated w i id) /\
  bootstrap w = bootstrap w0 /\ (exists b id, bootstrap w = Some b /\ authenticated w b id) /\
  paid w0 `prefix_of` paid w /\ justified (paid w).
Proof.
  destruct (page_run_safe w0 w ts HI Hready Hrun) as ((Hc & Hp & Hb & Hbill) & (Hboot & _ & Hpaid) & Hts).
  split_and!; [intros i r Hi; by apply (Hts i r)|done|done| |done|done].
  unfold ready in Hready. rewrite <- Hboot in Hready. destruct (bootstrap w) as [b|]; [|done].
  destruct (Hb b eq_refl) as (id & Hid). by exists b, id.
Qed.

(** C1: in the same circumstances, a download that ends with bytes ends with
    the content of the file at the address it was asked for: what the root
    data map published there decrypts to, every chunk and every map on the way
    having been checked against its address. *)
Theorem downloads_are_the_file (w0 w : WasmClient) (ts : list (task WasmClient (call * outcome)))
    (i : nat) (sched1 sched2 : list (list nat)) (address_hex : string) (o : outcome)
    (HI : client_inv w0) (Hready : ready w0) (Hrun : page_run w0 (w, ts))
    (Hi : ts !! i = Some (Done (Ok (CallDownload sched1 sched2 address_hex, o)))) :
  exists address out, o = Bytes out /\ parse_address address_hex = Ok address /\ content_of address out.
Proof.
  destruct (page_run_safe w0 w ts HI Hready Hrun) as (_ & _ & Hts). destruct (Hts i _ Hi) as [_ Hp].
  specialize (Hp _ _ eq_refl). destruct o as [out| |]; [|done..]. destruct (Hp out eq_refl) as (address & Ha & Hc).
  by exists address, out.
Qed.

(** C2: in the same circumstances, an upload that ends with a text has stored
    every chunk of the file and its data map, whose address the text is.
    Stored means: the close group is as a node of the client listed it for the
    chunk's address, and either a majority of its entries have answered with a
    verified quote that says the chunk is there, or all of them have given
    verified quotes, the payment for exactly these quotes has been approved and
    made, and a majority of the entries have accepted the chunk together with the
    proof that lists them. *)
Theorem uploads_are_stored (w0 w : WasmClient) (ts : list (task WasmClient (call * outcome)))
    (i : nat) (data : bytes) (token_hex vault_hex : string) (o : outcome)
    (HI : client_inv w0) (Hready : ready w0) (Hrun : page_run w0 (w, ts))
    (Hi : ts !! i = Some (Done (Ok (CallUpload data token_hex vault_hex, o)))) :
  exists text token vault items address, o = Text text /\
    parse_eth_address token_hex = Ok token /\ parse_eth_address vault_hex = Ok vault /\
    upload_items data = Ok (items, address) /\ text = hex_encode address /\
    Forall (fun it => stored w token vault it.1 it.2) items.
Proof.
  destruct (page_run_safe w0 w ts HI Hready Hrun) as (_ & _ & Hts). destruct (Hts i _ Hi) as [_ Hp].
  specialize (Hp _ _ eq_refl). destruct o as [|text|]; [done| |done].
  destruct (Hp text eq_refl) as (token & vault & items & address & Hrest). by exists text, token, vault, items, address.
Qed.

(** C15: in the same circumstances, the other calls end with what an
    authenticated node has sealed in answer to them: [fetch_chunk] with content
    that hashes to the address, [relayed_fetch] with the length of such
    content, from the very node it was to reach, and [closest_peers_json] with
    the list of peers for that address. *)
Theorem fetches_are_authentic (w0 w : WasmClient) (ts : list (task WasmClient (call * outcome)))
    (i : nat) (q : call) (o : outcome)
    (HI : client_inv w0) (Hready : ready w0) (Hrun : page_run w0 (w, ts)) (Hi : ts !! i = Some (Done (Ok (q, o)))) :
  match q, o with
  | CallFetch a, Bytes out =>
      exists node id, parse_address a = Ok (blake3_hash out) /\ replied w node id (AskContent (blake3_hash out)) (Content out)
  | CallRelayed t _ a, Length n =>
      exists target node out, parse_address t = Ok target /\ parse_address a = Ok (blake3_hash out) /\
        replied w node target (AskContent (blake3_hash out)) (Content out) /\ n = len out
  | CallPeers a, Text s =>
      exists address infos, parse_address a = Ok address /\ discovered w address infos /\ s = peers_json infos
  | CallDownload _ _ _, Bytes _ | CallUpload _ _ _, Text _ => True
  | _, _ => False
  end.
Proof.
  destruct (page_run_safe w0 w ts HI Hready Hrun) as (_ & _ & Hts). destruct (Hts i _ Hi) as [_ Hp].
  specialize (Hp _ _ eq_refl). destruct q, o; try done.
  - destruct (Hp _ eq_refl) as (address & Ha & Hs). pose proof (served_hash _ _ _ Hs) as <-.
    destruct Hs as (node & id & Hr). by exists node, id.
  - destruct (Hp _ eq_refl) as (target & address & node & out & Ht & Ha & Hr & Hn).
    assert (blake3_hash out = address) as <- by (by eapply served_hash; exists node, target).
    by exists target, node, out.
  - by apply Hp.
Qed.

End Page.
