(* ===== verification/Scenario.v ===== *)
(** * Concrete runs of a client

    A client with one connection, its bootstrap connection, to a node that
    lists itself seven times as the close group of every address, and has sent
    its answers already, and one with two connections to nodes that answer when
    asked.  The runs instantiate the theorems about a page's calls. *)

From S2P Require Import Prelude Text Crates RefCrates Framing Sdp Serde Wire RefCodec Payment Protocol.
From S2P Require Import Discovery Tunnel Retrieval Async Transport Conn Inputs Client Quotes Service Store Vouched Page.
Import ToyCrypto.
#[local] Existing Instances HexRef.hex_ref PostcardRef.postcard_ref PostcardRef.postcard_ref_laws
  Msgpack.msgpack Msgpack.msgpack_laws.

Definition no_case : byte -> byte -> string := Conn.Witnesses.no_case.
Definition node_id : arr 32 := blake3_hash (sk_public Tunnel.Witnesses.sk).

(** The client's session with the node, as the handshake establishes it. *)
Lemma node_handshaken : exists exp, handshaken exp (Tunnel.Witnesses.session, node_id).
Proof.
  exists None, Tunnel.Witnesses.rng, Tunnel.Witnesses.hs, (hello_frame (pad EK_LEN Tunnel.Witnesses.rng)), Tunnel.Witnesses.frame.
  split; [reflexivity|]. exact (proj2 (proj2 Tunnel.Witnesses.handshake_agrees_witness)).
Qed.

(** The client, with the node's answers [replies] to its requests (tag and
    payload) on the way, numbered from 1. *)
Definition answers (replies : list bytes) : list bytes :=
  imap (fun i pt => encode_frame (Conn.Witnesses.node_reply (Z.of_nat i + 1) pt)) replies.

Definition node_conn (replies : list bytes) : NodeConnection := {|
  transport := open_transport (answers replies); session := Some (Tunnel.Witnesses.session, node_id); next_seq := 1;
  request_lock := false; js_keygen := Tunnel.Witnesses.rng; sealed := [] |}.

Definition client_with (replies : list bytes) (pay : Payer) : WasmClient := {|
  conns := [node_conn replies]; bootstrap := Some 0%nat; pool := {[node_id := 0%nat]}; chunks_fetched := 0;
  js_transport := open_transport []; js_seed := Tunnel.Witnesses.rng; js_pay := pay; paid := [] |}.

Lemma client_with_inv replies pay : client_inv (client_with replies pay) /\ ready (client_with replies pay).
Proof.
  assert (authenticated (client_with replies pay) 0 node_id) as Ha.
  { eexists _, _. split; [reflexivity|]. split; [reflexivity|exact node_handshaken]. }
  split; [split; [|split; [|split]]|done].
  - intros [|i] c [= <-]. intros _. cbn. split_and!; [done|lia|by apply Z.leb_le|constructor|constructor].
  - intros id i Hi. cbn in Hi. apply lookup_singleton_Some in Hi as [<- <-]. exact Ha.
  - intros b [= <-]. by exists node_id.
  - constructor.
Qed.

(** The node's answers. *)
Definition node_info : PeerConnectInfo := {| peer_id := node_id; ip := "1.2.3.4"; port := 4433; cert_hash := pad 32 [x0c] |}.
Definition say_group : bytes := PROTO_DISCOVERY :: discovery_layout
  {| disc_request_id := 1; disc_body := ClosestResponse {| peers := replicate 7 node_info |} |}.
Definition say (b : ChunkMessageBody) : bytes := PROTO_CHUNK :: message_layout {| request_id := 1; body := b |}.
Definition say_chunk (bs : bytes) : bytes := say (GetResponse (GetSuccess (blake3_hash bs) bs)).

Definition quote_for (address : arr 32) : Quote := sign_quote Tunnel.Witnesses.sk
  {| Payment.content := address; timestamp := Timestamp_from_secs 5; price := pad 32 [x00; x09];
     rewards_address := pad 20 [xab]; pub_key := []; signature := []; committed_key_count := 0; commitment_pin := None |}.
Definition say_quote (address : arr 32) (flag : bool) : bytes :=
  say (QuoteResponse (QuoteSuccess match encode_quote (quote_for address) with Ok bs => bs | _ => [] end flag None)).
Definition say_stored (address : arr 32) : bytes := say (PutResponse (PutSuccess address)).

Definition js_undefined : JsValue := {| as_string := None; json := None |}.
Definition js_string (s : string) : JsValue := {| as_string := Some s; json := None |}.
(** A page that has paid at once. *)
Definition payer : Payer := {| js_call := inr tt; js_promise := Some (inr (js_string (hex_0x (pad 32 [x77])))) |}.
Definition no_payer : Payer := {| js_call := inl js_undefined; js_promise := None |}.

(** ** Polling one call until it is done *)

Fixpoint polls {A} (n : nat) (c : WasmClient * task WasmClient A) : WasmClient * task WasmClient A :=
  match n with
  | O => c
  | S n => polls n (poll c.2 c.1)
  end.

Definition one_call (n : nat) (w : WasmClient) (q : call) : WasmClient * task WasmClient (call * outcome) :=
  polls n (w, perform no_case 3 q).

Lemma one_call_run n w q : page_run no_case 3 w ((one_call n w q).1, [(one_call n w q).2]).
Proof.
  unfold one_call.
  assert (forall c, page_run no_case 3 w (c.1, [c.2]) -> page_run no_case 3 w ((polls n c).1, [(polls n c).2])) as Hgen.
  { induction n as [|n IH]; intros c Hc; [done|]. cbn [polls]. apply IH. eapply reach_step; [exact Hc|].
    exact (step_poll _ _ c.1 [c.2] 0%nat c.2 _ _ eq_refl (surjective_pairing _)). }
  apply Hgen. cbn [fst snd]. eapply reach_step; [apply reach_init|]. apply (step_spawn _ _ _ []). by exists q.
Qed.

(** ** A download: a flat map of one chunk *)

Definition download_call : call := CallDownload [[0%nat]] [[0%nat]] (hex_encode (blake3_hash Retrieval.Witnesses.flat_bytes)).
Definition download_client : WasmClient := client_with
  [say_group; say_chunk Retrieval.Witnesses.flat_bytes; say_group; say_chunk Retrieval.Witnesses.chunk1] no_payer.

Lemma download_ends : (one_call 1 download_client download_call).2 = Done (Ok (download_call, Bytes Retrieval.Witnesses.chunk1)).
Proof. vm_compute. reflexivity. Qed.

(** ** An upload of the empty file: its only item is the data map *)

Definition map_bytes : bytes := [x00].
Definition map_address : arr 32 := blake3_hash map_bytes.
Definition token_hex : string := to_hex (pad 20 [x01]).
Definition vault_hex : string := to_hex (pad 20 [x02]).
Definition upload_call : call := CallUpload [] token_hex vault_hex.

(** Seven quotes, the payment, seven PUTs. *)
Definition paying_client : WasmClient := client_with
  (say_group :: replicate 7 (say_quote map_address false) ++ replicate 7 (say_stored map_address)) payer.

Lemma paying_ends : (one_call 3 paying_client upload_call).2 = Done (Ok (upload_call, Text (hex_encode map_address))).
Proof. vm_compute. reflexivity. Qed.

(** ** A chunk vouched for by one node

    Two idle connections: the bootstrap node names one node seven times, and that
    node, on the other, answers every quote request with the same quote. *)

Definition vouching_nodes (i : nat) (tagged : bytes) : bytes :=
  match i with
  | O => say_group
  | _ => say_quote map_address true
  end.

Definition vouched_client : WasmClient := {|
  conns := [Conn.Witnesses.idle_conn 1; Conn.Witnesses.idle_conn 7]; bootstrap := Some 0%nat; pool := {[node_id := 1%nat]};
  chunks_fetched := 0; js_transport := open_transport []; js_seed := Tunnel.Witnesses.rng; js_pay := no_payer; paid := [] |}.

Lemma group_named :
  names_peers (vouching_nodes 0) (Conn.Witnesses.idle_conn 1) map_address
    (replicate CLOSE_GROUP_MAJORITY node_info ++ replicate 3 node_info).
Proof.
  set (m := {| disc_request_id := 1; disc_body := ClosestResponse {| peers := replicate 7 node_info |} |}).
  exists (discovery_layout m), m. split; [|split; [|reflexivity]].
  - apply (Service.Witnesses.served_idle_conn _ _ _ _ (discovery_layout
      {| disc_request_id := 1; disc_body := ClosestRequest {| closest_address := map_address |} |}));
      [done|by apply Service.Witnesses.encode_layout|reflexivity|vm_compute; reflexivity..|by vm_compute].
  - by apply Service.Witnesses.decode_layout.
Qed.

(** The bytes of the quote request, and of the node's answer. *)
Definition quote_asked : bytes := message_layout (quote_request map_address (len map_bytes)).
Definition quote_told : ChunkMessage := {| request_id := 1;
  body := QuoteResponse (QuoteSuccess match encode_quote (quote_for map_address) with Ok bs => bs | _ => [] end true None) |}.

Lemma seals_next n tagged pt :
  seal_request Tunnel.Witnesses.session n tagged = Ok (Conn.Witnesses.client_envelope n tagged) ->
  (List.length (split_messages (encode_frame (Conn.Witnesses.client_envelope n tagged))) <=? 10)%nat = true ->
  server_seal Tunnel.Witnesses.session n pt = Some (Conn.Witnesses.node_reply n pt) ->
  frame_ok (Conn.Witnesses.node_reply n pt) ->
  exists env reply,
    seal_request Tunnel.Witnesses.session n tagged = Ok env /\ (List.length (split_messages (encode_frame env)) <= 10)%nat /\
    server_seal Tunnel.Witnesses.session n pt = Some reply /\ frame_ok reply.
Proof. intros H1 H2%Nat.leb_le H3 H4. by eexists _, _. Qed.

Lemma own_quote :
  check_quote node_id map_address (match encode_quote (quote_for map_address) with Ok bs => bs | _ => [] end)
  = Ok (quote_for map_address).
Proof.
  destruct (encode_quote_parses (RL := Msgpack.msgpack_laws) (quote_for map_address)) as (bs & He & Hp); [by vm_compute|].
  rewrite He. unfold check_quote. rewrite Hp. cbn [map_err mbind result_bind].
  rewrite bool_decide_true by reflexivity. rewrite bool_decide_true by reflexivity.
  assert (verify_quote (quote_for map_address) = true) as -> by (vm_compute; reflexivity). reflexivity.
Qed.

Lemma node_vouches :
  vouches_next (vouching_nodes 1) (Conn.Witnesses.idle_conn 7) node_id map_address (len map_bytes) quote_asked
    CLOSE_GROUP_MAJORITY (quote_for map_address) None.
Proof.
  split; [by apply Service.Witnesses.encode_message|].
  exists (message_layout quote_told), quote_told, (match encode_quote (quote_for map_address) with Ok bs => bs | _ => [] end).
  split; [|split; [|split; [reflexivity|exact own_quote]]].
  - split_and!; [reflexivity..|by apply Z.leb_le|by apply Z.leb_le|reflexivity|].
    exists Tunnel.Witnesses.session, (pad 32 [x05]), 10%nat. split; [reflexivity|]. split; [by apply Nat.leb_le|].
    intros j Hj. destruct j as [|[|[|[|j]]]]; [apply seals_next; vm_compute; first [reflexivity|done]..|].
    exfalso. apply Nat.ltb_lt in Hj. done.
  - apply Service.Witnesses.decode_message; vm_compute; reflexivity.
Qed.

(** ** Witnesses *)

Lemma one_node_is_a_majority_witness : exists w',
  drives (respond vouching_nodes) (store_one no_case 3 map_address map_bytes (pad 20 [x01]) (pad 20 [x02])) vouched_client w' (Ok tt) /\
  paid w' = [].
Proof.
  destruct (one_node_is_a_majority (CL := chacha_toy_laws) no_case 3 ltac:(lia) vouching_nodes vouched_client map_address map_bytes
    (pad 20 [x01]) (pad 20 [x02]) 0 1 (Conn.Witnesses.idle_conn 1) (Conn.Witnesses.idle_conn 7) node_info (replicate 3 node_info)
    quote_asked (quote_for map_address) None) as (w' & cb & ci & Hd & _ & Hp & _).
  - intros [|[|j]] c Hc; [by injection Hc as <-..|discriminate Hc].
  - reflexivity.
  - reflexivity.
  - exact group_named.
  - by apply Nat.leb_le.
  - cbn [pool vouched_client]. apply lookup_singleton_eq.
  - done.
  - reflexivity.
  - exact node_vouches.
  - exists w'. split; [exact Hd|exact Hp].
Defined.

Lemma downloads_are_the_file_witness :
  client_inv download_client /\
  page_run no_case 3 download_client ((one_call 1 download_client download_call).1,
    [Done (Ok (download_call, Bytes Retrieval.Witnesses.chunk1))]) /\
  content_of (blake3_hash Retrieval.Witnesses.flat_bytes) Retrieval.Witnesses.chunk1.
Proof.
  destruct (client_with_inv [say_group; say_chunk Retrieval.Witnesses.flat_bytes; say_group; say_chunk Retrieval.Witnesses.chunk1]
    no_payer) as [HI Hr].
  assert (page_run no_case 3 download_client ((one_call 1 download_client download_call).1,
    [Done (Ok (download_call, Bytes Retrieval.Witnesses.chunk1))])) as Hrun by (rewrite <- download_ends; apply one_call_run).
  split; [exact HI|]. split; [exact Hrun|].
  destruct (downloads_are_the_file (SL := selfenc_toy_laws) (EL := selfenc_toy_encryptor_laws) (KL := mlkem_toy_laws)
    (HL := HexRef.hex_ref_laws) no_case 3 download_client _ _ 0 [[0%nat]] [[0%nat]]
    (hex_encode (blake3_hash Retrieval.Witnesses.flat_bytes)) _ HI Hr Hrun eq_refl) as (address & out & Ho & Ha & Hc).
  injection Ho as <-. assert (address = blake3_hash Retrieval.Witnesses.flat_bytes) as <-; [|exact Hc].
  pose proof (parse_address_hex (HL := HexRef.hex_ref_laws) (blake3_hash Retrieval.Witnesses.flat_bytes)) as Hp.
  rewrite Ha in Hp. by injection Hp.
Defined.

Lemma paying_run :
  client_inv paying_client /\ ready paying_client /\
  page_run no_case 3 paying_client ((one_call 3 paying_client upload_call).1, [Done (Ok (upload_call, Text (hex_encode map_address)))]).
Proof.
  destruct (client_with_inv (say_group :: replicate 7 (say_quote map_address false) ++ replicate 7 (say_stored map_address)) payer)
    as [HI Hr].
  split; [exact HI|]. split; [exact Hr|]. rewrite <- paying_ends. apply one_call_run.
Qed.

Lemma client_keeps_faith_witness :
  client_inv paying_client /\
  List.length (paid (one_call 3 paying_client upload_call).1) = 2%nat /\ justified (paid (one_call 3 paying_client upload_call).1).
Proof.
  destruct paying_run as (HI & Hr & Hrun). split; [exact HI|]. split; [vm_compute; reflexivity|].
  apply (client_keeps_faith (SL := selfenc_toy_laws) (EL := selfenc_toy_encryptor_laws) (KL := mlkem_toy_laws)
    (HL := HexRef.hex_ref_laws) no_case 3 paying_client _ _ HI Hr Hrun).
Defined.

Lemma uploads_are_stored_witness :
  client_inv paying_client /\
  stored (one_call 3 paying_client upload_call).1 (pad 20 [x01]) (pad 20 [x02]) map_address map_bytes.
Proof.
  destruct paying_run as (HI & Hr & Hrun). split; [exact HI|].
  destruct (uploads_are_stored (SL := selfenc_toy_laws) (EL := selfenc_toy_encryptor_laws) (KL := mlkem_toy_laws)
    (HL := HexRef.hex_ref_laws) no_case 3 paying_client _ _ 0 [] token_hex vault_hex _ HI Hr Hrun eq_refl)
    as (text & token & vault & items & address & _ & Ht & Hv & Hi & _ & Hs).
  pose proof (parse_eth_address_hex (HL := HexRef.hex_ref_laws) (pad 20 [x01])) as Ht'.
  pose proof (parse_eth_address_hex (HL := HexRef.hex_ref_laws) (pad 20 [x02])) as Hv'.
  assert (upload_items [] = Ok ([(map_address, map_bytes)], map_address)) as Hi' by reflexivity.
  unfold token_hex in Ht. unfold vault_hex in Hv. rewrite Ht' in Ht. rewrite Hv' in Hv. rewrite Hi' in Hi. injection Ht as <-. injection Hv as <-. injection Hi as <- _.
  by apply Forall_cons in Hs as [Hs _].
Defined.

(** The list of peers. *)
Definition peers_call : call := CallPeers (hex_encode map_address).
Definition asking_client : WasmClient := client_with [say_group] no_payer.

Lemma fetches_are_authentic_witness :
  client_inv asking_client /\
  exists text, page_run no_case 3 asking_client ((one_call 1 asking_client peers_call).1, [Done (Ok (peers_call, Text text))]) /\
    exists infos, discovered (one_call 1 asking_client peers_call).1 map_address infos /\ text = peers_json infos.
Proof.
  destruct (client_with_inv [say_group] no_payer) as [HI Hr]. split; [exact HI|].
  exists (peers_json (replicate 7 node_info)).
  assert ((one_call 1 asking_client peers_call).2 = Done (Ok (peers_call, Text (peers_json (replicate 7 node_info))))) as Hd
    by (vm_compute; reflexivity).
  pose proof (one_call_run 1 asking_client peers_call) as Hrun. rewrite Hd in Hrun. split; [exact Hrun|].
  destruct (fetches_are_authentic (SL := selfenc_toy_laws) (EL := selfenc_toy_encryptor_laws) (KL := mlkem_toy_laws)
    (HL := HexRef.hex_ref_laws) no_case 3 asking_client _ _ 0 _ _ HI Hr Hrun eq_refl) as (address & infos & Ha & Hdisc & Ht).
  rewrite (parse_address_hex (HL := HexRef.hex_ref_laws)) in Ha. injection Ha as <-.
  exists infos. split; [exact Hdisc|exact Ht].
Defined.

(** ** Connecting *)

Definition no_client : WasmClient := {|
  conns := []; bootstrap := None; pool := ∅; chunks_fetched := 0;
  js_transport := ready_transport; js_seed := Tunnel.Witnesses.rng; js_pay := no_payer; paid := [] |}.

Definition opening : task WasmClient unit := client_connect no_case 5 "1.2.3.4" 4433 "ab" (hex_encode node_id).
Definition hello_sent : WasmClient * task WasmClient unit := poll opening no_client.
Definition hello_conn : NodeConnection := default (node_conn []) (conns hello_sent.1 !! 0%nat).
Definition accepting : WasmClient := with_conn 0
  (with_transport (on_message (Some (encode_frame Tunnel.Witnesses.frame)) (transport hello_conn)) hello_conn) hello_sent.1.

Lemma no_client_inv : client_inv no_client.
Proof. split; [|split; [|split]]; [done| |done|constructor]. intros id i Hi. change ((∅ : gmap (arr 32) nat) !! id = Some i) in Hi. by rewrite lookup_empty in Hi. Qed.

Lemma client_connects_witness :
  runs client_env no_client opening (poll hello_sent.2 accepting).1 (Ok tt) /\
  client_peer_id (poll hello_sent.2 accepting).1 = Ok (hex_encode node_id).
Proof.
  assert ((poll hello_sent.2 accepting).2 = Done (Ok tt)) as Hdone by (vm_compute; reflexivity).
  assert (runs client_env no_client opening (poll hello_sent.2 accepting).1 (Ok tt)) as Hrun.
  { apply (runs_two client_env opening no_client hello_sent accepting (Ok tt)); [by unfold hello_sent| |exact Hdone].
    apply rtc_once, (client_env_conn 0 hello_conn); [|apply conn_env_transport, env_message].
    assert (is_Some (conns hello_sent.1 !! 0%nat)) as [c Hc] by (vm_compute; by eexists).
    unfold hello_conn. by rewrite Hc. }
  split; [exact Hrun|].
  destruct (client_connects (KL := mlkem_toy_laws) (HL := HexRef.hex_ref_laws) no_case 5 "1.2.3.4" 4433 "ab" (hex_encode node_id)
    no_client _ _ no_client_inv Hrun) as (_ & _ & Hok).
  destruct (Hok eq_refl) as (_ & _ & _ & i & id & expected & _ & _ & _ & Hid & Hexp & Hpin).
  rewrite Hid. rewrite (parse_opt_peer_id_hex (HL := HexRef.hex_ref_laws)) in Hexp. injection Hexp as <-.
  by rewrite (Hpin node_id eq_refl).
Defined.

(** ** A larger file: five chunks, and a map wrapped once *)

Definition file : bytes := mjoin (map (fun b => replicate 8 b) [x01; x02; x03; x04; x05]).
Definition file_items : list (arr 32 * bytes) := match upload_items file with Ok (items, _) => items | _ => [] end.
Definition file_address : arr 32 := match upload_items file with Ok (_, a) => a | _ => map_address end.
Definition flat_map : toy_map := (false, map digest (chunks 8 file)).
Definition wrapped_map : toy_map := (true, [digest (toy_write flat_map)]).
Definition file_serve (a : arr 32) : bytes :=
  default [] (snd <$> List.find (fun it => bool_decide (it.1 = a)) file_items).

Lemma upload_download_witness :
  upload_items file = Ok (file_items, file_address) /\ List.length file_items = 7%nat /\
  exists r0 r, begin file_address (file_serve file_address) = Ok r0 /\ is_child (r_map r0) = true /\
    rounds 2 file_serve r0 = Some (Ok r) /\ Retrieval.finish r = Ok file.
Proof.
  assert (upload_items file = Ok (file_items, file_address)) as Hi by reflexivity.
  split; [exact Hi|]. split; [reflexivity|].
  assert (Forall (fun it => file_serve it.1 = it.2) file_items) as Hserve.
  { apply (bool_decide_unpack _). vm_compute. exact I. }
  destruct (upload_download (HL := HexRef.hex_ref_laws) (SL := selfenc_toy_laws) (EL := selfenc_toy_encryptor_laws)
    file file_items file_address file_serve Hi) as (_ & _ & r0 & Hb & Hr).
  { intros a bs Hin. rewrite Forall_forall in Hserve. exact (Hserve _ Hin). }
  assert (begin file_address (file_serve file_address) = Ok (Retrieval.Witnesses.fresh wrapped_map)) as Hb'.
  { assert (file_serve file_address = toy_write wrapped_map) as -> by (vm_compute; reflexivity).
    exact (Retrieval.Witnesses.begin_example wrapped_map _ (toy_parse_write wrapped_map)). }
  rewrite Hb in Hb'. injection Hb' as ->. destruct Hr as (r & Hr & Hf).
  { intros _. exists (toy_write flat_map), flat_map.
    split; [vm_compute; reflexivity|]. split; [exact (toy_parse_write flat_map)|done]. }
  exists (Retrieval.Witnesses.fresh wrapped_map), r. split; [exact Hb|]. split; [done|]. by split.
Defined.
